(* ===== verification/_CoqProject ===== *)
-Q . S2P
Prelude.v
Proto.v
Events.v
BrokerApi.v
Memory.v
MemoryFacts.v
MemoryInv.v
MemoryDeps.v
MemorySweeps.v
MemoryResolve.v
MemoryLease.v
MemoryEnqueue.v
MemorySteps.v
MemoryProps.v
Backoff.v
Messages.v
QueueGrain.v
QueueGrainInv.v
RoundRobin.v
QueueGrainProps.v
TaskLog.v
Gateway.v
Capacity.v
GatewayFacts.v
GatewayProps.v
EventBus.v
Cron.v
Maintenance.v
MaintenanceProps.v
Encoding.v
Webhook.v
WebhookGuard.v
WebhookGuardProps.v
WebhookGateway.v
WebhookFacts.v
WebhookGatewayProps.v
WebhookLeaseProps.v
WebhookManager.v
Encryption.v
BrokerCalls.v
Postgres.v
PostgresBroker.v
PostgresOpen.v
PostgresAtomic.v
PostgresFanIn.v
PostgresSim.v
PostgresLease.v
PostgresRefines.v
Encrypted.v
MemoryBlind.v
EncryptedProps.v
Engine.v
Api.v
Session.v
SessionProps.v
AdminApi.v
Access.v
AccessProps.v
AdminProps.v
QueueSettings.v
TasksApi.v
TasksApiProps.v
WebhookApi.v
Conformance.v
ConformanceTests.v
ConformanceAdmin.v
ConformanceGraph.v
ConformanceProps.v
PostgresConformance.v
SdkWorker.v
SdkWorkerProps.v
SdkClient.v
SdkClientProps.v
Config.v
Server.v
ConfigProps.v
EventWebhook.v
Cli.v
CliProps.v
Operations.v
