(* ===== verification/Prelude.v ===== *)
(** * Conveyor: a verification development

    Conveyor is a task queue written in Go: clients enqueue tasks over an API, a
    broker keeps them in a durable task log, a cluster of actors hands them to
    workers under leases, and maintenance loops put back what was lost. This
    library models the server, both its task logs, the Go SDK and the command line
    client as Rocq definitions that evaluate, and proves what makes them correct.

    ** The program and how its parts interact

    - _The broker_ (internal/broker) is the contract of the task log: enqueueing,
      leasing, settlement under a lease, sweeps, dependencies, queue settings,
      cron and webhook registries. internal/broker/memory implements it in
      memory and internal/broker/postgres in PostgreSQL, internal/broker/encrypted seals payloads in front of any broker,
      internal/broker/brokertest is the suite every implementation has to pass.
    - _The engine_ (internal/actors) coordinates: a queue grain per queue leases
      tasks against the credits of its gateways; a gateway per worker session, or
      per webhook registration, delivers them and settles them in the log; the
      scheduler, the reaper, the dependency resolver and the group sweeper are
      timed passes over the log; wake-ups tell grains that there is work.
    - _The API_ (server/api) validates requests, keeps worker sessions to their
      frame protocol, authorises callers and turns admin calls into log writes and
      messages to live grains. server/ validates the configuration and assembles
      the node.
    - _The SDK_ (sdks/go) is the other end of both protocols: the client that
      builds requests and seals payloads, the worker that opens and runs them.
    - _The commands_ (cmd) are conveyor, a client of the task and admin services,
      and conveyord, which runs a node.

    ** Conventions

    A method is a function from its arguments and the state to the new state and
    its result; a handler of an actor is a turn that also returns what it sends.
    Errors are values of a sum or an option. Goroutines are interleaved turns: a
    run takes the list of turns, in any order. Integers are in Z, with [wrap32]
    and [wrap64] where the source can overflow; an instant is the number of
    nanoseconds since the zero time and 0 is the zero time. A Go map is a [gmap];
    where the code ranges over one, the order is whatever the class [MapRange]
    yields, and every theorem holds for all of them. Records are updated with
    [r <| field := v |>]. What is not in the repository (the actor system, HTTP,
    circuit breakers, rate limiters, AES-GCM, cron parsing, JSON and URL parsing,
    semantic versions, protobuf encoding) is a parameter or a class whose laws are
    the documented ones; SHA-256, HMAC, base64 and hex are written out.

    ** Files and the code they model

    Prelude: record update, machine integers, time, map ranges, sorting, tactics.
    Proto: task.proto. Messages: messages.proto, settings and counters.
    Events, EventBus, EventWebhook: internal/events.

    The task log: BrokerApi (broker.go: errors, records, laws), BrokerCalls (the
    interface as data), Memory (memory.go, all operations), Encryption and
    Encrypted (encryption/, internal/broker/encrypted). MemoryFacts, MemoryInv,
    MemoryDeps, MemorySweeps, MemoryResolve, MemoryLease, MemoryEnqueue,
    MemorySteps and MemoryBlind hold the lemmas; MemoryProps and EncryptedProps the
    results. Conformance, ConformanceTests, ConformanceAdmin
    and ConformanceGraph are brokertest.go as client programs over the interface;
    ConformanceProps runs them.

    The PostgreSQL log: Postgres (the tables of migrations/ and one definition per
    statement of postgres.go, a partial function on the tables written from the
    statement's text), PostgresBroker (every method, over round trips that meet a
    schedule of faults, with transactions), PostgresOpen (migrate.go and the pool),
    PostgresAtomic (faults), PostgresFanIn (resolvers interleaved statement by
    statement), PostgresSim, PostgresLease and PostgresRefines (against the
    in-memory log), PostgresConformance (the suite).

    The actors: Backoff (backoff.go), QueueGrain (queue_grain.go, group.go) with
    QueueGrainInv, RoundRobin and QueueGrainProps; TaskLog, the interface gateways
    see of the log, with its laws; Gateway (gateway.go, group.go) with Capacity,
    GatewayFacts and GatewayProps; Cron and Maintenance (cron.go, scheduler.go,
    reaper.go, resolver.go, group.go) with MaintenanceProps; Engine (engine.go,
    events.go). Webhooks: Encoding and Webhook (internal/webhook:
    jsonrpc.go, token.go, signer.go, client.go), WebhookGuard (guard.go),
    WebhookGateway and WebhookManager (webhook_gateway.go), with WebhookGuardProps,
    WebhookFacts, WebhookGatewayProps and WebhookLeaseProps.

    The API and the server: Api (what services share), Session (session.go,
    worker_service.go), AdminApi (admin_service.go, admin_service_webhooks.go),
    Access (auth.go, readonly.go), TasksApi (tasks_service.go), WebhookApi
    (webhook_service.go), Config (config.go, discovery.go), Server (server.go,
    cors.go, dashboard.go, the calls of engine.go's Start, embedded.go), with SessionProps, AccessProps, AdminProps,
    QueueSettings, TasksApiProps and ConfigProps.

    The Go SDK: SdkWorker (worker.go, group.go, mux.go, progress.go, errors.go,
    encryption.go) with SdkWorkerProps, SdkClient (client.go, options.go, task.go,
    codec.go, dependencies.go, enqueuetx.go) with SdkClientProps.

    Operating it: Cli (cmd/conveyor: main.go, admin.go, webhooks.go) with CliProps;
    Operations (DrainSessions of worker_service.go, WatchEvents and ClusterInfo of
    admin_service.go, telemetry.go, cmd/conveyord).

    ** What the theorems show

    - The log is consistent: every reachable store is well formed, each task moves
      along the edges of the task state machine and is removed only where it may be,
      leases are exclusive, ordered and guard every settling call, batches are atomic
      and name the task they fail on, unique keys are unique, dependency resolution
      settles and reconciles (MemoryProps).
    - The encrypting broker refines the plain one (EncryptedProps), and both pass
      the repository's own conformance suite (ConformanceProps).
    - The PostgreSQL log behaves as the in-memory one: for tasks outside keys, groups
      and dependencies it answers the calls of a task's life alike (PostgresRefines),
      and it passes the suite (PostgresConformance). Its calls are all or nothing under faults
      (PostgresAtomic), concurrent resolvers never strand a blocked task
      (PostgresFanIn), migrations are applied once (PostgresOpen).
    - The actors neither lose nor duplicate work: credits stay within capacity,
      concurrency keys within their limit, a lease cycle accounts for every leased
      task, dispatch is proportional to weights (QueueGrainProps); a gateway
      accounts for every delivery, up to the leaks the theorems count, and settles
      each once, against an abstract task log whose laws the in-memory broker
      satisfies (GatewayProps, WebhookGatewayProps, WebhookLeaseProps); wake-ups are never lost
      (Engine); cron slots fire once, pending work is woken (MaintenanceProps).
    - The boundary is safe: sessions follow their protocol, admin calls need their
      scope, requests are validated so that everything stored is well typed,
      callbacks need a valid lease token, guarded dials reach public addresses
      only, a validated configuration is one the server can run.
    - The ends meet: the Go worker never violates the session protocol and answers
      every delivery, what a client enqueues is what a handler receives, on
      the first delivery and on every later one, an admin
      change takes effect on live grains as on fresh ones, a page walk lists every
      task once, an admin command sends the call it stands for and exits without
      error exactly if the server did all it was asked (CliProps).
    - Watchers get their events in order (EventBus). Shutting down ends: the event
      webhook accounts for every event it takes and its Stop returns (EventWebhook),
      a drain that succeeds has waited for every handler and its gateway's stop
      (Operations), and a shutdown releases whatever a boot had started, but for the
      one case ConfigProps names.

    Each property is followed by a witness on a concrete input. Behaviours that
    differ from what the code or its comments promise are shown by lemmas of
    their own, in the last sections of several files.

    ** Bounds and fuel

    Loops that are not structural take fuel that is proved enough: dependency
    resolution one more than the number of stored tasks (in PostgreSQL the
    seeds and the dependency edges, PostgresSim), the page walk more than
    the number of listed tasks, the address check two levels, since an embedded
    IPv4 address embeds no other. That the event webhook stops is proved for every
    schedule that keeps giving each side its turn, within a number of rounds computed
    from the retry budget and the buffer. Channels, queues and maps are unbounded as in
    the source unless the source bounds them. The conformance suite is evaluated
    for ascending and descending map iteration and for the interleavings of its two
    concurrent tests that it lists; all else is proved for every order. A
    statement of PostgreSQL is atomic, and a call runs against tables no other
    call writes meanwhile, except in PostgresFanIn, where transactions interleave
    at READ COMMITTED; the refinement is about at most 2^31 calls at clock
    readings of whole microseconds, which is what the columns can hold.

    ** Not modelled

    PostgreSQL itself, its planner, isolation and recovery, beyond what a statement
    does to the tables; the parsing of command lines and the layout of tables; the
    exporters of telemetry, logging and tracing; listeners, TLS files, signals and
    the actor system's own start and stop; reading and decoding configuration
    files; generated protobuf and Connect code; the SDKs in other languages, the
    dashboard and the examples. These are the work of libraries, of generators or
    of other languages, with no state of the program's own to model. *)

From stdpp Require Export base gmap strings list fin_maps sorting.
From Stdlib Require Export ZArith Lia.

(** ** Record update *)

(** [Eta R] names the expanded form of a record value, every field read back
    from the value; it is the only thing a record declares to be updatable. *)
Class Eta (R : Type) := eta_expand : R → R.

(** [Setter proj] is the functional update of the field [proj] reads. *)
Class Setter {R T : Type} (proj : R → T) := set : (T → T) → R → R.
Arguments set {R T} proj {_} f r /.

(** Builds the setter of one field from the record's expanded form, by
    abstracting the field's occurrence in it. *)
Ltac build_setter :=
  lazymatch goal with
  | |- @Setter ?R ?T ?proj =>
      let f := fresh "f" in
      let r := fresh "r" in
      refine ((_ : (T → T) → R → R)); intros f r;
      let e := eval unfold eta_expand in (eta_expand (R := R) r) in
      let e := eval hnf in e in
      match eval pattern (proj r) in e with
      | ?g _ => let v := eval cbv beta in (g (f (proj r))) in exact v
      end
  end.

#[global] Hint Extern 1 (Setter _) => build_setter : typeclass_instances.

Declare Scope conveyor_scope.
Delimit Scope conveyor_scope with conveyor.
Notation "r <| p := v |>" := (set p (λ _, v) r)
  (at level 1, left associativity, p at level 99, v at level 99) : conveyor_scope.
Open Scope conveyor_scope.

(** Reads of updated records reduce by [cbn], field by field. Unfolding [set]
    instead would copy the updated record into each of its fields. *)
Ltac rsimpl := cbn.
Tactic Notation "rsimpl" "in" hyp(H) := cbn in H.

(** ** Go integers

    [int] and [int64] values are mathematical integers with the wrap-around of
    the arithmetic written out where the source can overflow; [int32] values
    likewise. *)
Section Integers.
Local Open Scope Z_scope.

Definition wrap (w z : Z) : Z := (z + 2 ^ (w - 1)) mod 2 ^ w - 2 ^ (w - 1).
Definition wrap32 (z : Z) : Z := wrap 32 z.
Definition wrap64 (z : Z) : Z := wrap 64 z.

Definition int32_range (z : Z) : Prop := - 2 ^ 31 <= z < 2 ^ 31.
Definition int64_range (z : Z) : Prop := - 2 ^ 63 <= z < 2 ^ 63.

Lemma wrap32_id z : int32_range z → wrap32 z = z.
Proof.
  unfold int32_range, wrap32, wrap. intros Hz.
  change (32 - 1) with 31. rewrite Z.mod_small; lia.
Qed.

Lemma wrap64_id z : int64_range z → wrap64 z = z.
Proof.
  unfold int64_range, wrap64, wrap. intros Hz.
  change (64 - 1) with 63. rewrite Z.mod_small; lia.
Qed.

Lemma wrap32_range z : int32_range (wrap32 z).
Proof.
  unfold int32_range, wrap32, wrap. change (32 - 1) with 31.
  pose proof (Z.mod_pos_bound (z + 2 ^ 31) (2 ^ 32)). lia.
Qed.

(** [clamp64] is the saturation of [time.Time.Sub], which returns the
    largest or smallest [Duration] when the difference does not fit. *)
Definition clamp64 (z : Z) : Z := Z.max (- 2 ^ 63) (Z.min (2 ^ 63 - 1) z).
End Integers.

(** ** Go time

    An instant is the number of nanoseconds since the zero [time.Time], so the
    zero value of the type is [0] and [IsZero] is a test against it. A
    [Duration] is a number of nanoseconds. *)
Abbreviation Time := Z (only parsing).
Abbreviation Duration := Z (only parsing).

Definition zeroTime : Time := 0%Z.
Definition IsZero (t : Time) : bool := (t =? 0)%Z.
Definition After (t u : Time) : bool := (u <? t)%Z.
Definition Before (t u : Time) : bool := (t <? u)%Z.
Definition Equal (t u : Time) : bool := (t =? u)%Z.
Definition time_Add (t : Time) (d : Duration) : Time := (t + d)%Z.
Definition time_Sub (t u : Time) : Duration := clamp64 (t - u)%Z.
Definition time_Compare (t u : Time) : Z :=
  if (t <? u)%Z then (-1)%Z else if (u <? t)%Z then 1%Z else 0%Z.

Definition Second : Duration := 1000000000%Z.
Definition Minute : Duration := (60 * Second)%Z.

(** ** Go strings *)

(** [strings.Compare]: bytewise lexicographic comparison. *)
Definition strings_Compare (a b : string) : Z :=
  match String.compare a b with Lt => (-1)%Z | Eq => 0%Z | Gt => 1%Z end.

(** ** Comparison functions and sorting *)

(** [Comparator P cmp]: on the elements satisfying [P], the three-way
    comparison [cmp] is a total preorder in the sense [slices.SortFunc]
    requires. *)
Class Comparator {A} (P : A → Prop) (cmp : A → A → Z) : Prop := {
  cmp_flip : ∀ a b, P a → P b → Z.sgn (cmp b a) = (- Z.sgn (cmp a b))%Z;
  cmp_lt_trans : ∀ a b c, P a → P b → P c →
    (cmp a b < 0)%Z → (cmp b c < 0)%Z → (cmp a c < 0)%Z;
  cmp_eq_l : ∀ a b c, P a → P b → P c →
    cmp a b = 0%Z → Z.sgn (cmp a c) = Z.sgn (cmp b c) }.

(** The insertion of one element before the first that is not smaller. *)
Fixpoint insert_by {A} (cmp : A → A → Z) (x : A) (l : list A) : list A :=
  match l with
  | [] => [x]
  | y :: l' => if (cmp x y <=? 0)%Z then x :: l else y :: insert_by cmp x l'
  end.

(** [slices.SortFunc]: the permutation of [l] that [cmp] orders. For a strict
    total order the result is the same for every sorting algorithm
    ([SortFunc_unique]). *)
Definition SortFunc {A} (cmp : A → A → Z) (l : list A) : list A :=
  foldr (insert_by cmp) [] l.

Section Sorting.
Context {A : Type} (P : A → Prop) (cmp : A → A → Z) `{!Comparator P cmp}.
Local Open Scope Z_scope.

Lemma cmp_le_trans a b c :
  P a → P b → P c → cmp a b <= 0 → cmp b c <= 0 → cmp a c <= 0.
Proof.
  intros Ha Hb Hc Hab Hbc.
  destruct (decide (cmp a b = 0)) as [E|N].
  { pose proof (cmp_eq_l a b c Ha Hb Hc E). lia. }
  destruct (decide (cmp b c = 0)) as [E'|N'].
  { pose proof (cmp_flip a c Ha Hc). pose proof (cmp_flip b c Hb Hc).
    pose proof (cmp_flip a b Ha Hb).
    assert (Hcb : cmp c b = 0) by lia.
    pose proof (cmp_eq_l c b a Hc Hb Ha Hcb). lia. }
  pose proof (cmp_lt_trans a b c Ha Hb Hc). lia.
Qed.

Lemma cmp_total a b : P a → P b → cmp a b <= 0 ∨ cmp b a <= 0.
Proof. intros Ha Hb. pose proof (cmp_flip a b Ha Hb). lia. Qed.

Lemma insert_by_perm x l : insert_by cmp x l ≡ₚ x :: l.
Proof.
  induction l as [|y l IH]; [done|]. simpl. destruct (cmp x y <=? 0); [done|].
  rewrite IH. apply Permutation_swap.
Qed.

Lemma SortFunc_perm l : SortFunc cmp l ≡ₚ l.
Proof.
  induction l as [|x l IH]; [done|]. cbn [SortFunc foldr].
  rewrite insert_by_perm. by constructor.
Qed.

Lemma insert_by_sorted x l :
  P x → Forall P l → StronglySorted (λ a b, cmp a b <= 0) l →
  StronglySorted (λ a b, cmp a b <= 0) (insert_by cmp x l).
Proof.
  intros Hx Hl Hs. induction Hs as [|y l Hs IH Hy]; simpl.
  { repeat constructor. }
  inversion Hl as [|?? HPy HPl]; subst.
  destruct (Z.leb_spec (cmp x y) 0) as [Hle|Hgt].
  - constructor; [by constructor|]. constructor; [done|].
    rewrite Forall_forall in Hy, HPl |- *. intros z Hz.
    eapply (cmp_le_trans x y z); eauto.
  - constructor; [eauto|]. rewrite Forall_forall in Hy |- *. intros z Hz.
    rewrite insert_by_perm in Hz. apply elem_of_cons in Hz as [->|Hz]; [|eauto].
    destruct (cmp_total x y Hx HPy); [lia|done].
Qed.

Lemma SortFunc_sorted l :
  Forall P l → StronglySorted (λ a b, cmp a b <= 0) (SortFunc cmp l).
Proof.
  intros Hl. induction Hl as [|x l Hx Hl IH]; [constructor|].
  cbn [SortFunc foldr]. apply insert_by_sorted; [done| |done].
  rewrite Forall_forall in Hl |- *. intros z Hz.
  apply Hl. by rewrite <- (SortFunc_perm l).
Qed.

(** Any sorted permutation of a list on which [cmp] separates the elements
    is the one [SortFunc] returns: the algorithm does not matter. *)
Lemma SortFunc_unique l l' :
  Forall P l → (∀ a b, a ∈ l → b ∈ l → cmp a b = 0 → a = b) →
  l' ≡ₚ l → StronglySorted (λ a b, cmp a b <= 0) l' → l' = SortFunc cmp l.
Proof.
  intros Hl Hsep Hp Hs.
  apply (StronglySorted_unique_strong (λ a b, cmp a b <= 0));
    [|done|by apply SortFunc_sorted|by rewrite SortFunc_perm].
  rewrite Forall_forall in Hl.
  intros a b Ha Hb Hab Hba. rewrite Hp in Ha. rewrite SortFunc_perm in Hb.
  apply Hsep; [done|done|]. pose proof (cmp_flip a b (Hl a Ha) (Hl b Hb)). lia.
Qed.

(** The input order, the iteration order of a map for instance, does not
    matter either. *)
Lemma SortFunc_perm_eq l1 l2 :
  Forall P l2 → (∀ a b, a ∈ l2 → b ∈ l2 → cmp a b = 0 → a = b) →
  l1 ≡ₚ l2 → SortFunc cmp l1 = SortFunc cmp l2.
Proof.
  intros Hl Hsep Hp. apply SortFunc_unique; [done|done| |].
  - by rewrite SortFunc_perm.
  - apply SortFunc_sorted. by rewrite Hp.
Qed.
End Sorting.

(** Two comparisons in sequence: the second breaks the ties of the first. *)
Definition cmp_lex {A} (c1 c2 : A → A → Z) (a b : A) : Z :=
  if decide (c1 a b = 0%Z) then c2 a b else c1 a b.

#[export] Instance cmp_lex_comparator {A} (P : A → Prop) c1 c2 :
  Comparator P c1 → Comparator P c2 → Comparator P (cmp_lex c1 c2).
Proof.
  intros H1 H2. unfold cmp_lex. split.
  - intros a b Ha Hb. pose proof (cmp_flip (cmp:=c1) a b Ha Hb).
    pose proof (cmp_flip (cmp:=c2) a b Ha Hb). repeat case_decide; lia.
  - intros a b c Ha Hb Hc.
    pose proof (cmp_flip (cmp:=c1) a b Ha Hb). pose proof (cmp_flip (cmp:=c1) b c Hb Hc).
    pose proof (cmp_flip (cmp:=c1) a c Ha Hc).
    pose proof (cmp_lt_trans (cmp:=c1) a b c Ha Hb Hc).
    pose proof (cmp_lt_trans (cmp:=c2) a b c Ha Hb Hc).
    pose proof (cmp_eq_l (cmp:=c1) a b c Ha Hb Hc).
    pose proof (cmp_eq_l (cmp:=c1) c b a Hc Hb Ha).
    repeat case_decide; lia.
  - intros a b c Ha Hb Hc.
    pose proof (cmp_eq_l (cmp:=c1) a b c Ha Hb Hc).
    pose proof (cmp_eq_l (cmp:=c2) a b c Ha Hb Hc).
    repeat case_decide; lia.
Qed.

Lemma Comparator_ext {A} (P : A → Prop) (c1 c2 : A → A → Z) :
  (∀ a b, P a → P b → Z.sgn (c1 a b) = Z.sgn (c2 a b)) →
  Comparator P c2 → Comparator P c1.
Proof.
  intros He H2. split.
  - intros a b Ha Hb. rewrite !He by done. by apply cmp_flip.
  - intros a b c Ha Hb Hc.
    pose proof (He a b Ha Hb). pose proof (He b c Hb Hc). pose proof (He a c Ha Hc).
    pose proof (cmp_lt_trans (cmp:=c2) a b c Ha Hb Hc). lia.
  - intros a b c Ha Hb Hc ?. rewrite !He by done.
    apply cmp_eq_l; [done..|]. pose proof (He a b Ha Hb). lia.
Qed.

(** Comparison through a key, ascending or descending. *)
#[export] Instance cmp_on_comparator {A B} (P : A → Prop) (f : A → B) (c : B → B → Z) :
  Comparator (λ _, True) c → Comparator P (λ a b, c (f a) (f b)).
Proof.
  intros Hc. split; intros.
  - by apply cmp_flip.
  - by eapply cmp_lt_trans.
  - by apply cmp_eq_l.
Qed.

#[export] Instance time_Compare_comparator : Comparator (λ _, True) time_Compare.
Proof.
  unfold time_Compare. split; intros;
    repeat match goal with
    | |- context [(?a <? ?b)%Z] => destruct (Z.ltb_spec a b)
    | H : context [(?a <? ?b)%Z] |- _ => destruct (Z.ltb_spec a b)
    end; lia.
Qed.

Lemma time_Compare_eq a b : time_Compare a b = 0%Z ↔ a = b.
Proof.
  unfold time_Compare. destruct (Z.ltb_spec a b); [lia|]. destruct (Z.ltb_spec b a); lia.
Qed.

Lemma time_Compare_le a b : (time_Compare a b <= 0)%Z ↔ (a <= b)%Z.
Proof.
  unfold time_Compare. destruct (Z.ltb_spec a b); [lia|]. destruct (Z.ltb_spec b a); lia.
Qed.

Lemma strings_Compare_cons c d s t :
  strings_Compare (String c s) (String d t) =
    if decide (c = d) then strings_Compare s t
    else if (Ascii.N_of_ascii c <? Ascii.N_of_ascii d)%N then (-1)%Z else 1%Z.
Proof.
  unfold strings_Compare. cbn [String.compare]. unfold Ascii.compare.
  destruct (N.compare_spec (Ascii.N_of_ascii c) (Ascii.N_of_ascii d)) as [E|L|G].
  - assert (c = d) as ->.
    { by rewrite <- (Ascii.ascii_N_embedding c), E, Ascii.ascii_N_embedding. }
    by rewrite decide_True.
  - rewrite decide_False by (intros ->; lia). by rewrite (proj2 (N.ltb_lt _ _) L).
  - rewrite decide_False by (intros ->; lia).
    destruct (N.ltb_spec (Ascii.N_of_ascii c) (Ascii.N_of_ascii d)); [lia|done].
Qed.

Lemma strings_Compare_refl a : strings_Compare a a = 0%Z.
Proof. induction a as [|c a IH]; [done|]. rewrite strings_Compare_cons, decide_True; done. Qed.

Lemma strings_Compare_eq a b : strings_Compare a b = 0%Z ↔ a = b.
Proof.
  split; [|intros ->; apply strings_Compare_refl].
  revert b. induction a as [|c a IH]; intros [|d b]; [done..|].
  rewrite strings_Compare_cons. case_decide; [intros; f_equal; auto|].
  by destruct (_ <? _)%N.
Qed.

#[export] Instance strings_Compare_comparator : Comparator (λ _, True) strings_Compare.
Proof.
  assert (Hinj : ∀ c d, c ≠ d → Ascii.N_of_ascii c ≠ Ascii.N_of_ascii d).
  { intros c d Hne E. apply Hne.
    by rewrite <- (Ascii.ascii_N_embedding c), E, Ascii.ascii_N_embedding. }
  split.
  - intros a b _ _. revert b. induction a as [|c a IH]; intros [|d b]; [done..|].
    rewrite !strings_Compare_cons. repeat case_decide; subst; [auto|done..|].
    destruct (N.ltb_spec (Ascii.N_of_ascii c) (Ascii.N_of_ascii d)),
      (N.ltb_spec (Ascii.N_of_ascii d) (Ascii.N_of_ascii c)); [lia|done..|].
    specialize (Hinj c d). lia || (exfalso; apply (Hinj ltac:(done)); lia).
  - intros a b c _ _ _. revert b c.
    induction a as [|x a IH]; intros [|y b] [|z c]; try done.
    rewrite !strings_Compare_cons. repeat case_decide; subst; try done; eauto;
    repeat match goal with
    | |- context [(?a <? ?b)%N] => destruct (N.ltb_spec a b)
    end; try lia.
  - intros a b c _ _ _ E%strings_Compare_eq. by subst.
Qed.

(** ** Map iteration

    Go leaves the iteration order of a map unspecified. [MapRange] is one
    choice of order; the operations that range over a map take it as a
    parameter and the theorems hold for every choice. A key is looked up in
    the current map when its turn comes, as Go does for entries removed or
    changed during the iteration. *)
Class MapRange := {
  range_keys : ∀ {K : Type} `{Countable K}, gset K → list K;
  range_keys_perm : ∀ {K : Type} `{Countable K} (s : gset K),
    range_keys s ≡ₚ elements s }.

(** The order of the map implementation itself, for evaluation. *)
Definition elements_range : MapRange :=
  {| range_keys := λ K _ _ s, elements s; range_keys_perm := λ K _ _ s, Permutation_refl _ |}.

(** The opposite order, a second choice. *)
Lemma rev_range_perm {K} `{Countable K} (s : gset K) : reverse (elements s) ≡ₚ elements s.
Proof. apply reverse_Permutation. Qed.
Definition reverse_range : MapRange :=
  {| range_keys := λ K _ _ s, reverse (elements s); range_keys_perm := @rev_range_perm |}.

Section Ranges.
Context {MR : MapRange} {K : Type} `{Countable K}.

Lemma elem_of_range_keys (s : gset K) k : k ∈ range_keys s ↔ k ∈ s.
Proof. by rewrite range_keys_perm, elem_of_elements. Qed.

Lemma NoDup_range_keys (s : gset K) : NoDup (range_keys s).
Proof. rewrite range_keys_perm. apply NoDup_elements. Qed.

(** [for k, v := range m]: the entries of [m] in iteration order. *)
Definition range_map {V} (m : gmap K V) : list (K * V) :=
  omap (λ k, (λ v, (k, v)) <$> m !! k) (range_keys (dom m)).

Lemma elem_of_range_map {V} (m : gmap K V) k v : (k, v) ∈ range_map m ↔ m !! k = Some v.
Proof.
  unfold range_map. rewrite list_elem_of_omap. split.
  - intros (k' & _ & E). destruct (m !! k') eqn:?; naive_solver.
  - intros E. exists k. rewrite elem_of_range_keys, elem_of_dom, E. eauto.
Qed.

Lemma NoDup_fst_range_map {V} (m : gmap K V) : NoDup (range_map m).*1.
Proof.
  unfold range_map. pose proof (NoDup_range_keys (dom m)) as Hnd.
  induction Hnd as [|k l Hk Hnd IH]; [constructor|]. simpl.
  destruct (m !! k); simpl; [|done]. constructor; [|done].
  intros ((k' & v') & -> & Hin)%list_elem_of_fmap.
  apply list_elem_of_omap in Hin as (k'' & Hin & E).
  destruct (m !! k''); naive_solver.
Qed.

Lemma NoDup_range_map {V} (m : gmap K V) : NoDup (range_map m).
Proof. eapply NoDup_fmap_1, NoDup_fst_range_map. Qed.

Lemma range_map_perm {V} (m : gmap K V) : range_map m ≡ₚ map_to_list m.
Proof.
  apply NoDup_Permutation; [apply NoDup_range_map|apply NoDup_map_to_list|].
  intros [k v]. by rewrite elem_of_range_map, elem_of_map_to_list.
Qed.
End Ranges.

(** A [range] loop over the keys of a map held in the loop state: the body runs
    for the entries still present when their turn comes. *)
Definition range_loop {K V St} `{Countable K} (cur : St → gmap K V)
    (body : K → V → St → St) (keys : list K) (st : St) : St :=
  foldl (λ s k, match cur s !! k with Some v => body k v s | None => s end) st keys.

(** Loop invariants by induction on the keys visited. *)
Lemma range_loop_ind {K V St} `{Countable K} (cur : St → gmap K V) body
    (I : list K → St → Prop) keys st :
  I [] st →
  (∀ done k s, k ∈ keys → I done s →
     I (done ++ [k]) (match cur s !! k with Some v => body k v s | None => s end)) →
  I keys (range_loop cur body keys st).
Proof.
  intros H0 Hstep. unfold range_loop.
  assert (Hgen : ∀ rest done s, (∀ k, k ∈ rest → k ∈ keys) → I done s →
    I (done ++ rest)
      (foldl (λ s k, match cur s !! k with Some v => body k v s | None => s end) s rest)).
  { induction rest as [|k rest IH]; intros done s Hsub Hd; simpl.
    - by rewrite app_nil_r.
    - rewrite (cons_middle k done rest), app_assoc.
      apply IH; [set_solver|]. apply Hstep; [set_solver|done]. }
  apply (Hgen keys [] st); [done|]. done.
Qed.

(** ** Sums and folds *)

#[local] Open Scope Z_scope.

Definition sumZ {A} (f : A → Z) (l : list A) : Z := foldr (λ x acc, f x + acc) 0 l.

Section Sums.
Context {A : Type}.
Implicit Types (f g : A → Z) (l : list A).

Lemma sumZ_perm f l l' : l ≡ₚ l' → sumZ f l = sumZ f l'.
Proof. induction 1; cbn [sumZ foldr] in *; unfold sumZ in *; cbn; lia. Qed.

Lemma sumZ_ext f g l : (∀ x, x ∈ l → f x = g x) → sumZ f l = sumZ g l.
Proof.
  intros H. induction l as [|x l IH]; [done|]. unfold sumZ in *. cbn.
  rewrite IH by (intros; apply H; by right). rewrite H by left. done.
Qed.

Lemma sumZ_fmap {C} (h : C → A) f (l : list C) : sumZ f (h <$> l) = sumZ (λ x, f (h x)) l.
Proof. induction l as [|x l IH]; [done|]. unfold sumZ in *. cbn. by rewrite IH. Qed.

Lemma sumZ_add f g l : sumZ (λ x, f x + g x) l = sumZ f l + sumZ g l.
Proof. induction l as [|x l IH]; [done|]. unfold sumZ in *. cbn. lia. Qed.

Lemma sumZ_mul c f l : sumZ (λ x, c * f x) l = c * sumZ f l.
Proof. induction l as [|x l IH]; unfold sumZ in *; cbn; lia. Qed.

Lemma sumZ_const c l : sumZ (λ _ : A, c) l = c * Z.of_nat (length l).
Proof. induction l as [|x l IH]; unfold sumZ in *; cbn; lia. Qed.

Lemma sumZ_le f g l : (∀ x, x ∈ l → f x <= g x) → sumZ f l <= sumZ g l.
Proof.
  intros H. induction l as [|x l IH]; [done|]. unfold sumZ in *. cbn.
  pose proof (H x ltac:(left)). specialize (IH (λ y Hy, H y (list_elem_of_further _ _ _ Hy))). lia.
Qed.

Lemma sumZ_nonneg f l : (∀ x, x ∈ l → 0 <= f x) → 0 <= sumZ f l.
Proof. intros H. pose proof (sumZ_le (λ _, 0) f l H). rewrite sumZ_const in H0. lia. Qed.

Lemma sumZ_in f l x : (∀ x, x ∈ l → 0 <= f x) → x ∈ l → f x <= sumZ f l.
Proof.
  intros H Hx. induction Hx as [x l|x y l Hx IH]; unfold sumZ in *; cbn.
  - pose proof (sumZ_nonneg f l ltac:(intros; apply H; by right)). unfold sumZ in *. lia.
  - specialize (IH ltac:(intros; apply H; by right)). pose proof (H y ltac:(left)). lia.
Qed.

(** Accumulators that stay within their width compute the sum. *)
Lemma foldl_wrap64 f l a :
  (∀ x, x ∈ l → 0 <= f x) → 0 <= a → a + sumZ f l < 2 ^ 63 →
  foldl (λ acc x, wrap64 (acc + f x)) a l = a + sumZ f l.
Proof.
  revert a. induction l as [|x l IH]; intros a Hf Ha Hb; unfold sumZ in *; cbn in *; [lia|].
  pose proof (sumZ_nonneg f l ltac:(intros; apply Hf; by right)). unfold sumZ in *.
  pose proof (Hf x ltac:(left)).
  rewrite wrap64_id by (unfold int64_range; lia).
  rewrite IH; [lia|intros; apply Hf; by right|lia|lia].
Qed.

Lemma foldl_wrap32 f l a :
  (∀ x, x ∈ l → 0 <= f x) → 0 <= a → a + sumZ f l < 2 ^ 31 →
  foldl (λ acc x, wrap32 (acc + f x)) a l = a + sumZ f l.
Proof.
  revert a. induction l as [|x l IH]; intros a Hf Ha Hb; unfold sumZ in *; cbn in *; [lia|].
  pose proof (sumZ_nonneg f l ltac:(intros; apply Hf; by right)). unfold sumZ in *.
  pose proof (Hf x ltac:(left)).
  rewrite wrap32_id by (unfold int32_range; lia).
  rewrite IH; [lia|intros; apply Hf; by right|lia|lia].
Qed.
End Sums.

(** Inserting a list of distinct keys. *)
Lemma foldl_insert_lookup {K A V} `{Countable K} (key : A → K) (value : A → V) l (m : gmap K V) q :
  NoDup (key <$> l) →
  foldl (λ m x, <[key x := value x]> m) m l !! q =
    match list_find (λ x, key x = q) l with Some (_, x) => Some (value x) | None => m !! q end.
Proof.
  revert m. induction l as [|x l IH]; intros m Hn; [reflexivity|].
  cbn [fmap list_fmap] in Hn. apply NoDup_cons in Hn as [Hx Hn]. cbn [foldl].
  rewrite IH by done. cbn [list_find]. destruct (decide (key x = q)) as [Hq|Hne].
  - destruct (list_find _ l) as [[i y]|] eqn:E; cbn.
    + apply list_find_Some in E as (Hy & Hk & _). destruct Hx.
      apply list_elem_of_fmap. exists y. split; [congruence|]. by eapply list_elem_of_lookup_2.
    + subst q. apply lookup_insert_eq.
  - destruct (list_find _ l) as [[i y]|] eqn:E; cbn; [done|]. by apply lookup_insert_ne.
Qed.

Lemma foldl_insert_in {K A V} `{Countable K} (key : A → K) (value : A → V) l (m : gmap K V) x :
  NoDup (key <$> l) → x ∈ l →
  foldl (λ m x, <[key x := value x]> m) m l !! key x = Some (value x).
Proof.
  intros Hn Hx. rewrite foldl_insert_lookup by done.
  destruct (list_find _ l) as [[i y]|] eqn:E.
  - apply list_find_Some in E as (Hy & Hk & _).
    apply list_elem_of_lookup in Hx as [j Hj].
    assert (i = j) as ->.
    { eapply (NoDup_lookup _ _ _ (key y)); [exact Hn| |]; rewrite list_lookup_fmap.
      - by rewrite Hy. - rewrite Hj. cbn. by rewrite Hk. }
    congruence.
  - apply list_find_None in E. rewrite Forall_forall in E. by destruct (E x Hx).
Qed.

Lemma foldl_insert_dom {K A V} `{Countable K} (key : A → K) (value : A → V) l (m : gmap K V) :
  dom (foldl (λ m x, <[key x := value x]> m) m l) = list_to_set (key <$> l) ∪ dom m.
Proof.
  revert m. induction l as [|x l IH]; intros m; cbn; [set_solver|]. rewrite IH, dom_insert_L. set_solver.
Qed.

Lemma foldl_ext_in {A C} (f g : C → A → C) (l : list A) c :
  (∀ c x, x ∈ l → f c x = g c x) → foldl f c l = foldl g c l.
Proof.
  revert c. induction l as [|x l IH]; intros c H; [done|]. cbn. rewrite H by left.
  apply IH. intros; apply H. by right.
Qed.

Lemma fmap_ext_in {A C} (f g : A → C) (l : list A) :
  (∀ x, x ∈ l → f x = g x) → f <$> l = g <$> l.
Proof.
  induction l as [|x l IH]; intros H; [done|]. cbn. rewrite H by left. f_equal.
  apply IH. intros; apply H. by right.
Qed.
