(* ===== verification/Proto.v ===== *)
(** * The task messages (protos/conveyor/v1/task.proto)

    The lifecycle states, event types, dependency policies and the durable
    task envelope with its options. A message field of a scalar type is that
    type; a [Timestamp], [Duration] or nested message pointer is an [option],
    [None] being nil. A getter on a nil message returns the field's zero
    value, which [GetOptions] models with the all-zero options. *)

From S2P Require Import Prelude.
From Stdlib Require Import Strings.Byte.

Inductive TaskState :=
  | TASK_STATE_UNSPECIFIED
  | TASK_STATE_SCHEDULED
  | TASK_STATE_PENDING
  | TASK_STATE_ACTIVE
  | TASK_STATE_RETRY
  | TASK_STATE_COMPLETED
  | TASK_STATE_ARCHIVED
  | TASK_STATE_CANCELED
  | TASK_STATE_AGGREGATING
  | TASK_STATE_BLOCKED.

#[global] Instance TaskState_eq_dec : EqDecision TaskState.
Proof. solve_decision. Defined.

Inductive TaskEventType :=
  | TASK_EVENT_TYPE_UNSPECIFIED
  | TASK_EVENT_TYPE_ENQUEUED
  | TASK_EVENT_TYPE_SCHEDULED
  | TASK_EVENT_TYPE_LEASED
  | TASK_EVENT_TYPE_COMPLETED
  | TASK_EVENT_TYPE_RETRIED
  | TASK_EVENT_TYPE_ARCHIVED
  | TASK_EVENT_TYPE_CANCELED
  | TASK_EVENT_TYPE_RELEASED.

#[global] Instance TaskEventType_eq_dec : EqDecision TaskEventType.
Proof. solve_decision. Defined.

Record TaskEvent := mkTaskEvent {
  ev_Id : string;
  ev_Queue : string;
  ev_Type : string;
  ev_State : TaskState;
  ev_EventType : TaskEventType;
  ev_OccurredAt : Time;
  ev_Attempt : Z;
  ev_LastError : string }.

Inductive DependencyFailurePolicy :=
  | DEPENDENCY_FAILURE_POLICY_UNSPECIFIED
  | DEPENDENCY_FAILURE_POLICY_BLOCK
  | DEPENDENCY_FAILURE_POLICY_CASCADE_CANCEL
  | DEPENDENCY_FAILURE_POLICY_CONTINUE.

#[global] Instance DependencyFailurePolicy_eq_dec : EqDecision DependencyFailurePolicy.
Proof. solve_decision. Defined.

Record TaskDependency := mkTaskDependency {
  dep_TaskId : string;
  dep_OnFailure : DependencyFailurePolicy }.

Inductive RetryStrategy :=
  | RETRY_STRATEGY_UNSPECIFIED
  | RETRY_STRATEGY_EXPONENTIAL
  | RETRY_STRATEGY_LINEAR
  | RETRY_STRATEGY_FIXED.

#[global] Instance RetryStrategy_eq_dec : EqDecision RetryStrategy.
Proof. solve_decision. Defined.

Record RetryPolicy := mkRetryPolicy {
  rp_Strategy : RetryStrategy;
  rp_Base : option Duration;
  rp_Max : option Duration }.

Record TaskOptions := mkTaskOptions {
  opt_MaxRetry : Z;
  opt_Timeout : option Duration;
  opt_Deadline : option Time;
  opt_ProcessAt : option Time;
  opt_UniqueKey : string;
  opt_UniqueTtl : option Duration;
  opt_Retention : option Duration;
  opt_Priority : Z;
  opt_Group : string;
  opt_ExpiresAt : option Time;
  opt_DependsOn : list TaskDependency;
  opt_ConcurrencyKey : string;
  opt_RetryPolicy : option RetryPolicy }.

#[global] Instance TaskOptions_eta : Eta TaskOptions := λ o,
  mkTaskOptions (opt_MaxRetry o) (opt_Timeout o) (opt_Deadline o) (opt_ProcessAt o)
    (opt_UniqueKey o) (opt_UniqueTtl o) (opt_Retention o) (opt_Priority o) (opt_Group o)
    (opt_ExpiresAt o) (opt_DependsOn o) (opt_ConcurrencyKey o) (opt_RetryPolicy o).

(** [&conveyorv1.TaskOptions{}]: every field at its zero value. *)
Definition emptyTaskOptions : TaskOptions :=
  mkTaskOptions 0 None None None "" None None 0 "" None [] "" None.

Record TaskEnvelope := mkTaskEnvelope {
  env_Id : string;
  env_Queue : string;
  env_Type : string;
  env_Payload : list byte;
  env_ContentType : string;
  env_Metadata : gmap string string;
  env_Options : option TaskOptions;
  env_Retried : Z;
  env_LastError : string;
  env_EnqueuedAt : option Time;
  env_StartedAt : option Time;
  env_CompletedAt : option Time;
  env_Progress : Z;
  env_ProgressMessage : string }.

#[global] Instance TaskEnvelope_eta : Eta TaskEnvelope := λ e,
  mkTaskEnvelope (env_Id e) (env_Queue e) (env_Type e) (env_Payload e) (env_ContentType e)
    (env_Metadata e) (env_Options e) (env_Retried e) (env_LastError e) (env_EnqueuedAt e)
    (env_StartedAt e) (env_CompletedAt e) (env_Progress e) (env_ProgressMessage e).

(** The nil-safe getter chain [task.GetOptions().GetX()]. *)
Definition GetOptions (e : TaskEnvelope) : TaskOptions := default emptyTaskOptions (env_Options e).

(** [Duration.AsDuration] of a possibly nil duration. *)
Definition AsDuration (d : option Duration) : Duration := default 0%Z d.
