(* ===== verification/Events.v ===== *)
(** * Lifecycle events (internal/events)

    [Derive] and [classify] map a state transition to the event every broker
    emits for it; [Filter] and [EventBus] fan events out to subscribers with a
    bounded buffer each. *)

From S2P Require Import Prelude Proto.

(** ** Derivation (derive.go) *)

Definition classify (oldState newState : TaskState) : TaskEventType :=
  match newState with
  | TASK_STATE_ACTIVE => TASK_EVENT_TYPE_LEASED
  | TASK_STATE_COMPLETED => TASK_EVENT_TYPE_COMPLETED
  | TASK_STATE_RETRY => TASK_EVENT_TYPE_RETRIED
  | TASK_STATE_ARCHIVED => TASK_EVENT_TYPE_ARCHIVED
  | TASK_STATE_CANCELED => TASK_EVENT_TYPE_CANCELED
  | TASK_STATE_SCHEDULED => TASK_EVENT_TYPE_SCHEDULED
  | TASK_STATE_PENDING =>
      if decide (oldState = TASK_STATE_ACTIVE) then TASK_EVENT_TYPE_RELEASED
      else TASK_EVENT_TYPE_ENQUEUED
  | TASK_STATE_AGGREGATING | TASK_STATE_BLOCKED => TASK_EVENT_TYPE_ENQUEUED
  | TASK_STATE_UNSPECIFIED => TASK_EVENT_TYPE_UNSPECIFIED
  end.

Definition Derive (oldState newState : TaskState) (id queue taskType lastError : string)
    (attempt : Z) (occurredAt : Time) : option TaskEvent :=
  if decide (oldState = newState) then None
  else
    let eventType := classify oldState newState in
    if decide (eventType = TASK_EVENT_TYPE_UNSPECIFIED) then None
    else Some (mkTaskEvent id queue taskType newState eventType occurredAt attempt lastError).
