(* ===== verification/BrokerApi.v ===== *)
(** * The broker contract (internal/broker/broker.go)

    The sentinel errors, the configuration and query records and the
    constants every broker shares. The interface's operations are modelled by
    the in-memory broker ([Memory.v]); the laws its clients rely on are the
    classes of [TaskLog.v]. *)

From S2P Require Import Prelude Proto.
From Stdlib Require Import Floats.SpecFloat Strings.Byte.

Inductive BrokerError :=
  | ErrDuplicateTask
  | ErrTaskNotFound
  | ErrLeaseLost
  | ErrInvalidState
  | ErrGroupedSchedule
  | ErrTaskHasDependents.

#[global] Instance BrokerError_eq_dec : EqDecision BrokerError.
Proof. solve_decision. Defined.

Record BatchError := mkBatchError {
  be_Index : nat;
  be_TaskID : string;
  be_Err : BrokerError }.

(** [BatchError.Unwrap]: the cause [errors.Is] matches. *)
Definition Unwrap (e : BatchError) : BrokerError := be_Err e.

Definition DefaultListLimit : Z := 50.
Definition MaxListLimit : Z := 1000.

Definition EffectiveListLimit (limit : Z) : Z :=
  if (limit <=? 0)%Z then DefaultListLimit
  else if (MaxListLimit <? limit)%Z then MaxListLimit
  else limit.

Definition LeaseExpiredMessage : string := "lease expired".
Definition TaskExpiredMessage : string := "task expired before dispatch".
Definition CascadeCanceledMessage : string := "canceled by failed dependency".

Record CronEntry := mkCronEntry {
  cron_ID : string;
  cron_Spec : string;
  cron_TaskType : string;
  cron_Queue : string;
  cron_Payload : list byte;
  cron_ContentType : string;
  cron_Options : option TaskOptions;
  cron_Paused : bool;
  cron_NextRunAt : Time }.

#[global] Instance CronEntry_eta : Eta CronEntry := λ c,
  mkCronEntry (cron_ID c) (cron_Spec c) (cron_TaskType c) (cron_Queue c) (cron_Payload c)
    (cron_ContentType c) (cron_Options c) (cron_Paused c) (cron_NextRunAt c).

Record WebhookWorker := mkWebhookWorker {
  wh_Name : string;
  wh_URL : string;
  wh_Queues : gmap string Z;
  wh_Concurrency : Z;
  wh_Secrets : list string;
  wh_BatchTypes : list string;
  wh_RequestTimeout : Duration;
  wh_Paused : bool }.

#[global] Instance WebhookWorker_eta : Eta WebhookWorker := λ w,
  mkWebhookWorker (wh_Name w) (wh_URL w) (wh_Queues w) (wh_Concurrency w) (wh_Secrets w)
    (wh_BatchTypes w) (wh_RequestTimeout w) (wh_Paused w).

Record AckItem := mkAckItem {
  ack_TaskID : string;
  ack_LeaseID : string;
  ack_Result : list byte }.

Record Info := mkInfo {
  info_Driver : string;
  info_Metrics : gmap string string }.

Record QueueStat := mkQueueStat {
  qs_Queue : string;
  qs_Paused : bool;
  qs_Scheduled : Z;
  qs_Pending : Z;
  qs_Active : Z;
  qs_Retry : Z;
  qs_Completed : Z;
  qs_Archived : Z;
  qs_Aggregating : Z;
  qs_Blocked : Z }.

#[global] Instance QueueStat_eta : Eta QueueStat := λ q,
  mkQueueStat (qs_Queue q) (qs_Paused q) (qs_Scheduled q) (qs_Pending q) (qs_Active q)
    (qs_Retry q) (qs_Completed q) (qs_Archived q) (qs_Aggregating q) (qs_Blocked q).

Record GroupStat := mkGroupStat {
  gs_Queue : string;
  gs_Group : string;
  gs_Type : string;
  gs_Count : Z;
  gs_Oldest : Time;
  gs_Newest : Time }.

#[global] Instance GroupStat_eta : Eta GroupStat := λ g,
  mkGroupStat (gs_Queue g) (gs_Group g) (gs_Type g) (gs_Count g) (gs_Oldest g) (gs_Newest g).

(** The dispatch rate is a [float64], represented by its IEEE value. *)
Record RateLimit := mkRateLimit {
  rl_Queue : string;
  rl_RatePerSec : spec_float;
  rl_Burst : Z;
  rl_UpdatedAt : Time }.

Record ConcurrencyLimit := mkConcurrencyLimit {
  cl_Queue : string;
  cl_MaxActive : Z;
  cl_UpdatedAt : Time }.

Record GroupConfig := mkGroupConfig {
  gc_Queue : string;
  gc_Group : string;
  gc_MaxSize : Z;
  gc_MaxDelay : Duration;
  gc_GracePeriod : Duration;
  gc_UpdatedAt : Time }.

Record TaskRecord := mkTaskRecord {
  rec_Envelope : TaskEnvelope;
  rec_State : TaskState }.

Record TaskQuery := mkTaskQuery {
  query_Queue : string;
  query_State : TaskState;
  query_Limit : Z;
  query_AfterID : string }.
