(* ===== verification/Memory.v ===== *)
(** * The in-memory broker (internal/broker/memory/memory.go)

    The store as a record and every operation as a function on it. A
    [*taskRow] held in [b.tasks] is the row stored under its key: an
    assignment through the pointer is an insertion at that key. The broker
    mutex makes an operation atomic, so an operation is one function from
    store to store; [now] is what the injected clock returned. An operation
    that can fail returns the store with an optional error, [None] being nil.
    The rows are values, so the defensive copies of the source ([proto.Clone],
    [cloneCronEntry], [cloneWebhookWorker]) are the values themselves. *)

From S2P Require Import Prelude Proto Events BrokerApi.
From stdpp Require Import pretty.
From Stdlib Require Import Floats.SpecFloat Strings.Byte.

Definition maxProgressPercent : Z := 100.

(** ** State *)

Record taskRow := mkTaskRow {
  row_envelope : TaskEnvelope;
  row_state : TaskState;
  row_priority : Z;
  row_processAt : Time;
  row_expiresAt : Time;
  row_retried : Z;
  row_lastError : string;
  row_leaseID : string;
  row_leaseExpiresAt : Time;
  row_startedAt : Time;
  row_completedAt : Time;
  row_progress : Z;
  row_progressMessage : string;
  row_retention : Duration;
  row_uniqueKey : string;
  row_uniqueExpiresAt : Time;
  row_maxRetry : Z;
  row_group : string;
  row_enqueuedAt : Time;
  row_deps : gmap string DependencyFailurePolicy }.

#[global] Instance taskRow_eta : Eta taskRow := λ r,
  mkTaskRow (row_envelope r) (row_state r) (row_priority r) (row_processAt r)
    (row_expiresAt r) (row_retried r) (row_lastError r) (row_leaseID r)
    (row_leaseExpiresAt r) (row_startedAt r) (row_completedAt r) (row_progress r)
    (row_progressMessage r) (row_retention r) (row_uniqueKey r) (row_uniqueExpiresAt r)
    (row_maxRetry r) (row_group r) (row_enqueuedAt r) (row_deps r).

(** [br_sink] records whether a sink is wired and [br_emitted] what it
    received, oldest first. *)
Record Broker := mkBroker {
  br_tasks : gmap string taskRow;
  br_pausedQueues : gmap string bool;
  br_rateLimits : gmap string RateLimit;
  br_concurrencyLimits : gmap string ConcurrencyLimit;
  br_groupConfigs : gmap (string * string) GroupConfig;
  br_cronEntries : gmap string CronEntry;
  br_webhookWorkers : gmap string WebhookWorker;
  br_dependents : gmap string (gset string);
  br_sink : bool;
  br_emitted : list TaskEvent }.

#[global] Instance Broker_eta : Eta Broker := λ b,
  mkBroker (br_tasks b) (br_pausedQueues b) (br_rateLimits b) (br_concurrencyLimits b)
    (br_groupConfigs b) (br_cronEntries b) (br_webhookWorkers b) (br_dependents b)
    (br_sink b) (br_emitted b).

Definition New : Broker := mkBroker ∅ ∅ ∅ ∅ ∅ ∅ ∅ ∅ false [].

Definition SetEventSink (b : Broker) : Broker := b <| br_sink := true |>.

Definition emit (oldState newState : TaskState) (id queue taskType lastError : string)
    (attempt : Z) (occurredAt : Time) (b : Broker) : Broker :=
  if br_sink b then
    match Derive oldState newState id queue taskType lastError attempt occurredAt with
    | Some event => b <| br_emitted := br_emitted b ++ [event] |>
    | None => b
    end
  else b.

(** The store write every row assignment amounts to. *)
Definition put_row (id : string) (row : taskRow) (b : Broker) : Broker :=
  b <| br_tasks := <[id := row]> (br_tasks b) |>.

(** The event of a row's transition, with the arguments every call site
    passes. *)
Definition emit_row (oldState : TaskState) (id : string) (row : taskRow) (now : Time)
    (b : Broker) : Broker :=
  emit oldState (row_state row) id (env_Queue (row_envelope row)) (env_Type (row_envelope row))
    (row_lastError row) (row_retried row) now b.

Definition addDependent (dependencyID dependentID : string) (b : Broker) : Broker :=
  let waiters := default ∅ (br_dependents b !! dependencyID) in
  b <| br_dependents := <[dependencyID := {[dependentID]} ∪ waiters]> (br_dependents b) |>.

Definition removeDependent (dependencyID dependentID : string) (b : Broker) : Broker :=
  match br_dependents b !! dependencyID with
  | None => b
  | Some waiters =>
      let waiters := waiters ∖ {[dependentID]} in
      if decide (size waiters = 0%nat) then
        b <| br_dependents := delete dependencyID (br_dependents b) |>
      else b <| br_dependents := <[dependencyID := waiters]> (br_dependents b) |>
  end.

(** ** State classes *)

Definition incomplete (state : TaskState) : bool :=
  match state with
  | TASK_STATE_SCHEDULED | TASK_STATE_PENDING | TASK_STATE_ACTIVE | TASK_STATE_RETRY
  | TASK_STATE_AGGREGATING | TASK_STATE_BLOCKED => true
  | _ => false
  end.

Definition dispatchable (state : TaskState) : bool :=
  match state with
  | TASK_STATE_PENDING | TASK_STATE_RETRY => true
  | _ => false
  end.

Definition terminal (state : TaskState) : bool :=
  match state with
  | TASK_STATE_COMPLETED | TASK_STATE_ARCHIVED | TASK_STATE_CANCELED => true
  | _ => false
  end.

(** ** Enqueue *)

Definition dependencyPolicy (policy : DependencyFailurePolicy) : DependencyFailurePolicy :=
  match policy with
  | DEPENDENCY_FAILURE_POLICY_UNSPECIFIED => DEPENDENCY_FAILURE_POLICY_BLOCK
  | p => p
  end.

(** The loop of [resolveInitialDeps]; the boolean is the immediate
    cancellation. *)
Fixpoint resolveInitialDeps_loop (b : Broker) (taskID : string)
    (edges : list TaskDependency) (deps : gmap string DependencyFailurePolicy)
    : gmap string DependencyFailurePolicy * bool :=
  match edges with
  | [] => (deps, false)
  | edge :: rest =>
      let depID := dep_TaskId edge in
      if decide (depID = "" ∨ depID = taskID) then resolveInitialDeps_loop b taskID rest deps
      else
        let policy := dependencyPolicy (dep_OnFailure edge) in
        match br_tasks b !! depID with
        | None => resolveInitialDeps_loop b taskID rest (<[depID := policy]> deps)
        | Some dep =>
            match row_state dep with
            | TASK_STATE_COMPLETED => resolveInitialDeps_loop b taskID rest deps
            | TASK_STATE_ARCHIVED | TASK_STATE_CANCELED =>
                match policy with
                | DEPENDENCY_FAILURE_POLICY_CONTINUE =>
                    resolveInitialDeps_loop b taskID rest deps
                | DEPENDENCY_FAILURE_POLICY_CASCADE_CANCEL => (∅, true)
                | _ => resolveInitialDeps_loop b taskID rest (<[depID := policy]> deps)
                end
            | _ => resolveInitialDeps_loop b taskID rest (<[depID := policy]> deps)
            end
        end
  end.

Definition resolveInitialDeps (b : Broker) (taskID : string) (edges : list TaskDependency)
    : gmap string DependencyFailurePolicy * bool :=
  resolveInitialDeps_loop b taskID edges ∅.

Record stagedTask := mkStagedTask {
  st_id : string;
  st_queue : string;
  st_taskType : string;
  st_state : TaskState;
  st_row : taskRow }.

(** The three ways [stageEnqueue] returns. *)
Inductive stageResult :=
  | Staged (s : stagedTask)
  | Skip
  | StageError (e : BrokerError).

Section Operations.
Context {MR : MapRange}.

Definition uniqueKeyClaimed (key : string) (now : Time) (b : Broker) : bool :=
  existsb (λ '(_, row),
    bool_decide (row_uniqueKey row = key) && incomplete (row_state row) &&
    (IsZero (row_uniqueExpiresAt row) || After (row_uniqueExpiresAt row) now))
    (range_map (br_tasks b)).

(** The row [stageEnqueue] builds once the checks have passed. *)
Definition stage_row (task : TaskEnvelope) (now : Time) (state : TaskState)
    (processAt : Time) (deps : gmap string DependencyFailurePolicy) : taskRow :=
  let options := GetOptions task in
  {| row_envelope := task;
     row_state := state;
     row_priority := opt_Priority options;
     row_processAt := processAt;
     row_expiresAt := default zeroTime (opt_ExpiresAt options);
     row_retried := env_Retried task;
     row_lastError := env_LastError task;
     row_leaseID := "";
     row_leaseExpiresAt := zeroTime;
     row_startedAt := zeroTime;
     row_completedAt :=
       if decide (state = TASK_STATE_CANCELED) then now else zeroTime;
     row_progress := 0;
     row_progressMessage := "";
     row_retention := AsDuration (opt_Retention options);
     row_uniqueKey := opt_UniqueKey options;
     row_uniqueExpiresAt :=
       match opt_UniqueTtl options with
       | Some ttl => if decide (opt_UniqueKey options = "") then zeroTime else time_Add now ttl
       | None => zeroTime
       end;
     row_maxRetry := opt_MaxRetry options;
     row_group := opt_Group options;
     row_enqueuedAt := default now (env_EnqueuedAt task);
     row_deps := deps |}.

Definition stageEnqueue (task : TaskEnvelope) (now : Time) (batchIDs batchKeys : gset string)
    (b : Broker) : stageResult :=
  let id := env_Id task in
  if decide (is_Some (br_tasks b !! id)) then Skip
  else if decide (id ∈ batchIDs) then Skip
  else
    let options := GetOptions task in
    let uniqueKey := opt_UniqueKey options in
    if negb (bool_decide (uniqueKey = "")) &&
       (uniqueKeyClaimed uniqueKey now b || bool_decide (uniqueKey ∈ batchKeys))
    then StageError ErrDuplicateTask
    else
      let processAt := default now (opt_ProcessAt options) in
      let group := opt_Group options in
      if negb (bool_decide (group = "")) && After processAt now
      then StageError ErrGroupedSchedule
      else
        let state :=
          if negb (bool_decide (group = "")) then TASK_STATE_AGGREGATING
          else if After processAt now then TASK_STATE_SCHEDULED
          else TASK_STATE_PENDING in
        let '(deps, cancel) := resolveInitialDeps b id (opt_DependsOn options) in
        let state :=
          if cancel : bool then TASK_STATE_CANCELED
          else if decide (deps = ∅) then state
          else TASK_STATE_BLOCKED in
        Staged {| st_id := id;
                  st_queue := env_Queue task;
                  st_taskType := env_Type task;
                  st_state := state;
                  st_row := stage_row task now state processAt deps |}.

Definition applyStaged (staged : stagedTask) (now : Time) (b : Broker) : Broker :=
  let row := st_row staged in
  let b := foldl (λ b dependencyID, addDependent dependencyID (st_id staged) b) b
             (range_keys (dom (row_deps row))) in
  let b := put_row (st_id staged) row b in
  emit TASK_STATE_UNSPECIFIED (st_state staged) (st_id staged) (st_queue staged)
    (st_taskType staged) (row_lastError row) (row_retried row) now b.

Definition Enqueue (task : TaskEnvelope) (now : Time) (b : Broker)
    : Broker * option BrokerError :=
  match stageEnqueue task now ∅ ∅ b with
  | StageError err => (b, Some err)
  | Skip => (b, None)
  | Staged staged => (applyStaged staged now b, None)
  end.

(** The staging loop of [EnqueueBatch]: the staged tasks in order, or the
    first failure with its position. *)
Fixpoint stageBatch (tasks : list TaskEnvelope) (index : nat) (now : Time)
    (batchIDs batchKeys : gset string) (b : Broker) : list stagedTask + BatchError :=
  match tasks with
  | [] => inl []
  | task :: rest =>
      match stageEnqueue task now batchIDs batchKeys b with
      | StageError err => inr (mkBatchError index (env_Id task) err)
      | Skip => stageBatch rest (S index) now batchIDs batchKeys b
      | Staged entry =>
          let batchIDs := {[st_id entry]} ∪ batchIDs in
          let batchKeys :=
            if decide (row_uniqueKey (st_row entry) = "") then batchKeys
            else {[row_uniqueKey (st_row entry)]} ∪ batchKeys in
          match stageBatch rest (S index) now batchIDs batchKeys b with
          | inl staged => inl (entry :: staged)
          | inr err => inr err
          end
      end
  end.

Definition EnqueueBatch (tasks : list TaskEnvelope) (now : Time) (b : Broker)
    : Broker * option BatchError :=
  match stageBatch tasks 0 now ∅ ∅ b with
  | inr err => (b, Some err)
  | inl staged => (foldl (λ b entry, applyStaged entry now b) b staged, None)
  end.

(** ** Leasing *)

Definition expired (row : taskRow) (now : Time) : bool :=
  negb (IsZero (row_expiresAt row)) && negb (After (row_expiresAt row) now).

Definition overlay (row : taskRow) : TaskEnvelope :=
  let envelope := row_envelope row in
  let envelope := envelope <| env_Retried := row_retried row |> in
  let envelope := envelope <| env_LastError := row_lastError row |> in
  let options := GetOptions envelope in
  let envelope := envelope <| env_Options :=
    Some (options <| opt_ProcessAt := Some (row_processAt row) |>) |> in
  let envelope :=
    if IsZero (row_startedAt row) then envelope
    else envelope <| env_StartedAt := Some (row_startedAt row) |> in
  let envelope :=
    if IsZero (row_completedAt row) then envelope
    else envelope <| env_CompletedAt := Some (row_completedAt row) |> in
  envelope <| env_Progress := row_progress row |>
           <| env_ProgressMessage := row_progressMessage row |>.

(** The comparison of [Lease]: priority descending through an [int32]
    subtraction, then due time, then id. *)
Definition compareDue (a other : taskRow) : Z :=
  if negb (row_priority a =? row_priority other)%Z then
    wrap32 (row_priority other - row_priority a)
  else if negb (Equal (row_processAt a) (row_processAt other)) then
    time_Compare (row_processAt a) (row_processAt other)
  else strings_Compare (env_Id (row_envelope a)) (env_Id (row_envelope other)).

(** The comparison of [LeaseGroup]. *)
Definition compareMembers (a other : taskRow) : Z :=
  if negb (Equal (row_enqueuedAt a) (row_enqueuedAt other)) then
    time_Compare (row_enqueuedAt a) (row_enqueuedAt other)
  else strings_Compare (env_Id (row_envelope a)) (env_Id (row_envelope other)).

(** The row of a claimed task. *)
Definition claim_row (now : Time) (ttl : Duration) (leaseID : string) (row : taskRow) : taskRow :=
  row <| row_state := TASK_STATE_ACTIVE |>
      <| row_leaseID := leaseID |>
      <| row_leaseExpiresAt := time_Add now ttl |>
      <| row_startedAt := now |>
      <| row_progress := 0%Z |>
      <| row_progressMessage := "" |>.

(** The claiming loop [Lease] and [LeaseGroup] share, over the selected rows
    with their keys. *)
Fixpoint claim (now : Time) (ttl : Duration) (leaseID : string)
    (due : list (string * taskRow)) (b : Broker) : Broker * list TaskEnvelope :=
  match due with
  | [] => (b, [])
  | (id, row) :: rest =>
      let oldState := row_state row in
      let row := claim_row now ttl leaseID row in
      let b := put_row id row b in
      let b := emit_row oldState (env_Id (row_envelope row)) row now b in
      let '(b, leased) := claim now ttl leaseID rest b in
      (b, overlay row :: leased)
  end.

(** The filter of [Lease]. *)
Definition leasable (queue : string) (now : Time) (row : taskRow) : bool :=
  bool_decide (env_Queue (row_envelope row) = queue) && dispatchable (row_state row) &&
  negb (After (row_processAt row) now) && negb (expired row now).

(** The rows [Lease] claims, in claiming order. *)
Definition dueTasks (queue : string) (limit : Z) (now : Time) (b : Broker)
    : list (string * taskRow) :=
  let due := filter (λ p, leasable queue now p.2 = true) (range_map (br_tasks b)) in
  let due := SortFunc (λ a other, compareDue a.2 other.2) due in
  if (limit <? Z.of_nat (length due))%Z then take (Z.to_nat limit) due else due.

Definition Lease (queue : string) (limit : Z) (ttl : Duration) (leaseID : string) (now : Time)
    (b : Broker) : Broker * list TaskEnvelope :=
  if (limit <=? 0)%Z then (b, [])
  else claim now ttl leaseID (dueTasks queue limit now b) b.

(** The filter of [LeaseGroup]. *)
Definition groupMember (queue group : string) (row : taskRow) : bool :=
  bool_decide (row_state row = TASK_STATE_AGGREGATING) &&
  bool_decide (env_Queue (row_envelope row) = queue) && bool_decide (row_group row = group).

Definition groupMembers (queue group : string) (limit : Z) (b : Broker)
    : list (string * taskRow) :=
  let members := filter (λ p, groupMember queue group p.2 = true) (range_map (br_tasks b)) in
  let members := SortFunc (λ a other, compareMembers a.2 other.2) members in
  if (limit <? Z.of_nat (length members))%Z then take (Z.to_nat limit) members else members.

Definition LeaseGroup (queue group : string) (limit : Z) (ttl : Duration) (leaseID : string)
    (now : Time) (b : Broker) : Broker * list TaskEnvelope :=
  if (limit <=? 0)%Z then (b, [])
  else claim now ttl leaseID (groupMembers queue group limit b) b.

(** The accumulation of one aggregating row into the statistics of its group. *)
Definition addGroupStat (row : taskRow) (stats : gmap (string * string) GroupStat)
    : gmap (string * string) GroupStat :=
  if decide (row_state row = TASK_STATE_AGGREGATING) then
    let key := (env_Queue (row_envelope row), row_group row) in
    let stat :=
      match stats !! key with
      | Some stat => stat
      | None => mkGroupStat key.1 key.2 (env_Type (row_envelope row)) 0
                  (row_enqueuedAt row) (row_enqueuedAt row)
      end in
    let stat := stat <| gs_Count := (gs_Count stat + 1)%Z |> in
    let stat :=
      if Before (row_enqueuedAt row) (gs_Oldest stat)
      then stat <| gs_Oldest := row_enqueuedAt row |> else stat in
    let stat :=
      if After (row_enqueuedAt row) (gs_Newest stat)
      then stat <| gs_Newest := row_enqueuedAt row |> else stat in
    <[key := stat]> stats
  else stats.

Definition compareGroupStat (a other : GroupStat) : Z :=
  if negb (bool_decide (gs_Queue a = gs_Queue other)) then
    strings_Compare (gs_Queue a) (gs_Queue other)
  else strings_Compare (gs_Group a) (gs_Group other).

Definition GroupStats (b : Broker) : list GroupStat :=
  let stats := foldl (λ stats '(_, row), addGroupStat row stats) ∅ (range_map (br_tasks b)) in
  SortFunc compareGroupStat (range_map stats).*2.

(** ** Lease-scoped operations *)

Definition activeRow (taskID leaseID : string) (b : Broker) : option taskRow :=
  match br_tasks b !! taskID with
  | None => None
  | Some row =>
      if decide (row_state row ≠ TASK_STATE_ACTIVE ∨ row_leaseID row ≠ leaseID) then None
      else Some row
  end.

Definition ExtendLease (taskID leaseID : string) (ttl : Duration) (now : Time) (b : Broker)
    : Broker * option BrokerError :=
  match activeRow taskID leaseID b with
  | None => (b, Some ErrLeaseLost)
  | Some row => (put_row taskID (row <| row_leaseExpiresAt := time_Add now ttl |>) b, None)
  end.

Definition SetProgress (taskID leaseID : string) (percent : Z) (message : string) (b : Broker)
    : Broker * option BrokerError :=
  match activeRow taskID leaseID b with
  | None => (b, Some ErrLeaseLost)
  | Some row =>
      let percent := if (maxProgressPercent <? percent)%Z then maxProgressPercent else percent in
      (put_row taskID (row <| row_progress := percent |> <| row_progressMessage := message |>) b,
       None)
  end.

(** The completed row of [Ack] and [AckBatch]. *)
Definition ack_row (now : Time) (row : taskRow) : taskRow :=
  row <| row_state := TASK_STATE_COMPLETED |>
      <| row_completedAt := now |>
      <| row_leaseID := "" |>.

(** The result bytes are discarded: the broker has no result-read path. *)
Definition Ack (taskID leaseID : string) (_result : list byte) (now : Time) (b : Broker)
    : Broker * option BrokerError :=
  match activeRow taskID leaseID b with
  | None => (b, Some ErrLeaseLost)
  | Some row =>
      let oldState := row_state row in
      let row := ack_row now row in
      (emit_row oldState taskID row now (put_row taskID row b), None)
  end.

Fixpoint ackItems (items : list AckItem) (now : Time) (b : Broker) : Broker * list string :=
  match items with
  | [] => (b, [])
  | item :: rest =>
      match activeRow (ack_TaskID item) (ack_LeaseID item) b with
      | None => ackItems rest now b
      | Some row =>
          let oldState := row_state row in
          let row := ack_row now row in
          let b := emit_row oldState (ack_TaskID item) row now (put_row (ack_TaskID item) row b) in
          let '(b, acked) := ackItems rest now b in
          (b, ack_TaskID item :: acked)
      end
  end.

Definition AckBatch (items : list AckItem) (now : Time) (b : Broker) : Broker * list string :=
  match items with
  | [] => (b, [])
  | _ => ackItems items now b
  end.

Definition Fail (taskID leaseID errMsg : string) (processAt now : Time) (b : Broker)
    : Broker * option BrokerError :=
  match activeRow taskID leaseID b with
  | None => (b, Some ErrLeaseLost)
  | Some row =>
      let oldState := row_state row in
      let row := row <| row_state := TASK_STATE_RETRY |>
                     <| row_retried := wrap32 (row_retried row + 1) |>
                     <| row_lastError := errMsg |>
                     <| row_processAt := processAt |>
                     <| row_leaseID := "" |> in
      (emit_row oldState taskID row now (put_row taskID row b), None)
  end.

Definition Release (taskID leaseID : string) (now : Time) (b : Broker)
    : Broker * option BrokerError :=
  match activeRow taskID leaseID b with
  | None => (b, Some ErrLeaseLost)
  | Some row =>
      let oldState := row_state row in
      let row := row <| row_state := TASK_STATE_PENDING |>
                     <| row_processAt := now |>
                     <| row_leaseID := "" |> in
      (emit_row oldState taskID row now (put_row taskID row b), None)
  end.

(** The dead-lettered row of [Archive], for the row either branch selected. *)
Definition archive_row (errMsg : string) (now : Time) (row : taskRow) : taskRow :=
  row <| row_state := TASK_STATE_ARCHIVED |>
      <| row_lastError := errMsg |>
      <| row_completedAt := now |>
      <| row_leaseID := "" |>.

Definition Archive (taskID leaseID errMsg : string) (now : Time) (b : Broker)
    : Broker * option BrokerError :=
  let selected :=
    if negb (bool_decide (leaseID = "")) then
      match activeRow taskID leaseID b with
      | None => inr ErrLeaseLost
      | Some row => inl row
      end
    else
      match br_tasks b !! taskID with
      | None => inr ErrTaskNotFound
      | Some row =>
          if decide (row_state row = TASK_STATE_COMPLETED) then inr ErrInvalidState else inl row
      end in
  match selected with
  | inr err => (b, Some err)
  | inl row =>
      let oldState := row_state row in
      let row := archive_row errMsg now row in
      (emit_row oldState taskID row now (put_row taskID row b), None)
  end.

(** ** Maintenance sweeps *)

(** The state of a bounded sweep over the tasks: the store, the queues that
    received work, and the number of rows changed. *)
Record sweep := mkSweep { sw_b : Broker; sw_queues : gset string; sw_count : Z }.

(** One reclaimed row. *)
Definition reap_row (now : Time) (row : taskRow) : taskRow :=
  let row := row <| row_leaseID := "" |> <| row_lastError := LeaseExpiredMessage |> in
  if (row_maxRetry row <=? row_retried row)%Z then
    row <| row_state := TASK_STATE_ARCHIVED |> <| row_completedAt := now |>
  else
    row <| row_state := TASK_STATE_RETRY |>
        <| row_retried := wrap32 (row_retried row + 1) |>
        <| row_processAt := now |>.

Definition reapOne (limit : Z) (now : Time) (id : string) (row : taskRow) (s : sweep) : sweep :=
  if decide (sw_count s = limit) then s
  else if negb (bool_decide (row_state row = TASK_STATE_ACTIVE)) ||
          After (row_leaseExpiresAt row) now then s
  else
    let oldState := row_state row in
    let queues :=
      if (row_maxRetry row <=? row_retried row)%Z then sw_queues s
      else {[env_Queue (row_envelope row)]} ∪ sw_queues s in
    let row := reap_row now row in
    let b := put_row id row (sw_b s) in
    let b := emit_row oldState (env_Id (row_envelope row)) row now b in
    mkSweep b queues (sw_count s + 1).

Definition ReapExpiredLeases (limit : Z) (now : Time) (b : Broker) : Broker * list string :=
  if (limit <=? 0)%Z then (b, [])
  else
    let s := range_loop (λ s, br_tasks (sw_b s)) (reapOne limit now)
               (range_keys (dom (br_tasks b))) (mkSweep b ∅ 0) in
    (sw_b s, range_keys (sw_queues s)).

Definition promoteOne (limit : Z) (now : Time) (id : string) (row : taskRow) (s : sweep)
    : sweep :=
  if decide (sw_count s = limit) then s
  else if negb (bool_decide (row_state row = TASK_STATE_SCHEDULED)) ||
          After (row_processAt row) now then s
  else
    let oldState := row_state row in
    let row := row <| row_state := TASK_STATE_PENDING |> in
    let queues := {[env_Queue (row_envelope row)]} ∪ sw_queues s in
    let b := put_row id row (sw_b s) in
    let b := emit_row oldState (env_Id (row_envelope row)) row now b in
    mkSweep b queues (sw_count s + 1).

Definition PromoteScheduled (limit : Z) (now : Time) (b : Broker) : Broker * list string :=
  if (limit <=? 0)%Z then (b, [])
  else
    let s := range_loop (λ s, br_tasks (sw_b s)) (promoteOne limit now)
               (range_keys (dom (br_tasks b))) (mkSweep b ∅ 0) in
    (sw_b s, range_keys (sw_queues s)).

(** ** Dependency resolution *)

(** [promoteIfReady] on the row stored under [id]; the queue is [None] when
    nothing was promoted. *)
Definition promoteIfReady (id : string) (row : taskRow) (now : Time) (b : Broker)
    : Broker * option string :=
  if decide (row_state row ≠ TASK_STATE_BLOCKED ∨ row_deps row ≠ ∅) then (b, None)
  else
    let oldState := row_state row in
    let row :=
      row <| row_state :=
        if negb (bool_decide (row_group row = "")) then TASK_STATE_AGGREGATING
        else if After (row_processAt row) now then TASK_STATE_SCHEDULED
        else TASK_STATE_PENDING |> in
    let b := put_row id row b in
    let b := emit_row oldState (env_Id (row_envelope row)) row now b in
    (b, Some (env_Queue (row_envelope row))).

Definition insert_queue (queue : option string) (queues : gset string) : gset string :=
  match queue with Some q => {[q]} ∪ queues | None => queues end.

(** The state of the resolution loop. *)
Record resolution := mkResolution {
  rs_b : Broker;
  rs_queues : gset string;
  rs_worklist : list string }.

(** The cascade-canceled dependent. *)
Definition cancel_row (now : Time) (row : taskRow) : taskRow :=
  row <| row_state := TASK_STATE_CANCELED |>
      <| row_completedAt := now |>
      <| row_lastError := CascadeCanceledMessage |>
      <| row_deps := ∅ |>.

(** One dependent of a finished task. *)
Definition resolveOne (finishedID : string) (failed : bool) (now : Time) (r : resolution)
    (dependentID : string) : resolution :=
  let b := rs_b r in
  match br_tasks b !! dependentID with
  | None =>
      mkResolution (removeDependent finishedID dependentID b) (rs_queues r) (rs_worklist r)
  | Some dependent =>
      match row_deps dependent !! finishedID with
      | None =>
          mkResolution (removeDependent finishedID dependentID b) (rs_queues r) (rs_worklist r)
      | Some policy =>
          if decide (failed = true ∧ policy = DEPENDENCY_FAILURE_POLICY_BLOCK) then r
          else if decide (failed = true ∧ policy = DEPENDENCY_FAILURE_POLICY_CASCADE_CANCEL) then
            let oldState := row_state dependent in
            let b := foldl (λ b dependencyID, removeDependent dependencyID dependentID b) b
                       (range_keys (dom (row_deps dependent))) in
            let dependent := cancel_row now dependent in
            let b := put_row dependentID dependent b in
            let b := emit_row oldState dependentID dependent now b in
            mkResolution b (rs_queues r) (rs_worklist r ++ [dependentID])
          else
            let dependent := dependent <| row_deps := delete finishedID (row_deps dependent) |> in
            let b := put_row dependentID dependent b in
            let b := removeDependent finishedID dependentID b in
            let '(b, queue) := promoteIfReady dependentID dependent now b in
            mkResolution b (insert_queue queue (rs_queues r)) (rs_worklist r)
      end
  end.

(** The worklist loop. Every turn takes one id off the worklist and every id
    put on it empties a row's dependencies, so [length worklist] plus the rows
    with dependencies bounds the turns ([resolve_loop_terminates]). *)
Fixpoint resolve_loop (fuel : nat) (now : Time) (seen : gset string) (r : resolution)
    : resolution :=
  match fuel with
  | O => r
  | S fuel =>
      match rs_worklist r with
      | [] => r
      | finishedID :: worklist =>
          let r := mkResolution (rs_b r) (rs_queues r) worklist in
          if decide (finishedID ∈ seen) then resolve_loop fuel now seen r
          else
            let seen := {[finishedID]} ∪ seen in
            match br_tasks (rs_b r) !! finishedID with
            | None => resolve_loop fuel now seen r
            | Some finished =>
                let succeeded := bool_decide (row_state finished = TASK_STATE_COMPLETED) in
                let failed := bool_decide (row_state finished = TASK_STATE_ARCHIVED) ||
                              bool_decide (row_state finished = TASK_STATE_CANCELED) in
                if negb succeeded && negb failed then resolve_loop fuel now seen r
                else
                  let waiters := default ∅ (br_dependents (rs_b r) !! finishedID) in
                  resolve_loop fuel now seen
                    (foldl (resolveOne finishedID failed now) r (range_keys waiters))
            end
      end
  end.

Definition resolveFuel (b : Broker) : nat := S (size (br_tasks b)).

Definition resolveDependents (taskID : string) (now : Time) (b : Broker)
    : Broker * gset string :=
  let r := resolve_loop (resolveFuel b) now ∅ (mkResolution b ∅ [taskID]) in
  (rs_b r, rs_queues r).

Definition ResolveDependents (taskID : string) (now : Time) (b : Broker)
    : Broker * list string :=
  let '(b, queues) := resolveDependents taskID now b in (b, range_keys queues).

(** The terminal dependencies blocked tasks still wait on. *)
Definition finishedDeps (b : Broker) : gset string :=
  foldl (λ finished '(_, row),
    if decide (row_state row = TASK_STATE_BLOCKED) then
      foldl (λ finished depID,
        match br_tasks b !! depID with
        | Some dep => if terminal (row_state dep) then {[depID]} ∪ finished else finished
        | None => finished
        end) finished (range_keys (dom (row_deps row)))
    else finished) ∅ (range_map (br_tasks b)).

Definition resolveBounded (limit : Z) (now : Time) (s : sweep) (depID : string) : sweep :=
  if decide (sw_count s = limit) then s
  else
    let '(b, woken) := resolveDependents depID now (sw_b s) in
    mkSweep b (woken ∪ sw_queues s) (sw_count s + 1).

(** The backstop loop: promote every row left blocked with no dependency. *)
Definition promoteReadyOne (now : Time) (id : string) (row : taskRow) (s : sweep) : sweep :=
  let '(b, queue) := promoteIfReady id row now (sw_b s) in
  mkSweep b (insert_queue queue (sw_queues s)) (sw_count s).

Definition PromoteReadyDependents (limit : Z) (now : Time) (b : Broker)
    : Broker * list string :=
  if (limit <=? 0)%Z then (b, [])
  else
    let s := foldl (resolveBounded limit now) (mkSweep b ∅ 0) (range_keys (finishedDeps b)) in
    let s := range_loop (λ s, br_tasks (sw_b s)) (promoteReadyOne now)
               (range_keys (dom (br_tasks (sw_b s)))) s in
    (sw_b s, range_keys (sw_queues s)).

(** ** Purge and expiry *)

Definition hasDependents (taskID : string) (b : Broker) : bool :=
  bool_decide (0 < size (default ∅ (br_dependents b !! taskID)))%nat.

Definition hasWaitingDependents (taskID : string) (b : Broker) : bool :=
  existsb (λ dependentID,
    match br_tasks b !! dependentID with
    | Some dependent => incomplete (row_state dependent)
    | None => false
    end) (range_keys (default ∅ (br_dependents b !! taskID))).

(** The inner loop of [dropTerminalDependentEdges], over one dependency's
    waiters. *)
Definition dropWaiters (b : Broker) (dependencyID : string) : Broker :=
  foldl (λ b dependentID,
    match br_tasks b !! dependentID with
    | Some dependent =>
        if incomplete (row_state dependent) then b
        else removeDependent dependencyID dependentID b
    | None => removeDependent dependencyID dependentID b
    end) b (range_keys (default ∅ (br_dependents b !! dependencyID))).

Definition dropTerminalDependentEdges (b : Broker) : Broker :=
  foldl dropWaiters b (range_keys (dom (br_dependents b))).

Definition purgeable (row : taskRow) (now : Time) (archiveRetention : Duration) : bool :=
  match row_state row with
  | TASK_STATE_COMPLETED =>
      negb (After (time_Add (row_completedAt row) (row_retention row)) now)
  | TASK_STATE_ARCHIVED | TASK_STATE_CANCELED =>
      (0 <? archiveRetention)%Z &&
      negb (After (time_Add (row_completedAt row) archiveRetention) now)
  | _ => false
  end.

(** The state of the purge loop: the store and the two deletion budgets
    spent. *)
Record purging := mkPurging { pg_b : Broker; pg_completed : Z; pg_archived : Z }.

Definition delete_row (id : string) (b : Broker) : Broker :=
  b <| br_tasks := delete id (br_tasks b) |>.

(** The lapsed unique-key claim is released whether or not the row is
    purged. *)
Definition releaseLapsed (now : Time) (row : taskRow) : taskRow :=
  if negb (bool_decide (row_uniqueKey row = "")) && negb (IsZero (row_uniqueExpiresAt row)) &&
     negb (After (row_uniqueExpiresAt row) now)
  then row <| row_uniqueKey := "" |> else row.

Definition purgeOne (archiveRetention : Duration) (limit : Z) (now : Time)
    (id : string) (row : taskRow) (p : purging) : purging :=
  let row := releaseLapsed now row in
  let b := put_row id row (pg_b p) in
  if hasDependents id b || negb (purgeable row now archiveRetention) then
    mkPurging b (pg_completed p) (pg_archived p)
  else if decide (row_state row = TASK_STATE_COMPLETED) then
    if decide (pg_completed p = limit) then mkPurging b (pg_completed p) (pg_archived p)
    else mkPurging (delete_row id b) (pg_completed p + 1) (pg_archived p)
  else if decide (pg_archived p = limit) then mkPurging b (pg_completed p) (pg_archived p)
  else mkPurging (delete_row id b) (pg_completed p) (pg_archived p + 1).

Definition PurgeTerminal (archiveRetention : Duration) (limit : Z) (now : Time) (b : Broker)
    : Broker * Z :=
  if (limit <=? 0)%Z then (b, 0%Z)
  else
    let b := dropTerminalDependentEdges b in
    let p := range_loop (λ p, br_tasks (pg_b p)) (purgeOne archiveRetention limit now)
               (range_keys (dom (br_tasks b))) (mkPurging b 0 0) in
    (pg_b p, (pg_completed p + pg_archived p)%Z).

Definition archiveExpiredOne (limit : Z) (now : Time) (id : string) (row : taskRow) (s : sweep)
    : sweep :=
  if decide (sw_count s = limit) then s
  else if negb (dispatchable (row_state row)) &&
          negb (bool_decide (row_state row = TASK_STATE_SCHEDULED)) &&
          negb (bool_decide (row_state row = TASK_STATE_BLOCKED)) then s
  else if negb (expired row now) then s
  else
    let oldState := row_state row in
    let row := archive_row TaskExpiredMessage now row in
    let b := put_row id row (sw_b s) in
    let b := emit_row oldState (env_Id (row_envelope row)) row now b in
    mkSweep b (sw_queues s) (sw_count s + 1).

Definition ArchiveExpired (limit : Z) (now : Time) (b : Broker) : Broker * Z :=
  if (limit <=? 0)%Z then (b, 0%Z)
  else
    let s := range_loop (λ s, br_tasks (sw_b s)) (archiveExpiredOne limit now)
               (range_keys (dom (br_tasks b))) (mkSweep b ∅ 0) in
    (sw_b s, sw_count s).

(** ** Counts *)

Definition PendingCount (now : Time) (b : Broker) : gmap string Z :=
  foldl (λ counts '(_, row),
    if dispatchable (row_state row) && negb (After (row_processAt row) now) then
      let queue := env_Queue (row_envelope row) in
      <[queue := (default 0 (counts !! queue) + 1)%Z]> counts
    else counts) ∅ (range_map (br_tasks b)).

(** The closure [queueStat]: the queue's entry, created on first use. *)
Definition queueStat (b : Broker) (queue : string) (stats : gmap string QueueStat) : QueueStat :=
  match stats !! queue with
  | Some stat => stat
  | None => mkQueueStat queue (default false (br_pausedQueues b !! queue)) 0 0 0 0 0 0 0 0
  end.

Definition countState (state : TaskState) (stat : QueueStat) : QueueStat :=
  match state with
  | TASK_STATE_SCHEDULED => stat <| qs_Scheduled := (qs_Scheduled stat + 1)%Z |>
  | TASK_STATE_PENDING => stat <| qs_Pending := (qs_Pending stat + 1)%Z |>
  | TASK_STATE_ACTIVE => stat <| qs_Active := (qs_Active stat + 1)%Z |>
  | TASK_STATE_RETRY => stat <| qs_Retry := (qs_Retry stat + 1)%Z |>
  | TASK_STATE_COMPLETED => stat <| qs_Completed := (qs_Completed stat + 1)%Z |>
  | TASK_STATE_ARCHIVED => stat <| qs_Archived := (qs_Archived stat + 1)%Z |>
  | TASK_STATE_AGGREGATING => stat <| qs_Aggregating := (qs_Aggregating stat + 1)%Z |>
  | TASK_STATE_BLOCKED => stat <| qs_Blocked := (qs_Blocked stat + 1)%Z |>
  | _ => stat
  end.

Definition QueueStats (b : Broker) : list QueueStat :=
  let stats := foldl (λ stats queue, <[queue := queueStat b queue stats]> stats) ∅
                 (range_keys (dom (br_pausedQueues b))) in
  let stats := foldl (λ stats '(_, row),
      let queue := env_Queue (row_envelope row) in
      <[queue := countState (row_state row) (queueStat b queue stats)]> stats)
    stats (range_map (br_tasks b)) in
  SortFunc (λ a other, strings_Compare (qs_Queue a) (qs_Queue other)) (range_map stats).*2.

(** ** Queue configuration *)

Definition SetQueuePaused (queue : string) (paused : bool) (b : Broker) : Broker :=
  b <| br_pausedQueues := <[queue := paused]> (br_pausedQueues b) |>.

Definition QueuePaused (queue : string) (b : Broker) : bool :=
  default false (br_pausedQueues b !! queue).

Definition SetQueueRateLimit (queue : string) (ratePerSec : spec_float) (burst : Z) (now : Time)
    (b : Broker) : Broker :=
  b <| br_rateLimits := <[queue := mkRateLimit queue ratePerSec burst now]> (br_rateLimits b) |>.

Definition DeleteQueueRateLimit (queue : string) (b : Broker) : Broker :=
  b <| br_rateLimits := delete queue (br_rateLimits b) |>.

Definition QueueRateLimit (queue : string) (b : Broker) : option RateLimit :=
  br_rateLimits b !! queue.

Definition QueueRateLimits (b : Broker) : list RateLimit :=
  SortFunc (λ x y, strings_Compare (rl_Queue x) (rl_Queue y)) (range_map (br_rateLimits b)).*2.

Definition SetQueueConcurrencyLimit (queue : string) (maxActive : Z) (now : Time) (b : Broker)
    : Broker :=
  b <| br_concurrencyLimits :=
    <[queue := mkConcurrencyLimit queue maxActive now]> (br_concurrencyLimits b) |>.

Definition DeleteQueueConcurrencyLimit (queue : string) (b : Broker) : Broker :=
  b <| br_concurrencyLimits := delete queue (br_concurrencyLimits b) |>.

Definition QueueConcurrencyLimit (queue : string) (b : Broker) : option ConcurrencyLimit :=
  br_concurrencyLimits b !! queue.

Definition QueueConcurrencyLimits (b : Broker) : list ConcurrencyLimit :=
  SortFunc (λ x y, strings_Compare (cl_Queue x) (cl_Queue y))
    (range_map (br_concurrencyLimits b)).*2.

Definition SetGroupConfig (queue group : string) (maxSize : Z) (maxDelay gracePeriod : Duration)
    (now : Time) (b : Broker) : Broker :=
  b <| br_groupConfigs :=
    <[(queue, group) := mkGroupConfig queue group maxSize maxDelay gracePeriod now]>
      (br_groupConfigs b) |>.

Definition DeleteGroupConfig (queue group : string) (b : Broker) : Broker :=
  b <| br_groupConfigs := delete (queue, group) (br_groupConfigs b) |>.

Definition compareGroupConfig (x y : GroupConfig) : Z :=
  let queue := strings_Compare (gc_Queue x) (gc_Queue y) in
  if negb (queue =? 0)%Z then queue else strings_Compare (gc_Group x) (gc_Group y).

Definition GroupConfigs (b : Broker) : list GroupConfig :=
  SortFunc compareGroupConfig (range_map (br_groupConfigs b)).*2.

Definition BrokerInfo (b : Broker) : Info :=
  mkInfo "memory" (list_to_map
    [("tasks", pretty (size (br_tasks b)));
     ("cron_entries", pretty (size (br_cronEntries b)));
     ("paused_queues", pretty (size (br_pausedQueues b)));
     ("rate_limits", pretty (size (br_rateLimits b)));
     ("concurrency_limits", pretty (size (br_concurrencyLimits b)))]).

(** ** Queries *)

Definition GetTask (id : string) (b : Broker) : (TaskEnvelope * TaskState) + BrokerError :=
  match br_tasks b !! id with
  | None => inr ErrTaskNotFound
  | Some row => inl (overlay row, row_state row)
  end.

(** The three filters of [ListTasks]. *)
Definition matchesQuery (query : TaskQuery) (row : taskRow) : bool :=
  (bool_decide (query_Queue query = "") ||
   bool_decide (env_Queue (row_envelope row) = query_Queue query)) &&
  (bool_decide (query_State query = TASK_STATE_UNSPECIFIED) ||
   bool_decide (row_state row = query_State query)) &&
  (bool_decide (query_AfterID query = "") ||
   (strings_Compare (env_Id (row_envelope row)) (query_AfterID query) <? 0)%Z).

(** Newest id first. *)
Definition compareNewest (a other : taskRow) : Z :=
  strings_Compare (env_Id (row_envelope other)) (env_Id (row_envelope a)).

Definition ListTasks (query : TaskQuery) (b : Broker) : list TaskRecord :=
  let limit := EffectiveListLimit (query_Limit query) in
  let matched := filter (λ row, matchesQuery query row = true) (range_map (br_tasks b)).*2 in
  let matched := SortFunc compareNewest matched in
  let matched :=
    if (limit <? Z.of_nat (length matched))%Z then take (Z.to_nat limit) matched else matched in
  (λ row, mkTaskRecord (overlay row) (row_state row)) <$> matched.

(** ** Administrative operations *)

Definition CancelTask (id : string) (now : Time) (b : Broker) : Broker * option BrokerError :=
  match br_tasks b !! id with
  | None => (b, Some ErrTaskNotFound)
  | Some row =>
      match row_state row with
      | TASK_STATE_SCHEDULED | TASK_STATE_PENDING | TASK_STATE_RETRY
      | TASK_STATE_AGGREGATING | TASK_STATE_BLOCKED =>
          let oldState := row_state row in
          let row := row <| row_state := TASK_STATE_CANCELED |> <| row_completedAt := now |> in
          (emit_row oldState id row now (put_row id row b), None)
      | _ => (b, Some ErrInvalidState)
      end
  end.

Definition DeleteTask (id : string) (b : Broker) : Broker * option BrokerError :=
  match br_tasks b !! id with
  | None => (b, Some ErrTaskNotFound)
  | Some row =>
      if hasWaitingDependents id b then (b, Some ErrTaskHasDependents)
      else if decide (row_state row = TASK_STATE_ACTIVE) then (b, Some ErrInvalidState)
      else
        let b := foldl (λ b dependencyID, removeDependent dependencyID id b) b
                   (range_keys (dom (row_deps row))) in
        (delete_row id b, None)
  end.

Definition RunTaskNow (id : string) (now : Time) (b : Broker) : Broker * option BrokerError :=
  match br_tasks b !! id with
  | None => (b, Some ErrTaskNotFound)
  | Some row =>
      match row_state row with
      | TASK_STATE_SCHEDULED | TASK_STATE_PENDING | TASK_STATE_RETRY | TASK_STATE_ARCHIVED =>
          let oldState := row_state row in
          let row := row <| row_state := TASK_STATE_PENDING |>
                         <| row_processAt := now |>
                         <| row_completedAt := zeroTime |> in
          let b := put_row id row b in
          (if decide (oldState = row_state row) then b else emit_row oldState id row now b, None)
      | _ => (b, Some ErrInvalidState)
      end
  end.

Definition RescheduleTask (id : string) (processAt now : Time) (b : Broker)
    : Broker * option BrokerError :=
  match br_tasks b !! id with
  | None => (b, Some ErrTaskNotFound)
  | Some row =>
      match row_state row with
      | TASK_STATE_SCHEDULED | TASK_STATE_PENDING | TASK_STATE_RETRY =>
          let oldState := row_state row in
          let row := row <| row_processAt := processAt |>
                         <| row_state := if After processAt now then TASK_STATE_SCHEDULED
                                         else TASK_STATE_PENDING |> in
          let b := put_row id row b in
          (if decide (oldState = row_state row) then b else emit_row oldState id row now b, None)
      | _ => (b, Some ErrInvalidState)
      end
  end.

Definition ArchiveTask (id : string) (now : Time) (b : Broker) : Broker * option BrokerError :=
  match br_tasks b !! id with
  | None => (b, Some ErrTaskNotFound)
  | Some row =>
      match row_state row with
      | TASK_STATE_SCHEDULED | TASK_STATE_PENDING | TASK_STATE_RETRY | TASK_STATE_BLOCKED =>
          let oldState := row_state row in
          let row := row <| row_state := TASK_STATE_ARCHIVED |> <| row_completedAt := now |> in
          (emit_row oldState id row now (put_row id row b), None)
      | _ => (b, Some ErrInvalidState)
      end
  end.

(** ** Cron entries *)

Definition UpsertCronEntry (entry : CronEntry) (b : Broker) : Broker :=
  b <| br_cronEntries := <[cron_ID entry := entry]> (br_cronEntries b) |>.

Definition compareCron (a other : CronEntry) : Z := strings_Compare (cron_ID a) (cron_ID other).

Definition ListCronEntries (b : Broker) : list CronEntry :=
  SortFunc compareCron (range_map (br_cronEntries b)).*2.

Definition cronDue (now : Time) (entry : CronEntry) : bool :=
  negb (cron_Paused entry) &&
  (IsZero (cron_NextRunAt entry) || negb (After (cron_NextRunAt entry) now)).

Definition ListDueCronEntries (now : Time) (b : Broker) : list CronEntry :=
  SortFunc compareCron (filter (λ entry, cronDue now entry = true) (range_map (br_cronEntries b)).*2).

Definition SetCronPaused (id : string) (paused : bool) (b : Broker)
    : Broker * option BrokerError :=
  match br_cronEntries b !! id with
  | None => (b, Some ErrTaskNotFound)
  | Some entry =>
      (b <| br_cronEntries := <[id := entry <| cron_Paused := paused |>]> (br_cronEntries b) |>,
       None)
  end.

Definition UpdateCronNextRun (id : string) (expected next : Time) (b : Broker) : Broker :=
  match br_cronEntries b !! id with
  | None => b
  | Some entry =>
      if Equal (cron_NextRunAt entry) expected then
        b <| br_cronEntries := <[id := entry <| cron_NextRunAt := next |>]> (br_cronEntries b) |>
      else b
  end.

Definition DeleteCronEntry (id : string) (b : Broker) : Broker :=
  b <| br_cronEntries := delete id (br_cronEntries b) |>.

(** ** Webhook workers *)

Definition UpsertWebhookWorker (worker : WebhookWorker) (b : Broker) : Broker :=
  b <| br_webhookWorkers := <[wh_Name worker := worker]> (br_webhookWorkers b) |>.

Definition GetWebhookWorker (name : string) (b : Broker) : WebhookWorker + BrokerError :=
  match br_webhookWorkers b !! name with
  | None => inr ErrTaskNotFound
  | Some worker => inl worker
  end.

Definition ListWebhookWorkers (b : Broker) : list WebhookWorker :=
  SortFunc (λ a other, strings_Compare (wh_Name a) (wh_Name other))
    (range_map (br_webhookWorkers b)).*2.

Definition SetWebhookWorkerPaused (name : string) (paused : bool) (b : Broker)
    : Broker * option BrokerError :=
  match br_webhookWorkers b !! name with
  | None => (b, Some ErrTaskNotFound)
  | Some worker =>
      (b <| br_webhookWorkers :=
         <[name := worker <| wh_Paused := paused |>]> (br_webhookWorkers b) |>, None)
  end.

Definition DeleteWebhookWorker (name : string) (b : Broker) : Broker :=
  b <| br_webhookWorkers := delete name (br_webhookWorkers b) |>.
End Operations.
