(* ===== verification/MemoryFacts.v ===== *)
(** * The in-memory broker: frame lemmas and the store invariant

    What each primitive of the store changes and leaves alone, and the
    well-formedness [wf] of a store: rows are stored under their own id, the
    reverse dependency index agrees with the rows' dependency maps, and each
    row is consistent in itself ([row_ok]). *)

From S2P Require Import Prelude Proto Events BrokerApi Memory.
Implicit Types (b : Broker) (row : taskRow).

(** The set of tasks the reverse index records as waiting on [d]. *)
Definition waiters b (d : string) : gset string := default ∅ (br_dependents b !! d).

(** ** Frames *)

Lemma emit_tasks o n i q t l a w b : br_tasks (emit o n i q t l a w b) = br_tasks b.
Proof. unfold emit. by destruct (br_sink b), Derive. Qed.
Lemma emit_dependents o n i q t l a w b :
  br_dependents (emit o n i q t l a w b) = br_dependents b.
Proof. unfold emit. by destruct (br_sink b), Derive. Qed.
Lemma emit_row_tasks o i r w b : br_tasks (emit_row o i r w b) = br_tasks b.
Proof. apply emit_tasks. Qed.
Lemma emit_row_dependents o i r w b : br_dependents (emit_row o i r w b) = br_dependents b.
Proof. apply emit_dependents. Qed.
Lemma put_row_tasks i r b : br_tasks (put_row i r b) = <[i := r]> (br_tasks b).
Proof. done. Qed.
Lemma put_row_dependents i r b : br_dependents (put_row i r b) = br_dependents b.
Proof. done. Qed.
Lemma delete_row_tasks i b : br_tasks (delete_row i b) = delete i (br_tasks b).
Proof. done. Qed.
Lemma delete_row_dependents i b : br_dependents (delete_row i b) = br_dependents b.
Proof. done. Qed.
Lemma addDependent_tasks d t b : br_tasks (addDependent d t b) = br_tasks b.
Proof. done. Qed.
Lemma removeDependent_tasks d t b : br_tasks (removeDependent d t b) = br_tasks b.
Proof. unfold removeDependent. destruct (_ !! d); [|done]. by case_decide. Qed.

Create Rewrite HintDb frame.
Create HintDb frame.
#[export] Hint Rewrite emit_tasks emit_dependents emit_row_tasks emit_row_dependents
  put_row_tasks put_row_dependents delete_row_tasks delete_row_dependents
  addDependent_tasks removeDependent_tasks : frame.
Ltac frame := autorewrite with frame.

Lemma waiters_addDependent d t b d' :
  waiters (addDependent d t b) d' = if decide (d = d') then {[t]} ∪ waiters b d else waiters b d'.
Proof.
  unfold waiters, addDependent. rsimpl. rewrite lookup_insert. by case_decide.
Qed.

Lemma waiters_removeDependent d t b d' :
  waiters (removeDependent d t b) d' =
    if decide (d = d') then waiters b d ∖ {[t]} else waiters b d'.
Proof.
  unfold waiters, removeDependent. destruct (br_dependents b !! d) as [w|] eqn:E.
  - case_decide as Hsz; rsimpl; rewrite ?lookup_insert, ?lookup_delete;
      case_decide; subst; rewrite ?E; try done.
    simpl. apply size_empty_inv in Hsz. apply leibniz_equiv in Hsz. by rewrite Hsz.
  - case_decide; subst; [rewrite E; simpl; set_solver|done].
Qed.

(** Loops over a set of dependencies. *)
Lemma foldl_addDependent t ks b :
  br_tasks (foldl (λ b d, addDependent d t b) b ks) = br_tasks b ∧
  ∀ d, waiters (foldl (λ b d, addDependent d t b) b ks) d =
       if decide (d ∈ ks) then {[t]} ∪ waiters b d else waiters b d.
Proof.
  revert b. induction ks as [|k ks IH]; intros b; cbn [foldl].
  { split; [done|]. intros d. rewrite decide_False; set_solver. }
  destruct (IH (addDependent k t b)) as [IHt IHw]. rewrite IHt. split; [done|].
  intros d. rewrite IHw, waiters_addDependent.
  repeat case_decide; subst; set_solver.
Qed.

Lemma foldl_removeDependent t ks b :
  br_tasks (foldl (λ b d, removeDependent d t b) b ks) = br_tasks b ∧
  ∀ d, waiters (foldl (λ b d, removeDependent d t b) b ks) d =
       if decide (d ∈ ks) then waiters b d ∖ {[t]} else waiters b d.
Proof.
  revert b. induction ks as [|k ks IH]; intros b; cbn [foldl].
  { split; [done|]. intros d. rewrite decide_False; set_solver. }
  destruct (IH (removeDependent k t b)) as [IHt IHw].
  rewrite IHt, removeDependent_tasks. split; [done|].
  intros d. rewrite IHw, waiters_removeDependent.
  repeat case_decide; subst; set_solver.
Qed.

(** ** The invariant *)

(** One row, stored under [id]. *)
Record row_ok (id : string) (row : taskRow) : Prop := {
  ok_id : env_Id (row_envelope row) = id;
  ok_state : row_state row ≠ TASK_STATE_UNSPECIFIED;
  ok_blocked : row_state row = TASK_STATE_BLOCKED → row_deps row ≠ ∅;
  ok_self : row_deps row !! id = None;
  ok_policy : ∀ d, row_deps row !! d ≠ Some DEPENDENCY_FAILURE_POLICY_UNSPECIFIED;
  ok_progress : (0 <= row_progress row <= maxProgressPercent)%Z;
  ok_completedAt : row_completedAt row = zeroTime ↔ terminal (row_state row) = false }.

Record wf b : Prop := {
  wf_rows : map_Forall row_ok (br_tasks b);
  wf_sound : ∀ d t, t ∈ waiters b d →
    ∃ row, br_tasks b !! t = Some row ∧ is_Some (row_deps row !! d);
  wf_complete : ∀ d t row, br_tasks b !! t = Some row →
    row_state row = TASK_STATE_BLOCKED → is_Some (row_deps row !! d) → t ∈ waiters b d }.

(** The invariant reads the rows and the index only. *)
Lemma wf_ext b b' :
  br_tasks b' = br_tasks b → (∀ d, waiters b' d = waiters b d) → wf b → wf b'.
Proof.
  intros Ht Hw [Hr Hs Hc]. split.
  - by rewrite Ht.
  - intros d t. rewrite Hw, Ht. apply Hs.
  - intros d t row. rewrite Hw, Ht. apply Hc.
Qed.

Lemma waiters_ext b b' d : br_dependents b' = br_dependents b → waiters b' d = waiters b d.
Proof. unfold waiters. by intros ->. Qed.

Lemma wf_emit o n i q t l a w b : wf b → wf (emit o n i q t l a w b).
Proof. apply wf_ext; [by frame|]. intros d. apply waiters_ext. by frame. Qed.
Lemma wf_emit_row o i r w b : wf b → wf (emit_row o i r w b).
Proof. apply wf_emit. Qed.

(** Rewriting a stored row that keeps its dependencies and does not become
    blocked. *)
Lemma wf_put_row id row row' b :
  wf b → br_tasks b !! id = Some row → row_ok id row' → row_deps row' = row_deps row →
  (row_state row' = TASK_STATE_BLOCKED → row_state row = TASK_STATE_BLOCKED) →
  wf (put_row id row' b).
Proof.
  intros [Hr Hs Hc] Hrow Hok Hdeps Hbl. split.
  - rewrite put_row_tasks. by apply map_Forall_insert_2.
  - intros d t Ht. destruct (Hs d t Ht) as (r & Er & Hd). rewrite put_row_tasks.
    destruct (decide (t = id)) as [->|Hne].
    + exists row'. simplify_map_eq. by rewrite Hdeps.
    + exists r. by rewrite lookup_insert_ne.
  - intros d t r. rewrite put_row_tasks, lookup_insert. case_decide as E.
    + intros [= <-]. rewrite Hdeps. subst. intros ??. by eapply Hc; eauto.
    + apply Hc.
Qed.

Lemma wf_row b id row : wf b → br_tasks b !! id = Some row → row_ok id row.
Proof. intros Hwf. apply (wf_rows _ Hwf). Qed.

#[export] Hint Resolve wf_emit wf_emit_row wf_row : frame.

Lemma wf_New : wf New.
Proof.
  split.
  - apply map_Forall_empty.
  - intros d t. unfold waiters. simpl. rewrite lookup_empty. set_solver.
  - intros d t row. simpl. by rewrite lookup_empty.
Qed.

(** A row the operations rewrite in the usual way: same envelope, same
    dependencies, a known target state. *)
Lemma row_ok_update id row row' :
  row_ok id row →
  row_envelope row' = row_envelope row → row_deps row' = row_deps row →
  row_state row' ≠ TASK_STATE_UNSPECIFIED →
  (row_state row' = TASK_STATE_BLOCKED → row_state row = TASK_STATE_BLOCKED) →
  (0 <= row_progress row' <= maxProgressPercent)%Z →
  (row_completedAt row' = zeroTime ↔ terminal (row_state row') = false) →
  row_ok id row'.
Proof.
  intros [Hid Hst Hbl Hself Hpol Hpr Hcm] He Hd Hst' Hbl' Hpr' Hcm'.
  split; rewrite ?He, ?Hd; auto.
Qed.

(** Discharges the row obligations of an operation that rewrites one row. *)
Ltac row_update :=
  match goal with
  | Hok : row_ok ?id ?row |- row_ok ?id _ =>
      let Hcm := fresh "Hcm" in
      pose proof (ok_progress _ _ Hok); pose proof (ok_state _ _ Hok);
      pose proof (ok_completedAt _ _ Hok) as Hcm;
      eapply (row_ok_update _ row); [exact Hok|..]; rsimpl;
      repeat match goal with H : row_state row = _ |- _ => rewrite H in * end;
      cbn [terminal] in *; try done; unfold zeroTime, maxProgressPercent in *;
      try lia; try naive_solver lia
  end.
