(* ===== verification/MemoryInv.v ===== *)
(** * The in-memory broker: every operation preserves the store invariant

    The operations that rewrite one row go through [wf_put_row]; the bounded
    sweeps by the loop rule of [range_loop]; the operations on the dependency
    graph by what they do to the index. *)

From S2P Require Import Prelude Proto Events BrokerApi Memory MemoryFacts.
Implicit Types (b : Broker) (row : taskRow).

Section Invariant.
Context {MR : MapRange}.

(** ** Enqueue *)

Lemma resolveInitialDeps_loop_ok b id edges deps deps' c :
  resolveInitialDeps_loop b id edges deps = (deps', c) →
  deps !! id = None → (∀ d, deps !! d ≠ Some DEPENDENCY_FAILURE_POLICY_UNSPECIFIED) →
  deps' !! id = None ∧ (∀ d, deps' !! d ≠ Some DEPENDENCY_FAILURE_POLICY_UNSPECIFIED).
Proof.
  revert deps. induction edges as [|e edges IH]; simpl; intros deps Heq Hid Hpol.
  { by simplify_eq. }
  case_decide as Hskip; [by eauto|].
  assert (Hins :
    resolveInitialDeps_loop b id edges
      (<[dep_TaskId e := dependencyPolicy (dep_OnFailure e)]> deps) = (deps', c) →
    deps' !! id = None ∧ (∀ d, deps' !! d ≠ Some DEPENDENCY_FAILURE_POLICY_UNSPECIFIED)).
  { intros H. eapply IH; [done| |].
    - rewrite lookup_insert_ne; [done|]. tauto.
    - intros d. rewrite lookup_insert. case_decide; [|done].
      by destruct (dep_OnFailure e). }
  repeat case_match; simplify_eq; eauto; try (by rewrite lookup_empty); try done.
Qed.

(** What [stageEnqueue] promises about a staged task. *)
Record staged_ok (now : Time) (e : stagedTask) : Prop := {
  so_state : st_state e = row_state (st_row e);
  so_id : st_id e = env_Id (row_envelope (st_row e));
  so_row : row_ok (st_id e) (st_row e) }.

Lemma stageEnqueue_ok task now ids keys b e :
  (0 < now)%Z → stageEnqueue task now ids keys b = Staged e →
  staged_ok now e ∧ st_id e = env_Id task ∧
  br_tasks b !! st_id e = None ∧ st_id e ∉ ids.
Proof.
  intros Hnow. unfold stageEnqueue.
  case_decide as Hex; [done|]. case_decide as Hin; [done|].
  case_match; [done|]. case_match; [done|].
  destruct (resolveInitialDeps b _ _) as [deps c] eqn:Hdeps.
  intros [= <-]. simpl. split_and!; [|done|by apply eq_None_not_Some|done].
  apply resolveInitialDeps_loop_ok in Hdeps as [Hself Hpol];
    [|apply lookup_empty|intros d; by rewrite lookup_empty].
  split; [done..|]. simpl. split; simpl; [done| | |done|done| |].
  - repeat case_match; try done.
  - intros. repeat case_match; try done.
  - unfold maxProgressPercent. lia.
  - unfold zeroTime. repeat case_match; naive_solver lia.
Qed.

Lemma applyStaged_tasks e now b :
  br_tasks (applyStaged e now b) = <[st_id e := st_row e]> (br_tasks b).
Proof.
  unfold applyStaged. frame. by rewrite (proj1 (foldl_addDependent _ _ _)).
Qed.

Lemma applyStaged_waiters e now b d :
  waiters (applyStaged e now b) d =
    if decide (is_Some (row_deps (st_row e) !! d)) then {[st_id e]} ∪ waiters b d
    else waiters b d.
Proof.
  unfold applyStaged.
  rewrite (waiters_ext (foldl (λ b d, addDependent d (st_id e) b) b
    (range_keys (dom (row_deps (st_row e)))))) by (by frame).
  rewrite (proj2 (foldl_addDependent _ _ _)).
  apply decide_ext. by rewrite elem_of_range_keys, elem_of_dom.
Qed.

Lemma wf_applyStaged e now now' b :
  wf b → staged_ok now e → br_tasks b !! st_id e = None → wf (applyStaged e now' b).
Proof.
  intros [Hr Hs Hc] [Hst Hid Hok] Hnew. split.
  - rewrite applyStaged_tasks. by apply map_Forall_insert_2.
  - intros d t. rewrite applyStaged_waiters, applyStaged_tasks. intros Ht.
    destruct (decide (t = st_id e)) as [->|Hne].
    + exists (st_row e). simplify_map_eq. split; [done|].
      case_decide; [done|]. destruct (Hs _ _ Ht) as (r & Er & _). congruence.
    + rewrite lookup_insert_ne by done. apply Hs. case_decide; set_solver.
  - intros d t row. rewrite applyStaged_waiters, applyStaged_tasks, lookup_insert.
    case_decide as E.
    + intros [= <-] _ Hd. rewrite decide_True by done. set_solver.
    + intros Hrow Hbl Hd. pose proof (Hc _ _ _ Hrow Hbl Hd). case_decide; set_solver.
Qed.

Lemma wf_Enqueue task now b : (0 < now)%Z → wf b → wf (Enqueue task now b).1.
Proof.
  intros Hnow Hwf. unfold Enqueue. destruct (stageEnqueue _ _ _ _ _) eqn:E; simpl; [|done..].
  apply stageEnqueue_ok in E as (Hok & _ & Hnew & _); [|done]. by eapply wf_applyStaged.
Qed.

(** The staged tasks of a batch are new to the store and pairwise distinct. *)
Lemma stageBatch_ok tasks index now ids keys b staged :
  (0 < now)%Z → stageBatch tasks index now ids keys b = inl staged →
  Forall (staged_ok now) staged ∧ NoDup (st_id <$> staged) ∧
  ∀ e, e ∈ staged → br_tasks b !! st_id e = None ∧ st_id e ∉ ids.
Proof.
  intros Hnow. revert index ids keys staged.
  induction tasks as [|task tasks IH]; intros index ids keys staged; simpl.
  { intros [= <-]. split_and!; [constructor..|]. set_solver. }
  destruct (stageEnqueue task now ids keys b) as [e| |err] eqn:E; [|by apply IH|done].
  apply stageEnqueue_ok in E as (Hok & _ & Hnew & Hid); [|done].
  set (keys' := if decide _ then _ else _). clearbody keys'.
  destruct (stageBatch tasks _ _ _ _ _) as [staged'|] eqn:Hrest; [|done].
  intros [= <-]. destruct (IH _ _ _ _ Hrest) as (IHok & IHnd & IHnew).
  split_and!; [by constructor| |].
  - simpl. constructor; [|done]. intros (e' & Heq & He')%list_elem_of_fmap.
    destruct (IHnew _ He'). set_solver.
  - intros e' [->|He']%elem_of_cons; [done|]. destruct (IHnew _ He'). set_solver.
Qed.

Lemma foldl_applyStaged_wf staged now now' b :
  Forall (staged_ok now) staged → NoDup (st_id <$> staged) →
  (∀ e, e ∈ staged → br_tasks b !! st_id e = None) → wf b →
  wf (foldl (λ b entry, applyStaged entry now' b) b staged).
Proof.
  revert b. induction staged as [|e staged IH]; intros b; cbn [foldl fmap list_fmap];
    [done|]. intros [Hok Hoks]%Forall_cons [Hni Hnd]%NoDup_cons Hnew Hwf.
  apply IH; [done..| |eapply wf_applyStaged; [done..|apply Hnew; set_solver]].
  intros e' He'. rewrite applyStaged_tasks, lookup_insert_ne; [apply Hnew; set_solver|].
  intros Heq. apply Hni. rewrite Heq. apply list_elem_of_fmap. eauto.
Qed.

Lemma wf_EnqueueBatch tasks now b : (0 < now)%Z → wf b → wf (EnqueueBatch tasks now b).1.
Proof.
  intros Hnow Hwf. unfold EnqueueBatch.
  destruct (stageBatch _ _ _ _ _ _) as [staged|err] eqn:E; simpl; [|done].
  destruct (stageBatch_ok _ _ _ _ _ _ _ Hnow E) as (Hok & Hnd & Hnew).
  eapply foldl_applyStaged_wf; eauto. intros e He. by apply Hnew.
Qed.

(** ** Leasing *)

(** The claiming loop sees every row as it is stored: the selected rows are
    distinct rows of the store. *)
Definition selection b (due : list (string * taskRow)) : Prop :=
  NoDup due.*1 ∧ ∀ id row, (id, row) ∈ due → br_tasks b !! id = Some row.

Lemma selection_cons b id row due row' :
  selection b ((id, row) :: due) →
  br_tasks b !! id = Some row ∧
  ∀ b', br_tasks b' = <[id := row']> (br_tasks b) → selection b' due.
Proof.
  intros [[Hni Hnd]%NoDup_cons Hin]. split; [apply Hin; set_solver|].
  intros b' Hb'. split; [done|]. intros id' r Hr. rewrite Hb', lookup_insert_ne.
  - apply Hin. set_solver.
  - intros <-. apply Hni, list_elem_of_fmap. by exists (id, r).
Qed.

Lemma selection_sublist b due due' :
  selection b due → due' `sublist_of` due → selection b due'.
Proof.
  intros [Hnd Hin] Hsub. split.
  - apply (sublist_NoDup _ due.*1); [done|by apply fmap_sublist].
  - intros id row Hr. apply Hin. by eapply elem_of_submseteq, sublist_submseteq.
Qed.

Lemma selection_perm b due due' : selection b due → due' ≡ₚ due → selection b due'.
Proof.
  intros [Hnd Hin] Hp. split; [by rewrite Hp|]. intros id row. rewrite Hp. apply Hin.
Qed.

Lemma selection_range b : selection b (range_map (br_tasks b)).
Proof.
  split; [apply NoDup_fst_range_map|]. intros id row. by rewrite elem_of_range_map.
Qed.

Lemma selection_filter b (P : string * taskRow → Prop) `{∀ x, Decision (P x)} due :
  selection b due → selection b (filter P due).
Proof. intros Hs. eapply selection_sublist, sublist_filter. done. Qed.

Lemma wf_claim now ttl lid due b :
  wf b → selection b due → (∀ id row, (id, row) ∈ due → terminal (row_state row) = false) →
  wf (claim now ttl lid due b).1.
Proof.
  revert b. induction due as [|[id row] due IH]; intros b Hwf Hsel Hnt; [done|].
  destruct (selection_cons _ _ _ _ (claim_row now ttl lid row) Hsel) as [Hrow Hsel'].
  cbn [claim]. destruct (claim _ _ _ due _) as [b' leased] eqn:E. simpl.
  change b' with (b', leased).1. rewrite <- E. apply IH.
  - apply wf_emit_row. pose proof (wf_row _ _ _ Hwf Hrow) as Hok.
    specialize (Hnt id row ltac:(set_solver)).
    eapply wf_put_row; [done..| | |]; unfold claim_row; [|done|done].
    row_update.
  - apply Hsel'. by frame.
  - intros id' r' Hin. apply (Hnt id'). set_solver.
Qed.

Lemma sublist_truncate {A} (limit : Z) (l : list A) :
  (if (limit <? Z.of_nat (length l))%Z then take (Z.to_nat limit) l else l) `sublist_of` l.
Proof. case_match; [apply sublist_take|done]. Qed.

Lemma dueTasks_selection queue limit now b : selection b (dueTasks queue limit now b).
Proof.
  unfold dueTasks. eapply selection_sublist; [|apply sublist_truncate].
  eapply selection_perm; [|apply SortFunc_perm]. apply selection_filter, selection_range.
Qed.

Lemma dueTasks_leasable queue limit now b id row :
  (id, row) ∈ dueTasks queue limit now b →
  br_tasks b !! id = Some row ∧ leasable queue now row = true.
Proof.
  unfold dueTasks. intros Hin.
  eapply elem_of_submseteq in Hin; [|apply sublist_submseteq, sublist_truncate].
  rewrite SortFunc_perm, list_elem_of_filter, elem_of_range_map in Hin. naive_solver.
Qed.

Lemma leasable_spec queue now row :
  leasable queue now row = true ↔
  env_Queue (row_envelope row) = queue ∧ dispatchable (row_state row) = true ∧
  (row_processAt row <= now)%Z ∧ expired row now = false.
Proof.
  unfold leasable, After.
  rewrite !andb_true_iff, !negb_true_iff, bool_decide_eq_true, Z.ltb_ge. tauto.
Qed.

Lemma wf_Lease queue limit ttl lid now b : wf b → wf (Lease queue limit ttl lid now b).1.
Proof.
  intros Hwf. unfold Lease. case_match; [done|].
  apply wf_claim; [done|apply dueTasks_selection|].
  intros id row [_ [_ [Hd _]]%leasable_spec]%dueTasks_leasable. by destruct (row_state row).
Qed.

Lemma groupMembers_selection queue group limit b :
  selection b (groupMembers queue group limit b).
Proof.
  unfold groupMembers. eapply selection_sublist; [|apply sublist_truncate].
  eapply selection_perm; [|apply SortFunc_perm]. apply selection_filter, selection_range.
Qed.

Lemma groupMembers_member queue group limit b id row :
  (id, row) ∈ groupMembers queue group limit b →
  br_tasks b !! id = Some row ∧ groupMember queue group row = true.
Proof.
  unfold groupMembers. intros Hin.
  eapply elem_of_submseteq in Hin; [|apply sublist_submseteq, sublist_truncate].
  rewrite SortFunc_perm, list_elem_of_filter, elem_of_range_map in Hin. naive_solver.
Qed.

Lemma wf_LeaseGroup queue group limit ttl lid now b :
  wf b → wf (LeaseGroup queue group limit ttl lid now b).1.
Proof.
  intros Hwf. unfold LeaseGroup. case_match; [done|].
  apply wf_claim; [done|apply groupMembers_selection|].
  intros id row [_ Hm]%groupMembers_member. unfold groupMember in Hm.
  rewrite !andb_true_iff, bool_decide_eq_true in Hm. by destruct Hm as [[-> _] _].
Qed.

(** ** Lease-scoped operations *)

Lemma activeRow_Some id lid b row :
  activeRow id lid b = Some row ↔
  br_tasks b !! id = Some row ∧ row_state row = TASK_STATE_ACTIVE ∧ row_leaseID row = lid.
Proof.
  unfold activeRow. destruct (br_tasks b !! id) as [r|]; [|naive_solver].
  case_decide as H; [naive_solver|]. apply Decidable.not_or in H as [H1 H2].
  apply dec_stable in H1, H2. naive_solver.
Qed.

(** An operation that rewrites an active row. *)
Ltac wf_active :=
  match goal with
  | Hwf : wf ?b |- context [activeRow ?id ?lid ?b] =>
      let row := fresh "row" in let E := fresh "E" in
      destruct (activeRow id lid b) as [row|] eqn:E; [|done];
      apply activeRow_Some in E as (E & ? & ?);
      pose proof (wf_row _ _ _ Hwf E); cbn [fst]; try apply wf_emit_row;
      eapply (wf_put_row _ row); [done..| | |]; try done; try row_update
  end.

Lemma wf_ExtendLease id lid ttl now b : wf b → wf (ExtendLease id lid ttl now b).1.
Proof. intros Hwf. unfold ExtendLease. wf_active. Qed.

Lemma wf_SetProgress id lid percent message b :
  (0 <= percent)%Z → wf b → wf (SetProgress id lid percent message b).1.
Proof.
  intros Hp Hwf. unfold SetProgress. wf_active.
  destruct (Z.ltb_spec 100 percent); lia.
Qed.

Lemma wf_Ack id lid result now b : (0 < now)%Z → wf b → wf (Ack id lid result now b).1.
Proof. intros Hnow Hwf. unfold Ack, ack_row. wf_active. Qed.

Lemma wf_ackItems items now b : (0 < now)%Z → wf b → wf (ackItems items now b).1.
Proof.
  intros Hnow. revert b. induction items as [|item items IH]; intros b Hwf; [done|].
  cbn [ackItems]. destruct (activeRow _ _ b) as [row|] eqn:E; [|by apply IH].
  destruct (ackItems items now _) as [b' acked] eqn:E'. cbn [fst].
  change b' with (b', acked).1. rewrite <- E'. apply IH, wf_emit_row.
  apply activeRow_Some in E as (E & Hst & Hlid). pose proof (wf_row _ _ _ Hwf E).
  eapply (wf_put_row _ row); unfold ack_row; [done..| |done|done]. row_update.
Qed.

Lemma wf_AckBatch items now b : (0 < now)%Z → wf b → wf (AckBatch items now b).1.
Proof. intros. unfold AckBatch. destruct items; [done|]. by apply wf_ackItems. Qed.

Lemma wf_Fail id lid msg processAt now b : wf b → wf (Fail id lid msg processAt now b).1.
Proof. intros Hwf. unfold Fail. wf_active. Qed.

Lemma wf_Release id lid now b : wf b → wf (Release id lid now b).1.
Proof. intros Hwf. unfold Release. wf_active. Qed.

Lemma wf_Archive id lid msg now b : (0 < now)%Z → wf b → wf (Archive id lid msg now b).1.
Proof.
  intros Hnow Hwf. unfold Archive.
  set (selected := if negb _ then _ else _).
  assert (Hsel : ∀ row, selected = inl row → br_tasks b !! id = Some row).
  { unfold selected. intros row. repeat case_match; intros; simplify_eq; try done.
    by match goal with H : activeRow _ _ _ = Some _ |- _ => apply activeRow_Some in H as [? _] end. }
  destruct selected as [row|err]; [|done]. specialize (Hsel row eq_refl).
  pose proof (wf_row _ _ _ Hwf Hsel). cbn [fst]. apply wf_emit_row.
  eapply (wf_put_row _ row); unfold archive_row; [done..| |done|done]. row_update.
Qed.

(** ** Sweeps *)

(** The loop rule for an invariant of the store carried by a bounded sweep. *)
Lemma sweep_wf (body : string → taskRow → sweep → sweep) keys s :
  wf (sw_b s) →
  (∀ id row s, br_tasks (sw_b s) !! id = Some row → wf (sw_b s) → wf (sw_b (body id row s))) →
  wf (sw_b (range_loop (λ s, br_tasks (sw_b s)) body keys s)).
Proof.
  intros H0 Hbody. apply (range_loop_ind _ _ (λ _ s, wf (sw_b s))); [done|].
  intros done k s' _ Hs. destruct (br_tasks (sw_b s') !! k) eqn:E; auto.
Qed.

Lemma wf_reapOne limit now id row s :
  (0 < now)%Z → br_tasks (sw_b s) !! id = Some row → wf (sw_b s) →
  wf (sw_b (reapOne limit now id row s)).
Proof.
  intros Hnow Hrow Hwf. unfold reapOne. case_decide; [done|].
  destruct (negb _ || _) eqn:Hskip; [done|]. cbn [sw_b]. apply wf_emit_row.
  apply orb_false_iff in Hskip as [Hst%negb_false_iff%bool_decide_eq_true _].
  pose proof (wf_row _ _ _ Hwf Hrow).
  eapply (wf_put_row _ row); [done..| | |]; unfold reap_row; case_match; try done; row_update.
Qed.

Lemma wf_ReapExpiredLeases limit now b :
  (0 < now)%Z → wf b → wf (ReapExpiredLeases limit now b).1.
Proof.
  intros Hnow Hwf. unfold ReapExpiredLeases. case_match; [done|].
  apply sweep_wf; [done|]. intros. by apply wf_reapOne.
Qed.

Lemma wf_PromoteScheduled limit now b : wf b → wf (PromoteScheduled limit now b).1.
Proof.
  intros Hwf. unfold PromoteScheduled. case_match; [done|].
  apply sweep_wf; [done|]. clear. intros id row s Hrow Hwf. unfold promoteOne.
  case_decide; [done|]. destruct (negb _ || _) eqn:Hskip; [done|].
  cbn [sw_b]. apply wf_emit_row.
  apply orb_false_iff in Hskip as [Hst%negb_false_iff%bool_decide_eq_true _].
  pose proof (wf_row _ _ _ Hwf Hrow).
  eapply (wf_put_row _ row); [done..| |done|done]. row_update.
Qed.

Lemma wf_ArchiveExpired limit now b :
  (0 < now)%Z → wf b → wf (ArchiveExpired limit now b).1.
Proof.
  intros Hnow Hwf. unfold ArchiveExpired. case_match; [done|].
  apply sweep_wf; [done|]. clear -Hnow. intros id row s Hrow Hwf. unfold archiveExpiredOne.
  case_decide; [done|]. case_match; [done|]. case_match; [done|].
  cbn [sw_b]. apply wf_emit_row. pose proof (wf_row _ _ _ Hwf Hrow).
  eapply (wf_put_row _ row); unfold archive_row; [done..| |done|done]. row_update.
Qed.

(** ** Administrative operations *)

(** An operation that dispatches on a stored row's state. *)
Ltac wf_admin :=
  match goal with
  | Hwf : wf ?b |- context [br_tasks ?b !! ?id] =>
      let row := fresh "row" in let E := fresh "E" in let Hst := fresh "Hst" in
      destruct (br_tasks b !! id) as [row|] eqn:E; [|done];
      pose proof (wf_row _ _ _ Hwf E);
      destruct (row_state row) eqn:Hst; try done; cbn [fst];
      repeat (case_decide || apply wf_emit_row);
      eapply (wf_put_row _ row); try done; try row_update
  end.

Lemma wf_CancelTask id now b : (0 < now)%Z → wf b → wf (CancelTask id now b).1.
Proof. intros Hnow Hwf. unfold CancelTask. wf_admin. Qed.

Lemma wf_RunTaskNow id now b : wf b → wf (RunTaskNow id now b).1.
Proof. intros Hwf. unfold RunTaskNow. wf_admin. Qed.

Lemma wf_RescheduleTask id processAt now b : wf b → wf (RescheduleTask id processAt now b).1.
Proof. intros Hwf. unfold RescheduleTask. wf_admin; by destruct (After _ _). Qed.

Lemma wf_ArchiveTask id now b : (0 < now)%Z → wf b → wf (ArchiveTask id now b).1.
Proof. intros Hnow Hwf. unfold ArchiveTask. wf_admin. Qed.
End Invariant.
