(* ===== verification/MemoryDeps.v ===== *)
(** * The in-memory broker: the dependency graph

    Resolution of a finished task's dependents, the purge and the deletion of
    tasks: the store invariant, the termination of the resolution worklist, and
    what is left of the graph afterwards. *)

From S2P Require Import Prelude Proto Events BrokerApi Memory MemoryFacts MemoryInv.
Implicit Types (b : Broker) (row : taskRow).

Section Dependencies.
Context {MR : MapRange}.

(** ** The two ways the graph loses edges *)

(** A row rewritten after the edges of [ds] have been taken out of its
    dependencies and out of the index. *)
Lemma wf_drop_edges (ds : string → Prop) `{∀ d, Decision (ds d)} id row row' b b' :
  wf b → br_tasks b !! id = Some row → row_ok id row' →
  br_tasks b' = <[id := row']> (br_tasks b) →
  (∀ d, waiters b' d = if decide (ds d) then waiters b d ∖ {[id]} else waiters b d) →
  (∀ d, row_deps row' !! d = if decide (ds d) then None else row_deps row !! d) →
  (row_state row' = TASK_STATE_BLOCKED → row_state row = TASK_STATE_BLOCKED) →
  wf b'.
Proof.
  intros [Hr Hs Hc] Hrow Hok Ht Hw Hd Hbl. split.
  - rewrite Ht. by apply map_Forall_insert_2.
  - intros d t. rewrite Hw, Ht. intros Hin.
    assert (t ∈ waiters b d) as Hin' by (case_decide; set_solver).
    destruct (Hs d t Hin') as (r & Er & Hdep).
    destruct (decide (t = id)) as [->|Hne].
    + exists row'. rewrite lookup_insert_eq, Hd. split; [done|]. simplify_eq.
      case_decide; [set_solver|done].
    + exists r. by rewrite lookup_insert_ne.
  - intros d t r. rewrite Ht, Hw, lookup_insert. case_decide as E.
    + intros [= <-] Hb. rewrite Hd. case_decide; [by intros []|]. subst.
      intros. by eapply Hc; eauto.
    + intros Er Hb Hdep. specialize (Hc _ _ _ Er Hb Hdep). case_decide; set_solver.
Qed.

(** A row deleted after its edges have been taken out of the index. *)
Lemma wf_drop_row id b b' :
  wf b → br_tasks b' = delete id (br_tasks b) →
  (∀ d t, t ∈ waiters b' d ↔ t ∈ waiters b d ∧ t ≠ id) → wf b'.
Proof.
  intros [Hr Hs Hc] Ht Hw. split.
  - rewrite Ht. by apply map_Forall_delete.
  - intros d t. rewrite Hw, Ht. intros [Hin Hne]. rewrite lookup_delete_ne by done. by apply Hs.
  - intros d t r. rewrite Ht, Hw, lookup_delete_Some. intros [Hne Er] Hb Hd.
    split; [by eapply Hc|done].
Qed.

(** The index after one edge is removed. *)
Lemma elem_of_waiters_remove d t b d' t' :
  t' ∈ waiters (removeDependent d t b) d' ↔ t' ∈ waiters b d' ∧ ¬ (d' = d ∧ t' = t).
Proof. rewrite waiters_removeDependent. case_decide; set_solver. Qed.

(** ** Resolution *)

(** A blocked row with no dependency left. *)
Definition ready (row : taskRow) : bool :=
  bool_decide (row_state row = TASK_STATE_BLOCKED ∧ row_deps row = ∅).

(** What [promoteIfReady] makes of a row: the state it would have held without
    dependencies. *)
Definition promoted_row (now : Time) (row : taskRow) : taskRow :=
  row <| row_state :=
    if negb (bool_decide (row_group row = "")) then TASK_STATE_AGGREGATING
    else if After (row_processAt row) now then TASK_STATE_SCHEDULED
    else TASK_STATE_PENDING |>.

Lemma promoteIfReady_spec id row now b :
  br_tasks (promoteIfReady id row now b).1 =
    (if ready row then <[id := promoted_row now row]> (br_tasks b) else br_tasks b) ∧
  br_dependents (promoteIfReady id row now b).1 = br_dependents b ∧
  (promoteIfReady id row now b).2 =
    (if ready row then Some (env_Queue (row_envelope row)) else None).
Proof.
  unfold promoteIfReady, ready. case_decide as H.
  - rewrite bool_decide_false by tauto. done.
  - apply Decidable.not_or in H as [H1 H2]. rewrite (bool_decide_true (_ ∧ _)) by
      (split; by apply dec_stable). cbn [fst snd]. frame. done.
Qed.

(** The row [resolveOne] leaves when the finished dependency is satisfied. *)
Definition satisfied_row (finishedID : string) (now : Time) (row : taskRow) : taskRow :=
  let row := row <| row_deps := delete finishedID (row_deps row) |> in
  if ready row then promoted_row now row else row.

(** The edge [d → t] is settled by a failure policy that keeps it. *)
Definition keeps (failed : bool) (policy : DependencyFailurePolicy) : bool :=
  failed && bool_decide (policy = DEPENDENCY_FAILURE_POLICY_BLOCK).
Definition cascades (failed : bool) (policy : DependencyFailurePolicy) : bool :=
  failed && bool_decide (policy = DEPENDENCY_FAILURE_POLICY_CASCADE_CANCEL).

(** What one dependent of a finished task becomes. *)
Inductive resolved (f : string) (failed : bool) (now : Time) (t : string) (r r' : resolution)
    : Prop :=
  | resolved_stale :
      (∀ row, br_tasks (rs_b r) !! t = Some row → row_deps row !! f = None) →
      br_tasks (rs_b r') = br_tasks (rs_b r) →
      (∀ d, waiters (rs_b r') d =
        if decide (d = f) then waiters (rs_b r) d ∖ {[t]} else waiters (rs_b r) d) →
      rs_worklist r' = rs_worklist r → rs_queues r' = rs_queues r →
      resolved f failed now t r r'
  | resolved_kept row policy :
      br_tasks (rs_b r) !! t = Some row → row_deps row !! f = Some policy →
      keeps failed policy = true → r' = r →
      resolved f failed now t r r'
  | resolved_canceled row policy :
      br_tasks (rs_b r) !! t = Some row → row_deps row !! f = Some policy →
      cascades failed policy = true →
      br_tasks (rs_b r') = <[t := cancel_row now row]> (br_tasks (rs_b r)) →
      (∀ d, waiters (rs_b r') d =
        if decide (is_Some (row_deps row !! d)) then waiters (rs_b r) d ∖ {[t]}
        else waiters (rs_b r) d) →
      rs_worklist r' = rs_worklist r ++ [t] → rs_queues r' = rs_queues r →
      resolved f failed now t r r'
  | resolved_satisfied row policy :
      br_tasks (rs_b r) !! t = Some row → row_deps row !! f = Some policy →
      keeps failed policy = false → cascades failed policy = false →
      br_tasks (rs_b r') = <[t := satisfied_row f now row]> (br_tasks (rs_b r)) →
      (∀ d, waiters (rs_b r') d =
        if decide (d = f) then waiters (rs_b r) d ∖ {[t]} else waiters (rs_b r) d) →
      rs_worklist r' = rs_worklist r →
      rs_queues r' =
        (if ready (row <| row_deps := delete f (row_deps row) |>)
         then {[env_Queue (row_envelope row)]} ∪ rs_queues r else rs_queues r) →
      resolved f failed now t r r'.

Lemma resolveOne_resolved f failed now r t :
  resolved f failed now t r (resolveOne f failed now r t).
Proof.
  unfold resolveOne.
  assert (Hrm : ∀ b d, waiters (removeDependent f t b) d =
    if decide (d = f) then waiters b d ∖ {[t]} else waiters b d).
  { intros b d. rewrite waiters_removeDependent. repeat case_decide; congruence. }
  destruct (br_tasks (rs_b r) !! t) as [row|] eqn:Hrow; cycle 1.
  { apply resolved_stale; simpl; [naive_solver|by frame|done..]. }
  destruct (row_deps row !! f) as [policy|] eqn:Hp; cycle 1.
  { apply resolved_stale; simpl; [naive_solver|by frame|done..]. }
  assert (Hk : keeps failed policy = true ↔ failed = true ∧ policy = DEPENDENCY_FAILURE_POLICY_BLOCK).
  { unfold keeps. by rewrite andb_true_iff, bool_decide_eq_true. }
  assert (Hca : cascades failed policy = true ↔
    failed = true ∧ policy = DEPENDENCY_FAILURE_POLICY_CASCADE_CANCEL).
  { unfold cascades. by rewrite andb_true_iff, bool_decide_eq_true. }
  case_decide as H1; [eapply resolved_kept; [done..|by apply Hk|done]|].
  case_decide as H2.
  { eapply resolved_canceled; [done..|by apply Hca| | |done|done]; cbn [rs_b].
    - frame. by rewrite (proj1 (foldl_removeDependent _ _ _)).
    - intros d. rewrite (waiters_ext (foldl (λ b d, removeDependent d t b) (rs_b r)
        (range_keys (dom (row_deps row))))) by (by frame).
      rewrite (proj2 (foldl_removeDependent _ _ _)). apply decide_ext.
      by rewrite elem_of_range_keys, elem_of_dom. }
  assert (keeps failed policy = false) by (by rewrite <- not_true_iff_false, Hk).
  assert (cascades failed policy = false) by (by rewrite <- not_true_iff_false, Hca).
  set (row' := row <| row_deps := delete f (row_deps row) |>).
  destruct (promoteIfReady_spec t row' now (removeDependent f t (put_row t row' (rs_b r))))
    as (Ht & Hd & Hq).
  destruct (promoteIfReady _ _ _ _) as [b' queue]. cbn [fst snd] in *. subst queue.
  eapply resolved_satisfied; [done..| | |done|]; cbn [rs_b rs_queues].
  - rewrite Ht. unfold satisfied_row. fold row'. frame.
    destruct (ready row'); [by rewrite insert_insert_eq|done].
  - intros d. rewrite (waiters_ext _ _ _ Hd), Hrm. by rewrite !(waiters_ext (rs_b r) (put_row _ _ _)).
  - fold row'. by destruct (ready row').
Qed.

Lemma satisfied_row_ok f now id row :
  row_ok id row → row_ok id (satisfied_row f now row).
Proof.
  intros Hok. unfold satisfied_row, ready. rsimpl.
  assert (Hn : terminal (row_state row) = false → row_completedAt row = zeroTime)
    by apply (ok_completedAt _ _ Hok).
  destruct Hok as [Hid Hst Hbl Hself Hpol Hpr Hcm].
  assert (Hself' : delete f (row_deps row) !! id = None)
    by (rewrite lookup_delete_None; auto).
  assert (Hpol' : ∀ d, delete f (row_deps row) !! d ≠ Some DEPENDENCY_FAILURE_POLICY_UNSPECIFIED).
  { intros d [_ Hd]%lookup_delete_Some. by apply (Hpol d). }
  case_bool_decide as Hb.
  - destruct Hb as [Hb _]. unfold promoted_row. rewrite Hb in Hn. specialize (Hn eq_refl).
    split; rsimpl; try done; repeat case_match; try done; by rewrite Hn.
  - split; rsimpl; try done. intros E Hd. by apply Hb.
Qed.

Lemma satisfied_row_blocked f now row :
  row_state (satisfied_row f now row) = TASK_STATE_BLOCKED → row_state row = TASK_STATE_BLOCKED.
Proof.
  unfold satisfied_row. case_match; [|done]. unfold promoted_row. rsimpl. by repeat case_match.
Qed.

Lemma satisfied_row_deps f now row :
  row_deps (satisfied_row f now row) = delete f (row_deps row).
Proof. unfold satisfied_row. by case_match. Qed.

Lemma cancel_row_ok now id row : (0 < now)%Z → row_ok id row → row_ok id (cancel_row now row).
Proof.
  intros Hnow [Hid Hst Hbl Hself Hpol Hpr Hcm]. unfold cancel_row.
  split; rsimpl; try done. unfold zeroTime. split; [lia|done].
Qed.

Lemma wf_resolved f failed now t r r' :
  (0 < now)%Z → resolved f failed now t r r' → wf (rs_b r) → wf (rs_b r').
Proof.
  intros Hnow [Hst Ht Hw _ _|row p Hrow Hp _ ->|row p Hrow Hp _ Ht Hw _ _|row p Hrow Hp _ _ Ht Hw _ _] Hwf.
  - destruct Hwf as [Hr Hs Hc]. split; rewrite ?Ht; [done|..].
    + intros d t'. rewrite Hw. intros Hin. apply Hs. case_decide; set_solver.
    + intros d t' row Hrow Hb Hd. rewrite Hw. pose proof (Hc _ _ _ Hrow Hb Hd).
      case_decide as E; [|done]. subst. apply elem_of_difference. split; [done|].
      intros ->%elem_of_singleton. rewrite (Hst _ Hrow) in Hd. by destruct Hd.
  - done.
  - eapply (wf_drop_edges (λ d, is_Some (row_deps row !! d))); [done..| |done|done| |done].
    + apply cancel_row_ok; [done|]. by eapply wf_row.
    + intros d. unfold cancel_row. rsimpl. rewrite lookup_empty.
      case_decide as E; [done|]. symmetry. by apply eq_None_not_Some.
  - eapply (wf_drop_edges (λ d, d = f)); [done..| |done|done| |].
    + eapply satisfied_row_ok, wf_row; eauto.
    + intros d. rewrite satisfied_row_deps, lookup_delete. repeat case_decide; congruence.
    + apply satisfied_row_blocked.
Qed.

(** ** Termination of the worklist loop *)

(** The ids of the rows that still carry dependencies. *)
Definition with_deps b : gset string := dom (filter (λ p, row_deps p.2 ≠ ∅) (br_tasks b)).

Lemma elem_of_with_deps b t :
  t ∈ with_deps b ↔ ∃ row, br_tasks b !! t = Some row ∧ row_deps row ≠ ∅.
Proof.
  unfold with_deps. rewrite elem_of_dom. split.
  - intros [row [Hrow Hd]%map_lookup_filter_Some]. eauto.
  - intros (row & Hrow & Hd). exists row. by apply map_lookup_filter_Some_2.
Qed.

(** The measure of the loop. *)
Definition pending_work (r : resolution) : nat :=
  length (rs_worklist r) + size (with_deps (rs_b r)).

Lemma pending_work_resolved f failed now t r r' :
  resolved f failed now t r r' → pending_work r' ≤ pending_work r.
Proof.
  unfold pending_work.
  intros [Hst Ht Hw Hl _|row p Hrow Hp _ ->|row p Hrow Hp _ Ht Hw Hl _|row p Hrow Hp _ _ Ht Hw Hl _].
  - unfold with_deps. by rewrite Ht, Hl.
  - done.
  - assert (Hin : t ∈ with_deps (rs_b r)).
    { apply elem_of_with_deps. exists row. split; [done|]. intros E.
      by rewrite E, lookup_empty in Hp. }
    assert (Hsub : with_deps (rs_b r') ⊆ with_deps (rs_b r) ∖ {[t]}).
    { intros t'. rewrite elem_of_difference, !elem_of_with_deps, Ht, elem_of_singleton.
      intros (row' & Hrow' & Hd). destruct (decide (t' = t)) as [->|Hne].
      - rewrite lookup_insert_eq in Hrow'. by simplify_eq.
      - rewrite lookup_insert_ne in Hrow' by done. eauto. }
    apply subseteq_size in Hsub. rewrite size_difference in Hsub by set_solver.
    rewrite size_singleton in Hsub. rewrite Hl, length_app. simpl.
    assert (size (with_deps (rs_b r)) ≠ 0) by (rewrite size_non_empty_iff; set_solver).
    lia.
  - assert (Hsub : with_deps (rs_b r') ⊆ with_deps (rs_b r)).
    { intros t'. rewrite !elem_of_with_deps, Ht. intros (row' & Hrow' & Hd).
      destruct (decide (t' = t)) as [->|Hne].
      - exists row. split; [done|]. intros E. by rewrite E, lookup_empty in Hp.
      - rewrite lookup_insert_ne in Hrow' by done. eauto. }
    apply subseteq_size in Hsub. rewrite Hl. lia.
Qed.

(** The loop rule for the inner loop over the waiters. *)
Lemma foldl_resolveOne_ind f failed now (I : resolution → Prop) ts r :
  I r → (∀ t r r', resolved f failed now t r r' → I r → I r') →
  I (foldl (resolveOne f failed now) r ts).
Proof.
  intros H0 Hstep. revert r H0. induction ts as [|t ts IH]; intros r H0; [done|].
  cbn [foldl]. apply IH. eapply Hstep; [apply resolveOne_resolved|done].
Qed.

(** One turn of the loop, as the residual resolution it continues with. *)
Definition resolve_turn (now : Time) (seen : gset string) (f : string) (r : resolution)
    : gset string * resolution :=
  if decide (f ∈ seen) then (seen, r)
  else ({[f]} ∪ seen,
    match br_tasks (rs_b r) !! f with
    | None => r
    | Some finished =>
        if negb (terminal (row_state finished)) then r
        else foldl (resolveOne f (negb (bool_decide (row_state finished = TASK_STATE_COMPLETED))) now)
               r (range_keys (waiters (rs_b r) f))
    end).

Lemma resolve_loop_turn fuel now seen r f worklist :
  rs_worklist r = f :: worklist →
  resolve_loop (S fuel) now seen r =
    let '(seen', r') := resolve_turn now seen f (mkResolution (rs_b r) (rs_queues r) worklist) in
    resolve_loop fuel now seen' r'.
Proof.
  intros Hw. cbn [resolve_loop]. rewrite Hw. unfold resolve_turn. case_decide; [done|].
  cbn [rs_b]. destruct (br_tasks (rs_b r) !! f) as [finished|]; [|done].
  by destruct (row_state finished).
Qed.

Lemma pending_work_turn now seen f r : pending_work (resolve_turn now seen f r).2 ≤ pending_work r.
Proof.
  unfold resolve_turn. repeat case_match; try done. cbn [snd].
  apply (foldl_resolveOne_ind _ _ _ (λ r', pending_work r' ≤ pending_work r)); [done|].
  intros ? r1 r2 Hr ?. etrans; [by eapply pending_work_resolved|done].
Qed.

(** With fuel for the measure the loop runs until the worklist is empty, and
    more fuel changes nothing. *)
Lemma resolve_loop_terminates fuel now seen r :
  pending_work r ≤ fuel →
  rs_worklist (resolve_loop fuel now seen r) = [] ∧
  ∀ fuel', fuel ≤ fuel' → resolve_loop fuel' now seen r = resolve_loop fuel now seen r.
Proof.
  revert seen r. induction fuel as [|fuel IH]; intros seen r Hm.
  - assert (rs_worklist r = []) as Hnil.
    { unfold pending_work in Hm. destruct (rs_worklist r); [done|simpl in Hm; lia]. }
    split; [done|]. intros [|fuel'] _; [done|]. cbn [resolve_loop]. by rewrite Hnil.
  - destruct (rs_worklist r) as [|f worklist] eqn:Hw.
    { cbn [resolve_loop]. rewrite Hw. split; [done|]. intros [|fuel'] Hf; [lia|].
      cbn [resolve_loop]. by rewrite Hw. }
    rewrite (resolve_loop_turn _ _ _ _ _ _ Hw).
    pose proof (pending_work_turn now seen f (mkResolution (rs_b r) (rs_queues r) worklist)) as Ht.
    destruct (resolve_turn now seen f _) as [seen' r'] eqn:E. cbn [snd] in Ht.
    assert (pending_work r' ≤ fuel) as Hm'.
    { etrans; [exact Ht|]. unfold pending_work in *. rewrite Hw in Hm. simpl in *. lia. }
    destruct (IH seen' r' Hm') as [IH1 IH2]. split; [done|].
    intros [|fuel'] Hf; [lia|]. rewrite (resolve_loop_turn _ _ _ _ _ _ Hw), E. apply IH2. lia.
Qed.

Lemma resolveFuel_enough id b : pending_work (mkResolution b ∅ [id]) ≤ resolveFuel b.
Proof.
  unfold pending_work, resolveFuel. cbn [rs_worklist rs_b length].
  rewrite <- size_dom. apply le_n_S, subseteq_size, dom_filter_subseteq.
Qed.

(** Loop rules: an invariant of the turns, and one of the single steps. *)
Lemma resolve_loop_ind (I : gset string → resolution → Prop) fuel now seen r :
  (∀ seen r f worklist, rs_worklist r = f :: worklist → I seen r →
     let '(seen', r') := resolve_turn now seen f (mkResolution (rs_b r) (rs_queues r) worklist) in
     I seen' r') →
  I seen r → ∃ seen', I seen' (resolve_loop fuel now seen r).
Proof.
  intros Hturn. revert seen r. induction fuel as [|fuel IH]; intros seen r HI; [by eexists|].
  destruct (rs_worklist r) as [|f worklist] eqn:Hw.
  { cbn [resolve_loop]. rewrite Hw. by eexists. }
  rewrite (resolve_loop_turn _ _ _ _ _ _ Hw). specialize (Hturn _ _ _ _ Hw HI).
  destruct (resolve_turn _ _ _ _) as [seen' r']. by apply IH.
Qed.

Lemma resolveDependents_ind (I : resolution → Prop) now id b :
  (∀ r worklist, I r → I (mkResolution (rs_b r) (rs_queues r) worklist)) →
  (∀ f failed t r r', resolved f failed now t r r' → I r → I r') →
  I (mkResolution b ∅ [id]) →
  I (resolve_loop (resolveFuel b) now ∅ (mkResolution b ∅ [id])).
Proof.
  intros Hwl Hstep H0.
  destruct (resolve_loop_ind (λ _, I) (resolveFuel b) now ∅ (mkResolution b ∅ [id])) as [? H];
    [|done|done].
  intros seen r f worklist _ HI. unfold resolve_turn.
  repeat case_match; simplify_eq; try by apply Hwl.
  apply foldl_resolveOne_ind; [by apply Hwl|]. eauto.
Qed.

Lemma wf_resolveDependents id now b :
  (0 < now)%Z → wf b → wf (resolveDependents id now b).1.
Proof.
  intros Hnow Hwf. unfold resolveDependents. cbn [fst].
  apply (resolveDependents_ind (λ r, wf (rs_b r))); [done| |done].
  intros. by eapply wf_resolved.
Qed.

Lemma wf_ResolveDependents id now b :
  (0 < now)%Z → wf b → wf (ResolveDependents id now b).1.
Proof.
  intros Hnow Hwf. pose proof (wf_resolveDependents id now b Hnow Hwf) as H.
  unfold ResolveDependents. by destruct (resolveDependents id now b).
Qed.

(** On a well-formed store no row is blocked without a dependency, so the
    backstop loop of [PromoteReadyDependents] finds nothing. *)
Lemma wf_not_ready b id row : wf b → br_tasks b !! id = Some row → ready row = false.
Proof.
  intros Hwf Hrow. apply bool_decide_false. intros [Hb Hd].
  by apply (ok_blocked _ _ (wf_row _ _ _ Hwf Hrow)).
Qed.

Lemma backstop_idle now keys s :
  wf (sw_b s) →
  range_loop (λ s, br_tasks (sw_b s)) (promoteReadyOne now) keys s = s.
Proof.
  intros Hwf. unfold range_loop. induction keys as [|k keys IH]; [done|]. cbn [foldl].
  destruct (br_tasks (sw_b s) !! k) as [row|] eqn:Hrow; [|done].
  rewrite <- IH at 2. f_equal. unfold promoteReadyOne.
  pose proof (wf_not_ready _ _ _ Hwf Hrow) as Hn. unfold promoteIfReady.
  unfold ready in Hn. apply bool_decide_eq_false in Hn.
  rewrite decide_True by (destruct (decide (row_state row = TASK_STATE_BLOCKED)); tauto).
  by destruct s.
Qed.

Lemma wf_resolveBounded limit now ds s :
  (0 < now)%Z → wf (sw_b s) → wf (sw_b (foldl (resolveBounded limit now) s ds)).
Proof.
  intros Hnow. revert s. induction ds as [|d ds IH]; intros s Hwf; [done|]. cbn [foldl].
  apply IH. unfold resolveBounded. case_decide; [done|].
  pose proof (wf_resolveDependents d now (sw_b s) Hnow Hwf) as Hres.
  by destruct (resolveDependents d now (sw_b s)).
Qed.

Lemma wf_PromoteReadyDependents limit now b :
  (0 < now)%Z → wf b → wf (PromoteReadyDependents limit now b).1.
Proof.
  intros Hnow Hwf. unfold PromoteReadyDependents. case_match; [done|]. cbn [fst].
  rewrite backstop_idle; by apply wf_resolveBounded.
Qed.

(** ** Deletion *)

Lemma wf_DeleteTask id b : wf b → wf (DeleteTask id b).1.
Proof.
  intros Hwf. unfold DeleteTask. destruct (br_tasks b !! id) as [row|] eqn:Hrow; [|done].
  case_match; [done|]. case_decide; [done|]. cbn [fst].
  destruct (foldl_removeDependent id (range_keys (dom (row_deps row))) b) as [Ht Hw].
  eapply (wf_drop_row id b); [done|by rewrite delete_row_tasks, Ht|].
  intros d t. rewrite (waiters_ext _ (delete_row _ _)) by (by rewrite delete_row_dependents).
  rewrite Hw. case_decide as Hd; [set_solver|].
  rewrite elem_of_range_keys, elem_of_dom in Hd.
  split; [|tauto]. intros Hin. split; [done|]. intros ->.
  destruct (wf_sound _ Hwf _ _ Hin) as (r & Hr & Hdep). by simplify_eq.
Qed.

(** ** Purge *)

(** No stale edge: every recorded waiter is an incomplete row. *)
Definition fresh_edges b : Prop :=
  ∀ d t, t ∈ waiters b d → ∃ row, br_tasks b !! t = Some row ∧ incomplete (row_state row) = true.

(** The waiter [t] counts for the purge. *)
Definition waits b (t : string) : bool :=
  match br_tasks b !! t with Some row => incomplete (row_state row) | None => false end.

Lemma dropWaiters_spec b d :
  br_tasks (dropWaiters b d) = br_tasks b ∧
  ∀ d' t, t ∈ waiters (dropWaiters b d) d' ↔
    t ∈ waiters b d' ∧ (d' = d → waits b t = true).
Proof.
  unfold dropWaiters.
  assert (Hgen : ∀ ts b0, br_tasks b0 = br_tasks b →
    let b' := foldl (λ b dependentID,
      match br_tasks b !! dependentID with
      | Some dependent => if incomplete (row_state dependent) then b
                          else removeDependent d dependentID b
      | None => removeDependent d dependentID b
      end) b0 ts in
    br_tasks b' = br_tasks b ∧
    ∀ d' t, t ∈ waiters b' d' ↔ t ∈ waiters b0 d' ∧ (d' = d → t ∈ ts → waits b t = true)).
  { induction ts as [|t ts IH]; intros b0 Ht; cbn [foldl].
    { split; [done|]. set_solver. }
    set (b1 := match br_tasks b0 !! t with Some _ => _ | None => _ end).
    assert (H1 : br_tasks b1 = br_tasks b ∧ ∀ d' t', t' ∈ waiters b1 d' ↔
      t' ∈ waiters b0 d' ∧ (d' = d → t' = t → waits b t = true)).
    { unfold b1, waits. rewrite Ht.
      destruct (br_tasks b !! t) as [row|] eqn:E; [destruct (incomplete (row_state row)) eqn:E'|];
        (split; [by frame|]); intros d' t'; rewrite ?elem_of_waiters_remove; naive_solver. }
    destruct H1 as [Ht1 Hw1]. destruct (IH b1 Ht1) as [Ht2 Hw2]. split; [done|].
    intros d' t'. rewrite Hw2, Hw1, elem_of_cons. split; [|naive_solver].
    intros [[Hin Ha] Hb]. split; [done|]. intros Hd [->|Hts]; auto. }
  destruct (Hgen (range_keys (default ∅ (br_dependents b !! d))) b eq_refl) as [Ht Hw].
  split; [done|]. intros d' t. rewrite Hw. split; [|naive_solver].
  intros [Hin Ha]. split; [done|]. intros ->. apply Ha; [done|]. by apply elem_of_range_keys.
Qed.

Lemma dropTerminalDependentEdges_spec b :
  br_tasks (dropTerminalDependentEdges b) = br_tasks b ∧
  ∀ d t, t ∈ waiters (dropTerminalDependentEdges b) d ↔ t ∈ waiters b d ∧ waits b t = true.
Proof.
  unfold dropTerminalDependentEdges.
  assert (Hgen : ∀ ds b0, br_tasks b0 = br_tasks b →
    br_tasks (foldl dropWaiters b0 ds) = br_tasks b ∧
    ∀ d t, t ∈ waiters (foldl dropWaiters b0 ds) d ↔
      t ∈ waiters b0 d ∧ (d ∈ ds → waits b t = true)).
  { induction ds as [|d ds IH]; intros b0 Ht; cbn [foldl].
    { split; [done|]. set_solver. }
    destruct (dropWaiters_spec b0 d) as [Ht1 Hw1].
    destruct (IH (dropWaiters b0 d)) as [Ht2 Hw2]; [congruence|]. split; [done|].
    intros d' t. rewrite Hw2, Hw1, elem_of_cons. unfold waits. rewrite Ht. split; [|naive_solver].
    intros [[Hin Ha] Hb]. split; [done|]. intros [->|Hds]; auto. }
  destruct (Hgen (range_keys (dom (br_dependents b))) b eq_refl) as [Ht Hw].
  split; [done|]. intros d t. rewrite Hw. split; [|naive_solver].
  intros [Hin Ha]. split; [done|]. apply Ha. apply elem_of_range_keys, elem_of_dom.
  unfold waiters in Hin. destruct (br_dependents b !! d); [done|set_solver].
Qed.

(** The purge rewrites a row only by releasing a lapsed unique key. *)
Lemma releaseLapsed_frame now row :
  row_envelope (releaseLapsed now row) = row_envelope row ∧
  row_deps (releaseLapsed now row) = row_deps row ∧
  row_state (releaseLapsed now row) = row_state row ∧
  row_progress (releaseLapsed now row) = row_progress row ∧
  row_completedAt (releaseLapsed now row) = row_completedAt row.
Proof. unfold releaseLapsed. by case_match. Qed.

Lemma releaseLapsed_idem now row :
  releaseLapsed now (releaseLapsed now row) = releaseLapsed now row.
Proof.
  unfold releaseLapsed at 2 3.
  destruct (_ && _ && _) eqn:E; unfold releaseLapsed; [by rsimpl|by rewrite E].
Qed.

Lemma purgeable_releaseLapsed now row now' ret :
  purgeable (releaseLapsed now row) now' ret = purgeable row now' ret.
Proof. unfold releaseLapsed. by destruct (_ && _ && _). Qed.

Lemma purgeable_terminal row now ret : purgeable row now ret = true → terminal (row_state row) = true.
Proof. unfold purgeable. by destruct (row_state row). Qed.

Lemma terminal_not_incomplete s : terminal s = true → incomplete s = false.
Proof. by destruct s. Qed.

Lemma hasDependents_false id b : hasDependents id b = false ↔ waiters b id = ∅.
Proof.
  unfold hasDependents. fold (waiters b id). rewrite bool_decide_eq_false.
  rewrite Nat.nlt_ge, Nat.le_0_r, size_empty_iff. by rewrite leibniz_equiv_iff.
Qed.

(** The invariant of the purge loop; [b] is the store when it starts and
    [done] the ids visited. *)
Record purge_inv (ret : Duration) (limit : Z) (now : Time) b (done : list string) (p : purging)
    : Prop := {
  pi_wf : wf (pg_b p);
  pi_fresh : fresh_edges (pg_b p);
  pi_waiters : ∀ d, waiters (pg_b p) d = waiters b d;
  pi_new : ∀ id row', br_tasks (pg_b p) !! id = Some row' →
    ∃ row, br_tasks b !! id = Some row ∧
      (row' = releaseLapsed now row ∨ row' = row ∧ id ∉ done);
  pi_deleted : ∀ id row, br_tasks b !! id = Some row → br_tasks (pg_b p) !! id = None →
    purgeable row now ret = true ∧ waiters b id = ∅;
  pi_count : (pg_completed p + pg_archived p + Z.of_nat (size (br_tasks (pg_b p))) =
    Z.of_nat (size (br_tasks b)))%Z;
  pi_budget : (0 <= pg_completed p <= limit ∧ 0 <= pg_archived p <= limit)%Z;
  pi_kept : ∀ id row, id ∈ done → br_tasks (pg_b p) !! id = Some row →
    purgeable row now ret = true → waiters b id = ∅ →
    (if decide (row_state row = TASK_STATE_COMPLETED) then pg_completed p else pg_archived p) = limit }.

(** The two things a turn of the purge can do to a visited row. *)
Lemma purge_inv_keep ret limit now b done p id row row0 :
  purge_inv ret limit now b done p →
  br_tasks (pg_b p) !! id = Some row → br_tasks b !! id = Some row0 →
  releaseLapsed now row = releaseLapsed now row0 →
  (purgeable row now ret = true → waiters b id = ∅ →
   (if decide (row_state row = TASK_STATE_COMPLETED) then pg_completed p else pg_archived p) = limit) →
  purge_inv ret limit now b (done ++ [id])
    (mkPurging (put_row id (releaseLapsed now row) (pg_b p)) (pg_completed p) (pg_archived p)).
Proof.
  intros [Hwf Hfr Hw Hnew Hdel Hc Hbud Hk] Hrow Hrow0 Heq Hlim.
  destruct (releaseLapsed_frame now row) as (He & Hd & Hs & Hp & Hcm).
  pose proof (wf_row _ _ _ Hwf Hrow) as Hok.
  split; cbn [pg_b pg_completed pg_archived]; rewrite ?put_row_tasks.
  - eapply wf_put_row; [done..| |done|by rewrite Hs].
    apply (row_ok_update _ row); try congruence; rewrite ?Hs, ?Hp, ?Hcm; apply Hok.
  - intros d t Hin. destruct (Hfr d t Hin) as (r & Er & Hi). rewrite put_row_tasks, lookup_insert.
    destruct (decide (id = t)); subst; [|eauto]. exists (releaseLapsed now row).
    split; [done|]. rewrite Hs. congruence.
  - done.
  - intros id' row'. rewrite lookup_insert. destruct (decide (id = id')) as [E|E].
    + intros [= <-]. subst. eauto.
    + intros Hr. destruct (Hnew _ _ Hr) as (r0 & Hr0 & [?|[? ?]]); [by eauto|].
      exists r0. split; [done|]. right. set_solver.
  - intros id' r Hr [? ?]%lookup_insert_None. eauto.
  - by rewrite map_size_insert_Some.
  - done.
  - intros id' r Hin. rewrite lookup_insert. destruct (decide (id = id')) as [E|E].
    + intros [= <-]. subst. rewrite purgeable_releaseLapsed, Hs. done.
    + intros Hr. apply (Hk id' r); [set_solver|done].
Qed.

Lemma purge_inv_delete ret limit now b done p id row row0 c a :
  purge_inv ret limit now b done p →
  br_tasks (pg_b p) !! id = Some row → br_tasks b !! id = Some row0 →
  purgeable row0 now ret = true → waiters b id = ∅ →
  (c + a = pg_completed p + pg_archived p + 1)%Z →
  (pg_completed p <= c <= limit)%Z → (pg_archived p <= a <= limit)%Z →
  purge_inv ret limit now b (done ++ [id])
    (mkPurging (delete_row id (put_row id (releaseLapsed now row) (pg_b p))) c a).
Proof.
  intros [Hwf Hfr Hw Hnew Hdel Hc Hbud Hk] Hrow Hrow0 Hpurge Hnone Hca Hcl Hal.
  assert (Hst : incomplete (row_state row) = false).
  { destruct (Hnew _ _ Hrow) as (r & Hr & Hor). simplify_eq.
    apply terminal_not_incomplete. apply (purgeable_terminal _ now ret).
    destruct Hor as [->|[-> _]]; by rewrite ?purgeable_releaseLapsed. }
  assert (Hnw : ∀ d, id ∉ waiters (pg_b p) d).
  { intros d Hin. destruct (Hfr _ _ Hin) as (r & Hr & Hi). simplify_eq. congruence. }
  assert (Htasks : br_tasks (delete_row id (put_row id (releaseLapsed now row) (pg_b p))) =
    delete id (br_tasks (pg_b p))) by (frame; by rewrite delete_insert_eq).
  split; cbn [pg_b pg_completed pg_archived]; rewrite ?Htasks.
  - eapply (wf_drop_row id (pg_b p)); [done..|]. intros d t.
    change (waiters _ d) with (waiters (pg_b p) d) at 1. split; [|tauto].
    intros Hin. split; [done|]. intros ->. by eapply Hnw.
  - intros d t Hin. change (waiters _ d) with (waiters (pg_b p) d) in Hin.
    destruct (Hfr d t Hin) as (r & Er & Hi). rewrite Htasks. exists r.
    rewrite lookup_delete_ne; [done|]. intros ->. by eapply Hnw.
  - done.
  - intros id' row' [Hne Hr]%lookup_delete_Some.
    destruct (Hnew _ _ Hr) as (r0 & Hr0 & [?|[? ?]]); [by eauto|].
    exists r0. split; [done|]. right. set_solver.
  - intros id' r Hr. rewrite lookup_delete_None. intros [->|Hn]; [by simplify_eq|eauto].
  - rewrite map_size_delete_Some by eauto.
    assert (size (br_tasks (pg_b p)) ≠ 0) by (by eapply map_size_ne_0_lookup_2, mk_is_Some). lia.
  - lia.
  - intros id' r Hin [Hne Hr]%lookup_delete_Some Hpu Hno.
    specialize (Hk id' r ltac:(set_solver) Hr Hpu Hno). case_decide; lia.
Qed.

Lemma purgeOne_inv ret limit now b done p id row :
  br_tasks (pg_b p) !! id = Some row →
  purge_inv ret limit now b done p →
  purge_inv ret limit now b (done ++ [id]) (purgeOne ret limit now id row p).
Proof.
  intros Hrow Hinv. destruct (pi_new _ _ _ _ _ _ Hinv _ _ Hrow) as (row0 & Hrow0 & Hor).
  assert (Heq : releaseLapsed now row = releaseLapsed now row0).
  { destruct Hor as [->|[-> _]]; by rewrite ?releaseLapsed_idem. }
  destruct (releaseLapsed_frame now row) as (_ & _ & Hs & _ & _).
  assert (Hpu : purgeable row now ret = purgeable row0 now ret).
  { by rewrite <- (purgeable_releaseLapsed now row), Heq, purgeable_releaseLapsed. }
  pose proof (pi_waiters _ _ _ _ _ _ Hinv id) as Hw.
  pose proof (pi_budget _ _ _ _ _ _ Hinv) as Hbud.
  unfold purgeOne. rewrite purgeable_releaseLapsed, Hs.
  change (hasDependents id (put_row _ _ _)) with (hasDependents id (pg_b p)).
  destruct (hasDependents _ _) eqn:Hdep; simpl.
  { eapply purge_inv_keep; eauto. intros _ Hno. exfalso.
    rewrite <- Hw in Hno. by rewrite (proj2 (hasDependents_false id _) Hno) in Hdep. }
  apply hasDependents_false in Hdep. rewrite Hw in Hdep.
  destruct (purgeable row now ret) eqn:Hp; simpl; cycle 1.
  { eapply purge_inv_keep; eauto. congruence. }
  case_decide as Hcs; case_decide as Hlim.
  all: try (eapply purge_inv_keep; eauto; intros; by case_decide).
  all: eapply purge_inv_delete; eauto; lia.
Qed.

Lemma purge_inv_start ret limit now b :
  (0 < limit)%Z → wf b →
  purge_inv ret limit now (dropTerminalDependentEdges b) []
    (mkPurging (dropTerminalDependentEdges b) 0 0).
Proof.
  intros Hl Hwf. destruct (dropTerminalDependentEdges_spec b) as [Ht Hw].
  split; cbn [pg_b pg_completed pg_archived]; try done; try lia.
  - destruct Hwf as [Hr Hs Hc]. split; rewrite ?Ht; [done|..].
    + intros d t [Hin _]%Hw. by apply Hs.
    + intros d t row Hrow Hb Hd. apply Hw. split; [by eapply Hc|].
      unfold waits. by rewrite Hrow, Hb.
  - intros d t [Hin Hwt]%Hw. unfold waits in Hwt. rewrite Ht.
    destruct (br_tasks b !! t); [eauto|done].
  - intros id row Hrow. exists row. split; [done|]. right. split; [done|]. set_solver.
  - intros id row Hrow Hn. congruence.
  - intros id row []%elem_of_nil.
Qed.

(** The whole purge, as its loop invariant at the end. *)
Lemma PurgeTerminal_inv ret limit now b :
  (0 < limit)%Z → wf b →
  let b0 := dropTerminalDependentEdges b in
  ∃ p, PurgeTerminal ret limit now b = (pg_b p, (pg_completed p + pg_archived p)%Z) ∧
    purge_inv ret limit now b0 (range_keys (dom (br_tasks b0))) p.
Proof.
  intros Hl Hwf b0. unfold PurgeTerminal.
  rewrite (proj2 (Z.leb_gt limit 0)) by done. eexists. split; [done|].
  apply (range_loop_ind _ _ (purge_inv ret limit now b0)); [by apply purge_inv_start|].
  intros done k p _ Hinv. destruct (br_tasks (pg_b p) !! k) as [row|] eqn:Hrow.
  - by apply purgeOne_inv.
  - destruct Hinv as [Hwf' Hfr Hw Hnew Hdel Hc Hbud Hk]. split; try done.
    + intros id row' Hr. destruct (Hnew _ _ Hr) as (r & Hr0 & [?|[? ?]]); [by eauto|].
      exists r. split; [done|]. right. split; [done|]. rewrite elem_of_app. set_solver.
    + intros id row Hin. apply elem_of_app in Hin as [Hin|Hin]; [by apply Hk|].
      apply list_elem_of_singleton in Hin. congruence.
Qed.

Lemma wf_PurgeTerminal ret limit now b : wf b → wf (PurgeTerminal ret limit now b).1.
Proof.
  intros Hwf. destruct (Z.leb_spec limit 0) as [Hl|Hl].
  - unfold PurgeTerminal. by rewrite (proj2 (Z.leb_le _ _)).
  - destruct (PurgeTerminal_inv ret limit now b Hl Hwf) as (p & -> & Hinv). apply Hinv.
Qed.
End Dependencies.
