(* ===== verification/MemorySweeps.v ===== *)
(** * The in-memory broker: what a bounded sweep does

    [ReapExpiredLeases], [PromoteScheduled] and [ArchiveExpired] share a shape:
    range over the tasks, rewrite each row that qualifies, stop rewriting at the
    limit. The shape is specified once, by the relation between the rows before
    and after, and the three operations are instances. *)

From S2P Require Import Prelude Proto Events BrokerApi Memory MemoryFacts MemoryInv.
Implicit Types (b : Broker) (row : taskRow).

Section Sweeps.
Context {MR : MapRange}.

(** One sweep: the rows that qualify, the row each becomes, and whether its
    queue is woken. A rewritten row no longer qualifies. *)
Variables (test : taskRow → bool) (upd : taskRow → taskRow) (wakes : taskRow → bool).
Hypothesis upd_done : ∀ row, test row = true → test (upd row) = false.
Variable limit : Z.

(** The loop body: skip at the limit, skip a row that does not qualify,
    rewrite the others. *)
Definition sweep_body (body : string → taskRow → sweep → sweep) : Prop :=
  ∀ id row s,
    (sw_count s = limit ∨ test row = false → body id row s = s) ∧
    (sw_count s ≠ limit → test row = true →
       br_tasks (sw_b (body id row s)) = <[id := upd row]> (br_tasks (sw_b s)) ∧
       br_dependents (sw_b (body id row s)) = br_dependents (sw_b s) ∧
       sw_count (body id row s) = (sw_count s + 1)%Z ∧
       sw_queues (body id row s) =
         (if wakes row then {[env_Queue (row_envelope row)]} ∪ sw_queues s else sw_queues s)).

(** The rewritten rows, given the stores before and after. *)
Definition swept b b' (id : string) : Prop :=
  ∃ row, br_tasks b !! id = Some row ∧ test row = true ∧ br_tasks b' !! id = Some (upd row).

(** The effect of a sweep that has visited [done]. *)
Record sweep_spec b (done : list string) (s : sweep) : Prop := {
  sp_rows : ∀ id row, br_tasks b !! id = Some row →
    br_tasks (sw_b s) !! id = Some row ∨ swept b (sw_b s) id;
  sp_none : ∀ id, br_tasks b !! id = None → br_tasks (sw_b s) !! id = None;
  sp_dependents : br_dependents (sw_b s) = br_dependents b;
  sp_count : ∃ changed : gset string, (∀ id, id ∈ changed ↔ swept b (sw_b s) id) ∧
    sw_count s = Z.of_nat (size changed);
  sp_queues : ∀ q, q ∈ sw_queues s ↔
    ∃ id row, br_tasks b !! id = Some row ∧ swept b (sw_b s) id ∧ wakes row = true ∧
      env_Queue (row_envelope row) = q;
  sp_limit : (sw_count s <= limit)%Z;
  sp_exhaustive : ∀ id row, id ∈ done → br_tasks (sw_b s) !! id = Some row →
    test row = true → sw_count s = limit }.

Lemma sweep_spec_start b : (0 < limit)%Z → sweep_spec b [] (mkSweep b ∅ 0).
Proof.
  intros Hl.
  assert (Hno : ∀ id, ¬ swept b b id).
  { intros id (row & Hrow & Ht & Hrow'). pose proof (upd_done _ Ht). congruence. }
  split; cbn [sw_b sw_queues sw_count]; auto; try lia.
  - exists ∅. split; [|done]. intros id. split; [set_solver|]. intros H. by destruct (Hno id).
  - intros q. split; [set_solver|]. intros (id & row & _ & H & _). by destruct (Hno id).
  - intros id row []%elem_of_nil.
Qed.

Lemma sweep_spec_skip b done s id :
  sweep_spec b done s →
  (∀ row, br_tasks (sw_b s) !! id = Some row → sw_count s = limit ∨ test row = false) →
  sweep_spec b (done ++ [id]) s.
Proof.
  intros [Hr Hn Hd Hc Hq Hl He] Hskip. split; try done.
  intros id' row [Hin|Hin]%elem_of_app Hrow Ht; [by eapply He|].
  apply list_elem_of_singleton in Hin as ->. destruct (Hskip _ Hrow); [done|congruence].
Qed.

Lemma sweep_spec_step b done s id row s' :
  sweep_spec b done s → br_tasks (sw_b s) !! id = Some row → test row = true →
  sw_count s ≠ limit →
  br_tasks (sw_b s') = <[id := upd row]> (br_tasks (sw_b s)) →
  br_dependents (sw_b s') = br_dependents (sw_b s) →
  sw_count s' = (sw_count s + 1)%Z →
  sw_queues s' = (if wakes row then {[env_Queue (row_envelope row)]} ∪ sw_queues s
                  else sw_queues s) →
  sweep_spec b (done ++ [id]) s'.
Proof.
  intros [Hr Hn Hd (ch & Hch & Hcnt) Hq Hl He] Hrow Ht Hne Htasks Hdep Hcount Hqs.
  assert (Hrow0 : br_tasks b !! id = Some row).
  { destruct (br_tasks b !! id) as [row0|] eqn:E; [|by rewrite (Hn _ E) in Hrow].
    destruct (Hr _ _ E) as [?|(r & Er & Ht' & Hr')]; [congruence|].
    rewrite Hrow in Hr'. injection Hr' as ->. by rewrite (upd_done _ Ht') in Ht. }
  assert (Hnid : ¬ swept b (sw_b s) id).
  { intros (r & Er & Ht' & Hr'). rewrite Hrow in Hr'. injection Hr' as ->.
    by rewrite (upd_done _ Ht') in Ht. }
  assert (Hsw : ∀ id', swept b (sw_b s') id' ↔ id' = id ∨ swept b (sw_b s) id').
  { intros id'. unfold swept. rewrite Htasks. destruct (decide (id' = id)) as [->|Hne'].
    - rewrite lookup_insert_eq. split; [by left|]. intros _. by exists row.
    - rewrite lookup_insert_ne by done. naive_solver. }
  split.
  - intros id' r Hr0. rewrite Hsw. destruct (decide (id' = id)) as [->|Hne']; [by right; left|].
    rewrite Htasks, lookup_insert_ne by done. destruct (Hr _ _ Hr0); auto.
  - intros id' Hno. rewrite Htasks, lookup_insert_ne; [by apply Hn|]. intros ->. congruence.
  - congruence.
  - exists ({[id]} ∪ ch). split.
    + intros id'. rewrite Hsw, <- Hch. set_solver.
    + rewrite size_union, size_singleton, Hcount, Hcnt; [lia|]. rewrite disjoint_singleton_l, Hch. done.
  - intros q. rewrite Hqs. split.
    + intros Hin. destruct (wakes row) eqn:Hw; [apply elem_of_union in Hin as [Hin|Hin]|].
      * exists id, row. rewrite Hsw. set_solver.
      * apply Hq in Hin as (i & r & ? & ? & ?). exists i, r. rewrite Hsw. auto.
      * apply Hq in Hin as (i & r & ? & ? & ?). exists i, r. rewrite Hsw. auto.
    + intros (i & r & Hi & [->|Hs]%Hsw & Hw & <-).
      * simplify_eq. rewrite Hw. set_solver.
      * assert (env_Queue (row_envelope r) ∈ sw_queues s) by (apply Hq; eauto 10).
        case_match; set_solver.
  - lia.
  - intros id' r Hin Hr' Htr. rewrite Htasks in Hr'. exfalso.
    destruct (decide (id' = id)) as [->|Hne'].
    + rewrite lookup_insert_eq in Hr'. injection Hr' as <-. by rewrite (upd_done _ Ht) in Htr.
    + rewrite lookup_insert_ne in Hr' by done. apply Hne, (He id' r); try done. set_solver.
Qed.

(** The sweep over every key. *)
Lemma sweep_spec_loop body b :
  (0 < limit)%Z → sweep_body body →
  sweep_spec b (range_keys (dom (br_tasks b)))
    (range_loop (λ s, br_tasks (sw_b s)) body (range_keys (dom (br_tasks b))) (mkSweep b ∅ 0)).
Proof.
  intros Hl Hbody. apply (range_loop_ind _ _ (sweep_spec b)); [by apply sweep_spec_start|].
  intros done id s _ Hs. destruct (br_tasks (sw_b s) !! id) as [row|] eqn:Hrow; cycle 1.
  { apply sweep_spec_skip; [done|]. congruence. }
  destruct (Hbody id row s) as [Hskip Hstep].
  destruct (decide (sw_count s = limit)) as [Hc|Hc].
  { rewrite Hskip by auto. apply sweep_spec_skip; auto. }
  destruct (test row) eqn:Ht.
  - destruct (Hstep Hc eq_refl) as (? & ? & ? & ?). by eapply sweep_spec_step.
  - rewrite Hskip by auto. apply sweep_spec_skip; [done|]. intros. right. congruence.
Qed.

(** Every row that qualifies is rewritten unless the limit was reached. *)
Lemma sweep_spec_complete b s :
  sweep_spec b (range_keys (dom (br_tasks b))) s → (sw_count s < limit)%Z →
  ∀ id row, br_tasks b !! id = Some row → test row = true → swept b (sw_b s) id.
Proof.
  intros [Hr Hn Hd _ _ Hl He] Hc id row Hrow Ht. destruct (Hr _ _ Hrow) as [Hsame|]; [|done].
  exfalso. enough (sw_count s = limit) by lia. eapply (He id row); [|done..].
  apply elem_of_range_keys, elem_of_dom. eauto.
Qed.

(** The sweep in terms of the set of rows it rewrote. *)
Lemma sweep_spec_rows b s :
  sweep_spec b (range_keys (dom (br_tasks b))) s →
  ∃ changed : gset string,
    (Z.of_nat (size changed) <= limit)%Z ∧ sw_count s = Z.of_nat (size changed) ∧
    (∀ id, br_tasks (sw_b s) !! id =
       (λ row, if decide (id ∈ changed) then upd row else row) <$> br_tasks b !! id) ∧
    (∀ id, id ∈ changed → ∃ row, br_tasks b !! id = Some row ∧ test row = true) ∧
    ((Z.of_nat (size changed) < limit)%Z →
       ∀ id row, br_tasks b !! id = Some row → test row = true → id ∈ changed) ∧
    (∀ q, q ∈ sw_queues s ↔ ∃ id row, id ∈ changed ∧ br_tasks b !! id = Some row ∧
       wakes row = true ∧ env_Queue (row_envelope row) = q).
Proof.
  intros Hs. destruct (sp_count _ _ _ Hs) as (ch & Hch & Hcnt). exists ch.
  pose proof (sp_limit _ _ _ Hs). rewrite <- Hcnt. split_and!; [done..| | | |].
  - intros id. destruct (br_tasks b !! id) as [row|] eqn:Hrow; simpl;
      [|by apply (sp_none _ _ _ Hs)].
    case_decide as Hin.
    + apply Hch in Hin as (r & Hr & _ & ->). congruence.
    + destruct (sp_rows _ _ _ Hs _ _ Hrow) as [?|Hsw]; [done|]. by apply Hch in Hsw.
  - intros id (r & Hr & Ht & _)%Hch. eauto.
  - intros Hlt id row Hrow Ht. apply Hch. by eapply sweep_spec_complete.
  - intros q. rewrite (sp_queues _ _ _ Hs). setoid_rewrite Hch. naive_solver.
Qed.
End Sweeps.

Section Instances.
Context {MR : MapRange}.

(** ** The three sweeps *)

Definition lease_expired (now : Time) (row : taskRow) : bool :=
  bool_decide (row_state row = TASK_STATE_ACTIVE) && negb (After (row_leaseExpiresAt row) now).
Definition has_retries (row : taskRow) : bool := (row_retried row <? row_maxRetry row)%Z.

Definition schedule_due (now : Time) (row : taskRow) : bool :=
  bool_decide (row_state row = TASK_STATE_SCHEDULED) && negb (After (row_processAt row) now).
Definition to_pending (row : taskRow) : taskRow := row <| row_state := TASK_STATE_PENDING |>.

Definition archive_due (now : Time) (row : taskRow) : bool :=
  (dispatchable (row_state row) || bool_decide (row_state row = TASK_STATE_SCHEDULED) ||
   bool_decide (row_state row = TASK_STATE_BLOCKED)) && expired row now.

Lemma reap_done now row : lease_expired now row = true → lease_expired now (reap_row now row) = false.
Proof. intros _. unfold lease_expired, reap_row. by case_match. Qed.
Lemma promote_done now row :
  schedule_due now row = true → schedule_due now (to_pending row) = false.
Proof. intros _. unfold schedule_due, to_pending. rsimpl. done. Qed.
Lemma archive_done now row :
  archive_due now row = true → archive_due now (archive_row TaskExpiredMessage now row) = false.
Proof. intros _. unfold archive_due, archive_row. rsimpl. done. Qed.

Lemma reap_body limit now :
  sweep_body (lease_expired now) (reap_row now) has_retries limit (reapOne limit now).
Proof.
  intros id row s. unfold lease_expired, reapOne, has_retries.
  split; [intros [H|H]|intros Hc H].
  - by rewrite decide_True.
  - destruct (decide (sw_count s = limit)); [done|]. rewrite <- (negb_involutive (After _ _)), <- negb_andb, H. done.
  - rewrite decide_False by done.
    rewrite <- (negb_involutive (After _ _)), <- negb_andb, H. cbn [sw_b sw_count sw_queues negb].
    frame. split_and!; try done. rewrite Z.ltb_antisym. by case_match.
Qed.

Lemma promote_body limit now :
  sweep_body (schedule_due now) to_pending (λ _, true) limit (promoteOne limit now).
Proof.
  intros id row s. unfold schedule_due, promoteOne, to_pending.
  split; [intros [H|H]|intros Hc H].
  - by rewrite decide_True.
  - destruct (decide (sw_count s = limit)); [done|]. rewrite <- (negb_involutive (After _ _)), <- negb_andb, H. done.
  - rewrite decide_False by done.
    rewrite <- (negb_involutive (After _ _)), <- negb_andb, H. cbn [sw_b sw_count sw_queues negb].
    by frame.
Qed.

Lemma archive_body limit now :
  sweep_body (archive_due now) (archive_row TaskExpiredMessage now) (λ _, false) limit
    (archiveExpiredOne limit now).
Proof.
  intros id row s. unfold archive_due, archiveExpiredOne. rewrite <- !negb_orb.
  split; [intros [H|H]|intros Hc H].
  - by rewrite decide_True.
  - destruct (decide (sw_count s = limit)); [done|]. apply andb_false_iff in H as [->| ->]; [done|]. by case_match.
  - rewrite decide_False by done. apply andb_true_iff in H as [-> ->].
    cbn [sw_b sw_count sw_queues negb]. by frame.
Qed.

Lemma ReapExpiredLeases_spec limit now b :
  (0 < limit)%Z → ∃ s,
    ReapExpiredLeases limit now b = (sw_b s, range_keys (sw_queues s)) ∧
    sweep_spec (lease_expired now) (reap_row now) has_retries limit b
      (range_keys (dom (br_tasks b))) s.
Proof.
  intros Hl. unfold ReapExpiredLeases. rewrite (proj2 (Z.leb_gt limit 0)) by done.
  eexists. split; [done|]. apply sweep_spec_loop; [apply reap_done|done|apply reap_body].
Qed.

Lemma PromoteScheduled_spec limit now b :
  (0 < limit)%Z → ∃ s,
    PromoteScheduled limit now b = (sw_b s, range_keys (sw_queues s)) ∧
    sweep_spec (schedule_due now) to_pending (λ _, true) limit b
      (range_keys (dom (br_tasks b))) s.
Proof.
  intros Hl. unfold PromoteScheduled. rewrite (proj2 (Z.leb_gt limit 0)) by done.
  eexists. split; [done|]. apply sweep_spec_loop; [apply promote_done|done|apply promote_body].
Qed.

Lemma ArchiveExpired_spec limit now b :
  (0 < limit)%Z → ∃ s,
    ArchiveExpired limit now b = (sw_b s, sw_count s) ∧
    sweep_spec (archive_due now) (archive_row TaskExpiredMessage now) (λ _, false) limit b
      (range_keys (dom (br_tasks b))) s.
Proof.
  intros Hl. unfold ArchiveExpired. rewrite (proj2 (Z.leb_gt limit 0)) by done.
  eexists. split; [done|]. apply sweep_spec_loop; [apply archive_done|done|apply archive_body].
Qed.
End Instances.
