(* ===== verification/MemoryResolve.v ===== *)
(** * The in-memory broker: what dependency resolution achieves

    [ResolveDependents] settles every edge that points at the finished task and
    at every task its cascade canceled, and touches a row in three ways only:
    it drops dependencies, promotes a row it left with none, or cancels it. *)

From S2P Require Import Prelude Proto Events BrokerApi Memory MemoryFacts MemoryInv MemoryDeps.
Implicit Types (b : Broker) (row : taskRow).

Section Resolution.
Context {MR : MapRange}.

(** ** The edges left *)

Definition state_failed (s : TaskState) : bool :=
  match s with TASK_STATE_ARCHIVED | TASK_STATE_CANCELED => true | _ => false end.

Definition has_failed b (d : string) : Prop :=
  ∃ row, br_tasks b !! d = Some row ∧ state_failed (row_state row) = true.

Definition has_finished b (d : string) : Prop :=
  ∃ row, br_tasks b !! d = Some row ∧ terminal (row_state row) = true.

Lemma has_finished_dec b d : has_finished b d ∨ ¬ has_finished b d.
Proof.
  unfold has_finished. destruct (br_tasks b !! d) as [row|] eqn:E;
    [|right; by intros (? & ? & ?)].
  destruct (terminal (row_state row)) eqn:E'; [left; eauto|right].
  intros (? & ? & ?). congruence.
Qed.

(** Task [t] no longer waits on [d], or waits on purpose: [d] failed and the
    edge carries the blocking policy. *)
Definition settled_edge b (d t : string) : Prop :=
  ∀ row p, br_tasks b !! t = Some row → row_state row = TASK_STATE_BLOCKED →
    row_deps row !! d = Some p → p = DEPENDENCY_FAILURE_POLICY_BLOCK ∧ has_failed b d.

Definition settled b (d : string) : Prop := ∀ t, settled_edge b d t.

(** The row a step leaves under [t], when there was one. *)
Lemma resolved_row f failed now t r r' t' row' :
  resolved f failed now t r r' → br_tasks (rs_b r') !! t' = Some row' →
  ∃ row, br_tasks (rs_b r) !! t' = Some row ∧
    (row' = row ∨
     t' = t ∧ (row' = cancel_row now row ∨ row' = satisfied_row f now row)).
Proof.
  intros [Hst Ht _ _ _|row p Hrow Hp _ ->|row p Hrow Hp _ Ht _ _ _|row p Hrow Hp _ _ Ht _ _ _].
  - rewrite Ht. eauto.
  - eauto.
  - rewrite Ht, lookup_insert. case_decide as E; [|eauto]. intros [= <-]. subst. eauto 10.
  - rewrite Ht, lookup_insert. case_decide as E; [|eauto]. intros [= <-]. subst. eauto 10.
Qed.

(** The same forwards: no row disappears. *)
Lemma resolved_row_fwd f failed now t r r' t' row :
  resolved f failed now t r r' → br_tasks (rs_b r) !! t' = Some row →
  br_tasks (rs_b r') !! t' = Some row ∨
  (t' = t ∧ (br_tasks (rs_b r') !! t' = Some (cancel_row now row) ∨
             br_tasks (rs_b r') !! t' = Some (satisfied_row f now row))).
Proof.
  intros [Hst Ht _ _ _|row0 p Hrow Hp _ ->|row0 p Hrow Hp _ Ht _ _ _|row0 p Hrow Hp _ _ Ht _ _ _] Hr.
  - rewrite Ht. eauto.
  - eauto.
  - rewrite Ht, lookup_insert. case_decide as E; [|eauto]. subst. simplify_eq. auto.
  - rewrite Ht, lookup_insert. case_decide as E; [|eauto]. subst. simplify_eq. auto.
Qed.

Lemma satisfied_row_state f now row :
  row_state row ≠ TASK_STATE_BLOCKED → row_state (satisfied_row f now row) = row_state row.
Proof.
  intros Hb. unfold satisfied_row, ready. rsimpl. rewrite bool_decide_false by tauto. done.
Qed.

Lemma has_failed_resolved f failed now t r r' d :
  resolved f failed now t r r' → has_failed (rs_b r) d → has_failed (rs_b r') d.
Proof.
  intros Hr (row & Hrow & Hf).
  destruct (resolved_row_fwd _ _ _ _ _ _ _ _ Hr Hrow) as [H|[-> [H|H]]];
    eexists; (split; [exact H|]); [done|done|].
  rewrite satisfied_row_state; [done|]. by intros E; rewrite E in Hf.
Qed.

Lemma has_finished_resolved f failed now t r r' d :
  resolved f failed now t r r' → has_finished (rs_b r) d → has_finished (rs_b r') d.
Proof.
  intros Hr (row & Hrow & Hf).
  destruct (resolved_row_fwd _ _ _ _ _ _ _ _ Hr Hrow) as [H|[-> [H|H]]];
    eexists; (split; [exact H|]); [done|done|].
  rewrite satisfied_row_state; [done|]. by intros E; rewrite E in Hf.
Qed.

Lemma settled_edge_resolved f failed now t r r' d t' :
  resolved f failed now t r r' → settled_edge (rs_b r) d t' → settled_edge (rs_b r') d t'.
Proof.
  intros Hr Hs row' p Hrow' Hb Hp.
  destruct (resolved_row _ _ _ _ _ _ _ _ Hr Hrow') as (row & Hrow & [->|[-> [->| ->]]]).
  - destruct (Hs _ _ Hrow Hb Hp). split; [done|]. by eapply has_failed_resolved.
  - done.
  - rewrite satisfied_row_deps in Hp. apply lookup_delete_Some in Hp as [_ Hp].
    destruct (Hs _ _ Hrow (satisfied_row_blocked _ _ _ Hb) Hp).
    split; [done|]. by eapply has_failed_resolved.
Qed.

(** The step on [t] settles its own edge. *)
Lemma resolved_settles f failed now t r r' row :
  resolved f failed now t r r' →
  br_tasks (rs_b r') !! f = Some row → terminal (row_state row) = true →
  failed = negb (bool_decide (row_state row = TASK_STATE_COMPLETED)) →
  settled_edge (rs_b r') f t.
Proof.
  intros Hr Hf Ht Hfailed rowt p Hrow Hb Hp.
  destruct Hr as [Hst Htk _ _ _|row0 p0 Hrow0 Hp0 Hk ->|row0 p0 _ _ _ Htk _ _ _|row0 p0 _ _ _ _ Htk _ _ _].
  - rewrite Htk in Hrow. by rewrite (Hst _ Hrow) in Hp.
  - simplify_eq. unfold keeps in Hk. apply andb_true_iff in Hk as [Hk1 Hk2].
    apply bool_decide_eq_true in Hk2. split; [done|]. exists row. split; [done|].
    by destruct (row_state row).
  - rewrite Htk, lookup_insert_eq in Hrow. by simplify_eq.
  - rewrite Htk, lookup_insert_eq in Hrow. injection Hrow as <-.
    by rewrite satisfied_row_deps, lookup_delete_eq in Hp.
Qed.

(** A step leaves the finished row itself alone: no row depends on itself. *)
Lemma resolved_self f failed now t r r' :
  wf (rs_b r) → resolved f failed now t r r' →
  br_tasks (rs_b r') !! f = br_tasks (rs_b r) !! f.
Proof.
  intros Hwf Hr.
  assert (Hne : ∀ row p, br_tasks (rs_b r) !! t = Some row → row_deps row !! f = Some p → t ≠ f).
  { intros row p Hrow Hp ->. by rewrite (ok_self _ _ (wf_row _ _ _ Hwf Hrow)) in Hp. }
  destruct Hr as [Hst Ht _ _ _|row p Hrow Hp _ ->|row p Hrow Hp _ Ht _ _ _|row p Hrow Hp _ _ Ht _ _ _];
    [by rewrite Ht|done|..]; rewrite Ht, lookup_insert_ne; eauto.
Qed.

(** The inner loop settles every edge at the finished task. *)
Lemma resolve_waiters_settle f now r row :
  (0 < now)%Z → wf (rs_b r) → br_tasks (rs_b r) !! f = Some row →
  terminal (row_state row) = true →
  settled (rs_b (foldl
    (resolveOne f (negb (bool_decide (row_state row = TASK_STATE_COMPLETED))) now) r
    (range_keys (waiters (rs_b r) f)))) f.
Proof.
  intros Hnow Hwf Hrow Ht. set (failed := negb _).
  assert (Hgen : ∀ ts r0, wf (rs_b r0) → br_tasks (rs_b r0) !! f = Some row →
    ∀ t, settled_edge (rs_b r0) f t ∨ t ∈ ts →
    settled_edge (rs_b (foldl (resolveOne f failed now) r0 ts)) f t).
  { induction ts as [|t0 ts IH]; intros r0 Hwf0 Hrow0 t Hor; cbn [foldl].
    { destruct Hor as [|[]%elem_of_nil]; done. }
    pose proof (resolveOne_resolved f failed now r0 t0) as Hr.
    assert (Hf : br_tasks (rs_b (resolveOne f failed now r0 t0)) !! f = Some row)
      by (by rewrite (resolved_self _ _ _ _ _ _ Hwf0 Hr)).
    apply IH; [by eapply wf_resolved|done|].
    destruct Hor as [Hs|[->|Hin]%elem_of_cons]; [left|left|by right].
    - by eapply settled_edge_resolved.
    - by eapply resolved_settles. }
  intros t. apply Hgen; [done..|].
  destruct (decide (t ∈ waiters (rs_b r) f)) as [Hin|Hni].
  - right. by apply elem_of_range_keys.
  - left. intros rowt p Hrt Hb Hp. destruct Hni. eapply wf_complete; eauto.
Qed.

(** The invariant of the worklist loop, [todo] being the tasks still to
    process: the ones seen are finished and settled, the ones to do are
    finished, and every task canceled since the start is one of them. *)
Record resolve_inv b0 (seen : gset string) (todo : list string) b : Prop := {
  ri_wf : wf b;
  ri_seen : ∀ d, d ∈ seen → has_finished b d ∧ settled b d;
  ri_todo : ∀ d, d ∈ todo → has_finished b d;
  ri_canceled : ∀ t row, br_tasks b !! t = Some row → row_state row = TASK_STATE_CANCELED →
    (∃ row0, br_tasks b0 !! t = Some row0 ∧ row_state row0 = TASK_STATE_CANCELED) ∨
    t ∈ seen ∨ t ∈ todo }.

(** A processed task whose edges are settled joins the seen ones. *)
Lemma resolve_inv_pop b0 seen f todo b :
  resolve_inv b0 seen (f :: todo) b → settled b f → resolve_inv b0 ({[f]} ∪ seen) todo b.
Proof.
  intros [Hwf Hs Hl Hc] Hset. split; [done|..].
  - intros d [->%elem_of_singleton|Hd]%elem_of_union; [|by apply Hs].
    split; [apply Hl; set_solver|done].
  - intros d Hd. apply Hl. set_solver.
  - intros t row Hrow Hst. destruct (Hc _ _ Hrow Hst) as [?|[?|?]]; set_solver.
Qed.

Lemma resolved_worklist f failed now t r r' :
  resolved f failed now t r r' →
  rs_worklist r' = rs_worklist r ∨
  (rs_worklist r' = rs_worklist r ++ [t] ∧
   ∃ row, br_tasks (rs_b r') !! t = Some (cancel_row now row)).
Proof.
  intros [Hst Ht _ Hl _|row p Hrow Hp _ ->|row p Hrow Hp _ Ht _ Hl _|row p Hrow Hp _ _ Ht _ Hl _];
    [by left|by left|right|by left].
  split; [done|]. exists row. by rewrite Ht, lookup_insert_eq.
Qed.

(** A row that is canceled after a step and not before was put on the
    worklist. *)
Lemma resolved_canceled_row f failed now t r r' t' row' :
  wf (rs_b r) → resolved f failed now t r r' → br_tasks (rs_b r') !! t' = Some row' →
  row_state row' = TASK_STATE_CANCELED →
  (∃ row, br_tasks (rs_b r) !! t' = Some row ∧ row_state row = TASK_STATE_CANCELED) ∨
  t' ∈ rs_worklist r'.
Proof.
  intros Hwf [Hst Ht _ _ _|row p Hrow Hp _ ->|row p Hrow Hp _ Ht _ Hl _|row p Hrow Hp _ _ Ht _ _ _] Hr Hc.
  - rewrite Ht in Hr. eauto.
  - eauto.
  - rewrite Ht, lookup_insert in Hr. case_decide as E; [|by eauto].
    right. rewrite Hl. set_solver.
  - rewrite Ht, lookup_insert in Hr. case_decide as E; [|by eauto]. left.
    injection Hr as <-. subst t'. exists row. split; [done|].
    destruct (decide (row_state row = TASK_STATE_BLOCKED)) as [Hb|Hb].
    + unfold satisfied_row, promoted_row in Hc. rewrite <- Hc. repeat case_match; try done.
    + by rewrite satisfied_row_state in Hc.
Qed.

Lemma resolve_inv_step b0 seen f g failed now t r r' :
  (0 < now)%Z → resolved g failed now t r r' →
  resolve_inv b0 seen (f :: rs_worklist r) (rs_b r) →
  resolve_inv b0 seen (f :: rs_worklist r') (rs_b r').
Proof.
  intros Hnow Hr [Hwf Hs Hl Hc].
  assert (Hsub : ∀ d, d ∈ rs_worklist r → d ∈ rs_worklist r').
  { destruct (resolved_worklist _ _ _ _ _ _ Hr) as [->|[-> _]]; set_solver. }
  split.
  - by eapply wf_resolved.
  - intros d Hd. destruct (Hs d Hd) as [Hfin Hset]. split.
    + by eapply has_finished_resolved.
    + intros t'. eapply settled_edge_resolved; eauto.
  - intros d Hd. destruct (decide (d ∈ f :: rs_worklist r)) as [Hin|Hni].
    { eapply has_finished_resolved; eauto. }
    destruct (resolved_worklist _ _ _ _ _ _ Hr) as [Heq|[Heq [row Hrow]]];
      rewrite Heq in Hd; [done|].
    assert (d = t) as -> by set_solver. by exists (cancel_row now row).
  - intros t' row Hrow Hst.
    destruct (resolved_canceled_row _ _ _ _ _ _ _ _ Hwf Hr Hrow Hst) as [(row0 & Hr0 & Hc0)|Hin].
    + destruct (Hc _ _ Hr0 Hc0) as [?|[?|Hin]]; [by left|set_solver|]. right; right.
      apply elem_of_cons in Hin as [->|Hin]; [left|right; auto].
    + right; right. by right.
Qed.

Lemma resolve_inv_turn b0 now seen r f worklist :
  (0 < now)%Z → rs_worklist r = f :: worklist → resolve_inv b0 seen (rs_worklist r) (rs_b r) →
  let '(seen', r') := resolve_turn now seen f (mkResolution (rs_b r) (rs_queues r) worklist) in
  resolve_inv b0 seen' (rs_worklist r') (rs_b r').
Proof.
  intros Hnow Hw Hinv. rewrite Hw in Hinv. unfold resolve_turn. case_decide as Hseen.
  - destruct (ri_seen _ _ _ _ Hinv f Hseen) as [_ Hset].
    pose proof (resolve_inv_pop _ _ _ _ _ Hinv Hset) as H.
    by replace ({[f]} ∪ seen) with seen in H by set_solver.
  - destruct (ri_todo _ _ _ _ Hinv f) as (row & Hrow & Hterm); [set_solver|].
    cbn [rs_b]. rewrite Hrow, Hterm. cbn [negb].
    set (r0 := mkResolution (rs_b r) (rs_queues r) worklist).
    apply resolve_inv_pop.
    + apply (foldl_resolveOne_ind _ _ _ (λ r', resolve_inv b0 seen (f :: rs_worklist r') (rs_b r')));
        [done|]. intros. by eapply resolve_inv_step.
    + apply (resolve_waiters_settle f now r0 row); [done|apply Hinv|done..].
Qed.

(** Resolution settles the finished task and every task it cancels. *)
Lemma resolveDependents_settles id now b t :
  (0 < now)%Z → wf b → has_finished b id →
  let b' := (resolveDependents id now b).1 in
  t = id ∨ (∃ row row', br_tasks b !! t = Some row ∧ row_state row ≠ TASK_STATE_CANCELED ∧
    br_tasks b' !! t = Some row' ∧ row_state row' = TASK_STATE_CANCELED) →
  settled b' t.
Proof.
  intros Hnow Hwf Hfin b' Ht. subst b'. unfold resolveDependents in *. cbn [fst] in *.
  set (r := resolve_loop (resolveFuel b) now ∅ (mkResolution b ∅ [id])) in *.
  destruct (resolve_loop_ind (λ seen r, resolve_inv b seen (rs_worklist r) (rs_b r) ∧
      (id ∈ seen ∨ id ∈ rs_worklist r)) (resolveFuel b) now ∅ (mkResolution b ∅ [id]))
    as (seen & Hinv & Hid).
  - intros seen r0 f worklist Hw [Hinv Hid].
    pose proof (resolve_inv_turn _ _ _ _ _ _ Hnow Hw Hinv) as Hturn.
    assert (Hin : id ∈ seen ∨ id = f ∨ id ∈ worklist) by (rewrite Hw in Hid; set_solver).
    unfold resolve_turn in *. case_decide as Hseen; (split; [done|]); cbn [rs_worklist].
    { destruct Hin as [?|[->|?]]; auto. }
    destruct Hin as [?|[->|Hin]]; [left; set_solver..|right].
    repeat case_match; cbn [rs_worklist]; try done.
    apply (foldl_resolveOne_ind _ _ _ (λ r', id ∈ rs_worklist r')); [done|].
    intros t1 r1 r2 Hr Hi. destruct (resolved_worklist _ _ _ _ _ _ Hr) as [->|[-> _]]; set_solver.
  - split; [|right; set_solver]. split; [done|set_solver|cbn [rs_worklist]; set_solver|eauto].
  - fold r in Hinv, Hid.
    assert (Hnil : rs_worklist r = []) by (apply resolve_loop_terminates, resolveFuel_enough).
    rewrite Hnil in *. apply (ri_seen _ _ _ _ Hinv).
    destruct Ht as [->|(row & row' & Hrow & Hst & Hrow' & Hst')]; [set_solver|].
    destruct (ri_canceled _ _ _ _ Hinv _ _ Hrow' Hst') as [(? & ? & ?)|[?|?]];
      [congruence|done|set_solver].
Qed.

(** ** The rows touched *)

(** How resolution may change a row: drop dependencies, promote a blocked row
    left with none, cancel. *)
Inductive evolves (now : Time) (queues : gset string) (row row' : taskRow) : Prop :=
  | evolves_deps :
      row' = row <| row_deps := row_deps row' |> → row_deps row' ⊆ row_deps row →
      evolves now queues row row'
  | evolves_promoted :
      row_state row = TASK_STATE_BLOCKED → env_Queue (row_envelope row) ∈ queues →
      row' = promoted_row now (row <| row_deps := ∅ |>) →
      evolves now queues row row'
  | evolves_canceled :
      row_deps row ≠ ∅ → row' = cancel_row now row →
      evolves now queues row row'.

Lemma evolves_mono now q q' row row' : q ⊆ q' → evolves now q row row' → evolves now q' row row'.
Proof. intros Hq [? ?|? ? ?|? ?]; [by apply evolves_deps|apply evolves_promoted|apply evolves_canceled]; set_solver. Qed.

Lemma row_deps_eta row : row <| row_deps := row_deps row |> = row.
Proof. by destruct row. Qed.

Lemma evolves_refl now q row : evolves now q row row.
Proof. apply evolves_deps; [by rewrite row_deps_eta|done]. Qed.

(** The stores before and after, with the queues reported. *)
Record evolution (now : Time) b (queues : gset string) b' : Prop := {
  ev_none : ∀ t, br_tasks b !! t = None → br_tasks b' !! t = None;
  ev_rows : ∀ t row, br_tasks b !! t = Some row →
    ∃ row', br_tasks b' !! t = Some row' ∧ evolves now queues row row';
  ev_queues : ∀ q, q ∈ queues → ∃ t row, br_tasks b !! t = Some row ∧
    row_state row = TASK_STATE_BLOCKED ∧ env_Queue (row_envelope row) = q ∧
    br_tasks b' !! t = Some (promoted_row now (row <| row_deps := ∅ |>)) }.

Lemma evolution_refl now b : evolution now b ∅ b.
Proof. split; [done| |set_solver]. intros t row Hrow. exists row. eauto using evolves_refl. Qed.

(** A row reached by evolution that still has dependencies only lost some. *)
Lemma evolves_with_deps now q row row' :
  evolves now q row row' → row_deps row' ≠ ∅ →
  row' = row <| row_deps := row_deps row' |> ∧ row_deps row' ⊆ row_deps row.
Proof. by intros [? ?|? ? ->|? ->] Hd. Qed.

Lemma evolves_cancel now q row row' :
  evolves now q row row' → row_deps row' ≠ ∅ → evolves now q row (cancel_row now row').
Proof.
  intros Hev Hd. destruct (evolves_with_deps _ _ _ _ Hev Hd) as [Heq Hsub].
  apply evolves_canceled; [|by rewrite Heq].
  intros E. rewrite E in Hsub. apply Hd, map_eq. intros d. rewrite lookup_empty.
  destruct (row_deps row' !! d) eqn:Hl; [|done]. by apply (lookup_weaken _ _ _ _ Hl) in Hsub.
Qed.

Lemma evolves_satisfied now f q row row' p :
  evolves now q row row' → row_deps row' !! f = Some p →
  let rest := row' <| row_deps := delete f (row_deps row') |> in
  evolves now (if ready rest then {[env_Queue (row_envelope row')]} ∪ q else q)
    row (satisfied_row f now row') ∧
  (ready rest = true → satisfied_row f now row' = promoted_row now (row <| row_deps := ∅ |>) ∧
     row_state row = TASK_STATE_BLOCKED ∧ row_envelope row' = row_envelope row).
Proof.
  intros Hev Hp rest.
  assert (Hd : row_deps row' ≠ ∅) by (intros E; by rewrite E, lookup_empty in Hp).
  destruct (evolves_with_deps _ _ _ _ Hev Hd) as [Heq Hsub]. subst rest.
  unfold satisfied_row. cbv zeta.
  set (rest := row' <| row_deps := delete f (row_deps row') |>).
  assert (Hrest : rest = row <| row_deps := delete f (row_deps row') |>).
  { unfold rest. rewrite Heq at 1. by destruct row. }
  destruct (ready rest) eqn:Hr.
  - apply bool_decide_eq_true in Hr as [Hb He].
    assert (row_deps rest = delete f (row_deps row')) as Hdel by done.
    rewrite He in Hdel. rewrite Hrest, <- Hdel.
    assert (row_state row = TASK_STATE_BLOCKED) by (by rewrite Hrest in Hb).
    assert (row_envelope row' = row_envelope row) as -> by (by rewrite Heq).
    split; [|done]. apply evolves_promoted; [done|set_solver|done].
  - split; [|done]. apply evolves_deps; rewrite Hrest; [by destruct row|].
    rsimpl. etrans; [apply delete_subseteq|done].
Qed.

Lemma evolution_step now b f failed t r r' :
  resolved f failed now t r r' → evolution now b (rs_queues r) (rs_b r) →
  evolution now b (rs_queues r') (rs_b r').
Proof.
  intros Hr [Hn Hrows Hq].
  assert (Hold : ∀ row p, br_tasks (rs_b r) !! t = Some row → row_deps row !! f = Some p →
    ∃ row0, br_tasks b !! t = Some row0 ∧ evolves now (rs_queues r) row0 row).
  { intros row p Hrow Hp. destruct (br_tasks b !! t) as [row0|] eqn:E;
      [|by rewrite (Hn _ E) in Hrow]. destruct (Hrows _ _ E) as (? & ? & ?).
    exists row0. by simplify_eq. }
  destruct Hr as [Hst Ht _ _ Hqs|row p Hrow Hp _ ->|row p Hrow Hp _ Ht _ _ Hqs
                 |row p Hrow Hp _ _ Ht _ _ Hqs]; [|done| |].
  { rewrite Hqs. split; rewrite ?Ht; done. }
  - destruct (Hold _ _ Hrow Hp) as (row0 & Hrow0 & Hev). rewrite Hqs. split; rewrite ?Ht.
    + intros t' Hno. rewrite lookup_insert_ne by congruence. auto.
    + intros t' r0 Hr0. destruct (decide (t' = t)) as [->|Hne].
      * rewrite lookup_insert_eq. simplify_eq. eexists. split; [done|].
        apply evolves_cancel; [done|]. intros E. by rewrite E, lookup_empty in Hp.
      * rewrite lookup_insert_ne by done. auto.
    + intros q Hin. destruct (Hq q Hin) as (t' & r0 & Hr0 & Hb & Heq & Hr0').
      exists t', r0. rewrite lookup_insert_ne; [done|]. intros ->. by simplify_eq.
  - destruct (Hold _ _ Hrow Hp) as (row0 & Hrow0 & Hev).
    destruct (evolves_satisfied now f _ _ _ _ Hev Hp) as [Hev' Hpr]. cbv zeta in Hev', Hpr.
    assert (Hmono : rs_queues r ⊆ rs_queues r') by (rewrite Hqs; case_match; set_solver).
    rewrite <- Hqs in Hev'. split; rewrite ?Ht.
    + intros t' Hno. rewrite lookup_insert_ne by congruence. auto.
    + intros t' r0 Hr0. destruct (decide (t' = t)) as [->|Hne].
      * rewrite lookup_insert_eq. simplify_eq. eauto.
      * rewrite lookup_insert_ne by done. destruct (Hrows _ _ Hr0) as (r1 & ? & ?).
        eauto using evolves_mono.
    + intros q Hin. destruct (decide (q ∈ rs_queues r)) as [Hold'|Hnew].
      * destruct (Hq q Hold') as (t' & r0 & Hr0 & Hb & Heq & Hr0').
        exists t', r0. rewrite lookup_insert_ne; [done|]. intros ->. by simplify_eq.
      * rewrite Hqs in Hin. destruct (ready _) eqn:Hrd; [|done].
        destruct (Hpr eq_refl) as (Heq & Hb & He). exists t, row0.
        rewrite lookup_insert_eq, Heq, <- He. set_solver.
Qed.

(** Resolution as a whole. *)
Lemma resolveDependents_evolution id now b :
  evolution now b (resolveDependents id now b).2 (resolveDependents id now b).1.
Proof.
  unfold resolveDependents. cbn [fst snd].
  apply (resolveDependents_ind (λ r, evolution now b (rs_queues r) (rs_b r))).
  - done.
  - intros f failed t r r' Hr. by apply evolution_step with f failed t.
  - apply evolution_refl.
Qed.

(** An id that is not a finished task resolves nothing. *)
Lemma resolveDependents_idle id now b :
  ¬ has_finished b id → resolveDependents id now b = (b, ∅).
Proof.
  intros Hn. unfold resolveDependents, resolveFuel.
  rewrite (resolve_loop_turn _ _ _ _ id []) by done. unfold resolve_turn.
  rewrite decide_False by set_solver. cbn [rs_b].
  assert (∀ fuel seen, resolve_loop fuel now seen (mkResolution b ∅ []) = mkResolution b ∅ [])
    as Hend by (by intros []).
  destruct (br_tasks b !! id) as [row|] eqn:Hrow; [|by rewrite Hend].
  destruct (terminal (row_state row)) eqn:Ht; [|by cbn [negb]; rewrite Hend].
  destruct Hn. by exists row.
Qed.

(** ** The sweep over all finished dependencies *)

Lemma deps_empty_subseteq (D : gmap string DependencyFailurePolicy) : D ⊆ ∅ → D = ∅.
Proof.
  intros Hsub. apply map_eq. intros d. rewrite lookup_empty.
  destruct (D !! d) eqn:Hl; [|done]. by apply (lookup_weaken _ _ _ _ Hl) in Hsub.
Qed.

Lemma promoted_row_not_blocked now row : row_state (promoted_row now row) ≠ TASK_STATE_BLOCKED.
Proof. unfold promoted_row. rsimpl. by repeat case_match. Qed.

Lemma evolves_trans now q1 q2 row1 row2 row3 :
  evolves now q1 row1 row2 → evolves now q2 row2 row3 → evolves now (q1 ∪ q2) row1 row3.
Proof.
  intros H12 H23. destruct (decide (row_deps row2 = ∅)) as [Hd|Hd].
  - assert (row3 = row2 ∨ row_state row2 = TASK_STATE_BLOCKED) as [->|Hb].
    { destruct H23 as [Heq Hsub|? ? ->|? ->]; [left|by right|done].
      rewrite Hd in Hsub. apply deps_empty_subseteq in Hsub. rewrite Hsub in Heq.
      by rewrite Heq, <- Hd, row_deps_eta. }
    { eapply evolves_mono; [|done]. set_solver. }
    destruct H12 as [Heq Hsub|? ? ->|? ->];
      [|by destruct (promoted_row_not_blocked now (row1 <| row_deps := ∅ |>))|done].
    destruct H23 as [Heq' Hsub'|? ? ->|? ->]; [| |done].
    + apply evolves_deps; [|by etrans]. rewrite Heq', Heq. by destruct row1.
    + apply evolves_promoted; [by rewrite Heq in Hb| |by rewrite Heq].
      rewrite Heq in *. set_solver.
  - destruct (evolves_with_deps _ _ _ _ H12 Hd) as [Heq Hsub].
    destruct H23 as [Heq' Hsub'|? ? ->|? ->].
    + apply evolves_deps; [|by etrans]. rewrite Heq', Heq. by destruct row1.
    + apply evolves_promoted; [by rewrite Heq in *|rewrite Heq in *; set_solver|by rewrite Heq].
    + eapply evolves_mono; [|by eapply evolves_cancel]. set_solver.
Qed.

(** The rows of the whole sweep evolve as under one resolution. *)
Lemma resolveBounded_evolves limit now ds s t row :
  br_tasks (sw_b s) !! t = Some row →
  ∃ row', br_tasks (sw_b (foldl (resolveBounded limit now) s ds)) !! t = Some row' ∧
    ∃ q, evolves now q row row'.
Proof.
  revert s row. induction ds as [|d ds IH]; intros s row Hrow; cbn [foldl].
  { exists row. split; [done|]. exists ∅. apply evolves_refl. }
  destruct (ev_rows _ _ _ _ (resolveDependents_evolution d now (sw_b s)) _ _ Hrow)
    as (row1 & Hrow1 & Hev1).
  unfold resolveBounded at 2. case_decide; [by apply IH|].
  destruct (resolveDependents d now (sw_b s)) as [b1 woken]. cbn [fst snd] in *.
  destruct (IH (mkSweep b1 (woken ∪ sw_queues s) (sw_count s + 1)) row1 Hrow1)
    as (row' & Hrow' & q & Hev). eauto using evolves_trans.
Qed.

Lemma PromoteReadyDependents_evolves limit now b t row :
  (0 < now)%Z → wf b → br_tasks b !! t = Some row →
  ∃ row', br_tasks (PromoteReadyDependents limit now b).1 !! t = Some row' ∧
    ∃ q, evolves now q row row'.
Proof.
  intros Hnow Hwf Hrow. unfold PromoteReadyDependents. case_match.
  { exists row. split; [done|]. exists ∅. apply evolves_refl. }
  cbn [fst]. rewrite backstop_idle by (by apply wf_resolveBounded).
  by apply resolveBounded_evolves.
Qed.

(** ** Completeness of the sweep *)

(** The terminal dependencies of one blocked row. *)
Lemma finishedDeps_inner b (ks : list string) (acc : gset string) d :
  d ∈ foldl (λ finished depID,
    match br_tasks b !! depID with
    | Some dep => if terminal (row_state dep) then {[depID]} ∪ finished else finished
    | None => finished
    end) acc ks ↔ d ∈ acc ∨ d ∈ ks ∧ has_finished b d.
Proof.
  revert acc. induction ks as [|k ks IH]; intros acc; cbn [foldl]; [set_solver|].
  rewrite IH, elem_of_cons.
  destruct (br_tasks b !! k) as [dep|] eqn:E; [destruct (terminal (row_state dep)) eqn:E'|].
  - assert (has_finished b k) by (by exists dep). rewrite elem_of_union, elem_of_singleton.
    naive_solver.
  - assert (¬ has_finished b k) by (intros (? & ? & ?); congruence). naive_solver.
  - assert (¬ has_finished b k) by (intros (? & ? & ?); congruence). naive_solver.
Qed.

Lemma elem_of_finishedDeps b d :
  d ∈ finishedDeps b ↔ has_finished b d ∧
    ∃ t row, br_tasks b !! t = Some row ∧ row_state row = TASK_STATE_BLOCKED ∧
      is_Some (row_deps row !! d).
Proof.
  unfold finishedDeps.
  assert (Hgen : ∀ (entries : list (string * taskRow)) (acc : gset string),
    d ∈ foldl (λ finished '(_, row),
      if decide (row_state row = TASK_STATE_BLOCKED) then
        foldl (λ finished depID,
          match br_tasks b !! depID with
          | Some dep => if terminal (row_state dep) then {[depID]} ∪ finished else finished
          | None => finished
          end) finished (range_keys (dom (row_deps row)))
      else finished) acc entries ↔
    d ∈ acc ∨ has_finished b d ∧ ∃ t row, (t, row) ∈ entries ∧
      row_state row = TASK_STATE_BLOCKED ∧ is_Some (row_deps row !! d)).
  { induction entries as [|[t row] entries IH]; intros acc; cbn [foldl]; [set_solver|].
    rewrite IH. case_decide as Hb.
    - rewrite finishedDeps_inner, elem_of_range_keys, elem_of_dom. split.
      + intros [[?|[? ?]]|(? & t' & r & ? & ? & ?)]; [by left|right..]; split; try done.
        * exists t, row. set_solver.
        * exists t', r. set_solver.
      + intros [?|(Hf & t' & r & [[= -> ->]|Hin]%elem_of_cons & Hr & Hd)]; [auto..|].
        right. split; [done|]. eauto.
    - split.
      + intros [?|(? & t' & r & ? & ? & ?)]; [by left|right]. split; [done|].
        exists t', r. set_solver.
      + intros [?|(Hf & t' & r & [[= -> ->]|Hin]%elem_of_cons & Hr & Hd)]; [auto|done|].
        right. split; [done|]. eauto. }
  rewrite Hgen. setoid_rewrite elem_of_range_map. set_solver.
Qed.

Lemma resolveDependents_keeps_settled id now b d :
  settled b d → settled (resolveDependents id now b).1 d.
Proof.
  intros Hs. unfold resolveDependents. cbn [fst].
  apply (resolveDependents_ind (λ r, settled (rs_b r) d)); [done| |done].
  intros f failed t r r' Hr Hset t'. eapply settled_edge_resolved; eauto.
Qed.

(** A task finished by a resolution and not before was canceled by it. *)
Lemma resolveDependents_finishes id now b d :
  has_finished (resolveDependents id now b).1 d →
  has_finished b d ∨
  ∃ row row', br_tasks b !! d = Some row ∧ row_state row ≠ TASK_STATE_CANCELED ∧
    br_tasks (resolveDependents id now b).1 !! d = Some row' ∧
    row_state row' = TASK_STATE_CANCELED.
Proof.
  intros (row' & Hrow' & Hterm). destruct (resolveDependents_evolution id now b) as [Hn Hr _].
  destruct (br_tasks b !! d) as [row|] eqn:Hrow; [|by rewrite (Hn _ Hrow) in Hrow'].
  destruct (Hr _ _ Hrow) as (r & Hr' & Hev). simplify_eq.
  destruct (terminal (row_state row)) eqn:Ht; [left; by exists row|right].
  exists row, row'. split_and!; [done| |done|].
  - intros E. by rewrite E in Ht.
  - destruct Hev as [Heq _|? _ ->|_ ->]; [| |done].
    { assert (row_state row' = row_state row) by (by rewrite Heq). congruence. }
    unfold promoted_row in *. rsimpl in Hterm. repeat case_match; done.
Qed.

(** The invariant of the loop over the finished dependencies. *)
Lemma resolveBounded_settles limit now ds s :
  (0 < now)%Z → wf (sw_b s) → (sw_count s + Z.of_nat (length ds) <= limit)%Z →
  (∀ d, has_finished (sw_b s) d → settled (sw_b s) d ∨ d ∈ ds) →
  let s' := foldl (resolveBounded limit now) s ds in
  ∀ d, has_finished (sw_b s') d → settled (sw_b s') d.
Proof.
  intros Hnow. revert s. induction ds as [|d0 ds IH]; intros s Hwf Hc Hinv; cbn [foldl].
  { intros d Hd. destruct (Hinv d Hd) as [|[]%elem_of_nil]; done. }
  cbn [length] in Hc.
  assert (Hstep : resolveBounded limit now s d0 =
    mkSweep (resolveDependents d0 now (sw_b s)).1
      ((resolveDependents d0 now (sw_b s)).2 ∪ sw_queues s) (sw_count s + 1)).
  { unfold resolveBounded. rewrite decide_False by lia. by destruct (resolveDependents _ _ _). }
  rewrite Hstep. apply IH; cbn [sw_b sw_count].
  - by apply wf_resolveDependents.
  - lia.
  - intros d Hd. destruct (has_finished_dec (sw_b s) d0) as [Hf|Hf].
    + destruct (resolveDependents_finishes _ _ _ _ Hd) as [Hold|Hcan];
        [|left; by apply resolveDependents_settles; auto].
      destruct (Hinv d Hold) as [Hs|[->|Hin]%elem_of_cons]; [left|left|by right].
      * by apply resolveDependents_keeps_settled.
      * apply resolveDependents_settles; auto.
    + rewrite resolveDependents_idle in * by done. cbn [fst] in *.
      destruct (Hinv d Hd) as [Hs|[->|Hin]%elem_of_cons]; [by left|done|by right].
Qed.
End Resolution.
