(* ===== verification/MemoryLease.v ===== *)
(** * The in-memory broker: leasing

    Which tasks a lease claims, in which order, and what it does to the store;
    the exclusivity of leases and the refusal of every operation presented with
    a lease the task is not held under. *)

From S2P Require Import Prelude Proto Events BrokerApi Memory MemoryFacts MemoryInv.
From Stdlib Require Import Strings.Byte.
Implicit Types (b : Broker) (row : taskRow).

Section Leasing.
Context {MR : MapRange}.

(** ** The effect of claiming *)

Lemma claim_effect now ttl lid due b :
  selection b due →
  (∀ id, br_tasks (claim now ttl lid due b).1 !! id =
     (λ row, if decide (id ∈ due.*1) then claim_row now ttl lid row else row) <$> br_tasks b !! id) ∧
  (claim now ttl lid due b).2 = (λ p, overlay (claim_row now ttl lid p.2)) <$> due ∧
  br_dependents (claim now ttl lid due b).1 = br_dependents b.
Proof.
  revert b. induction due as [|[id row] due IH]; intros b Hsel.
  { split_and!; [|done..]. intros id. cbn [claim fst].
    by destruct (br_tasks b !! id). }
  destruct (selection_cons _ _ _ _ (claim_row now ttl lid row) Hsel) as [Hrow Hsel'].
  cbn [claim]. set (b1 := emit_row _ _ _ _ _).
  assert (Ht1 : br_tasks b1 = <[id := claim_row now ttl lid row]> (br_tasks b))
    by (unfold b1; by frame).
  destruct (IH b1 (Hsel' _ Ht1)) as (IHt & IHl & IHd).
  destruct (claim now ttl lid due b1) as [b' leased]. cbn [fst snd] in *.
  split_and!.
  - intros id'. rewrite IHt, Ht1, lookup_insert. destruct (decide (id = id')) as [<-|Hne].
    + rewrite Hrow. simpl. destruct Hsel as [[Hni _]%NoDup_cons _].
      by rewrite decide_False, decide_True by set_solver.
    + destruct (br_tasks b !! id'); [|done]. simpl. f_equal. apply decide_ext.
      rewrite elem_of_cons. naive_solver.
  - by rewrite IHl.
  - rewrite IHd. unfold b1. by frame.
Qed.

(** ** The order of a lease *)

(** The order of dispatch: higher priority first, then earlier due, then id. *)
Definition dispatch_order (a c : taskRow) : Prop :=
  (row_priority c < row_priority a)%Z ∨
  row_priority a = row_priority c ∧
    ((row_processAt a < row_processAt c)%Z ∨
     row_processAt a = row_processAt c ∧
       (strings_Compare (env_Id (row_envelope a)) (env_Id (row_envelope c)) <= 0)%Z).

(** Priorities whose differences fit an [int32], as the subtraction of the
    comparator needs. *)
Definition priority_ok row : Prop := (0 <= row_priority row < 2 ^ 31)%Z.

Definition priority_Compare (x y : Z) : Z := (y - x)%Z.
#[local] Instance priority_Compare_comparator : Comparator (λ _, True) priority_Compare.
Proof. unfold priority_Compare. split; intros; lia. Qed.

Lemma compareDue_lex a c :
  priority_ok a → priority_ok c →
  compareDue a c =
    cmp_lex (λ a c, priority_Compare (row_priority a) (row_priority c))
      (cmp_lex (λ a c, time_Compare (row_processAt a) (row_processAt c))
        (λ a c, strings_Compare (env_Id (row_envelope a)) (env_Id (row_envelope c)))) a c.
Proof.
  unfold priority_ok, compareDue, cmp_lex, priority_Compare, Equal. intros Ha Hc.
  destruct (Z.eqb_spec (row_priority a) (row_priority c)) as [E|N]; simpl.
  - rewrite decide_True by lia.
    destruct (Z.eqb_spec (row_processAt a) (row_processAt c)) as [E'|N']; simpl.
    + by rewrite decide_True by (by apply time_Compare_eq).
    + rewrite decide_False; [done|]. by rewrite time_Compare_eq.
  - rewrite decide_False by lia. apply wrap32_id. unfold int32_range. lia.
Qed.

Lemma compareDue_comparator : Comparator priority_ok compareDue.
Proof.
  eapply Comparator_ext; [intros a c Ha Hc; by rewrite compareDue_lex|].
  typeclasses eauto.
Qed.

Lemma compareDue_order a c :
  priority_ok a → priority_ok c → (compareDue a c <= 0)%Z ↔ dispatch_order a c.
Proof.
  intros Ha Hc. rewrite compareDue_lex by done.
  unfold cmp_lex, dispatch_order, priority_Compare.
  case_decide; [case_decide as Ht|].
  - rewrite time_Compare_eq in Ht. split; [|intros [?|[? [?|[? ?]]]]; [lia..|done]].
    intros Hs. right. split; [lia|]. right. split; [exact Ht|exact Hs].
  - rewrite time_Compare_le. rewrite time_Compare_eq in Ht.
    split; [intros; right; split; [lia|left; lia]|]. intros [?|[? [?|[? ?]]]]; lia.
  - split; [intros; left; lia|]. intros [?|[? _]]; lia.
Qed.

(** Comparison of the entries of the task map. *)
Lemma entries_comparator :
  Comparator (λ p : string * taskRow, priority_ok p.2) (λ a c, compareDue a.2 c.2).
Proof.
  pose proof compareDue_comparator as H. split; intros.
  - by apply (cmp_flip (cmp := compareDue)).
  - by eapply (cmp_lt_trans (cmp := compareDue) a.2 b.2).
  - by apply (cmp_eq_l (cmp := compareDue)).
Qed.

(** The candidates of a lease. *)
Definition candidates (queue : string) (now : Time) b : list (string * taskRow) :=
  filter (λ p, leasable queue now p.2 = true) (range_map (br_tasks b)).

Definition priorities_ok (queue : string) (now : Time) b : Prop :=
  ∀ id row, br_tasks b !! id = Some row → leasable queue now row = true → priority_ok row.

Lemma candidates_ok queue now b :
  priorities_ok queue now b → Forall (λ p, priority_ok p.2) (candidates queue now b).
Proof.
  intros Hp. apply Forall_forall. intros [id row] [Hl Hin]%list_elem_of_filter.
  apply elem_of_range_map in Hin. by eapply Hp.
Qed.

Lemma dueTasks_take queue limit now b :
  (0 < limit)%Z →
  dueTasks queue limit now b =
    take (Z.to_nat limit) (SortFunc (λ a c, compareDue a.2 c.2) (candidates queue now b)).
Proof.
  intros Hl. unfold dueTasks. fold (candidates queue now b).
  destruct (Z.ltb_spec limit (Z.of_nat (length (SortFunc (λ a c : string * taskRow,
    compareDue a.2 c.2) (candidates queue now b))))); [done|].
  symmetry. apply take_ge. lia.
Qed.

(** The claimed tasks are in dispatch order. *)
Lemma dueTasks_sorted queue limit now b :
  (0 < limit)%Z → priorities_ok queue now b →
  StronglySorted (λ a c, dispatch_order a.2 c.2) (dueTasks queue limit now b).
Proof.
  intros Hl Hp. rewrite dueTasks_take by done. pose proof (candidates_ok _ _ _ Hp) as Hall.
  pose proof entries_comparator.
  pose proof (SortFunc_sorted _ _ _ Hall) as Hs.
  set (l := SortFunc _ _) in *.
  assert (Hall' : Forall (λ p, priority_ok p.2) l).
  { unfold l. by rewrite SortFunc_perm. }
  assert (Hs' : StronglySorted (λ a c, dispatch_order a.2 c.2) l).
  { clearbody l. induction Hs as [|x l Hs IH Hx]; [constructor|].
    apply Forall_cons in Hall' as [Hpx Hpl]. constructor; [by apply IH|].
    rewrite Forall_forall in *. intros y Hy. apply compareDue_order; auto. }
  rewrite <- (take_drop (Z.to_nat limit) l) in Hs'. by eapply StronglySorted_app_1_l.
Qed.

(** A candidate that was not claimed comes after every claimed one, and is
    left only when the limit was reached. *)
Lemma dueTasks_rest queue limit now b id row :
  (0 < limit)%Z → priorities_ok queue now b →
  br_tasks b !! id = Some row → leasable queue now row = true →
  id ∉ (dueTasks queue limit now b).*1 →
  length (dueTasks queue limit now b) = Z.to_nat limit ∧
  ∀ p, p ∈ dueTasks queue limit now b → dispatch_order p.2 row.
Proof.
  intros Hl Hp Hrow Hlease Hni. rewrite dueTasks_take in * by done.
  pose proof (candidates_ok _ _ _ Hp) as Hall. pose proof entries_comparator.
  pose proof (SortFunc_sorted _ _ _ Hall) as Hs.
  assert (Hin : (id, row) ∈ SortFunc (λ a c, compareDue a.2 c.2) (candidates queue now b)).
  { rewrite SortFunc_perm. apply list_elem_of_filter. by rewrite elem_of_range_map. }
  set (l := SortFunc _ _) in *.
  assert (Hall' : Forall (λ p, priority_ok p.2) l) by (unfold l; by rewrite SortFunc_perm).
  rewrite <- (take_drop (Z.to_nat limit) l) in Hin, Hs, Hall'.
  rewrite Forall_app, !Forall_forall in Hall'. destruct Hall' as [Ha1 Ha2].
  apply elem_of_app in Hin as [Hin|Hin].
  { destruct Hni. apply list_elem_of_fmap. by exists (id, row). }
  split.
  - rewrite length_take. apply Nat.min_l.
    destruct (drop (Z.to_nat limit) l) eqn:Hd; [by apply elem_of_nil in Hin|].
    assert (length (drop (Z.to_nat limit) l) ≠ 0) by (by rewrite Hd).
    rewrite length_drop in *. lia.
  - intros p Hpin. apply StronglySorted_app in Hs as (Hs & _).
    apply compareDue_order; [auto|apply (Ha2 _ Hin)|].
    apply (Hs p (id, row)); done.
Qed.

(** ** The calls a lease authorises *)

Inductive lease_call :=
  | LExtend (ttl : Duration)
  | LProgress (percent : Z) (message : string)
  | LAck (result : list byte)
  | LFail (errMsg : string) (processAt : Time)
  | LRelease
  | LArchive (errMsg : string).

Definition call (c : lease_call) (id lid : string) (now : Time) b : Broker * option BrokerError :=
  match c with
  | LExtend ttl => ExtendLease id lid ttl now b
  | LProgress percent message => SetProgress id lid percent message b
  | LAck result => Ack id lid result now b
  | LFail msg at_ => Fail id lid msg at_ now b
  | LRelease => Release id lid now b
  | LArchive msg => Archive id lid msg now b
  end.

(** The calls that end the lease. *)
Definition settles (c : lease_call) : bool :=
  match c with LExtend _ | LProgress _ _ => false | _ => true end.

Definition held (id lid : string) b : Prop :=
  ∃ row, br_tasks b !! id = Some row ∧ row_state row = TASK_STATE_ACTIVE ∧ row_leaseID row = lid.

Lemma activeRow_None id lid b : activeRow id lid b = None ↔ ¬ held id lid b.
Proof.
  destruct (activeRow id lid b) as [row|] eqn:E.
  - apply activeRow_Some in E. split; [done|]. intros Hn. destruct Hn. by exists row.
  - split; [|done]. intros _ (row & Hrow). apply activeRow_Some in Hrow. congruence.
Qed.

Lemma call_refused c id lid now b :
  lid ≠ "" → ¬ held id lid b → call c id lid now b = (b, Some ErrLeaseLost).
Proof.
  intros Hl Hn. apply activeRow_None in Hn. destruct c; cbn [call];
    unfold ExtendLease, SetProgress, Ack, Fail, Release, Archive; rewrite ?Hn; try done.
  by rewrite bool_decide_false.
Qed.

(** A call under a held lease succeeds and rewrites that row only; it leaves
    the lease held exactly when it does not settle the task. *)
Lemma call_accepted c id lid now b :
  lid ≠ "" → held id lid b →
  ∃ b' row', call c id lid now b = (b', None) ∧ br_tasks b' = <[id := row']> (br_tasks b) ∧
    (held id lid b' ↔ settles c = false).
Proof.
  intros Hl (row & Hrow). apply activeRow_Some in Hrow as Ha. destruct Hrow as (Hrow & Hst & Hlid).
  assert (Hheld : ∀ b' row', br_tasks b' = <[id := row']> (br_tasks b) →
    held id lid b' ↔ row_state row' = TASK_STATE_ACTIVE ∧ row_leaseID row' = lid).
  { intros b' row' Ht. unfold held. rewrite Ht, lookup_insert_eq. naive_solver. }
  destruct c; cbn [call];
    unfold ExtendLease, SetProgress, Ack, Fail, Release, Archive, ack_row, archive_row;
    rewrite ?Ha; try rewrite bool_decide_false by done; cbn [negb];
    eexists _, _; (split; [reflexivity|]); (split; [frame; reflexivity|]);
    (rewrite Hheld; [|by frame]); rsimpl; naive_solver.
Qed.
End Leasing.
