(* ===== verification/MemoryEnqueue.v ===== *)
(** * The in-memory broker: enqueueing

    Unique-key claims, the atomicity of a batch, and the equivalence of
    [EnqueueBatch], which stages every task against the unchanged store, with
    enqueueing the tasks one after the other. *)

From S2P Require Import Prelude Proto Events BrokerApi Memory MemoryFacts MemoryInv.
Implicit Types (b : Broker) (row : taskRow).

(** A live claim on a unique key. *)
Definition holds_key (key : string) (now : Time) row : bool :=
  bool_decide (row_uniqueKey row = key) && incomplete (row_state row) &&
  (IsZero (row_uniqueExpiresAt row) || After (row_uniqueExpiresAt row) now).

Section Enqueueing.
Context {MR : MapRange}.

Lemma uniqueKeyClaimed_spec key now b :
  uniqueKeyClaimed key now b = true ↔
  ∃ id row, br_tasks b !! id = Some row ∧ holds_key key now row = true.
Proof.
  unfold uniqueKeyClaimed. rewrite existsb_exists. split.
  - intros ([id row] & Hin & H). exists id, row. split; [|done].
    by apply elem_of_range_map, list_elem_of_In.
  - intros (id & row & Hrow & H). exists (id, row). split; [|done].
    by apply list_elem_of_In, elem_of_range_map.
Qed.

(** ** Staging against the store or against the store with the batch applied *)

(** [cur] is [b] with the tasks [ids] applied, which hold the unique keys
    [keys] and have not finished. *)
Record agree (now : Time) b (ids keys : gset string) cur : Prop := {
  ag_ids : ∀ id, is_Some (br_tasks cur !! id) ↔ is_Some (br_tasks b !! id) ∨ id ∈ ids;
  ag_keys : ∀ k, k ≠ "" → uniqueKeyClaimed k now cur =
    uniqueKeyClaimed k now b || bool_decide (k ∈ keys);
  ag_rows : ∀ d, br_tasks cur !! d = br_tasks b !! d ∨
    br_tasks b !! d = None ∧
    ∃ row, br_tasks cur !! d = Some row ∧ terminal (row_state row) = false }.

Lemma agree_start now b : agree now b ∅ ∅ b.
Proof.
  split.
  - set_solver.
  - intros k _. by rewrite bool_decide_false, orb_false_r by set_solver.
  - by left.
Qed.

Lemma resolveInitialDeps_agree now b ids keys cur id edges deps :
  agree now b ids keys cur →
  resolveInitialDeps_loop b id edges deps = resolveInitialDeps_loop cur id edges deps.
Proof.
  intros Hag. revert deps. induction edges as [|e edges IH]; intros deps; [done|].
  cbn [resolveInitialDeps_loop]. case_decide; [done|].
  destruct (ag_rows _ _ _ _ _ Hag (dep_TaskId e)) as [->|[Hn (row & -> & Hterm)]].
  - repeat case_match; done.
  - rewrite Hn. destruct (row_state row); done.
Qed.

Lemma stageEnqueue_agree now b ids keys cur task :
  agree now b ids keys cur →
  stageEnqueue task now ids keys b = stageEnqueue task now ∅ ∅ cur.
Proof.
  intros Hag. unfold stageEnqueue.
  pose proof (ag_ids _ _ _ _ _ Hag (env_Id task)) as Hid.
  destruct (decide (is_Some (br_tasks cur !! env_Id task))) as [Hc|Hc].
  { destruct (decide (is_Some (br_tasks b !! env_Id task))); [done|].
    destruct (decide (env_Id task ∈ ids)); [done|]. exfalso. apply Hid in Hc. tauto. }
  rewrite (decide_False (P := is_Some (br_tasks b !! env_Id task))) by tauto.
  rewrite (decide_False (P := env_Id task ∈ ids)) by tauto.
  rewrite (decide_False (P := env_Id task ∈ ∅)) by set_solver.
  set (key := opt_UniqueKey (GetOptions task)).
  destruct (decide (key = "")) as [Hk|Hk].
  - rewrite Hk. cbn [negb andb bool_decide]. rewrite (bool_decide_true ("" = "")) by done.
    cbn [negb andb]. unfold resolveInitialDeps.
    by rewrite (resolveInitialDeps_agree _ _ _ _ _ _ _ _ Hag).
  - rewrite (ag_keys _ _ _ _ _ Hag key Hk).
    rewrite (bool_decide_false (key ∈ (∅ : gset string))) by set_solver.
    rewrite orb_false_r. unfold resolveInitialDeps.
    by rewrite (resolveInitialDeps_agree _ _ _ _ _ _ _ _ Hag).
Qed.

(** ** Tasks for which the two agree *)

(** No edge cancels on failure, and a unique-key claim lasts. *)
Definition batchable (task : TaskEnvelope) : Prop :=
  Forall (λ e, dep_OnFailure e ≠ DEPENDENCY_FAILURE_POLICY_CASCADE_CANCEL)
    (opt_DependsOn (GetOptions task)) ∧
  (∀ ttl, opt_UniqueTtl (GetOptions task) = Some ttl → (0 < ttl)%Z).

Lemma resolveInitialDeps_no_cancel b id edges deps :
  Forall (λ e, dep_OnFailure e ≠ DEPENDENCY_FAILURE_POLICY_CASCADE_CANCEL) edges →
  (resolveInitialDeps_loop b id edges deps).2 = false.
Proof.
  intros H. revert deps. induction H as [|e edges He H IH]; intros deps; [done|].
  cbn [resolveInitialDeps_loop]. case_decide; [done|].
  destruct (dep_OnFailure e); cbn [dependencyPolicy]; try done; repeat case_match; done.
Qed.

(** A staged task of that kind is unfinished and claims its key. *)
Lemma stageEnqueue_live task now ids keys b e :
  (0 < now)%Z → batchable task → stageEnqueue task now ids keys b = Staged e →
  incomplete (row_state (st_row e)) = true ∧
  ∀ k, k ≠ "" → holds_key k now (st_row e) = bool_decide (row_uniqueKey (st_row e) = k).
Proof.
  intros Hnow [Hedges Httl]. unfold stageEnqueue.
  case_decide; [done|]. case_decide; [done|]. case_match; [done|]. case_match; [done|].
  pose proof (resolveInitialDeps_no_cancel b (env_Id task) _ ∅ Hedges) as Hc.
  unfold resolveInitialDeps. destruct (resolveInitialDeps_loop _ _ _ _) as [deps c].
  cbn [snd] in Hc. subst c. intros [= <-]. cbn [st_row].
  set (state := if decide (deps = ∅) then _ else _).
  assert (Hinc : incomplete state = true) by (unfold state; repeat case_match; done).
  split; [done|]. intros k Hk. unfold holds_key, stage_row. cbn [row_uniqueKey row_state row_uniqueExpiresAt].
  rewrite Hinc, andb_true_r.
  destruct (bool_decide_reflect (opt_UniqueKey (GetOptions task) = k)) as [<-|]; [|done].
  destruct (opt_UniqueTtl (GetOptions task)) as [ttl|] eqn:Ht; [|done].
  rewrite decide_False by done. specialize (Httl ttl eq_refl).
  unfold After, time_Add. rewrite (proj2 (Z.ltb_lt now (now + ttl))) by lia.
  by rewrite orb_true_r.
Qed.

Lemma agree_extend now b ids keys cur task e :
  (0 < now)%Z → batchable task → agree now b ids keys cur →
  stageEnqueue task now ids keys b = Staged e →
  agree now b ({[st_id e]} ∪ ids)
    (if decide (row_uniqueKey (st_row e) = "") then keys
     else {[row_uniqueKey (st_row e)]} ∪ keys)
    (applyStaged e now cur).
Proof.
  intros Hnow Hba Hag Hst.
  destruct (stageEnqueue_live _ _ _ _ _ _ Hnow Hba Hst) as [Hinc Hkey].
  destruct (stageEnqueue_ok _ _ _ _ _ _ Hnow Hst) as (_ & _ & Hnew & Hni).
  assert (Hcur : br_tasks cur !! st_id e = None).
  { apply eq_None_not_Some. rewrite (ag_ids _ _ _ _ _ Hag). rewrite Hnew.
    intros [[? ?]|?]; done. }
  split.
  - intros id. rewrite applyStaged_tasks, lookup_insert_is_Some, (ag_ids _ _ _ _ _ Hag id).
    destruct (decide (st_id e = id)); set_solver.
  - intros k Hk. apply eq_true_iff_eq.
    rewrite uniqueKeyClaimed_spec, applyStaged_tasks.
    transitivity (uniqueKeyClaimed k now cur = true ∨ row_uniqueKey (st_row e) = k).
    { rewrite uniqueKeyClaimed_spec. split.
      - intros (id & row & [[<- <-]|[_ Hrow]]%lookup_insert_Some & Hh); [|eauto].
        right. rewrite Hkey in Hh by done. by apply bool_decide_eq_true in Hh.
      - intros [(id & row & Hrow & Hh)|Heq].
        + exists id, row. rewrite lookup_insert_ne by congruence. done.
        + exists (st_id e), (st_row e). rewrite lookup_insert_eq, Hkey by done.
          by rewrite bool_decide_true. }
    rewrite (ag_keys _ _ _ _ _ Hag k Hk), !orb_true_iff, !bool_decide_eq_true.
    case_decide; set_solver.
  - intros d. rewrite applyStaged_tasks. destruct (decide (d = st_id e)) as [->|Hne].
    + right. split; [done|]. exists (st_row e). rewrite lookup_insert_eq. split; [done|].
      by destruct (row_state (st_row e)).
    + rewrite lookup_insert_ne by done. apply (ag_rows _ _ _ _ _ Hag).
Qed.

(** ** The reference: one task after the other, up to the first failure *)

Fixpoint enqueue_each (tasks : list TaskEnvelope) (now : Time) b : Broker * option BrokerError :=
  match tasks with
  | [] => (b, None)
  | task :: rest =>
      match Enqueue task now b with
      | (b', None) => enqueue_each rest now b'
      | (b', Some err) => (b', Some err)
      end
  end.

Lemma stageBatch_each tasks index now ids keys b cur :
  (0 < now)%Z → Forall batchable tasks → agree now b ids keys cur →
  match stageBatch tasks index now ids keys b with
  | inl staged =>
      enqueue_each tasks now cur = (foldl (λ b entry, applyStaged entry now b) cur staged, None)
  | inr err => (enqueue_each tasks now cur).2 = Some (Unwrap err)
  end.
Proof.
  intros Hnow Hall. revert index ids keys cur.
  induction Hall as [|task tasks Hba Hall IH]; intros index ids keys cur Hag; [done|].
  cbn [stageBatch enqueue_each]. unfold Enqueue at 1.
  pose proof (stageEnqueue_agree _ _ _ _ _ task Hag) as Heq. unfold Enqueue. rewrite <- Heq.
  destruct (stageEnqueue task now ids keys b) as [e| |err] eqn:Hst; [|by apply IH|done].
  specialize (IH (S index) _ _ _ (agree_extend _ _ _ _ _ _ _ Hnow Hba Hag Hst)).
  destruct (stageBatch tasks _ _ _ _ _); done.
Qed.

(** ** Atomicity *)

(** The id of a staged task, and why a task is skipped. *)
Lemma stageEnqueue_id task now ids keys b e :
  stageEnqueue task now ids keys b = Staged e → st_id e = env_Id task.
Proof.
  unfold stageEnqueue. case_decide; [done|]. case_decide; [done|]. case_match; [done|].
  case_match; [done|]. destruct (resolveInitialDeps _ _ _). by intros [= <-].
Qed.

Lemma stageEnqueue_skip task now ids keys b :
  stageEnqueue task now ids keys b = Skip → is_Some (br_tasks b !! env_Id task) ∨ env_Id task ∈ ids.
Proof.
  unfold stageEnqueue. case_decide; [by left|]. case_decide; [by right|]. case_match; [done|].
  case_match; [done|]. by destruct (resolveInitialDeps _ _ _).
Qed.

(** A new task under a claimed key is refused. *)
Lemma stageEnqueue_claimed task now b :
  opt_UniqueKey (GetOptions task) ≠ "" → br_tasks b !! env_Id task = None →
  uniqueKeyClaimed (opt_UniqueKey (GetOptions task)) now b = true →
  stageEnqueue task now ∅ ∅ b = StageError ErrDuplicateTask.
Proof.
  intros Hk Hnew Hc. unfold stageEnqueue. rewrite Hnew. rewrite decide_False by (by intros [? ?]).
  rewrite decide_False by set_solver. rewrite bool_decide_false by done. by rewrite Hc.
Qed.

(** The row an accepted task of an unclaimed key leaves. *)
Lemma Enqueue_row task now b :
  br_tasks b !! env_Id task = None → (Enqueue task now b).2 = None →
  ∃ state processAt deps, br_tasks (Enqueue task now b).1 =
    <[env_Id task := stage_row task now state processAt deps]> (br_tasks b) ∧
    (Forall (λ e, dep_OnFailure e ≠ DEPENDENCY_FAILURE_POLICY_CASCADE_CANCEL)
       (opt_DependsOn (GetOptions task)) → incomplete state = true).
Proof.
  intros Hnew. unfold Enqueue, stageEnqueue. rewrite Hnew. rewrite decide_False by (by intros [? ?]).
  rewrite decide_False by set_solver.
  destruct (negb (bool_decide (opt_UniqueKey (GetOptions task) = "")) && _); [done|].
  destruct (negb (bool_decide (opt_Group (GetOptions task) = "")) && _); [done|]. intros _.
  pose proof (resolveInitialDeps_no_cancel b (env_Id task) (opt_DependsOn (GetOptions task)) ∅) as Hc.
  unfold resolveInitialDeps. destruct (resolveInitialDeps_loop _ _ _ _) as [deps c].
  cbn [fst snd] in *. rewrite applyStaged_tasks. cbn [st_id st_row].
  eexists _, _, deps. split; [reflexivity|]. intros Hf. rewrite (Hc Hf).
  repeat case_match; done.
Qed.

Lemma Enqueue_cron task now b : br_cronEntries (Enqueue task now b).1 = br_cronEntries b.
Proof.
  unfold Enqueue. destruct (stageEnqueue task now ∅ ∅ b) as [e| |err]; [|done|done]. cbn [fst].
  unfold applyStaged, emit. generalize (range_keys (dom (row_deps (st_row e)))) as l. intros l.
  assert (H : ∀ b, br_cronEntries (foldl (λ b d, addDependent d (st_id e) b) b l) = br_cronEntries b).
  { induction l as [|d l IH]; intros b0; [done|]. cbn. by rewrite IH. }
  repeat case_match; cbn; apply H.
Qed.

Lemma Enqueue_keeps task now b id row :
  br_tasks b !! id = Some row → br_tasks (Enqueue task now b).1 !! id = Some row.
Proof.
  intros Hrow. destruct (br_tasks b !! env_Id task) as [old|] eqn:E.
  { unfold Enqueue, stageEnqueue. rewrite decide_True by (rewrite E; eauto). done. }
  destruct (Enqueue task now b).2 as [err|] eqn:Ee.
  { revert Ee. unfold Enqueue. by destruct (stageEnqueue _ _ _ _ _). }
  destruct (Enqueue_row task now b E Ee) as (state & at_ & deps & -> & _).
  rewrite lookup_insert_ne; [done|]. intros <-. congruence.
Qed.

(** A staged batch leaves every one of its tasks stored. *)
Lemma stageBatch_covers tasks index now ids keys b staged :
  stageBatch tasks index now ids keys b = inl staged →
  ∀ task, task ∈ tasks →
    is_Some (br_tasks b !! env_Id task) ∨ env_Id task ∈ ids ∨ env_Id task ∈ (st_id <$> staged).
Proof.
  revert index ids keys staged. induction tasks as [|t tasks IH]; intros index ids keys staged;
    cbn [stageBatch]; [set_solver|].
  destruct (stageEnqueue t now ids keys b) as [e| |err] eqn:Hst; [| |done].
  - destruct (stageBatch tasks _ _ _ _ _) as [staged'|] eqn:Hrest; [|done]. intros [= <-] task Hin.
    apply stageEnqueue_id in Hst as Hid.
    apply elem_of_cons in Hin as [->|Hin]; [right; right; set_solver|].
    destruct (IH _ _ _ _ Hrest task Hin) as [?|[?|?]]; set_solver.
  - intros Hrest task [->|Hin]%elem_of_cons; [|by eapply IH].
    apply stageEnqueue_skip in Hst as [?|?]; auto.
Qed.

Lemma foldl_applyStaged_stored staged now b id :
  is_Some (br_tasks b !! id) ∨ id ∈ (st_id <$> staged) →
  is_Some (br_tasks (foldl (λ b entry, applyStaged entry now b) b staged) !! id).
Proof.
  revert b. induction staged as [|e staged IH]; intros b; cbn [foldl]; [set_solver|].
  intros H. apply IH. rewrite applyStaged_tasks, lookup_insert_is_Some.
  destruct (decide (st_id e = id)); set_solver.
Qed.
(** ** The failing task of a batch *)

(** Why the store [b] refuses [task] after the tasks [earlier] of its batch
    were accepted: it is new to both, and its unique key is held by a stored
    task or claimed by a new task before it, or it is grouped and due later. *)
Record refused (earlier : list TaskEnvelope) (now : Time) b (task : TaskEnvelope)
    (err : BrokerError) : Prop := {
  ref_new : br_tasks b !! env_Id task = None ∧ env_Id task ∉ (env_Id <$> earlier);
  ref_why :
    (err = ErrDuplicateTask ∧ opt_UniqueKey (GetOptions task) ≠ "" ∧
      ((∃ id row, br_tasks b !! id = Some row ∧
          holds_key (opt_UniqueKey (GetOptions task)) now row = true) ∨
       (∃ t, t ∈ earlier ∧ br_tasks b !! env_Id t = None ∧
          opt_UniqueKey (GetOptions t) = opt_UniqueKey (GetOptions task)))) ∨
    (err = ErrGroupedSchedule ∧ opt_Group (GetOptions task) ≠ "" ∧
      (now < default now (opt_ProcessAt (GetOptions task)))%Z) }.

(** The ids and keys the staging loop has gathered from the tasks before. *)
Record gathered (earlier : list TaskEnvelope) b (ids keys : gset string) : Prop := {
  ga_ids : ∀ t, t ∈ earlier → is_Some (br_tasks b !! env_Id t) ∨ env_Id t ∈ ids;
  ga_keys : ∀ k, k ∈ keys → ∃ t, t ∈ earlier ∧ br_tasks b !! env_Id t = None ∧
    opt_UniqueKey (GetOptions t) = k }.

Lemma gathered_skip earlier b ids keys task now :
  gathered earlier b ids keys → stageEnqueue task now ids keys b = Skip →
  gathered (earlier ++ [task]) b ids keys.
Proof.
  intros [Hi Hk] Hst. split.
  - intros t [?|Ht%list_elem_of_singleton]%elem_of_app; [by apply Hi|]. subst t.
    by eapply stageEnqueue_skip.
  - intros k Hin. destruct (Hk k Hin) as (t & ? & ?). exists t. set_solver.
Qed.

Lemma stageEnqueue_key task now ids keys b e :
  stageEnqueue task now ids keys b = Staged e →
  br_tasks b !! env_Id task = None ∧ row_uniqueKey (st_row e) = opt_UniqueKey (GetOptions task).
Proof.
  unfold stageEnqueue. case_decide as Hs; [done|]. case_decide; [done|]. case_match; [done|].
  case_match; [done|]. destruct (resolveInitialDeps _ _ _). intros [= <-].
  split; [by apply eq_None_not_Some|done].
Qed.

Lemma gathered_stage earlier b ids keys task now e :
  gathered earlier b ids keys → stageEnqueue task now ids keys b = Staged e →
  gathered (earlier ++ [task]) b ({[st_id e]} ∪ ids)
    (if decide (row_uniqueKey (st_row e) = "") then keys
     else {[row_uniqueKey (st_row e)]} ∪ keys).
Proof.
  intros [Hi Hk] Hst. rewrite (stageEnqueue_id _ _ _ _ _ _ Hst).
  destruct (stageEnqueue_key _ _ _ _ _ _ Hst) as [Hnew ->]. split.
  - intros t [?|Ht%list_elem_of_singleton]%elem_of_app; [|set_solver].
    destruct (Hi t) as [?|?]; set_solver.
  - intros k Hin.
    assert (k ∈ keys ∨ k = opt_UniqueKey (GetOptions task)) as [Hin'| ->].
    { case_decide; set_solver. }
    + destruct (Hk k Hin') as (t & ? & ?). exists t. set_solver.
    + exists task. set_solver.
Qed.

Lemma stageEnqueue_refused earlier task now ids keys b err :
  gathered earlier b ids keys → stageEnqueue task now ids keys b = StageError err →
  refused earlier now b task err.
Proof.
  intros [Hi Hk]. unfold stageEnqueue. case_decide as Hs; [done|].
  case_decide as Hids; [done|]. intros Hst.
  assert (Hnew : br_tasks b !! env_Id task = None ∧ env_Id task ∉ (env_Id <$> earlier)).
  { split; [by apply eq_None_not_Some|]. intros (t & Heq & Ht)%list_elem_of_fmap.
    destruct (Hi t Ht) as [?|?]; rewrite <- Heq in *; done. }
  split; [done|]. revert Hst. case_match eqn:Hdup.
  - intros [= <-]. left. apply andb_true_iff in Hdup as [Hne Hdup].
    apply negb_true_iff, bool_decide_eq_false in Hne. split; [done|]. split; [done|].
    apply orb_true_iff in Hdup as [?|?%bool_decide_eq_true].
    + left. by apply uniqueKeyClaimed_spec.
    + right. by apply Hk.
  - case_match eqn:Hg; [|by destruct (resolveInitialDeps _ _ _)]. intros [= <-]. right.
    apply andb_true_iff in Hg as [Hne Hd]. apply negb_true_iff, bool_decide_eq_false in Hne.
    split; [done|]. split; [done|]. unfold After in Hd. lia.
Qed.

Lemma stageBatch_error tasks earlier index now ids keys b err :
  gathered earlier b ids keys → stageBatch tasks index now ids keys b = inr err →
  ∃ i task, be_Index err = index + i ∧ tasks !! i = Some task ∧ be_TaskID err = env_Id task ∧
    (∃ staged, stageBatch (take i tasks) index now ids keys b = inl staged) ∧
    refused (earlier ++ take i tasks) now b task (be_Err err).
Proof.
  revert earlier index ids keys. induction tasks as [|t tasks IH]; intros earlier index ids keys Hga;
    cbn [stageBatch]; [done|].
  destruct (stageEnqueue t now ids keys b) as [e| |err'] eqn:Hst.
  - destruct (stageBatch tasks _ _ _ _ _) as [|err'] eqn:Hrest; [done|]. intros [= ->].
    destruct (IH _ _ _ _ (gathered_stage _ _ _ _ _ _ _ Hga Hst) Hrest)
      as (i & task & Hix & Hl & Hid & [st Hpre] & Href).
    exists (S i), task. rewrite Hix. split; [lia|]. split; [done|]. split; [done|].
    cbn [take stageBatch]. rewrite Hst, Hpre. split; [by eexists|].
    by rewrite <- app_assoc in Href.
  - intros Hrest. destruct (IH _ _ _ _ (gathered_skip _ _ _ _ _ _ Hga Hst) Hrest)
      as (i & task & Hix & Hl & Hid & [st Hpre] & Href).
    exists (S i), task. rewrite Hix. split; [lia|]. split; [done|]. split; [done|].
    cbn [take stageBatch]. rewrite Hst, Hpre. split; [by eexists|].
    by rewrite <- app_assoc in Href.
  - intros [= <-]. exists 0, t. cbn [be_Index be_TaskID be_Err take stageBatch].
    rewrite app_nil_r. split; [lia|]. split; [done|]. split; [done|]. split; [by eexists|].
    by eapply stageEnqueue_refused.
Qed.
End Enqueueing.
