(* ===== verification/MemorySteps.v ===== *)
(** * The in-memory broker: reachable stores and the task state machine

    Every operation of the broker as a command, one step per command, and the
    stores reachable from the empty one. Reachable stores are well formed, and
    a step moves each task along the edges of the task state machine. *)

From S2P Require Import Prelude Proto Events BrokerApi Memory MemoryFacts MemoryInv MemoryDeps.
From S2P Require Import MemorySweeps MemoryResolve MemoryLease.
From Stdlib Require Import Floats.SpecFloat Strings.Byte.
Implicit Types (b : Broker) (row : taskRow).

(** ** Commands *)

Inductive command :=
  | CSetEventSink
  | CEnqueue (task : TaskEnvelope)
  | CEnqueueBatch (tasks : list TaskEnvelope)
  | CLease (queue : string) (limit : Z) (ttl : Duration) (leaseID : string)
  | CLeaseGroup (queue group : string) (limit : Z) (ttl : Duration) (leaseID : string)
  | CExtendLease (taskID leaseID : string) (ttl : Duration)
  | CSetProgress (taskID leaseID : string) (percent : Z) (message : string)
  | CAck (taskID leaseID : string) (result : list byte)
  | CAckBatch (items : list AckItem)
  | CFail (taskID leaseID errMsg : string) (processAt : Time)
  | CRelease (taskID leaseID : string)
  | CArchive (taskID leaseID errMsg : string)
  | CReapExpiredLeases (limit : Z)
  | CPromoteScheduled (limit : Z)
  | CResolveDependents (taskID : string)
  | CPromoteReadyDependents (limit : Z)
  | CPurgeTerminal (archiveRetention : Duration) (limit : Z)
  | CArchiveExpired (limit : Z)
  | CSetQueuePaused (queue : string) (paused : bool)
  | CSetQueueRateLimit (queue : string) (rate : spec_float) (burst : Z)
  | CDeleteQueueRateLimit (queue : string)
  | CSetQueueConcurrencyLimit (queue : string) (maxActive : Z)
  | CDeleteQueueConcurrencyLimit (queue : string)
  | CSetGroupConfig (queue group : string) (maxSize : Z) (maxDelay grace : Duration)
  | CDeleteGroupConfig (queue group : string)
  | CCancelTask (id : string)
  | CDeleteTask (id : string)
  | CRunTaskNow (id : string)
  | CRescheduleTask (id : string) (processAt : Time)
  | CArchiveTask (id : string)
  | CUpsertCronEntry (entry : CronEntry)
  | CSetCronPaused (id : string) (paused : bool)
  | CUpdateCronNextRun (id : string) (expected next : Time)
  | CDeleteCronEntry (id : string)
  | CUpsertWebhookWorker (worker : WebhookWorker)
  | CSetWebhookWorkerPaused (name : string) (paused : bool)
  | CDeleteWebhookWorker (name : string).

(** The values the argument types rule out: [percent] is a [uint32]. *)
Definition allowed (c : command) : Prop :=
  match c with CSetProgress _ _ percent _ => (0 <= percent)%Z | _ => True end.

Definition run {MR : MapRange} (c : command) (now : Time) b : Broker :=
  match c with
  | CSetEventSink => SetEventSink b
  | CEnqueue task => (Enqueue task now b).1
  | CEnqueueBatch tasks => (EnqueueBatch tasks now b).1
  | CLease queue limit ttl lid => (Lease queue limit ttl lid now b).1
  | CLeaseGroup queue group limit ttl lid => (LeaseGroup queue group limit ttl lid now b).1
  | CExtendLease id lid ttl => (ExtendLease id lid ttl now b).1
  | CSetProgress id lid percent message => (SetProgress id lid percent message b).1
  | CAck id lid result => (Ack id lid result now b).1
  | CAckBatch items => (AckBatch items now b).1
  | CFail id lid msg at_ => (Fail id lid msg at_ now b).1
  | CRelease id lid => (Release id lid now b).1
  | CArchive id lid msg => (Archive id lid msg now b).1
  | CReapExpiredLeases limit => (ReapExpiredLeases limit now b).1
  | CPromoteScheduled limit => (PromoteScheduled limit now b).1
  | CResolveDependents id => (ResolveDependents id now b).1
  | CPromoteReadyDependents limit => (PromoteReadyDependents limit now b).1
  | CPurgeTerminal retention limit => (PurgeTerminal retention limit now b).1
  | CArchiveExpired limit => (ArchiveExpired limit now b).1
  | CSetQueuePaused queue paused => SetQueuePaused queue paused b
  | CSetQueueRateLimit queue rate burst => SetQueueRateLimit queue rate burst now b
  | CDeleteQueueRateLimit queue => DeleteQueueRateLimit queue b
  | CSetQueueConcurrencyLimit queue max => SetQueueConcurrencyLimit queue max now b
  | CDeleteQueueConcurrencyLimit queue => DeleteQueueConcurrencyLimit queue b
  | CSetGroupConfig queue group max delay grace => SetGroupConfig queue group max delay grace now b
  | CDeleteGroupConfig queue group => DeleteGroupConfig queue group b
  | CCancelTask id => (CancelTask id now b).1
  | CDeleteTask id => (DeleteTask id b).1
  | CRunTaskNow id => (RunTaskNow id now b).1
  | CRescheduleTask id at_ => (RescheduleTask id at_ now b).1
  | CArchiveTask id => (ArchiveTask id now b).1
  | CUpsertCronEntry entry => UpsertCronEntry entry b
  | CSetCronPaused id paused => (SetCronPaused id paused b).1
  | CUpdateCronNextRun id expected next => UpdateCronNextRun id expected next b
  | CDeleteCronEntry id => DeleteCronEntry id b
  | CUpsertWebhookWorker worker => UpsertWebhookWorker worker b
  | CSetWebhookWorkerPaused name paused => (SetWebhookWorkerPaused name paused b).1
  | CDeleteWebhookWorker name => DeleteWebhookWorker name b
  end.

(** One operation, at a clock reading after the zero time, iterating maps in
    some order. *)
Inductive step b : Broker → Prop :=
  | step_run (MR : MapRange) c now : allowed c → (0 < now)%Z → step b (run c now b).

Definition reachable : Broker → Prop := rtc step New.

(** A timed sequence of commands, for concrete runs. *)
Definition run_all {MR : MapRange} (cs : list (Time * command)) b : Broker :=
  foldl (λ b '(now, c), run c now b) b cs.

Lemma run_all_steps {MR : MapRange} cs b :
  Forall (λ p, allowed p.2 ∧ (0 < p.1)%Z) cs → rtc step b (run_all cs b).
Proof.
  unfold run_all. intros H. revert b. induction H as [|[now c] cs [Hc Hnow] _ IH]; intros b;
    cbn [foldl]; [apply rtc_refl|]. eapply rtc_l; [by apply (step_run b MR c now)|apply IH].
Qed.

(** ** Well-formedness *)

Lemma wf_run {MR : MapRange} c now b : allowed c → (0 < now)%Z → wf b → wf (run c now b).
Proof.
  intros Hc Hnow Hwf. destruct c; cbn [run].
  all: first
    [ by apply wf_Enqueue | by apply wf_EnqueueBatch | by apply wf_Lease | by apply wf_LeaseGroup
    | by apply wf_ExtendLease | by apply wf_SetProgress | by apply wf_Ack | by apply wf_AckBatch
    | by apply wf_Fail | by apply wf_Release | by apply wf_Archive
    | by apply wf_ReapExpiredLeases | by apply wf_PromoteScheduled | by apply wf_ResolveDependents
    | by apply wf_PromoteReadyDependents | by apply wf_PurgeTerminal | by apply wf_ArchiveExpired
    | by apply wf_CancelTask | by apply wf_DeleteTask | by apply wf_RunTaskNow
    | by apply wf_RescheduleTask | by apply wf_ArchiveTask | idtac ].
  all: apply (wf_ext b); [..|done];
    unfold SetCronPaused, UpdateCronNextRun, SetWebhookWorkerPaused; intros; repeat case_match; done.
Qed.

Lemma wf_step b b' : step b b' → wf b → wf b'.
Proof. intros [MR c now Hc Hnow]. by apply wf_run. Qed.

Lemma reachable_wf b : reachable b → wf b.
Proof.
  unfold reachable. intros Hr. pose proof wf_New as H0. revert H0.
  induction Hr as [b|b1 b2 b3 H12 _ IH]; [done|]. intros H1. apply IH. by eapply wf_step.
Qed.

(** ** The task state machine *)

(** The edges a task may take in one operation. [deps] says whether the task
    still records dependencies: only such a task can be canceled by a cascade,
    whatever its state. *)
Definition transition (deps : bool) (s s' : TaskState) : bool :=
  bool_decide (s = s') ||
  match s, s' with
  | (TASK_STATE_PENDING | TASK_STATE_RETRY | TASK_STATE_AGGREGATING), TASK_STATE_ACTIVE => true
  | TASK_STATE_ACTIVE, (TASK_STATE_COMPLETED | TASK_STATE_RETRY | TASK_STATE_PENDING) => true
  | (TASK_STATE_SCHEDULED | TASK_STATE_RETRY | TASK_STATE_ARCHIVED), TASK_STATE_PENDING => true
  | (TASK_STATE_PENDING | TASK_STATE_RETRY), TASK_STATE_SCHEDULED => true
  | TASK_STATE_BLOCKED,
    (TASK_STATE_AGGREGATING | TASK_STATE_SCHEDULED | TASK_STATE_PENDING) => true
  | TASK_STATE_COMPLETED, TASK_STATE_ARCHIVED => false
  | _, TASK_STATE_ARCHIVED => true
  | (TASK_STATE_SCHEDULED | TASK_STATE_PENDING | TASK_STATE_RETRY | TASK_STATE_AGGREGATING
    | TASK_STATE_BLOCKED), TASK_STATE_CANCELED => true
  | _, TASK_STATE_CANCELED => deps
  | _, _ => false
  end.

Definition has_deps row : bool := negb (bool_decide (row_deps row = ∅)).

(** One row's change: an edge of the state machine, the same task. *)
Definition moves (row row' : taskRow) : Prop :=
  transition (has_deps row) (row_state row) (row_state row') = true ∧
  row_envelope row' = row_envelope row.

Lemma moves_refl row : moves row row.
Proof. split; [|done]. unfold transition. by rewrite bool_decide_true. Qed.

(** Every row is still there and has moved. *)
Definition rows_move b b' : Prop :=
  ∀ t row, br_tasks b !! t = Some row →
    ∃ row', br_tasks b' !! t = Some row' ∧ moves row row'.

(** When a command may remove a row: an operator deletes a task that is not active;
    a purge removes a finished one, a completed task after its own retention, an
    archived or canceled one after the retention of the archive, if there is one. *)
Definition removable (c : command) (now : Time) (t : string) (row : taskRow) : Prop :=
  match c with
  | CDeleteTask id => t = id ∧ row_state row ≠ TASK_STATE_ACTIVE
  | CPurgeTerminal archiveRetention _ =>
      row_state row = TASK_STATE_COMPLETED ∧ (row_completedAt row + row_retention row <= now)%Z ∨
      (row_state row = TASK_STATE_ARCHIVED ∨ row_state row = TASK_STATE_CANCELED) ∧
      (0 < archiveRetention ∧ row_completedAt row + archiveRetention <= now)%Z
  | _ => False
  end.

(** The same for the operations that remove rows: a removed row is one that may be
    and that no blocked row waits on. *)
Definition rows_move_or_drop (c : command) (now : Time) b b' : Prop :=
  ∀ t row, br_tasks b !! t = Some row →
    (∃ row', br_tasks b' !! t = Some row' ∧ moves row row') ∨
    br_tasks b' !! t = None ∧ removable c now t row ∧
    ∀ t' row', br_tasks b' !! t' = Some row' → row_state row' = TASK_STATE_BLOCKED →
      row_deps row' !! t = None.

Lemma rows_move_no_drop c now b b' : rows_move b b' → rows_move_or_drop c now b b'.
Proof. intros H t row Hrow. left. by apply H. Qed.

Lemma rows_move_same b b' : br_tasks b' = br_tasks b → rows_move b b'.
Proof. intros Ht t row. rewrite Ht. eauto using moves_refl. Qed.

Lemma rows_move_put b b' id row row' :
  br_tasks b !! id = Some row → br_tasks b' = <[id := row']> (br_tasks b) → moves row row' →
  rows_move b b'.
Proof.
  intros Hrow Ht Hm t r Hr. rewrite Ht, lookup_insert.
  case_decide; simplify_eq; eauto using moves_refl.
Qed.

Section Moves.
Context {MR : MapRange}.

(** Closes a [moves] goal from the known state of the old row. *)
Ltac solve_moves :=
  split; [|done]; unfold transition; rsimpl;
  repeat match goal with H : row_state _ = _ |- _ => rewrite H end; try done;
  repeat case_match; try done.

(** An operation that rewrites at most the row [id]. *)
Ltac moves_put row :=
  eapply (rows_move_put _ _ _ row); [eassumption|by frame|]; try solve_moves.

Lemma claim_moves now ttl lid due b :
  selection b due →
  (∀ id row, (id, row) ∈ due → dispatchable (row_state row) = true ∨
     row_state row = TASK_STATE_AGGREGATING) →
  rows_move b (claim now ttl lid due b).1.
Proof.
  intros Hsel Hst t row Hrow. destruct (claim_effect now ttl lid due b Hsel) as [Ht _].
  rewrite Ht, Hrow. simpl. eexists. split; [done|]. case_decide as Hin; [|apply moves_refl].
  apply list_elem_of_fmap in Hin as ([t' r] & -> & Hin). simpl in *.
  destruct Hsel as [_ Hsel]. rewrite (Hsel _ _ Hin) in Hrow. injection Hrow as <-.
  split; [|done]. unfold transition, claim_row. rsimpl.
  destruct (Hst _ _ Hin) as [H|H]; destruct (row_state r); done.
Qed.

Lemma moves_Lease queue limit ttl lid now b : rows_move b (Lease queue limit ttl lid now b).1.
Proof.
  unfold Lease. case_match; [by apply rows_move_same|].
  apply claim_moves; [apply dueTasks_selection|].
  intros id row [_ Hl]%dueTasks_leasable. apply leasable_spec in Hl. tauto.
Qed.

Lemma moves_LeaseGroup queue group limit ttl lid now b :
  rows_move b (LeaseGroup queue group limit ttl lid now b).1.
Proof.
  unfold LeaseGroup. case_match; [by apply rows_move_same|].
  apply claim_moves; [apply groupMembers_selection|].
  intros id row [_ Hm]%groupMembers_member. unfold groupMember in Hm.
  rewrite !andb_true_iff, bool_decide_eq_true in Hm. tauto.
Qed.

(** Lease-scoped operations rewrite an active row. *)
Ltac moves_active :=
  match goal with
  | |- context [activeRow ?id ?lid ?b] =>
      let row := fresh "row" in let E := fresh "E" in
      destruct (activeRow id lid b) as [row|] eqn:E; [|by apply rows_move_same];
      apply activeRow_Some in E as (E & ? & ?); cbn [fst]; moves_put row
  end.

Lemma moves_active_ops id lid b :
  (∀ ttl now, rows_move b (ExtendLease id lid ttl now b).1) ∧
  (∀ percent message, rows_move b (SetProgress id lid percent message b).1) ∧
  (∀ result now, rows_move b (Ack id lid result now b).1) ∧
  (∀ msg at_ now, rows_move b (Fail id lid msg at_ now b).1) ∧
  (∀ now, rows_move b (Release id lid now b).1).
Proof.
  split_and!; intros; unfold ExtendLease, SetProgress, Ack, Fail, Release, ack_row; moves_active.
Qed.

Lemma moves_Archive id lid msg now b : rows_move b (Archive id lid msg now b).1.
Proof.
  unfold Archive. set (selected := if negb _ then _ else _).
  assert (Hsel : ∀ row, selected = inl row →
    br_tasks b !! id = Some row ∧ row_state row ≠ TASK_STATE_COMPLETED).
  { unfold selected. intros row. repeat case_match; intros; simplify_eq; try done.
    match goal with H : activeRow _ _ _ = Some _ |- _ => apply activeRow_Some in H as (? & Hst & _) end.
    split; [done|]. by rewrite Hst. }
  destruct selected as [row|err]; [|by apply rows_move_same].
  destruct (Hsel row eq_refl) as [Hrow Hst]. cbn [fst]. unfold archive_row. moves_put row.
Qed.

(** A batch of acknowledgements: a row is kept or completed. *)
Lemma ackItems_rows items now b t row :
  br_tasks b !! t = Some row →
  ∃ row', br_tasks (ackItems items now b).1 !! t = Some row' ∧
    (row' = row ∨ row_state row = TASK_STATE_ACTIVE ∧ row' = ack_row now row).
Proof.
  revert b row. induction items as [|item items IH]; intros b row Hrow; cbn [ackItems]; [eauto|].
  destruct (activeRow _ _ b) as [r|] eqn:E; [|by apply IH].
  apply activeRow_Some in E as (E & Hst & _).
  set (b1 := emit_row _ _ _ _ _).
  assert (Ht1 : br_tasks b1 = <[ack_TaskID item := ack_row now r]> (br_tasks b))
    by (unfold b1; by frame).
  specialize (IH b1). destruct (ackItems items now b1) as [b' acked]. cbn [fst] in *.
  rewrite Ht1 in IH. destruct (decide (t = ack_TaskID item)) as [->|Hne].
  - rewrite lookup_insert_eq in IH. simplify_eq. destruct (IH _ eq_refl) as (row' & Hrow' & Hor).
    exists row'. split; [done|]. destruct Hor as [->|[Hst' _]]; [by right|done].
  - rewrite lookup_insert_ne in IH by done. by apply IH.
Qed.

Lemma moves_AckBatch items now b : rows_move b (AckBatch items now b).1.
Proof.
  unfold AckBatch. destruct items as [|i items]; [by apply rows_move_same|].
  intros t row Hrow. destruct (ackItems_rows (i :: items) now b t row Hrow) as (row' & Hrow' & Hor).
  exists row'. split; [done|]. destruct Hor as [->|[Hst ->]]; [apply moves_refl|].
  unfold ack_row. solve_moves.
Qed.

(** The bounded sweeps. *)
Lemma sweep_moves test upd wakes limit b done s :
  (∀ row, test row = true → moves row (upd row)) →
  sweep_spec test upd wakes limit b done s → rows_move b (sw_b s).
Proof.
  intros Hm Hs t row Hrow.
  destruct (sp_rows _ _ _ _ _ _ _ Hs _ _ Hrow) as [H|(r & Hr & Ht & Hr')]; simplify_eq;
    eauto using moves_refl.
Qed.

Lemma moves_Reap limit now b : rows_move b (ReapExpiredLeases limit now b).1.
Proof.
  destruct (Z.leb_spec limit 0) as [Hl|Hl].
  { unfold ReapExpiredLeases. rewrite (proj2 (Z.leb_le _ _)) by done. by apply rows_move_same. }
  destruct (ReapExpiredLeases_spec limit now b Hl) as (s & -> & Hs). eapply sweep_moves, Hs.
  intros row [Hst%bool_decide_eq_true _]%andb_true_iff. unfold reap_row. case_match; solve_moves.
Qed.

Lemma moves_PromoteScheduled limit now b : rows_move b (PromoteScheduled limit now b).1.
Proof.
  destruct (Z.leb_spec limit 0) as [Hl|Hl].
  { unfold PromoteScheduled. rewrite (proj2 (Z.leb_le _ _)) by done. by apply rows_move_same. }
  destruct (PromoteScheduled_spec limit now b Hl) as (s & -> & Hs). eapply sweep_moves, Hs.
  intros row [Hst%bool_decide_eq_true _]%andb_true_iff. unfold to_pending. solve_moves.
Qed.

Lemma moves_ArchiveExpired limit now b : rows_move b (ArchiveExpired limit now b).1.
Proof.
  destruct (Z.leb_spec limit 0) as [Hl|Hl].
  { unfold ArchiveExpired. rewrite (proj2 (Z.leb_le _ _)) by done. by apply rows_move_same. }
  destruct (ArchiveExpired_spec limit now b Hl) as (s & -> & Hs). eapply sweep_moves, Hs.
  intros row [Hst _]%andb_true_iff. unfold archive_row. split; [|done].
  unfold transition. rsimpl. by destruct (row_state row).
Qed.

(** Dependency resolution. *)
Lemma evolves_moves now q row row' : evolves now q row row' → moves row row'.
Proof.
  intros [-> _|Hb _ ->|Hd ->].
  - split; [|done]. unfold transition. by rewrite bool_decide_true.
  - unfold promoted_row. solve_moves.
  - unfold cancel_row. split; [|done]. unfold transition, has_deps. rsimpl.
    rewrite (bool_decide_false (row_deps row = ∅)) by done. by destruct (row_state row).
Qed.

Lemma moves_ResolveDependents id now b : rows_move b (ResolveDependents id now b).1.
Proof.
  pose proof (resolveDependents_evolution id now b) as [_ Hr _].
  unfold ResolveDependents. destruct (resolveDependents id now b) as [b' q]. cbn [fst snd] in *.
  intros t row Hrow. destruct (Hr _ _ Hrow) as (r & Hr' & Hev). eauto using evolves_moves.
Qed.

Lemma moves_PromoteReadyDependents limit now b :
  (0 < now)%Z → wf b → rows_move b (PromoteReadyDependents limit now b).1.
Proof.
  intros Hnow Hwf t row Hrow.
  destruct (PromoteReadyDependents_evolves limit now b t row) as (r & Hr & q & Hev); [done..|].
  eauto using evolves_moves.
Qed.

Lemma purgeable_removable ret limit now t row :
  purgeable row now ret = true → removable (CPurgeTerminal ret limit) now t row.
Proof.
  unfold purgeable, removable, After, time_Add. destruct (row_state row) eqn:Hs; try done; intros Hp.
  - left. split; [done|]. lia.
  - right. split; [by left|]. lia.
  - right. split; [by right|]. lia.
Qed.

Lemma moves_PurgeTerminal ret limit now b :
  wf b → rows_move_or_drop (CPurgeTerminal ret limit) now b (PurgeTerminal ret limit now b).1.
Proof.
  intros Hwf. destruct (Z.leb_spec limit 0) as [Hl|Hl].
  { unfold PurgeTerminal. rewrite (proj2 (Z.leb_le _ _)) by done.
    by apply rows_move_no_drop, rows_move_same. }
  destruct (PurgeTerminal_inv ret limit now b Hl Hwf) as (p & -> & Hinv). cbn [fst].
  destruct (dropTerminalDependentEdges_spec b) as [Htd _].
  intros t row Hrow. destruct (br_tasks (pg_b p) !! t) as [row'|] eqn:Hrow'.
  - left. exists row'. split; [done|].
    apply (pi_new _ _ _ _ _ _ Hinv) in Hrow' as (r & Hr & Hor). rewrite Htd in Hr. simplify_eq.
    destruct (releaseLapsed_frame now row) as (He & _ & Hs & _).
    destruct Hor as [->|[-> _]]; [|apply moves_refl].
    split; [|done]. unfold transition. by rewrite Hs, bool_decide_true.
  - destruct (pi_deleted _ _ _ _ _ _ Hinv t row) as [Hp Hno]; [by rewrite Htd|done|].
    right. split; [done|]. split; [by apply purgeable_removable|].
    intros t' r Hr Hb. destruct (row_deps r !! t) eqn:Hd; [|done].
    rewrite <- (pi_waiters _ _ _ _ _ _ Hinv) in Hno.
    pose proof (wf_complete _ (pi_wf _ _ _ _ _ _ Hinv) t t' r Hr Hb ltac:(eauto)). set_solver.
Qed.

(** Enqueueing adds rows. *)
Lemma moves_Enqueue task now b : (0 < now)%Z → rows_move b (Enqueue task now b).1.
Proof.
  intros Hnow. unfold Enqueue.
  destruct (stageEnqueue _ _ _ _ _) eqn:E; [|by apply rows_move_same..].
  apply stageEnqueue_ok in E as (_ & _ & Hnew & _); [|done]. cbn [fst].
  intros t row Hrow. rewrite applyStaged_tasks, lookup_insert_ne by congruence.
  eauto using moves_refl.
Qed.

Lemma foldl_applyStaged_tasks staged now b t :
  t ∉ (st_id <$> staged) →
  br_tasks (foldl (λ b entry, applyStaged entry now b) b staged) !! t = br_tasks b !! t.
Proof.
  revert b. induction staged as [|e staged IH]; intros b Ht; [done|]. cbn [foldl].
  rewrite IH by set_solver. rewrite applyStaged_tasks, lookup_insert_ne; [done|]. set_solver.
Qed.

Lemma moves_EnqueueBatch tasks now b : (0 < now)%Z → rows_move b (EnqueueBatch tasks now b).1.
Proof.
  intros Hnow. unfold EnqueueBatch.
  destruct (stageBatch _ _ _ _ _ _) as [staged|err] eqn:E; [|by apply rows_move_same].
  destruct (stageBatch_ok _ _ _ _ _ _ _ Hnow E) as (_ & _ & Hnew). cbn [fst].
  intros t row Hrow. rewrite foldl_applyStaged_tasks.
  - eauto using moves_refl.
  - intros (e & -> & He)%list_elem_of_fmap. destruct (Hnew _ He). congruence.
Qed.

(** Deletion: an incomplete waiter refuses it. *)
Lemma hasWaitingDependents_false id b t row :
  hasWaitingDependents id b = false → t ∈ waiters b id → br_tasks b !! t = Some row →
  incomplete (row_state row) = false.
Proof.
  unfold hasWaitingDependents. intros Hw Hin Hrow.
  destruct (incomplete (row_state row)) eqn:Hi; [|done]. rewrite <- Hw. symmetry.
  apply existsb_exists. exists t. rewrite Hrow. split; [|done].
  apply list_elem_of_In. by apply elem_of_range_keys.
Qed.

Lemma moves_DeleteTask id now b : wf b → rows_move_or_drop (CDeleteTask id) now b (DeleteTask id b).1.
Proof.
  intros Hwf. unfold DeleteTask.
  destruct (br_tasks b !! id) as [row|] eqn:Hrow; [|by apply rows_move_no_drop, rows_move_same].
  destruct (hasWaitingDependents id b) eqn:Hw; [by apply rows_move_no_drop, rows_move_same|].
  case_decide; [by apply rows_move_no_drop, rows_move_same|]. cbn [fst].
  intros t r Hr. rewrite delete_row_tasks, (proj1 (foldl_removeDependent _ _ _)).
  destruct (decide (t = id)) as [->|Hne].
  - right. rewrite lookup_delete_eq. simplify_eq. split; [done|]. split; [done|].
    intros t' r' [_ Hr']%lookup_delete_Some Hb.
    destruct (row_deps r' !! id) eqn:Hd; [|done].
    pose proof (wf_complete _ Hwf id t' r' Hr' Hb ltac:(eauto)) as Hin.
    pose proof (hasWaitingDependents_false _ _ _ _ Hw Hin Hr') as Hi. by rewrite Hb in Hi.
  - left. rewrite lookup_delete_ne by done. eauto using moves_refl.
Qed.

(** Administrative operations dispatch on the row's state. *)
Ltac moves_admin :=
  match goal with
  | |- context [br_tasks ?b !! ?id] =>
      let row := fresh "row" in let E := fresh "E" in let Hst := fresh "Hst" in
      destruct (br_tasks b !! id) as [row|] eqn:E; [|by apply rows_move_same];
      destruct (row_state row) eqn:Hst; try (by apply rows_move_same); cbn [fst];
      try case_decide; moves_put row
  end.

Lemma moves_admin_ops id now b :
  rows_move b (CancelTask id now b).1 ∧ rows_move b (RunTaskNow id now b).1 ∧
  (∀ at_, rows_move b (RescheduleTask id at_ now b).1) ∧ rows_move b (ArchiveTask id now b).1.
Proof.
  split_and!; intros; unfold CancelTask, RunTaskNow, RescheduleTask, ArchiveTask; moves_admin.
Qed.

Lemma run_moves c now b : (0 < now)%Z → wf b → rows_move_or_drop c now b (run c now b).
Proof.
  intros Hnow Hwf. destruct c; cbn [run];
    first [by apply moves_PurgeTerminal | by apply moves_DeleteTask | apply rows_move_no_drop].
  all: first
    [ by apply moves_Enqueue | by apply moves_EnqueueBatch | apply moves_Lease
    | apply moves_LeaseGroup | apply moves_active_ops | apply moves_AckBatch | apply moves_Archive
    | apply moves_Reap | apply moves_PromoteScheduled | apply moves_ResolveDependents
    | by apply moves_PromoteReadyDependents | apply moves_ArchiveExpired | apply moves_admin_ops
    | idtac ].
  all: apply rows_move_same; unfold SetCronPaused, UpdateCronNextRun, SetWebhookWorkerPaused;
    repeat case_match; done.
Qed.
End Moves.
