(* ===== verification/MemoryProps.v ===== *)
(** * The in-memory broker: the properties

    The theorems about [memory.go], each with a concrete instance where it has
    hypotheses. The instances run on small stores built by sequences of
    commands. *)

From S2P Require Import Prelude Proto Events BrokerApi Memory MemoryFacts MemoryInv MemoryDeps MemorySweeps MemoryResolve MemoryLease MemoryEnqueue MemorySteps.

Implicit Types (b : Broker) (row : taskRow).

(** ** Sample stores *)

Definition sample_options : TaskOptions := emptyTaskOptions <| opt_MaxRetry := 1%Z |>.

Definition sample_task (id : string) (options : TaskOptions) : TaskEnvelope :=
  mkTaskEnvelope id "mail" "send" [] "" ∅ (Some options) 0 "" None None None 0 "".

Definition waits_for (d : string) (policy : DependencyFailurePolicy) : TaskOptions :=
  sample_options <| opt_DependsOn := [mkTaskDependency d policy] |>.

(** Two pending tasks of different priority and a task blocked on the first. *)
Definition sample_commands : list (Time * command) :=
  [(1%Z, CSetEventSink);
   (1%Z, CEnqueue (sample_task "a" sample_options));
   (2%Z, CEnqueue (sample_task "b" (sample_options <| opt_Priority := 5%Z |>)));
   (3%Z, CEnqueue (sample_task "c" (waits_for "a" DEPENDENCY_FAILURE_POLICY_CASCADE_CANCEL)))].

#[local] Existing Instance elements_range.

(** A stored row from a computed field of it. *)
Lemma stored {A} (f : taskRow → A) b t v :
  f <$> br_tasks b !! t = Some v → ∃ row, br_tasks b !! t = Some row ∧ f row = v.
Proof. destruct (br_tasks b !! t); [|done]. intros [= <-]. eauto. Qed.

Definition sample_store : Broker := run_all sample_commands New.

(** The same store after both pending tasks have been leased. *)
Definition leased_store : Broker := run (CLease "mail" 10 100 "L1") 10 sample_store.

Lemma sample_reachable : reachable sample_store.
Proof. apply run_all_steps. repeat constructor. Qed.

Lemma leased_reachable : reachable leased_store.
Proof.
  eapply rtc_r; [apply sample_reachable|]. by apply (step_run _ elements_range).
Qed.

(** ** Reachable stores *)

(** C1: every store reachable from the empty one by the broker's operations, in
    any order and whatever the map iteration orders, is well formed: rows sit
    under their own id with consistent fields, a blocked row has a dependency, no
    row depends on itself, and the reverse index lists exactly the edges it must:
    each entry is a stored row with that dependency, and every blocked row is
    listed under each of its dependencies. *)
Theorem reachable_well_formed b : reachable b → wf b.
Proof. apply reachable_wf. Qed.

Lemma reachable_well_formed_witness :
  reachable sample_store ∧ wf sample_store ∧ waiters sample_store "a" = {["c"]}.
Proof.
  split; [apply sample_reachable|]. split; [|by vm_compute].
  apply reachable_well_formed, sample_reachable.
Defined.

(** C2: one operation on a reachable store moves every stored task along an edge
    of the task state machine and never changes which task a row holds, or removes
    it. In particular a completed task leaves its state only by a cascade through a
    dependency it still records, and only a pending, retrying or aggregating task
    becomes active. Nothing but [DeleteTask] of that task, when it is not active, and
    [PurgeTerminal], when it is finished and its retention is over, removes a task,
    and neither removes one a blocked task waits on. *)
Theorem step_follows_state_machine {MR : MapRange} c now b t row :
  reachable b → (0 < now)%Z → br_tasks b !! t = Some row →
  match br_tasks (run c now b) !! t with
  | Some row' =>
      transition (has_deps row) (row_state row) (row_state row') = true ∧
      row_envelope row' = row_envelope row
  | None =>
      removable c now t row ∧
      ∀ t' row', br_tasks (run c now b) !! t' = Some row' → row_state row' = TASK_STATE_BLOCKED →
        row_deps row' !! t = None
  end.
Proof.
  intros Hr Hnow Hrow.
  destruct (run_moves c now b Hnow (reachable_wf b Hr) t row Hrow) as [(r & -> & Hm)|(-> & Hd)];
    [exact Hm|exact Hd].
Qed.

(** A lease of a pending task, and an operator's deletion of one. *)
Lemma step_follows_state_machine_witness :
  ∃ row row', br_tasks sample_store !! "b" = Some row ∧ br_tasks leased_store !! "b" = Some row' ∧
    row_state row = TASK_STATE_PENDING ∧ row_state row' = TASK_STATE_ACTIVE ∧
    transition (has_deps row) (row_state row) (row_state row') = true ∧
    br_tasks (run (CDeleteTask "b") 10 sample_store) !! "b" = None ∧
    removable (CDeleteTask "b") 10 "b" row.
Proof.
  destruct (stored row_state sample_store "b" TASK_STATE_PENDING) as (row & Hrow & Hst);
    [by vm_compute|].
  destruct (stored row_state leased_store "b" TASK_STATE_ACTIVE) as (row' & Hrow' & Hst');
    [by vm_compute|].
  assert (Hgone : br_tasks (run (CDeleteTask "b") 10 sample_store) !! "b" = None) by (by vm_compute).
  pose proof (step_follows_state_machine (CLease "mail" 10 100 "L1") 10 sample_store "b" row
    sample_reachable ltac:(lia) Hrow) as Hm. fold leased_store in Hm. rewrite Hrow' in Hm.
  pose proof (step_follows_state_machine (CDeleteTask "b") 10 sample_store "b" row
    sample_reachable ltac:(lia) Hrow) as Hd. rewrite Hgone in Hd.
  exists row, row'. destruct Hm, Hd. split_and!; done.
Defined.

(** ** Leasing *)

(** C3: a lease claims, of the tasks of the queue that are dispatchable, due and
    not expired, the first [limit] in dispatch order (priority descending, then
    due time, then id), returns them in that order, activates exactly them under
    the presented lease and leaves every other row as it was; it returns fewer
    than [limit] only when it has claimed every candidate. The priorities are
    non-negative, as the API validates. *)
Theorem Lease_claims_first {MR : MapRange} queue limit ttl lid now b :
  (0 < limit)%Z → priorities_ok queue now b →
  ∃ due : list (string * taskRow),
    Lease queue limit ttl lid now b =
      ((Lease queue limit ttl lid now b).1, (λ p, overlay (claim_row now ttl lid p.2)) <$> due) ∧
    NoDup due.*1 ∧ StronglySorted (λ a c, dispatch_order a.2 c.2) due ∧
    (Z.of_nat (length due) <= limit)%Z ∧
    (∀ id row, (id, row) ∈ due → br_tasks b !! id = Some row ∧ leasable queue now row = true) ∧
    (∀ id row, br_tasks b !! id = Some row → leasable queue now row = true → id ∉ due.*1 →
       Z.of_nat (length due) = limit ∧ ∀ p, p ∈ due → dispatch_order p.2 row) ∧
    (∀ id, br_tasks (Lease queue limit ttl lid now b).1 !! id =
       (λ row, if decide (id ∈ due.*1) then claim_row now ttl lid row else row) <$> br_tasks b !! id).
Proof.
  intros Hl Hp. exists (dueTasks queue limit now b).
  pose proof (dueTasks_selection queue limit now b) as Hsel.
  destruct (claim_effect now ttl lid _ _ Hsel) as (Ht & Hres & _).
  unfold Lease in *. rewrite (proj2 (Z.leb_gt limit 0)) by done.
  split_and!.
  - rewrite <- Hres. by destruct (claim _ _ _ _ _).
  - apply Hsel.
  - by apply dueTasks_sorted.
  - rewrite dueTasks_take, length_take by done. lia.
  - apply dueTasks_leasable.
  - intros id row Hrow Hle Hni.
    destruct (dueTasks_rest queue limit now b id row) as [Hlen Hord]; [done..|].
    split; [lia|done].
  - apply Ht.
Qed.

Lemma Lease_claims_first_witness :
  (env_Id <$> (Lease "mail" 1 100 "L1" 10 sample_store).2) = ["b"] ∧
  ∃ due : list (string * taskRow), (Lease "mail" 1 100 "L1" 10 sample_store).2 =
    (λ p, overlay (claim_row 10 100 "L1" p.2)) <$> due ∧ length due = 1.
Proof.
  split; [by vm_compute|].
  destruct (Lease_claims_first "mail" 1 100 "L1" 10 sample_store) as (due & Heq & _); [lia| |].
  { intros id row Hrow _.
    assert (H : forallb (λ p, (0 <=? row_priority p.2) && (row_priority p.2 <? 2 ^ 31))%Z
      (map_to_list (br_tasks sample_store)) = true) by (by vm_compute).
    rewrite forallb_forall in H. specialize (H (id, row)). unfold priority_ok.
    rewrite andb_true_iff, Z.leb_le, Z.ltb_lt in H. apply H.
    by apply list_elem_of_In, elem_of_map_to_list. }
  exists due. rewrite Heq. split; [done|].
  apply (f_equal (λ p, length p.2)) in Heq. cbn [snd] in Heq. rewrite length_fmap in Heq.
  rewrite <- Heq. by vm_compute.
Defined.

(** Two leases in a row never share a task, whatever their queues, times,
    limits and lease ids: what the first claimed is active and no lease selects
    an active task. *)
Theorem Lease_exclusive {MR : MapRange} queue limit ttl lid now queue' limit' ttl' lid' now' b e e' :
  wf b →
  e ∈ (Lease queue limit ttl lid now b).2 →
  e' ∈ (Lease queue' limit' ttl' lid' now' (Lease queue limit ttl lid now b).1).2 →
  env_Id e ≠ env_Id e'.
Proof.
  intros Hwf. pose proof (wf_Lease queue limit ttl lid now b Hwf) as Hwf'.
  unfold Lease at 1. destruct (limit <=? 0)%Z eqn:El; [set_solver|].
  destruct (claim_effect now ttl lid _ _ (dueTasks_selection queue limit now b)) as (Ht & Hres & _).
  assert (Hl1 : Lease queue limit ttl lid now b =
    claim now ttl lid (dueTasks queue limit now b) b) by (unfold Lease; by rewrite El).
  rewrite Hl1 in *. rewrite Hres. clear Hl1.
  set (b1 := (claim now ttl lid (dueTasks queue limit now b) b).1) in *.
  unfold Lease. case_match; [set_solver|].
  destruct (claim_effect now' ttl' lid' _ _ (dueTasks_selection queue' limit' now' b1)) as (_ & Hres' & _).
  rewrite Hres'. intros ([id row] & -> & Hin)%list_elem_of_fmap ([id' row'] & -> & Hin')%list_elem_of_fmap.
  assert (Hov : ∀ r n t l, env_Id (overlay (claim_row n t l r)) = env_Id (row_envelope r)).
  { intros. unfold overlay. by repeat case_match. }
  cbn [snd]. rewrite !Hov.
  apply dueTasks_leasable in Hin' as [Hrow' Hl'].
  apply dueTasks_leasable in Hin as Hin0. destruct Hin0 as [Hrow _].
  rewrite (ok_id _ _ (wf_row _ _ _ Hwf Hrow)), (ok_id _ _ (wf_row _ _ _ Hwf' Hrow')).
  intros <-. rewrite Ht, Hrow in Hrow'. simpl in Hrow'.
  rewrite decide_True in Hrow' by (apply list_elem_of_fmap; by exists (id, row)).
  injection Hrow' as <-. apply leasable_spec in Hl' as (_ & Hd & _). done.
Qed.

Lemma Lease_exclusive_witness :
  ∃ e e', e ∈ (Lease "mail" 1 100 "L1" 10 sample_store).2 ∧
    e' ∈ (Lease "mail" 1 100 "L2" 11 (Lease "mail" 1 100 "L1" 10 sample_store).1).2 ∧
    env_Id e ≠ env_Id e'.
Proof.
  destruct (Lease "mail" 1 100 "L1" 10 sample_store).2 as [|e l] eqn:E1; [by vm_compute in E1|].
  destruct (Lease "mail" 1 100 "L2" 11 (Lease "mail" 1 100 "L1" 10 sample_store).1).2
    as [|e' l'] eqn:E2; [by vm_compute in E2|].
  exists e, e'. split; [apply list_elem_of_here|]. split; [apply list_elem_of_here|].
  apply (Lease_exclusive "mail" 1 100 "L1" 10 "mail" 1 100 "L2" 11 sample_store e e').
  - apply reachable_wf, sample_reachable.
  - rewrite E1. apply list_elem_of_here.
  - rewrite E2. apply list_elem_of_here.
Defined.

(** C4: every call that presents a lease succeeds exactly when the task is
    active under that lease; otherwise it reports the lease lost and changes
    nothing. *)
Theorem lease_call_guarded {MR : MapRange} c id lid now b :
  lid ≠ "" →
  (held id lid b ∧ (call c id lid now b).2 = None) ∨
  (¬ held id lid b ∧ call c id lid now b = (b, Some ErrLeaseLost)).
Proof.
  intros Hl. destruct (activeRow id lid b) as [row|] eqn:E.
  - left. assert (Hh : held id lid b) by (exists row; by apply activeRow_Some).
    split; [done|]. by destruct (call_accepted c id lid now b Hl Hh) as (b' & row' & -> & _).
  - right. apply activeRow_None in E. split; [done|]. by apply call_refused.
Qed.

Lemma lease_call_guarded_witness :
  call (LAck []) "b" "stale" 20 leased_store = (leased_store, Some ErrLeaseLost) ∧
  (call (LAck []) "b" "L1" 20 leased_store).2 = None.
Proof.
  split.
  - destruct (lease_call_guarded (LAck []) "b" "stale" 20 leased_store) as [[_ H]|[_ H]];
      [done|by vm_compute in H|done].
  - by vm_compute.
Defined.

(** A lease settles a task at most once: after an acknowledgement, failure,
    release or archive under a lease has succeeded, every further call with the
    same lease is refused and changes nothing, so a task is not acknowledged
    twice. *)
Theorem lease_settles_once {MR : MapRange} c c' id lid now now' b b' :
  lid ≠ "" → settles c = true → call c id lid now b = (b', None) →
  call c' id lid now' b' = (b', Some ErrLeaseLost).
Proof.
  intros Hl Hs Hc. apply call_refused; [done|].
  destruct (activeRow id lid b) as [row|] eqn:E; cycle 1.
  { apply activeRow_None in E. rewrite (call_refused c) in Hc by done. by simplify_eq. }
  assert (Hh : held id lid b) by (exists row; by apply activeRow_Some).
  destruct (call_accepted c id lid now b Hl Hh) as (b1 & row' & Hc' & _ & Hiff).
  rewrite Hc in Hc'. injection Hc' as ->. rewrite Hiff. by rewrite Hs.
Qed.

Lemma lease_settles_once_witness :
  let b' := (call (LFail "boom" 50) "b" "L1" 20 leased_store).1 in
  call (LAck []) "b" "L1" 21 b' = (b', Some ErrLeaseLost).
Proof.
  intros b'. apply (lease_settles_once (LFail "boom" 50) (LAck []) "b" "L1" 20 21 leased_store b');
    [done|done|]. unfold b'. vm_compute. done.
Defined.

(** ** Enqueueing *)

(** C5: a batch is atomic and its error names the task that failed. On an
    error the store is unchanged; the index and the id the error carries are
    those of one task of the batch, every task before it is accepted, and the
    error is the reason this task is refused: it is new, and its unique key is
    held by a live stored task or by a new task before it in the batch, or it
    joins a group with a due time in the future. On success every task of the
    batch is stored and every row that was stored before is as it was. *)
Theorem EnqueueBatch_atomic {MR : MapRange} tasks now b :
  (0 < now)%Z →
  match EnqueueBatch tasks now b with
  | (b', Some err) =>
      b' = b ∧
      (∃ task, tasks !! be_Index err = Some task ∧ be_TaskID err = env_Id task ∧
        (EnqueueBatch (take (be_Index err) tasks) now b).2 = None ∧
        refused (take (be_Index err) tasks) now b task (be_Err err))
  | (b', None) =>
      (∀ task, task ∈ tasks → is_Some (br_tasks b' !! env_Id task)) ∧
      (∀ id row, br_tasks b !! id = Some row → br_tasks b' !! id = Some row)
  end.
Proof.
  intros Hnow. unfold EnqueueBatch.
  destruct (stageBatch _ _ _ _ _ _) as [staged|err] eqn:E.
  - split.
    + intros task Hin. apply foldl_applyStaged_stored.
      destruct (stageBatch_covers _ _ _ _ _ _ _ E task Hin) as [?|[?|?]]; set_solver.
    + intros id row Hrow. destruct (stageBatch_ok _ _ _ _ _ _ _ Hnow E) as (_ & _ & Hnew).
      rewrite foldl_applyStaged_tasks; [done|].
      intros (e & -> & He)%list_elem_of_fmap. destruct (Hnew _ He). congruence.
  - split; [done|].
    assert (Hga : gathered [] b ∅ ∅) by (split; set_solver).
    destruct (stageBatch_error _ _ _ _ _ _ _ _ Hga E) as (i & task & Hix & Hl & Hid & [st Hpre] & Href).
    exists task. replace (be_Index err) with i by lia. by rewrite Hpre.
Qed.

Definition sample_batch : list TaskEnvelope :=
  [sample_task "x" (sample_options <| opt_UniqueKey := "k" |>);
   sample_task "y" (waits_for "x" DEPENDENCY_FAILURE_POLICY_BLOCK);
   sample_task "z" (sample_options <| opt_UniqueKey := "k" |>)].

Lemma EnqueueBatch_atomic_witness :
  (EnqueueBatch sample_batch 5 sample_store).2 = Some (mkBatchError 2 "z" ErrDuplicateTask) ∧
  (EnqueueBatch sample_batch 5 sample_store).1 = sample_store ∧
  (EnqueueBatch (take 2 sample_batch) 5 sample_store).2 = None ∧
  ∃ task, sample_batch !! 2 = Some task ∧
    refused (take 2 sample_batch) 5 sample_store task ErrDuplicateTask.
Proof.
  pose proof (EnqueueBatch_atomic sample_batch 5 sample_store ltac:(lia)) as H.
  assert (E : (EnqueueBatch sample_batch 5 sample_store).2 =
    Some (mkBatchError 2 "z" ErrDuplicateTask)) by (by vm_compute).
  destruct (EnqueueBatch sample_batch 5 sample_store) as [b' err]. cbn [snd] in E. subst err.
  cbn [be_Index be_TaskID be_Err] in H. destruct H as (-> & task & Hl & _ & Hpre & Href).
  split; [done|]. split; [done|]. split; [done|]. exists task. by split.
Defined.

(** [EnqueueBatch], which stages every task against the unchanged store,
    does what enqueueing the tasks one after the other does: the same store and
    events when every task is accepted, the same error when one is refused. The
    tasks cancel nothing on a failed dependency and their unique keys, when
    claimed for a time, are claimed for a positive one. *)
Theorem EnqueueBatch_sequential {MR : MapRange} tasks now b :
  (0 < now)%Z → Forall batchable tasks →
  match EnqueueBatch tasks now b with
  | (b', None) => enqueue_each tasks now b = (b', None)
  | (_, Some err) => (enqueue_each tasks now b).2 = Some (Unwrap err)
  end.
Proof.
  intros Hnow Hall. pose proof (stageBatch_each tasks 0 now ∅ ∅ b b Hnow Hall (agree_start now b)) as H.
  unfold EnqueueBatch. by destruct (stageBatch _ _ _ _ _ _).
Qed.

Lemma EnqueueBatch_sequential_witness :
  enqueue_each (take 2 sample_batch) 5 sample_store =
    ((EnqueueBatch (take 2 sample_batch) 5 sample_store).1, None) ∧
  (enqueue_each sample_batch 5 sample_store).2 = Some ErrDuplicateTask.
Proof.
  assert (Hall : Forall batchable sample_batch).
  { unfold sample_batch, batchable. repeat constructor; cbn; done. }
  split.
  - pose proof (EnqueueBatch_sequential (take 2 sample_batch) 5 sample_store ltac:(lia)
      (Forall_take _ 2 _ Hall)) as H.
    assert (E : (EnqueueBatch (take 2 sample_batch) 5 sample_store).2 = None) by (by vm_compute).
    destruct (EnqueueBatch _ _ _) as [b' [err|]]; done.
  - by vm_compute.
Defined.

(** C6: a unique key admits one live holder. Enqueueing a new task under a key
    that an incomplete, unlapsed task holds is refused and changes nothing; after
    an accepted enqueue no other task holds the key. *)
Theorem Enqueue_unique_key {MR : MapRange} task now b :
  (0 < now)%Z → opt_UniqueKey (GetOptions task) ≠ "" → br_tasks b !! env_Id task = None →
  let key := opt_UniqueKey (GetOptions task) in
  ((∃ id row, br_tasks b !! id = Some row ∧ holds_key key now row = true) →
     Enqueue task now b = (b, Some ErrDuplicateTask)) ∧
  (∀ b', Enqueue task now b = (b', None) →
     ∀ id row, br_tasks b' !! id = Some row → holds_key key now row = true → id = env_Id task).
Proof.
  intros Hnow Hk Hnew key. rewrite <- uniqueKeyClaimed_spec. fold key in Hk.
  assert (Hst : uniqueKeyClaimed key now b = true →
    stageEnqueue task now ∅ ∅ b = StageError ErrDuplicateTask) by by apply stageEnqueue_claimed.
  split.
  - intros Hc. unfold Enqueue. by rewrite Hst.
  - unfold Enqueue. intros b' HE id row Hrow Hh.
    destruct (stageEnqueue task now ∅ ∅ b) as [e| |err] eqn:E; [| |done].
    + pose proof (stageEnqueue_id _ _ _ _ _ _ E) as Hid. injection HE as <-.
      rewrite applyStaged_tasks in Hrow. apply lookup_insert_Some in Hrow as [[<- _]|[_ Hrow]]; [done|].
      assert (uniqueKeyClaimed key now b = true) as Hc by (apply uniqueKeyClaimed_spec; eauto).
      specialize (Hst Hc); congruence.
    + apply stageEnqueue_skip in E as [[? ?]|?]; [congruence|set_solver].
Qed.

Definition keyed (id : string) : TaskEnvelope :=
  sample_task id (sample_options <| opt_UniqueKey := "k" |>).

Lemma Enqueue_unique_key_witness :
  let b := (Enqueue (keyed "x") 5 sample_store).1 in
  Enqueue (keyed "y") 6 b = (b, Some ErrDuplicateTask).
Proof.
  intros b. apply (Enqueue_unique_key (keyed "y") 6 b); [lia|done|by vm_compute|].
  destruct (stored (holds_key "k" 6) b "x" true) as (row & Hrow & Hh); [by vm_compute|].
  by exists "x", row.
Defined.

(** ** Maintenance *)

(** Reaping reclaims at most [limit] expired leases, and all of them when
    the limit is not reached. A reclaimed task with retries left goes to retry,
    its count incremented and due at once; one without is archived; every other
    row is untouched. The queues reported are exactly those of the tasks sent to
    retry, each once. *)
Theorem ReapExpiredLeases_correct {MR : MapRange} limit now b :
  (0 < limit)%Z →
  ∃ changed : gset string,
    (Z.of_nat (size changed) <= limit)%Z ∧
    (∀ id, br_tasks (ReapExpiredLeases limit now b).1 !! id =
       (λ row, if decide (id ∈ changed) then reap_row now row else row) <$> br_tasks b !! id) ∧
    (∀ id, id ∈ changed → ∃ row, br_tasks b !! id = Some row ∧ lease_expired now row = true) ∧
    ((Z.of_nat (size changed) < limit)%Z →
       ∀ id row, br_tasks b !! id = Some row → lease_expired now row = true → id ∈ changed) ∧
    NoDup (ReapExpiredLeases limit now b).2 ∧
    (∀ q, q ∈ (ReapExpiredLeases limit now b).2 ↔
       ∃ id row, id ∈ changed ∧ br_tasks b !! id = Some row ∧ has_retries row = true ∧
         env_Queue (row_envelope row) = q).
Proof.
  intros Hl. destruct (ReapExpiredLeases_spec limit now b Hl) as (s & -> & Hs).
  destruct (sweep_spec_rows _ _ _ _ _ _ Hs) as (ch & H1 & _ & H2 & H3 & H4 & H5).
  exists ch. cbn [fst snd]. split_and!; try done; [apply NoDup_range_keys|].
  intros q. by rewrite elem_of_range_keys, H5.
Qed.

Lemma ReapExpiredLeases_correct_witness :
  (ReapExpiredLeases 10 200 leased_store).2 = ["mail"] ∧
  ∃ changed : gset string, "b" ∈ changed ∧
    ∀ id, br_tasks (ReapExpiredLeases 10 200 leased_store).1 !! id =
      (λ row, if decide (id ∈ changed) then reap_row 200 row else row) <$> br_tasks leased_store !! id.
Proof.
  split; [by vm_compute|].
  destruct (ReapExpiredLeases_correct 10 200 leased_store ltac:(lia)) as (ch & _ & Hrows & _ & Hall & _).
  exists ch. split; [|done].
  assert (H1 : row_state <$> br_tasks (ReapExpiredLeases 10 200 leased_store).1 !! "b" =
    Some TASK_STATE_RETRY) by (by vm_compute).
  assert (H2 : row_state <$> br_tasks leased_store !! "b" = Some TASK_STATE_ACTIVE)
    by (by vm_compute).
  rewrite Hrows in H1. destruct (br_tasks leased_store !! "b") as [row|]; [|done].
  cbn [fmap option_fmap option_map] in *. destruct (decide ("b" ∈ ch)); [done|congruence].
Defined.

(** Promotion of scheduled tasks: at most [limit], all that are due when
    the limit is not reached, each made pending and nothing else changed, and
    exactly their queues reported. *)
Theorem PromoteScheduled_correct {MR : MapRange} limit now b :
  (0 < limit)%Z →
  ∃ changed : gset string,
    (Z.of_nat (size changed) <= limit)%Z ∧
    (∀ id, br_tasks (PromoteScheduled limit now b).1 !! id =
       (λ row, if decide (id ∈ changed) then to_pending row else row) <$> br_tasks b !! id) ∧
    (∀ id, id ∈ changed → ∃ row, br_tasks b !! id = Some row ∧ schedule_due now row = true) ∧
    ((Z.of_nat (size changed) < limit)%Z →
       ∀ id row, br_tasks b !! id = Some row → schedule_due now row = true → id ∈ changed) ∧
    (∀ q, q ∈ (PromoteScheduled limit now b).2 ↔
       ∃ id row, id ∈ changed ∧ br_tasks b !! id = Some row ∧ env_Queue (row_envelope row) = q).
Proof.
  intros Hl. destruct (PromoteScheduled_spec limit now b Hl) as (s & -> & Hs).
  destruct (sweep_spec_rows _ _ _ _ _ _ Hs) as (ch & H1 & _ & H2 & H3 & H4 & H5).
  exists ch. cbn [fst snd]. split_and!; try done.
  intros q. rewrite elem_of_range_keys, H5. naive_solver.
Qed.

(** A task due at 50. *)
Definition scheduled_store : Broker :=
  run (CEnqueue (sample_task "s" (sample_options <| opt_ProcessAt := Some 50%Z |>))) 4 sample_store.

Lemma PromoteScheduled_correct_witness :
  (PromoteScheduled 10 60 scheduled_store).2 = ["mail"] ∧
  ∃ changed : gset string, (Z.of_nat (size changed) <= 10)%Z ∧
    ∀ q, q ∈ (PromoteScheduled 10 60 scheduled_store).2 ↔
      ∃ id row, id ∈ changed ∧ br_tasks scheduled_store !! id = Some row ∧
        env_Queue (row_envelope row) = q.
Proof.
  split; [by vm_compute|].
  destruct (PromoteScheduled_correct 10 60 scheduled_store ltac:(lia)) as (ch & H1 & _ & _ & _ & H5).
  by exists ch.
Defined.

(** A purge removes only terminal tasks whose retention has lapsed and that
    no incomplete task waits on; within each of its two budgets it removes all of
    them; it returns how many it removed; the rows it keeps change in nothing but
    a lapsed unique key. *)
Theorem PurgeTerminal_correct {MR : MapRange} ret limit now b :
  (0 < limit)%Z → wf b →
  let b' := (PurgeTerminal ret limit now b).1 in
  let n := (PurgeTerminal ret limit now b).2 in
  (0 <= n <= 2 * limit ∧ n = Z.of_nat (size (br_tasks b)) - Z.of_nat (size (br_tasks b')))%Z ∧
  (∀ id row, br_tasks b !! id = Some row → br_tasks b' !! id = None →
     purgeable row now ret = true ∧ ∀ t, t ∈ waiters b id → waits b t = false) ∧
  (∀ id row', br_tasks b' !! id = Some row' →
     ∃ row, br_tasks b !! id = Some row ∧ row' = releaseLapsed now row) ∧
  ((n < limit)%Z → ∀ id row, br_tasks b !! id = Some row → purgeable row now ret = true →
     (∀ t, t ∈ waiters b id → waits b t = false) → br_tasks b' !! id = None).
Proof.
  intros Hl Hwf. destruct (PurgeTerminal_inv ret limit now b Hl Hwf) as (p & -> & Hinv).
  destruct (dropTerminalDependentEdges_spec b) as [Ht Hw]. cbn [fst snd].
  assert (Hwaits : ∀ id, waiters (dropTerminalDependentEdges b) id = ∅ ↔
    ∀ t, t ∈ waiters b id → waits b t = false).
  { intros id. rewrite <- leibniz_equiv_iff. rewrite elem_of_equiv_empty. setoid_rewrite Hw.
    split; intros H t; specialize (H t); destruct (waits b t); naive_solver. }
  destruct Hinv as [_ _ _ Hnew Hdel Hc Hbud Hk]. rewrite Ht in *. split_and!; [lia..| | |].
  - intros id row Hrow Hn. destruct (Hdel id row Hrow Hn) as [Hp He].
    split; [done|]. by apply Hwaits.
  - intros id row' Hrow'. destruct (Hnew _ _ Hrow') as (row & Hrow & [->|[-> Hni]]); [by eauto|].
    destruct Hni. apply elem_of_range_keys, elem_of_dom. eauto.
  - intros Hn id row Hrow Hp He. apply Hwaits in He.
    destruct (br_tasks (pg_b p) !! id) as [row'|] eqn:Hrow'; [exfalso|done].
    destruct (Hnew _ _ Hrow') as (r & Hr & Hor). simplify_eq.
    assert (purgeable row' now ret = true).
    { destruct Hor as [->|[-> _]]; [by rewrite purgeable_releaseLapsed|done]. }
    assert (id ∈ range_keys (dom (br_tasks b))) by (apply elem_of_range_keys, elem_of_dom; eauto).
    specialize (Hk id row' ltac:(done) Hrow' ltac:(done) He). case_decide; lia.
Qed.

(** Both pending tasks completed, the blocked one still waiting. *)
Definition finished_store : Broker :=
  run (CAckBatch [mkAckItem "b" "L1" []; mkAckItem "a" "L1" []]) 20 leased_store.

Lemma finished_reachable : reachable finished_store.
Proof. eapply rtc_r; [apply leased_reachable|]. by apply (step_run _ elements_range). Qed.

Lemma PurgeTerminal_correct_witness :
  (PurgeTerminal 0 10 30 finished_store).2 = 1%Z ∧
  br_tasks (PurgeTerminal 0 10 30 finished_store).1 !! "b" = None ∧
  is_Some (br_tasks (PurgeTerminal 0 10 30 finished_store).1 !! "a").
Proof.
  split; [by vm_compute|]. split; cycle 1.
  { destruct (stored row_state (PurgeTerminal 0 10 30 finished_store).1 "a" TASK_STATE_COMPLETED)
      as (r & Hr & _); [by vm_compute|eauto]. }
  destruct (PurgeTerminal_correct 0 10 30 finished_store) as (_ & _ & _ & Hall);
    [lia|apply reachable_wf, finished_reachable|].
  destruct (stored (λ row, purgeable row 30 0) finished_store "b" true) as (row & Hrow & Hp);
    [by vm_compute|].
  apply (Hall ltac:(by vm_compute) "b" row Hrow); [done|].
  intros t Ht. exfalso. assert (He : waiters finished_store "b" = ∅) by (by vm_compute).
  rewrite He in Ht. by apply not_elem_of_empty in Ht.
Defined.

(** No operation removes a stored task while a blocked task waits on it, so
    a dependency is there to be resolved for as long as something waits on it. *)
Theorem awaited_task_not_removed b b' d t row :
  reachable b → step b b' → is_Some (br_tasks b !! d) →
  br_tasks b' !! t = Some row → row_state row = TASK_STATE_BLOCKED → is_Some (row_deps row !! d) →
  is_Some (br_tasks b' !! d).
Proof.
  intros Hr [MR c now _ Hnow] [rd Hd] Hrow Hb Hdep.
  destruct (run_moves c now b Hnow (reachable_wf b Hr) d rd Hd) as [(r & Hr' & _)|(_ & _ & Hno)]; [eauto|].
  rewrite (Hno _ _ Hrow Hb) in Hdep. by destruct Hdep.
Qed.

Lemma awaited_task_not_removed_witness :
  is_Some (br_tasks (run (CPurgeTerminal 1 10) 1000 finished_store) !! "a").
Proof.
  destruct (stored (λ row, (row_state row, row_deps row !! "a"))
    (run (CPurgeTerminal 1 10) 1000 finished_store) "c"
    (TASK_STATE_BLOCKED, Some DEPENDENCY_FAILURE_POLICY_CASCADE_CANCEL)) as (row & Hrow & Heq);
    [by vm_compute|]. injection Heq as Hst Hd.
  apply (awaited_task_not_removed finished_store (run (CPurgeTerminal 1 10) 1000 finished_store)
    "a" "c" row).
  - apply finished_reachable.
  - by apply (step_run _ elements_range).
  - destruct (stored row_state finished_store "a" TASK_STATE_COMPLETED) as (r & Hr & _);
      [by vm_compute|eauto].
  - done.
  - done.
  - eauto.
Defined.

(** ** Dependencies *)

(** C7: resolving a finished task settles it: afterwards no blocked task waits
    on it, unless it failed and the edge says to keep blocking. The same holds for
    every task the cascade canceled, at any distance, and the worklist loop
    reaches its end with the fuel it is given (more fuel changes nothing). *)
Theorem ResolveDependents_settles {MR : MapRange} id now b t :
  (0 < now)%Z → wf b → has_finished b id →
  let b' := (ResolveDependents id now b).1 in
  (t = id ∨ (∃ row row', br_tasks b !! t = Some row ∧ row_state row ≠ TASK_STATE_CANCELED ∧
     br_tasks b' !! t = Some row' ∧ row_state row' = TASK_STATE_CANCELED) → settled b' t) ∧
  ∀ fuel, (resolveFuel b <= fuel)%nat →
    rs_b (resolve_loop fuel now ∅ (mkResolution b ∅ [id])) = b'.
Proof.
  intros Hnow Hwf Hfin.
  assert (Heq : (ResolveDependents id now b).1 = (resolveDependents id now b).1).
  { unfold ResolveDependents. by destruct (resolveDependents id now b). }
  cbv zeta. rewrite Heq. split; [by apply resolveDependents_settles|].
  intros fuel Hf. unfold resolveDependents. cbn [fst]. f_equal.
  apply resolve_loop_terminates; [apply resolveFuel_enough|done].
Qed.

Lemma ResolveDependents_settles_witness :
  settled (ResolveDependents "a" 30 finished_store).1 "a" ∧
  (ResolveDependents "a" 30 finished_store).2 = ["mail"].
Proof.
  split; [|by vm_compute].
  apply (ResolveDependents_settles "a" 30 finished_store "a"); [lia|..|by left].
  - apply reachable_wf, finished_reachable.
  - unfold has_finished.
    apply (stored (λ row, terminal (row_state row))). by vm_compute.
Defined.

(** Resolution touches a row in three ways only: it drops dependencies from
    it, or promotes it from blocked with none left (to aggregating, scheduled or
    pending by its group and due time), or cancels one that had a dependency. It
    removes and adds no row, and reports exactly the queues of the promoted
    tasks. *)
Theorem ResolveDependents_evolves {MR : MapRange} id now b :
  let b' := (ResolveDependents id now b).1 in
  (∀ t, br_tasks b !! t = None → br_tasks b' !! t = None) ∧
  (∀ t row, br_tasks b !! t = Some row → ∃ row', br_tasks b' !! t = Some row' ∧
     (row' = row <| row_deps := row_deps row' |> ∧ row_deps row' ⊆ row_deps row ∨
      row_state row = TASK_STATE_BLOCKED ∧ row' = promoted_row now (row <| row_deps := ∅ |>) ∧
        env_Queue (row_envelope row) ∈ (ResolveDependents id now b).2 ∨
      row_deps row ≠ ∅ ∧ row' = cancel_row now row)) ∧
  (∀ q, q ∈ (ResolveDependents id now b).2 → ∃ t row, br_tasks b !! t = Some row ∧
     row_state row = TASK_STATE_BLOCKED ∧ env_Queue (row_envelope row) = q ∧
     br_tasks b' !! t = Some (promoted_row now (row <| row_deps := ∅ |>))).
Proof.
  destruct (resolveDependents_evolution id now b) as [Hn Hr Hq].
  unfold ResolveDependents. destruct (resolveDependents id now b) as [b1 queues].
  cbn [fst snd] in *. split_and!; [done| |].
  - intros t row Hrow. destruct (Hr _ _ Hrow) as (row' & Hrow' & Hev). exists row'.
    split; [done|]. destruct Hev; [by left|right; left|right; right]; [|done].
    by rewrite elem_of_range_keys.
  - intros q. rewrite elem_of_range_keys. apply Hq.
Qed.

(** The dependency sweep is a full reconciliation. When its limit covers the
    finished dependencies, no finished task is left with an unsettled edge, the
    ones canceled by the sweep included. *)
Theorem PromoteReadyDependents_reconciles {MR : MapRange} limit now b d :
  (0 < now)%Z → wf b → (0 < limit)%Z → (Z.of_nat (size (finishedDeps b)) <= limit)%Z →
  let b' := (PromoteReadyDependents limit now b).1 in
  has_finished b' d → settled b' d.
Proof.
  intros Hnow Hwf Hl Hsize. unfold PromoteReadyDependents.
  rewrite (proj2 (Z.leb_gt limit 0)) by done. cbn [fst].
  rewrite backstop_idle by (by apply wf_resolveBounded).
  apply resolveBounded_settles; [done|done|cbn [sw_count]|].
  - rewrite range_keys_perm. change (length (elements (finishedDeps b))) with (size (finishedDeps b)).
    lia.
  - intros d' Hd'. destruct (decide (d' ∈ finishedDeps b)) as [Hin|Hni].
    + right. by apply elem_of_range_keys.
    + left. intros t row p Hrow Hb Hp. destruct Hni. apply elem_of_finishedDeps.
      split; [done|]. eauto 10.
Qed.

Lemma PromoteReadyDependents_reconciles_witness :
  settled (PromoteReadyDependents 5 30 finished_store).1 "a" ∧
  (PromoteReadyDependents 5 30 finished_store).2 = ["mail"].
Proof.
  split; [|by vm_compute].
  apply (PromoteReadyDependents_reconciles 5 30 finished_store "a"); [lia| |lia|by vm_compute|].
  - apply reachable_wf, finished_reachable.
  - unfold has_finished.
    apply (stored (λ row, terminal (row_state row))). by vm_compute.
Defined.

(** ** Cron entries *)

(** Advancing a cron entry is a compare-and-set on its next run: of two
    schedulers that read the same entry, the second to write changes nothing,
    unless the first left the next run where it was; and the writer that wins
    changes that entry's next run and nothing else. *)
Theorem UpdateCronNextRun_cas id expected next next' b entry :
  br_cronEntries b !! id = Some entry → cron_NextRunAt entry = expected → next ≠ expected →
  let b1 := UpdateCronNextRun id expected next b in
  br_cronEntries b1 = <[id := entry <| cron_NextRunAt := next |>]> (br_cronEntries b) ∧
  UpdateCronNextRun id expected next' b1 = b1.
Proof.
  intros Hentry <- Hne. unfold UpdateCronNextRun. rewrite Hentry. unfold Equal.
  rewrite Z.eqb_refl. rsimpl. split; [done|]. rewrite lookup_insert_eq. rsimpl.
  by rewrite (proj2 (Z.eqb_neq _ _)).
Qed.

Definition sample_cron : CronEntry :=
  mkCronEntry "nightly" "0 0 * * *" "report" "mail" [] "" None false 100.

Lemma UpdateCronNextRun_cas_witness :
  let b := UpsertCronEntry sample_cron New in
  let b1 := UpdateCronNextRun "nightly" 100 200 b in
  UpdateCronNextRun "nightly" 100 300 b1 = b1 ∧ ListDueCronEntries 150 b1 = [].
Proof.
  intros b b1. split; [|by vm_compute].
  apply (UpdateCronNextRun_cas "nightly" 100 200 300 b sample_cron); by vm_compute.
Defined.

(** ** The in-memory broker: behaviours its documentation does not promise

    Concrete runs of [memory.go] whose outcome differs from what its contract
    (internal/broker/broker.go) or the PostgreSQL broker says, and the exact
    condition under which the lease order is not an order. *)

#[local] Existing Instance elements_range.

(** A cascading dependency reaches a task that is no longer blocked: "d" is
    archived by an operator, revived, executed and completed, and still becomes
    cancelled when the task it once waited for fails. *)
Definition cascade_commands : list (Time * command) :=
  [(1%Z, CEnqueue (sample_task "a" sample_options));
   (2%Z, CEnqueue (sample_task "d" (waits_for "a" DEPENDENCY_FAILURE_POLICY_CASCADE_CANCEL)));
   (3%Z, CArchiveTask "d"); (4%Z, CRunTaskNow "d");
   (5%Z, CLease "mail" 10 100 "L1"); (6%Z, CAck "d" "L1" [])].

Lemma cascade_cancels_completed_task :
  let b := run_all cascade_commands New in
  let b' := run_all [(7%Z, CRelease "a" "L1"); (8%Z, CArchiveTask "a");
                     (9%Z, CResolveDependents "a")] b in
  row_state <$> br_tasks b !! "d" = Some TASK_STATE_COMPLETED ∧
  row_state <$> br_tasks b' !! "d" = Some TASK_STATE_CANCELED.
Proof. split; vm_compute; reflexivity. Qed.

(** Running an archived task again does not check its unique key: two live
    tasks hold "k". *)
Lemma RunTaskNow_duplicates_key :
  let b := run_all [(1%Z, CEnqueue (keyed "x")); (2%Z, CArchiveTask "x");
                    (3%Z, CEnqueue (keyed "y")); (4%Z, CRunTaskNow "x")] New in
  holds_key "k" 5 <$> br_tasks b !! "x" = Some true ∧
  holds_key "k" 5 <$> br_tasks b !! "y" = Some true.
Proof. split; vm_compute; reflexivity. Qed.

(** Priorities further apart than an [int32] are compared the wrong way round:
    the lowest priority is leased before the highest. *)
Lemma Lease_priority_overflow :
  let urgent := sample_task "a" (sample_options <| opt_Priority := (2 ^ 31 - 1)%Z |>) in
  let idle := sample_task "b" (sample_options <| opt_Priority := (- 2 ^ 31)%Z |>) in
  let b := run_all [(1%Z, CEnqueue urgent); (1%Z, CEnqueue idle)] New in
  env_Id <$> (Lease "mail" 1 100 "L1" 2 b).2 = ["b"].
Proof. vm_compute. reflexivity. Qed.
