(* ===== verification/Backoff.v ===== *)
(** * Retry delays (internal/backoff/backoff.go)

    A [Duration] is a 64-bit count of nanoseconds, with the wrap-around of the
    shift and of the product written out; the retry count is an [int32]. The
    jitter is drawn by [rand.N], a parameter whose documented promise is a value
    in [[0, n)]. *)

From S2P Require Import Prelude.
Local Open Scope Z_scope.

Module Backoff.

Definition DefaultBase : Duration := 2 * Second.
Definition DefaultCap : Duration := 15 * Minute.

Inductive Kind := Exponential | Linear | Fixed.

#[global] Instance Kind_eq_dec : EqDecision Kind.
Proof. solve_decision. Defined.

Definition ParseKind (name : string) : option Kind :=
  if decide (name = "exponential") then Some Exponential
  else if decide (name = "linear") then Some Linear
  else if decide (name = "fixed") then Some Fixed
  else None.

Record Strategy := mkStrategy { kind : Kind; base : Duration; maxDelay : Duration }.

#[global] Instance Strategy_eq_dec : EqDecision Strategy.
Proof. solve_decision. Defined.

Definition New (base maxDelay : Duration) : Strategy := mkStrategy Exponential base maxDelay.
Definition NewWithKind (k : Kind) (base maxDelay : Duration) : Strategy := mkStrategy k base maxDelay.

(** Integer division truncates towards zero. *)
Definition scaled (s : Strategy) (factor : Z) : Duration :=
  if (base s <=? 0) || (factor <=? 0) then maxDelay s
  else if Z.quot (maxDelay s) (base s) <? factor then maxDelay s
  else wrap64 (base s * factor).

Definition ceiling (s : Strategy) (retried : Z) : Duration :=
  match kind s with
  | Linear => scaled s (retried + 1)
  | Fixed => Z.min (base s) (maxDelay s)
  | Exponential =>
      if retried <? 62 then
        let shifted := wrap64 (Z.shiftl (base s) retried) in
        if (0 <? shifted) && (shifted <? maxDelay s) then shifted else maxDelay s
      else maxDelay s
  end.

Definition Delay (rand_N : Duration → Duration) (s : Strategy) (retried : Z) : Duration :=
  let retried := if retried <? 0 then 0 else retried in
  let c := ceiling s retried in
  if c <=? 0 then 0
  else if decide (kind s = Fixed) then c
  else rand_N c.

(** What [rand.N] promises. *)
Definition jitter_ok (rand_N : Duration → Duration) : Prop :=
  ∀ c, 0 < c → 0 <= rand_N c < c.

(** ** Bounds *)

Lemma scaled_exact s factor :
  0 < base s → int64_range (maxDelay s) → 0 < factor → 0 <= maxDelay s →
  scaled s factor = Z.min (base s * factor) (maxDelay s).
Proof.
  intros Hb Hm Hf Hm0. unfold scaled.
  rewrite (proj2 (Z.leb_gt (base s) 0)), (proj2 (Z.leb_gt factor 0)) by done. cbn [orb].
  rewrite Z.quot_div_nonneg by lia.
  destruct (Z.ltb_spec (maxDelay s / base s) factor) as [Hlt|Hge].
  - rewrite Z.min_r; [done|].
    apply Z.lt_le_incl, (Z.lt_le_trans _ (base s * (maxDelay s / base s + 1))).
    + rewrite Z.mul_add_distr_l, Z.mul_1_r.
      pose proof (Z.div_mod (maxDelay s) (base s)). pose proof (Z.mod_pos_bound (maxDelay s) (base s)). lia.
    + apply Z.mul_le_mono_nonneg_l; lia.
  - assert (base s * factor <= maxDelay s).
    { etrans; [apply Z.mul_le_mono_nonneg_l with (m := maxDelay s / base s); lia|].
      apply Z.mul_div_le. lia. }
    rewrite wrap64_id; [lia|]. unfold int64_range in *. lia.
Qed.

Lemma ceiling_le s retried :
  int64_range (maxDelay s) → ceiling s retried <= Z.max 0 (maxDelay s).
Proof.
  intros Hm. unfold ceiling. destruct (kind s).
  - destruct (retried <? 62); [|lia].
    destruct ((0 <? _) && (_ <? maxDelay s)) eqn:E; [|lia].
    apply andb_true_iff in E as [_ E%Z.ltb_lt]. lia.
  - destruct (Z.leb_spec (base s) 0) as [Hb|Hb];
      [unfold scaled; rewrite (proj2 (Z.leb_le (base s) 0)) by done; cbn [orb]; lia|].
    destruct (Z.leb_spec (retried + 1) 0) as [Hf|Hf];
      [unfold scaled; rewrite (proj2 (Z.leb_le (retried + 1) 0)), orb_true_r by done; lia|].
    destruct (Z.le_gt_cases 0 (maxDelay s)) as [H0|H0].
    + rewrite scaled_exact by done. lia.
    + unfold scaled. rewrite (proj2 (Z.leb_gt (base s) 0)), (proj2 (Z.leb_gt (retried + 1) 0)) by done.
      cbn [orb]. rewrite (proj2 (Z.ltb_lt _ (retried + 1))); [lia|].
      pose proof (Z.quot_opp_l (- maxDelay s) (base s) ltac:(lia)) as Hq.
      rewrite Z.opp_involutive in Hq. rewrite Hq.
      pose proof (Z.quot_pos (- maxDelay s) (base s)). lia.
  - lia.
Qed.

(** The exponential ceiling while the shift stays in range. *)
Lemma exponential_exact s retried :
  kind s = Exponential → 0 < base s → 0 <= retried < 62 → base s * 2 ^ retried < 2 ^ 63 →
  ceiling s retried = Z.min (base s * 2 ^ retried) (maxDelay s).
Proof.
  intros Hk Hb [Hr H62] Hov. unfold ceiling. rewrite Hk, Z.shiftl_mul_pow2 by done.
  assert (0 < 2 ^ retried) by (apply Z.pow_pos_nonneg; lia).
  rewrite wrap64_id by (unfold int64_range; nia).
  rewrite (proj2 (Z.ltb_lt retried 62)), (proj2 (Z.ltb_lt 0 _)) by nia. cbn [andb].
  destruct (Z.ltb_spec (base s * 2 ^ retried) (maxDelay s)); lia.
Qed.

(** ** Properties *)

(** A retry delay is never negative and never exceeds the configured
    maximum, for every kind, base, maximum and retry count, wrap-around
    included. *)
Theorem Delay_bounded rand_N s retried :
  jitter_ok rand_N → int64_range (maxDelay s) →
  0 <= Delay rand_N s retried <= Z.max 0 (maxDelay s).
Proof.
  intros Hj Hm. unfold Delay. set (r := if retried <? 0 then 0 else retried).
  pose proof (ceiling_le s r Hm).
  destruct (Z.leb_spec (ceiling s r) 0) as [|Hc]; [lia|]. case_decide; [lia|].
  specialize (Hj _ Hc). lia.
Qed.

Lemma Delay_bounded_witness :
  let s := NewWithKind Exponential DefaultBase DefaultCap in
  0 <= Delay (λ c, c / 2) s 100 <= DefaultCap.
Proof.
  intros s. apply (Delay_bounded (λ c, c / 2) s 100).
  - intros c Hc. split; [apply Z.div_pos; lia|apply Z.div_lt; lia].
  - by vm_compute.
Defined.

(** The linear ceiling is exactly [base * (retried + 1)] bounded by the
    maximum, for every [int32] retry count: the overflow guard never returns a
    wrapped product. The exponential ceiling is exactly [base * 2^retried]
    bounded by the maximum as long as that power fits a 64-bit duration. *)
Theorem ceiling_exact s retried :
  0 < base s → 0 <= maxDelay s → int64_range (maxDelay s) → 0 <= retried →
  (kind s = Linear → ceiling s retried = Z.min (base s * (retried + 1)) (maxDelay s)) ∧
  (kind s = Exponential → retried < 62 → base s * 2 ^ retried < 2 ^ 63 →
     ceiling s retried = Z.min (base s * 2 ^ retried) (maxDelay s)) ∧
  (kind s = Fixed → ceiling s retried = Z.min (base s) (maxDelay s)).
Proof.
  intros Hb Hm Hr Hret. split_and!.
  - intros Hk. unfold ceiling. rewrite Hk. apply scaled_exact; lia || done.
  - intros Hk H62 Hov. by apply exponential_exact.
  - intros Hk. unfold ceiling. by rewrite Hk.
Qed.

Lemma ceiling_exact_witness :
  ceiling (NewWithKind Linear DefaultBase DefaultCap) 4 = 10 * Second ∧
  ceiling (New DefaultBase DefaultCap) 3 = 16 * Second.
Proof.
  split.
  - rewrite (proj1 (ceiling_exact (NewWithKind Linear DefaultBase DefaultCap) 4
      ltac:(done) ltac:(done) ltac:(done) ltac:(done))); by vm_compute.
  - rewrite (proj1 (proj2 (ceiling_exact (New DefaultBase DefaultCap) 3
      ltac:(done) ltac:(done) ltac:(done) ltac:(done)))); by vm_compute.
Defined.

(** Past that the exponential shift wraps, and a wrapped value that happens to
    be positive and below the maximum is returned in its place: 16.643 s doubled
    35 times is far above a 24 h maximum, yet the ceiling is about 16.5 h. *)
Lemma exponential_ceiling_wraps :
  let s := New (16643 * Second / 1000) (24 * 60 * Minute) in
  base s * 2 ^ 35 > maxDelay s ∧ ceiling s 35 < maxDelay s.
Proof. vm_compute. split; done. Qed.
End Backoff.
