(* ===== verification/Messages.v ===== *)
(** * The actor messages, settings and counters

    The messages the actors of internal/actors exchange
    (protos/conveyor/v1/messages.proto), the engine settings and the core
    counters (internal/actors/runtime.go). *)

From S2P Require Import Prelude Proto Backoff.
From Stdlib Require Import Floats.SpecFloat Strings.Byte.

Record Settings := mkSettings {
  set_LeaseTTL : Duration;
  set_LeaseBatchMax : Z;
  set_ResolverPoolSize : Z;
  set_ReapInterval : Duration;
  set_PromoteInterval : Duration;
  set_PassivateAfter : Duration;
  set_GroupMaxSize : Z;
  set_GroupMaxDelay : Duration;
  set_GroupGracePeriod : Duration;
  set_GroupSweepInterval : Duration;
  set_RateLimitEnabled : bool;
  set_RateLimitRatePerSec : spec_float;
  set_RateLimitBurst : Z;
  set_EventsEnabled : bool;
  set_EventBufferSize : Z;
  set_RetryBackoff : Backoff.Strategy;
  set_WebhookBreakerOpenTimeout : Duration;
  set_AllowPrivateWebhookTargets : bool;
  set_ArchiveRetention : Duration }.

#[global] Instance Settings_eta : Eta Settings := λ s,
  mkSettings (set_LeaseTTL s) (set_LeaseBatchMax s) (set_ResolverPoolSize s)
    (set_ReapInterval s) (set_PromoteInterval s) (set_PassivateAfter s)
    (set_GroupMaxSize s) (set_GroupMaxDelay s) (set_GroupGracePeriod s)
    (set_GroupSweepInterval s) (set_RateLimitEnabled s) (set_RateLimitRatePerSec s)
    (set_RateLimitBurst s) (set_EventsEnabled s) (set_EventBufferSize s)
    (set_RetryBackoff s) (set_WebhookBreakerOpenTimeout s)
    (set_AllowPrivateWebhookTargets s) (set_ArchiveRetention s).

(** [Settings{}]: every field at its zero value. *)
Definition zeroSettings : Settings :=
  mkSettings 0 0 0 0 0 0 0 0 0 0 false (S754_zero false) 0 false 0
    (Backoff.NewWithKind Backoff.Exponential 0 0) 0 false 0.

(** Counters only grow or return to values they had, far from 64 bits: they are
    kept as plain integers. *)
Record Counters := mkCounters {
  ct_Enqueued : Z;
  ct_Dispatched : Z;
  ct_Completed : Z;
  ct_Failed : Z;
  ct_Active : Z;
  ct_Retried : Z;
  ct_Archived : Z;
  ct_Released : Z }.

#[global] Instance Counters_eta : Eta Counters := λ c,
  mkCounters (ct_Enqueued c) (ct_Dispatched c) (ct_Completed c) (ct_Failed c) (ct_Active c)
    (ct_Retried c) (ct_Archived c) (ct_Released c).

Definition noCounters : Counters := mkCounters 0 0 0 0 0 0 0 0.

(** Messages to a queue grain. *)
Record RegisterGateway := mkRegisterGateway {
  rg_Queue : string;
  rg_GatewayName : string;
  rg_Capacity : Z;
  rg_BatchTypes : list string;
  rg_Weight : Z }.

Record GatewayCredit := mkGatewayCredit {
  gcr_Queue : string; gcr_GatewayName : string; gcr_Credits : Z }.

Record TaskCompleted := mkTaskCompleted {
  tc_TaskId : string; tc_Queue : string; tc_Success : bool; tc_GatewayName : string }.

Record BatchCompleted := mkBatchCompleted {
  bc_Queue : string; bc_GatewayName : string; bc_Total : Z; bc_Succeeded : Z }.

Record FireGroup := mkFireGroup {
  fg_Queue : string; fg_Group : string; fg_Type : string; fg_Limit : Z }.

Record LeaseCycleCompleted := mkLeaseCycleCompleted {
  lc_Tasks : list TaskEnvelope;
  lc_LeaseId : string;
  lc_LeaseExpiresAt : Time;
  lc_Error : string }.

Record GroupLeaseCompleted := mkGroupLeaseCompleted {
  gl_Tasks : list TaskEnvelope;
  gl_LeaseId : string;
  gl_LeaseExpiresAt : Time;
  gl_Group : string;
  gl_Type : string;
  gl_Error : string }.

Inductive grainMessage :=
  | MTaskEnqueued
  | MTasksAvailable (hint : Z)
  | MTaskCompleted (m : TaskCompleted)
  | MBatchCompleted (m : BatchCompleted)
  | MFireGroup (m : FireGroup)
  | MGroupLeaseCompleted (m : GroupLeaseCompleted)
  | MRegisterGateway (m : RegisterGateway)
  | MUnregisterGateway (gatewayName : string)
  | MGatewayCredit (m : GatewayCredit)
  | MLeaseCycleCompleted (m : LeaseCycleCompleted)
  | MLeasedTasksReleased (released failed : Z)
  | MCancelActive (taskID : string)
  | MDrainQueue
  | MResumeQueue
  | MRateLimitChanged (ratePerSec : spec_float) (burst : Z)
  | MConcurrencyLimitChanged (maxActive : Z)
  | MStatusFailure.

(** Messages to a gateway. *)
Record ExecuteTask := mkExecuteTask {
  et_Task : TaskEnvelope; et_LeaseId : string; et_LeaseExpiresAt : Time }.

Record ExecuteBatch := mkExecuteBatch {
  eb_Tasks : list TaskEnvelope;
  eb_LeaseId : string;
  eb_LeaseExpiresAt : Time;
  eb_Group : string }.

(** Worker frames. *)
Inductive TaskOutcome :=
  | TASK_OUTCOME_UNSPECIFIED
  | TASK_OUTCOME_SUCCESS
  | TASK_OUTCOME_RETRY
  | TASK_OUTCOME_SKIP_RETRY
  | TASK_OUTCOME_RELEASED.

#[global] Instance TaskOutcome_eq_dec : EqDecision TaskOutcome.
Proof. solve_decision. Defined.

Record Result := mkResult {
  res_TaskId : string;
  res_Outcome : TaskOutcome;
  res_ErrorMsg : string;
  res_Result : list byte }.

(** Server frames to a worker. *)
Inductive ServerMessage :=
  | FDispatch (task : TaskEnvelope) (deadline : Time)
  | FBatchDispatch (tasks : list TaskEnvelope) (deadline : Time) (group : string)
  | FCancel (taskID : string).
