(* ===== verification/QueueGrain.v ===== *)
(** * The queue grain (internal/actors/queue_grain.go, group.go)

    The per-queue dispatcher. A turn of the grain handles one message: it is a
    function on the grain's state, the engine counters and the list of what the
    turn sent out. A [*gatewayCredits] of the grain's list is its position in
    the list. The token bucket is the library's ([golang.org/x/time/rate]), a
    parameter; the answers of the actor system (whether a tell was accepted,
    whether a piped task could be started) are read from the environment of the
    turn, and so are the clock and the id generator. *)

From S2P Require Import Prelude Proto Backoff Messages.
From Stdlib Require Import Floats.SpecFloat Strings.Byte.

(** The rate limiter the grain uses. [TokensAt] is the number of whole tokens,
    the conversion to [int] included. *)
Class RateLimiter := {
  Limiter : Type;
  NewLimiter : spec_float → Z → Limiter;
  TokensAt : Limiter → Time → Z;
  ReserveN : Limiter → Time → Z → Limiter;
  Burst : Limiter → Z }.

(** ** State *)

Record gatewayCredits := mkGatewayCredits {
  gw_name : string;
  gw_capacity : Z;
  gw_credits : Z;
  gw_weight : Z;
  gw_currentWeight : Z;
  gw_batchTypes : list string }.

#[global] Instance gatewayCredits_eta : Eta gatewayCredits := λ g,
  mkGatewayCredits (gw_name g) (gw_capacity g) (gw_credits g) (gw_weight g)
    (gw_currentWeight g) (gw_batchTypes g).

Section Grain.
Context {RL : RateLimiter}.

Record QueueGrain := mkQueueGrain {
  qg_queue : string;
  qg_paused : bool;
  qg_leasing : bool;
  qg_gateways : list gatewayCredits;
  qg_limiter : option Limiter;
  qg_throttled : bool;
  qg_concurrencyLimit : Z;
  qg_activeByKey : gmap string Z;
  qg_inFlightKey : gmap string string }.

#[global] Instance QueueGrain_eta : Eta QueueGrain := λ x,
  mkQueueGrain (qg_queue x) (qg_paused x) (qg_leasing x) (qg_gateways x) (qg_limiter x)
    (qg_throttled x) (qg_concurrencyLimit x) (qg_activeByKey x) (qg_inFlightKey x).

(** What a turn sends out. *)
Inductive grainEffect :=
  | TellExecute (gateway : string) (m : ExecuteTask)
  | TellBatch (gateway : string) (m : ExecuteBatch)
  | TellCancel (gateway : string) (taskID : string)
  | PipeLease (limit : Z) (ttl : Duration) (leaseID : string) (expiresAt : Time)
  | PipeLeaseGroup (group taskType : string) (limit : Z) (ttl : Duration) (leaseID : string)
      (expiresAt : Time)
  | PipeRelease (leaseID : string) (tasks : list TaskEnvelope)
  | PersistPaused (paused : bool)
  | CountRateLimited
  | CountConcurrencyLimited.

(** The environment of a turn: the clock reading, the next id, and the answers
    of the actor system. [sys_tell_ok] is asked with the gateway and the id of
    the task or lease told. *)
Record System := mkSystem {
  sys_settings : Settings;
  sys_now : Time;
  sys_newID : string;
  sys_tell_ok : string → string → bool;
  sys_pipe_ok : bool;
  sys_persist_ok : bool }.

Record Turn := mkTurn {
  tn_grain : QueueGrain;
  tn_counters : Counters;
  tn_out : list grainEffect }.

#[global] Instance Turn_eta : Eta Turn := λ t, mkTurn (tn_grain t) (tn_counters t) (tn_out t).

Definition on_grain (f : QueueGrain → QueueGrain) (t : Turn) : Turn :=
  t <| tn_grain := f (tn_grain t) |>.
Definition on_counters (f : Counters → Counters) (t : Turn) : Turn :=
  t <| tn_counters := f (tn_counters t) |>.
Definition send (e : grainEffect) (t : Turn) : Turn := t <| tn_out := tn_out t ++ [e] |>.

(** ** Activation *)

Definition is_finite (f : spec_float) : bool :=
  match f with S754_nan | S754_infinity _ => false | _ => true end.

(** A comparison with NaN is false, so [ratePerSec <= 0] does not reject it and
    the separate test does. *)
Definition buildLimiter (ratePerSec : spec_float) (burst : Z) : option Limiter :=
  if SFleb ratePerSec (S754_zero false) || negb (is_finite ratePerSec) || (burst <? 1)%Z
  then None else Some (NewLimiter ratePerSec burst).

(** [override] is what [QueueRateLimit] returned. *)
Definition loadRateLimit (settings : Settings) (override : option (spec_float * Z))
    (x : QueueGrain) : QueueGrain :=
  let x := x <| qg_limiter := None |> in
  if negb (set_RateLimitEnabled settings) then x
  else
    match override with
    | Some (ratePerSec, burst) => x <| qg_limiter := buildLimiter ratePerSec burst |>
    | None => x <| qg_limiter := buildLimiter (set_RateLimitRatePerSec settings)
                                   (set_RateLimitBurst settings) |>
    end.

(** [override] is what [QueueConcurrencyLimit] returned. *)
Definition loadConcurrencyLimit (override : option Z) (x : QueueGrain) : QueueGrain :=
  let x := x <| qg_concurrencyLimit := 0%Z |> in
  match override with
  | Some maxActive =>
      if (1 <=? maxActive)%Z then x <| qg_concurrencyLimit := maxActive |> else x
  | None => x
  end.

Definition OnActivate (settings : Settings) (queue : string) (paused : bool)
    (rateLimit : option (spec_float * Z)) (concurrencyLimit : option Z) : QueueGrain :=
  let x := mkQueueGrain queue paused false [] None false 0 ∅ ∅ in
  loadConcurrencyLimit concurrencyLimit (loadRateLimit settings rateLimit x).

(** ** Gateways *)

(** The first gateway of that name, as the loops of the source find it. *)
Fixpoint update_gateway (name : string) (f : gatewayCredits → gatewayCredits)
    (gs : list gatewayCredits) : list gatewayCredits :=
  match gs with
  | [] => []
  | g :: rest => if decide (gw_name g = name) then f g :: rest else g :: update_gateway name f rest
  end.

(** One credit back, capped at the capacity. *)
Definition refill (g : gatewayCredits) : gatewayCredits :=
  g <| gw_credits := Z.min (wrap32 (gw_credits g + 1)) (gw_capacity g) |>.

Definition refreshGateway (message : RegisterGateway) (weight : Z) (g : gatewayCredits)
    : gatewayCredits :=
  let previous := gw_capacity g in
  let g := g <| gw_capacity := rg_Capacity message |>
             <| gw_weight := weight |>
             <| gw_batchTypes := rg_BatchTypes message |> in
  if (gw_capacity g <? previous)%Z then
    g <| gw_credits := Z.min (gw_credits g) (gw_capacity g) |>
  else if (previous <? gw_capacity g)%Z then
    g <| gw_credits :=
      Z.min (wrap32 (gw_credits g + gw_capacity g - previous)) (gw_capacity g) |>
  else g.

Definition registerGateway (message : RegisterGateway) (x : QueueGrain) : QueueGrain :=
  let weight := Z.max (rg_Weight message) 1 in
  if existsb (λ g, bool_decide (gw_name g = rg_GatewayName message)) (qg_gateways x) then
    x <| qg_gateways :=
      update_gateway (rg_GatewayName message) (refreshGateway message weight) (qg_gateways x) |>
  else
    x <| qg_gateways := qg_gateways x ++
      [mkGatewayCredits (rg_GatewayName message) (rg_Capacity message) (rg_Capacity message)
         weight 0 (rg_BatchTypes message)] |>.

Definition addCredits (message : GatewayCredit) (x : QueueGrain) : QueueGrain :=
  x <| qg_gateways := update_gateway (gcr_GatewayName message)
    (λ g, g <| gw_credits :=
       Z.min (wrap32 (gw_credits g + gcr_Credits message)) (gw_capacity g) |>) (qg_gateways x) |>.

Fixpoint remove_first (name : string) (gs : list gatewayCredits) : list gatewayCredits :=
  match gs with
  | [] => []
  | g :: rest => if decide (gw_name g = name) then rest else g :: remove_first name rest
  end.

Definition removeGateway (name : string) (x : QueueGrain) : QueueGrain :=
  x <| qg_gateways := remove_first name (qg_gateways x) |>.

Definition totalCredits (x : QueueGrain) : Z :=
  foldl (λ total g, (total + gw_credits g)%Z) 0%Z (qg_gateways x).

(** ** Weighted round-robin *)

(** The loop of [selectWeightedGateway]: the gateways with their accumulators
    advanced, the position and accumulator of the selected one, and the eligible
    total. *)
Fixpoint advance (eligible : gatewayCredits → bool) (index : nat) (gs : list gatewayCredits)
    (selected : option (nat * Z)) (total : Z)
    : list gatewayCredits * option (nat * Z) * Z :=
  match gs with
  | [] => ([], selected, total)
  | g :: rest =>
      if negb (eligible g) then
        let '(rest, selected, total) := advance eligible (S index) rest selected total in
        (g :: rest, selected, total)
      else
        let g := g <| gw_currentWeight := wrap32 (gw_currentWeight g + gw_weight g) |> in
        let total := wrap32 (total + gw_weight g) in
        let selected :=
          match selected with
          | None => Some (index, gw_currentWeight g)
          | Some (_, best) =>
              if (best <? gw_currentWeight g)%Z then Some (index, gw_currentWeight g)
              else selected
          end in
        let '(rest, selected, total) := advance eligible (S index) rest selected total in
        (g :: rest, selected, total)
  end.

Definition selectWeightedGateway (eligible : gatewayCredits → bool) (gs : list gatewayCredits)
    : list gatewayCredits * option nat :=
  let '(gs, selected, total) := advance eligible 0 gs None 0 in
  match selected with
  | None => (gs, None)
  | Some (index, _) =>
      (alter (λ g, g <| gw_currentWeight := wrap32 (gw_currentWeight g - total) |>) index gs,
       Some index)
  end.

Definition hasCredit (g : gatewayCredits) : bool := (0 <? gw_credits g)%Z.

Definition pickGateway (x : QueueGrain) : QueueGrain * option nat :=
  let '(gs, index) := selectWeightedGateway hasCredit (qg_gateways x) in
  (x <| qg_gateways := gs |>, index).

Definition takesBatch (taskType : string) (g : gatewayCredits) : bool :=
  hasCredit g && bool_decide (taskType ∈ gw_batchTypes g).

Definition pickBatchGateway (taskType : string) (x : QueueGrain) : QueueGrain * option nat :=
  let '(gs, index) := selectWeightedGateway (takesBatch taskType) (qg_gateways x) in
  (x <| qg_gateways := gs |>, index).

(** ** Lease cycles *)

Definition startLease (sys : System) (limit : Z) (t : Turn) : Turn :=
  let t := on_grain (λ x, x <| qg_leasing := true |>) t in
  if sys_pipe_ok sys then
    send (PipeLease limit (set_LeaseTTL (sys_settings sys)) (sys_newID sys)
            (time_Add (sys_now sys) (set_LeaseTTL (sys_settings sys)))) t
  else on_grain (λ x, x <| qg_leasing := false |>) t.

Definition maybeLease (sys : System) (t : Turn) : Turn :=
  let x := tn_grain t in
  if qg_paused x || qg_leasing x then t
  else
    let credits := totalCredits x in
    if (credits =? 0)%Z then t
    else
      let limit := Z.min credits (set_LeaseBatchMax (sys_settings sys)) in
      match qg_limiter x with
      | Some limiter =>
          let available := TokensAt limiter (sys_now sys) in
          if (available <=? 0)%Z then
            if qg_throttled x then t
            else send CountRateLimited (on_grain (λ x, x <| qg_throttled := true |>) t)
          else
            startLease sys (Z.min limit available)
              (on_grain (λ x, x <| qg_throttled := false |>) t)
      | None => startLease sys limit t
      end.

Definition releaseLeased (sys : System) (leaseID : string) (tasks : list TaskEnvelope) (t : Turn)
    : Turn :=
  if sys_pipe_ok sys then send (PipeRelease leaseID tasks) t else t.

(** The gateway at a position: [gateway.name]. *)
Definition gateway_name (x : QueueGrain) (index : nat) : string :=
  default "" (gw_name <$> qg_gateways x !! index).

(** [gateway.credits--] at a position. *)
Definition spendCredit (index : nat) (x : QueueGrain) : QueueGrain :=
  x <| qg_gateways := alter (λ g, g <| gw_credits := wrap32 (gw_credits g - 1) |>) index
         (qg_gateways x) |>.

(** The slot a dispatched task takes. *)
Definition reserveKey (taskID key : string) (holdsSlot : bool) (x : QueueGrain) : QueueGrain :=
  if decide (key = "") then x
  else
    let x :=
      if holdsSlot then x
      else x <| qg_activeByKey :=
        <[key := (default 0 (qg_activeByKey x !! key) + 1)%Z]> (qg_activeByKey x) |> in
    x <| qg_inFlightKey := <[taskID := key]> (qg_inFlightKey x) |>.

(** The state of the dispatch loop. *)
Record cycle := mkCycle {
  cy_turn : Turn;
  cy_undeliverable : list TaskEnvelope;
  cy_saturated : bool }.

Definition dispatchOne (sys : System) (leaseID : string) (expiresAt : Time) (c : cycle)
    (task : TaskEnvelope) : cycle :=
  let t := cy_turn c in
  let x := tn_grain t in
  let key := opt_ConcurrencyKey (GetOptions task) in
  let holdsSlot :=
    negb (bool_decide (key = "")) &&
    bool_decide (default "" (qg_inFlightKey x !! env_Id task) = key) in
  if negb (bool_decide (key = "")) && negb holdsSlot && (0 <? qg_concurrencyLimit x)%Z &&
     (qg_concurrencyLimit x <=? default 0 (qg_activeByKey x !! key))%Z
  then mkCycle t (cy_undeliverable c ++ [task]) true
  else
    let '(x, picked) := pickGateway x in
    let t := t <| tn_grain := x |> in
    match picked with
    | None => mkCycle t (cy_undeliverable c ++ [task]) (cy_saturated c)
    | Some index =>
        let name := gateway_name x index in
        if negb (sys_tell_ok sys name (env_Id task)) then
          mkCycle (on_grain (removeGateway name) t) (cy_undeliverable c ++ [task]) (cy_saturated c)
        else
          let t := send (TellExecute name (mkExecuteTask task leaseID expiresAt)) t in
          let t := on_grain (spendCredit index) t in
          let t := on_counters (λ k, k <| ct_Dispatched := (ct_Dispatched k + 1)%Z |>
                                      <| ct_Active := (ct_Active k + 1)%Z |>) t in
          let t := on_grain (reserveKey (env_Id task) key holdsSlot) t in
          mkCycle t (cy_undeliverable c) (cy_saturated c)
    end.

Definition finishLeaseCycle (sys : System) (message : LeaseCycleCompleted) (t : Turn) : Turn :=
  let t := on_grain (λ x, x <| qg_leasing := false |>) t in
  if negb (bool_decide (lc_Error message = "")) then t
  else
    let tasks := lc_Tasks message in
    if decide (tasks = []) then t
    else if qg_paused (tn_grain t) then releaseLeased sys (lc_LeaseId message) tasks t
    else
      let c := foldl (dispatchOne sys (lc_LeaseId message) (lc_LeaseExpiresAt message))
                 (mkCycle t [] false) tasks in
      let t := cy_turn c in
      let t := if cy_saturated c then send CountConcurrencyLimited t else t in
      let dispatched := (Z.of_nat (length tasks) - Z.of_nat (length (cy_undeliverable c)))%Z in
      let t :=
        match qg_limiter (tn_grain t) with
        | Some limiter =>
            if (0 <? dispatched)%Z then
              on_grain (λ x, x <| qg_limiter :=
                Some (ReserveN limiter (sys_now sys) (Z.min dispatched (Burst limiter))) |>) t
            else t
        | None => t
        end in
      let t :=
        if (0 <? Z.of_nat (length (cy_undeliverable c)))%Z
        then releaseLeased sys (lc_LeaseId message) (cy_undeliverable c) t else t in
      if (0 <? dispatched)%Z then maybeLease sys t else t.

(** ** Groups *)

Definition fireGroup (sys : System) (message : FireGroup) (t : Turn) : Turn :=
  if qg_paused (tn_grain t) then t
  else
    let '(x, picked) := pickBatchGateway (fg_Type message) (tn_grain t) in
    let t := t <| tn_grain := x |> in
    match picked with
    | None => t
    | Some _ =>
        let settings := sys_settings sys in
        let limit := if (fg_Limit message <=? 0)%Z then set_GroupMaxSize settings
                     else fg_Limit message in
        if sys_pipe_ok sys then
          send (PipeLeaseGroup (fg_Group message) (fg_Type message) limit (set_LeaseTTL settings)
                  (sys_newID sys) (time_Add (sys_now sys) (set_LeaseTTL settings))) t
        else t
    end.

Definition finishGroupLease (sys : System) (message : GroupLeaseCompleted) (t : Turn) : Turn :=
  if negb (bool_decide (gl_Error message = "")) then t
  else
    let tasks := gl_Tasks message in
    if decide (tasks = []) then t
    else
      let '(x, picked) := pickBatchGateway (gl_Type message) (tn_grain t) in
      let t := t <| tn_grain := x |> in
      match picked with
      | None => releaseLeased sys (gl_LeaseId message) tasks t
      | Some index =>
          if qg_paused (tn_grain t) then releaseLeased sys (gl_LeaseId message) tasks t
          else
            let name := gateway_name x index in
            if negb (sys_tell_ok sys name (gl_LeaseId message)) then
              releaseLeased sys (gl_LeaseId message) tasks (on_grain (removeGateway name) t)
            else
              let t := send (TellBatch name (mkExecuteBatch tasks (gl_LeaseId message)
                               (gl_LeaseExpiresAt message) (gl_Group message))) t in
              let t := on_grain (spendCredit index) t in
              on_counters (λ k, k
                <| ct_Dispatched := (ct_Dispatched k + Z.of_nat (length tasks))%Z |>
                <| ct_Active := (ct_Active k + Z.of_nat (length tasks))%Z |>) t
      end.

(** ** Completions *)

Definition releaseConcurrencyKey (taskID : string) (x : QueueGrain) : QueueGrain :=
  match qg_inFlightKey x !! taskID with
  | None => x
  | Some key =>
      let x := x <| qg_inFlightKey := delete taskID (qg_inFlightKey x) |> in
      let count := (default 0 (qg_activeByKey x !! key) - 1)%Z in
      if (count <=? 0)%Z then x <| qg_activeByKey := delete key (qg_activeByKey x) |>
      else x <| qg_activeByKey := <[key := count]> (qg_activeByKey x) |>
  end.

Definition recordCompletion (message : TaskCompleted) (t : Turn) : Turn :=
  let t := on_counters (λ k, k <| ct_Active := (ct_Active k - 1)%Z |>) t in
  let t :=
    if tc_Success message
    then on_counters (λ k, k <| ct_Completed := (ct_Completed k + 1)%Z |>) t
    else on_counters (λ k, k <| ct_Failed := (ct_Failed k + 1)%Z |>) t in
  let t := on_grain (λ x, x <| qg_gateways :=
    update_gateway (tc_GatewayName message) refill (qg_gateways x) |>) t in
  on_grain (releaseConcurrencyKey (tc_TaskId message)) t.

Definition recordBatchCompletion (message : BatchCompleted) (t : Turn) : Turn :=
  let total := bc_Total message in
  let succeeded := bc_Succeeded message in
  let t := on_counters (λ k, k
    <| ct_Active := (ct_Active k - total)%Z |>
    <| ct_Completed := (ct_Completed k + succeeded)%Z |>
    <| ct_Failed := (ct_Failed k + (total - succeeded))%Z |>) t in
  on_grain (λ x, x <| qg_gateways :=
    update_gateway (bc_GatewayName message) refill (qg_gateways x) |>) t.

(** ** Control *)

Definition broadcastCancel (taskID : string) (t : Turn) : Turn :=
  foldl (λ t g, send (TellCancel (gw_name g) taskID) t) t (qg_gateways (tn_grain t)).

Definition applyRateLimitChange (settings : Settings) (ratePerSec : spec_float) (burst : Z)
    (x : QueueGrain) : QueueGrain :=
  if negb (set_RateLimitEnabled settings) then x <| qg_limiter := None |>
  else
    let '(ratePerSec, burst) :=
      if SFleb ratePerSec (S754_zero false)
      then (set_RateLimitRatePerSec settings, set_RateLimitBurst settings)
      else (ratePerSec, burst) in
    x <| qg_limiter := buildLimiter ratePerSec burst |> <| qg_throttled := false |>.

Definition applyConcurrencyLimitChange (maxActive : Z) (x : QueueGrain) : QueueGrain :=
  let x := x <| qg_concurrencyLimit := 0%Z |> in
  if (1 <=? maxActive)%Z then x <| qg_concurrencyLimit := maxActive |> else x.

Definition setPaused (sys : System) (paused : bool) (t : Turn) : Turn :=
  if sys_persist_ok sys then
    on_grain (λ x, x <| qg_paused := paused |>) (send (PersistPaused paused) t)
  else t.

(** ** The turn *)

Definition OnReceive (sys : System) (message : grainMessage) (t : Turn) : Turn :=
  match message with
  | MTaskEnqueued | MTasksAvailable _ => maybeLease sys t
  | MTaskCompleted m => maybeLease sys (recordCompletion m t)
  | MBatchCompleted m => maybeLease sys (recordBatchCompletion m t)
  | MFireGroup m => fireGroup sys m t
  | MGroupLeaseCompleted m => finishGroupLease sys m t
  | MRegisterGateway m => maybeLease sys (on_grain (registerGateway m) t)
  | MUnregisterGateway name => on_grain (removeGateway name) t
  | MGatewayCredit m => maybeLease sys (on_grain (addCredits m) t)
  | MLeaseCycleCompleted m => finishLeaseCycle sys m t
  | MLeasedTasksReleased released _ =>
      on_counters (λ k, k <| ct_Released := (ct_Released k + released)%Z |>) t
  | MCancelActive taskID => broadcastCancel taskID t
  | MDrainQueue => setPaused sys true t
  | MResumeQueue => maybeLease sys (setPaused sys false t)
  | MRateLimitChanged ratePerSec burst =>
      maybeLease sys (on_grain (applyRateLimitChange (sys_settings sys) ratePerSec burst) t)
  | MConcurrencyLimitChanged maxActive =>
      maybeLease sys (on_grain (applyConcurrencyLimitChange maxActive) t)
  | MStatusFailure => on_grain (λ x, x <| qg_leasing := false |>) t
  end.
End Grain.
