(* ===== verification/QueueGrainInv.v ===== *)
(** * The queue grain: its invariant

    Credits stay within the capacity a gateway declared, gateways are listed
    once, and the concurrency-key counts cover the tasks in flight; every turn
    preserves this. *)

From S2P Require Import Prelude Proto Messages QueueGrain.
Local Open Scope Z_scope.
Implicit Types (g : gatewayCredits) (gs : list gatewayCredits).

(** ** Gateways *)

Record gateway_ok g : Prop := {
  gok_credits : 0 <= gw_credits g <= gw_capacity g;
  gok_capacity : gw_capacity g < 2 ^ 30;
  gok_weight : 1 <= gw_weight g }.

Record gateways_ok gs : Prop := {
  gs_names : NoDup (gw_name <$> gs);
  gs_each : Forall gateway_ok gs }.

(** What the selection leaves alone. *)
Definition identity g : string * Z * Z * Z * list string :=
  (gw_name g, gw_capacity g, gw_credits g, gw_weight g, gw_batchTypes g).

Lemma identity_ok g g' : identity g' = identity g → gateway_ok g → gateway_ok g'.
Proof. unfold identity. intros [= ? Hc Hr Hw ?] [? ? ?]. split; rewrite ?Hc, ?Hr, ?Hw; done. Qed.

Lemma gateways_ok_identity gs gs' :
  identity <$> gs' = identity <$> gs → gateways_ok gs → gateways_ok gs'.
Proof.
  intros Heq [Hn He]. split.
  - assert (Hnames : ∀ l : list gatewayCredits,
      gw_name <$> l = (λ i, i.1.1.1.1) <$> (identity <$> l)).
    { intros l. by rewrite <- list_fmap_compose. }
    by rewrite Hnames, Heq, <- Hnames.
  - rewrite Forall_forall in *. intros g' Hg'.
    assert (identity g' ∈ identity <$> gs) as (g & Hid & Hg)%list_elem_of_fmap.
    { rewrite <- Heq. apply list_elem_of_fmap. eauto. }
    eapply identity_ok; eauto.
Qed.

Lemma advance_identity e i gs sel tot : identity <$> (advance e i gs sel tot).1.1 = identity <$> gs.
Proof.
  revert i sel tot. induction gs as [|g gs IH]; intros i sel tot; [done|]. cbn [advance].
  destruct (e g); cbn [negb].
  - specialize (IH (S i)
      match sel with
      | None => Some (i, wrap32 (gw_currentWeight g + gw_weight g))
      | Some (_, best) =>
          if best <? wrap32 (gw_currentWeight g + gw_weight g)
          then Some (i, wrap32 (gw_currentWeight g + gw_weight g)) else sel
      end (wrap32 (tot + gw_weight g))). rsimpl.
    destruct (advance _ _ _ _ _) as [[? ?] ?]. cbn [fst] in *. rewrite !fmap_cons, IH. done.
  - specialize (IH (S i) sel tot). destruct (advance _ _ _ _ _) as [[? ?] ?]. cbn [fst] in *.
    by rewrite !fmap_cons, IH.
Qed.

Lemma select_identity e gs : identity <$> (selectWeightedGateway e gs).1 = identity <$> gs.
Proof.
  unfold selectWeightedGateway. pose proof (advance_identity e 0 gs None 0) as H.
  destruct (advance e 0 gs None 0) as [[gs' sel] tot]. cbn [fst] in H.
  destruct sel as [[i v]|]; [|done]. cbn [fst]. rewrite <- H.
  apply list_eq. intros j. rewrite !list_lookup_fmap, list_lookup_alter.
  destruct (decide (i = j)) as [->|]; [|done]. by destruct (gs' !! j).
Qed.

(** The selected gateway is an eligible one. *)
Lemma advance_selected e i gs sel tot k v :
  (advance e i gs sel tot).1.2 = Some (k, v) →
  sel = Some (k, v) ∨ ∃ n g, k = (i + n)%nat ∧ gs !! n = Some g ∧ e g = true.
Proof.
  revert i sel tot. induction gs as [|g gs IH]; intros i sel tot; [by left|]. cbn [advance].
  destruct (e g) eqn:E; cbn [negb].
  - set (sel' := match sel with None => _ | Some _ => _ end). rsimpl.
    specialize (IH (S i) sel' (wrap32 (tot + gw_weight g))).
    destruct (advance _ _ _ _ _) as [[? ?] ?]. cbn [fst snd] in *. intros Hs.
    destruct (IH Hs) as [Heq|(n & g' & -> & Hg' & He')].
    + unfold sel' in Heq. destruct sel as [[i0 v0]|];
        [destruct (v0 <? _); [|by left]|]; (right; exists 0%nat, g; split_and!; [|done|done];
        injection Heq as <- <-; lia).
    + right. exists (S n), g'. split_and!; [lia|done..].
  - specialize (IH (S i) sel tot). destruct (advance _ _ _ _ _) as [[? ?] ?]. cbn [fst snd] in *.
    intros Hs. destruct (IH Hs) as [?|(n & g' & -> & Hg' & He')]; [by left|].
    right. exists (S n), g'. split_and!; [lia|done..].
Qed.

Lemma select_eligible e gs i :
  (selectWeightedGateway e gs).2 = Some i → ∃ g, gs !! i = Some g ∧ e g = true.
Proof.
  unfold selectWeightedGateway. pose proof (advance_selected e 0 gs None 0) as H.
  destruct (advance e 0 gs None 0) as [[gs' sel] tot]. cbn [fst snd] in H.
  destruct sel as [[k v]|]; cbn [snd]; [|done]. intros [= <-].
  destruct (H k v eq_refl) as [?|(n & g & -> & Hg & He)]; [done|]. eauto.
Qed.

(** ** The operations on the gateway list *)

Lemma update_gateway_ok name f gs :
  (∀ g, gw_name (f g) = gw_name g) → (∀ g, gateway_ok g → gateway_ok (f g)) →
  gateways_ok gs → gateways_ok (update_gateway name f gs).
Proof.
  intros Hn Hf [Hnd Hall].
  assert (Hnames : gw_name <$> update_gateway name f gs = gw_name <$> gs).
  { clear Hnd Hall. induction gs as [|g gs IH]; [done|]. cbn [update_gateway].
    case_decide; rewrite !fmap_cons, ?Hn; [done|]. by rewrite IH. }
  split; [by rewrite Hnames|]. clear Hnames Hnd.
  induction Hall as [|g gs Hg Hall IH]; [constructor|]. cbn [update_gateway].
  case_decide; constructor; auto.
Qed.

Lemma remove_first_sublist name gs : remove_first name gs `sublist_of` gs.
Proof.
  induction gs as [|g gs IH]; [done|]. cbn [remove_first]. case_decide.
  - by apply sublist_cons.
  - by apply sublist_skip.
Qed.

Lemma remove_first_ok name gs : gateways_ok gs → gateways_ok (remove_first name gs).
Proof.
  intros [Hnd Hall]. pose proof (remove_first_sublist name gs) as Hsub. split.
  - eapply sublist_NoDup; [done|]. by apply fmap_sublist.
  - rewrite Forall_forall in *. intros g Hg. apply Hall.
    by eapply elem_of_submseteq, sublist_submseteq.
Qed.

Lemma refill_ok g : gateway_ok g → gateway_ok (refill g).
Proof.
  intros [Hc Hcap Hw]. unfold refill. split; rsimpl; [|done|done].
  rewrite wrap32_id by (unfold int32_range; lia). lia.
Qed.

Lemma alter_credit_ok i gs g :
  gs !! i = Some g → 0 < gw_credits g → gateways_ok gs →
  gateways_ok (alter (λ g, g <| gw_credits := wrap32 (gw_credits g - 1) |>) i gs).
Proof.
  intros Hg Hpos [Hnd Hall]. split.
  - assert (Heq : gw_name <$> alter (λ g, g <| gw_credits := wrap32 (gw_credits g - 1) |>) i gs =
      gw_name <$> gs).
    { apply list_eq. intros j. rewrite !list_lookup_fmap, list_lookup_alter.
      destruct (decide (i = j)) as [->|]; [|done]. by destruct (gs !! j). }
    by rewrite Heq.
  - rewrite Forall_lookup in *. intros j g'. rewrite list_lookup_alter.
    destruct (decide (i = j)) as [<-|]; [|apply Hall]. rewrite Hg. intros [= <-].
    destruct (Hall _ _ Hg) as [Hc Hcap Hw]. split; rsimpl; [|done|done].
    rewrite wrap32_id by (unfold int32_range; lia). lia.
Qed.

Section Grain.
Context {RL : RateLimiter}.

(** ** Concurrency keys *)

(** The tasks in flight under a key. *)
Definition in_flight (x : QueueGrain) (key : string) : gset string :=
  dom (filter (λ p, p.2 = key) (qg_inFlightKey x)).

Definition active (x : QueueGrain) (key : string) : Z := default 0 (qg_activeByKey x !! key).

Lemma elem_of_in_flight x key id : id ∈ in_flight x key ↔ qg_inFlightKey x !! id = Some key.
Proof.
  unfold in_flight. rewrite elem_of_dom. unfold is_Some. setoid_rewrite map_lookup_filter_Some.
  naive_solver.
Qed.

(** Every in-flight task is counted, and no count passes the limit in force. *)
Record keys_ok (limit : Z) (x : QueueGrain) : Prop := {
  ko_counted : ∀ key, Z.of_nat (size (in_flight x key)) <= active x key;
  ko_limit : 0 < limit → ∀ key, active x key <= limit;
  ko_named : ∀ id, qg_inFlightKey x !! id ≠ Some "" }.

Lemma keys_ok_frame limit x x' :
  qg_inFlightKey x' = qg_inFlightKey x → qg_activeByKey x' = qg_activeByKey x →
  keys_ok limit x → keys_ok limit x'.
Proof.
  intros Hi Ha [Hc Hl Hn]. unfold in_flight, active in *.
  split; intros; unfold in_flight, active; rewrite ?Hi, ?Ha; auto.
Qed.

Lemma keys_ok_reserve limit x id key :
  keys_ok limit x →
  (key ≠ "" → default "" (qg_inFlightKey x !! id) ≠ key → 0 < limit → active x key < limit) →
  keys_ok limit
    (reserveKey id key
      (negb (bool_decide (key = "")) && bool_decide (default "" (qg_inFlightKey x !! id) = key)) x).
Proof.
  intros [Hc Hl Hn] Hroom. unfold reserveKey. case_decide as Hk; [done|].
  rewrite bool_decide_false by done. cbn [negb andb].
  case_bool_decide as Hslot.
  - assert (Hsame : <[id := key]> (qg_inFlightKey x) = qg_inFlightKey x).
    { apply insert_id. destruct (qg_inFlightKey x !! id); simpl in Hslot; congruence. }
    apply (keys_ok_frame _ x); [done|done|by split].
  - specialize (Hroom Hk Hslot). split.
    + intros k. unfold in_flight, active in *. rsimpl. rewrite lookup_insert.
      destruct (decide (key = k)) as [<-|Hne].
      * assert (Hsub : in_flight (x <| qg_inFlightKey := <[id := key]> (qg_inFlightKey x) |>) key ⊆
          {[id]} ∪ in_flight x key).
        { intros id'. rewrite elem_of_union, elem_of_singleton, !elem_of_in_flight. rsimpl.
          rewrite lookup_insert. case_decide; naive_solver. }
        apply subseteq_size in Hsub. unfold in_flight in Hsub. rsimpl in Hsub.
        pose proof (size_union_alt ({[id]} : gset string) (in_flight x key)) as Hu.
        pose proof (subseteq_size (in_flight x key ∖ {[id]}) (in_flight x key) ltac:(set_solver)).
        unfold in_flight in *. rewrite size_singleton in Hu. specialize (Hc key). simpl. lia.
      * assert (Hsub : in_flight (x <| qg_inFlightKey := <[id := key]> (qg_inFlightKey x) |>) k ⊆
          in_flight x k).
        { intros id'. rewrite !elem_of_in_flight. rsimpl. rewrite lookup_insert.
          case_decide; naive_solver. }
        apply subseteq_size in Hsub. unfold in_flight in Hsub. rsimpl in Hsub.
        specialize (Hc k). lia.
    + intros Hpos k. unfold active in *. rsimpl. rewrite lookup_insert.
      case_decide; subst; [specialize (Hroom Hpos); simpl; lia|by apply Hl].
    + intros id'. rsimpl. rewrite lookup_insert. case_decide; [congruence|apply Hn].
Qed.

(** Forgetting a task takes it out of the tasks in flight under its key. *)
Lemma in_flight_forget x id key :
  qg_inFlightKey x !! id = Some key →
  let x1 := x <| qg_inFlightKey := delete id (qg_inFlightKey x) |> in
  (∀ k, in_flight x1 k = if decide (k = key) then in_flight x k ∖ {[id]} else in_flight x k) ∧
  Z.of_nat (size (in_flight x1 key)) = Z.of_nat (size (in_flight x key)) - 1.
Proof.
  intros Hid x1.
  assert (Hfl : ∀ k, in_flight x1 k = if decide (k = key) then in_flight x k ∖ {[id]} else in_flight x k).
  { intros k. apply set_eq. intros id'. rewrite elem_of_in_flight. unfold x1. rsimpl.
    rewrite lookup_delete. destruct (decide (k = key)) as [->|Hne].
    - rewrite elem_of_difference, elem_of_singleton, elem_of_in_flight.
      case_decide; naive_solver.
    - rewrite elem_of_in_flight. case_decide; [|done]. naive_solver. }
  split; [done|].
  rewrite Hfl, decide_True by done. assert (id ∈ in_flight x key) by (by apply elem_of_in_flight).
  rewrite size_difference, size_singleton by set_solver.
  assert (size (in_flight x key) ≠ 0%nat) by (rewrite size_non_empty_iff; set_solver). lia.
Qed.

Lemma keys_ok_release limit x id : keys_ok limit x → keys_ok limit (releaseConcurrencyKey id x).
Proof.
  intros [Hc Hl Hn]. unfold releaseConcurrencyKey.
  destruct (qg_inFlightKey x !! id) as [key|] eqn:Hid; [|by split].
  set (x1 := x <| qg_inFlightKey := delete id (qg_inFlightKey x) |>).
  destruct (in_flight_forget x id key Hid) as [Hfl Hsz]. fold x1 in Hfl, Hsz.
  change (qg_activeByKey x1) with (qg_activeByKey x). fold (active x key).
  pose proof (Hc key) as Hck.
  assert (Hnn : ∀ k, 0 <= active x k) by (intros k; specialize (Hc k); lia).
  destruct (Z.leb_spec (active x key - 1) 0) as [Hz|Hz]; split.
  - intros k. change (in_flight _ k) with (in_flight x1 k). unfold active. rsimpl.
    rewrite lookup_delete. case_decide as E; subst; simpl; [unfold active in *; lia|].
    rewrite Hfl, decide_False by congruence. apply Hc.
  - intros Hpos k. unfold active. rsimpl. rewrite lookup_delete.
    case_decide; [simpl; lia|by apply Hl].
  - intros id'. rsimpl. rewrite lookup_delete. case_decide; [done|apply Hn].
  - intros k. change (in_flight _ k) with (in_flight x1 k). unfold active. rsimpl.
    rewrite lookup_insert. case_decide as E; subst; simpl; [unfold active in *; lia|].
    rewrite Hfl, decide_False by congruence. apply Hc.
  - intros Hpos k. unfold active. rsimpl. rewrite lookup_insert.
    case_decide as E; subst; simpl; [specialize (Hl Hpos k); unfold active in Hl; lia|by apply Hl].
  - intros id'. rsimpl. rewrite lookup_delete. case_decide; [done|apply Hn].
Qed.
End Grain.
