(* ===== verification/RoundRobin.v ===== *)
(** * Smooth weighted round-robin (selectWeightedGateway in queue_grain.go)

    The selection is specified with exact integers, and agrees with the 32-bit
    code while the accumulators stay in range. Over one round of as many picks
    as the weights add up to, every eligible gateway is picked exactly as often
    as its weight says. *)

From S2P Require Import Prelude Proto Messages QueueGrain.
Local Open Scope Z_scope.
Implicit Types (g : gatewayCredits) (gs : list gatewayCredits).

Section RoundRobin.
(** Eligibility does not look at the accumulator. *)
Variable eligible : gatewayCredits → bool.
Hypothesis eligible_frame : ∀ g w, eligible (g <| gw_currentWeight := w |>) = eligible g.

(** Sums over the eligible gateways. *)
Definition esum (f : gatewayCredits → Z) gs : Z :=
  foldr (λ g acc, (if eligible g then f g else 0) + acc) 0 gs.

Lemma esum_cons f g gs : esum f (g :: gs) = (if eligible g then f g else 0) + esum f gs.
Proof. done. Qed.

Definition weights gs : Z := esum gw_weight gs.
Definition accumulators gs : Z := esum gw_currentWeight gs.

Definition bump g : gatewayCredits :=
  if eligible g then g <| gw_currentWeight := gw_currentWeight g + gw_weight g |> else g.

(** Eligible gateways have a positive weight and an accumulator that one round
    cannot carry out of 32 bits. *)
Definition fits (bound : Z) g : Prop :=
  eligible g = true → 1 <= gw_weight g ∧ - bound < gw_currentWeight g < 2 ^ 31 - bound.

Lemma bump_eligible g : eligible (bump g) = eligible g.
Proof. unfold bump. destruct (eligible g) eqn:E; [by rewrite eligible_frame|done]. Qed.

Lemma bump_weight g : gw_weight (bump g) = gw_weight g.
Proof. unfold bump. by destruct (eligible g). Qed.

Lemma weights_nonneg bound gs : Forall (fits bound) gs → 0 <= weights gs.
Proof.
  unfold weights. induction 1 as [|g gs Hg Hgs IH]; simpl; [lia|].
  destruct (eligible g) eqn:E; [destruct (Hg E)|]; lia.
Qed.

Lemma weights_elem bound gs g : Forall (fits bound) gs → g ∈ gs → eligible g = true →
  gw_weight g <= weights gs.
Proof.
  unfold weights. induction 1 as [|g' gs Hg Hgs IH]; [by intros ?%elem_of_nil|].
  intros [->|Hin]%elem_of_cons E; simpl.
  - rewrite E. pose proof (weights_nonneg _ _ Hgs). unfold weights in *. lia.
  - destruct (eligible g') eqn:E'; [destruct (Hg E')|]; specialize (IH Hin E); lia.
Qed.

(** ** The loop, exactly *)

(** The selection over accumulators already advanced. *)
Fixpoint best (index : nat) gs (selected : option (nat * Z)) : option (nat * Z) :=
  match gs with
  | [] => selected
  | g :: rest =>
      best (S index) rest
        (if eligible g then
           match selected with
           | None => Some (index, gw_currentWeight g)
           | Some (_, v) => if v <? gw_currentWeight g then Some (index, gw_currentWeight g) else selected
           end
         else selected)
  end.

Lemma advance_exact bound index gs selected total :
  Forall (fits bound) gs → 0 <= total → total + weights gs <= bound → bound < 2 ^ 30 →
  advance eligible index gs selected total =
    (bump <$> gs, best index (bump <$> gs) selected, total + weights gs).
Proof.
  intros Hgs. revert index selected total.
  induction Hgs as [|g gs Hg Hgs IH]; intros index selected total Ht Hb Hb'.
  { cbn. unfold weights. simpl. by rewrite Z.add_0_r. }
  rewrite fmap_cons. cbn [advance best]. rewrite bump_eligible.
  unfold weights in *. cbn [esum foldr] in *. fold (esum gw_weight gs) in *.
  destruct (eligible g) eqn:E; cbn [negb].
  - destruct (Hg E) as [Hw Hc]. pose proof (weights_nonneg _ _ Hgs) as Hnn. unfold weights in Hnn.
    assert (Hbump : bump g = g <| gw_currentWeight := gw_currentWeight g + gw_weight g |>)
      by (unfold bump; by rewrite E).
    assert (H1 : wrap32 (gw_currentWeight g + gw_weight g) = gw_currentWeight g + gw_weight g).
    { apply wrap32_id. unfold int32_range. lia. }
    assert (H2 : wrap32 (total + gw_weight g) = total + gw_weight g).
    { apply wrap32_id. unfold int32_range. lia. }
    rewrite Hbump, H1. cbn [gw_weight gw_currentWeight set]. rewrite H2, IH by lia.
    by rewrite Z.add_assoc.
  - rewrite IH by lia. assert (bump g = g) as -> by (unfold bump; by rewrite E). done.
Qed.

Lemma best_spec index gs selected :
  match best index gs selected with
  | None => selected = None ∧ Forall (λ g, eligible g = false) gs
  | Some (i, v) =>
      (selected = Some (i, v) ∨
       ∃ k g, i = (index + k)%nat ∧ gs !! k = Some g ∧ eligible g = true ∧ v = gw_currentWeight g) ∧
      (∀ g, g ∈ gs → eligible g = true → gw_currentWeight g <= v) ∧
      (∀ i' v', selected = Some (i', v') → v' <= v)
  end.
Proof.
  revert index selected. induction gs as [|g gs IH]; intros index selected; cbn [best].
  { destruct selected as [[i v]|]; [|done]. split; [by left|]. split; [set_solver|].
    intros i' v' [= <- <-]. lia. }
  set (sel := if eligible g then _ else _). specialize (IH (S index) sel).
  destruct (best (S index) gs sel) as [[i v]|] eqn:E.
  - destruct IH as (Hfrom & Hmax & Hsel).
    assert (Hg : eligible g = true → gw_currentWeight g <= v).
    { intros Hg. unfold sel in Hsel. rewrite Hg in Hsel. destruct selected as [[i0 v0]|].
      - destruct (Z.ltb_spec v0 (gw_currentWeight g)); [by eapply Hsel|].
        specialize (Hsel _ _ eq_refl). lia.
      - by eapply Hsel. }
    split_and!.
    + destruct Hfrom as [Hs|(k & g' & -> & Hk & He & ->)].
      * unfold sel in Hs. destruct (eligible g) eqn:Hg'; [|by left].
        destruct selected as [[i0 v0]|]; [destruct (v0 <? gw_currentWeight g); [|by left]|];
          (injection Hs as <- <-; right; exists 0%nat, g; split_and!; [lia|done..]).
      * right. exists (S k), g'. split_and!; [lia|done..].
    + intros g' [->|Hin]%elem_of_cons; auto.
    + intros i' v' ->. unfold sel in Hsel. destruct (eligible g); [|by eapply Hsel].
      destruct (Z.ltb_spec v' (gw_currentWeight g)); [|by eapply Hsel].
      specialize (Hsel _ _ eq_refl). lia.
  - destruct IH as [Hs Hall]. unfold sel in Hs. destruct (eligible g) eqn:Hg.
    + destruct selected as [[i0 v0]|]; [destruct (v0 <? _)|]; done.
    + split; [done|]. by constructor.
Qed.

(** ** One pick *)

(** The gateways after [index] has been picked. *)
Definition picked (index : nat) gs : list gatewayCredits :=
  alter (λ g, g <| gw_currentWeight := gw_currentWeight g - weights gs |>) index (bump <$> gs).

Lemma esum_bump gs : accumulators (bump <$> gs) = accumulators gs + weights gs.
Proof.
  unfold accumulators, weights. induction gs as [|g gs IH]; [done|].
  rewrite fmap_cons, !esum_cons, IH, bump_eligible. unfold bump.
  destruct (eligible g); rsimpl; lia.
Qed.

Lemma weights_bump gs : weights (bump <$> gs) = weights gs.
Proof.
  unfold weights. induction gs as [|g gs IH]; [done|].
  by rewrite fmap_cons, !esum_cons, IH, bump_eligible, bump_weight.
Qed.

Lemma esum_alter index gs g d :
  gs !! index = Some g → eligible g = true →
  accumulators (alter (λ g, g <| gw_currentWeight := gw_currentWeight g - d |>) index gs) =
    accumulators gs - d ∧
  weights (alter (λ g, g <| gw_currentWeight := gw_currentWeight g - d |>) index gs) = weights gs.
Proof.
  unfold accumulators, weights. revert index.
  induction gs as [|g' gs IH]; intros [|index] Hg He; try done.
  - injection Hg as ->. cbn [alter list_alter]. rewrite !esum_cons, eligible_frame, He.
    rsimpl. split; [lia|done].
  - change (alter ?f (S index) (g' :: gs)) with (g' :: alter f index gs). rewrite !esum_cons.
    destruct (IH index Hg He) as [-> ->]. split; [lia|done].
Qed.

(** The exact selection: an eligible gateway whose advanced accumulator is the
    largest. *)
Lemma selectWeightedGateway_exact bound gs :
  Forall (fits bound) gs → weights gs <= bound → bound < 2 ^ 30 →
  (∃ g, g ∈ gs ∧ eligible g = true) →
  ∃ index g, selectWeightedGateway eligible gs = (picked index gs, Some index) ∧
    gs !! index = Some g ∧ eligible g = true ∧
    ∀ g', g' ∈ gs → eligible g' = true →
      gw_currentWeight g' + gw_weight g' <= gw_currentWeight g + gw_weight g.
Proof.
  intros Hgs Hw Hb (g0 & Hg0 & He0). unfold selectWeightedGateway.
  rewrite (advance_exact bound) by (done || lia). rewrite Z.add_0_l.
  pose proof (best_spec 0 (bump <$> gs) None) as Hbest.
  destruct (best 0 (bump <$> gs) None) as [[index v]|]; cycle 1.
  { destruct Hbest as [_ Hall]. rewrite Forall_forall in Hall.
    specialize (Hall (bump g0)). rewrite bump_eligible in Hall.
    rewrite Hall in He0; [done|]. apply list_elem_of_fmap. eauto. }
  destruct Hbest as ([?|(k & gb & -> & Hk & Heb & ->)] & Hmax & _); [done|].
  rewrite list_lookup_fmap in Hk. destruct (gs !! k) as [g|] eqn:Hg; [|done].
  injection Hk as <-. rewrite bump_eligible in Heb. exists k, g. rewrite Nat.add_0_l.
  assert (Hgin : g ∈ gs) by (by eapply list_elem_of_lookup_2).
  split_and!; [|done|done|].
  - f_equal. unfold picked.
    apply list_eq. intros j. rewrite !list_lookup_alter.
    destruct (decide (k = j)) as [<-|Hne]; [|done].
    rewrite list_lookup_fmap, Hg. simpl. f_equal. unfold bump. rewrite Heb. rsimpl.
    rewrite wrap32_id; [done|]. unfold int32_range.
    rewrite Forall_forall in Hgs. destruct (Hgs g Hgin Heb) as [? ?].
    assert (gw_weight g <= weights gs) by (eapply weights_elem; [by apply Forall_forall|done..]).
    pose proof (weights_nonneg bound gs ltac:(by apply Forall_forall)). lia.
  - intros g' Hg' He'. specialize (Hmax (bump g')). rewrite bump_eligible in Hmax.
    specialize (Hmax ltac:(apply list_elem_of_fmap; eauto) He').
    unfold bump in Hmax. rewrite He', Heb in Hmax. done.
Qed.

(** ** A round of picks *)

(** [n] picks in a row: the positions picked, oldest first, and the gateways. *)
Fixpoint picks (n : nat) gs : list nat * list gatewayCredits :=
  match n with
  | O => ([], gs)
  | S n =>
      let '(l, gs) := picks n gs in
      match selectWeightedGateway eligible gs with
      | (gs, Some index) => (l ++ [index], gs)
      | (gs, None) => (l, gs)
      end
  end.

Definition times (index : nat) (l : list nat) : Z := Z.of_nat (count_occ Nat.eq_dec l index).

Lemma times_snoc index l i : times index (l ++ [i]) = times index l + (if decide (i = index) then 1 else 0).
Proof.
  unfold times. rewrite count_occ_app. simpl.
  destruct (Nat.eq_dec i index); case_decide; try lia; congruence.
Qed.

Lemma accumulators_positive gs :
  0 < accumulators gs → ∃ g, g ∈ gs ∧ eligible g = true ∧ 0 < gw_currentWeight g.
Proof.
  unfold accumulators. induction gs as [|g gs IH]; [done|]. rewrite esum_cons. intros H.
  destruct (eligible g) eqn:E.
  - destruct (Z.le_gt_cases (gw_currentWeight g) 0).
    + destruct IH as (g' & ? & ?); [lia|]. exists g'. set_solver.
    + exists g. split_and!; [set_solver|done|lia].
  - destruct IH as (g' & ? & ?); [lia|]. exists g'. set_solver.
Qed.

Lemma accumulators_zero gs :
  accumulators gs = 0 → (∀ g, g ∈ gs → eligible g = true → 0 <= gw_currentWeight g) →
  ∀ g, g ∈ gs → eligible g = true → gw_currentWeight g = 0.
Proof.
  intros H Hnn g Hg He. unfold accumulators in *.
  assert (Hpos : ∀ gs', (∀ g, g ∈ gs' → eligible g = true → 0 <= gw_currentWeight g) →
    0 <= esum gw_currentWeight gs').
  { induction gs' as [|g' gs' IH]; intros Hall; [done|]. rewrite esum_cons.
    specialize (IH ltac:(set_solver)).
    destruct (eligible g') eqn:E; [specialize (Hall g' ltac:(set_solver) E)|]; lia. }
  induction gs as [|g' gs IH]; [by apply elem_of_nil in Hg|]. rewrite esum_cons in H.
  pose proof (Hpos gs ltac:(set_solver)) as Hrest. pose proof (Hnn g' ltac:(set_solver)) as Hg'.
  apply elem_of_cons in Hg as [->|Hg].
  { rewrite He in H. specialize (Hg' He). lia. }
  apply IH; [|set_solver|done]. destruct (eligible g'); [specialize (Hg' eq_refl)|]; lia.
Qed.

(** The state after [n] picks from zero accumulators. *)
Record round_state gs0 (n : nat) (l : list nat) gs : Prop := {
  rd_length : length l = n;
  rd_gateways : gs = imap (λ j g, if eligible g then
      g <| gw_currentWeight := Z.of_nat n * gw_weight g - weights gs0 * times j l |> else g) gs0;
  rd_eligible : ∀ j, j ∈ l → ∃ g, gs0 !! j = Some g ∧ eligible g = true;
  rd_sum : accumulators gs = 0 ∧ weights gs = weights gs0;
  rd_lower : ∀ g, g ∈ gs → eligible g = true → - weights gs0 < gw_currentWeight g }.

(** Fresh gateways: zero accumulators and positive weights. *)
Definition fresh_gateways gs : Prop :=
  Forall (λ g, eligible g = true → gw_currentWeight g = 0 ∧ 1 <= gw_weight g) gs.

Lemma round_start gs0 :
  fresh_gateways gs0 → 0 < weights gs0 → round_state gs0 0 [] gs0.
Proof.
  intros Hf Hw. unfold fresh_gateways in Hf. rewrite Forall_forall in Hf. split.
  - done.
  - apply list_eq. intros j. rewrite list_lookup_imap.
    destruct (gs0 !! j) as [g|] eqn:Hg; [|done]. simpl. f_equal.
    destruct (eligible g) eqn:E; [|done].
    destruct (Hf g (list_elem_of_lookup_2 _ _ _ Hg) E) as [Hz _].
    destruct g; cbn in *. unfold times. simpl. f_equal. lia.
  - intros j []%elem_of_nil.
  - split; [|done]. unfold accumulators.
    assert (∀ gs, (∀ g, g ∈ gs → eligible g = true → gw_currentWeight g = 0) →
      esum gw_currentWeight gs = 0) as Hz.
    { induction gs as [|g gs IH]; intros Hall; [done|]. rewrite esum_cons, IH by set_solver.
      destruct (eligible g) eqn:E; [|done]. rewrite (Hall g) by set_solver. done. }
    apply Hz. intros g Hg He. by apply Hf.
  - intros g Hg He. destruct (Hf g Hg He). lia.
Qed.

Lemma round_fits gs0 n l gs :
  fresh_gateways gs0 → weights gs0 <= 2 ^ 15 → Z.of_nat n <= weights gs0 →
  round_state gs0 n l gs → Forall (fits (weights gs0)) gs.
Proof.
  intros Hf HW Hn [Hlen Hgs Hel Hsum Hlow]. apply Forall_forall. intros g Hg He.
  pose proof (Hlow g Hg He) as Hl. rewrite Hgs in Hg.
  apply list_elem_of_lookup in Hg as [j Hj]. rewrite list_lookup_imap in Hj.
  destruct (gs0 !! j) as [g0|] eqn:Hg0; [|done]. injection Hj as Hj.
  unfold fresh_gateways in Hf. rewrite Forall_forall in Hf.
  apply list_elem_of_lookup_2 in Hg0.
  destruct (eligible g0) eqn:E0; [|by subst; rewrite E0 in He].
  destruct (Hf g0 Hg0 E0) as [_ Hw]. subst g. cbn [gw_weight gw_currentWeight set] in *.
  assert (gw_weight g0 <= weights gs0).
  { apply (weights_elem 1); [|done|done]. apply Forall_forall. intros g' Hg' Hg''.
    destruct (Hf g' Hg' Hg''). lia. }
  assert (0 <= weights gs0 * times j l) by (unfold times; nia).
  split; [done|]. split; [lia|]. nia.
Qed.

Lemma round_step gs0 n l gs :
  fresh_gateways gs0 → 0 < weights gs0 <= 2 ^ 15 → Z.of_nat n < weights gs0 →
  round_state gs0 n l gs →
  ∃ index, selectWeightedGateway eligible gs = (picked index gs, Some index) ∧
    round_state gs0 (S n) (l ++ [index]) (picked index gs).
Proof.
  intros Hf HW Hn Hrd. pose proof (round_fits gs0 n l gs Hf ltac:(lia) ltac:(lia) Hrd) as Hfit.
  destruct Hrd as [Hlen Hgs Hel [Hsum Hws] Hlow].
  destruct (accumulators_positive (bump <$> gs)) as (gp & Hgp & Hep & Hpos).
  { rewrite esum_bump. lia. }
  apply list_elem_of_fmap in Hgp as (g1 & -> & Hg1). rewrite bump_eligible in Hep.
  destruct (selectWeightedGateway_exact (weights gs0) gs Hfit ltac:(lia) ltac:(lia))
    as (index & g & Hsel & Hg & He & Hmax); [by eauto|].
  exists index. split; [done|].
  assert (Hbest : 1 <= gw_currentWeight g + gw_weight g).
  { specialize (Hmax g1 Hg1 Hep). unfold bump in Hpos. rewrite Hep in Hpos.
    cbn [gw_currentWeight set] in Hpos. lia. }
  assert (Hgb : (bump <$> gs) !! index = Some (bump g)) by (by rewrite list_lookup_fmap, Hg).
  assert (Hlook : ∀ j, picked index gs !! j = (λ g, if eligible g then
      g <| gw_currentWeight := gw_currentWeight g + gw_weight g -
             (if decide (index = j) then weights gs0 else 0) |> else g) <$> gs !! j).
  { intros j. unfold picked. rewrite list_lookup_alter, !list_lookup_fmap, Hws.
    destruct (decide (index = j)) as [<-|Hne].
    - rewrite Hg. simpl. unfold bump. by rewrite He.
    - destruct (gs !! j) as [g'|]; [|done]. simpl. unfold bump.
      destruct (eligible g'); [|done]. by rewrite Z.sub_0_r. }
  split.
  - rewrite length_app. simpl. lia.
  - apply list_eq. intros j. rewrite Hlook, Hgs, !list_lookup_imap.
    destruct (gs0 !! j) as [g0|]; [|done]. cbn [fmap option_fmap option_map]. f_equal.
    destruct (eligible g0) eqn:E; [|by rewrite E].
    rewrite eligible_frame, E. destruct g0; cbn. f_equal. rewrite times_snoc.
    destruct (decide (index = j)); lia.
  - intros j [Hj|Hj%list_elem_of_singleton]%elem_of_app; [by apply Hel|]. subst j.
    rewrite Hgs, list_lookup_imap in Hg. destruct (gs0 !! index) as [g0|]; [|done].
    exists g0. split; [done|]. injection Hg as <-. destruct (eligible g0) eqn:E; [done|congruence].
  - unfold picked. rewrite <- (bump_eligible g) in He.
    destruct (esum_alter index _ _ (weights gs) Hgb He) as [-> ->].
    rewrite esum_bump, weights_bump. lia.
  - intros g' Hg' He'. apply list_elem_of_lookup in Hg' as [j Hj]. rewrite Hlook in Hj.
    destruct (gs !! j) as [g2|] eqn:Hg2; [|done]. injection Hj as <-.
    destruct (eligible g2) eqn:E2; [|congruence]. cbn [gw_currentWeight set].
    destruct (decide (index = j)) as [<-|Hne].
    + assert (g2 = g) as -> by congruence. lia.
    + rewrite Forall_forall in Hfit. pose proof (list_elem_of_lookup_2 _ _ _ Hg2) as Hin.
      destruct (Hfit g2 Hin E2) as [? ?]. lia.
Qed.

Lemma picks_round gs0 n :
  fresh_gateways gs0 → 0 < weights gs0 <= 2 ^ 15 → Z.of_nat n <= weights gs0 →
  round_state gs0 n (picks n gs0).1 (picks n gs0).2.
Proof.
  intros Hf HW. induction n as [|n IH]; intros Hn; [apply round_start; [exact Hf|exact (proj1 HW)]|].
  specialize (IH ltac:(lia)). cbn [picks]. destruct (picks n gs0) as [l gs]. cbn [fst snd] in IH.
  destruct (round_step gs0 n l gs Hf HW ltac:(lia) IH) as (index & -> & Hrd). done.
Qed.

(** After a full round every eligible gateway has had its weight in picks. *)
Lemma picks_proportional gs0 :
  fresh_gateways gs0 → 0 < weights gs0 <= 2 ^ 15 →
  let r := picks (Z.to_nat (weights gs0)) gs0 in
  r.2 = gs0 ∧ Z.of_nat (length r.1) = weights gs0 ∧
  ∀ j g, gs0 !! j = Some g → times j r.1 = if eligible g then gw_weight g else 0.
Proof.
  intros Hf HW.
  assert (Hn : Z.of_nat (Z.to_nat (weights gs0)) = weights gs0) by (apply Z2Nat.id; lia).
  pose proof (picks_round gs0 (Z.to_nat (weights gs0)) Hf HW (Z.eq_le_incl _ _ Hn)) as Hrd.
  cbv zeta. destruct (picks _ gs0) as [l gs]. cbn [fst snd] in *.
  destruct Hrd as [Hlen Hgs Hel [Hsum _] Hlow]. rewrite Hn in Hgs.
  unfold fresh_gateways in Hf. rewrite Forall_forall in Hf.
  assert (Hin : ∀ j g, gs0 !! j = Some g → eligible g = true →
    g <| gw_currentWeight := weights gs0 * gw_weight g - weights gs0 * times j l |> ∈ gs).
  { intros j g Hg He. rewrite Hgs. apply list_elem_of_lookup. exists j.
    rewrite list_lookup_imap, Hg. simpl. by rewrite He. }
  assert (Hexact : ∀ j g, gs0 !! j = Some g → eligible g = true → times j l = gw_weight g).
  { intros j g Hg He. pose proof (Hin j g Hg He) as Hgin.
    assert (Hz : gw_currentWeight
      (g <| gw_currentWeight := weights gs0 * gw_weight g - weights gs0 * times j l |>) = 0).
    { apply (accumulators_zero gs Hsum); [|done|by rewrite eligible_frame].
      intros g' Hg' He'. rewrite Hgs in Hg'. apply list_elem_of_lookup in Hg' as [j' Hj'].
      rewrite list_lookup_imap in Hj'. destruct (gs0 !! j') as [g0|] eqn:Hg0; [|done].
      injection Hj' as <-. destruct (eligible g0) eqn:E0; [|congruence].
      pose proof (Hlow _ (Hin j' g0 Hg0 E0) He') as Hl.
      cbn [gw_currentWeight set] in *. rewrite <- Z.mul_sub_distr_l in *.
      apply Z.mul_nonneg_nonneg; [lia|].
      destruct (Z.le_gt_cases 0 (gw_weight g0 - times j' l)); [done|].
      pose proof (Z.mul_le_mono_nonneg_l (gw_weight g0 - times j' l) (-1) (weights gs0)). lia. }
    cbn [gw_currentWeight set] in Hz. nia. }
  split_and!.
  - rewrite Hgs. apply list_eq. intros j. rewrite list_lookup_imap.
    destruct (gs0 !! j) as [g|] eqn:Hg; [|done]. simpl. f_equal.
    destruct (eligible g) eqn:E; [|done]. rewrite (Hexact j g Hg E).
    destruct (Hf g (list_elem_of_lookup_2 _ _ _ Hg) E) as [Hz _].
    destruct g; cbn in *. f_equal. lia.
  - lia.
  - intros j g Hg. destruct (eligible g) eqn:E; [by apply Hexact|].
    unfold times. rewrite (proj1 (count_occ_not_In Nat.eq_dec l j)); [done|].
    intros Hj%list_elem_of_In. destruct (Hel j Hj) as (g' & Hg' & E'). congruence.
Qed.
End RoundRobin.
