(* ===== verification/QueueGrainProps.v ===== *)
(** * The queue grain: the properties

    The invariant of every turn, the fate of every leased task, the bounds of a
    lease cycle, the silence of a paused queue, and proportional dispatch. *)

From S2P Require Import Prelude Proto Messages QueueGrain QueueGrainInv RoundRobin Backoff.
From Stdlib Require Import Floats.SpecFloat Strings.Byte.
Local Open Scope Z_scope.

Section Grain.
Context {RL : RateLimiter}.
Implicit Types (x : QueueGrain) (t : Turn) (sys : System).

(** ** The invariant of a turn *)

Record grain_ok (limit : Z) x : Prop := {
  go_gateways : gateways_ok (qg_gateways x);
  go_keys : keys_ok limit x;
  go_limit : qg_concurrencyLimit x = limit }.

(** Changes that touch neither the gateways nor the keys nor the limit. *)
Lemma grain_ok_frame limit x x' :
  qg_gateways x' = qg_gateways x → qg_inFlightKey x' = qg_inFlightKey x →
  qg_activeByKey x' = qg_activeByKey x → qg_concurrencyLimit x' = qg_concurrencyLimit x →
  grain_ok limit x → grain_ok limit x'.
Proof.
  intros Hg Hi Ha Hl [Hgo Hk Hlim]. split; [by rewrite Hg| |congruence].
  by apply (keys_ok_frame _ x).
Qed.

Ltac grain_frame := eapply grain_ok_frame; [..|eassumption]; done.

(** Changes to the gateways only. *)
Lemma grain_ok_gateways limit x gs :
  gateways_ok gs → grain_ok limit x → grain_ok limit (x <| qg_gateways := gs |>).
Proof. intros Hgs [_ Hk Hl]. split; [done| |done]. by apply (keys_ok_frame _ x). Qed.

(** The arguments the senders validate: capacities and credit grants are
    non-negative and far from the 32-bit bound. *)
Definition admissible (m : grainMessage) : Prop :=
  match m with
  | MRegisterGateway r => 0 <= rg_Capacity r < 2 ^ 30
  | MGatewayCredit c => 0 <= gcr_Credits c < 2 ^ 30
  | _ => True
  end.

Lemma maybeLease_frame sys t :
  let x := tn_grain t in let x' := tn_grain (maybeLease sys t) in
  qg_gateways x' = qg_gateways x ∧ qg_inFlightKey x' = qg_inFlightKey x ∧
  qg_activeByKey x' = qg_activeByKey x ∧ qg_concurrencyLimit x' = qg_concurrencyLimit x ∧
  qg_paused x' = qg_paused x.
Proof.
  cbv zeta. unfold maybeLease, startLease. repeat case_match; done.
Qed.

Lemma maybeLease_ok limit sys t :
  grain_ok limit (tn_grain t) → grain_ok limit (tn_grain (maybeLease sys t)).
Proof. destruct (maybeLease_frame sys t) as (? & ? & ? & ? & _). by apply grain_ok_frame. Qed.

Lemma register_ok m x limit :
  0 <= rg_Capacity m < 2 ^ 30 → grain_ok limit x → grain_ok limit (registerGateway m x).
Proof.
  intros Hc Hok. unfold registerGateway. case_match eqn:E; apply grain_ok_gateways; try done.
  - apply update_gateway_ok; [..|apply Hok].
    + intros g. unfold refreshGateway. by repeat case_match.
    + intros g [Hcr Hcap Hw]. unfold refreshGateway.
      cbn [gw_capacity gw_weight gw_credits set].
      destruct (Z.ltb_spec (rg_Capacity m) (gw_capacity g)); [split; rsimpl; lia|].
      destruct (Z.ltb_spec (gw_capacity g) (rg_Capacity m)); split; rsimpl; try lia.
      rewrite wrap32_id by (unfold int32_range; lia). lia.
  - destruct (go_gateways _ _ Hok) as [Hnd Hall]. split.
    + rewrite fmap_app. apply NoDup_app. split_and!; [done| |apply NoDup_singleton].
      intros n Hn ->%list_elem_of_singleton. apply list_elem_of_fmap in Hn as (g & Heq & Hg).
      rewrite <- not_true_iff_false in E. apply E, existsb_exists. exists g.
      rewrite <- list_elem_of_In. split; [done|]. by apply bool_decide_true.
    + apply Forall_app. split; [done|]. constructor; [|constructor]. split; rsimpl; lia.
Qed.

Lemma pick_ok limit x (e : gatewayCredits → bool) :
  grain_ok limit x →
  grain_ok limit (x <| qg_gateways := (selectWeightedGateway e (qg_gateways x)).1 |>).
Proof.
  intros Hok. apply grain_ok_gateways; [|done].
  eapply gateways_ok_identity; [apply select_identity|apply Hok].
Qed.

(** The gateway a pick returns has a credit to spend, before and after the
    accumulators move. *)
Lemma pick_credit (e : gatewayCredits → bool) gs i :
  (∀ g, e g = true → hasCredit g = true) → (selectWeightedGateway e gs).2 = Some i →
  ∃ g, (selectWeightedGateway e gs).1 !! i = Some g ∧ 0 < gw_credits g.
Proof.
  intros He Hs. destruct (select_eligible _ _ _ Hs) as (g & Hg & Heg).
  pose proof (f_equal (.!! i) (select_identity e gs)) as Hid. cbn beta in Hid.
  rewrite !list_lookup_fmap, Hg in Hid.
  destruct ((selectWeightedGateway e gs).1 !! i) as [g'|]; [|done]. exists g'.
  split; [done|]. unfold identity in Hid. simpl in Hid. injection Hid as _ _ Hc _ _.
  apply He, Z.ltb_lt in Heg. lia.
Qed.

Lemma spend_ok limit x i g :
  qg_gateways x !! i = Some g → 0 < gw_credits g → grain_ok limit x →
  grain_ok limit (spendCredit i x).
Proof.
  intros Hg Hc Hok. apply grain_ok_gateways; [|done]. eapply alter_credit_ok; eauto. apply Hok.
Qed.

Lemma dispatchOne_ok limit sys lid exp c task :
  grain_ok limit (tn_grain (cy_turn c)) →
  grain_ok limit (tn_grain (cy_turn (dispatchOne sys lid exp c task))).
Proof.
  intros Hok. unfold dispatchOne. set (x := tn_grain (cy_turn c)) in *.
  set (key := opt_ConcurrencyKey (GetOptions task)).
  set (holds := negb _ && bool_decide _).
  destruct (negb (bool_decide (key = "")) && negb holds && _ && _) eqn:Hsat; [done|].
  unfold pickGateway.
  pose proof (pick_ok limit x hasCredit Hok) as Hpick.
  pose proof (pick_credit hasCredit (qg_gateways x)) as Hcred.
  destruct (selectWeightedGateway hasCredit (qg_gateways x)) as [gs picked]. cbn [fst snd] in *.
  destruct picked as [i|]; [|done].
  destruct (Hcred i ltac:(auto) eq_refl) as (g & Hg & Hgc).
  destruct (negb (sys_tell_ok _ _ _)); cbn [cy_turn].
  { apply grain_ok_gateways; [|done]. apply remove_first_ok, Hpick. }
  unfold on_counters, on_grain, send. rsimpl.
  pose proof (spend_ok limit (x <| qg_gateways := gs |>) i g Hg Hgc Hpick) as Hsp. unfold spendCredit in *. rsimpl. rsimpl in Hsp.
  destruct Hsp as [Hgo Hk Hl]. destruct Hok as [_ Hko Hlx].
  assert (Hroom : key ≠ "" → default "" (qg_inFlightKey x !! env_Id task) ≠ key →
    0 < limit → active x key < limit).
  { intros Hk1 Hk2 Hpos. unfold holds in Hsat.
    rewrite (bool_decide_false (key = "")), (bool_decide_false (_ = key)) in Hsat by done.
    rewrite Hlx, (proj2 (Z.ltb_lt 0 limit)) in Hsat by done. cbn [negb andb] in Hsat.
    apply Z.leb_gt in Hsat. unfold active. lia. }
  split.
  - unfold reserveKey. by repeat case_match.
  - apply (keys_ok_reserve limit _ (env_Id task) key Hk). done.
  - unfold reserveKey. repeat case_match; done.
Qed.

Lemma dispatch_loop_ok limit sys lid exp tasks c :
  grain_ok limit (tn_grain (cy_turn c)) →
  grain_ok limit (tn_grain (cy_turn (foldl (dispatchOne sys lid exp) c tasks))).
Proof.
  revert c. induction tasks as [|task tasks IH]; intros c Hok; [done|]. cbn [foldl].
  apply IH. by apply dispatchOne_ok.
Qed.

Lemma releaseLeased_grain sys lid tasks t : tn_grain (releaseLeased sys lid tasks t) = tn_grain t.
Proof. unfold releaseLeased. by case_match. Qed.

Lemma finishLeaseCycle_ok limit sys m t :
  grain_ok limit (tn_grain t) → grain_ok limit (tn_grain (finishLeaseCycle sys m t)).
Proof.
  intros Hok. unfold finishLeaseCycle.
  set (t1 := on_grain _ t). assert (Hok1 : grain_ok limit (tn_grain t1)) by (grain_frame).
  case_match; [done|]. destruct (decide (lc_Tasks m = [])); [done|].
  case_match; [by rewrite releaseLeased_grain|].
  pose proof (dispatch_loop_ok limit sys (lc_LeaseId m) (lc_LeaseExpiresAt m) (lc_Tasks m)
    (mkCycle t1 [] false) Hok1) as Hloop.
  set (c := foldl _ _ _) in *. clearbody c.
  set (t2 := if cy_saturated c then _ else _).
  assert (Hok2 : grain_ok limit (tn_grain t2)) by (unfold t2; by case_match).
  clearbody t2. set (t3 := match qg_limiter _ with Some _ => _ | None => _ end).
  assert (Hok3 : grain_ok limit (tn_grain t3)).
  { unfold t3. case_match; [|done]. case_match; [|done]. grain_frame. }
  clearbody t3. set (t4 := if 0 <? Z.of_nat _ then _ else t3).
  assert (Hok4 : grain_ok limit (tn_grain t4)).
  { unfold t4. case_match; [by rewrite releaseLeased_grain|done]. }
  case_match; [by apply maybeLease_ok|done].
Qed.

Lemma takesBatch_credit ty g : takesBatch ty g = true → hasCredit g = true.
Proof. unfold takesBatch. by intros [? _]%andb_true_iff. Qed.

Lemma finishGroupLease_ok limit sys m t :
  grain_ok limit (tn_grain t) → grain_ok limit (tn_grain (finishGroupLease sys m t)).
Proof.
  intros Hok. unfold finishGroupLease. case_match; [done|].
  destruct (decide (gl_Tasks m = [])); [done|].
  unfold pickBatchGateway. set (x := tn_grain t) in *.
  pose proof (pick_ok limit x (takesBatch (gl_Type m)) Hok) as Hpick.
  pose proof (pick_credit (takesBatch (gl_Type m)) (qg_gateways x)) as Hcred.
  destruct (selectWeightedGateway _ (qg_gateways x)) as [gs picked]. cbn [fst snd] in *.
  destruct picked as [i|]; [|by rewrite releaseLeased_grain].
  destruct (Hcred i (takesBatch_credit _) eq_refl) as (g & Hg & Hgc).
  case_match; [by rewrite releaseLeased_grain|].
  case_match; [rewrite releaseLeased_grain|].
  - apply grain_ok_gateways; [|done]. apply remove_first_ok, Hpick.
  - exact (spend_ok limit (x <| qg_gateways := gs |>) i g Hg Hgc Hpick).
Qed.

Lemma fireGroup_ok limit sys m t :
  grain_ok limit (tn_grain t) → grain_ok limit (tn_grain (fireGroup sys m t)).
Proof.
  intros Hok. unfold fireGroup. case_match; [done|]. unfold pickBatchGateway.
  pose proof (pick_ok limit (tn_grain t) (takesBatch (fg_Type m)) Hok) as Hpick.
  destruct (selectWeightedGateway _ _) as [gs picked]. cbn [fst] in Hpick.
  repeat case_match; done.
Qed.

Lemma completions_ok limit name id x :
  grain_ok limit x →
  grain_ok limit (x <| qg_gateways := update_gateway name refill (qg_gateways x) |>) ∧
  grain_ok limit (releaseConcurrencyKey id x).
Proof.
  intros Hok. split.
  - apply grain_ok_gateways; [|done]. apply update_gateway_ok; [done|apply refill_ok|apply Hok].
  - destruct Hok as [Hg Hk Hl]. split; [|by apply keys_ok_release|];
      unfold releaseConcurrencyKey; by repeat case_match.
Qed.

Lemma broadcastCancel_grain id t : tn_grain (broadcastCancel id t) = tn_grain t.
Proof.
  unfold broadcastCancel. generalize (qg_gateways (tn_grain t)). intros gs.
  assert (Hgen : ∀ t0, tn_grain (foldl (λ t g, send (TellCancel (gw_name g) id) t) t0 gs) = tn_grain t0).
  { induction gs as [|g gs IH]; intros t0; [done|]. cbn [foldl]. by rewrite IH. }
  apply Hgen.
Qed.

(** Every turn but a change of the concurrency limit keeps the invariant. *)
Lemma OnReceive_ok limit sys m t :
  admissible m → (∀ n, m ≠ MConcurrencyLimitChanged n) → grain_ok limit (tn_grain t) →
  grain_ok limit (tn_grain (OnReceive sys m t)).
Proof.
  intros Ha Hm Hok. destruct m; cbn [OnReceive admissible] in *.
  - by apply maybeLease_ok.
  - by apply maybeLease_ok.
  - apply maybeLease_ok. unfold recordCompletion.
    destruct (tc_Success m); cbn [on_grain on_counters tn_grain set];
      apply (completions_ok limit (tc_GatewayName m) (tc_TaskId m));
      exact (proj1 (completions_ok limit (tc_GatewayName m) (tc_TaskId m) _ Hok)).
  - apply maybeLease_ok.
    exact (proj1 (completions_ok limit (bc_GatewayName m) "" _ Hok)).
  - by apply fireGroup_ok.
  - by apply finishGroupLease_ok.
  - apply maybeLease_ok. by apply register_ok.
  - apply grain_ok_gateways; [|done]. apply remove_first_ok, Hok.
  - apply maybeLease_ok, grain_ok_gateways; [|done].
    apply update_gateway_ok; [done| |apply Hok].
    intros g [Hc Hcap Hw]. split; rsimpl; [|done|done].
    rewrite wrap32_id by (unfold int32_range; lia). lia.
  - by apply finishLeaseCycle_ok.
  - done.
  - by rewrite broadcastCancel_grain.
  - unfold setPaused. case_match; [grain_frame|done].
  - apply maybeLease_ok. unfold setPaused. case_match; [grain_frame|done].
  - apply maybeLease_ok. eapply grain_ok_frame, Hok; unfold applyRateLimitChange;
      cbn [on_grain tn_grain set]; repeat case_match; done.
  - by destruct (Hm maxActive).
  - grain_frame.
Qed.

Lemma OnActivate_keys settings queue paused rate conc :
  let x := OnActivate settings queue paused rate conc in
  qg_inFlightKey x = ∅ ∧ qg_activeByKey x = ∅.
Proof. unfold OnActivate, loadConcurrencyLimit, loadRateLimit. repeat case_match; done. Qed.

Lemma OnActivate_ok settings queue paused rate conc :
  grain_ok (qg_concurrencyLimit (OnActivate settings queue paused rate conc))
    (OnActivate settings queue paused rate conc).
Proof.
  set (x := OnActivate settings queue paused rate conc).
  assert (Hg : qg_gateways x = [] ∧ qg_inFlightKey x = ∅ ∧ qg_activeByKey x = ∅).
  { unfold x, OnActivate, loadConcurrencyLimit, loadRateLimit. repeat case_match; done. }
  destruct Hg as (Hg & Hi & Ha). split; [|split|done].
  - rewrite Hg. split; constructor.
  - intros key. unfold in_flight, active. rewrite Hi, Ha, map_filter_empty, dom_empty_L, lookup_empty.
    done.
  - intros Hl key. unfold active. rewrite Ha, lookup_empty. simpl. lia.
  - intros id. by rewrite Hi, lookup_empty.
Qed.

(** A sequence of turns. *)
Definition turns (ms : list (System * grainMessage)) t : Turn :=
  foldl (λ t '(sys, m), OnReceive sys m t) t ms.

Lemma turns_ok limit ms t :
  Forall (λ p, admissible p.2 ∧ ∀ n, p.2 ≠ MConcurrencyLimitChanged n) ms →
  grain_ok limit (tn_grain t) → grain_ok limit (tn_grain (turns ms t)).
Proof.
  unfold turns. intros H. revert t. induction H as [|[sys m] ms [Ha Hm] _ IH]; intros t Hok; [done|].
  cbn [foldl]. apply IH. by apply OnReceive_ok.
Qed.

(** ** What a turn sends *)

(** The tasks handed to gateways one by one. *)
Definition executed (out : list grainEffect) : list TaskEnvelope :=
  omap (λ e, match e with TellExecute _ m => Some (et_Task m) | _ => None end) out.

(** The tasks handed back to the broker. *)
Definition released (out : list grainEffect) : list TaskEnvelope :=
  mjoin (omap (λ e, match e with PipeRelease _ ts => Some ts | _ => None end) out).

(** Work started or handed out: what a paused queue must not send. *)
Definition works (e : grainEffect) : bool :=
  match e with
  | TellExecute _ _ | TellBatch _ _ | PipeLease _ _ _ _ | PipeLeaseGroup _ _ _ _ _ _ => true
  | _ => false
  end.

Lemma executed_app o1 o2 : executed (o1 ++ o2) = executed o1 ++ executed o2.
Proof. apply omap_app. Qed.
Lemma released_app o1 o2 : released (o1 ++ o2) = released o1 ++ released o2.
Proof. unfold released. by rewrite omap_app, join_app. Qed.

(** A lease request adds one effect at most and hands out nothing. *)
Lemma maybeLease_out sys t :
  tn_out (maybeLease sys t) = tn_out t ∨
  tn_out (maybeLease sys t) = tn_out t ++ [CountRateLimited] ∨
  ∃ limit, tn_out (maybeLease sys t) = tn_out t ++
    [PipeLease limit (set_LeaseTTL (sys_settings sys)) (sys_newID sys)
       (time_Add (sys_now sys) (set_LeaseTTL (sys_settings sys)))] ∧
    qg_paused (tn_grain t) = false ∧ qg_leasing (tn_grain t) = false ∧
    qg_leasing (tn_grain (maybeLease sys t)) = true ∧
    totalCredits (tn_grain t) ≠ 0 ∧
    limit <= totalCredits (tn_grain t) ∧ limit <= set_LeaseBatchMax (sys_settings sys) ∧
    (∀ l, qg_limiter (tn_grain t) = Some l → limit <= TokensAt l (sys_now sys)) ∧
    (0 < totalCredits (tn_grain t) → 0 < set_LeaseBatchMax (sys_settings sys) → 0 < limit).
Proof.
  unfold maybeLease. destruct (qg_paused _ || qg_leasing _) eqn:E; [by left|].
  apply orb_false_iff in E as [Hp Hl].
  destruct (Z.eqb_spec (totalCredits (tn_grain t)) 0) as [|Hne]; [by left|].
  destruct (qg_limiter (tn_grain t)) as [l|] eqn:Hlim.
  - destruct (Z.leb_spec (TokensAt l (sys_now sys)) 0) as [|Htok].
    { destruct (qg_throttled _); [by left|by right; left]. }
    unfold startLease. destruct (sys_pipe_ok sys); [|by left]. right; right.
    eexists. split; [done|]. split_and!; try done; try lia. intros l' [= <-]. lia.
  - unfold startLease. destruct (sys_pipe_ok sys); [|by left]. right; right.
    eexists. split; [done|]. split_and!; try done; lia.
Qed.

Lemma maybeLease_fates sys t :
  executed (tn_out (maybeLease sys t)) = executed (tn_out t) ∧
  released (tn_out (maybeLease sys t)) = released (tn_out t).
Proof.
  destruct (maybeLease_out sys t) as [->|[->|(limit & -> & _)]]; [done|..];
    by rewrite executed_app, released_app, !app_nil_r.
Qed.

(** One task of the cycle is handed out or kept for release. *)
Lemma dispatchOne_fate sys lid exp c task :
  let c' := dispatchOne sys lid exp c task in
  released (tn_out (cy_turn c')) = released (tn_out (cy_turn c)) ∧
  qg_paused (tn_grain (cy_turn c')) = qg_paused (tn_grain (cy_turn c)) ∧
  ((cy_undeliverable c' = cy_undeliverable c ++ [task] ∧
    executed (tn_out (cy_turn c')) = executed (tn_out (cy_turn c))) ∨
   (cy_undeliverable c' = cy_undeliverable c ∧
    executed (tn_out (cy_turn c')) = executed (tn_out (cy_turn c)) ++ [task])).
Proof.
  cbv zeta. unfold dispatchOne. case_match; [auto|].
  destruct (pickGateway _) as [x picked] eqn:Hpick. unfold pickGateway in Hpick.
  destruct (selectWeightedGateway _ _) as [gs i]. injection Hpick as <- <-.
  destruct i as [i|]; [|auto]. case_match; [auto|].
  cbn [cy_turn cy_undeliverable].
  split; [|split; [|right; split; [done|]]].
  - unfold on_grain, on_counters, send. cbn [tn_out set]. by rewrite released_app, app_nil_r.
  - unfold on_grain, on_counters, send, reserveKey, spendCredit. cbn [tn_grain set]. repeat case_match; done.
  - unfold on_grain, on_counters, send. cbn [tn_out set]. by rewrite executed_app.
Qed.

Lemma dispatch_loop_fate sys lid exp tasks c :
  let c' := foldl (dispatchOne sys lid exp) c tasks in
  ∃ out back,
    tasks ≡ₚ out ++ back ∧ out `sublist_of` tasks ∧ back `sublist_of` tasks ∧
    executed (tn_out (cy_turn c')) = executed (tn_out (cy_turn c)) ++ out ∧
    released (tn_out (cy_turn c')) = released (tn_out (cy_turn c)) ∧
    cy_undeliverable c' = cy_undeliverable c ++ back.
Proof.
  revert c. induction tasks as [|task tasks IH]; intros c; cbv zeta; cbn [foldl].
  { exists [], []. by rewrite !app_nil_r. }
  destruct (dispatchOne_fate sys lid exp c task) as (Hrel & _ & Hor). cbv zeta in *.
  destruct (IH (dispatchOne sys lid exp c task)) as (out & back & Hp & Ho & Hb & He & Hr & Hu).
  cbv zeta in *.
  destruct Hor as [[Hu1 He1]|[Hu1 He1]].
  - exists out, (task :: back). split_and!.
    + rewrite Hp. apply Permutation_middle.
    + by apply sublist_cons.
    + by apply sublist_skip.
    + by rewrite He, He1.
    + congruence.
    + by rewrite Hu, Hu1, <- app_assoc.
  - exists (task :: out), back. split_and!.
    + by rewrite Hp.
    + by apply sublist_skip.
    + by apply sublist_cons.
    + by rewrite He, He1, <- app_assoc.
    + congruence.
    + by rewrite Hu, Hu1.
Qed.

Lemma releaseLeased_out sys lid tasks t :
  sys_pipe_ok sys = true → tn_out (releaseLeased sys lid tasks t) = tn_out t ++ [PipeRelease lid tasks].
Proof. intros H. unfold releaseLeased. by rewrite H. Qed.

(** The fate of a completed cycle's tasks. *)
Lemma finishLeaseCycle_fates sys m t :
  sys_pipe_ok sys = true → lc_Error m = "" →
  ∃ out back,
    lc_Tasks m ≡ₚ out ++ back ∧ out `sublist_of` lc_Tasks m ∧ back `sublist_of` lc_Tasks m ∧
    executed (tn_out (finishLeaseCycle sys m t)) = executed (tn_out t) ++ out ∧
    released (tn_out (finishLeaseCycle sys m t)) = released (tn_out t) ++ back ∧
    (qg_paused (tn_grain t) = true → out = []).
Proof.
  intros Hpipe Herr. unfold finishLeaseCycle. rewrite Herr. rewrite bool_decide_true by done.
  cbn [negb]. set (t1 := on_grain _ t).
  assert (Ho1 : tn_out t1 = tn_out t) by done. assert (Hp1 : qg_paused (tn_grain t1) = qg_paused (tn_grain t)) by done.
  clearbody t1. destruct (decide (lc_Tasks m = [])) as [Hnil|Hne].
  { exists [], []. by rewrite Hnil, Ho1, !app_nil_r. }
  destruct (qg_paused (tn_grain t1)) eqn:Hpaused.
  { exists [], (lc_Tasks m). rewrite releaseLeased_out, executed_app, released_app, Ho1 by done.
    split_and!; try done; try apply sublist_nil_l; cbn; by rewrite ?app_nil_r. }
  destruct (dispatch_loop_fate sys (lc_LeaseId m) (lc_LeaseExpiresAt m) (lc_Tasks m)
    (mkCycle t1 [] false)) as (out & back & Hp & Hso & Hsb & He & Hr & Hu). cbv zeta in *.
  set (c := foldl _ _ _) in *. clearbody c. cbn [cy_turn cy_undeliverable] in *.
  set (t2 := if cy_saturated c then _ else _).
  assert (H2 : executed (tn_out t2) = executed (tn_out t) ++ out ∧
               released (tn_out t2) = released (tn_out t)).
  { unfold t2. case_match; cbn [send tn_out set];
      rewrite ?executed_app, ?released_app, ?app_nil_r, He, Hr, Ho1; done. }
  clearbody t2. set (t3 := match qg_limiter _ with Some _ => _ | None => _ end).
  assert (H3 : tn_out t3 = tn_out t2) by (unfold t3; repeat case_match; done). clearbody t3.
  set (t4 := if 0 <? Z.of_nat _ then _ else t3).
  assert (H4 : executed (tn_out t4) = executed (tn_out t) ++ out ∧
               released (tn_out t4) = released (tn_out t) ++ back).
  { unfold t4. rewrite app_nil_l in Hu. rewrite Hu.
    destruct (Z.ltb_spec 0 (Z.of_nat (length back))) as [Hlen|Hlen].
    - rewrite releaseLeased_out, executed_app, released_app, H3 by done.
      destruct H2 as [-> ->]. split; cbn; by rewrite ?app_nil_r.
    - assert (back = []) as -> by (destruct back; [done|simpl in Hlen; lia]).
      rewrite H3, app_nil_r. exact H2. }
  clearbody t4. exists out, back. split_and!; [done..| | |].
  - case_match; [rewrite (proj1 (maybeLease_fates _ _))|]; apply H4.
  - case_match; [rewrite (proj2 (maybeLease_fates _ _))|]; apply H4.
  - congruence.
Qed.

(** ** A paused queue *)

(** [t'] extends what [t] sent by effects that start no work. *)
Definition quiet t t' : Prop :=
  ∃ sent, tn_out t' = tn_out t ++ sent ∧ Forall (λ e, works e = false) sent.

Lemma quiet_same t t' : tn_out t' = tn_out t → quiet t t'.
Proof. intros H. exists []. by rewrite app_nil_r. Qed.

Lemma quiet_send t t' e : tn_out t' = tn_out t ++ [e] → works e = false → quiet t t'.
Proof. intros H He. exists [e]. split; [done|]. by repeat constructor. Qed.

Lemma quiet_release sys lid tasks t t' : tn_out t' = tn_out t → quiet t (releaseLeased sys lid tasks t').
Proof.
  intros H. unfold releaseLeased. case_match; [|by apply quiet_same].
  eapply quiet_send; [cbn; by rewrite H|done].
Qed.

Lemma maybeLease_paused sys t : qg_paused (tn_grain t) = true → maybeLease sys t = t.
Proof. intros H. unfold maybeLease. by rewrite H. Qed.

Lemma finishGroupLease_paused sys m t :
  qg_paused (tn_grain t) = true → quiet t (finishGroupLease sys m t).
Proof.
  intros Hp. unfold finishGroupLease. case_match; [by apply quiet_same|].
  destruct (decide (gl_Tasks m = [])); [by apply quiet_same|].
  unfold pickBatchGateway. destruct (selectWeightedGateway _ _) as [gs picked].
  destruct picked; [|by apply quiet_release].
  cbn [tn_grain qg_paused set]. rewrite Hp. by apply quiet_release.
Qed.

Lemma broadcastCancel_quiet id t : quiet t (broadcastCancel id t).
Proof.
  unfold broadcastCancel. generalize (qg_gateways (tn_grain t)). intros gs.
  assert (Hgen : ∀ t0, quiet t t0 →
    quiet t (foldl (λ t g, send (TellCancel (gw_name g) id) t) t0 gs)).
  { induction gs as [|g gs IH]; intros t0 Hq; [done|]. cbn [foldl]. apply IH.
    destruct Hq as (sent & Ho & Hs). exists (sent ++ [TellCancel (gw_name g) id]).
    cbn [send tn_out set]. rewrite Ho, app_assoc. split; [done|]. apply Forall_app.
    split; [done|]. by repeat constructor. }
  apply Hgen. by apply quiet_same.
Qed.

Lemma recordCompletion_frame m t :
  qg_paused (tn_grain (recordCompletion m t)) = qg_paused (tn_grain t) ∧
  tn_out (recordCompletion m t) = tn_out t.
Proof.
  unfold recordCompletion, releaseConcurrencyKey.
  destruct (tc_Success m); cbn [on_grain on_counters tn_grain tn_out set]; split; try done;
    repeat case_match; done.
Qed.

Lemma OnReceive_paused sys m t :
  qg_paused (tn_grain t) = true → m ≠ MResumeQueue → quiet t (OnReceive sys m t).
Proof.
  intros Hp Hm. destruct m; cbn [OnReceive]; try done.
  - rewrite maybeLease_paused by done. by apply quiet_same.
  - rewrite maybeLease_paused by done. by apply quiet_same.
  - destruct (recordCompletion_frame m t) as [Hp' Ho].
    rewrite maybeLease_paused by congruence. by apply quiet_same.
  - rewrite maybeLease_paused by done. by apply quiet_same.
  - unfold fireGroup. rewrite Hp. by apply quiet_same.
  - by apply finishGroupLease_paused.
  - rewrite maybeLease_paused; [by apply quiet_same|].
    unfold registerGateway. cbn [on_grain tn_grain set]. by case_match.
  - by apply quiet_same.
  - rewrite maybeLease_paused by done. by apply quiet_same.
  - unfold finishLeaseCycle. case_match; [by apply quiet_same|].
    destruct (decide (lc_Tasks m = [])); [by apply quiet_same|].
    cbn [on_grain tn_grain qg_paused set]. rewrite Hp. by apply quiet_release.
  - by apply quiet_same.
  - apply broadcastCancel_quiet.
  - unfold setPaused. case_match; [|by apply quiet_same]. by eapply quiet_send.
  - rewrite maybeLease_paused; [by apply quiet_same|].
    unfold applyRateLimitChange. cbn [on_grain tn_grain set]. by repeat case_match.
  - rewrite maybeLease_paused; [by apply quiet_same|].
    unfold applyConcurrencyLimitChange. cbn [on_grain tn_grain set]. by repeat case_match.
  - by apply quiet_same.
Qed.
(** ** The tasks in flight *)

(** A dispatched keyed task is recorded under its key. *)
Definition record_key (L : gmap string string) (task : TaskEnvelope) : gmap string string :=
  if decide (opt_ConcurrencyKey (GetOptions task) = "") then L
  else <[env_Id task := opt_ConcurrencyKey (GetOptions task)]> L.

Definition forget_completed (m : grainMessage) (L : gmap string string) : gmap string string :=
  match m with MTaskCompleted c => delete (tc_TaskId c) L | _ => L end.

(** The ledger of a run, read off the messages alone: the keyed tasks sent to a
    gateway for which no completion has arrived since. *)
Fixpoint outstanding (ms : list (System * grainMessage)) t (L : gmap string string)
    : gmap string string :=
  match ms with
  | [] => L
  | (sys, m) :: rest =>
      let t' := OnReceive sys m t in
      let sent := drop (length (executed (tn_out t))) (executed (tn_out t')) in
      outstanding rest t' (forget_completed m (foldl record_key L sent))
  end.

(** The tasks keep one key each. *)
Definition keyed (keyOf : string → string) (task : TaskEnvelope) : Prop :=
  opt_ConcurrencyKey (GetOptions task) = keyOf (env_Id task).

(** Every count is the number of tasks in flight under the key. *)
Definition keys_exact (keyOf : string → string) x : Prop :=
  (∀ id key, qg_inFlightKey x !! id = Some key → key = keyOf id) ∧
  (∀ key, active x key = Z.of_nat (size (in_flight x key))).

Lemma keys_exact_frame keyOf x x' :
  qg_inFlightKey x' = qg_inFlightKey x → qg_activeByKey x' = qg_activeByKey x →
  keys_exact keyOf x → keys_exact keyOf x'.
Proof. intros Hi Ha. unfold keys_exact, in_flight, active. by rewrite Hi, Ha. Qed.

(** What a turn does to the keys: it records the tasks it sends, and counts
    them exactly when they keep their keys. *)
Definition flight t t' : Prop := ∃ out,
  executed (tn_out t') = executed (tn_out t) ++ out ∧
  qg_inFlightKey (tn_grain t') = foldl record_key (qg_inFlightKey (tn_grain t)) out ∧
  (∀ keyOf, Forall (keyed keyOf) out →
    keys_exact keyOf (tn_grain t) → keys_exact keyOf (tn_grain t')).

Lemma flight_frame t t' :
  executed (tn_out t') = executed (tn_out t) →
  qg_inFlightKey (tn_grain t') = qg_inFlightKey (tn_grain t) →
  qg_activeByKey (tn_grain t') = qg_activeByKey (tn_grain t) → flight t t'.
Proof.
  intros He Hi Ha. exists []. rewrite app_nil_r. split_and!; [done..|].
  intros keyOf _. by apply keys_exact_frame.
Qed.

Lemma flight_trans t1 t2 t3 : flight t1 t2 → flight t2 t3 → flight t1 t3.
Proof.
  intros (o1 & He1 & Hi1 & Hk1) (o2 & He2 & Hi2 & Hk2). exists (o1 ++ o2). split_and!.
  - by rewrite He2, He1, app_assoc.
  - by rewrite Hi2, Hi1, foldl_app.
  - intros keyOf [Ho1 Ho2]%Forall_app Hk. auto.
Qed.

Lemma maybeLease_flight sys t : flight t (maybeLease sys t).
Proof.
  destruct (maybeLease_frame sys t) as (_ & Hi & Ha & _).
  apply flight_frame; [apply maybeLease_fates|done|done].
Qed.

Lemma releaseLeased_flight sys lid tasks t : flight t (releaseLeased sys lid tasks t).
Proof.
  unfold releaseLeased. case_match; apply flight_frame; try done.
  cbn [send tn_out set]. by rewrite executed_app, app_nil_r.
Qed.

Lemma keys_exact_reserve keyOf x id key :
  key ≠ "" → key = keyOf id → keys_exact keyOf x →
  keys_exact keyOf (reserveKey id key (bool_decide (default "" (qg_inFlightKey x !! id) = key)) x).
Proof.
  intros Hne Hkey [Hof Hex]. unfold reserveKey. rewrite decide_False by done.
  destruct (qg_inFlightKey x !! id) as [k|] eqn:Hid.
  - pose proof (Hof _ _ Hid) as ->. rewrite bool_decide_true by done.
    apply (keys_exact_frame _ x); [|done|by split]. rsimpl. apply insert_id. congruence.
  - rewrite bool_decide_false by (cbn; congruence). split.
    + intros id' k. rsimpl. rewrite lookup_insert. case_decide; [|by apply Hof].
      intros [= <-]. by subst.
    + intros k. unfold active, in_flight. rsimpl. rewrite lookup_insert.
      destruct (decide (key = k)) as [<-|Hk].
      * rewrite map_filter_insert_True, dom_insert_L by done.
        fold (in_flight x key). fold (active x key).
        assert (Hni : id ∉ in_flight x key) by (rewrite elem_of_in_flight; congruence).
        rewrite size_union, size_singleton by set_solver. cbn [from_option Datatypes.id]. rewrite Hex. lia.
      * rewrite map_filter_insert_False by done. rewrite delete_id by done. apply Hex.
Qed.

Lemma keys_exact_release keyOf x id :
  keys_exact keyOf x → keys_exact keyOf (releaseConcurrencyKey id x).
Proof.
  intros [Hof Hex]. unfold releaseConcurrencyKey.
  destruct (qg_inFlightKey x !! id) as [key|] eqn:Hid; [|by split].
  destruct (in_flight_forget x id key Hid) as [Hfl Hsz]. set (x1 := set qg_inFlightKey _ x) in *.
  assert (Hof1 : ∀ id' k, delete id (qg_inFlightKey x) !! id' = Some k → k = keyOf id').
  { intros id' k [_ H]%lookup_delete_Some. by apply Hof. }
  change (qg_activeByKey x1) with (qg_activeByKey x). fold (active x key). rewrite Hex.
  destruct (Z.leb_spec (Z.of_nat (size (in_flight x key)) - 1) 0) as [Hz|Hz]; (split; [exact Hof1|]);
    intros k; change (in_flight (set _ _ x1) k) with (in_flight x1 k); unfold active; rsimpl.
  - rewrite lookup_delete. case_decide as E; subst; cbn [from_option Datatypes.id].
    + lia.
    + rewrite Hfl, decide_False by congruence. apply Hex.
  - rewrite lookup_insert. case_decide as E; subst; cbn [from_option Datatypes.id].
    + lia.
    + rewrite Hfl, decide_False by congruence. apply Hex.
Qed.

Lemma reserveKey_inFlight id key (held : bool) x :
  qg_inFlightKey (reserveKey id key held x) =
  if decide (key = "") then qg_inFlightKey x else <[id := key]> (qg_inFlightKey x).
Proof. unfold reserveKey. case_decide; [done|]. by destruct held. Qed.

Lemma dispatchOne_flight sys lid exp c task :
  flight (cy_turn c) (cy_turn (dispatchOne sys lid exp c task)).
Proof.
  unfold dispatchOne. set (x := tn_grain (cy_turn c)).
  set (key := opt_ConcurrencyKey (GetOptions task)).
  case_match; [by apply flight_frame|].
  destruct (pickGateway x) as [x' picked] eqn:Hpick. unfold pickGateway in Hpick.
  destruct (selectWeightedGateway _ _) as [gs i]. injection Hpick as <- <-.
  destruct i as [i|]; [|by apply flight_frame]. case_match; [by apply flight_frame|].
  cbn [cy_turn]. exists [task]. unfold on_grain, on_counters, send. cbn [tn_out tn_grain set].
  rewrite executed_app. split; [done|].
  set (x2 := spendCredit i _).
  assert (Hx2 : qg_inFlightKey x2 = qg_inFlightKey x ∧ qg_activeByKey x2 = qg_activeByKey x) by done.
  destruct Hx2 as [Hi Ha]. split.
  - rewrite reserveKey_inFlight, Hi. done.
  - intros keyOf [Hkey _]%Forall_cons Hex. unfold keyed in Hkey. fold key in Hkey.
    destruct (decide (key = "")) as [He|He].
    { unfold reserveKey. rewrite decide_True by done. by apply (keys_exact_frame _ x). }
    rewrite (bool_decide_false (key = "")) by done. cbn [negb andb]. rewrite <- Hi.
    apply keys_exact_reserve; [done|done|]. by apply (keys_exact_frame _ x).
Qed.

Lemma dispatch_loop_flight sys lid exp tasks c :
  flight (cy_turn c) (cy_turn (foldl (dispatchOne sys lid exp) c tasks)).
Proof.
  revert c. induction tasks as [|task tasks IH]; intros c; [by apply flight_frame|]. cbn [foldl].
  eapply flight_trans; [apply dispatchOne_flight|apply IH].
Qed.

Lemma finishLeaseCycle_flight sys m t : flight t (finishLeaseCycle sys m t).
Proof.
  unfold finishLeaseCycle. set (t1 := on_grain _ t). assert (H1 : flight t t1) by (by apply flight_frame).
  case_match; [done|]. destruct (decide (lc_Tasks m = [])); [done|].
  case_match; [eapply flight_trans, releaseLeased_flight; done|].
  pose proof (flight_trans _ _ _ H1 (dispatch_loop_flight sys (lc_LeaseId m) (lc_LeaseExpiresAt m)
    (lc_Tasks m) (mkCycle t1 [] false))) as Hloop.
  set (c := foldl _ _ _) in *. clearbody c. cbn [cy_turn] in Hloop.
  set (t2 := if cy_saturated c then _ else _).
  assert (H2 : flight t t2).
  { eapply flight_trans; [exact Hloop|]. unfold t2. case_match; apply flight_frame; try done.
    cbn [send tn_out set]. by rewrite executed_app, app_nil_r. }
  clearbody t2. set (t3 := match qg_limiter _ with Some _ => _ | None => _ end).
  assert (H3 : flight t t3).
  { eapply flight_trans; [exact H2|]. unfold t3. repeat case_match; by apply flight_frame. }
  clearbody t3. set (t4 := if 0 <? Z.of_nat _ then _ else t3).
  assert (H4 : flight t t4).
  { unfold t4. case_match; [|done]. eapply flight_trans, releaseLeased_flight. done. }
  case_match; [|done]. eapply flight_trans, maybeLease_flight. done.
Qed.

Lemma finishGroupLease_flight sys m t : flight t (finishGroupLease sys m t).
Proof.
  unfold finishGroupLease. case_match; [by apply flight_frame|].
  destruct (decide (gl_Tasks m = [])); [by apply flight_frame|]. unfold pickBatchGateway.
  destruct (selectWeightedGateway _ _) as [gs [i|]];
    [|eapply flight_trans, releaseLeased_flight; by apply flight_frame].
  case_match; [eapply flight_trans, releaseLeased_flight; by apply flight_frame|].
  case_match; [eapply flight_trans, releaseLeased_flight; by apply flight_frame|].
  apply flight_frame; try done. unfold on_counters, on_grain, send. cbn [tn_out set].
  by rewrite executed_app, app_nil_r.
Qed.

Lemma fireGroup_flight sys m t : flight t (fireGroup sys m t).
Proof.
  unfold fireGroup. case_match; [by apply flight_frame|]. unfold pickBatchGateway.
  destruct (selectWeightedGateway _ _) as [gs [i|]]; [|by apply flight_frame].
  case_match; apply flight_frame; try done. cbn [send tn_out set].
  by rewrite executed_app, app_nil_r.
Qed.

Lemma broadcastCancel_flight id t : flight t (broadcastCancel id t).
Proof.
  unfold broadcastCancel. generalize (qg_gateways (tn_grain t)) as gs. intros gs. revert t.
  induction gs as [|g gs IH]; intros t; [by apply flight_frame|]. cbn [foldl].
  eapply flight_trans, IH. apply flight_frame; try done. cbn [send tn_out set].
  by rewrite executed_app, app_nil_r.
Qed.

Lemma setPaused_flight sys p t : flight t (setPaused sys p t).
Proof.
  unfold setPaused. case_match; apply flight_frame; try done.
  cbn [send on_grain tn_out set]. by rewrite ?executed_app, ?app_nil_r.
Qed.

(** Every turn but a completion. *)
Lemma OnReceive_flight sys m t :
  (∀ c, m ≠ MTaskCompleted c) → flight t (OnReceive sys m t).
Proof.
  intros Hm. destruct m; cbn [OnReceive];
    try (eapply flight_trans; [|apply maybeLease_flight]);
    try (by apply flight_frame).
  - by destruct (Hm m).
  - apply fireGroup_flight.
  - apply finishGroupLease_flight.
  - unfold on_grain, registerGateway. case_match; by apply flight_frame.
  - apply finishLeaseCycle_flight.
  - apply broadcastCancel_flight.
  - apply setPaused_flight.
  - apply setPaused_flight.
  - unfold on_grain, applyRateLimitChange. cbn [tn_grain set]. apply flight_frame; [done|..];
      cbn [tn_grain set]; by repeat case_match.
  - unfold on_grain, applyConcurrencyLimitChange. apply flight_frame; [done|..];
      cbn [tn_grain set]; by repeat case_match.
Qed.

(** A completion forgets the task and gives its slot back. *)
Lemma completed_turn sys c t :
  let t' := OnReceive sys (MTaskCompleted c) t in
  executed (tn_out t') = executed (tn_out t) ∧
  qg_inFlightKey (tn_grain t') = delete (tc_TaskId c) (qg_inFlightKey (tn_grain t)) ∧
  (∀ keyOf, keys_exact keyOf (tn_grain t) → keys_exact keyOf (tn_grain t')).
Proof.
  cbv zeta. cbn [OnReceive]. set (t1 := recordCompletion c t).
  destruct (maybeLease_frame sys t1) as (_ & Hi & Ha & _). rewrite (proj1 (maybeLease_fates _ _)).
  assert (Ht1 : tn_out t1 = tn_out t ∧
    qg_inFlightKey (tn_grain t1) = qg_inFlightKey (releaseConcurrencyKey (tc_TaskId c) (tn_grain t)) ∧
    qg_activeByKey (tn_grain t1) = qg_activeByKey (releaseConcurrencyKey (tc_TaskId c) (tn_grain t))).
  { unfold t1, recordCompletion, releaseConcurrencyKey.
    destruct (tc_Success c); cbn [on_grain on_counters tn_grain tn_out set qg_inFlightKey];
      (split; [done|]); destruct (qg_inFlightKey (tn_grain t) !! _); [|done| |done];
      cbn [qg_activeByKey set]; case_match; done. }
  destruct Ht1 as (Ho & Hi1 & Ha1). rewrite Ho, Hi, Hi1. split; [done|]. split.
  - unfold releaseConcurrencyKey. destruct (qg_inFlightKey (tn_grain t) !! tc_TaskId c) eqn:E;
      [|by rewrite delete_id]. cbn [qg_activeByKey set]. by case_match.
  - intros keyOf Hex. eapply keys_exact_frame; [exact (eq_trans Hi Hi1)|exact (eq_trans Ha Ha1)|].
    by apply keys_exact_release.
Qed.

Lemma OnReceive_ledger sys m t :
  ∃ out, executed (tn_out (OnReceive sys m t)) = executed (tn_out t) ++ out ∧
    qg_inFlightKey (tn_grain (OnReceive sys m t)) =
      forget_completed m (foldl record_key (qg_inFlightKey (tn_grain t)) out) ∧
    (∀ keyOf, Forall (keyed keyOf) out → keys_exact keyOf (tn_grain t) →
       keys_exact keyOf (tn_grain (OnReceive sys m t))).
Proof.
  assert (Hcase : (∃ c, m = MTaskCompleted c) ∨ (∀ c, m ≠ MTaskCompleted c))
    by (destruct m; try (right; done); left; eauto).
  destruct Hcase as [[c ->]|Hm].
  - destruct (completed_turn sys c t) as (He & Hi & Hk). exists []. rewrite app_nil_r.
    split_and!; [done..|]. auto.
  - destruct (OnReceive_flight sys m t Hm) as (out & He & Hi & Hk). exists out.
    split_and!; [done| |done]. rewrite Hi. by destruct m; try destruct (Hm m).
Qed.

Lemma turns_ledger ms t :
  ∃ out, executed (tn_out (turns ms t)) = executed (tn_out t) ++ out ∧
    qg_inFlightKey (tn_grain (turns ms t)) = outstanding ms t (qg_inFlightKey (tn_grain t)) ∧
    (∀ keyOf, Forall (keyed keyOf) out → keys_exact keyOf (tn_grain t) →
       keys_exact keyOf (tn_grain (turns ms t))).
Proof.
  revert t. induction ms as [|[sys m] ms IH]; intros t.
  { exists []. rewrite app_nil_r. done. }
  change (turns ((sys, m) :: ms) t) with (turns ms (OnReceive sys m t)). cbn [outstanding].
  destruct (OnReceive_ledger sys m t) as (o1 & He1 & Hi1 & Hk1).
  destruct (IH (OnReceive sys m t)) as (o2 & He2 & Hi2 & Hk2).
  exists (o1 ++ o2). rewrite He2, He1, app_assoc. split; [done|]. split.
  - by rewrite Hi2, Hi1, drop_app_length.
  - intros keyOf [H1 H2]%Forall_app Hex. auto.
Qed.
End Grain.

(** ** Concrete turns *)

(** A token bucket that counts whole tokens and never refills. *)
Definition simple_bucket : RateLimiter := {|
  Limiter := Z * Z;
  NewLimiter := λ _ burst, (burst, burst);
  TokensAt := λ l _, l.1;
  ReserveN := λ l _ n, (l.1 - n, l.2);
  Burst := λ l, l.2 |}.

#[local] Existing Instance simple_bucket.

Definition sample_settings : Settings :=
  zeroSettings <| set_LeaseTTL := 30 * Second |> <| set_LeaseBatchMax := 10 |>
    <| set_GroupMaxSize := 5 |> <| set_RateLimitEnabled := true |>.

Definition sample_system : System :=
  mkSystem sample_settings 1000 "L1" (λ gateway task, negb (bool_decide (gateway = "gone"))) true true.

#[local] Abbreviation sample_activation :=
  (mkTurn (OnActivate sample_settings "mail" false None (Some 1)) noCounters []).

Definition keyed_task (id key : string) : TaskEnvelope :=
  mkTaskEnvelope id "mail" "send" [] "" ∅
    (Some (emptyTaskOptions <| opt_ConcurrencyKey := key |>)) 0 "" None None None 0 "".

(** Two gateways register, the second of them unreachable, and a leased batch
    of four tasks arrives, two of which share a key. *)
Definition sample_messages : list (System * grainMessage) :=
  [(sample_system, MRegisterGateway (mkRegisterGateway "mail" "g1" 3 [] 2));
   (sample_system, MRegisterGateway (mkRegisterGateway "mail" "gone" 3 [] 1));
   (sample_system, MLeaseCycleCompleted (mkLeaseCycleCompleted
      [keyed_task "a" "k"; keyed_task "b" "k"; keyed_task "c" ""; keyed_task "d" ""] "L1" 2000 ""))].

#[local] Abbreviation sample_turn := (turns sample_messages sample_activation).

Lemma sample_messages_ok :
  Forall (λ p, admissible p.2 ∧ ∀ n, p.2 ≠ MConcurrencyLimitChanged n) sample_messages.
Proof. repeat constructor; done. Qed.

(** ** The properties *)

(** From activation on, through any sequence of messages, every gateway's
    credits stay between zero and the capacity it declared, its weight is at
    least one, and no gateway is listed twice: duplicate registrations,
    completions and credit grants never inflate dispatch. *)
Theorem credits_within_capacity {RL : RateLimiter} settings queue paused rate conc ms counters out g :
  Forall (λ p, admissible p.2 ∧ ∀ n, p.2 ≠ MConcurrencyLimitChanged n) ms →
  let x := tn_grain (turns ms (mkTurn (OnActivate settings queue paused rate conc) counters out)) in
  g ∈ qg_gateways x →
  0 <= gw_credits g <= gw_capacity g ∧ 1 <= gw_weight g ∧ NoDup (gw_name <$> qg_gateways x).
Proof.
  intros Hms x Hg.
  assert (Hok : grain_ok (qg_concurrencyLimit (OnActivate settings queue paused rate conc)) x).
  { apply turns_ok; [done|]. apply OnActivate_ok. }
  destruct (go_gateways _ _ Hok) as [Hnd Hall]. rewrite Forall_forall in Hall.
  destruct (Hall g Hg). done.
Qed.

Lemma credits_within_capacity_witness :
  ∃ g, g ∈ qg_gateways (tn_grain sample_turn) ∧ gw_name g = "g1" ∧ 0 <= gw_credits g <= gw_capacity g.
Proof.
  exists (mkGatewayCredits "g1" 3 1 2 1 []).
  assert (Hin : mkGatewayCredits "g1" 3 1 2 1 [] ∈ qg_gateways (tn_grain sample_turn))
    by (vm_compute; apply list_elem_of_here).
  split; [exact Hin|]. split; [done|].
  exact (proj1 (credits_within_capacity sample_settings "mail" false None (Some 1) sample_messages
    noCounters [] _ sample_messages_ok Hin)).
Defined.

(** C13: a concurrency key is never over-admitted and its slots are given
    back. From activation on and while the limit is unchanged, through any
    sequence of messages, the tasks recorded under the keys are exactly the keyed
    tasks sent to a gateway for which no completion has arrived since; the count
    of a key is at least the number of tasks in flight under it and at most the
    limit; and the count is exactly that number when every task dispatched keeps
    one key. *)
Theorem concurrency_key_bounded {RL : RateLimiter} settings queue paused rate conc ms counters key :
  Forall (λ p, admissible p.2 ∧ ∀ n, p.2 ≠ MConcurrencyLimitChanged n) ms →
  let x0 := OnActivate settings queue paused rate conc in
  let t := turns ms (mkTurn x0 counters []) in
  qg_inFlightKey (tn_grain t) = outstanding ms (mkTurn x0 counters []) ∅ ∧
  Z.of_nat (size (in_flight (tn_grain t) key)) <= active (tn_grain t) key ∧
  (0 < qg_concurrencyLimit x0 → active (tn_grain t) key <= qg_concurrencyLimit x0) ∧
  (∀ keyOf, Forall (keyed keyOf) (executed (tn_out t)) →
     active (tn_grain t) key = Z.of_nat (size (in_flight (tn_grain t) key))).
Proof.
  intros Hms x0 t.
  assert (Hok : grain_ok (qg_concurrencyLimit x0) (tn_grain t)).
  { apply turns_ok; [done|]. apply OnActivate_ok. }
  destruct (go_keys _ _ Hok) as [Hc Hlim _].
  destruct (OnActivate_keys settings queue paused rate conc) as [Hi0 Ha0].
  destruct (turns_ledger ms (mkTurn x0 counters [])) as (out & He & Hi & Hk).
  cbn [tn_grain tn_out] in *. fold x0 in Hi0, Ha0. rewrite Hi0 in Hi. fold t in Hi, He, Hk.
  split_and!; [done|by apply Hc|by intros; apply Hlim|].
  intros keyOf Hall. rewrite He in Hall. apply (Hk keyOf Hall). split.
  - intros id k. by rewrite Hi0, lookup_empty.
  - intros k. unfold active, in_flight. by rewrite Ha0, Hi0, map_filter_empty, dom_empty_L.
Qed.

(** The task [a], keyed, completes and [b], held back before, is leased again. *)
Definition sample_handover : list (System * grainMessage) :=
  sample_messages ++
  [(sample_system, MTaskCompleted (mkTaskCompleted "a" "mail" true "g1"));
   (sample_system, MLeaseCycleCompleted (mkLeaseCycleCompleted [keyed_task "b" "k"] "L2" 2000 ""))].

Lemma concurrency_key_bounded_witness :
  let t := turns sample_handover sample_activation in
  in_flight (tn_grain sample_turn) "k" = {["a"]} ∧ in_flight (tn_grain t) "k" = {["b"]} ∧
  (0 < 1 → active (tn_grain t) "k" <= 1) ∧
  active (tn_grain t) "k" = Z.of_nat (size (in_flight (tn_grain t) "k")).
Proof.
  intros t.
  assert (Hms : Forall (λ p, admissible p.2 ∧ ∀ n, p.2 ≠ MConcurrencyLimitChanged n) sample_handover)
    by (repeat constructor; done).
  destruct (concurrency_key_bounded sample_settings "mail" false None (Some 1) sample_handover
    noCounters "k" Hms) as (_ & _ & Hl & Hex).
  split; [by vm_compute|]. split; [by vm_compute|]. split; [exact Hl|].
  apply (Hex (λ id, if decide (id ∈ ["a"; "b"]) then "k" else "")).
  assert (E : executed (tn_out t) = [keyed_task "a" "k"; keyed_task "d" ""; keyed_task "b" "k"])
    by (by vm_compute).
  unfold t in E. rewrite E. by repeat constructor.
Defined.

(** C14: no task of a lease cycle is lost or duplicated by the dispatch: each is
    handed to exactly one gateway or returned to the broker, in lease order, and
    a paused queue returns them all. *)
Theorem lease_cycle_conserves_tasks {RL : RateLimiter} sys m t :
  sys_pipe_ok sys = true → lc_Error m = "" →
  ∃ out back,
    lc_Tasks m ≡ₚ out ++ back ∧ out `sublist_of` lc_Tasks m ∧ back `sublist_of` lc_Tasks m ∧
    executed (tn_out (finishLeaseCycle sys m t)) = executed (tn_out t) ++ out ∧
    released (tn_out (finishLeaseCycle sys m t)) = released (tn_out t) ++ back ∧
    (qg_paused (tn_grain t) = true → out = []).
Proof. apply finishLeaseCycle_fates. Qed.

Lemma lease_cycle_conserves_tasks_witness :
  (env_Id <$> executed (tn_out sample_turn)) = ["a"; "d"] ∧
  (env_Id <$> released (tn_out sample_turn)) = ["b"; "c"] ∧
  let m := mkLeaseCycleCompleted [keyed_task "a" "k"] "L1" 2000 "" in
  ∃ out back, lc_Tasks m ≡ₚ out ++ back ∧
    executed (tn_out (finishLeaseCycle sample_system m sample_activation)) = out.
Proof.
  split; [by vm_compute|]. split; [by vm_compute|]. intros m.
  destruct (lease_cycle_conserves_tasks sample_system m sample_activation eq_refl eq_refl)
    as (out & back & Hp & _ & _ & He & _).
  exists out, back. split; [done|]. by rewrite He.
Defined.

(** A turn starts at most one lease cycle, only on an unpaused queue with no
    cycle running and with credits, and asks for no more than the credits, the
    configured batch and the tokens in the bucket; it asks for at least one task
    when the credits are not exhausted. *)
Theorem maybeLease_bounds {RL : RateLimiter} sys t limit ttl lid expires :
  PipeLease limit ttl lid expires ∉ tn_out t →
  PipeLease limit ttl lid expires ∈ tn_out (maybeLease sys t) →
  qg_paused (tn_grain t) = false ∧ qg_leasing (tn_grain t) = false ∧
  qg_leasing (tn_grain (maybeLease sys t)) = true ∧
  limit <= totalCredits (tn_grain t) ∧ limit <= set_LeaseBatchMax (sys_settings sys) ∧
  (∀ l, qg_limiter (tn_grain t) = Some l → limit <= TokensAt l (sys_now sys)) ∧
  (0 < totalCredits (tn_grain t) → 0 < set_LeaseBatchMax (sys_settings sys) → 0 < limit) ∧
  maybeLease sys (maybeLease sys t) = maybeLease sys t.
Proof.
  intros Hni Hin.
  destruct (maybeLease_out sys t) as [Ho|[Ho|(limit' & Ho & H1 & H2 & H3 & _ & H4 & H5 & H6 & H7)]];
    rewrite Ho in Hin; [done|by set_solver|].
  apply elem_of_app in Hin as [Hin|Hin]; [done|]. apply list_elem_of_singleton in Hin.
  injection Hin as -> -> -> ->. split_and!; try done.
  unfold maybeLease at 1. by rewrite H3, orb_true_r.
Qed.

Definition idle_turn : Turn :=
  turns [(sample_system, MStatusFailure)]
    (turns (take 1 sample_messages) sample_activation) <| tn_out := [] |>.

Lemma maybeLease_bounds_witness :
  ∃ limit, PipeLease limit (30 * Second) "L1" (1000 + 30 * Second) ∈
      tn_out (maybeLease sample_system idle_turn) ∧
    limit <= totalCredits (tn_grain idle_turn) ∧ limit = 3.
Proof.
  exists 3. assert (Hin : PipeLease 3 (30 * Second) "L1" (1000 + 30 * Second) ∈
    tn_out (maybeLease sample_system idle_turn)) by (vm_compute; apply list_elem_of_here).
  split; [done|]. split; [|done].
  apply (maybeLease_bounds sample_system idle_turn 3 (30 * Second) "L1" (1000 + 30 * Second)); [|done].
  vm_compute. apply not_elem_of_nil.
Defined.

(** A paused queue is silent: until it is resumed, no message makes its
    grain lease, fire a group, or hand a task or a batch to a gateway. *)
Theorem paused_queue_is_silent {RL : RateLimiter} sys m t :
  qg_paused (tn_grain t) = true → m ≠ MResumeQueue →
  ∃ sent, tn_out (OnReceive sys m t) = tn_out t ++ sent ∧ Forall (λ e, works e = false) sent.
Proof. apply OnReceive_paused. Qed.

Definition paused_turn : Turn := OnReceive sample_system MDrainQueue idle_turn.

Lemma paused_queue_is_silent_witness :
  let m := MLeaseCycleCompleted (mkLeaseCycleCompleted [keyed_task "a" ""] "L1" 2000 "") in
  ∃ sent, tn_out (OnReceive sample_system m paused_turn) = tn_out paused_turn ++ sent ∧
    Forall (λ e, works e = false) sent ∧ released sent = [keyed_task "a" ""].
Proof.
  intros m. destruct (paused_queue_is_silent sample_system m paused_turn) as (sent & Ho & Hs);
    [by vm_compute|done|].
  exists sent. split_and!; [done|done|].
  assert (H : released (tn_out (OnReceive sample_system m paused_turn)) =
    released (tn_out paused_turn) ++ [keyed_task "a" ""]) by (by vm_compute).
  rewrite Ho, released_app in H. by apply app_inv_head in H.
Defined.

(** C15: dispatch is proportional to weight. Over as many consecutive picks as
    the weights of the eligible gateways add up to, starting from fresh
    accumulators, each eligible gateway is picked exactly as many times as its
    weight, no other gateway is picked, and the accumulators return to where they
    started, so the pattern repeats. *)
Theorem round_robin_proportional (gs : list gatewayCredits) :
  fresh_gateways hasCredit gs → 0 < weights hasCredit gs <= 2 ^ 15 →
  let r := picks hasCredit (Z.to_nat (weights hasCredit gs)) gs in
  r.2 = gs ∧ Z.of_nat (length r.1) = weights hasCredit gs ∧
  ∀ j g, gs !! j = Some g → times j r.1 = if hasCredit g then gw_weight g else 0.
Proof. apply picks_proportional. done. Qed.

Definition sample_gateways : list gatewayCredits :=
  [mkGatewayCredits "g1" 5 5 5 0 []; mkGatewayCredits "g2" 5 5 1 0 [];
   mkGatewayCredits "g3" 5 5 1 0 []; mkGatewayCredits "g4" 5 0 9 0 []].

Lemma round_robin_proportional_witness :
  let l := (picks hasCredit 7 sample_gateways).1 in
  l = [0; 0; 1; 0; 2; 0; 0]%nat ∧ times 0 l = 5 ∧ times 3 l = 0.
Proof.
  intros l. split; [by vm_compute|].
  destruct (round_robin_proportional sample_gateways) as (_ & _ & H).
  - unfold fresh_gateways, sample_gateways. repeat constructor; done.
  - by vm_compute.
  - split; [apply (H 0%nat _ eq_refl)|apply (H 3%nat _ eq_refl)].
Defined.
