(* ===== verification/TaskLog.v ===== *)
(** * The task log a gateway relies on

    The part of the [broker.Broker] interface (internal/broker/broker.go) the
    gateways use to settle deliveries, as a class of operations, and what the
    contract promises about leases, as a class of laws. The in-memory broker is
    an instance of both; the gateway's theorems use the laws only. *)

From S2P Require Import Prelude Proto Events BrokerApi Memory MemoryFacts MemoryInv MemoryLease.
From Stdlib Require Import Strings.Byte.

(** The operations that present a lease. *)
Class TaskLog (B : Type) := {
  log_Ack : string → string → list byte → Time → B → B * option BrokerError;
  log_AckBatch : list AckItem → Time → B → B * (list string * option BrokerError);
  log_Fail : string → string → string → Time → Time → B → B * option BrokerError;
  log_Release : string → string → Time → B → B * option BrokerError;
  log_Archive : string → string → string → Time → B → B * option BrokerError;
  log_ExtendLease : string → string → Duration → Time → B → B * option BrokerError;
  log_SetProgress : string → string → Z → string → Time → B → B * option BrokerError }.

(** The calls a lease authorises, as one operation. *)
Definition log_call {B} `{TaskLog B} (c : lease_call) (id lid : string) (now : Time) (b : B)
    : B * option BrokerError :=
  match c with
  | LExtend ttl => log_ExtendLease id lid ttl now b
  | LProgress percent message => log_SetProgress id lid percent message now b
  | LAck result => log_Ack id lid result now b
  | LFail msg at_ => log_Fail id lid msg at_ now b
  | LRelease => log_Release id lid now b
  | LArchive msg => log_Archive id lid msg now b
  end.

(** The lease contract: [log_held id lid b] says the task is active under that
    lease. A call under a lease that is not held reports it lost and changes
    nothing; one under a held lease succeeds, ends the lease exactly when it
    settles the task, and leaves the other tasks' leases alone. *)
Class LeaseContract (B : Type) `{TaskLog B} := {
  log_held : string → string → B → Prop;
  log_held_dec : ∀ id lid b, Decision (log_held id lid b);
  log_refused : ∀ c id lid now b, lid ≠ "" → ¬ log_held id lid b →
    log_call c id lid now b = (b, Some ErrLeaseLost);
  log_accepted : ∀ c id lid now b, lid ≠ "" → log_held id lid b →
    (log_call c id lid now b).2 = None ∧
    (log_held id lid (log_call c id lid now b).1 ↔ settles c = false);
  log_others : ∀ c id lid now b id' lid', lid ≠ "" → id' ≠ id →
    log_held id' lid' (log_call c id lid now b).1 ↔ log_held id' lid' b }.

(** ** The in-memory broker *)

#[export] Instance memory_TaskLog : TaskLog Broker := {|
  log_Ack := Ack;
  log_AckBatch := λ items now b, let '(b, acked) := AckBatch items now b in (b, (acked, None));
  log_Fail := Fail;
  log_Release := Release;
  log_Archive := Archive;
  log_ExtendLease := ExtendLease;
  log_SetProgress := λ id lid percent message _ b, SetProgress id lid percent message b |}.

Lemma memory_log_call c id lid now b : log_call c id lid now b = call c id lid now b.
Proof. by destruct c. Qed.

Definition held_dec id lid b : Decision (held id lid b).
Proof.
  destruct (activeRow id lid b) as [row|] eqn:E.
  - left. exists row. by apply activeRow_Some.
  - right. by apply activeRow_None.
Defined.

Lemma held_lookup id lid b b' :
  br_tasks b' !! id = br_tasks b !! id → held id lid b' ↔ held id lid b.
Proof. intros H. unfold held. by rewrite H. Qed.

#[export] Instance memory_LeaseContract : LeaseContract Broker.
Proof.
  refine {| log_held := held; log_held_dec := held_dec |}.
  - intros. rewrite memory_log_call. by apply call_refused.
  - intros c id lid now b Hl Hh. rewrite memory_log_call.
    destruct (call_accepted c id lid now b Hl Hh) as (b' & row' & -> & _ & Hiff). done.
  - intros c id lid now b id' lid' Hl Hne. rewrite memory_log_call. apply held_lookup.
    destruct (held_dec id lid b) as [Hh|Hh].
    + destruct (call_accepted c id lid now b Hl Hh) as (b' & row' & -> & Ht & _).
      cbn [fst]. by rewrite Ht, lookup_insert_ne.
    + by rewrite call_refused.
Defined.
