(* ===== verification/Gateway.v ===== *)
(** * The worker gateway (internal/actors/gateway.go, group.go)

    The bridge between a worker stream and the actors: it tracks the tasks it
    has sent to its worker, maps each reported outcome to its durable
    transition, and reports back to the queue grains. A turn is a function on
    the gateway, the task log, the counters and the list of what the turn sent
    out. The circuit breaker is a library's, a parameter; the answers of the
    stream and of the actor system are read from the environment of the turn. *)

From S2P Require Import Prelude Proto BrokerApi Backoff Messages TaskLog.
From Stdlib Require Import Strings.Byte.

Definition retriesExhaustedMessage : string := "retries exhausted: ".
Definition canceledByAdminMessage : string := "canceled by admin: ".

(** ** Capacity *)

(** [sort.Slice] with its comparison: the order [less] describes. *)
Definition sort_Slice {A} (less : A → A → bool) (l : list A) : list A :=
  SortFunc (λ a b, if less a b then (-1)%Z else if less b a then 1%Z else 0%Z) l.

Record share := mkShare { sh_queue : string; sh_base : Z; sh_remainder : Z }.

#[global] Instance share_eta : Eta share := λ s,
  mkShare (sh_queue s) (sh_base s) (sh_remainder s).

Definition queueWeight (weights : gmap string Z) (queue : string) : Z :=
  Z.max (default 0%Z (weights !! queue)) 1.

(** The order in which leftover slots are handed out. *)
Definition shareBefore (a b : share) : bool :=
  if negb (sh_remainder a =? sh_remainder b)%Z then (sh_remainder b <? sh_remainder a)%Z
  else (strings_Compare (sh_queue a) (sh_queue b) <? 0)%Z.

(** The loop over the sorted shares. *)
Fixpoint handOut (leftover : Z) (shares : list share) : list share :=
  match shares with
  | [] => []
  | s :: rest =>
      if (leftover <=? 0)%Z then s :: rest
      else s <| sh_base := wrap32 (sh_base s + 1) |> :: handOut (wrap32 (leftover - 1)) rest
  end.

Definition splitCapacity (concurrency : Z) (queues : list string) (weights : gmap string Z)
    : gmap string Z :=
  if decide (queues = []) then ∅
  else
    let reserved := wrap32 (Z.of_nat (length queues)) in
    if (concurrency <=? reserved)%Z then
      foldl (λ capacities queue, <[queue := 1%Z]> capacities) ∅ queues
    else
      let totalWeight :=
        foldl (λ total queue, wrap64 (total + queueWeight weights queue)) 0%Z queues in
      let spare := wrap32 (concurrency - reserved) in
      let shares := (λ queue,
        let product := wrap64 (spare * queueWeight weights queue) in
        mkShare queue (wrap32 (Z.quot product totalWeight)) (Z.rem product totalWeight)) <$> queues in
      let assigned := foldl (λ assigned s, wrap32 (assigned + sh_base s)) 0%Z shares in
      let shares := sort_Slice shareBefore shares in
      let leftover := wrap32 (spare - assigned) in
      foldl (λ capacities s, <[sh_queue s := wrap32 (sh_base s + 1)]> capacities) ∅
        (handOut leftover shares).

(** ** Retry strategies *)

Definition backoffKind (strategy : RetryStrategy) : option Backoff.Kind :=
  match strategy with
  | RETRY_STRATEGY_EXPONENTIAL => Some Backoff.Exponential
  | RETRY_STRATEGY_LINEAR => Some Backoff.Linear
  | RETRY_STRATEGY_FIXED => Some Backoff.Fixed
  | RETRY_STRATEGY_UNSPECIFIED => None
  end.

Definition retryStrategyFor (defaultStrategy : Backoff.Strategy) (policy : option RetryPolicy)
    : Backoff.Strategy :=
  match policy with
  | None => defaultStrategy
  | Some policy =>
      let kind := default (Backoff.kind defaultStrategy) (backoffKind (rp_Strategy policy)) in
      let base := AsDuration (rp_Base policy) in
      let base := if (base <=? 0)%Z then Backoff.base defaultStrategy else base in
      let maxDelay := AsDuration (rp_Max policy) in
      let maxDelay := if (maxDelay <=? 0)%Z then Backoff.maxDelay defaultStrategy else maxDelay in
      Backoff.NewWithKind kind base maxDelay
  end.

(** ** Deadlines *)

Definition executionDeadlineAt (now leaseExpiresAt : Time) (options : TaskOptions) : Time :=
  let deadline := leaseExpiresAt in
  let deadline :=
    match opt_Deadline options with
    | Some d => if Before d deadline then d else deadline
    | None => deadline
    end in
  match opt_Timeout options with
  | Some timeout =>
      let attemptDeadline := time_Add now timeout in
      if Before attemptDeadline deadline then attemptDeadline else deadline
  | None => deadline
  end.

Definition tightenDeadline (deadline : Time) (task : TaskEnvelope) (now : Time) : Time :=
  let options := GetOptions task in
  let deadline :=
    match opt_Deadline options with
    | Some d => if Before d deadline then d else deadline
    | None => deadline
    end in
  match opt_Timeout options with
  | Some timeout =>
      let attempt := time_Add now timeout in
      if Before attempt deadline then attempt else deadline
  | None => deadline
  end.

(** ** State *)

(** The circuit breaker ([goakt/v4/breaker]): built from its options, [Execute]
    records one sample, a failed one or not, at an instant, and [State] reads
    the state at one. *)
Inductive BreakerState := BreakerClosed | BreakerOpen | BreakerHalfOpen.

#[global] Instance BreakerState_eq_dec : EqDecision BreakerState.
Proof. solve_decision. Defined.

(** The failure rate is in percent. *)
Record breakerOptions := mkBreakerOptions {
  bo_FailureRate : Z;
  bo_MinRequests : Z;
  bo_OpenTimeout : Duration }.

Class CircuitBreakers := {
  Breaker : Type;
  NewCircuitBreaker : breakerOptions → Breaker;
  Execute : Time → bool → Breaker → Breaker;
  State : Time → Breaker → BreakerState }.

Definition isOpen `{CircuitBreakers} (now : Time) (b : Breaker) : bool :=
  bool_decide (State now b = BreakerOpen).

Definition breakerFailureRate : Z := 50.
Definition breakerMinRequests : Z := 10.
Definition breakerOpenTimeout : Duration := (30 * Second)%Z.

(** The breaker of a task type, as both gateways create it. *)
Definition newTypeBreaker `{CircuitBreakers} : Breaker :=
  NewCircuitBreaker (mkBreakerOptions breakerFailureRate breakerMinRequests breakerOpenTimeout).

Record GatewaySession := mkGatewaySession {
  ses_SessionID : string;
  ses_Queues : list string;
  ses_Weights : gmap string Z;
  ses_Concurrency : Z;
  ses_BatchTypes : list string }.

Record inflightTask := mkInflightTask {
  if_leaseID : string;
  if_dispatchedAt : Time;
  if_queue : string;
  if_taskType : string;
  if_retried : Z;
  if_maxRetry : Z;
  if_cancelRequested : bool;
  if_strategy : Backoff.Strategy }.

#[global] Instance inflightTask_eta : Eta inflightTask := λ e,
  mkInflightTask (if_leaseID e) (if_dispatchedAt e) (if_queue e) (if_taskType e) (if_retried e)
    (if_maxRetry e) (if_cancelRequested e) (if_strategy e).

Section Gateway.
Context {MR : MapRange} {CB : CircuitBreakers} {B : Type} `{TL : TaskLog B}.

Record Gateway := mkGateway {
  gy_session : GatewaySession;
  gy_strategy : Backoff.Strategy;
  gy_name : string;
  gy_capacities : gmap string Z;
  gy_inflight : gmap string inflightTask;
  gy_batches : gmap string (list string);
  gy_breakers : gmap string Breaker;
  gy_draining : bool }.

#[global] Instance Gateway_eta : Eta Gateway := λ g,
  mkGateway (gy_session g) (gy_strategy g) (gy_name g) (gy_capacities g) (gy_inflight g)
    (gy_batches g) (gy_breakers g) (gy_draining g).

(** What a turn sends out. *)
Inductive gatewayEffect :=
  | ToWorker (frame : ServerMessage)
  | ToGrain (queue : string) (m : grainMessage)
  | ToResolver (taskID : string)
  | ScheduleCompletion (queue taskID : string) (success : bool)
  | SessionDrained (queues : list string)
  | Unhandled.

(** The environment of a turn. [wk_send_ok] is whether the stream accepted a
    frame; [wk_schedule_ok] whether a deferred report could be scheduled;
    [wk_resolver] whether a resolver pool runs on the node. *)
Record World := mkWorld {
  wk_settings : Settings;
  wk_now : Time;
  wk_rand_N : Duration → Duration;
  wk_send_ok : ServerMessage → bool;
  wk_schedule_ok : bool;
  wk_resolver : bool }.

Record GatewayTurn := mkGatewayTurn {
  gt_gateway : Gateway;
  gt_log : B;
  gt_counters : Counters;
  gt_out : list gatewayEffect }.

#[global] Instance GatewayTurn_eta : Eta GatewayTurn := λ t,
  mkGatewayTurn (gt_gateway t) (gt_log t) (gt_counters t) (gt_out t).

Definition on_gateway (f : Gateway → Gateway) (t : GatewayTurn) : GatewayTurn :=
  t <| gt_gateway := f (gt_gateway t) |>.
Definition on_log (b : B) (t : GatewayTurn) : GatewayTurn := t <| gt_log := b |>.
Definition on_gateway_counters (f : Counters → Counters) (t : GatewayTurn) : GatewayTurn :=
  t <| gt_counters := f (gt_counters t) |>.
Definition emits (e : gatewayEffect) (t : GatewayTurn) : GatewayTurn :=
  t <| gt_out := gt_out t ++ [e] |>.

Definition countActive (n : Z) : Counters → Counters :=
  λ k, k <| ct_Active := (ct_Active k + n)%Z |>.
Definition countArchived (k : Counters) : Counters :=
  k <| ct_Archived := (ct_Archived k + 1)%Z |>.
Definition countReleased (k : Counters) : Counters :=
  k <| ct_Released := (ct_Released k + 1)%Z |>.
Definition countRetried (k : Counters) : Counters :=
  k <| ct_Retried := (ct_Retried k + 1)%Z |>.

(** [newGateway], [PreStart] and the [PostStart] name. *)
Definition PreStart (settings : Settings) (name : string) (session : GatewaySession) : Gateway :=
  let strategy := set_RetryBackoff settings in
  let strategy :=
    if (Backoff.base strategy <=? 0)%Z
    then Backoff.New Backoff.DefaultBase Backoff.DefaultCap else strategy in
  mkGateway session strategy name
    (splitCapacity (ses_Concurrency session) (ses_Queues session) (ses_Weights session))
    ∅ ∅ ∅ false.

(** ** Reports *)

Definition serves (g : Gateway) (queue : string) : bool :=
  bool_decide (queue ∈ ses_Queues (gy_session g)).

Definition register (t : GatewayTurn) : GatewayTurn :=
  let g := gt_gateway t in
  if gy_draining g then t
  else
    foldl (λ t queue, emits (ToGrain queue (MRegisterGateway
      (mkRegisterGateway queue (gy_name g) (default 0%Z (gy_capacities g !! queue))
         (ses_BatchTypes (gy_session g)) (default 0%Z (ses_Weights (gy_session g) !! queue))))) t)
      t (ses_Queues (gy_session g)).

Definition reportCompletion (queue taskID : string) (success : bool) (t : GatewayTurn)
    : GatewayTurn :=
  if negb (serves (gt_gateway t) queue) then t
  else emits (ToGrain queue (MTaskCompleted
         (mkTaskCompleted taskID queue success (gy_name (gt_gateway t))))) t.

Definition deferCompletion (w : World) (queue taskID : string) (success : bool) (t : GatewayTurn)
    : GatewayTurn :=
  if wk_schedule_ok w then emits (ScheduleCompletion queue taskID success) t
  else reportCompletion queue taskID success t.

Definition reportBatchCompletion (queue : string) (total succeeded : Z) (t : GatewayTurn)
    : GatewayTurn :=
  if negb (serves (gt_gateway t) queue) then t
  else emits (ToGrain queue (MBatchCompleted (mkBatchCompleted queue (gy_name (gt_gateway t))
                (wrap32 total) (wrap32 succeeded)))) t.

Definition refillCredit (queue : string) (t : GatewayTurn) : GatewayTurn :=
  if negb (serves (gt_gateway t) queue) then t
  else emits (ToGrain queue (MGatewayCredit
         (mkGatewayCredit queue (gy_name (gt_gateway t)) 1))) t.

Definition resolveDependents (w : World) (taskID : string) (t : GatewayTurn) : GatewayTurn :=
  if wk_resolver w then emits (ToResolver taskID) t else t.

Definition credit (n : Z) (t : GatewayTurn) : GatewayTurn :=
  foldl (λ t queue, emits (ToGrain queue (MGatewayCredit
    (mkGatewayCredit queue (gy_name (gt_gateway t)) n))) t)
    t (ses_Queues (gy_session (gt_gateway t))).

(** ** Dispatch *)

Definition trackTask (w : World) (g : Gateway) (leaseID : string) (task : TaskEnvelope)
    : inflightTask :=
  mkInflightTask leaseID (wk_now w) (env_Queue task) (env_Type task) (env_Retried task)
    (opt_MaxRetry (GetOptions task)) false
    (retryStrategyFor (gy_strategy g) (opt_RetryPolicy (GetOptions task))).

Definition dispatch (w : World) (message : ExecuteTask) (t : GatewayTurn) : GatewayTurn :=
  let task := et_Task message in
  let id := env_Id task in
  let t := on_gateway (λ g, g <| gy_inflight :=
    <[id := trackTask w g (et_LeaseId message) task]> (gy_inflight g) |>) t in
  let frame := FDispatch task
    (executionDeadlineAt (wk_now w) (et_LeaseExpiresAt message) (GetOptions task)) in
  if wk_send_ok w frame then emits (ToWorker frame) t
  else
    let t := on_gateway (λ g, g <| gy_inflight := delete id (gy_inflight g) |>) t in
    let t := on_log (log_Release id (et_LeaseId message) (wk_now w) (gt_log t)).1 t in
    on_gateway_counters countReleased (on_gateway_counters (countActive (-1)) t).

Definition releaseBatch (w : World) (leaseID : string) (ids : list string) (t : GatewayTurn)
    : GatewayTurn :=
  let t := foldl (λ t id,
    let t := on_gateway (λ g, g <| gy_inflight := delete id (gy_inflight g) |>) t in
    let t := on_log (log_Release id leaseID (wk_now w) (gt_log t)).1 t in
    on_gateway_counters countReleased (on_gateway_counters (countActive (-1)) t)) t ids in
  on_gateway (λ g, g <| gy_batches := delete leaseID (gy_batches g) |>) t.

Definition dispatchBatch (w : World) (message : ExecuteBatch) (t : GatewayTurn) : GatewayTurn :=
  let tasks := eb_Tasks message in
  if decide (tasks = []) then t
  else
    let leaseID := eb_LeaseId message in
    let t := foldl (λ t task, on_gateway (λ g, g <| gy_inflight :=
      <[env_Id task := trackTask w g leaseID task]> (gy_inflight g) |>) t) t tasks in
    let ids := env_Id <$> tasks in
    let deadline := foldl (λ d task, tightenDeadline d task (wk_now w))
                      (eb_LeaseExpiresAt message) tasks in
    let t := on_gateway (λ g, g <| gy_batches := <[leaseID := ids]> (gy_batches g) |>) t in
    let frame := FBatchDispatch tasks deadline (eb_Group message) in
    if wk_send_ok w frame then emits (ToWorker frame) t
    else releaseBatch w leaseID ids t.

(** ** Outcomes *)

(** The durable transition of one outcome: the call on the task log, the
    counter it moves, and whether it ends the task. *)
Definition transitionFor (w : World) (entry : inflightTask) (message : Result)
    : MemoryLease.lease_call * (Counters → Counters) * bool :=
  match res_Outcome message with
  | TASK_OUTCOME_SUCCESS => (MemoryLease.LAck (res_Result message), λ k, k, true)
  | TASK_OUTCOME_RETRY =>
      if if_cancelRequested entry then
        (MemoryLease.LArchive (canceledByAdminMessage +:+ res_ErrorMsg message), countArchived, true)
      else if (if_maxRetry entry <=? if_retried entry)%Z then
        (MemoryLease.LArchive (retriesExhaustedMessage +:+ res_ErrorMsg message), countArchived, true)
      else
        (MemoryLease.LFail (res_ErrorMsg message)
           (time_Add (wk_now w) (Backoff.Delay (wk_rand_N w) (if_strategy entry) (if_retried entry))),
         countRetried, false)
  | TASK_OUTCOME_SKIP_RETRY => (MemoryLease.LArchive (res_ErrorMsg message), countArchived, true)
  | TASK_OUTCOME_RELEASED =>
      if if_cancelRequested entry then
        (MemoryLease.LArchive (canceledByAdminMessage +:+ res_ErrorMsg message), countArchived, true)
      else (MemoryLease.LRelease, countReleased, false)
  | TASK_OUTCOME_UNSPECIFIED => (MemoryLease.LRelease, countReleased, false)
  end.

(** The log and counters after the transition, and the pair
    [(success, terminal)]. *)
Definition applyOutcome (w : World) (entry : inflightTask) (message : Result) (b : B)
    (counters : Counters) : B * Counters * (bool * bool) :=
  let '(c, count, terminated) := transitionFor w entry message in
  let '(b, err) := log_call c (res_TaskId message) (if_leaseID entry) (wk_now w) b in
  (b, count counters,
   match err with
   | Some _ => (false, false)
   | None => (bool_decide (res_Outcome message = TASK_OUTCOME_SUCCESS), terminated)
   end).

Definition breakerFor (g : Gateway) (taskType : string) : Breaker :=
  default newTypeBreaker (gy_breakers g !! taskType).

Definition recordOutcome (w : World) (taskType : string) (outcome : TaskOutcome) (g : Gateway)
    : Gateway :=
  let sample (failed : bool) :=
    g <| gy_breakers := <[taskType := Execute (wk_now w) failed (breakerFor g taskType)]> (gy_breakers g) |> in
  match outcome with
  | TASK_OUTCOME_SUCCESS => sample false
  | TASK_OUTCOME_RETRY => sample true
  | _ => g
  end.

Definition result (w : World) (message : Result) (t : GatewayTurn) : GatewayTurn :=
  let id := res_TaskId message in
  match gy_inflight (gt_gateway t) !! id with
  | None => t
  | Some entry =>
      let t := on_gateway (λ g, g <| gy_inflight := delete id (gy_inflight g) |>) t in
      let '(b, counters, (success, terminal)) :=
        applyOutcome w entry message (gt_log t) (gt_counters t) in
      let t := t <| gt_log := b |> <| gt_counters := counters |> in
      let t := on_gateway (recordOutcome w (if_taskType entry) (res_Outcome message)) t in
      let t := if terminal then resolveDependents w id t else t in
      (* [breakerFor] creates the breaker on first use *)
      let breaker := breakerFor (gt_gateway t) (if_taskType entry) in
      let t := on_gateway (λ g, g <| gy_breakers :=
        <[if_taskType entry := breaker]> (gy_breakers g) |>) t in
      if isOpen (wk_now w) breaker then deferCompletion w (if_queue entry) id success t
      else reportCompletion (if_queue entry) id success t
  end.

Definition progress (w : World) (taskID : string) (percent : Z) (message : string)
    (t : GatewayTurn) : GatewayTurn :=
  match gy_inflight (gt_gateway t) !! taskID with
  | None => t
  | Some entry =>
      on_log (log_SetProgress taskID (if_leaseID entry) percent message (wk_now w) (gt_log t)).1 t
  end.

(** ** Batches *)

(** The state of the loop over a batch's members. *)
Record batchLoop := mkBatchLoop {
  bl_turn : GatewayTurn;
  bl_successes : list AckItem;
  bl_entries : gmap string inflightTask;
  bl_total : Z;
  bl_succeeded : Z }.

#[global] Instance batchLoop_eta : Eta batchLoop := λ l,
  mkBatchLoop (bl_turn l) (bl_successes l) (bl_entries l) (bl_total l) (bl_succeeded l).

Definition batchMember (w : World) (resultByID : gmap string Result) (l : batchLoop)
    (taskID : string) : batchLoop :=
  match gy_inflight (gt_gateway (bl_turn l)) !! taskID with
  | None => l
  | Some entry =>
      let t := on_gateway (λ g, g <| gy_inflight := delete taskID (gy_inflight g) |>) (bl_turn l) in
      let l := l <| bl_entries := <[taskID := entry]> (bl_entries l) |>
                 <| bl_total := (bl_total l + 1)%Z |> in
      let result := default (mkResult taskID TASK_OUTCOME_RELEASED "" []) (resultByID !! taskID) in
      if decide (res_Outcome result = TASK_OUTCOME_SUCCESS) then
        l <| bl_turn := t |>
          <| bl_successes := bl_successes l ++ [mkAckItem taskID (if_leaseID entry) (res_Result result)] |>
      else
        let '(b, counters, (success, terminal)) :=
          applyOutcome w entry result (gt_log t) (gt_counters t) in
        let t := t <| gt_log := b |> <| gt_counters := counters |> in
        let t := on_gateway (recordOutcome w (if_taskType entry) (res_Outcome result)) t in
        let l := if success then l <| bl_succeeded := (bl_succeeded l + 1)%Z |> else l in
        l <| bl_turn := if terminal then resolveDependents w taskID t else t |>
  end.

(** The turn after the round trip, and the ids that completed. *)
Definition ackBatch (w : World) (items : list AckItem) (entries : gmap string inflightTask)
    (t : GatewayTurn) : GatewayTurn * list string :=
  if decide (items = []) then (t, [])
  else
    let '(b, (acked, _)) := log_AckBatch items (wk_now w) (gt_log t) in
    let t := on_log b t in
    let t := foldl (λ t item,
      match entries !! ack_TaskID item with
      | Some entry => on_gateway (recordOutcome w (if_taskType entry) TASK_OUTCOME_SUCCESS) t
      | None => t
      end) t items in
    (t, acked).

(** The lease and queue of the first result whose task is tracked. *)
Fixpoint batchOf (inflight : gmap string inflightTask) (results : list Result)
    : option (string * string) :=
  match results with
  | [] => None
  | result :: results =>
      match inflight !! res_TaskId result with
      | Some entry => Some (if_leaseID entry, if_queue entry)
      | None => batchOf inflight results
      end
  end.

Definition batchResult (w : World) (results : list Result) (t : GatewayTurn) : GatewayTurn :=
  let resultByID :=
    foldl (λ m result, <[res_TaskId result := result]> m) (∅ : gmap string Result) results in
  let '(leaseID, queue) := default ("", "") (batchOf (gy_inflight (gt_gateway t)) results) in
  if decide (leaseID = "") then t
  else
    let members := default [] (gy_batches (gt_gateway t) !! leaseID) in
    let t := on_gateway (λ g, g <| gy_batches := delete leaseID (gy_batches g) |>) t in
    let l := foldl (batchMember w resultByID) (mkBatchLoop t [] ∅ 0 0) members in
    let '(t, acked) := ackBatch w (bl_successes l) (bl_entries l) (bl_turn l) in
    let t := foldl (λ t taskID, resolveDependents w taskID t) t acked in
    reportBatchCompletion queue (bl_total l)
      (bl_succeeded l + Z.of_nat (length acked))%Z t.

(** ** Leases lost, cancelled and given up *)

Definition refundLostLease (entry : inflightTask) (t : GatewayTurn) : GatewayTurn :=
  match gy_batches (gt_gateway t) !! if_leaseID entry with
  | Some members =>
      if existsb (λ member, bool_decide (is_Some (gy_inflight (gt_gateway t) !! member))) members
      then t
      else refillCredit (if_queue entry)
             (on_gateway (λ g, g <| gy_batches := delete (if_leaseID entry) (gy_batches g) |>) t)
  | None => refillCredit (if_queue entry) t
  end.

(** A frame whose send fails is logged and dropped. *)
Definition sendCancel (w : World) (taskID : string) (t : GatewayTurn) : GatewayTurn :=
  if wk_send_ok w (FCancel taskID) then emits (ToWorker (FCancel taskID)) t else t.

(** The body of the loop over the reported ids. *)
Definition heartbeatTask (w : World) (t : GatewayTurn) (taskID : string) : GatewayTurn :=
  match gy_inflight (gt_gateway t) !! taskID with
  | None => t
  | Some entry =>
      let '(b, err) := log_ExtendLease taskID (if_leaseID entry) (set_LeaseTTL (wk_settings w))
                         (wk_now w) (gt_log t) in
      let t := on_log b t in
      match err with
      | Some ErrLeaseLost =>
          let t := on_gateway (λ g, g <| gy_inflight := delete taskID (gy_inflight g) |>) t in
          let t := on_gateway_counters (countActive (-1)) t in
          sendCancel w taskID (refundLostLease entry t)
      | _ => t
      end
  end.

Definition heartbeat (w : World) (activeTaskIDs : list string) (t : GatewayTurn) : GatewayTurn :=
  foldl (heartbeatTask w) t activeTaskIDs.

Definition cancelActive (w : World) (taskID : string) (t : GatewayTurn) : GatewayTurn :=
  match gy_inflight (gt_gateway t) !! taskID with
  | None => t
  | Some entry =>
      sendCancel w taskID (on_gateway (λ g, g <| gy_inflight :=
        <[taskID := entry <| if_cancelRequested := true |>]> (gy_inflight g) |>) t)
  end.

Definition drain (w : World) (t : GatewayTurn) : GatewayTurn :=
  let t := foldl (λ t '(taskID, entry),
    on_gateway_counters (countActive (-1))
      (on_log (log_Release taskID (if_leaseID entry) (wk_now w) (gt_log t)).1 t))
    t (range_map (gy_inflight (gt_gateway t))) in
  on_gateway (λ g, g <| gy_inflight := ∅ |> <| gy_batches := ∅ |> <| gy_draining := true |>) t.

(** ** The mailbox *)

Inductive gatewayMessage :=
  | GPostStart
  | GRegisterTick
  | GDrainSession
  | GExecuteTask (m : ExecuteTask)
  | GExecuteBatch (m : ExecuteBatch)
  | GResult (m : Result)
  | GBatchResult (results : list Result)
  | GHeartbeat (activeTaskIDs : list string)
  | GProgress (taskID : string) (percent : Z) (message : string)
  | GCredit (n : Z)
  | GCancelActive (taskID : string)
  | GDeferredCompletion (queue taskID : string) (success : bool)
  | GOther.

Definition Receive (w : World) (message : gatewayMessage) (t : GatewayTurn) : GatewayTurn :=
  match message with
  | GPostStart | GRegisterTick => register t
  | GDrainSession => let t := drain w t in
      emits (SessionDrained (ses_Queues (gy_session (gt_gateway t)))) t
  | GExecuteTask m => dispatch w m t
  | GExecuteBatch m => dispatchBatch w m t
  | GResult m => result w m t
  | GBatchResult results => batchResult w results t
  | GHeartbeat ids => heartbeat w ids t
  | GProgress id percent text => progress w id percent text t
  | GCredit n => credit n t
  | GCancelActive id => cancelActive w id t
  | GDeferredCompletion queue id success => reportCompletion queue id success t
  | GOther => emits Unhandled t
  end.
End Gateway.
