(* ===== verification/Capacity.v ===== *)
(** * Splitting a worker's capacity over its queues

    Facts about [splitCapacity] (internal/actors/gateway.go): the arithmetic
    stays within its machine widths, the leftover slots are all handed out, and
    the shares add up to the declared concurrency. *)

From S2P Require Import Prelude Proto Backoff Messages Gateway.

#[local] Open Scope Z_scope.

(** ** Handing out the leftover *)

Lemma handOut_spec leftover shares :
  0 <= leftover <= Z.of_nat (length shares) → leftover < 2 ^ 31 →
  (∀ s, s ∈ shares → 0 <= sh_base s < 2 ^ 31 - 1) →
  sh_queue <$> handOut leftover shares = sh_queue <$> shares ∧
  sumZ sh_base (handOut leftover shares) = sumZ sh_base shares + leftover ∧
  Forall2 (λ s' s, sh_queue s' = sh_queue s ∧ sh_base s <= sh_base s' <= sh_base s + 1)
    (handOut leftover shares) shares.
Proof.
  revert leftover. induction shares as [|s shares IH]; intros leftover Hl Hb Hs.
  { unfold sumZ. cbn in *. repeat split; [lia|constructor]. }
  cbn [handOut]. destruct (Z.leb_spec leftover 0).
  { assert (leftover = 0) as -> by lia. repeat split; [lia|].
    apply Forall_Forall2_diag, Forall_forall. intros; split; [done|lia]. }
  cbn [length] in Hl. rewrite Nat2Z.inj_succ in Hl.
  pose proof (Hs s ltac:(left)).
  rewrite !wrap32_id by (unfold int32_range; lia).
  destruct (IH (leftover - 1)) as (H1 & H2 & H3); [lia|lia|intros; apply Hs; by right|].
  repeat split.
  - cbn. by f_equal.
  - unfold sumZ in *. cbn. lia.
  - constructor; [cbn; split; [done|lia]|done].
Qed.

(** ** The split *)

Lemma queueWeight_bounds (weights : gmap string Z) q :
  (∀ q v, weights !! q = Some v → int32_range v) → 1 <= queueWeight weights q < 2 ^ 31.
Proof.
  intros Hw. unfold queueWeight. destruct (weights !! q) as [v|] eqn:E; cbn; [|lia].
  apply Hw in E. unfold int32_range in E. lia.
Qed.

(** The exact share of the unreserved slots, rounded down. *)
Definition exact_share (concurrency : Z) (queues : list string) (weights : gmap string Z)
    (q : string) : Z :=
  (concurrency - Z.of_nat (length queues)) * queueWeight weights q
    / sumZ (queueWeight weights) queues.

Section Split.
Context (concurrency : Z) (queues : list string) (weights : gmap string Z).
Context (Hnd : NoDup queues) (Hne : queues ≠ []).
Context (Hweights : ∀ q v, weights !! q = Some v → int32_range v).
Context (Hlen : Z.of_nat (length queues) < 2 ^ 31) (Hconc : int32_range concurrency).

Local Abbreviation n := (Z.of_nat (length queues)).
Local Abbreviation w := (queueWeight weights).
Local Abbreviation T := (sumZ (queueWeight weights) queues).
Local Abbreviation spare := (concurrency - Z.of_nat (length queues)).
Local Abbreviation exact := (exact_share concurrency queues weights).

Lemma weight_pos q : 1 <= w q < 2 ^ 31.
Proof. by apply queueWeight_bounds. Qed.

Lemma queues_nonempty : 1 <= n.
Proof. destruct queues; [done|]. cbn. lia. Qed.

Lemma totalWeight_bounds : n <= T <= n * 2 ^ 31.
Proof.
  pose proof (sumZ_le (λ _, 1) w queues) as H1. pose proof (sumZ_le w (λ _, 2 ^ 31) queues) as H2.
  rewrite !sumZ_const in *.
  specialize (H1 (λ x _, proj1 (weight_pos x))).
  specialize (H2 (λ x _, Z.lt_le_incl _ _ (proj2 (weight_pos x)))). lia.
Qed.

Lemma weight_le_total q : q ∈ queues → w q <= T.
Proof.
  intros Hq. apply sumZ_in; [|done]. intros x _. pose proof (weight_pos x). lia.
Qed.

Lemma totalWeight_exact :
  foldl (λ total queue, wrap64 (total + queueWeight weights queue)) 0 queues = T.
Proof.
  rewrite foldl_wrap64; [done| |lia|].
  - intros x _. pose proof (weight_pos x). lia.
  - pose proof totalWeight_bounds. lia.
Qed.

Context (Hmore : n < concurrency).

Lemma exact_share_bounds q : q ∈ queues → 0 <= exact q <= spare.
Proof.
  intros Hq. pose proof (weight_pos q). pose proof totalWeight_bounds.
  pose proof queues_nonempty. pose proof (weight_le_total q Hq).
  unfold exact_share. split; [apply Z.div_pos; nia|apply Z.div_le_upper_bound; nia].
Qed.

(** The leftover slots are at most as many as the queues. *)
Lemma leftover_bounds : 0 <= spare - sumZ exact queues <= n.
Proof.
  pose proof totalWeight_bounds as HT. pose proof queues_nonempty as Hn1.
  assert (E : T * sumZ exact queues + sumZ (λ q, (spare * w q) mod T) queues = spare * T).
  { rewrite <- (sumZ_mul spare), <- (sumZ_mul T), <- sumZ_add.
    apply sumZ_ext. intros q _. unfold exact_share. symmetry. apply Z.div_mod. lia. }
  pose proof (sumZ_nonneg (λ q, (spare * w q) mod T) queues) as H1.
  pose proof (sumZ_le (λ q, (spare * w q) mod T) (λ _, T) queues) as H2.
  rewrite sumZ_const in H2.
  assert (∀ q, 0 <= (spare * w q) mod T < T) as Hm by (intros; apply Z.mod_pos_bound; lia).
  specialize (H1 (λ q _, proj1 (Hm q))).
  specialize (H2 (λ q _, Z.lt_le_incl _ _ (proj2 (Hm q)))). nia.
Qed.

(** The shares before the leftover is handed out. *)
Definition floored (q : string) : share :=
  mkShare q (exact q) (Z.rem (spare * w q) T).

Lemma floored_exact q : q ∈ queues →
  mkShare q (wrap32 (Z.quot (wrap64 (wrap32 spare * w q)) T))
    (Z.rem (wrap64 (wrap32 spare * w q)) T) = floored q.
Proof.
  intros Hq. pose proof (weight_pos q). pose proof totalWeight_bounds. pose proof queues_nonempty.
  pose proof (exact_share_bounds q Hq) as He. unfold int32_range in Hconc.
  rewrite (wrap32_id spare) by (unfold int32_range; lia).
  rewrite (wrap64_id (spare * w q)) by (unfold int64_range; nia).
  unfold floored. f_equal.
  unfold exact_share in *. rewrite Z.quot_div_nonneg by nia.
  apply wrap32_id. unfold int32_range. lia.
Qed.

Definition handed : list share :=
  handOut (spare - sumZ exact queues) (sort_Slice shareBefore (floored <$> queues)).

Lemma sorted_shares_perm : sort_Slice shareBefore (floored <$> queues) ≡ₚ floored <$> queues.
Proof. apply SortFunc_perm. Qed.

Lemma handed_spec :
  sh_queue <$> handed ≡ₚ queues ∧ sumZ sh_base handed = spare ∧
  (∀ s, s ∈ handed → sh_queue s ∈ queues ∧
     exact (sh_queue s) <= sh_base s <= exact (sh_queue s) + 1).
Proof.
  pose proof leftover_bounds as Hl. pose proof queues_nonempty as Hn. unfold int32_range in Hconc.
  assert (Hin : ∀ s, s ∈ sort_Slice shareBefore (floored <$> queues) →
            sh_queue s ∈ queues ∧ sh_base s = exact (sh_queue s)).
  { intros s. rewrite sorted_shares_perm, list_elem_of_fmap. by intros (q & -> & Hq). }
  destruct (handOut_spec (spare - sumZ exact queues)
              (sort_Slice shareBefore (floored <$> queues))) as (H1 & H2 & H3).
  - rewrite sorted_shares_perm, length_fmap. lia.
  - lia.
  - intros s Hs. apply Hin in Hs as [Hq ->]. pose proof (exact_share_bounds _ Hq). lia.
  - fold handed in H1, H2, H3. split; [|split].
    + rewrite H1, sorted_shares_perm, <- list_fmap_compose.
      apply Permutation_refl'. rewrite <- (list_fmap_id queues) at 2. by apply list_fmap_ext.
    + rewrite H2, (sumZ_perm _ _ _ sorted_shares_perm), sumZ_fmap.
      change (λ x, sh_base (floored x)) with exact. lia.
    + intros s' Hs'. apply list_elem_of_lookup in Hs' as [i Hi].
      destruct (Forall2_lookup_l _ _ _ _ _ H3 Hi) as (s & Hs & -> & Hb).
      apply list_elem_of_lookup_2, Hin in Hs as [Hq He]. split; [done|lia].
Qed.

Lemma splitCapacity_handed :
  splitCapacity concurrency queues weights =
    foldl (λ m s, <[sh_queue s := sh_base s + 1]> m) ∅ handed.
Proof.
  pose proof queues_nonempty as Hn. pose proof leftover_bounds as Hl.
  destruct handed_spec as (Hp & Hs & Hh). unfold int32_range in Hconc.
  unfold splitCapacity. rewrite decide_False by done.
  rewrite (wrap32_id n) by (unfold int32_range; lia).
  destruct (Z.leb_spec concurrency n); [lia|].
  rewrite totalWeight_exact. cbv zeta.
  rewrite (fmap_ext_in _ floored) by (intros q Hq; by apply floored_exact).
  assert (sumZ sh_base (floored <$> queues) = sumZ exact queues) as Es
    by by rewrite sumZ_fmap.
  rewrite (foldl_wrap32 sh_base (floored <$> queues)); rewrite ?Es; [| |lia|].
  - rewrite Z.add_0_l, (wrap32_id spare) by (unfold int32_range; lia).
    rewrite (wrap32_id (spare - _)) by (unfold int32_range; lia). fold handed.
    apply foldl_ext_in. intros m s Hs'. destruct (Hh s Hs') as [Hq Hb].
    pose proof (exact_share_bounds _ Hq). rewrite wrap32_id; [done|].
    assert (sh_base s <= sumZ sh_base handed).
    { apply sumZ_in; [|done]. intros x Hx. destruct (Hh x Hx) as [Hqx Hbx].
      pose proof (exact_share_bounds _ Hqx). lia. }
    unfold int32_range. lia.
  - intros s. rewrite list_elem_of_fmap. intros (q & -> & Hq). cbn.
    by apply exact_share_bounds.
  - lia.
Qed.

Lemma splitCapacity_plenty :
  dom (splitCapacity concurrency queues weights) = list_to_set queues ∧
  sumZ (λ q, default 0 (splitCapacity concurrency queues weights !! q)) queues = concurrency ∧
  (∀ q, q ∈ queues → ∃ c, splitCapacity concurrency queues weights !! q = Some c ∧
     exact q + 1 <= c <= exact q + 2).
Proof.
  destruct handed_spec as (Hp & Hs & Hh). rewrite splitCapacity_handed.
  assert (Hn : NoDup (sh_queue <$> handed)) by by rewrite Hp.
  split; [|split].
  - rewrite foldl_insert_dom, dom_empty_L, (right_id_L ∅ (∪)). apply set_eq. intros q.
    by rewrite !elem_of_list_to_set, Hp.
  - rewrite <- (sumZ_perm _ _ _ Hp), sumZ_fmap.
    rewrite (sumZ_ext _ (λ s, sh_base s + 1)).
    + rewrite sumZ_add, sumZ_const, Hs, <- (length_fmap sh_queue handed), Hp. lia.
    + intros s Hin. by rewrite (foldl_insert_in sh_queue (λ s, sh_base s + 1)) by done.
  - intros q Hq. rewrite <- Hp in Hq. apply list_elem_of_fmap in Hq as (s & -> & Hin).
    exists (sh_base s + 1).
    rewrite (foldl_insert_in sh_queue (λ s, sh_base s + 1)) by done.
    pose proof (Hh s Hin). split; [done|lia].
Qed.
End Split.

Lemma splitCapacity_scarce concurrency queues weights :
  queues ≠ [] → Z.of_nat (length queues) < 2 ^ 31 → concurrency <= Z.of_nat (length queues) →
  dom (splitCapacity concurrency queues weights) = list_to_set queues ∧
  (∀ q, q ∈ queues → splitCapacity concurrency queues weights !! q = Some 1).
Proof.
  intros Hne Hlen Hc. unfold splitCapacity. rewrite decide_False by done.
  rewrite wrap32_id by (unfold int32_range; lia). destruct (Z.leb_spec concurrency
    (Z.of_nat (length queues))); [|lia]. split.
  - rewrite (foldl_insert_dom id (λ _, 1)). rewrite dom_empty_L, list_fmap_id. set_solver.
  - clear. intros q Hq. generalize (∅ : gmap string Z). induction queues as [|x l IH]; intros m.
    { by apply not_elem_of_nil in Hq. }
    cbn. destruct (decide (q ∈ l)) as [Hl|Hl]; [by apply IH|].
    apply elem_of_cons in Hq as [->|?]; [|done]. clear IH.
    assert (∀ m : gmap string Z, m !! x = Some 1 →
      foldl (λ capacities queue, <[queue := 1]> capacities) m l !! x = Some 1) as H.
    { clear. induction l as [|y l IH]; intros m Hm; [done|]. cbn. apply IH.
      destruct (decide (x = y)) as [->|]; [apply lookup_insert_eq|by rewrite lookup_insert_ne]. }
    apply H, lookup_insert_eq.
Qed.
