(* ===== verification/GatewayFacts.v ===== *)
(** * Facts about the worker gateway

    The accounting of a turn: what it does to the tasks the gateway tracks, to
    the [Active] gauge and to the completions it reports; and what each
    operation leaves alone. *)

From S2P Require Import Prelude Proto BrokerApi Backoff Messages MemoryLease TaskLog Gateway Capacity.
From Stdlib Require Import Strings.Byte.

#[local] Open Scope Z_scope.

Section Facts.
Context {MR : MapRange} {CB : CircuitBreakers} {B : Type} `{TL : TaskLog B}.
Implicit Types (t : GatewayTurn (B := B)) (w : World) (g : Gateway).

(** ** The ledger *)

(** How many deliveries one effect reports back to a queue grain, which then
    takes them off the [Active] gauge. *)
Definition reports (e : gatewayEffect) : Z :=
  match e with
  | ToGrain _ (MTaskCompleted _) => 1
  | ToGrain _ (MBatchCompleted m) => bc_Total m
  | ScheduleCompletion _ _ _ => 1
  | _ => 0
  end.

Definition reported (out : list gatewayEffect) : Z := sumZ reports out.

#[local] Arguments reported : simpl never.

Definition tracked t : gmap string inflightTask := gy_inflight (gt_gateway t).

Definition ledger t : Z :=
  ct_Active (gt_counters t) - Z.of_nat (size (tracked t)) - reported (gt_out t).

(** Every tracked task is of a queue the session declared. *)
Definition served t : Prop :=
  ∀ id entry, tracked t !! id = Some entry → serves (gt_gateway t) (if_queue entry) = true.

(** [t'] follows [t], having accounted for [k] deliveries that came from
    outside. *)
Definition balanced (k : Z) t t' : Prop :=
  gy_session (gt_gateway t') = gy_session (gt_gateway t) ∧
  (served t → served t') ∧ ledger t' = ledger t - k.

Lemma balanced_refl t : balanced 0 t t.
Proof. split; [done|split; [done|lia]]. Qed.

Lemma balanced_trans k1 k2 k t1 t2 t3 :
  balanced k1 t1 t2 → balanced k2 t2 t3 → k = k1 + k2 → balanced k t1 t3.
Proof. intros (S1 & V1 & L1) (S2 & V2 & L2) ->. split; [congruence|split; [auto|lia]]. Qed.

Lemma balanced_then k t1 t2 t3 : balanced k t1 t2 → balanced 0 t2 t3 → balanced k t1 t3.
Proof. intros H1 H2. eapply balanced_trans; [exact H1|exact H2|lia]. Qed.

Lemma reported_app out out' : reported (out ++ out') = reported out + reported out'.
Proof. unfold reported, sumZ. induction out as [|e out IH]; cbn; [done|]. rewrite IH. lia. Qed.

(** A step that keeps the session and the tracked tasks. *)
Lemma balanced_frame k t t' :
  gy_session (gt_gateway t') = gy_session (gt_gateway t) → tracked t' = tracked t →
  ct_Active (gt_counters t') - reported (gt_out t') =
    ct_Active (gt_counters t) - reported (gt_out t) - k →
  balanced k t t'.
Proof.
  intros HS HT HA. split; [done|]. unfold ledger. rewrite HT. split; [|lia].
  intros Hs id entry. rewrite HT. unfold serves. rewrite HS. apply Hs.
Qed.

Lemma balanced_emits k e t : reports e = k → balanced k t (emits e t).
Proof.
  intros <-. apply balanced_frame; [done..|]. change (gt_out (emits e t)) with (gt_out t ++ [e]).
  rewrite reported_app. change (reported [e]) with (reports e + 0). cbn. lia.
Qed.

Lemma balanced_log b t : balanced 0 t (on_log b t).
Proof. apply balanced_frame; [done..|]. cbn. lia. Qed.

Lemma balanced_active n t : balanced (- n) t (on_gateway_counters (countActive n) t).
Proof. apply balanced_frame; [done..|]. cbn. lia. Qed.

(** The counter updates that leave [Active] alone. *)
Lemma balanced_counters f t :
  ct_Active (f (gt_counters t)) = ct_Active (gt_counters t) →
  balanced 0 t (on_gateway_counters f t).
Proof. intros H. apply balanced_frame; [done..|]. cbn. lia. Qed.

Definition untrack (id : string) t : GatewayTurn :=
  on_gateway (λ g, g <| gy_inflight := delete id (gy_inflight g) |>) t.

Lemma balanced_untrack id t entry :
  tracked t !! id = Some entry → balanced (-1) t (untrack id t).
Proof.
  intros H. split; [done|]. split.
  - intros Hs id' entry' Hl. apply (Hs id'). unfold tracked in *. cbn in Hl.
    by apply lookup_delete_Some in Hl as [_ Hl].
  - unfold ledger, tracked in *. cbn.
    rewrite map_size_delete_Some by eauto.
    assert (0 < size (gy_inflight (gt_gateway t)))%nat.
    { destruct (decide (size (gy_inflight (gt_gateway t)) = 0%nat)) as [E|]; [|lia]. apply map_size_empty_inv in E. by rewrite E in H. }
    lia.
Qed.

(** A delivery of a task that is tracked already replaces its entry. *)
Definition already t (id : string) : Z := if decide (is_Some (tracked t !! id)) then 1 else 0.

Lemma balanced_track id entry t :
  serves (gt_gateway t) (if_queue entry) = true →
  balanced (1 - already t id) t
    (on_gateway (λ g, g <| gy_inflight := <[id := entry]> (gy_inflight g) |>) t).
Proof.
  intros Hq. split; [done|]. split.
  - intros Hs id' entry' Hl. unfold tracked in Hl. cbn in Hl.
    apply lookup_insert_Some in Hl as [[_ <-]|[_ Hl]]; [done|]. by apply (Hs id').
  - unfold ledger, already, tracked in *. cbn.
    destruct (gy_inflight (gt_gateway t) !! id) eqn:E.
    + rewrite decide_True by eauto. rewrite map_size_insert_Some by eauto. lia.
    + rewrite decide_False by (by intros [? ?]). rewrite map_size_insert_None by done. lia.
Qed.

(** A change of the gateway that keeps its session and its tracked tasks. *)
Lemma balanced_gateway f t :
  gy_session (f (gt_gateway t)) = gy_session (gt_gateway t) →
  gy_inflight (f (gt_gateway t)) = gy_inflight (gt_gateway t) →
  balanced 0 t (on_gateway f t).
Proof. intros HS HI. apply balanced_frame; [done..|]. cbn. lia. Qed.

Lemma balanced_foldl {A} (f : GatewayTurn (B := B) → A → GatewayTurn) (k : A → Z) l t :
  (∀ t x, x ∈ l → balanced (k x) t (f t x)) → balanced (sumZ k l) t (foldl f t l).
Proof.
  revert t. induction l as [|x l IH]; intros t H; [apply balanced_refl|]. cbn.
  eapply balanced_trans; [apply H; left| |reflexivity]. apply IH. intros; apply H. by right.
Qed.

(** ** The operations *)

Lemma balanced_reportCompletion queue id success t :
  serves (gt_gateway t) queue = true → balanced 1 t (reportCompletion queue id success t).
Proof. intros H. unfold reportCompletion. rewrite H. by apply balanced_emits. Qed.

Lemma balanced_reportBatch queue total succeeded t :
  serves (gt_gateway t) queue = true → int32_range total →
  balanced total t (reportBatchCompletion queue total succeeded t).
Proof.
  intros H Hr. unfold reportBatchCompletion. rewrite H. cbn [negb].
  apply balanced_emits. by apply wrap32_id.
Qed.

Lemma balanced_deferCompletion w queue id success t :
  serves (gt_gateway t) queue = true → balanced 1 t (deferCompletion w queue id success t).
Proof.
  intros H. unfold deferCompletion. destruct (wk_schedule_ok w).
  - by apply balanced_emits.
  - by apply balanced_reportCompletion.
Qed.

Lemma balanced_resolve w id t : balanced 0 t (resolveDependents w id t).
Proof.
  unfold resolveDependents. destruct (wk_resolver w); [|apply balanced_refl].
  by apply balanced_emits.
Qed.

Lemma balanced_resolve_if w (terminal : bool) id t :
  balanced 0 t (if terminal then resolveDependents w id t else t).
Proof. destruct terminal; [apply balanced_resolve|apply balanced_refl]. Qed.

Lemma balanced_refillCredit queue t : balanced 0 t (refillCredit queue t).
Proof.
  unfold refillCredit. destruct (negb _); [apply balanced_refl|].
  by apply balanced_emits.
Qed.

Lemma balanced_sendCancel w id t : balanced 0 t (sendCancel w id t).
Proof.
  unfold sendCancel. destruct (wk_send_ok _ _); [|apply balanced_refl].
  by apply balanced_emits.
Qed.

Lemma recordOutcome_frame w taskType outcome g :
  gy_session (recordOutcome w taskType outcome g) = gy_session g ∧
  gy_inflight (recordOutcome w taskType outcome g) = gy_inflight g ∧
  gy_batches (recordOutcome w taskType outcome g) = gy_batches g.
Proof. by destruct outcome. Qed.

Lemma balanced_recordOutcome w taskType outcome t :
  balanced 0 t (on_gateway (recordOutcome w taskType outcome) t).
Proof. apply balanced_gateway; apply recordOutcome_frame. Qed.

Lemma transitionFor_active w entry message c count terminated k :
  transitionFor w entry message = (c, count, terminated) → ct_Active (count k) = ct_Active k.
Proof.
  unfold transitionFor. destruct (res_Outcome message); repeat case_match; by intros [= <- <- <-].
Qed.

Lemma applyOutcome_active w entry message b k b' k' r :
  applyOutcome w entry message b k = (b', k', r) → ct_Active k' = ct_Active k.
Proof.
  unfold applyOutcome. destruct (transitionFor w entry message) as [[c count] terminated] eqn:E.
  destruct (log_call _ _ _ _ _) as [b1 err]. intros [= <- <- <-].
  by eapply transitionFor_active.
Qed.

Lemma balanced_apply b k t :
  ct_Active k = ct_Active (gt_counters t) →
  balanced 0 t (t <| gt_log := b |> <| gt_counters := k |>).
Proof. intros H. apply balanced_frame; [done..|]. cbn. lia. Qed.

Lemma balanced_serves k t t' queue :
  balanced k t t' → serves (gt_gateway t) queue = true → serves (gt_gateway t') queue = true.
Proof. intros (H & _ & _). unfold serves. by rewrite H. Qed.

Lemma balanced_result w message t : served t → balanced 0 t (result w message t).
Proof.
  intros Hs. unfold result. destruct (gy_inflight (gt_gateway t) !! res_TaskId message)
    as [entry|] eqn:E; [|apply balanced_refl].
  pose proof (balanced_untrack _ _ _ E) as H1. pose proof (Hs _ _ E) as Hq.
  fold (untrack (res_TaskId message) t). set (t1 := untrack (res_TaskId message) t) in *.
  destruct (applyOutcome _ _ _ _ _) as [[b k] [success terminal]] eqn:Ea.
  pose proof (balanced_apply b k t1 (applyOutcome_active _ _ _ _ _ _ _ _ Ea)) as H2.
  set (t2 := t1 <| gt_log := b |> <| gt_counters := k |>) in *.
  pose proof (balanced_recordOutcome w (if_taskType entry) (res_Outcome message) t2) as H3.
  set (t3 := on_gateway (recordOutcome w (if_taskType entry) (res_Outcome message)) t2) in *.
  pose proof (balanced_resolve_if w terminal (res_TaskId message) t3) as H4.
  set (t4 := if terminal then _ else t3) in *.
  set (brk := breakerFor _ _).
  assert (H5 : balanced 0 t4 (on_gateway (λ g, g <| gy_breakers :=
    <[if_taskType entry := brk]> (gy_breakers g) |>) t4)) by by apply balanced_gateway.
  set (t5 := on_gateway _ t4) in *.
  assert (H15 : balanced (-1) t t5) by eauto 6 using balanced_then.
  pose proof (balanced_serves _ _ _ _ H15 Hq) as Hq5.
  destruct (isOpen _ _); (eapply (balanced_trans (-1) 1); [exact H15| |done]).
  - by apply balanced_deferCompletion.
  - by apply balanced_reportCompletion.
Qed.

Lemma balanced_register t : balanced 0 t (register t).
Proof.
  unfold register. destruct (gy_draining _); [apply balanced_refl|].
  eapply balanced_trans; [|apply balanced_refl|].
  - apply (balanced_foldl _ (λ _, 0)). intros. by apply balanced_emits.
  - rewrite sumZ_const. lia.
Qed.

Lemma balanced_credit n t : balanced 0 t (credit n t).
Proof.
  unfold credit. eapply balanced_trans; [|apply balanced_refl|].
  - apply (balanced_foldl _ (λ _, 0)). intros. by apply balanced_emits.
  - rewrite sumZ_const. lia.
Qed.

Lemma balanced_progress w id percent text t : balanced 0 t (progress w id percent text t).
Proof. unfold progress. case_match; [apply balanced_log|apply balanced_refl]. Qed.

Lemma balanced_cancelActive w id t : balanced 0 t (cancelActive w id t).
Proof.
  unfold cancelActive. destruct (gy_inflight (gt_gateway t) !! id) as [entry|] eqn:E;
    [|apply balanced_refl].
  eapply balanced_then; [|apply balanced_sendCancel]. split; [done|]. split.
  - intros Hs id' entry' Hl. unfold tracked in Hl. cbn in Hl.
    apply lookup_insert_Some in Hl as [[<- <-]|[_ Hl]]; [|by apply (Hs id')].
    cbn. by apply (Hs id).
  - unfold ledger, tracked. cbn. rewrite map_size_insert_Some by eauto. lia.
Qed.

(** Giving one delivery up: the task leaves the gateway and the gauge. *)
Lemma balanced_release id b f t entry :
  tracked t !! id = Some entry → (∀ k, ct_Active (f k) = ct_Active k) →
  balanced 0 t (on_gateway_counters f (on_gateway_counters (countActive (-1))
    (on_log b (untrack id t)))).
Proof.
  intros E Hf. eapply balanced_then; [|by apply balanced_counters].
  eapply (balanced_trans (-1) 1); [|apply balanced_active|done].
  eapply balanced_then; [by eapply balanced_untrack|apply balanced_log].
Qed.

Lemma balanced_refund entry t : balanced 0 t (refundLostLease entry t).
Proof.
  unfold refundLostLease. case_match; [|apply balanced_refillCredit].
  destruct (existsb _ _); [apply balanced_refl|].
  eapply balanced_then; [|apply balanced_refillCredit]. by apply balanced_gateway.
Qed.

Lemma balanced_heartbeatTask w t id : balanced 0 t (heartbeatTask w t id).
Proof.
  unfold heartbeatTask. destruct (gy_inflight (gt_gateway t) !! id) as [entry|] eqn:E;
    [|apply balanced_refl].
  destruct (log_ExtendLease _ _ _ _ _) as [b err]. cbn [on_log].
  destruct err as [[]|]; try apply balanced_log.
  eapply balanced_then; [|apply balanced_sendCancel].
  eapply balanced_then; [|apply balanced_refund].
  eapply balanced_then; [apply (balanced_log b)|].
  eapply (balanced_trans (-1) 1); [|apply balanced_active|done].
  by apply (balanced_untrack id _ entry).
Qed.

Lemma balanced_heartbeat w ids t : balanced 0 t (heartbeat w ids t).
Proof.
  unfold heartbeat. eapply balanced_trans; [|apply balanced_refl|].
  - apply (balanced_foldl _ (λ _, 0)). intros. apply balanced_heartbeatTask.
  - rewrite sumZ_const. lia.
Qed.

Lemma balanced_dispatch w message t :
  serves (gt_gateway t) (env_Queue (et_Task message)) = true →
  balanced (1 - already t (env_Id (et_Task message))) t (dispatch w message t).
Proof.
  intros Hq. unfold dispatch.
  pose proof (balanced_track (env_Id (et_Task message))
    (trackTask w (gt_gateway t) (et_LeaseId message) (et_Task message)) t Hq) as H.
  destruct (wk_send_ok _ _).
  - eapply balanced_then; [exact H|by apply balanced_emits].
  - eapply balanced_then; [exact H|]. eapply balanced_release; [|done].
    unfold tracked. cbn. apply lookup_insert_eq.
Qed.

Lemma range_map_length (m : gmap string inflightTask) : length (range_map m) = size m.
Proof. by rewrite range_map_perm, length_map_to_list. Qed.

Lemma balanced_drain w t : balanced 0 t (drain w t).
Proof.
  unfold drain. set (l := range_map _).
  set (body := λ (t : GatewayTurn) '(taskID, entry), on_gateway_counters (countActive (-1))
    (on_log (log_Release taskID (if_leaseID entry) (wk_now w) (gt_log t)).1 t)).
  assert (H : balanced (sumZ (λ _, 1) l) t (foldl body t l)).
  { apply balanced_foldl. intros t1 [id entry] _. cbn.
    eapply (balanced_trans 0 1); [apply balanced_log|apply balanced_active|done]. }
  assert (Hg : gt_gateway (foldl body t l) = gt_gateway t).
  { clear. generalize t. induction l as [|[id entry] l IH]; intros t0; [done|]. cbn. by rewrite IH. }
  destruct H as (HS & _ & HL). rewrite sumZ_const in HL.
  split; [exact HS|split].
  - intros _ id entry Hl. unfold tracked in Hl. cbn in Hl. by rewrite lookup_empty in Hl.
  - unfold ledger, tracked in *. cbn in *. rewrite Hg in HL. rewrite map_size_empty.
    subst l. rewrite range_map_length in HL. lia.
Qed.

Lemma balanced_releaseBatch w leaseID ids t :
  NoDup ids → (∀ id, id ∈ ids → is_Some (tracked t !! id)) →
  balanced 0 t (releaseBatch w leaseID ids t).
Proof.
  intros Hn Ht. unfold releaseBatch.
  eapply balanced_then; [|by apply balanced_gateway].
  revert t Ht. induction Hn as [|id ids Hid Hn IH]; intros t Ht; [apply balanced_refl|].
  cbn [foldl]. destruct (Ht id ltac:(left)) as [entry He].
  eapply balanced_then; [by eapply (balanced_release id _ countReleased)|].
  apply IH. intros id' Hin. unfold tracked. cbn.
  rewrite lookup_delete_ne by (intros ->; done). apply Ht. by right.
Qed.

Lemma balanced_trackBatch w leaseID tasks t :
  NoDup (env_Id <$> tasks) →
  (∀ task, task ∈ tasks → serves (gt_gateway t) (env_Queue task) = true) →
  let t' := foldl (λ t task, on_gateway (λ g, g <| gy_inflight :=
      <[env_Id task := trackTask w g leaseID task]> (gy_inflight g) |>) t) t tasks in
  balanced (Z.of_nat (length tasks) - sumZ (already t) (env_Id <$> tasks)) t t' ∧
  (∀ id, is_Some (tracked t !! id) ∨ id ∈ env_Id <$> tasks → is_Some (tracked t' !! id)).
Proof.
  revert t. induction tasks as [|task tasks IH]; intros t Hn Ht; cbn [foldl].
  { split; [apply balanced_refl|]. intros id [?|Hid]; [done|]. by apply not_elem_of_nil in Hid. }
  cbn [fmap list_fmap] in Hn. apply NoDup_cons in Hn as [Hx Hn].
  pose proof (Ht task ltac:(left)) as Hq.
  pose proof (balanced_track (env_Id task) (trackTask w (gt_gateway t) leaseID task) t Hq) as H1.
  set (t1 := on_gateway _ t) in *. destruct (IH t1 Hn) as [H2 H3].
  { intros task' Hin. exact (Ht task' ltac:(by right)). }
  assert (Hal : sumZ (already t1) (env_Id <$> tasks) = sumZ (already t) (env_Id <$> tasks)).
  { apply sumZ_ext. intros id Hin. unfold already, tracked, t1. cbn.
    rewrite lookup_insert_ne; [done|]. intros E. apply Hx. by rewrite E. }
  split.
  { eapply balanced_trans; [exact H1|exact H2|]. cbn [length fmap list_fmap].
    unfold sumZ in *. cbn [foldr]. lia. }
  intros id Hid. apply H3. destruct (decide (id = env_Id task)) as [->|Hne].
  { left. unfold tracked, t1. cbn. rewrite lookup_insert_eq. eauto. }
  destruct Hid as [Hid|Hid].
  - left. unfold tracked, t1. cbn. by rewrite lookup_insert_ne by done.
  - right. cbn in Hid. apply elem_of_cons in Hid as [?|?]; [done|done].
Qed.

Lemma balanced_dispatchBatch w message t :
  NoDup (env_Id <$> eb_Tasks message) →
  (∀ task, task ∈ eb_Tasks message → serves (gt_gateway t) (env_Queue task) = true) →
  balanced (Z.of_nat (length (eb_Tasks message)) - sumZ (already t) (env_Id <$> eb_Tasks message))
    t (dispatchBatch w message t).
Proof.
  intros Hn Ht. unfold dispatchBatch. destruct (decide (eb_Tasks message = [])) as [->|_];
    [apply balanced_refl|].
  destruct (balanced_trackBatch w (eb_LeaseId message) (eb_Tasks message) t Hn Ht) as [H1 H2].
  set (t1 := foldl _ t (eb_Tasks message)) in *.
  assert (H3 : balanced 0 t1 (on_gateway (λ g, g <| gy_batches :=
    <[eb_LeaseId message := env_Id <$> eb_Tasks message]> (gy_batches g) |>) t1))
    by by apply balanced_gateway.
  destruct (wk_send_ok _ _).
  - eapply balanced_then; [eapply balanced_then; [exact H1|exact H3]|by apply balanced_emits].
  - eapply balanced_then; [eapply balanced_then; [exact H1|exact H3]|].
    apply balanced_releaseBatch; [done|]. intros id Hid. apply (H2 id). by right.
Qed.

(** ** A batch result *)

Definition batch_balanced (l l' : batchLoop (B := B)) : Prop :=
  balanced (bl_total l - bl_total l') (bl_turn l) (bl_turn l') ∧
  bl_total l' + Z.of_nat (size (tracked (bl_turn l'))) =
    bl_total l + Z.of_nat (size (tracked (bl_turn l))) ∧
  bl_total l <= bl_total l'.

Lemma size_untrack id t entry :
  tracked t !! id = Some entry →
  Z.of_nat (size (tracked (untrack id t))) = Z.of_nat (size (tracked t)) - 1.
Proof.
  intros H. pose proof (balanced_untrack id t entry H) as (_ & _ & L). unfold ledger in L.
  change (gt_counters (untrack id t)) with (gt_counters t) in L.
  change (gt_out (untrack id t)) with (gt_out t) in L. lia.
Qed.

Lemma batchMember_balanced w m l id : batch_balanced l (batchMember w m l id).
Proof.
  unfold batchMember, batch_balanced.
  destruct (gy_inflight (gt_gateway (bl_turn l)) !! id) as [entry|] eqn:E.
  2:{ repeat split; try lia. intros; done. }
  fold (untrack id (bl_turn l)).
  pose proof (balanced_untrack id (bl_turn l) entry E) as H1.
  pose proof (size_untrack id (bl_turn l) entry E) as Hsz.
  set (t1 := untrack id (bl_turn l)) in *. cbn [set bl_entries bl_total].
  set (result := default _ _). destruct (decide (res_Outcome result = TASK_OUTCOME_SUCCESS)).
  { cbn [set bl_turn bl_total bl_successes].
    replace (bl_total l - (bl_total l + 1)) with (-1) by lia. split; [exact H1|lia]. }
  destruct (applyOutcome _ _ _ _ _) as [[b k] [success terminal]] eqn:Ea.
  pose proof (balanced_apply b k t1 (applyOutcome_active _ _ _ _ _ _ _ _ Ea)) as H2.
  set (t2 := t1 <| gt_log := b |> <| gt_counters := k |>) in *.
  pose proof (balanced_recordOutcome w (if_taskType entry) (res_Outcome result) t2) as H3.
  set (t3 := on_gateway (recordOutcome w (if_taskType entry) (res_Outcome result)) t2) in *.
  pose proof (balanced_resolve_if w terminal id t3) as H4.
  assert (Htr : tracked (if terminal then resolveDependents w id t3 else t3) = tracked t1).
  { unfold resolveDependents. destruct terminal, (wk_resolver w); unfold tracked, t3; cbn;
      apply recordOutcome_frame. }
  set (t4 := if terminal then _ else t3) in *.
  assert (H14 : balanced (-1) (bl_turn l) t4) by eauto 6 using balanced_then.
  assert (H : balanced (bl_total l - (bl_total l + 1)) (bl_turn l) t4 ∧
    bl_total l + 1 + Z.of_nat (size (tracked t4)) =
      bl_total l + Z.of_nat (size (tracked (bl_turn l))) ∧ bl_total l <= bl_total l + 1).
  { rewrite Htr. replace (bl_total l - (bl_total l + 1)) with (-1) by lia. split; [exact H14|lia]. }
  by destruct success.
Qed.

Lemma batchMembers_balanced w m members l : batch_balanced l (foldl (batchMember w m) l members).
Proof.
  revert l. induction members as [|id members IH]; intros l.
  { unfold batch_balanced. cbn. rewrite Z.sub_diag. split; [apply balanced_refl|lia]. }
  cbn [foldl]. destruct (batchMember_balanced w m l id) as (H1 & H2 & H3).
  destruct (IH (batchMember w m l id)) as (H4 & H5 & H6).
  split; [eapply balanced_trans; [exact H1|exact H4|lia]|lia].
Qed.

Lemma balanced_ackBatch w items entries t : balanced 0 t (ackBatch w items entries t).1.
Proof.
  unfold ackBatch. destruct (decide (items = [])); [apply balanced_refl|].
  destruct (log_AckBatch _ _ _) as [b [acked err]]. cbn [fst].
  eapply balanced_then; [apply (balanced_log b)|].
  eapply balanced_trans; [|apply balanced_refl|].
  - apply (balanced_foldl _ (λ _, 0)). intros t1 item _.
    destruct (entries !! ack_TaskID item); [apply balanced_recordOutcome|apply balanced_refl].
  - rewrite sumZ_const. lia.
Qed.

Lemma batchOf_tracked inflight results leaseID queue :
  batchOf inflight results = Some (leaseID, queue) →
  ∃ id entry, inflight !! id = Some entry ∧ if_queue entry = queue ∧ if_leaseID entry = leaseID.
Proof.
  induction results as [|r results IH]; [done|]. cbn.
  destruct (inflight !! res_TaskId r) as [entry|] eqn:E; [|done]. intros [= <- <-]. eauto.
Qed.

Lemma balanced_batchResult w results t :
  served t → Z.of_nat (size (tracked t)) < 2 ^ 31 → balanced 0 t (batchResult w results t).
Proof.
  intros Hs Hsize. unfold batchResult. set (m := foldl _ ∅ results).
  destruct (batchOf _ results) as [[leaseID queue]|] eqn:E; cbn [default from_option id].
  2:{ rewrite decide_True by done. apply balanced_refl. }
  destruct (decide (leaseID = "")); [apply balanced_refl|].
  apply batchOf_tracked in E as (id & entry & Hl & <- & _). pose proof (Hs _ _ Hl) as Hq.
  set (t0 := on_gateway (λ g, g <| gy_batches := delete leaseID (gy_batches g) |>) t).
  assert (H0 : balanced 0 t t0) by by apply balanced_gateway.
  set (members := default [] _).
  destruct (batchMembers_balanced w m members (mkBatchLoop t0 [] ∅ 0 0)) as (H1 & H2 & H3).
  set (l := foldl (batchMember w m) _ members) in *. cbn [bl_total bl_turn] in *.
  pose proof (balanced_ackBatch w (bl_successes l) (bl_entries l) (bl_turn l)) as H4.
  destruct (ackBatch _ _ _ _) as [t1 acked]. cbn [fst] in H4.
  assert (H5 : balanced 0 t1 (foldl (λ t taskID, resolveDependents w taskID t) t1 acked)).
  { eapply balanced_trans; [|apply balanced_refl|].
    - apply (balanced_foldl _ (λ _, 0)). intros. apply balanced_resolve.
    - rewrite sumZ_const. lia. }
  set (t2 := foldl _ t1 acked) in *.
  assert (H : balanced (0 - bl_total l) t t2).
  { eapply balanced_then; [|exact H5]. eapply balanced_then; [|exact H4].
    eapply balanced_trans; [exact H0|exact H1|lia]. }
  eapply balanced_trans; [exact H|apply balanced_reportBatch|lia].
  - by eapply balanced_serves.
  - change (tracked t0) with (tracked t) in H2. unfold int32_range. lia.
Qed.
End Facts.
