(* ===== verification/GatewayProps.v ===== *)
(** * What the worker gateway guarantees

    Capacity, accounting, settlement, lease loss, drain and deadlines of
    internal/actors/gateway.go. The theorems about leases are proved against
    the [LeaseContract] of a task log; the witnesses run them on the in-memory
    broker. *)

From S2P Require Import Prelude Proto Events BrokerApi Memory MemoryFacts MemoryInv.
From S2P Require Import MemoryLease Backoff Messages TaskLog Gateway Capacity GatewayFacts.
From S2P Require Import MemorySteps MemoryProps.
From Stdlib Require Import Strings.Byte.

#[local] Open Scope Z_scope.

(** ** Capacity *)

(** C16: the dispatch capacities a worker's declared concurrency is split into
    cover exactly the queues it serves. A worker with at least one slot per
    queue has shares that add up to its concurrency, each its proportional part
    of the unreserved slots rounded down or up, plus the reserved slot; a
    worker with fewer slots than queues gets one slot per queue. *)
Theorem splitCapacity_exact (concurrency : Z) (queues : list string) (weights : gmap string Z) :
  NoDup queues → queues ≠ [] → Z.of_nat (length queues) < 2 ^ 31 →
  int32_range concurrency → (∀ q v, weights !! q = Some v → int32_range v) →
  let capacities := splitCapacity concurrency queues weights in
  let n := Z.of_nat (length queues) in
  dom capacities = list_to_set queues ∧
  (n <= concurrency → sumZ (λ q, default 0 (capacities !! q)) queues = concurrency) ∧
  (∀ q, q ∈ queues → ∃ c, capacities !! q = Some c ∧ 1 <= c ∧
     (concurrency <= n → c = 1) ∧
     (n < concurrency → let exact := (concurrency - n) * queueWeight weights q
                                       / sumZ (queueWeight weights) queues in
                        exact + 1 <= c <= exact + 2)).
Proof.
  intros Hnd Hne Hlen Hc Hw capacities n. subst capacities n.
  destruct (Z.lt_ge_cases (Z.of_nat (length queues)) concurrency) as [Hm|Hm].
  - destruct (splitCapacity_plenty concurrency queues weights) as (Hd & Hs & Hq); try done.
    split; [done|]. split; [done|]. intros q Hin. destruct (Hq q Hin) as (c & Hl & Hb).
    assert (0 <= exact_share concurrency queues weights q) by (eapply exact_share_bounds; done).
    exists c. unfold exact_share in *. repeat split; try done; lia.
  - destruct (splitCapacity_scarce concurrency queues weights) as (Hd & Hq); try done.
    split; [done|]. split.
    + intros Hle. rewrite (sumZ_ext _ (λ _, 1)).
      * rewrite sumZ_const. lia.
      * intros q Hin. by rewrite Hq.
    + intros q Hin. exists 1. rewrite Hq by done. repeat split; lia.
Qed.

(** Three queues of weights 5, 3 and 1 share ten slots as 5, 3 and 2; two slots
    over three queues give one each. *)
Lemma splitCapacity_exact_witness :
  let weights := <["critical" := 5]> (<["default" := 3]> ∅) in
  let queues := ["critical"; "default"; "low"] in
  sumZ (λ q, default 0 (splitCapacity 10 queues weights !! q)) queues = 10 ∧
  splitCapacity 10 queues weights !! "critical" = Some 5 ∧
  splitCapacity 2 queues weights !! "low" = Some 1.
Proof.
  intros weights queues.
  assert (Hw : ∀ q v, weights !! q = Some v → int32_range v).
  { intros q v Hq. unfold weights in Hq. unfold int32_range.
    repeat (apply lookup_insert_Some in Hq as [[_ <-]|[_ Hq]]; [lia|]).
    by rewrite lookup_empty in Hq. }
  assert (Hn : NoDup queues) by (by apply (bool_decide_unpack _); vm_compute).
  destruct (splitCapacity_exact 10 queues weights) as (_ & Hs & _);
    [exact Hn|done|cbn; lia|unfold int32_range; lia|exact Hw|].
  split; [apply Hs; cbn; lia|]. split; vm_compute; reflexivity.
Defined.

(** ** Accounting *)

(** The deliveries a message brings in: tasks its queue grain has already
    counted as active, or a report that was withheld. *)
Definition arrivals (m : gatewayMessage) : Z :=
  match m with
  | GExecuteTask _ => 1
  | GExecuteBatch m => Z.of_nat (length (eb_Tasks m))
  | GDeferredCompletion _ _ _ => 1
  | _ => 0
  end.

Section Accounting.
Context {MR : MapRange} {CB : CircuitBreakers} {B : Type} `{TL : TaskLog B}.
Implicit Types (t : GatewayTurn (B := B)) (w : World).

(** What the senders guarantee: a queue grain dispatches tasks of its own queue
    to a gateway registered with it, and the tasks of one batch are distinct. *)
Definition acceptable t (m : gatewayMessage) : Prop :=
  match m with
  | GExecuteTask m => serves (gt_gateway t) (env_Queue (et_Task m)) = true
  | GExecuteBatch m =>
      NoDup (env_Id <$> eb_Tasks m) ∧
      ∀ task, task ∈ eb_Tasks m → serves (gt_gateway t) (env_Queue task) = true
  | GDeferredCompletion queue _ _ => serves (gt_gateway t) queue = true
  | _ => True
  end.

(** The deliveries a message replaces: a task whose lease expired and which is
    dispatched again to the gateway that still tracks it. *)
Definition replaced t (m : gatewayMessage) : Z :=
  match m with
  | GExecuteTask m => already t (env_Id (et_Task m))
  | GExecuteBatch m => sumZ (already t) (env_Id <$> eb_Tasks m)
  | _ => 0
  end.

(** C17: every delivery is accounted for exactly once, a replaced one apart.
    Whatever message a gateway handles, the deliveries that leave its tracking
    are reported back to a queue grain (now, or as a scheduled report) or taken
    off the [Active] gauge by the gateway, never both and never neither, except
    that a delivery of a task it still tracks replaces the earlier one, which
    then stays on the gauge for ever: [Active] less what is tracked less what
    was reported changes by the arrivals and exactly by the replaced
    deliveries. Tracked tasks stay of declared queues. *)
Theorem Receive_accounts_deliveries w m t :
  served t → acceptable t m → Z.of_nat (size (tracked t)) < 2 ^ 31 →
  served (Receive w m t) ∧ ledger (Receive w m t) = ledger t - arrivals m + replaced t m.
Proof.
  intros Hs Ha Hsz. enough (H : balanced (arrivals m - replaced t m) t (Receive w m t)).
  { destruct H as (_ & Hv & Hl). split; [auto|lia]. }
  destruct m; cbn [Receive arrivals acceptable replaced] in *; rewrite ?Z.sub_0_r.
  - apply balanced_register.
  - apply balanced_register.
  - eapply balanced_then; [apply balanced_drain|by apply balanced_emits].
  - by apply balanced_dispatch.
  - destruct Ha. by apply balanced_dispatchBatch.
  - by apply balanced_result.
  - by apply balanced_batchResult.
  - apply balanced_heartbeat.
  - apply balanced_progress.
  - apply balanced_credit.
  - apply balanced_cancelActive.
  - by apply balanced_reportCompletion.
  - by apply balanced_emits.
Qed.
End Accounting.

(** ** A sample session *)

(** A breaker that opens on at least ten samples, half of them failures. *)
Definition sample_breakers : CircuitBreakers := {|
  Breaker := Z * Z;
  NewCircuitBreaker := λ _, (0, 0);
  Execute := λ _ failed '(failures, total), (if failed : bool then failures + 1 else failures, total + 1);
  State := λ _ '(failures, total),
    if (10 <=? total) && (total <=? 2 * failures) then BreakerOpen else BreakerClosed |}.

#[local] Existing Instance elements_range.
#[local] Existing Instance sample_breakers.

Definition gateway_settings : Settings :=
  zeroSettings <| set_LeaseTTL := 100 |> <| set_LeaseBatchMax := 10 |>
    <| set_RetryBackoff := Backoff.NewWithKind Backoff.Fixed 5 20 |>.

Definition sample_world (send_ok : bool) : World :=
  mkWorld gateway_settings 20 (λ d, 0) (λ _, send_ok) true true.

(** The session of one worker serving the queue of the sample tasks, over a log
    in which "a" and "b" are leased under "L1". *)
Definition sample_start : GatewayTurn :=
  mkGatewayTurn (PreStart gateway_settings "gateway-1"
                   (mkGatewaySession "1" ["mail"] ∅ 4 ["send"]))
    leased_store noCounters [].

Definition sample_execute (id : string) : ExecuteTask :=
  mkExecuteTask (sample_task id sample_options) "L1" 110.

(** Both tasks dispatched. *)
Definition sample_gateway : GatewayTurn :=
  dispatch (sample_world true) (sample_execute "b")
    (dispatch (sample_world true) (sample_execute "a") sample_start).

Lemma sample_gateway_tracks :
  size (tracked sample_gateway) = 2%nat ∧ dom (tracked sample_gateway) = {["a"; "b"]} ∧
  held "a" "L1" (gt_log sample_gateway) ∧ held "b" "L1" (gt_log sample_gateway).
Proof.
  split; [by vm_compute|]. split; [by vm_compute|].
  split; eexists; (split; [by vm_compute|by vm_compute]).
Qed.

Lemma sample_served : served sample_gateway.
Proof.
  intros id entry H.
  assert (Hall : map_Forall (λ _ e, if_queue e = "mail") (tracked sample_gateway))
    by (by apply (bool_decide_unpack _); vm_compute).
  rewrite (Hall id entry H). by vm_compute.
Qed.

(** A lost stream: the failed dispatch takes the delivery off the gauge; a
    drain takes off the rest. A second delivery of "a" replaces the first. *)
Lemma Receive_accounts_deliveries_witness :
  ledger (Receive (sample_world false) (GExecuteTask (sample_execute "z")) sample_gateway) =
    ledger sample_gateway - 1 ∧
  ledger (Receive (sample_world false) GDrainSession sample_gateway) = ledger sample_gateway ∧
  ledger (Receive (sample_world true) (GExecuteTask (sample_execute "a")) sample_gateway) =
    ledger sample_gateway.
Proof.
  split; [|split].
  - rewrite (proj2 (Receive_accounts_deliveries (sample_world false)
      (GExecuteTask (sample_execute "z")) sample_gateway sample_served
      ltac:(by vm_compute) ltac:(by vm_compute))).
    change (replaced _ _) with 0. cbn [arrivals]. lia.
  - rewrite (proj2 (Receive_accounts_deliveries (sample_world false) GDrainSession sample_gateway
                      sample_served I ltac:(by vm_compute))). cbn [arrivals replaced]. lia.
  - rewrite (proj2 (Receive_accounts_deliveries (sample_world true)
      (GExecuteTask (sample_execute "a")) sample_gateway sample_served
      ltac:(by vm_compute) ltac:(by vm_compute))).
    change (replaced _ _) with 1. cbn [arrivals]. lia.
Defined.

(** The leak: of the three deliveries of "a", "b" and "a" again, all of them
    reported by the worker, only two are ever reported back; none is tracked any
    more and none was taken off the gauge. *)
Lemma redelivery_leaks_active :
  let w := sample_world true in
  let finish id := GResult (mkResult id TASK_OUTCOME_SUCCESS "" []) in
  let t := foldl (λ t m, Receive w m t) sample_gateway
    [GExecuteTask (sample_execute "a"); finish "a"; finish "a"; finish "b"] in
  tracked t = ∅ ∧ reported (gt_out t) = 2 ∧
  ct_Active (gt_counters t) = ct_Active (gt_counters sample_gateway).
Proof. vm_compute. done. Qed.

(** ** Settlement *)

(** Whether an outcome ends the task, by the retry budget and the admin's
    cancel request of its delivery. *)
Definition ends_task (entry : inflightTask) (outcome : TaskOutcome) : bool :=
  match outcome with
  | TASK_OUTCOME_SUCCESS | TASK_OUTCOME_SKIP_RETRY => true
  | TASK_OUTCOME_RETRY => if_cancelRequested entry || (if_maxRetry entry <=? if_retried entry)
  | TASK_OUTCOME_RELEASED => if_cancelRequested entry
  | TASK_OUTCOME_UNSPECIFIED => false
  end.

Section Settlement.
Context {MR : MapRange} {CB : CircuitBreakers} {B : Type} `{TL : TaskLog B, !LeaseContract B}.
Implicit Types (t : GatewayTurn (B := B)) (w : World).

Lemma transitionFor_spec w entry message c count terminated :
  transitionFor w entry message = (c, count, terminated) →
  settles c = true ∧ terminated = ends_task entry (res_Outcome message).
Proof.
  unfold transitionFor, ends_task. destruct (res_Outcome message); repeat case_match;
    intros [= <- <- <-]; naive_solver.
Qed.

(** One outcome under one lease: what it leaves in the log, and its answer. *)
Lemma applyOutcome_spec w entry message b k b' k' success terminal :
  if_leaseID entry ≠ "" → applyOutcome w entry message b k = (b', k', (success, terminal)) →
  ¬ log_held (res_TaskId message) (if_leaseID entry) b' ∧
  (¬ log_held (res_TaskId message) (if_leaseID entry) b → b' = b) ∧
  (∀ id' lid', id' ≠ res_TaskId message → log_held id' lid' b' ↔ log_held id' lid' b) ∧
  (success = true ↔ log_held (res_TaskId message) (if_leaseID entry) b ∧
                    res_Outcome message = TASK_OUTCOME_SUCCESS) ∧
  (terminal = true ↔ log_held (res_TaskId message) (if_leaseID entry) b ∧
                     ends_task entry (res_Outcome message) = true).
Proof.
  intros Hl. unfold applyOutcome.
  destruct (transitionFor w entry message) as [[c count] terminated] eqn:E.
  apply transitionFor_spec in E as [Hs ->].
  pose proof (log_others c (res_TaskId message) (if_leaseID entry) (wk_now w) b) as Ho.
  destruct (log_held_dec (res_TaskId message) (if_leaseID entry) b) as [Hh|Hh].
  - destruct (log_accepted c _ _ (wk_now w) b Hl Hh) as [He Hiff]. rewrite Hs in Hiff.
    destruct (log_call c _ _ _ b) as [b1 err]. cbn [fst snd] in *. subst err.
    intros [= <- <- <- <-]. rewrite bool_decide_eq_true. naive_solver.
  - rewrite (log_refused c _ _ (wk_now w) b Hl Hh) in *. intros [= <- <- <- <-]. naive_solver.
Qed.

(** The state a tracked task's result leaves, from the answer of its
    transition. *)
Lemma result_shape w message t entry b k success terminal :
  tracked t !! res_TaskId message = Some entry →
  applyOutcome w entry message (gt_log t) (gt_counters t) = (b, k, (success, terminal)) →
  serves (gt_gateway t) (if_queue entry) = true →
  ∃ report,
    (report = ToGrain (if_queue entry) (MTaskCompleted (mkTaskCompleted (res_TaskId message)
        (if_queue entry) success (gy_name (gt_gateway t)))) ∨
     report = ScheduleCompletion (if_queue entry) (res_TaskId message) success) ∧
    tracked (result w message t) = delete (res_TaskId message) (tracked t) ∧
    gt_log (result w message t) = b ∧
    gt_out (result w message t) = gt_out t ++
      (if terminal && wk_resolver w then [ToResolver (res_TaskId message)] else []) ++ [report].
Proof.
  unfold tracked. intros E Ea Hq. unfold result. rewrite E.
  change (gt_log (on_gateway _ t)) with (gt_log t).
  change (gt_counters (on_gateway _ t)) with (gt_counters t). rewrite Ea.
  unfold deferCompletion, reportCompletion, resolveDependents, recordOutcome, serves in *.
  destruct (res_Outcome message), terminal, (wk_resolver w), (isOpen _ _), (wk_schedule_ok w);
    cbn in *; rewrite ?Hq; cbn; eexists; (split; cycle 1;
    [split; [done|split; [done|by rewrite <- ?app_assoc]]|auto]).
Qed.

Lemma result_unknown w message t :
  tracked t !! res_TaskId message = None → result w message t = t.
Proof. unfold tracked, result. by intros ->. Qed.

(** C18: a worker's result settles its delivery exactly once. The task leaves
    the gateway's tracking and its lease is no longer held; if the lease was
    already lost the log is untouched; no other task's lease changes. One
    report goes to the queue grain (or is scheduled), successful exactly when the
    lease was held and the outcome was a success; the resolver hears of the task
    exactly when the lease was held and the outcome ended it. A later result for
    the same task changes nothing. *)
Theorem result_settles_once w message t entry :
  tracked t !! res_TaskId message = Some entry → if_leaseID entry ≠ "" →
  serves (gt_gateway t) (if_queue entry) = true →
  let id := res_TaskId message in
  let held := log_held id (if_leaseID entry) in
  let t' := result w message t in
  tracked t' = delete id (tracked t) ∧ ¬ held (gt_log t') ∧
  (¬ held (gt_log t) → gt_log t' = gt_log t) ∧
  (∀ id' lid', id' ≠ id → log_held id' lid' (gt_log t') ↔ log_held id' lid' (gt_log t)) ∧
  (∃ success terminal report,
     (success = true ↔ held (gt_log t) ∧ res_Outcome message = TASK_OUTCOME_SUCCESS) ∧
     (terminal = true ↔ held (gt_log t) ∧ ends_task entry (res_Outcome message) = true) ∧
     gt_out t' = gt_out t ++ (if terminal && wk_resolver w then [ToResolver id] else []) ++ [report] ∧
     (report = ToGrain (if_queue entry) (MTaskCompleted
        (mkTaskCompleted id (if_queue entry) success (gy_name (gt_gateway t)))) ∨
      report = ScheduleCompletion (if_queue entry) id success)) ∧
  (∀ w' message', res_TaskId message' = id → result w' message' t' = t').
Proof.
  intros E Hl Hq. cbv zeta.
  destruct (applyOutcome w entry message (gt_log t) (gt_counters t)) as [[b k] [success terminal]]
    eqn:Ea.
  destruct (result_shape w message t entry b k success terminal E Ea Hq)
    as (report & Hrep & Htr & -> & Hout).
  destruct (applyOutcome_spec _ _ _ _ _ _ _ _ _ Hl Ea) as (H1 & H2 & H3 & H4 & H5).
  repeat (split; [done|]). split; [by exists success, terminal, report|].
  intros w' message' Hid. apply result_unknown. by rewrite Hid, Htr, lookup_delete_eq.
Qed.

(** Every tracked delivery has a lease id. *)
Definition leased t : Prop :=
  ∀ id entry, tracked t !! id = Some entry → if_leaseID entry ≠ "".

(** ** Drain *)

Lemma release_each w (l : list (string * inflightTask)) t :
  NoDup l.*1 → (∀ id entry, (id, entry) ∈ l → if_leaseID entry ≠ "") →
  let t' := foldl (λ t '(taskID, entry), on_gateway_counters (countActive (-1))
      (on_log (log_Release taskID (if_leaseID entry) (wk_now w) (gt_log t)).1 t)) t l in
  (∀ id entry, (id, entry) ∈ l → ¬ log_held id (if_leaseID entry) (gt_log t')) ∧
  (∀ id lid, id ∉ l.*1 → log_held id lid (gt_log t') ↔ log_held id lid (gt_log t)) ∧
  gt_gateway t' = gt_gateway t ∧ gt_out t' = gt_out t ∧
  ct_Active (gt_counters t') = ct_Active (gt_counters t) - Z.of_nat (length l).
Proof.
  revert t. induction l as [|[id entry] l IH]; intros t Hn Hl; cbn [foldl].
  { cbn. repeat split; try done; [|lia]. intros id entry H. by apply not_elem_of_nil in H. }
  cbn [fmap list_fmap fst] in Hn. apply NoDup_cons in Hn as [Hid Hn].
  assert (Hlid : if_leaseID entry ≠ "") by (apply (Hl id); left).
  set (t1 := on_gateway_counters _ _) in *.
  destruct (IH t1 Hn) as (H1 & H2 & H3 & H4 & H5); [intros; eapply Hl; by right|].
  pose proof (log_others LRelease id (if_leaseID entry) (wk_now w) (gt_log t)) as Ho.
  assert (Hown : ¬ log_held id (if_leaseID entry) (gt_log t1)).
  { change (gt_log t1) with (log_call LRelease id (if_leaseID entry) (wk_now w) (gt_log t)).1.
    destruct (log_held_dec id (if_leaseID entry) (gt_log t)) as [Hh|Hh].
    - destruct (log_accepted LRelease _ _ (wk_now w) _ Hlid Hh) as [_ ->]. done.
    - by rewrite (log_refused LRelease _ _ (wk_now w) _ Hlid Hh). }
  split; [|split; [|split; [|split]]].
  - intros id' entry' Hin. apply elem_of_cons in Hin as [[= -> ->]|Hin]; [|by apply H1].
    by rewrite H2.
  - intros id' lid' Hni. cbn [fmap list_fmap fst] in Hni. apply not_elem_of_cons in Hni as [Hne Hni].
    rewrite H2 by done. by apply Ho.
  - by rewrite H3.
  - by rewrite H4.
  - rewrite H5. cbn. lia.
Qed.

(** A drain gives every delivery back. No tracked lease is held any
    more, leases the gateway does not track are left alone, the gauge drops by
    the number of tracked tasks, nothing stays tracked, and a registration tick
    that follows announces nothing. *)
Theorem drain_releases_all w t :
  leased t →
  let t' := drain w t in
  (∀ id entry, tracked t !! id = Some entry → ¬ log_held id (if_leaseID entry) (gt_log t')) ∧
  (∀ id lid, tracked t !! id = None → log_held id lid (gt_log t') ↔ log_held id lid (gt_log t)) ∧
  tracked t' = ∅ ∧ gy_batches (gt_gateway t') = ∅ ∧
  ct_Active (gt_counters t') = ct_Active (gt_counters t) - Z.of_nat (size (tracked t)) ∧
  gt_out t' = gt_out t ∧ register t' = t'.
Proof.
  intros Hl. cbv zeta.
  destruct (release_each w (range_map (tracked t)) t) as (H1 & H2 & H3 & H4 & H5).
  { apply NoDup_fst_range_map. }
  { intros id entry Hin. apply elem_of_range_map in Hin. by eapply Hl. }
  unfold drain. fold (tracked t). set (t1 := foldl _ t (range_map (tracked t))) in *.
  change (gt_log (on_gateway _ t1)) with (gt_log t1).
  split; [|split; [|split; [done|split; [done|split; [|split; [exact H4|done]]]]]].
  - intros id entry Hin. apply H1. by apply elem_of_range_map.
  - intros id lid Hn. apply H2. intros ([id' entry] & -> & Hin)%list_elem_of_fmap.
    apply elem_of_range_map in Hin. cbn in Hn. congruence.
  - rewrite <- (range_map_length (tracked t)). exact H5.
Qed.

(** ** Heartbeats *)

Lemma refund_frame entry t :
  tracked (refundLostLease entry t) = tracked t ∧ gt_log (refundLostLease entry t) = gt_log t ∧
  (∀ e, e ∈ gt_out t → e ∈ gt_out (refundLostLease entry t)).
Proof.
  unfold refundLostLease, refillCredit.
  repeat case_match; repeat split; try done; intros e He; cbn; rewrite ?elem_of_app; auto.
Qed.

Lemma sendCancel_frame w id t :
  tracked (sendCancel w id t) = tracked t ∧ gt_log (sendCancel w id t) = gt_log t ∧
  (∀ e, e ∈ gt_out t → e ∈ gt_out (sendCancel w id t)) ∧
  (wk_send_ok w (FCancel id) = true → ToWorker (FCancel id) ∈ gt_out (sendCancel w id t)).
Proof.
  unfold sendCancel. destruct (wk_send_ok w (FCancel id)); [|done].
  repeat split; [intros e He|intros _]; cbn; rewrite elem_of_app; [auto|].
  right. apply list_elem_of_here.
Qed.

(** What one reported id does. *)
Lemma heartbeatTask_spec w t x :
  leased t →
  let t' := heartbeatTask w t x in
  leased t' ∧
  (∀ id, tracked t !! id = None → tracked t' !! id = None ∧
     ∀ lid, log_held id lid (gt_log t') ↔ log_held id lid (gt_log t)) ∧
  (∀ e, e ∈ gt_out t → e ∈ gt_out t') ∧
  (∀ id entry, tracked t !! id = Some entry →
     (log_held id (if_leaseID entry) (gt_log t') ↔ log_held id (if_leaseID entry) (gt_log t)) ∧
     (id ≠ x ∨ log_held id (if_leaseID entry) (gt_log t) → tracked t' !! id = Some entry) ∧
     (id = x → ¬ log_held id (if_leaseID entry) (gt_log t) →
        tracked t' !! id = None ∧
        (wk_send_ok w (FCancel id) = true → ToWorker (FCancel id) ∈ gt_out t'))).
Proof.
  intros Hl. cbv zeta. unfold heartbeatTask. fold (tracked t).
  destruct (tracked t !! x) as [entry0|] eqn:Ex.
  2:{ repeat split; try done; congruence. }
  pose proof (Hl _ _ Ex) as Hlid. set (ttl := set_LeaseTTL (wk_settings w)).
  pose proof (log_others (LExtend ttl) x (if_leaseID entry0) (wk_now w) (gt_log t)) as Ho.
  change (log_ExtendLease x (if_leaseID entry0) ttl (wk_now w) (gt_log t))
    with (log_call (LExtend ttl) x (if_leaseID entry0) (wk_now w) (gt_log t)).
  destruct (log_held_dec x (if_leaseID entry0) (gt_log t)) as [Hh|Hh].
  - destruct (log_accepted (LExtend ttl) _ _ (wk_now w) _ Hlid Hh) as [He Hiff].
    destruct (log_call (LExtend ttl) _ _ _ _) as [b err]. cbn [fst snd] in *. subst err.
    split; [exact Hl|split; [|split; [done|]]].
    { intros id Hid. split; [done|]. intros lid. apply Ho; [done|]. intros ->. congruence. }
    intros id entry Hid. cbn.
    destruct (decide (id = x)) as [->|Hne]; [|naive_solver].
    assert (entry = entry0) as -> by congruence. naive_solver.
  - rewrite (log_refused (LExtend ttl) _ _ (wk_now w) _ Hlid Hh). clear Ho.
    set (t1 := on_gateway_counters _ _).
    destruct (refund_frame entry0 t1) as (R1 & R2 & R3).
    destruct (sendCancel_frame w x (refundLostLease entry0 t1)) as (S1 & S2 & S3 & S4).
    set (t2 := sendCancel _ _ _) in *. rewrite R1 in S1. rewrite R2 in S2.
    change (gt_log t1) with (gt_log t) in S2.
    assert (Ht : tracked t2 = delete x (tracked t)) by (rewrite S1; done).
    split; [|split; [|split]].
    + intros id entry. rewrite Ht. intros [_ H]%lookup_delete_Some. by eapply Hl.
    + intros id Hid. rewrite Ht, lookup_delete_None, S2. auto.
    + intros e He. by apply S3, R3.
    + intros id entry Hid. rewrite Ht, S2. split; [done|]. split.
      * intros [Hne|Hheld]; [by rewrite lookup_delete_ne|].
        destruct (decide (id = x)) as [->|Hne]; [|by rewrite lookup_delete_ne]. congruence.
      * intros -> _. split; [apply lookup_delete_eq|done].
Qed.

Lemma heartbeat_untracked w ids t id :
  leased t → tracked t !! id = None →
  tracked (foldl (heartbeatTask w) t ids) !! id = None ∧
  (∀ lid, log_held id lid (gt_log (foldl (heartbeatTask w) t ids)) ↔ log_held id lid (gt_log t)) ∧
  (∀ e, e ∈ gt_out t → e ∈ gt_out (foldl (heartbeatTask w) t ids)).
Proof.
  revert t. induction ids as [|x ids IH]; intros t Hl Hid; [done|]. cbn [foldl].
  destruct (heartbeatTask_spec w t x Hl) as (Hl' & Hnone & Hout & _).
  destruct (Hnone id Hid) as [Hid' Hlog]. destruct (IH _ Hl' Hid') as (I1 & I2 & I3).
  split; [done|]. split; [|auto]. intros lid. by rewrite I2.
Qed.

(** After a heartbeat every task the worker reported is either still
    tracked under a lease it still holds, or its lease was lost: then the
    gateway has dropped it and told the worker to cancel it, as far as the stream
    takes the frame. No lease of a tracked task is lost or gained by the
    heartbeat, and tasks the worker did not report stay as they were. *)
Theorem heartbeat_keeps_or_cancels w ids t id entry :
  leased t → tracked t !! id = Some entry →
  let t' := heartbeat w ids t in
  (log_held id (if_leaseID entry) (gt_log t') ↔ log_held id (if_leaseID entry) (gt_log t)) ∧
  (id ∉ ids ∨ log_held id (if_leaseID entry) (gt_log t) → tracked t' !! id = Some entry) ∧
  (id ∈ ids → ¬ log_held id (if_leaseID entry) (gt_log t) →
     tracked t' !! id = None ∧
     (wk_send_ok w (FCancel id) = true → ToWorker (FCancel id) ∈ gt_out t')).
Proof.
  unfold heartbeat. cbv zeta. revert t. induction ids as [|x ids IH]; intros t Hl Hid.
  { cbn. split; [done|]. split; [done|]. intros Hin. by apply not_elem_of_nil in Hin. }
  cbn [foldl]. rewrite not_elem_of_cons, elem_of_cons.
  destruct (heartbeatTask_spec w t x Hl) as (Hl' & _ & _ & Hspec).
  destruct (Hspec id entry Hid) as (H1 & H2 & H3).
  destruct (log_held_dec id (if_leaseID entry) (gt_log t)) as [Hh|Hh].
  { destruct (IH _ Hl' (H2 (or_intror Hh))) as (I1 & I2 & I3). naive_solver. }
  destruct (decide (id = x)) as [->|Hne].
  - destruct (H3 eq_refl Hh) as [Hgone Hcancel].
    destruct (heartbeat_untracked w ids (heartbeatTask w t x) x Hl' Hgone) as (U1 & U2 & U3).
    rewrite (U2 (if_leaseID entry)). naive_solver.
  - destruct (IH _ Hl' (H2 (or_introl Hne))) as (I1 & I2 & I3). naive_solver.
Qed.
End Settlement.

(** ** On the in-memory broker *)

(** The state a result leaves its task in. *)
Definition outcome_state (entry : inflightTask) (outcome : TaskOutcome) : TaskState :=
  match outcome with
  | TASK_OUTCOME_SUCCESS => TASK_STATE_COMPLETED
  | TASK_OUTCOME_RETRY =>
      if ends_task entry outcome then TASK_STATE_ARCHIVED else TASK_STATE_RETRY
  | TASK_OUTCOME_SKIP_RETRY => TASK_STATE_ARCHIVED
  | TASK_OUTCOME_RELEASED =>
      if ends_task entry outcome then TASK_STATE_ARCHIVED else TASK_STATE_PENDING
  | TASK_OUTCOME_UNSPECIFIED => TASK_STATE_PENDING
  end.

(** On the in-memory broker a result delivered under the task's lease
    rewrites that task's row and no other, to the state its outcome calls for: a
    retry within budget is due after the strategy's delay and spends one retry, so
    the counter never passes the budget; every other outcome keeps the counter. *)
Theorem result_durable_state {MR : MapRange} {CB : CircuitBreakers} w message
    (t : GatewayTurn (B := Broker)) entry row :
  let id := res_TaskId message in
  tracked t !! id = Some entry → serves (gt_gateway t) (if_queue entry) = true →
  br_tasks (gt_log t) !! id = Some row → row_state row = TASK_STATE_ACTIVE →
  row_leaseID row = if_leaseID entry → if_leaseID entry ≠ "" →
  row_retried row = if_retried entry → 0 <= if_retried entry <= if_maxRetry entry →
  if_maxRetry entry < 2 ^ 31 →
  ∃ row', br_tasks (gt_log (result w message t)) = <[id := row']> (br_tasks (gt_log t)) ∧
    row_state row' = outcome_state entry (res_Outcome message) ∧ row_leaseID row' = "" ∧
    0 <= row_retried row' <= if_maxRetry entry ∧
    (row_state row' = TASK_STATE_RETRY →
       row_retried row' = row_retried row + 1 ∧
       row_processAt row' = time_Add (wk_now w)
         (Backoff.Delay (wk_rand_N w) (if_strategy entry) (if_retried entry))) ∧
    (row_state row' ≠ TASK_STATE_RETRY → row_retried row' = row_retried row).
Proof.
  intros id E Hq Hrow Hst Hlid Hl Hr Hb Hmax.
  destruct (applyOutcome w entry message (gt_log t) (gt_counters t)) as [[b k] [success terminal]]
    eqn:Ea.
  destruct (result_shape w message t entry b k success terminal E Ea Hq)
    as (_ & _ & _ & -> & _).
  assert (Ha : activeRow id (if_leaseID entry) (gt_log t) = Some row) by by apply activeRow_Some.
  apply (f_equal (λ p, p.1.1)) in Ea. cbn in Ea. subst b. revert Hb.
  unfold applyOutcome, transitionFor, outcome_state, ends_task. subst id.
  destruct (res_Outcome message), (if_cancelRequested entry),
    (Z.leb_spec (if_maxRetry entry) (if_retried entry)); cbn;
    unfold Ack, Archive, Fail, Release, ack_row, archive_row; rewrite ?Ha;
    try rewrite bool_decide_false by done; cbn;
    intros Hb; eexists; (split; [frame; reflexivity|]); rsimpl;
    rewrite ?wrap32_id by (unfold int32_range; lia); rewrite ?Hr; repeat split; try done; lia.
Qed.

(** ** Deadlines *)

(** Splits on a comparison whose sides contain no other. *)
Ltac zltb_case :=
  match goal with |- context [(?a <? ?b)] =>
    lazymatch b with context [if _ then _ else _] => fail | _ => destruct (Z.ltb_spec a b) end
  end.

Lemma executionDeadlineAt_min now lease options :
  executionDeadlineAt now lease options =
    Z.min (Z.min lease (default lease (opt_Deadline options)))
      (default lease (time_Add now <$> opt_Timeout options)).
Proof.
  unfold executionDeadlineAt, Before, time_Add.
  destruct (opt_Deadline options) as [d|], (opt_Timeout options) as [timeout|];
    cbn;
    repeat zltb_case; lia.
Qed.

(** Tightening by a member is the minimum with that member's own deadline. *)
Lemma tightenDeadline_min now lease deadline task :
  deadline <= lease →
  tightenDeadline deadline task now =
    Z.min deadline (executionDeadlineAt now lease (GetOptions task)).
Proof.
  intros Hle. rewrite executionDeadlineAt_min. unfold tightenDeadline, Before, time_Add.
  destruct (opt_Deadline (GetOptions task)) as [d|], (opt_Timeout (GetOptions task)) as [timeout|];
    cbn;
    repeat zltb_case; lia.
Qed.

Lemma tighten_all now lease tasks deadline :
  deadline <= lease →
  let d := foldl (λ d task, tightenDeadline d task now) deadline tasks in
  d <= deadline ∧
  (∀ task, task ∈ tasks → d <= executionDeadlineAt now lease (GetOptions task)) ∧
  (d = deadline ∨ ∃ task, task ∈ tasks ∧ d = executionDeadlineAt now lease (GetOptions task)).
Proof.
  revert deadline. induction tasks as [|task tasks IH]; intros deadline Hle.
  { cbn. split; [lia|]. split; [|by left]. intros task H. by apply not_elem_of_nil in H. }
  cbn [foldl]. rewrite (tightenDeadline_min now lease) by done.
  destruct (IH (Z.min deadline (executionDeadlineAt now lease (GetOptions task))) ltac:(lia))
    as (H1 & H2 & H3).
  set (d := foldl _ _ tasks) in *. split; [lia|]. split.
  - intros task' [->|Hin]%elem_of_cons; [lia|auto].
  - destruct H3 as [Hd|(task' & Hin & Hd)].
    + destruct (Z.min_spec deadline (executionDeadlineAt now lease (GetOptions task)))
        as [[_ Hm]|[_ Hm]]; [left; lia|]. right. exists task.
      split; [apply list_elem_of_here|lia].
    + right. exists task'. split; [by right|done].
Qed.

(** A delivery's deadline is the earliest of its lease expiry, the task's
    deadline and the attempt's timeout; a batch is sent down the stream as one
    frame whose deadline is the earliest of those its members would have on
    their own. *)
Theorem batch_deadline_earliest {MR : MapRange} {CB : CircuitBreakers} {B} `{TL : TaskLog B}
    w message (t : GatewayTurn (B := B)) :
  eb_Tasks message ≠ [] → (∀ frame, wk_send_ok w frame = true) →
  let deadline task := executionDeadlineAt (wk_now w) (eb_LeaseExpiresAt message) (GetOptions task) in
  (∀ task, deadline task =
     Z.min (Z.min (eb_LeaseExpiresAt message)
                  (default (eb_LeaseExpiresAt message) (opt_Deadline (GetOptions task))))
       (default (eb_LeaseExpiresAt message) (time_Add (wk_now w) <$> opt_Timeout (GetOptions task)))) ∧
  ∃ d, gt_out (dispatchBatch w message t) =
         gt_out t ++ [ToWorker (FBatchDispatch (eb_Tasks message) d (eb_Group message))] ∧
    (∀ task, task ∈ eb_Tasks message → d <= deadline task) ∧
    (∃ task, task ∈ eb_Tasks message ∧ d = deadline task).
Proof.
  intros Hne Hsend deadline. split; [intros; apply executionDeadlineAt_min|].
  destruct (tighten_all (wk_now w) (eb_LeaseExpiresAt message) (eb_Tasks message)
    (eb_LeaseExpiresAt message) ltac:(lia)) as (H1 & H2 & H3).
  set (d := foldl _ _ (eb_Tasks message)) in *. exists d. split; [|split; [exact H2|]].
  - unfold dispatchBatch. rewrite decide_False by done. rewrite Hsend.
    unfold emits. cbn. f_equal. clear. generalize t.
    induction (eb_Tasks message) as [|task tasks IH]; intros t0; [done|]. cbn. by rewrite IH.
  - destruct H3 as [Hd|H3]; [|exact H3].
    destruct (eb_Tasks message) as [|task tasks]; [done|].
    exists task. split; [apply list_elem_of_here|].
    pose proof (H2 task ltac:(apply list_elem_of_here)) as H2'. unfold deadline.
    rewrite executionDeadlineAt_min in *. lia.
Qed.

(** ** The sample session, settled *)

Definition sample_result (id : string) (outcome : TaskOutcome) : Result :=
  mkResult id outcome "boom" [].

Lemma sample_tracked : ∃ entry, tracked sample_gateway !! "b" = Some entry ∧
  if_leaseID entry = "L1" ∧ if_queue entry = "mail" ∧ if_retried entry = 0 ∧ if_maxRetry entry = 1.
Proof. eexists. split; [by vm_compute|by vm_compute]. Qed.

Lemma sample_leased : leased sample_gateway.
Proof.
  intros id entry H.
  assert (Hall : map_Forall (λ _ e, if_leaseID e = "L1") (tracked sample_gateway))
    by (by apply (bool_decide_unpack _); vm_compute).
  by rewrite (Hall id entry H).
Qed.

(** A success ends the lease of "b"; its duplicate is dropped. *)
Lemma result_settles_once_witness :
  let t' := result (sample_world true) (sample_result "b" TASK_OUTCOME_SUCCESS) sample_gateway in
  ¬ held "b" "L1" (gt_log t') ∧
  result (sample_world true) (sample_result "b" TASK_OUTCOME_RETRY) t' = t'.
Proof.
  destruct sample_tracked as (entry & He & Hl & Hq & _).
  destruct (result_settles_once (sample_world true) (sample_result "b" TASK_OUTCOME_SUCCESS)
    sample_gateway entry He) as (_ & H1 & _ & _ & _ & H2).
  { by rewrite Hl. }
  { rewrite Hq. by vm_compute. }
  rewrite Hl in H1. split; [exact H1|]. by apply H2.
Defined.

(** A failed first attempt with a budget of one leaves "b" in retry. *)
Lemma result_durable_state_witness :
  ∃ row', br_tasks (gt_log (result (sample_world true) (sample_result "b" TASK_OUTCOME_RETRY)
            sample_gateway)) !! "b" = Some row' ∧
    row_state row' = TASK_STATE_RETRY ∧ row_retried row' <= 1.
Proof.
  destruct sample_tracked as (entry & He & Hl & Hq & Hr & Hm).
  destruct (stored (λ row, (row_state row, row_leaseID row, row_retried row)) (gt_log sample_gateway)
    "b" (TASK_STATE_ACTIVE, "L1", 0) ltac:(by vm_compute)) as (row & Hrow & [= Hs Hlid Hret]).
  assert (Hc : if_cancelRequested entry = false).
  { assert (Hall : map_Forall (λ _ e, if_cancelRequested e = false) (tracked sample_gateway))
      by (by apply (bool_decide_unpack _); vm_compute). by apply (Hall "b"). }
  destruct (result_durable_state (sample_world true) (sample_result "b" TASK_OUTCOME_RETRY)
    sample_gateway entry row He) as (row' & Ht & Hst & _ & Hb & _);
    [rewrite Hq; by vm_compute|done|done|congruence|by rewrite Hl|congruence|lia|lia|].
  exists row'. rewrite Ht. split; [apply lookup_insert_eq|]. rewrite Hst. split; [|lia].
  cbn. by rewrite Hc, Hm, Hr.
Defined.

Lemma drain_releases_all_witness :
  let t' := drain (sample_world true) sample_gateway in
  ¬ held "b" "L1" (gt_log t') ∧ tracked t' = ∅ ∧ register t' = t'.
Proof.
  destruct sample_tracked as (entry & He & Hl & _).
  destruct (drain_releases_all (sample_world true) sample_gateway sample_leased)
    as (H1 & _ & H2 & _ & _ & _ & H3).
  split; [|by split]. pose proof (H1 "b" entry He) as H. by rewrite Hl in H.
Defined.

(** The leases lapse at 110: after the reaper has returned the tasks, a
    heartbeat for "b" cancels it on the worker. *)
Definition lapsed_gateway : GatewayTurn :=
  on_log (ReapExpiredLeases 5 200 (gt_log sample_gateway)).1 sample_gateway.

Lemma lapsed_tracked : tracked lapsed_gateway = tracked sample_gateway.
Proof. reflexivity. Qed.

Lemma lapsed_leased : leased lapsed_gateway.
Proof. unfold leased. rewrite lapsed_tracked. apply sample_leased. Qed.

Lemma lapsed_lost : ¬ held "b" "L1" (gt_log lapsed_gateway).
Proof. apply activeRow_None. by vm_compute. Qed.

Lemma heartbeat_keeps_or_cancels_witness :
  held "b" "L1" (gt_log (heartbeat (sample_world true) ["b"] sample_gateway)) ∧
  tracked (heartbeat (sample_world true) ["b"] lapsed_gateway) !! "b" = None ∧
  ToWorker (FCancel "b") ∈ gt_out (heartbeat (sample_world true) ["b"] lapsed_gateway).
Proof.
  destruct sample_tracked as (entry & He & Hl & _).
  destruct sample_gateway_tracks as (_ & _ & _ & Hb).
  assert (He' : tracked lapsed_gateway !! "b" = Some entry) by by rewrite lapsed_tracked.
  pose proof (heartbeat_keeps_or_cancels (sample_world true) ["b"] sample_gateway "b" entry
    sample_leased He) as (H1 & _ & _).
  pose proof (heartbeat_keeps_or_cancels (sample_world true) ["b"] lapsed_gateway "b" entry
    lapsed_leased He') as (_ & _ & H2).
  rewrite Hl in *. split; [apply H1; exact Hb|].
  pose proof (H2 (list_elem_of_here _ _) lapsed_lost) as [H3 H4].
  split; [exact H3|exact (H4 eq_refl)].
Defined.

(** Two members, one with a timeout of 7: the batch sent at 20 is due at 27. *)
Lemma batch_deadline_earliest_witness :
  ∃ d, gt_out (dispatchBatch (sample_world true)
      (mkExecuteBatch [sample_task "a" sample_options;
                       sample_task "b" (sample_options <| opt_Timeout := Some 7 |>)] "L1" 110 "g")
      sample_start) = [ToWorker (FBatchDispatch
        [sample_task "a" sample_options;
         sample_task "b" (sample_options <| opt_Timeout := Some 7 |>)] d "g")] ∧ d <= 27.
Proof.
  destruct (batch_deadline_earliest (sample_world true)
    (mkExecuteBatch [sample_task "a" sample_options;
       sample_task "b" (sample_options <| opt_Timeout := Some 7 |>)] "L1" 110 "g")
    sample_start ltac:(done) ltac:(done)) as (_ & d & H1 & H2 & _).
  exists d. split; [exact H1|].
  refine (H2 (sample_task "b" (sample_options <| opt_Timeout := Some 7 |>)) _).
  apply list_elem_of_further, list_elem_of_here.
Defined.

(** A result whose lease was lost changes nothing in the log but still counts
    as a retry. *)
Lemma lost_lease_counts_retry :
  let t' := result (sample_world true) (sample_result "b" TASK_OUTCOME_RETRY) lapsed_gateway in
  row_state <$> br_tasks (gt_log t') !! "b" = row_state <$> br_tasks (gt_log lapsed_gateway) !! "b" ∧
  ct_Retried (gt_counters t') = ct_Retried (gt_counters lapsed_gateway) + 1.
Proof. split; vm_compute; reflexivity. Qed.
