(* ===== verification/EventBus.v ===== *)
(** * The event bus (internal/events/events.go)

    Subscriptions, the non-blocking fan-out of one event stream to bounded
    buffers, and the proof that a watcher sees the events its filter accepts in
    the order they were emitted, missing only what its full buffer dropped. *)

From S2P Require Import Prelude Proto.

#[local] Open Scope Z_scope.

Definition DefaultBufferSize : Z := 1024.

(** [None] is the nil map: the dimension is unconstrained. *)
Record Filter := mkFilter {
  flt_queues : option (gset string);
  flt_eventTypes : option (list TaskEventType) }.

Definition NewFilter (queues : list string) (eventTypes : list TaskEventType) : Filter :=
  let accepted := filter (λ eventType, eventType ≠ TASK_EVENT_TYPE_UNSPECIFIED) eventTypes in
  mkFilter
    (if (0 <? Z.of_nat (length queues))%Z then Some (list_to_set queues) else None)
    (if (0 <? Z.of_nat (length eventTypes))%Z then
       if (0 <? Z.of_nat (length accepted))%Z then Some accepted else None
     else None).

Definition matches (f : Filter) (event : TaskEvent) : bool :=
  match flt_queues f with
  | Some queues => bool_decide (ev_Queue event ∈ queues)
  | None => true
  end &&
  match flt_eventTypes f with
  | Some eventTypes => bool_decide (ev_EventType event ∈ eventTypes)
  | None => true
  end.

(** A channel: its buffered events, oldest first, and whether it is closed. *)
Record channel := mkChannel { ch_buffer : list TaskEvent; ch_closed : bool }.

#[global] Instance channel_eta : Eta channel := λ c, mkChannel (ch_buffer c) (ch_closed c).

(** The channels outlive their subscription: a reader drains what is left
    after a cancel. [bus_drops] counts the calls of [onDrop]. *)
Record EventBus := mkEventBus {
  bus_bufferSize : Z;
  bus_subscribers : gmap Z Filter;
  bus_channels : gmap Z channel;
  bus_nextID : Z;
  bus_drops : Z }.

#[global] Instance EventBus_eta : Eta EventBus := λ b,
  mkEventBus (bus_bufferSize b) (bus_subscribers b) (bus_channels b) (bus_nextID b) (bus_drops b).

Definition NewEventBus (bufferSize : Z) : EventBus :=
  mkEventBus (if (bufferSize <=? 0) then DefaultBufferSize else bufferSize) ∅ ∅ 0 0.

Definition Subscribe (f : Filter) (b : EventBus) : EventBus * Z :=
  let id := bus_nextID b in
  (b <| bus_nextID := id + 1 |>
     <| bus_subscribers := <[id := f]> (bus_subscribers b) |>
     <| bus_channels := <[id := mkChannel [] false]> (bus_channels b) |>, id).

(** The cancel function of a subscription; running it again finds no entry. *)
Definition cancel (id : Z) (b : EventBus) : EventBus :=
  match bus_subscribers b !! id with
  | None => b
  | Some _ =>
      b <| bus_subscribers := delete id (bus_subscribers b) |>
        <| bus_channels := alter (λ c, c <| ch_closed := true |>) id (bus_channels b) |>
  end.

(** The [select] with its default: a send to a channel with room, or a drop. *)
Definition offer (event : TaskEvent) (b : EventBus) (entry : Z * Filter) : EventBus :=
  let '(id, f) := entry in
  if negb (matches f event) then b
  else
    match bus_channels b !! id with
    | None => b
    | Some c =>
        if Z.of_nat (length (ch_buffer c)) <? bus_bufferSize b then
          b <| bus_channels :=
            <[id := c <| ch_buffer := ch_buffer c ++ [event] |>]> (bus_channels b) |>
        else b <| bus_drops := bus_drops b + 1 |>
    end.

Definition Emit {MR : MapRange} (event : option TaskEvent) (b : EventBus) : EventBus :=
  match event with
  | None => b
  | Some event => foldl (offer event) b (range_map (bus_subscribers b))
  end.

(** A watcher's receive: an event, the end of a closed channel, or nothing
    yet. *)
Inductive received := RecvEvent (event : TaskEvent) | RecvClosed | RecvBlocked.

Definition recv (id : Z) (b : EventBus) : EventBus * received :=
  match bus_channels b !! id with
  | None => (b, RecvBlocked)
  | Some c =>
      match ch_buffer c with
      | event :: rest =>
          (b <| bus_channels := <[id := c <| ch_buffer := rest |>]> (bus_channels b) |>,
           RecvEvent event)
      | [] => (b, if ch_closed c then RecvClosed else RecvBlocked)
      end
  end.

(** ** One emission *)

Definition room (b : EventBus) (c : channel) : Prop :=
  Z.of_nat (length (ch_buffer c)) < bus_bufferSize b.

Definition append (event : TaskEvent) (c : channel) : channel :=
  c <| ch_buffer := ch_buffer c ++ [event] |>.

(** What offering an event to one subscriber does. *)
Lemma offer_spec event b id f :
  let b' := offer event b (id, f) in
  bus_subscribers b' = bus_subscribers b ∧ bus_bufferSize b' = bus_bufferSize b ∧
  bus_nextID b' = bus_nextID b ∧ bus_drops b <= bus_drops b' ∧
  (∀ id', id' ≠ id → bus_channels b' !! id' = bus_channels b !! id') ∧
  (∀ c, bus_channels b !! id = Some c →
     (matches f event = false → bus_channels b' !! id = Some c) ∧
     (matches f event = true → room b c → bus_channels b' !! id = Some (append event c)) ∧
     (matches f event = true → ¬ room b c →
        bus_channels b' !! id = Some c ∧ bus_drops b < bus_drops b')).
Proof.
  unfold offer, room. destruct (matches f event); cbn [negb].
  2:{ repeat split; try done; lia. }
  destruct (bus_channels b !! id) as [c|] eqn:E.
  2:{ repeat split; try done; lia. }
  destruct (Z.ltb_spec (Z.of_nat (length (ch_buffer c))) (bus_bufferSize b)); cbn;
    repeat split; try done; try lia; try congruence.
  - intros id' Hne. by rewrite lookup_insert_ne.
  - intros. simplify_eq. apply lookup_insert_eq.
  - intros. simplify_eq. lia.
Qed.

Lemma offers_spec event l b :
  NoDup l.*1 →
  let b' := foldl (offer event) b l in
  bus_subscribers b' = bus_subscribers b ∧ bus_bufferSize b' = bus_bufferSize b ∧
  bus_nextID b' = bus_nextID b ∧ bus_drops b <= bus_drops b' ∧
  (∀ id, id ∉ l.*1 → bus_channels b' !! id = bus_channels b !! id) ∧
  (∀ id f c, (id, f) ∈ l → bus_channels b !! id = Some c →
     (matches f event = false → bus_channels b' !! id = Some c) ∧
     (matches f event = true → room b c → bus_channels b' !! id = Some (append event c)) ∧
     (matches f event = true → ¬ room b c →
        bus_channels b' !! id = Some c ∧ bus_drops b < bus_drops b')).
Proof.
  revert b. induction l as [|[x g] l IH]; intros b Hn; cbn [foldl].
  { repeat split; try done; try lia; by apply not_elem_of_nil in H. }
  cbn [fmap list_fmap fst] in Hn. apply NoDup_cons in Hn as [Hx Hn].
  destruct (offer_spec event b x g) as (A1 & A2 & A3 & A4 & A5 & A6).
  set (b1 := offer event b (x, g)) in *.
  destruct (IH b1 Hn) as (B1 & B2 & B3 & B4 & B5 & B6).
  set (b' := foldl (offer event) b1 l) in *.
  assert (Hroom : ∀ c, room b1 c ↔ room b c) by (intros; unfold room; by rewrite A2).
  split; [congruence|]. split; [congruence|]. split; [congruence|]. split; [lia|]. split.
  - intros id Hid. cbn in Hid. apply not_elem_of_cons in Hid as [Hne Hid].
    rewrite B5 by done. by apply A5.
  - intros id f c Hin Hc. apply elem_of_cons in Hin as [[= -> ->]|Hin].
    + rewrite (B5 x Hx). destruct (A6 c Hc) as (C1 & C2 & C3). repeat split; [done|done|..].
      * by apply C3. * pose proof (C3 H H0). lia.
    + assert (id ≠ x) as Hne.
      { intros ->. apply Hx, list_elem_of_fmap. by exists (x, f). }
      rewrite <- (A5 id Hne) in Hc. destruct (B6 id f c Hin Hc) as (C1 & C2 & C3).
      rewrite Hroom in C2, C3. repeat split; [done|done|..].
      * by apply C3. * pose proof (C3 H H0). lia.
Qed.

(** ** Histories *)

(** An operation on the bus, and a bus together with the events each
    subscription's filter has accepted since it was made and those its watcher
    has received. *)
Inductive busOp :=
  | OSubscribe (f : Filter) | OCancel (id : Z) | OEmit (event : option TaskEvent) | ORecv (id : Z).

Record watched := mkWatched {
  wt_bus : EventBus;
  wt_accepted : gmap Z (list TaskEvent);
  wt_received : gmap Z (list TaskEvent) }.

#[global] Instance watched_eta : Eta watched := λ w,
  mkWatched (wt_bus w) (wt_accepted w) (wt_received w).

Definition accepts (b : EventBus) (event : TaskEvent) (id : Z) : bool :=
  match bus_subscribers b !! id with Some f => matches f event | None => false end.

Definition bus_step {MR : MapRange} (w : watched) (op : busOp) : watched :=
  match op with
  | OSubscribe f =>
      let '(b, id) := Subscribe f (wt_bus w) in
      mkWatched b (<[id := []]> (wt_accepted w)) (<[id := []]> (wt_received w))
  | OCancel id => w <| wt_bus := cancel id (wt_bus w) |>
  | OEmit None => w <| wt_bus := Emit None (wt_bus w) |>
  | OEmit (Some event) =>
      mkWatched (Emit (Some event) (wt_bus w))
        (map_imap (λ id l, Some (if accepts (wt_bus w) event id then l ++ [event] else l))
           (wt_accepted w))
        (wt_received w)
  | ORecv id =>
      let '(b, r) := recv id (wt_bus w) in
      mkWatched b (wt_accepted w)
        match r with
        | RecvEvent event => alter (λ l, l ++ [event]) id (wt_received w)
        | _ => wt_received w
        end
  end.

Definition bus_run {MR : MapRange} (bufferSize : Z) (ops : list busOp) : watched :=
  foldl bus_step (mkWatched (NewEventBus bufferSize) ∅ ∅) ops.

(** What holds of every subscription made so far: [acc] was accepted, [got]
    received, and the rest is buffered or was dropped. *)
Record delivers (b : EventBus) (c : channel) (acc got : list TaskEvent) : Prop := {
  del_order : got ++ ch_buffer c `sublist_of` acc;
  del_bound : Z.of_nat (length (ch_buffer c)) <= bus_bufferSize b;
  del_all : bus_drops b = 0 → got ++ ch_buffer c = acc }.

Record bus_ok (w : watched) : Prop := {
  bok_size : 0 < bus_bufferSize (wt_bus w);
  bok_drops : 0 <= bus_drops (wt_bus w);
  bok_open : ∀ id f, bus_subscribers (wt_bus w) !! id = Some f →
    ∃ c, bus_channels (wt_bus w) !! id = Some c ∧ ch_closed c = false;
  bok_fresh : ∀ id c, bus_channels (wt_bus w) !! id = Some c → id < bus_nextID (wt_bus w);
  bok_delivers : ∀ id c, bus_channels (wt_bus w) !! id = Some c →
    ∃ acc got, wt_accepted w !! id = Some acc ∧ wt_received w !! id = Some got ∧
      delivers (wt_bus w) c acc got }.

Section BusOk.
Context {MR : MapRange}.

Lemma bus_ok_new bufferSize : bus_ok (mkWatched (NewEventBus bufferSize) ∅ ∅).
Proof.
  unfold NewEventBus. split; cbn; [|lia|..]; try (intros *; by rewrite lookup_empty).
  destruct (Z.leb_spec bufferSize 0); [done|lia].
Qed.

Lemma bus_ok_subscribe w f : bus_ok w → bus_ok (bus_step w (OSubscribe f)).
Proof.
  intros [Hs Hd Ho Hf Hv]. split; cbn; [done|done|..].
  - intros id g [[<- <-]|[Hne Hl]]%lookup_insert_Some.
    + exists (mkChannel [] false). by rewrite lookup_insert_eq.
    + rewrite lookup_insert_ne by done. eauto.
  - intros id c [[<- <-]|[Hne Hl]]%lookup_insert_Some; [lia|]. apply Hf in Hl. lia.
  - intros id c [[<- <-]|[Hne Hl]]%lookup_insert_Some.
    + exists [], []. rewrite !lookup_insert_eq. repeat split; cbn; [constructor|lia].
    + rewrite !lookup_insert_ne by done.
      destruct (Hv _ _ Hl) as (acc & got & ? & ? & [? ? ?]). exists acc, got. repeat split; done.
Qed.

Lemma bus_ok_cancel w id : bus_ok w → bus_ok (bus_step w (OCancel id)).
Proof.
  intros [Hs Hd Ho Hf Hv]. unfold bus_step, cancel.
  destruct (bus_subscribers (wt_bus w) !! id) as [f|] eqn:E; [|done].
  split; cbn; [done|done|..].
  - intros id' g [Hne Hl]%lookup_delete_Some. rewrite lookup_alter_ne by done. eauto.
  - intros id' c Hl. destruct (decide (id = id')) as [->|Hne].
    + rewrite lookup_alter_eq in Hl. apply fmap_Some in Hl as (c0 & Hl & ->). eauto.
    + rewrite lookup_alter_ne in Hl by done. eauto.
  - intros id' c Hl.
    assert (∃ c0, bus_channels (wt_bus w) !! id' = Some c0 ∧ ch_buffer c = ch_buffer c0)
      as (c0 & Hc0 & Hbuf).
    { destruct (decide (id = id')) as [->|Hne].
      - rewrite lookup_alter_eq in Hl. apply fmap_Some in Hl as (c0 & Hl & ->). eauto.
      - rewrite lookup_alter_ne in Hl by done. eauto. }
    destruct (Hv _ _ Hc0) as (acc & got & ? & ? & [D1 D2 D3]). exists acc, got.
    split; [done|]. split; [done|]. split; cbn; rewrite Hbuf; done.
Qed.

Lemma bus_ok_recv w id : bus_ok w → bus_ok (bus_step w (ORecv id)).
Proof.
  intros H. destruct H as [Hs Hd Ho Hf Hv] eqn:Hok. clear Hok. unfold bus_step, recv.
  destruct (bus_channels (wt_bus w) !! id) as [c|] eqn:E; [|by destruct w].
  destruct (ch_buffer c) as [|event rest] eqn:Eb; [by destruct w, (ch_closed c)|].
  split; cbn; [done|done|..].
  - intros id' f Hl. destruct (Ho _ _ Hl) as (c' & Hc' & Hcl).
    destruct (decide (id = id')) as [->|Hne].
    + eexists. split; [apply lookup_insert_eq|]. cbn. congruence.
    + exists c'. by rewrite lookup_insert_ne.
  - intros id' c' [[<- <-]|[Hne Hl]]%lookup_insert_Some; eauto.
  - intros id' c' [[<- <-]|[Hne Hl]]%lookup_insert_Some.
    + destruct (Hv _ _ E) as (acc & got & Ha & Hg & [D1 D2 D3]). rewrite Eb in *.
      exists acc, (got ++ [event]). rewrite lookup_alter_eq, Hg. split; [done|]. split; [done|].
      split; cbn; rewrite <- ?app_assoc; [done| |done]. cbn in D2. lia.
    + rewrite lookup_alter_ne by done.
      destruct (Hv _ _ Hl) as (acc & got & ? & ? & [? ? ?]). exists acc, got. repeat split; done.
Qed.

Lemma delivers_more b b' c acc got event :
  bus_bufferSize b' = bus_bufferSize b → 0 <= bus_drops b <= bus_drops b' → room b c →
  delivers b c acc got → delivers b' (append event c) (acc ++ [event]) got.
Proof.
  intros Hs Hd Hr [D1 D2 D3]. unfold room in Hr. split; cbn; rewrite ?app_assoc.
  - by apply sublist_app.
  - rewrite length_app, Hs. cbn. lia.
  - intros H0. by rewrite D3 by lia.
Qed.

Lemma delivers_drop b b' c acc got event :
  bus_bufferSize b' = bus_bufferSize b → 0 <= bus_drops b < bus_drops b' →
  delivers b c acc got → delivers b' c (acc ++ [event]) got.
Proof.
  intros Hs Hd [D1 D2 D3]. split; [|by rewrite Hs|lia].
  by apply sublist_inserts_r.
Qed.

Lemma delivers_same b b' c acc got :
  bus_bufferSize b' = bus_bufferSize b → 0 <= bus_drops b <= bus_drops b' →
  delivers b c acc got → delivers b' c acc got.
Proof. intros Hs Hd [D1 D2 D3]. split; [done|by rewrite Hs|intros; apply D3; lia]. Qed.

Lemma bus_ok_emit w event : bus_ok w → bus_ok (bus_step w (OEmit event)).
Proof.
  intros [Hs Hd Ho Hf Hv]. destruct event as [event|]; [|done].
  unfold bus_step, Emit. set (b := wt_bus w) in *.
  destruct (offers_spec event (range_map (bus_subscribers b)) b
              (NoDup_fst_range_map _)) as (A1 & A2 & A3 & A4 & A5 & A6).
  set (b' := foldl (offer event) b _) in *.
  assert (Hno : ∀ id, bus_subscribers b !! id = None → bus_channels b' !! id = bus_channels b !! id).
  { intros id Hid. apply A5. intros ([x f] & -> & Hin)%list_elem_of_fmap.
    apply elem_of_range_map in Hin. cbn in Hid. congruence. }
  assert (Hcase : ∀ id c', bus_channels b' !! id = Some c' → ∃ c, bus_channels b !! id = Some c ∧
    ch_closed c' = ch_closed c ∧ ∀ acc got, delivers b c acc got →
      delivers b' c' (if accepts b event id then acc ++ [event] else acc) got).
  { intros id c' Hl. unfold accepts. destruct (bus_subscribers b !! id) as [f|] eqn:E.
    - destruct (Ho _ _ E) as (c & Hc & _). exists c. split; [done|].
      apply elem_of_range_map in E. destruct (A6 id f c E Hc) as (C1 & C2 & C3).
      destruct (matches f event) eqn:Em.
      + destruct (decide (Z.of_nat (length (ch_buffer c)) < bus_bufferSize b)) as [Hr|Hr].
        * rewrite (C2 eq_refl Hr) in Hl. injection Hl as <-. split; [done|]. intros acc got Hdel.
          by apply (delivers_more b).
        * destruct (C3 eq_refl Hr) as [Hl' Hlt]. rewrite Hl' in Hl. injection Hl as <-.
          split; [done|]. intros acc got Hdel. by apply (delivers_drop b).
      + rewrite (C1 eq_refl) in Hl. injection Hl as <-. split; [done|].
        intros acc got Hdel. by apply (delivers_same b).
    - rewrite (Hno _ E) in Hl. exists c'. split; [done|]. split; [done|].
      intros acc got Hdel. by apply (delivers_same b). }
  split; cbn [wt_bus wt_accepted wt_received].
  - by rewrite A2.
  - lia.
  - intros id f. rewrite A1. intros E. destruct (Ho _ _ E) as (c & Hc & Hcl).
    apply elem_of_range_map in E. destruct (A6 id f c E Hc) as (C1 & C2 & C3).
    destruct (matches f event); [|eauto].
    destruct (decide (Z.of_nat (length (ch_buffer c)) < bus_bufferSize b)) as [Hr|Hr].
    + exists (append event c). auto.
    + exists c. split; [|done]. by apply C3.
  - intros id c' Hl. rewrite A3. destruct (Hcase _ _ Hl) as (c & Hc & _). eauto.
  - intros id c' Hl. destruct (Hcase _ _ Hl) as (c & Hc & _ & Hdel).
    destruct (Hv _ _ Hc) as (acc & got & Ha & Hg & Hd'). eexists _, got.
    rewrite map_lookup_imap, Ha. split; [done|]. split; [done|]. by apply Hdel.
Qed.

Lemma bus_ok_run bufferSize ops : bus_ok (bus_run bufferSize ops).
Proof.
  unfold bus_run. generalize (bus_ok_new bufferSize).
  generalize (mkWatched (NewEventBus bufferSize) ∅ ∅).
  induction ops as [|op ops IH]; intros w Hw; [done|]. cbn. apply IH. destruct op.
  - by apply bus_ok_subscribe. - by apply bus_ok_cancel. - by apply bus_ok_emit. - by apply bus_ok_recv.
Qed.
End BusOk.

(** C11: whatever is subscribed, cancelled, emitted and received, in any order
    and for every map iteration order, each watcher's received and buffered
    events are, in order, some of the events its filter accepted while it was
    subscribed; its buffer never exceeds the bus's size; if nothing was dropped
    they are all of them; and an accepted event reaches every subscriber whose
    buffer has room. *)
Theorem event_bus_delivers {MR : MapRange} bufferSize ops :
  let w := bus_run bufferSize ops in
  let b := wt_bus w in
  (∀ id c, bus_channels b !! id = Some c →
     ∃ acc got, wt_accepted w !! id = Some acc ∧ wt_received w !! id = Some got ∧
       got ++ ch_buffer c `sublist_of` acc ∧
       Z.of_nat (length (ch_buffer c)) <= bus_bufferSize b ∧
       (bus_drops b = 0 → got ++ ch_buffer c = acc)) ∧
  (∀ id f event, bus_subscribers b !! id = Some f → matches f event = true →
     ∃ c, bus_channels b !! id = Some c ∧ ch_closed c = false ∧
       (room b c → bus_channels (Emit (Some event) b) !! id = Some (append event c))).
Proof.
  cbv zeta. destruct (bus_ok_run bufferSize ops) as [Hs Hd Ho Hf Hv]. split.
  - intros id c Hc. destruct (Hv _ _ Hc) as (acc & got & ? & ? & [? ? ?]). eauto 10.
  - intros id f event Hid Hm. destruct (Ho _ _ Hid) as (c & Hc & Hcl). exists c.
    split; [done|]. split; [done|]. intros Hr.
    destruct (offers_spec event (range_map (bus_subscribers (wt_bus (bus_run bufferSize ops))))
                (wt_bus (bus_run bufferSize ops)) (NoDup_fst_range_map _)) as (_ & _ & _ & _ & _ & Hoff).
    by apply (Hoff id f c); [apply elem_of_range_map| | |].
Qed.

(** A watcher of one queue with a buffer of one: of three events it gets the
    first, misses the second of its queue and never sees the other queue's. *)
Example bus_sample :
  let ev q id := mkTaskEvent id q "send" TASK_STATE_PENDING TASK_EVENT_TYPE_ENQUEUED 1 0 "" in
  let w := bus_run (MR := elements_range) 1
    [OSubscribe (NewFilter ["mail"] []); OEmit (Some (ev "mail" "a")); OEmit (Some (ev "jobs" "b"));
     OEmit (Some (ev "mail" "c")); ORecv 0] in
  wt_received w !! 0 = Some [ev "mail" "a"] ∧
  wt_accepted w !! 0 = Some [ev "mail" "a"; ev "mail" "c"] ∧ bus_drops (wt_bus w) = 1.
Proof. split; [|split]; vm_compute; reflexivity. Qed.
