(* ===== verification/Cron.v ===== *)
(** * Cron fire slots (internal/cron/cron.go)

    The next fire of a spec, the uniqueness key of a slot and the task a slot
    materializes into. The quartz library that interprets the specs is a
    parameter; its documented contract is that a fire time is strictly after
    the instant asked about. *)

From S2P Require Import Prelude Proto BrokerApi.
From stdpp Require Import pretty.
From Stdlib Require Import Ascii.

#[local] Open Scope Z_scope.

Definition UniqueTTL : Duration := Minute.

(** Nanoseconds from the zero [time.Time] to the Unix epoch. *)
Definition unixEpoch : Z := 62135596800 * Second.

Definition UnixNano (t : Time) : Z := wrap64 (t - unixEpoch).
Definition time_Unix (nanos : Z) : Time := nanos + unixEpoch.
(** [Time.Unix]: whole seconds since the epoch. *)
Definition Unix (t : Time) : Z := (t - unixEpoch) / Second.

(** [quartz.NewCronTrigger] followed by [NextFireTime]; [None] is an error of
    either. *)
Class CronTrigger := {
  NextFireTime : string → Z → option Z;
  NextFireTime_after : ∀ spec prev next, NextFireTime spec prev = Some next → prev < next }.

Definition NextFire `{CronTrigger} (spec : string) (after : Time) : option Time :=
  time_Unix <$> NextFireTime spec (UnixNano after).

Definition UniqueKey (entryID : string) (slot : Time) : string :=
  "cron:" +:+ entryID +:+ ":" +:+ pretty (Unix slot).

Definition MaterializeTask (entry : CronEntry) (slot : Time) (id : string) : TaskEnvelope :=
  let options := default emptyTaskOptions (cron_Options entry) in
  let options := options <| opt_UniqueKey := UniqueKey (cron_ID entry) slot |>
                         <| opt_UniqueTtl := Some UniqueTTL |> in
  mkTaskEnvelope id (cron_Queue entry) (cron_TaskType entry) (cron_Payload entry)
    (cron_ContentType entry) ∅ (Some options) 0 "" None None None 0 "".

(** ** Facts *)

(** Instants whose nanoseconds since the epoch fit an [int64]. *)
Definition in_nanos (t : Time) : Prop := int64_range (t - unixEpoch).

Lemma NextFire_after `{CronTrigger} spec after next :
  in_nanos after → NextFire spec after = Some next → after < next.
Proof.
  unfold in_nanos, NextFire, UnixNano, time_Unix. intros Hr.
  rewrite (wrap64_id (after - unixEpoch)) by exact Hr.
  destruct (NextFireTime spec (after - unixEpoch)) as [n|] eqn:E; [|done]. cbn. intros [= <-].
  apply NextFireTime_after in E. lia.
Qed.

Fixpoint has_char (c : ascii) (s : string) : bool :=
  match s with
  | EmptyString => false
  | String d s => Ascii.eqb d c || has_char c s
  end.

Lemma has_char_app c s t : has_char c (s +:+ t) = has_char c s || has_char c t.
Proof. induction s as [|d s IH]; [done|]. simpl. by rewrite IH, orb_assoc. Qed.

(** Splitting at the last occurrence of a character is unambiguous. *)
Lemma last_split c s1 t1 s2 t2 :
  has_char c t1 = false → has_char c t2 = false →
  s1 +:+ String c t1 = s2 +:+ String c t2 → s1 = s2 ∧ t1 = t2.
Proof.
  intros H1 H2. revert s2. induction s1 as [|d s1 IH]; intros [|e s2]; simpl; intros Heq.
  - by injection Heq as ->.
  - injection Heq as -> ->. rewrite has_char_app in H1. simpl in H1.
    by rewrite Ascii.eqb_refl, orb_true_r in H1.
  - injection Heq as -> <-. rewrite has_char_app in H2. simpl in H2.
    by rewrite Ascii.eqb_refl, orb_true_r in H2.
  - injection Heq as -> Ht. by apply IH in Ht as [-> ->].
Qed.

Lemma digit_not_colon x : Ascii.eqb (pretty_N_char x) ":"%char = false.
Proof. destruct x as [|p]; [done|]. cbn. by repeat (destruct p as [p|p|]; try done). Qed.

Lemma pretty_go_no_colon x s : has_char ":"%char s = false → has_char ":"%char (pretty_N_go x s) = false.
Proof.
  revert s. induction (N.lt_wf_0 x) as [x _ IH]; intros s Hs.
  destruct (decide (0 < x)%N) as [Hx|Hx].
  - rewrite pretty_N_go_step by done. apply IH; [apply N.div_lt; lia|].
    cbn [has_char]. by rewrite digit_not_colon.
  - assert (x = 0%N) as -> by lia. by rewrite pretty_N_go_0.
Qed.

Lemma pretty_N_no_colon x : has_char ":"%char (@pretty _ pretty_N x) = false.
Proof. unfold pretty, pretty_N. case_decide; [done|]. by apply pretty_go_no_colon. Qed.

Lemma pretty_Z_no_colon (z : Z) : has_char ":"%char (pretty z) = false.
Proof.
  destruct z as [|p|p]; [done|apply pretty_N_no_colon|].
  change (pretty (Z.neg p)) with ("-" +:+ @pretty _ pretty_N (N.pos p)).
  rewrite has_char_app. by rewrite pretty_N_no_colon.
Qed.
