(* ===== verification/Maintenance.v ===== *)
(** * The maintenance loops (internal/actors/scheduler.go, reaper.go, resolver.go, group.go)

    The cluster singletons that drive the broker forward, over the in-memory
    broker: the scheduler's promotion and cron pass, the reaper's maintenance
    pass, the resolver's reaction to a finished task and the group sweep. A turn
    is a function on the broker, the counters, the fresh-id source and the
    messages sent. The in-memory broker's calls do not fail, so the branches
    that count a failed pass are those of [Enqueue] and of the cron specs. *)

From S2P Require Import Prelude Proto BrokerApi Memory Backoff Messages Cron.

Section Maintenance.
Context {MR : MapRange} `{CT : CronTrigger}.

(** What a pass sends, and the passes it records as failed. *)
Inductive upkeepEffect :=
  | Wake (queue : string) (hint : Z)
  | Fire (queue group taskType : string) (limit : Z)
  | Failed (pass : string).

Record Upkeep := mkUpkeep {
  up_broker : Broker;
  up_counters : Counters;
  up_nextID : nat;
  up_out : list upkeepEffect }.

#[global] Instance Upkeep_eta : Eta Upkeep := λ u,
  mkUpkeep (up_broker u) (up_counters u) (up_nextID u) (up_out u).

(** [runtime.NewID] draws from a sequence of ids. *)
Record Host := mkHost {
  hs_settings : Settings;
  hs_now : Time;
  hs_id : nat → string }.

Definition sends (e : upkeepEffect) (u : Upkeep) : Upkeep :=
  u <| up_out := up_out u ++ [e] |>.

Definition wakeQueue (queue : string) (hint : Z) (u : Upkeep) : Upkeep := sends (Wake queue hint) u.

Definition wakeAll (queues : list string) (u : Upkeep) : Upkeep :=
  foldl (λ u queue, wakeQueue queue 0 u) u queues.

Definition PassCron : string := "cron".

Definition countEnqueued (k : Counters) : Counters :=
  k <| ct_Enqueued := (ct_Enqueued k + 1)%Z |>.

(** ** The scheduler *)

Definition armCron (h : Host) (entry : CronEntry) (u : Upkeep) : Upkeep :=
  match NextFire (cron_Spec entry) (hs_now h) with
  | None => sends (Failed PassCron) u
  | Some next =>
      u <| up_broker := UpdateCronNextRun (cron_ID entry) zeroTime next (up_broker u) |>
  end.

Definition fireCron (h : Host) (entry : CronEntry) (u : Upkeep) : Upkeep :=
  let task := MaterializeTask entry (cron_NextRunAt entry) (hs_id h (up_nextID u)) in
  let u := u <| up_nextID := S (up_nextID u) |> in
  let advance (u : Upkeep) :=
    match NextFire (cron_Spec entry) (hs_now h) with
    | None => sends (Failed PassCron) u
    | Some next =>
        u <| up_broker :=
          UpdateCronNextRun (cron_ID entry) (cron_NextRunAt entry) next (up_broker u) |>
    end in
  let '(b, err) := Enqueue task (hs_now h) (up_broker u) in
  let u := u <| up_broker := b |> in
  match err with
  | None =>
      let u := u <| up_counters := countEnqueued (up_counters u) |> in
      advance (wakeQueue (cron_Queue entry) 0 u)
  | Some ErrDuplicateTask => advance u
  | Some _ => sends (Failed PassCron) u
  end.

Definition cronEntry (h : Host) (u : Upkeep) (entry : CronEntry) : Upkeep :=
  if IsZero (cron_NextRunAt entry) then armCron h entry u else fireCron h entry u.

Definition materializeCron (h : Host) (u : Upkeep) : Upkeep :=
  foldl (cronEntry h) u (ListDueCronEntries (hs_now h) (up_broker u)).

Definition promote (h : Host) (u : Upkeep) : Upkeep :=
  let '(b, queues) := PromoteScheduled (set_LeaseBatchMax (hs_settings h)) (hs_now h) (up_broker u) in
  materializeCron h (wakeAll queues (u <| up_broker := b |>)).

(** ** The reaper *)

Definition maintain (h : Host) (u : Upkeep) : Upkeep :=
  let limit := set_LeaseBatchMax (hs_settings h) in
  let now := hs_now h in
  let '(b, reaped) := ReapExpiredLeases limit now (up_broker u) in
  let u := wakeAll reaped (u <| up_broker := b |>) in
  let u := u <| up_broker :=
    (PurgeTerminal (set_ArchiveRetention (hs_settings h)) limit now (up_broker u)).1 |> in
  let u := u <| up_broker := (ArchiveExpired limit now (up_broker u)).1 |> in
  let '(b, promoted) := PromoteReadyDependents limit now (up_broker u) in
  let u := wakeAll promoted (u <| up_broker := b |>) in
  let pending := PendingCount now (up_broker u) in
  foldl (λ u '(queue, count), if (0 <? count)%Z then wakeQueue queue count u else u)
    u (range_map pending).

(** ** The resolver *)

Definition resolve (h : Host) (taskID : string) (u : Upkeep) : Upkeep :=
  let '(b, queues) := ResolveDependents taskID (hs_now h) (up_broker u) in
  wakeAll queues (u <| up_broker := b |>).

(** ** The group sweep *)

Definition indexGroupConfigs (configs : list GroupConfig) : gmap (string * string) GroupConfig :=
  foldl (λ index config, <[(gc_Queue config, gc_Group config) := config]> index) ∅ configs.

Definition effectiveGroupConfig (stat : GroupStat) (index : gmap (string * string) GroupConfig)
    (settings : Settings) : Z * Duration * Duration :=
  match index !! (gs_Queue stat, gs_Group stat) with
  | Some config => (gc_MaxSize config, gc_MaxDelay config, gc_GracePeriod config)
  | None =>
      match index !! (gs_Queue stat, "") with
      | Some config => (gc_MaxSize config, gc_MaxDelay config, gc_GracePeriod config)
      | None => (set_GroupMaxSize settings, set_GroupMaxDelay settings, set_GroupGracePeriod settings)
      end
  end.

Definition groupDue (stat : GroupStat) (maxSize : Z) (maxDelay gracePeriod : Duration) (now : Time)
    : bool :=
  if (maxSize <=? gs_Count stat)%Z then true
  else if (maxDelay <=? time_Sub now (gs_Oldest stat))%Z then true
  else if (gracePeriod <=? time_Sub now (gs_Newest stat))%Z then true
  else false.

Definition sweepGroup (h : Host) (index : gmap (string * string) GroupConfig) (u : Upkeep)
    (group : GroupStat) : Upkeep :=
  let '(maxSize, maxDelay, gracePeriod) := effectiveGroupConfig group index (hs_settings h) in
  if groupDue group maxSize maxDelay gracePeriod (hs_now h)
  then sends (Fire (gs_Queue group) (gs_Group group) (gs_Type group) (wrap32 maxSize)) u
  else u.

Definition sweep (h : Host) (u : Upkeep) : Upkeep :=
  let groups := GroupStats (up_broker u) in
  if decide (groups = []) then u
  else
    let index := indexGroupConfigs (GroupConfigs (up_broker u)) in
    foldl (sweepGroup h index) u groups.
End Maintenance.
