(* ===== verification/MaintenanceProps.v ===== *)
(** * What the maintenance loops guarantee

    Cron slots fire at most once and their cursors only move forward; the
    reaper wakes every queue that has due work; the group sweep fires exactly
    the groups that have met a threshold. *)

From S2P Require Import Prelude Proto Events BrokerApi Memory MemoryFacts MemoryInv MemoryDeps.
From S2P Require Import MemoryEnqueue Backoff Messages Cron Maintenance.
From stdpp Require Import pretty.
From Stdlib Require Import Ascii.

#[local] Open Scope Z_scope.

(** ** Cron *)

(** The uniqueness key of a cron task identifies its entry and its slot's
    second: equal keys come from the same entry and the same second, whatever
    characters entry ids contain. *)
Theorem UniqueKey_injective id1 slot1 id2 slot2 :
  UniqueKey id1 slot1 = UniqueKey id2 slot2 ↔ id1 = id2 ∧ Unix slot1 = Unix slot2.
Proof.
  split; [|intros [-> H]; unfold UniqueKey; by rewrite H].
  unfold UniqueKey. intros H. simpl in H. injection H as H.
  apply last_split in H as [-> H]; [|apply pretty_Z_no_colon..].
  split; [done|]. by apply (inj pretty).
Qed.

Section Cron.
Context {MR : MapRange} `{CT : CronTrigger}.
Implicit Types (h : Host) (u : Upkeep) (entry : CronEntry).

Lemma UpdateCronNextRun_stale id expected next b :
  (∀ e, br_cronEntries b !! id = Some e → cron_NextRunAt e ≠ expected) →
  UpdateCronNextRun id expected next b = b.
Proof.
  intros H. unfold UpdateCronNextRun. destruct (br_cronEntries b !! id) as [e|] eqn:E; [|done].
  unfold Equal. destruct (Z.eqb_spec (cron_NextRunAt e) expected); [|done]. by destruct (H e).
Qed.

Lemma UpdateCronNextRun_lookup id expected next b id' :
  br_cronEntries (UpdateCronNextRun id expected next b) !! id' =
    (λ e, if decide (id' = id ∧ cron_NextRunAt e = expected) then e <| cron_NextRunAt := next |> else e)
      <$> br_cronEntries b !! id'.
Proof.
  unfold UpdateCronNextRun, Equal.
  destruct (br_cronEntries b !! id) as [e|] eqn:E.
  - destruct (Z.eqb_spec (cron_NextRunAt e) expected) as [He|He].
    + cbn. destruct (decide (id' = id)) as [->|Hne].
      * rewrite lookup_insert_eq, E. cbn. by rewrite decide_True.
      * rewrite lookup_insert_ne by done. destruct (br_cronEntries b !! id'); cbn; [|done].
        rewrite decide_False by naive_solver. done.
    + destruct (br_cronEntries b !! id') as [e'|] eqn:E'; cbn; [|done].
      rewrite decide_False by (intros [-> ?]; congruence). done.
  - destruct (br_cronEntries b !! id') as [e'|] eqn:E'; cbn; [|done].
    rewrite decide_False by (intros [-> ?]; congruence). done.
Qed.

Lemma UpdateCronNextRun_tasks id expected next b :
  br_tasks (UpdateCronNextRun id expected next b) = br_tasks b.
Proof. unfold UpdateCronNextRun. by repeat case_match. Qed.

Lemma UniqueKey_nonempty id slot : UniqueKey id slot ≠ "".
Proof. done. Qed.

(** Options that do not cancel the task as it is enqueued. *)
Definition no_cascade entry : Prop :=
  Forall (λ e, dep_OnFailure e ≠ DEPENDENCY_FAILURE_POLICY_CASCADE_CANCEL)
    (opt_DependsOn (default emptyTaskOptions (cron_Options entry))).

(** C19: a cron slot is materialized once. When a scheduler has fired a due
    slot, a second scheduler that works from the same stale entry within the
    uniqueness window changes nothing in the broker: no second task appears and
    the cursor stays where the first one put it. *)
Theorem fireCron_once_per_slot h1 h2 entry u next :
  let id1 := hs_id h1 (up_nextID u) in
  let u1 := fireCron h1 entry u in
  0 < hs_now h1 → hs_now h2 < hs_now h1 + UniqueTTL →
  in_nanos (hs_now h1) → cron_NextRunAt entry <= hs_now h1 → no_cascade entry →
  NextFire (cron_Spec entry) (hs_now h1) = Some next →
  br_tasks (up_broker u) !! id1 = None →
  (Enqueue (MaterializeTask entry (cron_NextRunAt entry) id1) (hs_now h1) (up_broker u)).2 = None →
  br_tasks (up_broker u1) !! hs_id h2 (up_nextID u1) = None →
  (∃ row, br_tasks (up_broker u1) = <[id1 := row]> (br_tasks (up_broker u)) ∧
     row_uniqueKey row = UniqueKey (cron_ID entry) (cron_NextRunAt entry)) ∧
  up_broker (fireCron h2 entry u1) = up_broker u1 ∧
  up_counters (fireCron h2 entry u1) = up_counters u1.
Proof.
  intros id1 u1 Hnow Hwin Hns Hdue Hcas Hnext Hnew Hok Hfresh.
  set (task := MaterializeTask entry (cron_NextRunAt entry) id1) in *.
  pose proof (NextFire_after _ _ _ Hns Hnext) as Hlater.
  destruct (Enqueue_row task (hs_now h1) (up_broker u) Hnew Hok) as (state & at_ & deps & Ht & Hst).
  set (row := stage_row task (hs_now h1) state at_ deps) in *.
  pose proof (Enqueue_cron task (hs_now h1) (up_broker u)) as Hcron.
  assert (Hu1 : up_broker u1 = UpdateCronNextRun (cron_ID entry) (cron_NextRunAt entry) next
                  (Enqueue task (hs_now h1) (up_broker u)).1).
  { subst u1. unfold fireCron. fold id1 task. cbn [up_broker set].
    change (up_broker (u <| up_nextID := S (up_nextID u) |>)) with (up_broker u).
    destruct (Enqueue task (hs_now h1) (up_broker u)) as [b err]. cbn [fst snd] in *. subst err.
    by rewrite Hnext. }
  assert (Htasks : br_tasks (up_broker u1) = <[id1 := row]> (br_tasks (up_broker u))).
  { rewrite Hu1, UpdateCronNextRun_tasks. exact Ht. }
  split; [by exists row|].
  set (task2 := MaterializeTask entry (cron_NextRunAt entry) (hs_id h2 (up_nextID u1))).
  assert (Hdup : Enqueue task2 (hs_now h2) (up_broker u1) = (up_broker u1, Some ErrDuplicateTask)).
  { unfold Enqueue. rewrite stageEnqueue_claimed; [done|apply UniqueKey_nonempty|exact Hfresh|].
    apply uniqueKeyClaimed_spec. exists id1, row. split; [by rewrite Htasks, lookup_insert_eq|].
    unfold holds_key. rewrite bool_decide_true by done. cbn [row_state row stage_row].
    rewrite (Hst Hcas). cbn [andb]. unfold row, stage_row, IsZero, After, time_Add. cbn.
    apply orb_true_intro. right. apply Z.ltb_lt. exact Hwin. }
  assert (Hcas2 : ∀ n, UpdateCronNextRun (cron_ID entry) (cron_NextRunAt entry) n (up_broker u1)
                         = up_broker u1).
  { intros n. apply UpdateCronNextRun_stale. intros e. rewrite Hu1, UpdateCronNextRun_lookup.
    destruct (br_cronEntries _ !! cron_ID entry) as [e0|]; [|done]. cbn. intros [= <-].
    destruct (decide (cron_ID entry = cron_ID entry ∧ cron_NextRunAt e0 = cron_NextRunAt entry))
      as [_|Hne]; cbn; [lia|naive_solver]. }
  unfold fireCron. fold task2.
  change (up_broker (u1 <| up_nextID := S (up_nextID u1) |>)) with (up_broker u1).
  rewrite Hdup. cbv zeta.
  destruct (NextFire (cron_Spec entry) (hs_now h2)) as [n|]; [|done].
  cbn. by rewrite Hcas2.
Qed.

(** ** Cursors *)

Definition ungrouped entry : Prop :=
  opt_Group (default emptyTaskOptions (cron_Options entry)) = "".

Lemma Enqueue_ungrouped task now b :
  opt_Group (GetOptions task) = "" →
  (Enqueue task now b).2 = None ∨ (Enqueue task now b).2 = Some ErrDuplicateTask.
Proof.
  intros Hg. unfold Enqueue, stageEnqueue. case_decide; [by left|]. case_decide; [by left|].
  destruct (negb (bool_decide (opt_UniqueKey _ = "")) && _); [by right|].
  rewrite Hg, bool_decide_true by done. cbn [negb andb].
  destruct (resolveInitialDeps _ _ _). by left.
Qed.

(** The cursor of one entry after its turn in the pass. *)
Definition advanced h entry (n : Time) : Prop :=
  (n = cron_NextRunAt entry ∨ NextFire (cron_Spec entry) (hs_now h) = Some n) ∧
  (ungrouped entry → ∀ n', NextFire (cron_Spec entry) (hs_now h) = Some n' → n = n').

Lemma cron_entry_eta entry : entry <| cron_NextRunAt := cron_NextRunAt entry |> = entry.
Proof. by destruct entry. Qed.

Lemma UpdateCronNextRun_own entry next b :
  br_cronEntries b !! cron_ID entry = Some entry →
  br_cronEntries (UpdateCronNextRun (cron_ID entry) (cron_NextRunAt entry) next b) =
    <[cron_ID entry := entry <| cron_NextRunAt := next |>]> (br_cronEntries b).
Proof. intros E. unfold UpdateCronNextRun, Equal. by rewrite E, Z.eqb_refl. Qed.

Lemma cronEntry_spec h u entry :
  br_cronEntries (up_broker u) !! cron_ID entry = Some entry →
  ∃ n, advanced h entry n ∧
    br_cronEntries (up_broker (cronEntry h u entry)) =
      <[cron_ID entry := entry <| cron_NextRunAt := n |>]> (br_cronEntries (up_broker u)) ∧
    (∀ id row, br_tasks (up_broker u) !! id = Some row →
       br_tasks (up_broker (cronEntry h u entry)) !! id = Some row).
Proof.
  intros E. unfold cronEntry, advanced.
  assert (Hsame : <[cron_ID entry := entry <| cron_NextRunAt := cron_NextRunAt entry |>]>
    (br_cronEntries (up_broker u)) = br_cronEntries (up_broker u)).
  { rewrite cron_entry_eta. by apply insert_id. }
  destruct (IsZero (cron_NextRunAt entry)) eqn:Ez.
  { unfold armCron. apply Z.eqb_eq in Ez.
    assert (zeroTime = cron_NextRunAt entry) as -> by done. clear Ez.
    destruct (NextFire (cron_Spec entry) (hs_now h)) as [next|].
    - exists next. cbn. split; [split; [by right|by intros _ n' [= ->]]|].
      split; [by apply UpdateCronNextRun_own|]. intros id row Hr. by rewrite UpdateCronNextRun_tasks.
    - exists (cron_NextRunAt entry). rewrite Hsame. split; [split; [by left|done]|done]. }
  clear Ez. unfold fireCron.
  change (up_broker (u <| up_nextID := S (up_nextID u) |>)) with (up_broker u).
  set (task := MaterializeTask _ _ _).
  pose proof (Enqueue_cron task (hs_now h) (up_broker u)) as Hc.
  pose proof (Enqueue_keeps task (hs_now h) (up_broker u)) as Hk.
  pose proof (Enqueue_ungrouped task (hs_now h) (up_broker u)) as Hu.
  destruct (Enqueue task (hs_now h) (up_broker u)) as [b err]. cbn [fst snd] in *. cbv zeta.
  assert (Hadv : ∀ u', up_broker u' = b → ∃ n,
    ((n = cron_NextRunAt entry ∨ NextFire (cron_Spec entry) (hs_now h) = Some n) ∧
     (ungrouped entry → ∀ n', NextFire (cron_Spec entry) (hs_now h) = Some n' → n = n')) ∧
    let u'' := match NextFire (cron_Spec entry) (hs_now h) with
      | None => sends (Failed PassCron) u'
      | Some next => u' <| up_broker :=
          UpdateCronNextRun (cron_ID entry) (cron_NextRunAt entry) next (up_broker u') |>
      end in
    br_cronEntries (up_broker u'') =
      <[cron_ID entry := entry <| cron_NextRunAt := n |>]> (br_cronEntries (up_broker u)) ∧
    (∀ id row, br_tasks (up_broker u) !! id = Some row → br_tasks (up_broker u'') !! id = Some row)).
  { intros u' Hu'. destruct (NextFire (cron_Spec entry) (hs_now h)) as [next|].
    - exists next. cbn. rewrite Hu'. split; [split; [by right|by intros _ n' [= ->]]|]. split.
      + by rewrite UpdateCronNextRun_own, Hc by by rewrite Hc.
      + intros id row Hr. rewrite UpdateCronNextRun_tasks. by apply Hk.
    - exists (cron_NextRunAt entry). rewrite Hsame. cbn. rewrite Hu'. split; [split; [by left|done]|].
      split; [by rewrite Hc|done]. }
  destruct err as [[]|]; try (by apply Hadv);
    (exists (cron_NextRunAt entry); rewrite Hsame; cbn; rewrite Hc; split; [|done]; split; [by left|];
     intros Hg; destruct (Hu Hg); done).
Qed.

(** The pass over entries with distinct ids, each stored as listed. *)
Lemma cronEntries_spec h l u :
  NoDup (cron_ID <$> l) → (∀ e, e ∈ l → br_cronEntries (up_broker u) !! cron_ID e = Some e) →
  let u' := foldl (cronEntry h) u l in
  (∀ e, e ∈ l → ∃ n, advanced h e n ∧
     br_cronEntries (up_broker u') !! cron_ID e = Some (e <| cron_NextRunAt := n |>)) ∧
  (∀ id, id ∉ cron_ID <$> l →
     br_cronEntries (up_broker u') !! id = br_cronEntries (up_broker u) !! id) ∧
  (∀ id row, br_tasks (up_broker u) !! id = Some row → br_tasks (up_broker u') !! id = Some row).
Proof.
  revert u. induction l as [|x l IH]; intros u Hn Hs; cbn [foldl].
  { repeat split; try done. intros e He. by apply not_elem_of_nil in He. }
  cbn [fmap list_fmap] in Hn. apply NoDup_cons in Hn as [Hx Hn].
  destruct (cronEntry_spec h u x (Hs x ltac:(left))) as (n & Ha & Hc & Ht).
  destruct (IH (cronEntry h u x) Hn) as (I1 & I2 & I3).
  { intros e He. rewrite Hc, lookup_insert_ne; [apply Hs; by right|].
    intros Heq. apply Hx. rewrite Heq. by apply list_elem_of_fmap_2. }
  split; [|split; [|auto]].
  - intros e [->|He]%elem_of_cons; [|by apply I1].
    exists n. split; [done|]. rewrite I2 by done. by rewrite Hc, lookup_insert_eq.
  - intros id Hid. cbn in Hid. apply not_elem_of_cons in Hid as [Hne Hid].
    rewrite I2, Hc by done. by rewrite lookup_insert_ne.
Qed.

(** Entries are stored under their own ids. *)
Definition cron_keyed (b : Broker) : Prop :=
  ∀ id e, br_cronEntries b !! id = Some e → cron_ID e = id.

Lemma elem_of_due now b e :
  cron_keyed b →
  e ∈ ListDueCronEntries now b ↔ br_cronEntries b !! cron_ID e = Some e ∧ cronDue now e = true.
Proof.
  intros Hk. unfold ListDueCronEntries. rewrite SortFunc_perm, list_elem_of_filter, list_elem_of_fmap.
  split.
  - intros (Hd & [id e'] & -> & Hin). apply elem_of_range_map in Hin. cbn in *.
    by rewrite (Hk _ _ Hin).
  - intros (Hl & Hd). split; [done|]. exists (cron_ID e, e). by rewrite elem_of_range_map.
Qed.

Lemma NoDup_due now b : cron_keyed b → NoDup (cron_ID <$> ListDueCronEntries now b).
Proof.
  intros Hk. unfold ListDueCronEntries. rewrite SortFunc_perm.
  assert (Hids : cron_ID <$> (range_map (br_cronEntries b)).*2 = (range_map (br_cronEntries b)).*1).
  { rewrite <- list_fmap_compose. apply fmap_ext_in. intros [id e] Hin.
    apply elem_of_range_map in Hin. cbn. by apply Hk. }
  assert (Hn : NoDup (cron_ID <$> (range_map (br_cronEntries b)).*2))
    by (rewrite Hids; apply NoDup_fst_range_map).
  revert Hn. generalize ((range_map (br_cronEntries b)).*2) as l. clear.
  induction l as [|e l IH]; [done|]. cbn [fmap list_fmap]. intros [Hx Hn]%NoDup_cons.
  rewrite filter_cons. case_decide; [|by apply IH]. cbn [fmap list_fmap]. constructor; [|by apply IH].
  intros (e' & He & Hin)%list_elem_of_fmap. apply Hx. rewrite He. apply list_elem_of_fmap_2.
  by apply list_elem_of_filter in Hin as [_ Hin].
Qed.

(** A cron pass moves cursors forward only. Every entry survives with all
    its fields but the cursor; the cursor of an entry that was not due is
    unchanged; that of a due entry is unchanged or moved to the first fire after
    now, and always moved when the spec has one and the entry is not grouped, so
    the entry is not due again at this instant. No stored task is touched. *)
Theorem materializeCron_advances h u :
  cron_keyed (up_broker u) → in_nanos (hs_now h) → 0 < hs_now h →
  let b := up_broker u in
  let b' := up_broker (materializeCron h u) in
  (∀ id e, br_cronEntries b !! id = Some e → ∃ n,
     br_cronEntries b' !! id = Some (e <| cron_NextRunAt := n |>) ∧
     cron_NextRunAt e <= n ∧
     (cronDue (hs_now h) e = false → n = cron_NextRunAt e) ∧
     (n ≠ cron_NextRunAt e → hs_now h < n ∧ NextFire (cron_Spec e) (hs_now h) = Some n) ∧
     (cronDue (hs_now h) e = true → ungrouped e →
        ∀ next, NextFire (cron_Spec e) (hs_now h) = Some next →
          n = next ∧ cronDue (hs_now h) (e <| cron_NextRunAt := n |>) = false)) ∧
  (∀ id row, br_tasks b !! id = Some row → br_tasks b' !! id = Some row).
Proof.
  intros Hk Hns Hnow. cbv zeta. unfold materializeCron.
  destruct (cronEntries_spec h (ListDueCronEntries (hs_now h) (up_broker u)) u)
    as (H1 & H2 & H3); [by apply NoDup_due|intros e He; by apply elem_of_due in He as [? _]|].
  split; [|done]. intros id e He. pose proof (Hk _ _ He) as Hid.
  destruct (cronDue (hs_now h) e) eqn:Hd.
  - destruct (H1 e) as (n & [Ha1 Ha2] & Hn); [apply elem_of_due; [done|by rewrite Hid]|].
    rewrite Hid in Hn. exists n. split; [exact Hn|].
    assert (Hdue : cron_NextRunAt e <= hs_now h).
    { unfold cronDue, IsZero, After in Hd. apply andb_true_iff in Hd as [_ Hd].
      apply orb_true_iff in Hd as [Hd|Hd]; [apply Z.eqb_eq in Hd; lia|].
      apply negb_true_iff, Z.ltb_ge in Hd. lia. }
    assert (Hmoved : n ≠ cron_NextRunAt e →
      hs_now h < n ∧ NextFire (cron_Spec e) (hs_now h) = Some n).
    { intros Hne. destruct Ha1 as [->|Hf]; [done|]. split; [|done]. by eapply NextFire_after. }
    split; [destruct (decide (n = cron_NextRunAt e)); [lia|]; destruct Hmoved; [done|lia]|].
    split; [done|]. split; [done|]. intros _ Hg next Hf. specialize (Ha2 Hg next Hf). subst n.
    split; [done|]. pose proof (NextFire_after _ _ _ Hns Hf).
    unfold cronDue, IsZero, After. cbn. rewrite (proj2 (Z.eqb_neq next 0)) by lia.
    rewrite (proj2 (Z.ltb_lt (hs_now h) next)) by lia. by destruct (cron_Paused e).
  - exists (cron_NextRunAt e). rewrite cron_entry_eta. split.
    + rewrite H2; [done|]. intros (e' & Heq & Hin)%list_elem_of_fmap.
      apply elem_of_due in Hin as [Hin Hd']; [|done]. congruence.
    + repeat split; try done; lia.
Qed.
End Cron.

(** A trigger that fires at every whole minute. *)
Definition every_minute_next (spec : string) (prev : Z) : option Z :=
  if decide (spec = "0 * * * * *") then Some ((prev / Minute + 1) * Minute) else None.

Lemma every_minute_after spec prev next : every_minute_next spec prev = Some next → prev < next.
Proof.
  unfold every_minute_next. destruct (decide (spec = "0 * * * * *")); [|done]. intros [= <-].
  pose proof (Z.mul_succ_div_gt prev Minute ltac:(done)). lia.
Qed.

Definition every_minute : CronTrigger :=
  {| NextFireTime := every_minute_next; NextFireTime_after := every_minute_after |}.

#[local] Existing Instance elements_range.
#[local] Existing Instance every_minute.

(** An entry due at second 60 after the epoch, read ten seconds later. *)
Definition minute_entry : CronEntry :=
  mkCronEntry "digest" "0 * * * * *" "send" "mail" [] "" None false (unixEpoch + 60 * Second).

Definition cron_store : Broker := UpsertCronEntry minute_entry New.

Definition cron_settings : Settings :=
  zeroSettings <| set_LeaseBatchMax := 10 |> <| set_GroupMaxSize := 5 |>
    <| set_GroupMaxDelay := 60 |> <| set_GroupGracePeriod := 30 |>.

Definition cron_host (prefix : string) (now : Time) : Host :=
  mkHost cron_settings now (λ n, prefix +:+ pretty n).

Definition cron_start : Upkeep := mkUpkeep cron_store noCounters 0 [].

Lemma fireCron_once_per_slot_witness :
  let u1 := fireCron (cron_host "x" (unixEpoch + 70 * Second)) minute_entry cron_start in
  size (br_tasks (up_broker u1)) = 1%nat ∧
  up_broker (fireCron (cron_host "y" (unixEpoch + 80 * Second)) minute_entry u1) = up_broker u1.
Proof.
  split; [vm_compute; reflexivity|].
  apply (fireCron_once_per_slot (cron_host "x" (unixEpoch + 70 * Second))
    (cron_host "y" (unixEpoch + 80 * Second)) minute_entry cron_start (unixEpoch + 120 * Second));
    try (vm_compute; reflexivity).
  - unfold in_nanos, int64_range. cbn [hs_now cron_host]. unfold unixEpoch, Second. lia.
  - vm_compute. discriminate.
  - constructor.
Defined.

Lemma materializeCron_advances_witness :
  let b' := up_broker (materializeCron (cron_host "x" (unixEpoch + 70 * Second)) cron_start) in
  ∃ e, br_cronEntries b' !! "digest" = Some e ∧ cron_NextRunAt e = unixEpoch + 120 * Second.
Proof.
  destruct (materializeCron_advances (cron_host "x" (unixEpoch + 70 * Second)) cron_start) as [H _].
  - intros id e Hl.
    assert (Hall : map_Forall (λ id e, cron_ID e = id) (br_cronEntries (up_broker cron_start)))
      by (apply (bool_decide_unpack _); vm_compute; reflexivity).
    exact (Hall id e Hl).
  - unfold in_nanos, int64_range. cbn [hs_now cron_host]. unfold unixEpoch, Second. lia.
  - by vm_compute.
  - destruct (H "digest" minute_entry) as (n & Hn & _ & _ & _ & Hnext); [by vm_compute|].
    eexists. split; [exact Hn|]. cbn [cron_NextRunAt set].
    by apply (Hnext ltac:(by vm_compute) eq_refl (unixEpoch + 120 * Second)).
Defined.

(** ** The reaper *)

(** Whether a row is work a lease could take now, and how many such rows a
    queue has. *)
Definition due_work (now : Time) (queue : string) (row : taskRow) : bool :=
  dispatchable (row_state row) && negb (After (row_processAt row) now) &&
  bool_decide (env_Queue (row_envelope row) = queue).

Definition waiting (now : Time) (b : Broker) (queue : string) : Z :=
  sumZ (λ p, if due_work now queue p.2 then 1 else 0) (map_to_list (br_tasks b)).

Section Reaping.
Context {MR : MapRange}.
Implicit Types (h : Host) (u : Upkeep).

Lemma sumZ_indicator {A} (f : A → bool) (l : list A) :
  0 <= sumZ (λ x, if f x then 1 else 0) l.
Proof. apply sumZ_nonneg. intros x _. destruct (f x); lia. Qed.

(** The counting loop, from any counts. *)
Lemma PendingCount_loop now (l : list (string * taskRow)) (counts : gmap string Z) queue :
  let n := sumZ (λ p, if due_work now queue p.2 then 1 else 0) l in
  foldl (λ counts '(_, row),
    if dispatchable (row_state row) && negb (After (row_processAt row) now) then
      let queue := env_Queue (row_envelope row) in
      <[queue := default 0 (counts !! queue) + 1]> counts
    else counts) counts l !! queue =
  if decide (n = 0) then counts !! queue else Some (default 0 (counts !! queue) + n).
Proof.
  cbv zeta. revert counts. induction l as [|[tid row] l IH]; intros counts.
  { by rewrite decide_True. }
  cbn [foldl]. rewrite IH. clear IH.
  pose proof (sumZ_indicator (λ p : string * taskRow, due_work now queue p.2) l) as Hpos.
  set (n := sumZ _ l) in *.
  replace (sumZ (λ p : string * taskRow, if due_work now queue p.2 then 1 else 0) ((tid, row) :: l))
    with ((if due_work now queue row then 1 else 0) + n) by done.
  destruct (due_work now queue row) eqn:Hdw; unfold due_work in Hdw.
  - apply andb_true_iff in Hdw as [-> Hq]. apply bool_decide_eq_true in Hq as ->.
    rewrite !lookup_insert_eq, (decide_False (P := 1 + n = 0)) by lia. cbn [default from_option id].
    destruct (decide (n = 0)) as [->|]; [done|]. f_equal. lia.
  - rewrite Z.add_0_l. destruct (dispatchable _ && _); [|done]. cbn [andb] in Hdw.
    apply bool_decide_eq_false in Hdw. by rewrite !lookup_insert_ne.
Qed.

Lemma PendingCount_spec now b queue :
  PendingCount now b !! queue =
    if decide (waiting now b queue = 0) then None else Some (waiting now b queue).
Proof.
  unfold PendingCount. rewrite PendingCount_loop, lookup_empty.
  unfold waiting. by rewrite (sumZ_perm _ _ _ (range_map_perm (br_tasks b))).
Qed.

Lemma wakeAll_frame queues u :
  up_broker (wakeAll queues u) = up_broker u ∧
  up_out (wakeAll queues u) = up_out u ++ ((λ q, Wake q 0) <$> queues).
Proof.
  unfold wakeAll. revert u. induction queues as [|q queues IH]; intros u; cbn.
  - by rewrite app_nil_r.
  - destruct (IH (wakeQueue q 0 u)) as [-> ->]. cbn. by rewrite <- app_assoc.
Qed.

Lemma wake_pending (l : list (string * Z)) u :
  let u' := foldl (λ u '(queue, count), if 0 <? count then wakeQueue queue count u else u) u l in
  up_broker u' = up_broker u ∧
  (∀ e, e ∈ up_out u' ↔
     e ∈ up_out u ∨ ∃ queue count, e = Wake queue count ∧ (queue, count) ∈ l ∧ 0 < count).
Proof.
  cbv zeta. revert u. induction l as [|[queue count] l IH]; intros u; cbn [foldl].
  { split; [done|]. intros e. split; [by left|]. intros [?|(? & ? & _ & Hin & _)]; [done|].
    by apply not_elem_of_nil in Hin. }
  destruct (IH (if 0 <? count then wakeQueue queue count u else u)) as [IH1 IH2]. split.
  - rewrite IH1. by destruct (0 <? count).
  - intros e. rewrite IH2. destruct (Z.ltb_spec 0 count).
    + unfold wakeQueue, sends. cbn. rewrite elem_of_app, list_elem_of_singleton.
      setoid_rewrite elem_of_cons. naive_solver.
    + setoid_rewrite elem_of_cons. naive_solver lia.
Qed.

(** A maintenance pass keeps the store well formed and leaves no queue
    with due work asleep: every queue that has tasks a lease could take now is
    woken with their exact number, and every wake the pass sends is one of these
    or a bare hint. *)
Theorem maintain_wakes_pending h u :
  wf (up_broker u) → 0 < hs_now h →
  let u' := maintain h u in
  wf (up_broker u') ∧
  (∀ queue, 0 < waiting (hs_now h) (up_broker u') queue →
     Wake queue (waiting (hs_now h) (up_broker u') queue) ∈ up_out u') ∧
  (∀ queue hint, Wake queue hint ∈ up_out u' →
     Wake queue hint ∈ up_out u ∨ hint = 0 ∨ hint = waiting (hs_now h) (up_broker u') queue).
Proof.
  intros Hwf Hnow. cbv zeta. unfold maintain. cbv zeta. set (limit := set_LeaseBatchMax _).
  pose proof (wf_ReapExpiredLeases limit (hs_now h) _ Hnow Hwf) as H1.
  destruct (ReapExpiredLeases _ _ _) as [b1 reaped]. cbn [fst] in H1.
  destruct (wakeAll_frame reaped (u <| up_broker := b1 |>)) as [W1 O1].
  set (u1 := wakeAll reaped _) in *. cbn [up_broker up_out set] in W1, O1.
  rewrite <- W1 in H1. cbn [up_broker set].
  apply (wf_PurgeTerminal (set_ArchiveRetention (hs_settings h)) limit (hs_now h)) in H1.
  set (b2 := (PurgeTerminal _ _ _ _).1) in *.
  apply (wf_ArchiveExpired limit (hs_now h)) in H1; [|done].
  set (b3 := (ArchiveExpired _ _ _).1) in *.
  apply (wf_PromoteReadyDependents limit (hs_now h)) in H1; [|done].
  destruct (PromoteReadyDependents _ _ _) as [b4 promoted]. cbn [fst] in H1.
  set (u2 := u1 <| up_broker := b2 |> <| up_broker := b3 |> <| up_broker := b4 |>) in *.
  destruct (wakeAll_frame promoted u2) as [W2 O2].
  set (u3 := wakeAll promoted u2) in *. cbn [up_broker set u2] in W2.
  change (up_out u2) with (up_out u1) in O2.
  change (wakeAll promoted ?x) with u3.
  destruct (wake_pending (range_map (PendingCount (hs_now h) (up_broker u3))) u3) as [W3 O3].
  set (u4 := foldl _ u3 _) in *. rewrite W3.
  assert (Hcount : ∀ queue count, (queue, count) ∈ range_map (PendingCount (hs_now h) (up_broker u3)) ↔
    count = waiting (hs_now h) (up_broker u3) queue ∧ count ≠ 0).
  { intros queue count. rewrite elem_of_range_map, PendingCount_spec. case_decide; naive_solver. }
  split; [by rewrite W2|]. split.
  - intros queue Hpos. apply O3. right. exists queue, (waiting (hs_now h) (up_broker u3) queue).
    split; [done|]. split; [|done]. apply Hcount. split; [done|lia].
  - intros queue hint Hin. apply O3 in Hin as [Hin|(q & c & [= -> ->] & Hin & _)].
    + rewrite O2, O1, !elem_of_app, !list_elem_of_fmap in Hin. naive_solver.
    + right; right. by apply Hcount in Hin as [-> _].
Qed.
End Reaping.

(** A pass over a store whose only lease has lapsed: the task returns to its
    queue, which is woken for it. *)
Definition reap_start : Upkeep :=
  mkUpkeep (Lease "mail" 1 100 "L1" 10 (Enqueue
    (mkTaskEnvelope "a" "mail" "send" [] "" ∅ (Some (emptyTaskOptions <| opt_MaxRetry := 3 |>))
       0 "" None None None 0 "") 5 New).1).1 noCounters 0 [].

Lemma maintain_wakes_pending_witness :
  let u' := maintain (cron_host "x" 500) reap_start in
  waiting 500 (up_broker u') "mail" = 1 ∧ Wake "mail" 1 ∈ up_out u'.
Proof.
  assert (Hw : waiting 500 (up_broker (maintain (cron_host "x" 500) reap_start)) "mail" = 1)
    by (vm_compute; reflexivity).
  split; [exact Hw|].
  destruct (maintain_wakes_pending (cron_host "x" 500) reap_start) as (_ & H & _).
  - apply wf_Lease, wf_Enqueue; [lia|apply wf_New].
  - cbn. lia.
  - specialize (H "mail"). change (hs_now (cron_host "x" 500)) with 500 in H.
    rewrite Hw in H. apply H. lia.
Defined.

(** ** The group sweep *)

Definition members (b : Broker) (queue group : string) : list (string * taskRow) :=
  filter (λ p, groupMember queue group p.2 = true) (map_to_list (br_tasks b)).

(** The override of the group, else of its queue, else the server's settings. *)
Definition thresholds (settings : Settings) (b : Broker) (queue group : string)
    : Z * Duration * Duration :=
  match br_groupConfigs b !! (queue, group), br_groupConfigs b !! (queue, "") with
  | Some c, _ | None, Some c => (gc_MaxSize c, gc_MaxDelay c, gc_GracePeriod c)
  | None, None => (set_GroupMaxSize settings, set_GroupMaxDelay settings, set_GroupGracePeriod settings)
  end.

(** A group is due: it is large enough, some member has waited too long, or no
    member is recent. *)
Definition group_due (h : Host) (b : Broker) (queue group : string) : Prop :=
  let '(maxSize, maxDelay, grace) := thresholds (hs_settings h) b queue group in
  members b queue group ≠ [] ∧
  (maxSize <= Z.of_nat (length (members b queue group)) ∨
   (∃ p, p ∈ members b queue group ∧ maxDelay <= time_Sub (hs_now h) (row_enqueuedAt p.2)) ∨
   (∀ p, p ∈ members b queue group → grace <= time_Sub (hs_now h) (row_enqueuedAt p.2))).

(** What a group's statistics say about its members. *)
Record summarises (stat : GroupStat) (queue group : string) (ms : list (string * taskRow)) : Prop := {
  sum_queue : gs_Queue stat = queue;
  sum_group : gs_Group stat = group;
  sum_count : gs_Count stat = Z.of_nat (length ms);
  sum_oldest : (∃ p, p ∈ ms ∧ row_enqueuedAt p.2 = gs_Oldest stat) ∧
    ∀ p, p ∈ ms → gs_Oldest stat <= row_enqueuedAt p.2;
  sum_newest : (∃ p, p ∈ ms ∧ row_enqueuedAt p.2 = gs_Newest stat) ∧
    ∀ p, p ∈ ms → row_enqueuedAt p.2 <= gs_Newest stat;
  sum_type : ∃ p, p ∈ ms ∧ env_Type (row_envelope p.2) = gs_Type stat }.

Section Sweeping.
Context {MR : MapRange}.
Implicit Types (h : Host) (u : Upkeep).

Lemma groupMember_spec queue group row :
  groupMember queue group row = true ↔
  row_state row = TASK_STATE_AGGREGATING ∧
  (env_Queue (row_envelope row), row_group row) = (queue, group).
Proof.
  unfold groupMember. rewrite !andb_true_iff, !bool_decide_eq_true. naive_solver.
Qed.

(** One more member. *)
Definition grow (row : taskRow) (stat : GroupStat) : GroupStat :=
  let stat := stat <| gs_Count := gs_Count stat + 1 |> in
  let stat := if Before (row_enqueuedAt row) (gs_Oldest stat)
              then stat <| gs_Oldest := row_enqueuedAt row |> else stat in
  if After (row_enqueuedAt row) (gs_Newest stat)
  then stat <| gs_Newest := row_enqueuedAt row |> else stat.

Lemma grow_fields row stat :
  gs_Queue (grow row stat) = gs_Queue stat ∧ gs_Group (grow row stat) = gs_Group stat ∧
  gs_Type (grow row stat) = gs_Type stat ∧ gs_Count (grow row stat) = gs_Count stat + 1 ∧
  gs_Oldest (grow row stat) = Z.min (row_enqueuedAt row) (gs_Oldest stat) ∧
  gs_Newest (grow row stat) = Z.max (row_enqueuedAt row) (gs_Newest stat).
Proof.
  unfold grow, Before, After. cbn.
  destruct (Z.ltb_spec (row_enqueuedAt row) (gs_Oldest stat)); cbn;
    destruct (Z.ltb_spec (gs_Newest stat) (row_enqueuedAt row)); cbn; repeat split; lia.
Qed.

Lemma summarises_first queue group tid row :
  summarises (grow row (mkGroupStat queue group (env_Type (row_envelope row)) 0
                (row_enqueuedAt row) (row_enqueuedAt row))) queue group [(tid, row)].
Proof.
  destruct (grow_fields row (mkGroupStat queue group (env_Type (row_envelope row)) 0
    (row_enqueuedAt row) (row_enqueuedAt row))) as (H1 & H2 & H3 & H4 & H5 & H6).
  cbn [gs_Queue gs_Group gs_Type gs_Count gs_Oldest gs_Newest] in *.
  assert (Hin : (tid, row) ∈ [(tid, row)]) by left.
  split; [done|done|by rewrite H4| | |].
  - rewrite H5, Z.min_id. split; [by exists (tid, row)|]. by intros p ->%list_elem_of_singleton.
  - rewrite H6, Z.max_id. split; [by exists (tid, row)|]. by intros p ->%list_elem_of_singleton.
  - rewrite H3. by exists (tid, row).
Qed.

Lemma summarises_more stat queue group ms tid row :
  summarises stat queue group ms → summarises (grow row stat) queue group (ms ++ [(tid, row)]).
Proof.
  destruct (grow_fields row stat) as (H1 & H2 & H3 & H4 & H5 & H6).
  intros [Q G C [(po & Hpo & Ho) Hmin] [(pn & Hpn & Hn) Hmax] (pt & Hpt & Ht)].
  assert (Hin : (tid, row) ∈ ms ++ [(tid, row)]) by (apply elem_of_app; right; left).
  assert (Hl : ∀ p, p ∈ ms → p ∈ ms ++ [(tid, row)]) by (intros; apply elem_of_app; by left).
  split; [congruence|congruence| | | |].
  - rewrite H4, C, length_app. cbn. lia.
  - rewrite H5. split.
    + destruct (Z.min_spec (row_enqueuedAt row) (gs_Oldest stat)) as [[_ ->]|[_ ->]]; eauto.
    + intros p [Hp|Hp]%elem_of_app; [specialize (Hmin p Hp)|
        apply list_elem_of_singleton in Hp as ->; cbn]; lia.
  - rewrite H6. split.
    + destruct (Z.max_spec (row_enqueuedAt row) (gs_Newest stat)) as [[_ ->]|[_ ->]]; eauto.
    + intros p [Hp|Hp]%elem_of_app; [specialize (Hmax p Hp)|
        apply list_elem_of_singleton in Hp as ->; cbn]; lia.
  - rewrite H3. eauto.
Qed.

(** The statistics of a loop over a list of rows. *)
Definition stats_of (l : list (string * taskRow)) : gmap (string * string) GroupStat :=
  foldl (λ stats '(_, row), addGroupStat row stats) ∅ l.

Lemma stats_of_spec l queue group :
  let ms := filter (λ p, groupMember queue group p.2 = true) l in
  match stats_of l !! (queue, group) with
  | Some stat => ms ≠ [] ∧ summarises stat queue group ms
  | None => ms = []
  end.
Proof.
  cbv zeta. induction l as [|[tid row] l IH] using rev_ind; [done|].
  unfold stats_of in *. rewrite foldl_snoc, filter_app. cbn [filter list_filter snd].
  set (stats := foldl _ ∅ l) in *. set (ms := filter _ l) in *.
  destruct (decide (groupMember queue group row = true)) as [Hm|Hm].
  - apply groupMember_spec in Hm as [Hst Hkey]. unfold addGroupStat. rewrite decide_True by done.
    rewrite Hkey, lookup_insert_eq. split; [by destruct ms|]. cbn [fst snd].
    destruct (stats !! (queue, group)) as [stat|].
    + destruct IH as [_ IH]. exact (summarises_more stat queue group ms tid row IH).
    + rewrite IH. exact (summarises_first queue group tid row).
  - rewrite app_nil_r. unfold addGroupStat. case_decide as Hst; [|done].
    rewrite lookup_insert_ne; [done|]. intros Hkey. apply Hm, groupMember_spec. done.
Qed.

Lemma summarises_perm stat queue group ms ms' :
  ms ≡ₚ ms' → summarises stat queue group ms → summarises stat queue group ms'.
Proof.
  intros Hp [Q G C O N T]. split; [done|done|by rewrite <- Hp|..];
    setoid_rewrite <- Hp; done.
Qed.

(** The list holds one summary per group that has members. *)
Lemma elem_of_GroupStats b stat :
  stat ∈ GroupStats b ↔ stats_of (range_map (br_tasks b)) !! (gs_Queue stat, gs_Group stat) = Some stat.
Proof.
  unfold GroupStats. fold (stats_of (range_map (br_tasks b))).
  rewrite SortFunc_perm, list_elem_of_fmap. split.
  - intros ([[q g] stat'] & -> & Hin). apply elem_of_range_map in Hin. cbn [snd].
    pose proof (stats_of_spec (range_map (br_tasks b)) q g) as H. rewrite Hin in H.
    destruct H as [_ [Q G _ _ _ _]]. by rewrite Q, G.
  - intros H. exists ((gs_Queue stat, gs_Group stat), stat). by rewrite elem_of_range_map.
Qed.

Lemma GroupStats_members b stat :
  stat ∈ GroupStats b → summarises stat (gs_Queue stat) (gs_Group stat)
                          (members b (gs_Queue stat) (gs_Group stat)).
Proof.
  rewrite elem_of_GroupStats. intros H.
  pose proof (stats_of_spec (range_map (br_tasks b)) (gs_Queue stat) (gs_Group stat)) as Hs.
  rewrite H in Hs. destruct Hs as [_ Hs]. eapply summarises_perm; [|exact Hs].
  unfold members. by rewrite range_map_perm.
Qed.

Lemma GroupStats_complete b queue group :
  members b queue group ≠ [] →
  ∃ stat, stat ∈ GroupStats b ∧ gs_Queue stat = queue ∧ gs_Group stat = group.
Proof.
  intros Hm. pose proof (stats_of_spec (range_map (br_tasks b)) queue group) as Hs.
  destruct (stats_of (range_map (br_tasks b)) !! (queue, group)) as [stat|] eqn:E.
  - destruct Hs as [_ [Q G _ _ _ _]]. exists stat. rewrite elem_of_GroupStats. by rewrite Q, G.
  - destruct Hm. unfold members. apply Permutation_nil_r. by rewrite <- Hs, range_map_perm.
Qed.

(** Overrides are stored under their own keys. *)
Definition config_keyed (b : Broker) : Prop :=
  ∀ k c, br_groupConfigs b !! k = Some c → (gc_Queue c, gc_Group c) = k.

Lemma index_lookup b k :
  config_keyed b → indexGroupConfigs (GroupConfigs b) !! k = br_groupConfigs b !! k.
Proof.
  intros Hk. unfold indexGroupConfigs.
  set (key := λ c : GroupConfig, (gc_Queue c, gc_Group c)).
  assert (Hp : key <$> GroupConfigs b ≡ₚ (range_map (br_groupConfigs b)).*1).
  { unfold GroupConfigs. rewrite SortFunc_perm, <- list_fmap_compose.
    apply Permutation_refl', fmap_ext_in. intros [k' c] Hin. apply elem_of_range_map in Hin.
    by apply Hk. }
  assert (Hn : NoDup (key <$> GroupConfigs b)) by (rewrite Hp; apply NoDup_fst_range_map).
  assert (Hin : ∀ c, c ∈ GroupConfigs b ↔ ∃ k, br_groupConfigs b !! k = Some c).
  { intros c. unfold GroupConfigs. rewrite SortFunc_perm, list_elem_of_fmap. split.
    - intros ([k' c'] & -> & H). exists k'. by apply elem_of_range_map.
    - intros [k' H]. exists (k', c). by rewrite elem_of_range_map. }
  destruct (br_groupConfigs b !! k) as [c|] eqn:E.
  - rewrite <- (Hk _ _ E). apply (foldl_insert_in key (λ c, c)); [exact Hn|]. apply Hin. eauto.
  - apply not_elem_of_dom. rewrite (foldl_insert_dom key (λ c, c)), dom_empty_L.
    rewrite (right_id_L ∅ (∪)), elem_of_list_to_set, list_elem_of_fmap.
    intros (c & -> & Hc). apply Hin in Hc as [k' Hc]. rewrite <- (Hk _ _ Hc) in Hc.
    unfold key in E. congruence.
Qed.

Lemma effective_thresholds stat settings b :
  config_keyed b →
  effectiveGroupConfig stat (indexGroupConfigs (GroupConfigs b)) settings =
    thresholds settings b (gs_Queue stat) (gs_Group stat).
Proof.
  intros Hk. unfold effectiveGroupConfig, thresholds. rewrite !index_lookup by done.
  by repeat case_match.
Qed.

Lemma time_Sub_mono now t1 t2 : t1 <= t2 → time_Sub now t2 <= time_Sub now t1.
Proof. unfold time_Sub, clamp64. lia. Qed.

Lemma groupDue_spec stat queue group ms maxSize maxDelay grace now :
  summarises stat queue group ms →
  groupDue stat maxSize maxDelay grace now = true ↔
  maxSize <= Z.of_nat (length ms) ∨
  (∃ p, p ∈ ms ∧ maxDelay <= time_Sub now (row_enqueuedAt p.2)) ∨
  (∀ p, p ∈ ms → grace <= time_Sub now (row_enqueuedAt p.2)).
Proof.
  intros [_ _ C [(po & Hpo & Ho) Hmin] [(pn & Hpn & Hn) Hmax] _]. unfold groupDue. rewrite C.
  assert (H1 : (∃ p, p ∈ ms ∧ maxDelay <= time_Sub now (row_enqueuedAt p.2)) ↔
    maxDelay <= time_Sub now (gs_Oldest stat)).
  { split; [|intros; exists po; by rewrite Ho]. intros (p & Hp & Hd).
    pose proof (time_Sub_mono now _ _ (Hmin p Hp)). lia. }
  assert (H2 : (∀ p, p ∈ ms → grace <= time_Sub now (row_enqueuedAt p.2)) ↔
    grace <= time_Sub now (gs_Newest stat)).
  { split; [intros H; rewrite <- Hn; by apply H|]. intros Hd p Hp.
    pose proof (time_Sub_mono now _ _ (Hmax p Hp)). lia. }
  rewrite H1, H2.
  destruct (Z.leb_spec maxSize (Z.of_nat (length ms))); [naive_solver|].
  destruct (Z.leb_spec maxDelay (time_Sub now (gs_Oldest stat))); [naive_solver|].
  destruct (Z.leb_spec grace (time_Sub now (gs_Newest stat))); [naive_solver|]. naive_solver lia.
Qed.

(** The loop over the statistics. *)
Lemma sweepGroups_spec h index l u :
  ∃ fired, up_out (foldl (sweepGroup h index) u l) = up_out u ++ fired ∧
    up_broker (foldl (sweepGroup h index) u l) = up_broker u ∧
    ∀ e, e ∈ fired ↔ ∃ stat, stat ∈ l ∧
      let '(maxSize, maxDelay, grace) := effectiveGroupConfig stat index (hs_settings h) in
      groupDue stat maxSize maxDelay grace (hs_now h) = true ∧
      e = Fire (gs_Queue stat) (gs_Group stat) (gs_Type stat) (wrap32 maxSize).
Proof.
  revert u. induction l as [|stat l IH]; intros u; cbn [foldl].
  { exists []. rewrite app_nil_r. split; [done|]. split; [done|]. intros e. split.
    - intros H. by apply not_elem_of_nil in H.
    - intros (stat & H & _). by apply not_elem_of_nil in H. }
  destruct (IH (sweepGroup h index u stat)) as (fired & Ho & Hb & Hf).
  destruct (effectiveGroupConfig stat index (hs_settings h)) as [[maxSize maxDelay] grace] eqn:E.
  unfold sweepGroup in Ho, Hb |- *. rewrite E in *.
  destruct (groupDue stat maxSize maxDelay grace (hs_now h)) eqn:Hd.
  - set (e0 := Fire (gs_Queue stat) (gs_Group stat) (gs_Type stat) (wrap32 maxSize)) in *.
    exists (e0 :: fired). rewrite Ho. unfold sends at 1. cbn. rewrite <- app_assoc.
    split; [done|]. split; [by rewrite Hb|]. intros e. rewrite elem_of_cons, Hf. split.
    + intros [->|(stat' & Hin & H)].
      * exists stat. rewrite E. split; [left|done].
      * exists stat'. split; [by right|done].
    + intros (stat' & [->|Hin]%elem_of_cons & H); [left; rewrite E in H; by destruct H|right; eauto].
  - exists fired. split; [done|]. split; [done|]. intros e. rewrite Hf. split.
    + intros (stat' & Hin & H). exists stat'. split; [by right|done].
    + intros (stat' & [->|Hin]%elem_of_cons & H); [|eauto]. rewrite E in H. destruct H. congruence.
Qed.

(** The group sweep fires exactly the groups that are due: a group has a
    fire sent for it when and only when it has members and has met one of its
    effective thresholds (its own override, else its queue's, else the server's),
    judged on its real members; the fire carries that maximum size and the type
    of one of the members; the store is unchanged. *)
Theorem sweep_fires_due_groups h u :
  config_keyed (up_broker u) →
  let b := up_broker u in
  up_broker (sweep h u) = b ∧
  ∃ fired, up_out (sweep h u) = up_out u ++ fired ∧
    (∀ queue group, group_due h b queue group ↔
       ∃ taskType limit, Fire queue group taskType limit ∈ fired) ∧
    (∀ e, e ∈ fired → ∃ queue group p,
       p ∈ members b queue group ∧
       e = Fire queue group (env_Type (row_envelope p.2))
             (wrap32 (thresholds (hs_settings h) b queue group).1.1)).
Proof.
  intros Hk. cbv zeta.
  assert (Hsw : sweep h u =
    foldl (sweepGroup h (indexGroupConfigs (GroupConfigs (up_broker u)))) u (GroupStats (up_broker u))).
  { unfold sweep. case_decide as Hg; [by rewrite Hg|done]. }
  rewrite Hsw. clear Hsw.
  destruct (sweepGroups_spec h (indexGroupConfigs (GroupConfigs (up_broker u)))
    (GroupStats (up_broker u)) u) as (fired & Ho & Hb & Hf).
  split; [done|]. exists fired. split; [done|]. split.
  - intros queue group. unfold group_due.
    destruct (thresholds (hs_settings h) (up_broker u) queue group) as [[maxSize maxDelay] grace] eqn:Et.
    split.
    + intros [Hne Hdue]. destruct (GroupStats_complete _ _ _ Hne) as (stat & Hin & <- & <-).
      exists (gs_Type stat), (wrap32 maxSize). apply Hf. exists stat. split; [done|].
      rewrite effective_thresholds, Et by done. split; [|done].
      by eapply groupDue_spec; [by apply GroupStats_members|].
    + intros (ty & limit & Hin). apply Hf in Hin as (stat & Hin & Hdue).
      rewrite effective_thresholds in Hdue by done. apply GroupStats_members in Hin as Hsum.
      destruct (thresholds _ _ (gs_Queue stat) _) as [[ms md] gp] eqn:Et'.
      destruct Hdue as [Hdue [= -> -> -> ->]]. rewrite Et in Et'. injection Et' as -> -> ->.
      split; [|by eapply groupDue_spec in Hdue].
      destruct (sum_type _ _ _ _ Hsum) as (p & Hp & _). intros E. rewrite E in Hp.
      by apply not_elem_of_nil in Hp.
  - intros e He. apply Hf in He as (stat & Hin & Hdue).
    rewrite effective_thresholds in Hdue by done. apply GroupStats_members in Hin as Hsum.
    destruct (sum_type _ _ _ _ Hsum) as (p & Hp & Ht).
    exists (gs_Queue stat), (gs_Group stat), p. split; [done|]. rewrite Ht.
    destruct (thresholds _ _ (gs_Queue stat) _) as [[ms md] gp]. by destruct Hdue as [_ ->].
Qed.
End Sweeping.

(** Two members of a group limited to two, one of another group. *)
Definition grouped (id group : string) : TaskEnvelope :=
  mkTaskEnvelope id "mail" "send" [] "" ∅ (Some (emptyTaskOptions <| opt_Group := group |>))
    0 "" None None None 0 "".

Definition sweep_start : Upkeep :=
  mkUpkeep (foldl (λ b task, (Enqueue task 10 b).1) (SetGroupConfig "mail" "daily" 2 1000 1000 1 New)
    [grouped "a" "daily"; grouped "b" "daily"; grouped "c" "weekly"]) noCounters 0 [].

Lemma sweep_fires_due_groups_witness :
  ∃ fired, up_out (sweep (cron_host "x" 11) sweep_start) = fired ∧
    (∃ taskType limit, Fire "mail" "daily" taskType limit ∈ fired) ∧
    ¬ (∃ taskType limit, Fire "mail" "weekly" taskType limit ∈ fired).
Proof.
  assert (Hall : map_Forall (λ k c, (gc_Queue c, gc_Group c) = k) (br_groupConfigs (up_broker sweep_start)))
    by (apply (bool_decide_unpack _); vm_compute; reflexivity).
  destruct (sweep_fires_due_groups (cron_host "x" 11) sweep_start Hall)
    as (_ & fired & Ho & Hiff & _).
  exists fired. split; [exact Ho|].
  assert (Hout : up_out (sweep (cron_host "x" 11) sweep_start) = [Fire "mail" "daily" "send" 2])
    by (vm_compute; reflexivity).
  rewrite Hout in Ho. change (up_out sweep_start) with (@nil upkeepEffect) in Ho. cbn in Ho.
  subst fired. split.
  - eexists _, _. left.
  - intros (ty & limit & H%list_elem_of_singleton). discriminate.
Defined.
