(* ===== verification/Encoding.v ===== *)
(** * Byte strings, base64, hex and HMAC-SHA-256

    What the webhook code uses of Go's standard library: byte slices of
    strings, [strings.Split] and [strings.Join], [base64.RawURLEncoding],
    [encoding/hex] and [crypto/hmac] over [crypto/sha256]; with the facts about
    them that the lease tokens rely on. *)

From S2P Require Import Prelude.
From Stdlib Require Import Ascii Strings.Byte.

#[local] Open Scope Z_scope.

(** ** Bytes *)

#[global] Instance byte_eq_dec : EqDecision byte := Byte.byte_eq_dec.

Definition byteZ (b : byte) : Z := Z.of_N (Byte.to_N b).
Definition Zbyte (z : Z) : byte := default x00 (Byte.of_N (Z.to_N (z mod 256))).

(** The conversions [[]byte(s)] and [string(b)]. *)
Definition bytesOf (s : string) : list byte := String.list_byte_of_string s.
Definition stringOf (bs : list byte) : string := String.string_of_list_byte bs.

(** ** Splitting and joining *)

Fixpoint splitOn (sep : ascii) (s : string) : string * list string :=
  match s with
  | EmptyString => ("", [])
  | String c s =>
      let '(first, rest) := splitOn sep s in
      if Ascii.eqb c sep then ("", first :: rest) else (String c first, rest)
  end.

(** [strings.Split] with a one-byte separator. *)
Definition strings_Split (s : string) (sep : ascii) : list string :=
  let '(first, rest) := splitOn sep s in first :: rest.

Fixpoint strings_Join (elems : list string) (sep : string) : string :=
  match elems with
  | [] => ""
  | [e] => e
  | e :: rest => e +:+ sep +:+ strings_Join rest sep
  end.

(** ** Base64: [base64.RawURLEncoding] *)

(** The URL-safe alphabet. *)
Definition encodeSextet (v : Z) : ascii :=
  if v <? 26 then ascii_of_N (Z.to_N (65 + v))
  else if v <? 52 then ascii_of_N (Z.to_N (97 + (v - 26)))
  else if v <? 62 then ascii_of_N (Z.to_N (48 + (v - 52)))
  else if v =? 62 then "-" else "_".

Definition decodeSextet (c : ascii) : option Z :=
  let n := Z.of_N (N_of_ascii c) in
  if (65 <=? n) && (n <=? 90) then Some (n - 65)
  else if (97 <=? n) && (n <=? 122) then Some (n - 97 + 26)
  else if (48 <=? n) && (n <=? 57) then Some (n - 48 + 52)
  else if Ascii.eqb c "-" then Some 62
  else if Ascii.eqb c "_" then Some 63
  else None.

(** The sextets of a byte string: four for three bytes, and two or three for
    what is left, without padding. *)
Fixpoint sextets (bs : list byte) : list Z :=
  match bs with
  | a :: b :: c :: rest =>
      let v := byteZ a * 65536 + byteZ b * 256 + byteZ c in
      v / 262144 :: v / 4096 mod 64 :: v / 64 mod 64 :: v mod 64 :: sextets rest
  | [a; b] =>
      let v := byteZ a * 65536 + byteZ b * 256 in
      [v / 262144; v / 4096 mod 64; v / 64 mod 64]
  | [a] => let v := byteZ a * 65536 in [v / 262144; v / 4096 mod 64]
  | [] => []
  end.

Definition EncodeToString (bs : list byte) : string :=
  String.string_of_list_ascii (encodeSextet <$> sextets bs).

(** The bytes of a run of sextets; the bits past the last whole byte are
    ignored, and a single left-over sextet is an error. *)
Fixpoint unsextets (vs : list Z) : option (list byte) :=
  match vs with
  | a :: b :: c :: d :: rest =>
      let v := a * 262144 + b * 4096 + c * 64 + d in
      bs ← unsextets rest;
      Some (Zbyte (v / 65536) :: Zbyte (v / 256 mod 256) :: Zbyte (v mod 256) :: bs)
  | [a; b; c] =>
      let v := a * 262144 + b * 4096 + c * 64 in
      Some [Zbyte (v / 65536); Zbyte (v / 256 mod 256)]
  | [a; b] => let v := a * 262144 + b * 4096 in Some [Zbyte (v / 65536)]
  | [a] => None
  | [] => Some []
  end.

(** Carriage returns and line feeds are skipped. *)
Definition skipped (c : ascii) : bool := Ascii.eqb c "010" || Ascii.eqb c "013".

Definition DecodeString (s : string) : option (list byte) :=
  vs ← mapM decodeSextet (filter (λ c, skipped c = false) (String.list_ascii_of_string s));
  unsextets vs.

(** ** Hexadecimal *)

Definition hexDigit (v : Z) : ascii :=
  if v <? 10 then ascii_of_N (Z.to_N (48 + v)) else ascii_of_N (Z.to_N (97 + (v - 10))).

Definition hex_EncodeToString (bs : list byte) : string :=
  String.string_of_list_ascii (b ← bs; [hexDigit (byteZ b / 16); hexDigit (byteZ b mod 16)]).

(** ** SHA-256 *)

Module Sha256.

Definition word (z : Z) : Z := z mod 4294967296.
Definition rotr (n x : Z) : Z := Z.lor (Z.shiftr x n) (word (Z.shiftl x (32 - n))).

(** The fractional parts of the cube roots of the first 64 primes. *)
Definition roundConstants : list Z :=
 [1116352408; 1899447441; 3049323471; 3921009573; 961987163; 1508970993; 2453635748;
    2870763221; 3624381080; 310598401; 607225278; 1426881987; 1925078388; 2162078206;
    2614888103; 3248222580; 3835390401; 4022224774; 264347078; 604807628; 770255983;
    1249150122; 1555081692; 1996064986; 2554220882; 2821834349; 2952996808; 3210313671;
    3336571891; 3584528711; 113926993; 338241895; 666307205; 773529912; 1294757372;
    1396182291; 1695183700; 1986661051; 2177026350; 2456956037; 2730485921; 2820302411;
    3259730800; 3345764771; 3516065817; 3600352804; 4094571909; 275423344; 430227734;
    506948616; 659060556; 883997877; 958139571; 1322822218; 1537002063; 1747873779;
    1955562222; 2024104815; 2227730452; 2361852424; 2428436474; 2756734187; 3204031479;
    3329325298].

(** The fractional parts of the square roots of the first 8 primes. *)
Definition initial : list Z :=
 [1779033703; 3144134277; 1013904242; 2773480762; 1359893119; 2600822924; 528734635;
    1541459225].

(** The big-endian bytes of a number, [n] of them. *)
Fixpoint beBytes (n : nat) (z : Z) : list byte :=
  match n with
  | O => []
  | S n => Zbyte (Z.shiftr z (8 * Z.of_nat n)) :: beBytes n z
  end.

Fixpoint beWords (bs : list byte) : list Z :=
  match bs with
  | a :: b :: c :: d :: rest =>
      (byteZ a * 16777216 + byteZ b * 65536 + byteZ c * 256 + byteZ d) :: beWords rest
  | _ => []
  end.

(** The message, a one bit, zeros, and the length in bits on eight bytes. *)
Definition padded (msg : list byte) : list byte :=
  let len := length msg in
  msg ++ [x80] ++ replicate ((119 - len mod 64) mod 64)%nat x00 ++ beBytes 8 (8 * Z.of_nat len).

(** The message schedule, most recent word first. *)
Fixpoint expand (n : nat) (ws : list Z) : list Z :=
  match n with
  | O => ws
  | S n =>
      let at_ i := default 0 (ws !! i) in
      let x := at_ 14%nat in
      let s0 := Z.lxor (Z.lxor (rotr 7 x) (rotr 18 x)) (Z.shiftr x 3) in
      let y := at_ 1%nat in
      let s1 := Z.lxor (Z.lxor (rotr 17 y) (rotr 19 y)) (Z.shiftr y 10) in
      expand n (word (at_ 15%nat + s0 + at_ 6%nat + s1) :: ws)
  end.

Definition oneRound (st : list Z) (kw : Z * Z) : list Z :=
  match st with
  | [a; b; c; d; e; f; g; h] =>
      let s1 := Z.lxor (Z.lxor (rotr 6 e) (rotr 11 e)) (rotr 25 e) in
      let choice := Z.lxor (Z.land e f) (Z.land (4294967295 - e) g) in
      let t1 := h + s1 + choice + kw.1 + kw.2 in
      let s0 := Z.lxor (Z.lxor (rotr 2 a) (rotr 13 a)) (rotr 22 a) in
      let majority := Z.lxor (Z.lxor (Z.land a b) (Z.land a c)) (Z.land b c) in
      [word (t1 + s0 + majority); a; b; c; word (d + t1); e; f; g]
  | _ => st
  end.

Definition compress (st : list Z) (block : list Z) : list Z :=
  let schedule := reverse (expand 48 (reverse block)) in
  zip_with (λ x y, word (x + y)) st (foldl oneRound st (zip roundConstants schedule)).

Fixpoint blocks (n : nat) (ws : list Z) : list (list Z) :=
  match n with
  | O => []
  | S n => take 16 ws :: blocks n (drop 16 ws)
  end.

Definition Sum256 (msg : list byte) : list byte :=
  let ws := beWords (padded msg) in
  foldl compress initial (blocks (length ws / 16)%nat ws) ≫= beBytes 4.

End Sha256.

(** ** HMAC *)

Definition xorByte (k : Z) (b : byte) : byte := Zbyte (Z.lxor (byteZ b) k).

(** [hmac.New(sha256.New, key)], one [Write] of the message, and [Sum(nil)]. *)
Definition HMAC (key msg : list byte) : list byte :=
  let key := if decide (64 < length key)%nat then Sha256.Sum256 key else key in
  let key := key ++ replicate (64 - length key) x00 in
  Sha256.Sum256 ((xorByte 92 <$> key) ++ Sha256.Sum256 ((xorByte 54 <$> key) ++ msg)).

(** The published test vectors. *)
Example Sum256_abc :
  hex_EncodeToString (Sha256.Sum256 (bytesOf "abc")) =
    "ba7816bf8f01cfea414140de5dae2223b00361a396177a9cb410ff61f20015ad".
Proof. vm_compute; reflexivity. Qed.

Example HMAC_rfc4231_2 :
  hex_EncodeToString (HMAC (bytesOf "Jefe") (bytesOf "what do ya want for nothing?")) =
    "5bdcc146bf60754e6a042426089575c75a003f089d2739839dec58b964ec3843".
Proof. vm_compute; reflexivity. Qed.

(** ** Facts *)

Lemma byteZ_bounds b : 0 <= byteZ b < 256.
Proof. unfold byteZ. pose proof (Byte.to_N_bounded b). lia. Qed.

Lemma Zbyte_byteZ b z : z mod 256 = byteZ b → Zbyte z = b.
Proof.
  unfold Zbyte, byteZ. intros ->. rewrite N2Z.id. by rewrite Byte.of_to_N.
Qed.

Lemma stringOf_bytesOf s : stringOf (bytesOf s) = s.
Proof. apply String.string_of_list_byte_of_string. Qed.

Lemma bytesOf_stringOf bs : bytesOf (stringOf bs) = bs.
Proof. apply String.list_byte_of_string_of_list_byte. Qed.

(** A boolean fact about the integers below [n], by evaluation. *)
Lemma below_cases (n : nat) (P : Z → bool) v :
  forallb P (Z.of_nat <$> seq 0 n) = true → 0 <= v < Z.of_nat n → P v = true.
Proof.
  intros H Hv. rewrite forallb_forall in H. apply H. apply list_elem_of_In.
  apply list_elem_of_fmap. exists (Z.to_nat v). rewrite elem_of_seq. lia.
Qed.

Lemma decode_encodeSextet v : 0 <= v < 64 → decodeSextet (encodeSextet v) = Some v.
Proof.
  intros Hv. apply (below_cases 64 (λ v,
    match decodeSextet (encodeSextet v) with Some u => u =? v | None => false end)) in Hv;
    [|vm_compute; reflexivity].
  destruct (decodeSextet (encodeSextet v)) as [u|]; [|done]. apply Z.eqb_eq in Hv. by subst u.
Qed.

(** A character the decoder does not skip and that does not separate the
    segments of a token. *)
Definition plain (c : ascii) : bool := negb (skipped c) && negb (Ascii.eqb c ".").

Lemma encodeSextet_plain v : 0 <= v < 64 → plain (encodeSextet v) = true.
Proof.
  intros Hv. apply (below_cases 64 (λ v, plain (encodeSextet v))); [vm_compute; reflexivity|done].
Qed.

Lemma hexDigit_plain v : 0 <= v < 16 → plain (hexDigit v) = true.
Proof.
  intros Hv. apply (below_cases 16 (λ v, plain (hexDigit v))); [vm_compute; reflexivity|done].
Qed.

(** Induction by groups of three bytes. *)
Lemma triples_ind (P : list byte → Prop) :
  P [] → (∀ a, P [a]) → (∀ a b, P [a; b]) → (∀ a b c l, P l → P (a :: b :: c :: l)) → ∀ l, P l.
Proof.
  intros H0 H1 H2 H3. fix IH 1. intros [|a [|b [|c l]]]; [done|apply H1|apply H2|].
  apply H3, IH.
Qed.

Lemma sextets_bounds bs : Forall (λ v, 0 <= v < 64) (sextets bs).
Proof.
  induction bs as [|a|a b|a b c bs IH] using triples_ind; cbn [sextets]; repeat constructor;
    try done;
    pose proof (byteZ_bounds a); try pose proof (byteZ_bounds b); try pose proof (byteZ_bounds c);
    Z.div_mod_to_equations; lia.
Qed.

Lemma unsextets_sextets bs : unsextets (sextets bs) = Some bs.
Proof.
  induction bs as [|a|a b|a b c bs IH] using triples_ind; cbn [sextets unsextets]; [done|..];
    pose proof (byteZ_bounds a); try pose proof (byteZ_bounds b); try pose proof (byteZ_bounds c).
  3: rewrite IH; cbn [mbind option_bind].
  all: repeat f_equal; apply Zbyte_byteZ; Z.div_mod_to_equations; lia.
Qed.

Definition plain_string (s : string) : Prop :=
  Forall (λ c, plain c = true) (String.list_ascii_of_string s).

Lemma EncodeToString_plain bs : plain_string (EncodeToString bs).
Proof.
  unfold plain_string, EncodeToString. rewrite String.list_ascii_of_string_of_list_ascii.
  apply Forall_fmap. eapply Forall_impl; [apply sextets_bounds|].
  intros v Hv. by apply encodeSextet_plain.
Qed.

Lemma hex_plain bs : plain_string (hex_EncodeToString bs).
Proof.
  unfold plain_string, hex_EncodeToString. rewrite String.list_ascii_of_string_of_list_ascii.
  apply Forall_bind, Forall_true. intros b. pose proof (byteZ_bounds b).
  repeat constructor; apply hexDigit_plain; Z.div_mod_to_equations; lia.
Qed.

Lemma filter_all {A} (P : A → Prop) `{∀ x, Decision (P x)} l : Forall P l → filter P l = l.
Proof. induction 1 as [|x l Hx _ IH]; [done|]. by rewrite filter_cons_True, IH. Qed.

(** Decoding gives back what was encoded. *)
Lemma DecodeString_EncodeToString bs : DecodeString (EncodeToString bs) = Some bs.
Proof.
  pose proof (EncodeToString_plain bs) as Hp. unfold plain_string in Hp. unfold DecodeString.
  rewrite (filter_all _ (String.list_ascii_of_string _)).
  2:{ eapply Forall_impl; [exact Hp|]. intros c. unfold plain. by destruct (skipped c). }
  unfold EncodeToString. rewrite String.list_ascii_of_string_of_list_ascii.
  assert (mapM decodeSextet (encodeSextet <$> sextets bs) = Some (sextets bs)) as ->.
  { apply mapM_Some. apply Forall2_fmap_l. apply Forall_Forall2_diag.
    eapply Forall_impl; [apply sextets_bounds|]. intros v Hv. by apply decode_encodeSextet. }
  apply unsextets_sextets.
Qed.

Lemma string_app_empty_r s : s +:+ "" = s.
Proof. induction s as [|c s IH]; [done|]. change (String c (s +:+ "") = String c s). by rewrite IH. Qed.

Lemma splitOn_plain s t :
  plain_string s →
  splitOn "." (s +:+ t) = let '(first, rest) := splitOn "." t in (s +:+ first, rest).
Proof.
  unfold plain_string. induction s as [|c s IH]; intros Hp.
  { change ("" +:+ t) with t. by destruct (splitOn "." t). }
  change (String c s +:+ t) with (String c (s +:+ t)). cbn [splitOn].
  apply Forall_cons in Hp as [Hc Hs]. rewrite IH by done.
  destruct (splitOn "." t). unfold plain in Hc. destruct (Ascii.eqb c "."); [|done].
  by rewrite andb_false_r in Hc.
Qed.

(** Splitting gives back the plain segments that were joined. *)
Lemma Split_Join segments :
  segments ≠ [] → Forall plain_string segments →
  strings_Split (strings_Join segments ".") "." = segments.
Proof.
  unfold strings_Split. intros Hn Hf. induction Hf as [|s segments Hs Hf IH]; [done|].
  destruct segments as [|s' segments]; cbn [strings_Join].
  { rewrite <- (string_app_empty_r s) at 1. rewrite splitOn_plain by done.
    cbn [splitOn]. by rewrite string_app_empty_r. }
  specialize (IH ltac:(done)). rewrite splitOn_plain by done.
  set (j := match segments with [] => s' | _ => _ end) in *.
  change ("." +:+ j) with (String "." j). cbn [splitOn].
  change (strings_Join (s' :: segments) ".") with j in IH.
  destruct (splitOn "." j) as [first rest]. cbn. injection IH as -> ->.
  by rewrite string_app_empty_r.
Qed.
