(* ===== verification/Webhook.v ===== *)
(** * The webhook delivery protocol (internal/webhook)

    The JSON-RPC envelopes exchanged with a webhook endpoint and their
    classification (jsonrpc.go), what the client makes of an endpoint's answer
    (client.go), the lease tokens that authenticate asynchronous callbacks
    (token.go) and the delivery signature (signer.go). The JSON decoder and the
    quoting of [%q] are parameters; hashing and the text encodings are the
    definitions of [Encoding]. Rendered instants and durations of the arguments
    are kept as the values they render. *)

From S2P Require Import Prelude Proto Encoding.
From stdpp Require Import pretty.
From Stdlib Require Import Ascii Strings.Byte.

#[local] Open Scope Z_scope.

Definition Version : string := "2.0".
Definition MethodExecute : string := "conveyor.task.execute".
Definition MethodCancel : string := "conveyor.task.cancel".
Definition CodeRetry : Z := -32000.
Definition CodeSkipRetry : Z := -32001.
Definition StatusCompleted : string := "completed".
Definition StatusAccepted : string := "accepted".

Record LeaseParams := mkLeaseParams {
  lp_Token : string;
  lp_HeartbeatInterval : Duration }.

Record TaskParams := mkTaskParams {
  tp_TaskID : string;
  tp_Queue : string;
  tp_Type : string;
  tp_Attempt : Z;
  tp_MaxRetry : Z;
  tp_Deadline : Time;
  tp_ContentType : string;
  tp_Payload : list byte;
  tp_Metadata : gmap string string;
  tp_Lease : LeaseParams }.

(** [Request.Params], of the method it goes with. *)
Inductive requestParams :=
  | ExecuteParams (params : TaskParams)
  | CancelParams (taskID : string).

Record Request := mkRequest {
  rq_JSONRPC : string;
  rq_ID : string;
  rq_Method : string;
  rq_Params : requestParams }.

Record ErrorBody := mkErrorBody { er_Code : Z; er_Message : string }.

Record Response := mkResponse {
  rs_JSONRPC : string;
  rs_ID : string;
  (** [Result]: its only field is [Status]. *)
  rs_Result : option string;
  rs_Error : option ErrorBody }.

Inductive Outcome :=
  | OutcomeTransportFailure
  | OutcomeCompleted
  | OutcomeAccepted
  | OutcomeRetry
  | OutcomeSkipRetry.

#[global] Instance Outcome_eq_dec : EqDecision Outcome.
Proof. solve_decision. Defined.

Definition NewExecuteRequest (leaseID : string) (params : TaskParams) : Request :=
  mkRequest Version leaseID MethodExecute (ExecuteParams params).

Definition NewCancelNotification (taskID : string) : Request :=
  mkRequest Version "" MethodCancel (CancelParams taskID).

(** What the JSON and formatting packages contribute: [json.Unmarshal] into a
    batch (whose elements may be null) or into one response, with the error
    text on failure, and [strconv.Quote]. *)
Class Json := {
  UnmarshalBatch : list byte → string + list (option Response);
  UnmarshalSingle : list byte → string + Response;
  Quote : string → string }.

Section Protocol.
Context {J : Json}.

Definition Classify (r : option Response) : Outcome * string :=
  match r with
  | None => (OutcomeTransportFailure, "empty response")
  | Some r =>
      match rs_Error r with
      | Some e =>
          if er_Code e =? CodeSkipRetry then (OutcomeSkipRetry, er_Message e)
          else (OutcomeRetry, er_Message e)
      | None =>
          match rs_Result r with
          | None => (OutcomeTransportFailure, "response carries neither result nor error")
          | Some status =>
              if String.eqb status StatusCompleted then (OutcomeCompleted, "")
              else if String.eqb status StatusAccepted then (OutcomeAccepted, "")
              else (OutcomeTransportFailure, "unknown result status " +:+ Quote status)
          end
      end
  end.

Definition isSpace (c : byte) : bool :=
  bool_decide (c ∈ [x20; x09; x0d; x0a]).

Fixpoint firstNonSpace (body : list byte) : byte :=
  match body with
  | [] => x00
  | c :: body => if isSpace c then firstNonSpace body else c
  end.

Definition decodeResponses (body : list byte) : string + list (option Response) :=
  if decide (firstNonSpace body = x5b) then
    match UnmarshalBatch body with
    | inl err => inl ("webhook: malformed batch response: " +:+ err)
    | inr batch => inr batch
    end
  else
    match UnmarshalSingle body with
    | inl err => inl ("webhook: malformed response: " +:+ err)
    | inr single => inr [Some single]
    end.

(** ** The client *)

Definition maxResponseBytes : nat := Z.to_nat (2 ^ 20).

(** What came back from [send]: an error, or a status with a body. *)
Definition httpAnswer : Type := string + (Z * list byte).

Definition post (answer : httpAnswer) : string + list (option Response) :=
  match answer with
  | inl err => inl err
  | inr (status, body) =>
      if negb (status =? 200) then inl ("webhook: endpoint answered HTTP " +:+ pretty status)
      else decodeResponses (take maxResponseBytes body)
  end.

Definition Call (answer : httpAnswer) : string + option Response :=
  match post answer with
  | inl err => inl err
  | inr [response] => inr response
  | inr responses =>
      inl ("webhook: expected one response, got " +:+ pretty (Z.of_nat (length responses)))
  end.

Definition CallBatch (answer : httpAnswer) : string + gmap string Response :=
  match post answer with
  | inl err => inl err
  | inr responses =>
      inr (foldl (λ byID response,
        match response with
        | Some r => if String.eqb (rs_ID r) "" then byID else <[rs_ID r := r]> byID
        | None => byID
        end) ∅ responses)
  end.
End Protocol.

(** ** Lease tokens *)

Definition tokenSegments : nat := 4.

Record LeaseClaims := mkLeaseClaims {
  cl_Registration : string;
  cl_TaskID : string;
  cl_LeaseID : string }.

#[global] Instance LeaseClaims_eq_dec : EqDecision LeaseClaims.
Proof. solve_decision. Defined.

(** The bytes the signature covers. *)
Definition macInput (registration taskID leaseID : string) : list byte :=
  bytesOf registration ++ [x00] ++ bytesOf taskID ++ [x00] ++ bytesOf leaseID.

Definition tokenMAC (secret registration taskID leaseID : string) : string :=
  hex_EncodeToString (HMAC (bytesOf secret) (macInput registration taskID leaseID)).

Definition MintLeaseToken (secret registration taskID leaseID : string) : string :=
  strings_Join
    [EncodeToString (bytesOf registration); EncodeToString (bytesOf taskID);
     EncodeToString (bytesOf leaseID); tokenMAC secret registration taskID leaseID] ".".

(** [None] is [ErrInvalidToken]. *)
Definition ParseLeaseToken (token : string) : option LeaseClaims :=
  match strings_Split token "." with
  | [registration; taskID; leaseID; _] =>
      registration ← DecodeString registration;
      taskID ← DecodeString taskID;
      leaseID ← DecodeString leaseID;
      Some (mkLeaseClaims (stringOf registration) (stringOf taskID) (stringOf leaseID))
  | _ => None
  end.

(** Whether verification succeeds. *)
Definition VerifyLeaseToken (token : string) (claims : LeaseClaims) (secrets : list string)
    : bool :=
  match strings_Split token "." with
  | [_; _; _; provided] =>
      existsb (λ secret, String.eqb provided
        (tokenMAC secret (cl_Registration claims) (cl_TaskID claims) (cl_LeaseID claims))) secrets
  | _ => false
  end.

(** ** Delivery signatures *)

Definition TimestampHeader : string := "X-Conveyor-Timestamp".
Definition SignatureHeader : string := "X-Conveyor-Signature".
Definition signatureVersionPrefix : string := "v1=".

Definition SignBody (secret timestamp : string) (body : list byte) : string :=
  hex_EncodeToString (HMAC (bytesOf secret) (bytesOf timestamp ++ bytesOf "." ++ body)).

(** The headers [Sign] sets; [unixSeconds] is the send time. *)
Definition Sign (secret : string) (unixSeconds : Z) (body : list byte)
    (header : gmap string string) : gmap string string :=
  let timestamp := pretty unixSeconds in
  <[SignatureHeader := signatureVersionPrefix +:+ SignBody secret timestamp body]>
    (<[TimestampHeader := timestamp]> header).

(** ** Sending *)

(** The client [NewClient] builds: whether its dials are guarded, and whether it asks
    the environment for a proxy, which would dial for it. It follows no redirect. *)
Record Client := mkClient { cl_guarded : bool; cl_proxy : bool }.

Definition NewClient (allowPrivate : bool) : Client := mkClient (negb allowPrivate) allowPrivate.

Record httpRequest := mkHttpRequest {
  hr_URL : string; hr_Header : gmap string string; hr_Body : list byte }.

(** What the network makes of a request: no answer, a redirect, or an answer. *)
Inductive exchange := Unreachable (err : string) | Redirected | Answered (status : Z) (body : list byte).

Section Sending.
(** Whether a URL makes a request, and the exchange of one. *)
Context (requestable : string → bool) (transmit : Client → httpRequest → exchange).

(** The request [send] makes; a signer is its secret and the send time. *)
Definition signedRequest (url : string) (signer : option (string * Z)) (body : list byte) : httpRequest :=
  let header := {["Content-Type" := "application/json"]} in
  mkHttpRequest url
    match signer with Some (secret, unixSeconds) => Sign secret unixSeconds body header | None => header end body.

Definition send (c : Client) (url : string) (signer : option (string * Z)) (body : list byte) : httpAnswer :=
  if negb (requestable url) then inl "webhook: building request"
  else
    match transmit c (signedRequest url signer body) with
    | Unreachable err => inl ("webhook: delivery failed: " +:+ err)
    | Redirected => inl "webhook: delivery failed: webhook: endpoint redirected; redirects are not followed"
    | Answered status body => inr (status, body)
    end.

(** Only a failure of the transport is reported: the answer is read and dropped. *)
Definition Notify (marshal : Request → string + list byte) (c : Client) (url : string)
    (signer : option (string * Z)) (request : Request) : option string :=
  match marshal request with
  | inl err => Some ("webhook: marshal notification: " +:+ err)
  | inr body =>
      match send c url signer body with
      | inl err => Some err
      | inr _ => None
      end
  end.

(** A receiver that knows the secret finds the headers of a signed request to be its
    own computation over the body. *)
Lemma signed_request_verifies url secret unixSeconds body :
  let r := signedRequest url (Some (secret, unixSeconds)) body in
  hr_Body r = body ∧
  ∃ timestamp, hr_Header r !! TimestampHeader = Some timestamp ∧
    hr_Header r !! SignatureHeader = Some (signatureVersionPrefix +:+ SignBody secret timestamp (hr_Body r)) ∧
    hr_Header r !! "Content-Type" = Some "application/json".
Proof.
  cbn. split; [done|]. exists (pretty unixSeconds). unfold Sign.
  rewrite lookup_insert_ne, lookup_insert_eq, lookup_insert_eq, !lookup_insert_ne, lookup_singleton_eq by done. done.
Qed.

(** A redirect is a failed delivery, never an outcome. *)
Lemma redirect_not_followed {J : Json} allowPrivate url signer body :
  transmit (NewClient allowPrivate) (signedRequest url signer body) = Redirected →
  ∃ err, Call (send (NewClient allowPrivate) url signer body) = inl err.
Proof. intros Hr. unfold send. rewrite Hr. cbn. destruct (negb (requestable url)); eexists; done. Qed.
End Sending.

(** ** The delivery protocol: tokens and classification

    A lease token gives back the claims it was minted for and verifies under
    any rotation that still holds its secret; it verifies for no other claims
    unless two different inputs share one authentication code. *)

(** ** The shape of a token *)

Definition tokenParts (secret registration taskID leaseID : string) : list string :=
  [EncodeToString (bytesOf registration); EncodeToString (bytesOf taskID);
   EncodeToString (bytesOf leaseID); tokenMAC secret registration taskID leaseID].

Lemma Split_MintLeaseToken secret registration taskID leaseID :
  strings_Split (MintLeaseToken secret registration taskID leaseID) "." =
    tokenParts secret registration taskID leaseID.
Proof.
  apply Split_Join; [done|]. repeat apply Forall_cons_2;
    [apply EncodeToString_plain..|apply hex_plain|apply Forall_nil_2].
Qed.

Lemma Parse_MintLeaseToken secret registration taskID leaseID :
  ParseLeaseToken (MintLeaseToken secret registration taskID leaseID) =
    Some (mkLeaseClaims registration taskID leaseID).
Proof.
  unfold ParseLeaseToken. rewrite Split_MintLeaseToken. cbn [tokenParts].
  rewrite !DecodeString_EncodeToString. cbn [mbind option_bind]. by rewrite !stringOf_bytesOf.
Qed.

Lemma Verify_MintLeaseToken secret registration taskID leaseID claims secrets :
  VerifyLeaseToken (MintLeaseToken secret registration taskID leaseID) claims secrets = true ↔
  ∃ s, s ∈ secrets ∧ tokenMAC s (cl_Registration claims) (cl_TaskID claims) (cl_LeaseID claims)
                     = tokenMAC secret registration taskID leaseID.
Proof.
  unfold VerifyLeaseToken. rewrite Split_MintLeaseToken. cbn [tokenParts].
  rewrite existsb_exists. split.
  - intros (s & Hin & Heq). exists s. apply list_elem_of_In in Hin. apply String.eqb_eq in Heq. done.
  - intros (s & Hin & Heq). exists s. apply list_elem_of_In in Hin. split; [done|].
    apply String.eqb_eq. congruence.
Qed.

(** ** What the signature covers *)

Definition no_nul (s : string) : Prop := x00 ∉ bytesOf s.

(** Two texts cut at their first zero byte. *)
Lemma cut_at_nul (a b c d : list byte) :
  x00 ∉ a → x00 ∉ c → a ++ x00 :: b = c ++ x00 :: d → a = c ∧ b = d.
Proof.
  revert c. induction a as [|x a IH]; intros [|y c] Ha Hc Heq; cbn in Heq; simplify_eq.
  - done.
  - exfalso. apply Hc. left.
  - exfalso. apply Ha. left.
  - destruct (IH c) as [-> ->]; [..|done|done].
    + intros ?. apply Ha. by right.
    + intros ?. apply Hc. by right.
Qed.

Lemma bytesOf_inj s t : bytesOf s = bytesOf t → s = t.
Proof. intros H. by rewrite <- (stringOf_bytesOf s), H, stringOf_bytesOf. Qed.

Lemma macInput_inj r t l r' t' l' :
  no_nul r → no_nul t → no_nul r' → no_nul t' →
  macInput r t l = macInput r' t' l' → r = r' ∧ t = t' ∧ l = l'.
Proof.
  unfold macInput, no_nul. intros Hr Ht Hr' Ht' H. cbn in H.
  apply cut_at_nul in H as [H1 H]; [|done..]. apply cut_at_nul in H as [H2 H]; [|done..].
  auto using bytesOf_inj.
Qed.

(** Two different key and message pairs with one authentication code. *)
Definition mac_collision (secret secret' : string) (msg msg' : list byte) : Prop :=
  msg ≠ msg' ∧
  hex_EncodeToString (HMAC (bytesOf secret) msg) = hex_EncodeToString (HMAC (bytesOf secret') msg').

(** ** The properties *)

(** A lease token round-trips: parsing gives back the registration, task
    and lease it was minted for, and it verifies against any list of secrets
    that still contains the one it was minted with, in any position. *)
Theorem lease_token_roundtrip secret registration taskID leaseID secrets :
  secret ∈ secrets →
  ∃ claims,
    ParseLeaseToken (MintLeaseToken secret registration taskID leaseID) = Some claims ∧
    claims = mkLeaseClaims registration taskID leaseID ∧
    VerifyLeaseToken (MintLeaseToken secret registration taskID leaseID) claims secrets = true.
Proof.
  intros Hin. eexists. rewrite Parse_MintLeaseToken. split; [done|]. split; [done|].
  apply Verify_MintLeaseToken. by exists secret.
Qed.

Lemma lease_token_roundtrip_witness :
  ∃ claims,
    ParseLeaseToken (MintLeaseToken "old" "hook" "task-1" "lease-1") = Some claims ∧
    claims = mkLeaseClaims "hook" "task-1" "lease-1" ∧
    VerifyLeaseToken (MintLeaseToken "old" "hook" "task-1" "lease-1") claims ["new"; "old"] = true.
Proof. apply (lease_token_roundtrip "old"). right. left. Defined.

(** A token authorises one delivery: if a token minted for one delivery
    verifies for claims without zero bytes, the claims are that delivery's, or
    two different messages share an authentication code. *)
Theorem lease_token_binds secret registration taskID leaseID claims secrets :
  no_nul registration → no_nul taskID →
  no_nul (cl_Registration claims) → no_nul (cl_TaskID claims) →
  VerifyLeaseToken (MintLeaseToken secret registration taskID leaseID) claims secrets = true →
  claims = mkLeaseClaims registration taskID leaseID ∨
  ∃ s, s ∈ secrets ∧
    mac_collision s secret
      (macInput (cl_Registration claims) (cl_TaskID claims) (cl_LeaseID claims))
      (macInput registration taskID leaseID).
Proof.
  intros Hr Ht Hcr Hct Hv. apply Verify_MintLeaseToken in Hv as (s & Hin & Hmac).
  destruct (decide (claims = mkLeaseClaims registration taskID leaseID)) as [|Hne]; [by left|].
  right. exists s. split; [done|]. split; [|exact Hmac].
  intros H. apply macInput_inj in H as (H1 & H2 & H3); [|done..].
  apply Hne. destruct claims. cbn in *. congruence.
Qed.

Lemma lease_token_binds_witness :
  let claims := mkLeaseClaims "hook" "task-1" "lease-1" in
  claims = mkLeaseClaims "hook" "task-1" "lease-1" ∨
  ∃ s, s ∈ ["new"; "old"] ∧
    mac_collision s "old"
      (macInput (cl_Registration claims) (cl_TaskID claims) (cl_LeaseID claims))
      (macInput "hook" "task-1" "lease-1").
Proof.
  assert (N : ∀ s, existsb (Byte.eqb x00) (bytesOf s) = false → no_nul s).
  { intros s H Hin. apply not_true_iff_false in H. apply H. apply existsb_exists.
    exists x00. split; [by apply list_elem_of_In|done]. }
  apply (lease_token_binds "old" "hook" "task-1" "lease-1" (mkLeaseClaims "hook" "task-1" "lease-1"));
    [apply N; vm_compute; reflexivity..|vm_compute; reflexivity].
Defined.
