(* ===== verification/WebhookGuard.v ===== *)
(** * The webhook target guard (internal/webhook/guard.go)

    Which addresses a delivery may be sent to. An address is a [net.IP], a
    slice of 4 or 16 bytes; the standard library's predicates on it are written
    out. Name resolution, connection and the parsing of host names are the
    environment of a dial. *)

From S2P Require Import Prelude.

#[local] Open Scope Z_scope.

(** ** Addresses, as the [net] package has them *)

Definition IP : Type := list Z.

Definition IPv4 (a b c d : Z) : IP := replicate 10 0 ++ [255; 255; a; b; c; d].

Definition v4InV6Prefix : list Z := replicate 10 0 ++ [255; 255].

Definition To4 (ip : IP) : option IP :=
  if (length ip =? 4)%nat then Some ip
  else if (length ip =? 16)%nat && bool_decide (take 12 ip = v4InV6Prefix) then Some (drop 12 ip)
  else None.

Definition To16 (ip : IP) : option IP :=
  match ip with
  | [a; b; c; d] => Some (IPv4 a b c d)
  | _ => if (length ip =? 16)%nat then Some ip else None
  end.

(** The byte at an index within the slice. *)
Definition octet (ip : list Z) (i : nat) : Z := default 0 (ip !! i).

Definition ip_Equal (ip x : IP) : bool :=
  if (length ip =? length x)%nat then bool_decide (ip = x)
  else if (length ip =? 4)%nat && (length x =? 16)%nat then
    bool_decide (take 12 x = v4InV6Prefix) && bool_decide (ip = drop 12 x)
  else if (length ip =? 16)%nat && (length x =? 4)%nat then
    bool_decide (take 12 ip = v4InV6Prefix) && bool_decide (drop 12 ip = x)
  else false.

Definition IPv4bcast : IP := IPv4 255 255 255 255.
Definition IPv4zero : IP := IPv4 0 0 0 0.
Definition IPv6unspecified : IP := replicate 16 0.
Definition IPv6loopback : IP := replicate 15 0 ++ [1].

Definition IsUnspecified (ip : IP) : bool := ip_Equal ip IPv4zero || ip_Equal ip IPv6unspecified.

Definition IsLoopback (ip : IP) : bool :=
  match To4 ip with
  | Some ip4 => octet ip4 0 =? 127
  | None => ip_Equal ip IPv6loopback
  end.

Definition IsMulticast (ip : IP) : bool :=
  match To4 ip with
  | Some ip4 => Z.land (octet ip4 0) 240 =? 224
  | None => (length ip =? 16)%nat && (octet ip 0 =? 255)
  end.

Definition IsLinkLocalUnicast (ip : IP) : bool :=
  match To4 ip with
  | Some ip4 => (octet ip4 0 =? 169) && (octet ip4 1 =? 254)
  | None => (length ip =? 16)%nat && (octet ip 0 =? 254) && (Z.land (octet ip 1) 192 =? 128)
  end.

Definition IsGlobalUnicast (ip : IP) : bool :=
  ((length ip =? 4)%nat || (length ip =? 16)%nat) &&
  negb (ip_Equal ip IPv4bcast) && negb (IsUnspecified ip) && negb (IsLoopback ip) &&
  negb (IsMulticast ip) && negb (IsLinkLocalUnicast ip).

Definition IsPrivate (ip : IP) : bool :=
  match To4 ip with
  | Some ip4 =>
      (octet ip4 0 =? 10) || ((octet ip4 0 =? 172) && (Z.land (octet ip4 1) 240 =? 16)) ||
      ((octet ip4 0 =? 192) && (octet ip4 1 =? 168))
  | None => (length ip =? 16)%nat && (Z.land (octet ip 0) 254 =? 252)
  end.

(** A parsed CIDR block: its network number and its mask, byte by byte. *)
Record IPNet := mkIPNet { net_IP : IP; net_Mask : list Z }.

Definition Contains (n : IPNet) (ip : IP) : bool :=
  let ip := default ip (To4 ip) in
  (length ip =? length (net_IP n))%nat &&
  forallb (λ '(b, m, x), Z.land b m =? Z.land x m) (zip (zip (net_IP n) (net_Mask n)) ip).

(** ** The guard *)

Definition reservedRanges : list IPNet :=
  [ mkIPNet [100; 64; 0; 0] [255; 192; 0; 0];
    mkIPNet [240; 0; 0; 0] [240; 0; 0; 0];
    mkIPNet ([254; 192] ++ replicate 14 0) ([255; 192] ++ replicate 14 0) ].

(** A transition block and where the address it embeds starts. *)
Definition embeddedIPv4Ranges : list (IPNet * nat) :=
  [ (mkIPNet ([0; 100; 255; 155] ++ replicate 12 0) (replicate 12 255 ++ replicate 4 0), 12%nat);
    (mkIPNet ([0; 100; 255; 155; 0; 1] ++ replicate 10 0) (replicate 6 255 ++ replicate 10 0), 12%nat);
    (mkIPNet ([32; 2] ++ replicate 14 0) ([255; 255] ++ replicate 14 0), 2%nat) ].

Definition embeddedIPv4 (ip : IP) : option IP :=
  match To16 ip, To4 ip with
  | Some full, None =>
      match list_find (λ r, Contains r.1 full = true) embeddedIPv4Ranges with
      | Some (_, (_, offset)) =>
          Some (IPv4 (octet full offset) (octet full (offset + 1)) (octet full (offset + 2))
                     (octet full (offset + 3)))
      | None => None
      end
  | _, _ => None
  end.

(** What is decided of an address that embeds none. *)
Definition disallowedItself (ip : IP) : bool :=
  negb (IsGlobalUnicast ip) || IsPrivate ip || existsb (λ reserved, Contains reserved ip) reservedRanges.

(** The recursion goes at most once through an embedded address
    ([isDisallowedIP_unfold] below): fuel for two levels suffices. *)
Fixpoint isDisallowedIP_fuel (fuel : nat) (ip : IP) : bool :=
  match fuel with
  | O => true
  | S fuel =>
      match embeddedIPv4 ip with
      | Some embedded => isDisallowedIP_fuel fuel embedded
      | None => disallowedItself ip
      end
  end.

Definition isDisallowedIP (ip : IP) : bool := isDisallowedIP_fuel 2 ip.

(** The parsing the guard relies on: [url.Parse] with [Hostname],
    [net.SplitHostPort] and [net.ParseIP]. *)
Class NetParsers := {
  URLHostname : string → option string;
  SplitHostPort : string → option (string * string);
  ParseIP : string → option IP }.

Section Guard.
Context {NP : NetParsers}.

(** Whether the check passes. *)
Definition CheckURLTarget (rawURL : string) (allowPrivate : bool) : bool :=
  if allowPrivate then true
  else
    match URLHostname rawURL with
    | None => true
    | Some host =>
        match ParseIP host with
        | None => true
        | Some ip => negb (isDisallowedIP ip)
        end
    end.

(** What a dial asks the network: the address as given, or one resolved
    address and the port. *)
Inductive dialTarget :=
  | DialAddr (addr : string)
  | DialIP (ip : IP) (port : string).

(** The network as a dial meets it: which connections open, and what a host
    name resolves to ([None] for a failed lookup). *)
Record network := mkNetwork {
  nw_connects : dialTarget → bool;
  nw_lookup : string → option (list IP) }.

Inductive dialResult :=
  | Connected (target : dialTarget)
  | DialFailed
  | DialRefused.

Definition dialOne (nw : network) (target : dialTarget) : list dialTarget * dialResult :=
  ([target], if nw_connects nw target then Connected target else DialFailed).

(** The loop over the resolved addresses; [tried] is whether one of them was
    dialled ([lastErr] is set). *)
Fixpoint dialCandidates (nw : network) (port : string) (tried : bool) (addresses : list IP)
    : list dialTarget * dialResult :=
  match addresses with
  | [] => ([], if tried then DialFailed else DialRefused)
  | candidate :: addresses =>
      if isDisallowedIP candidate then dialCandidates nw port tried addresses
      else
        let target := DialIP candidate port in
        if nw_connects nw target then ([target], Connected target)
        else
          let '(attempts, result) := dialCandidates nw port true addresses in
          (target :: attempts, result)
  end.

(** The connection attempts of one dial, in order, and how it ends. *)
Definition guardedDialContext (allowPrivate : bool) (nw : network) (addr : string)
    : list dialTarget * dialResult :=
  if allowPrivate then dialOne nw (DialAddr addr)
  else
    match SplitHostPort addr with
    | None => ([], DialFailed)
    | Some (host, port) =>
        match ParseIP host with
        | Some ip =>
            if isDisallowedIP ip then ([], DialRefused) else dialOne nw (DialAddr addr)
        | None =>
            match nw_lookup nw host with
            | None => ([], DialFailed)
            | Some addresses => dialCandidates nw port false addresses
            end
        end
    end.
End Guard.
