(* ===== verification/WebhookGuardProps.v ===== *)
(** * The target guard refuses internal addresses

    The guard's byte-wise tests agree with a numeric reference: a list of
    refused CIDR blocks, applied to the IPv4 address an address routes to when
    it maps or embeds one. A guarded dial only ever connects to an address the
    reference accepts, and tries every such address before giving up. *)

From S2P Require Import Prelude Encoding WebhookGuard.
From Stdlib Require Import ZifyBool.

#[local] Open Scope Z_scope.

(** ** The reference *)

(** The number a byte string spells, most significant byte first. *)
Definition number (bs : list Z) : Z := foldl (λ n b, n * 256 + b) 0 bs.

(** Membership of the block of [bits]-bit numbers that share the first [len]
    bits of [net]. *)
Definition inBlock (bits net len n : Z) : bool := n / 2 ^ (bits - len) =? net / 2 ^ (bits - len).

(** 0.0.0.0, 10/8, 100.64/10, 127/8, 169.254/16, 172.16/12, 192.168/16, 224/4
    and 240/4. *)
Definition refusedIPv4Blocks : list (Z * Z) :=
  [ (0, 32); (number [10; 0; 0; 0], 8); (number [100; 64; 0; 0], 10); (number [127; 0; 0; 0], 8);
    (number [169; 254; 0; 0], 16); (number [172; 16; 0; 0], 12); (number [192; 168; 0; 0], 16);
    (number [224; 0; 0; 0], 4); (number [240; 0; 0; 0], 4) ].

Definition refusedIPv4 (n : Z) : bool :=
  existsb (λ '(net, len), inBlock 32 net len n) refusedIPv4Blocks.

(** ::, ::1, fc00::/7, fe80::/10, fec0::/10 and ff00::/8. *)
Definition refusedIPv6Blocks : list (Z * Z) :=
  [ (0, 128); (1, 128); (0xfc00 * 2 ^ 112, 7); (0xfe80 * 2 ^ 112, 10); (0xfec0 * 2 ^ 112, 10);
    (0xff00 * 2 ^ 112, 8) ].

(** The IPv4 address an IPv6 address stands for: mapped (::ffff:0:0/96), NAT64
    (64:ff9b::/96 and 64:ff9b:1::/48) or 6to4 (2002::/16). *)
Definition routedIPv4 (n : Z) : option Z :=
  if inBlock 128 (0xffff * 2 ^ 32) 96 n || inBlock 128 (0x64ff9b * 2 ^ 96) 96 n ||
     inBlock 128 (0x64ff9b0001 * 2 ^ 80) 48 n then Some (n mod 2 ^ 32)
  else if inBlock 128 (0x2002 * 2 ^ 112) 16 n then Some (n / 2 ^ 80 mod 2 ^ 32)
  else None.

Definition refusedIPv6 (n : Z) : bool :=
  match routedIPv4 n with
  | Some v4 => refusedIPv4 v4
  | None => existsb (λ '(net, len), inBlock 128 net len n) refusedIPv6Blocks
  end.

Definition is_bytes (bs : list Z) : Prop := Forall (λ b, 0 <= b < 256) bs.

(** ** Numbers and bytes *)

Lemma number_snoc bs b : number (bs ++ [b]) = number bs * 256 + b.
Proof. unfold number. by rewrite foldl_app. Qed.

Lemma number_bounds bs : is_bytes bs → 0 <= number bs < 256 ^ Z.of_nat (length bs).
Proof.
  induction bs as [|b bs IH] using rev_ind; [done|]. intros H.
  apply Forall_app in H as [H Hb]. apply Forall_cons in Hb as [Hb _]. specialize (IH H).
  rewrite number_snoc, length_app. cbn [length].
  replace (Z.of_nat (length bs + 1)) with (Z.of_nat (length bs) + 1) by lia.
  rewrite Z.pow_add_r by lia. lia.
Qed.

Lemma number_app bs cs : number (bs ++ cs) = number bs * 256 ^ Z.of_nat (length cs) + number cs.
Proof.
  induction cs as [|c cs IH] using rev_ind.
  { rewrite app_nil_r. cbn. lia. }
  rewrite app_assoc, !number_snoc, IH, length_app. cbn [length].
  replace (Z.of_nat (length cs + 1)) with (Z.of_nat (length cs) + 1) by lia.
  rewrite Z.pow_add_r by lia. lia.
Qed.

(** The leading and trailing bytes of a number. *)
Lemma number_div bs cs k :
  is_bytes cs → k = 256 ^ Z.of_nat (length cs) → number (bs ++ cs) / k = number bs.
Proof.
  intros H ->. rewrite number_app. pose proof (number_bounds cs H).
  rewrite Z.div_add_l by lia. rewrite Z.div_small by lia. lia.
Qed.

Lemma number_mod bs cs k :
  is_bytes cs → k = 256 ^ Z.of_nat (length cs) → number (bs ++ cs) mod k = number cs.
Proof.
  intros H ->. rewrite number_app. pose proof (number_bounds cs H).
  rewrite Z.add_comm, Z.mod_add by lia. by apply Z.mod_small.
Qed.

Lemma number_inj bs cs :
  is_bytes bs → is_bytes cs → length bs = length cs → number bs = number cs → bs = cs.
Proof.
  revert cs. induction bs as [|b bs IH] using rev_ind; intros cs Hb Hc Hl Hn.
  { symmetry. by apply nil_length_inv. }
  destruct cs as [|c cs _] using rev_ind; [rewrite length_app in Hl; cbn in Hl; lia|].
  apply Forall_app in Hb as [Hb Hb0]. apply Forall_app in Hc as [Hc Hc0].
  apply Forall_cons in Hb0 as [Hb0 _]. apply Forall_cons in Hc0 as [Hc0 _].
  rewrite !number_snoc in Hn. rewrite !length_app in Hl. cbn in Hl.
  assert (b = c) as -> by lia. rewrite (IH cs) by (done || lia). done.
Qed.

Lemma number_eqb bs cs :
  is_bytes bs → is_bytes cs → length bs = length cs →
  (number bs =? number cs) = bool_decide (bs = cs).
Proof.
  intros Hb Hc Hl. case_bool_decide as E.
  - subst. apply Z.eqb_refl.
  - apply Z.eqb_neq. intros Hn. by apply E, number_inj.
Qed.

Lemma bool_decide_cons (x y : Z) l l' :
  bool_decide (x :: l = y :: l') = (x =? y) && bool_decide (l = l').
Proof.
  apply eq_true_iff_eq. rewrite andb_true_iff, !bool_decide_eq_true, Z.eqb_eq. naive_solver.
Qed.

Lemma land_240 b : 0 <= b < 256 → Z.land b 240 = 16 * (b / 16).
Proof.
  intros H. apply Z.eqb_eq.
  apply (below_cases 256 (λ b, Z.land b 240 =? 16 * (b / 16))); [vm_compute; reflexivity|done].
Qed.

Lemma land_192 b : 0 <= b < 256 → Z.land b 192 = 64 * (b / 64).
Proof.
  intros H. apply Z.eqb_eq.
  apply (below_cases 256 (λ b, Z.land b 192 =? 64 * (b / 64))); [vm_compute; reflexivity|done].
Qed.

Lemma land_254 b : 0 <= b < 256 → Z.land b 254 = 2 * (b / 2).
Proof.
  intros H. apply Z.eqb_eq.
  apply (below_cases 256 (λ b, Z.land b 254 =? 2 * (b / 2))); [vm_compute; reflexivity|done].
Qed.

Lemma land_255 b : 0 <= b < 256 → Z.land b 255 = b.
Proof.
  intros H. apply Z.eqb_eq.
  apply (below_cases 256 (λ b, Z.land b 255 =? b)); [vm_compute; reflexivity|done].
Qed.

(** ** IPv4 *)

Lemma isDisallowedIP_unfold ip :
  isDisallowedIP ip =
    match embeddedIPv4 ip with
    | Some embedded => isDisallowedIP embedded
    | None => disallowedItself ip
    end.
Proof.
  unfold isDisallowedIP. cbn [isDisallowedIP_fuel].
  destruct (embeddedIPv4 ip) as [e|] eqn:E; [|done].
  assert (He : ∃ a b c d, e = IPv4 a b c d).
  { unfold embeddedIPv4 in E. repeat case_match; simplify_eq; eauto. }
  by destruct He as (a & b & c & d & ->).
Qed.

(** A mapped address is judged as the address it maps. *)
Lemma disallowed_mapped a b c d :
  disallowedItself (IPv4 a b c d) = disallowedItself [a; b; c; d].
Proof.
  unfold disallowedItself, IsGlobalUnicast, IsUnspecified, IPv6unspecified, IPv4zero, IPv4bcast.
  unfold ip_Equal. cbn -[Z.land Z.eqb bool_decide]. unfold IPv4. cbn -[Z.land Z.eqb bool_decide].
  rewrite !bool_decide_cons. cbn -[Z.land Z.eqb bool_decide]. done.
Qed.

(** The blocks of 32-bit addresses, byte by byte. *)
Section Blocks32.
Variables (a b c d : Z).
Hypotheses (Ha : 0 <= a < 256) (Hb : 0 <= b < 256) (Hc : 0 <= c < 256) (Hd : 0 <= d < 256).

Lemma number32 : number [a; b; c; d] = a * 16777216 + b * 65536 + c * 256 + d.
Proof. unfold number. cbn. lia. Qed.

Lemma number32_24 : number [a; b; c; d] / 2 ^ (32 - 8) = a.
Proof. rewrite number32. change (2 ^ (32 - 8)) with 16777216. Z.div_mod_to_equations. lia. Qed.

Lemma number32_16 : number [a; b; c; d] / 2 ^ (32 - 16) = a * 256 + b.
Proof. rewrite number32. change (2 ^ (32 - 16)) with 65536. Z.div_mod_to_equations. lia. Qed.

Lemma number32_top len :
  0 <= len <= 8 → number [a; b; c; d] / 2 ^ (32 - len) = a / 2 ^ (8 - len).
Proof.
  intros H. rewrite <- number32_24 at 2. rewrite Z.div_div by lia. f_equal.
  rewrite <- Z.pow_add_r by lia. f_equal. lia.
Qed.

Lemma number32_second len :
  8 <= len <= 16 → number [a; b; c; d] / 2 ^ (32 - len) = (a * 256 + b) / 2 ^ (16 - len).
Proof.
  intros H. rewrite <- number32_16. rewrite Z.div_div by lia. f_equal.
  rewrite <- Z.pow_add_r by lia. f_equal. lia.
Qed.

Lemma refusedIPv4_bytes :
  refusedIPv4 (number [a; b; c; d]) =
    (a =? 0) && (b =? 0) && (c =? 0) && (d =? 0) || (a =? 10) ||
    (a =? 100) && (b / 64 =? 1) || (a =? 127) || (a =? 169) && (b =? 254) ||
    (a =? 172) && (b / 16 =? 1) || (a =? 192) && (b =? 168) || (a / 16 =? 14) || (a / 16 =? 15).
Proof.
  unfold refusedIPv4, refusedIPv4Blocks, inBlock. cbn [existsb].
  rewrite !(number32_top 8), !(number32_top 4), !(number32_second 10), !(number32_second 16),
    !(number32_second 12) by lia.
  rewrite number32.
  repeat match goal with |- context [number ?l / ?k] =>
    let v := eval vm_compute in (number l / k) in change (number l / k) with v end.
  change (2 ^ (32 - 32)) with 1. change (2 ^ (8 - 8)) with 1. change (2 ^ (8 - 4)) with 16.
  change (2 ^ (16 - 10)) with 64. change (2 ^ (16 - 16)) with 1. change (2 ^ (16 - 12)) with 16.
  rewrite !Z.div_1_r, orb_false_r, !orb_assoc.
  repeat f_equal; apply eq_true_iff_eq; rewrite ?andb_true_iff, !Z.eqb_eq;
    Z.div_mod_to_equations; lia.
Qed.
End Blocks32.

Lemma scaled_eqb k q v : 0 < k → v = k * q → ∀ x, (v =? k * x) = (x =? q).
Proof. intros Hk -> x. apply eq_true_iff_eq. rewrite !Z.eqb_eq. nia. Qed.

Lemma disallowed_IPv4 a b c d :
  is_bytes [a; b; c; d] → disallowedItself [a; b; c; d] = refusedIPv4 (number [a; b; c; d]).
Proof.
  unfold is_bytes. rewrite !Forall_cons. intros (Ha & Hb & Hc & Hd & _).
  rewrite refusedIPv4_bytes by done.
  unfold disallowedItself, IsGlobalUnicast, IsUnspecified, ip_Equal.
  cbn -[Z.land Z.eqb bool_decide Z.div].
  rewrite !bool_decide_cons, !land_240, ?land_255, !land_192 by done.
  change (Z.land 100 255) with 100. change (Z.land 64 192) with 64.
  change (Z.land 240 240) with 240. rewrite !Z.land_0_r.
  change (bool_decide (@nil Z = [])) with true. cbn -[Z.land Z.eqb Z.div Z.mul].
  rewrite (Z.eqb_sym (16 * (a / 16))), (Z.eqb_sym (16 * (b / 16))).
  rewrite (scaled_eqb 16 14 224), (scaled_eqb 16 15 240), (scaled_eqb 16 1 16),
    (scaled_eqb 64 1 64) by lia.
  rewrite (Z.eqb_sym 100 a). destruct (Z.eqb_spec a 255) as [->|_].
  { change (255 / 16) with 15. cbn. by rewrite !orb_true_r. }
  cbn [andb negb]. rewrite !andb_true_r, !orb_false_r.
  destruct (a =? 0), (a =? 10), (a =? 100), (a =? 127), (a =? 169), (a =? 172), (a =? 192),
    (a / 16 =? 14), (a / 16 =? 15); cbn; rewrite ?orb_true_r, ?andb_false_r; try done;
    destruct (b =? 0), (b =? 254), (b =? 168), (b / 16 =? 1), (b / 64 =? 1), (c =? 0), (d =? 0); done.
Qed.

(** ** IPv6 *)

(** Sixteen bytes, as far as the blocks look at them. *)
Lemma number128_split ip n :
  is_bytes ip → length ip = 16%nat → (n <= 16)%nat →
  number ip / 2 ^ (128 - 8 * Z.of_nat n) = number (take n ip).
Proof.
  intros H Hl Hn. rewrite <- (take_drop n ip) at 1. apply number_div.
  - by apply Forall_drop.
  - rewrite length_drop, Hl. change 256 with (2 ^ 8). rewrite <- Z.pow_mul_r by lia. f_equal. lia.
Qed.

Lemma inBlock_bytes ip n net :
  is_bytes ip → is_bytes net → length ip = 16%nat → length net = n → (n <= 16)%nat →
  inBlock 128 (number net * 2 ^ (128 - 8 * Z.of_nat n)) (8 * Z.of_nat n) (number ip) =
    bool_decide (take n ip = net).
Proof.
  intros Hi Hb Hl Hn Hle. unfold inBlock. rewrite number128_split by done.
  rewrite Z.div_mul by (apply Z.pow_nonzero; lia).
  apply number_eqb; [by apply Forall_take|done|]. rewrite length_take. lia.
Qed.

Lemma masked_prefix p k ip :
  is_bytes p → is_bytes ip → length ip = (length p + k)%nat →
  forallb (λ '(b, m, x), Z.land b m =? Z.land x m)
    (zip (zip (p ++ replicate k 0) (replicate (length p) 255 ++ replicate k 0)) ip) =
  bool_decide (take (length p) ip = p).
Proof.
  revert ip. induction p as [|b p IH]; intros ip Hp Hi Hl.
  - cbn [length replicate app]. rewrite bool_decide_true by done.
    revert ip Hi Hl. induction k as [|k IHk]; intros [|x ip] Hi Hl; try done.
    cbn [replicate zip zip_with forallb]. rewrite !Z.land_0_r. cbn [Z.eqb andb]. apply IHk; [|cbn in Hl |- *; lia]. by apply Forall_cons in Hi as [_ Hi].
  - destruct ip as [|x ip]; [cbn in Hl; lia|].
    apply Forall_cons in Hp as [Hb Hp]. apply Forall_cons in Hi as [Hx Hi].
    cbn [length replicate app zip zip_with forallb take]. rewrite bool_decide_cons, !land_255 by done.
    rewrite (Z.eqb_sym b x). f_equal. apply IH; [done|done|]. cbn in Hl. lia.
Qed.

Lemma Contains_prefix p k ip :
  is_bytes p → is_bytes ip → To4 ip = None → length ip = (length p + k)%nat →
  Contains (mkIPNet (p ++ replicate k 0) (replicate (length p) 255 ++ replicate k 0)) ip =
  bool_decide (take (length p) ip = p).
Proof.
  intros Hp Hi H4 Hl. unfold Contains. rewrite H4. cbn [default from_option net_IP net_Mask id].
  rewrite length_app, length_replicate, Hl, Nat.eqb_refl. cbn [andb]. by apply masked_prefix.
Qed.

Definition nat64 : list Z := [0; 100; 255; 155; 0; 0; 0; 0; 0; 0; 0; 0].
Definition nat64Local : list Z := [0; 100; 255; 155; 0; 1].
Definition sixToFour : list Z := [32; 2].

Section IPv6.
Variable ip : IP.
Hypotheses (Hb : is_bytes ip) (Hl : length ip = 16%nat).

Lemma routedIPv4_bytes :
  routedIPv4 (number ip) =
    if bool_decide (take 12 ip = v4InV6Prefix) || bool_decide (take 12 ip = nat64) ||
       bool_decide (take 6 ip = nat64Local) then Some (number (drop 12 ip))
    else if bool_decide (take 2 ip = sixToFour) then Some (number (take 4 (drop 2 ip)))
    else None.
Proof.
  assert (HB : ∀ net n w len, is_bytes net → length net = n → (n <= 16)%nat →
    w = number net * 2 ^ (128 - 8 * Z.of_nat n) → len = 8 * Z.of_nat n →
    inBlock 128 w len (number ip) = bool_decide (take n ip = net)).
  { intros net n w len Hn Hln Hle -> ->. by apply inBlock_bytes. }
  unfold routedIPv4.
  rewrite (HB v4InV6Prefix 12%nat (0xffff * 2 ^ 32)), (HB nat64 12%nat (0x64ff9b * 2 ^ 96)),
    (HB nat64Local 6%nat), (HB sixToFour 2%nat)
    by (reflexivity || lia || (repeat constructor; lia)).
  assert (number ip mod 2 ^ 32 = number (drop 12 ip)) as ->.
  { rewrite <- (take_drop 12 ip) at 1. apply number_mod; [by apply Forall_drop|].
    by rewrite length_drop, Hl. }
  assert (number ip / 2 ^ 80 mod 2 ^ 32 = number (take 4 (drop 2 ip))) as ->; [|done].
  change (2 ^ 80) with (2 ^ (128 - 8 * Z.of_nat 6)). rewrite number128_split by (done || lia).
  rewrite <- (take_drop 2 (take 6 ip)), number_mod.
  - by rewrite skipn_firstn_comm.
  - by apply Forall_drop, Forall_take.
  - rewrite length_drop, length_take, Hl. done.
Qed.

Lemma To4_length16 :
  To4 ip = if bool_decide (take 12 ip = v4InV6Prefix) then Some (drop 12 ip) else None.
Proof. unfold To4. rewrite Hl. done. Qed.

Lemma four_bytes (l : list Z) : length l = 4%nat → ∃ a b c d, l = [a; b; c; d].
Proof. destruct l as [|a [|b [|c [|d [|]]]]]; try done. eauto. Qed.

Lemma To16_length16 : To16 ip = Some ip.
Proof.
  unfold To16. rewrite Hl. cbn [Nat.eqb].
  destruct ip as [|? [|? [|? [|? [|? ?]]]]]; done.
Qed.

Lemma octets4 n :
  (n + 4 <= 16)%nat →
  IPv4 (octet ip n) (octet ip (n + 1)) (octet ip (n + 2)) (octet ip (n + 3)) =
    v4InV6Prefix ++ take 4 (drop n ip).
Proof.
  intros Hn. unfold IPv4, v4InV6Prefix. rewrite <- app_assoc. do 2 f_equal. cbn [app]. do 2 f_equal.
  assert (H4 : length (take 4 (drop n ip)) = 4%nat) by (rewrite length_take, length_drop, Hl; lia).
  destruct (four_bytes _ H4) as (a & b & c & d & E). rewrite E.
  assert (Ho : ∀ k, (k < 4)%nat → octet ip (n + k) = octet [a; b; c; d] k).
  { intros k Hk. unfold octet. rewrite <- E, lookup_take_lt by lia. by rewrite lookup_drop. }
  pose proof (Ho 0%nat ltac:(lia)) as H0. rewrite Nat.add_0_r in H0.
  by rewrite H0, (Ho 1%nat), (Ho 2%nat), (Ho 3%nat) by lia.
Qed.

(** The address a transition block embeds. *)
Lemma embeddedIPv4_bytes :
  take 12 ip ≠ v4InV6Prefix →
  embeddedIPv4 ip =
    if bool_decide (take 12 ip = nat64) || bool_decide (take 6 ip = nat64Local)
    then Some (v4InV6Prefix ++ drop 12 ip)
    else if bool_decide (take 2 ip = sixToFour) then Some (v4InV6Prefix ++ take 4 (drop 2 ip))
    else None.
Proof.
  intros Hne. unfold embeddedIPv4. rewrite To16_length16.
  assert (H4 : To4 ip = None) by by rewrite To4_length16, bool_decide_false.
  rewrite H4. unfold embeddedIPv4Ranges. cbn [list_find].
  assert (C1 := Contains_prefix nat64 4 ip ltac:(repeat constructor; lia) Hb H4 Hl).
  assert (C2 := Contains_prefix nat64Local 10 ip ltac:(repeat constructor; lia) Hb H4 Hl).
  assert (C3 := Contains_prefix sixToFour 14 ip ltac:(repeat constructor; lia) Hb H4 Hl).
  cbn [length nat64 nat64Local sixToFour app replicate] in C1, C2, C3.
  cbn [fst app replicate list_find].
  assert (H12 : take 4 (drop 12 ip) = drop 12 ip).
  { apply take_ge. rewrite length_drop, Hl. lia. }
  rewrite C1, C2, C3. pose proof (octets4 12 ltac:(lia)) as O12. pose proof (octets4 2 ltac:(lia)) as O2.
  rewrite H12 in O12.
  rewrite <- O12, <- O2. clear. generalize (octet ip). intros o.
  by destruct (bool_decide (take 12 ip = nat64)), (bool_decide (take 6 ip = nat64Local)),
    (bool_decide (take 2 ip = sixToFour)).
Qed.

Lemma number_full net : is_bytes net → length net = 16%nat →
  inBlock 128 (number net) 128 (number ip) = bool_decide (ip = net).
Proof.
  intros Hn Hln. unfold inBlock. change (2 ^ (128 - 128)) with 1. rewrite !Z.div_1_r.
  apply number_eqb; [done..|]. by rewrite Hl, Hln.
Qed.

Lemma inBlock_top len v :
  0 <= len <= 16 → 0 <= v →
  inBlock 128 (v * 2 ^ 112) len (number ip) =
    ((octet ip 0 * 256 + octet ip 1) / 2 ^ (16 - len) =? v / 2 ^ (16 - len)).
Proof.
  intros Hlen Hv. unfold inBlock.
  replace (2 ^ (128 - len)) with (2 ^ 112 * 2 ^ (16 - len))
    by (rewrite <- Z.pow_add_r by lia; f_equal; lia).
  rewrite <- !Z.div_div by lia. rewrite Z.div_mul by lia.
  change (2 ^ 112) with (2 ^ (128 - 8 * Z.of_nat 2)). rewrite number128_split by (done || lia).
  unfold number, octet. destruct ip as [|b0 [|b1 rest]]; done.
Qed.

Lemma disallowed_IPv6 :
  take 12 ip ≠ v4InV6Prefix →
  disallowedItself ip = existsb (λ '(net, len), inBlock 128 net len (number ip)) refusedIPv6Blocks.
Proof.
  intros Hne.
  assert (H4 : To4 ip = None) by by rewrite To4_length16, bool_decide_false.
  assert (Hm : ∀ a b c d, bool_decide (ip = IPv4 a b c d) = false).
  { intros a b c d. apply bool_decide_false. intros E. apply Hne. by rewrite E. }
  unfold refusedIPv6Blocks. cbn [existsb].
  change (inBlock 128 0 128) with (inBlock 128 (number IPv6unspecified) 128).
  change (inBlock 128 1 128) with (inBlock 128 (number IPv6loopback) 128).
  rewrite !number_full by (done || (repeat constructor; lia)). rewrite !inBlock_top by lia.
  assert (Heq : ∀ x, length x = 16%nat → ip_Equal ip x = bool_decide (ip = x)).
  { intros x Hx. unfold ip_Equal. by rewrite Hl, Hx. }
  assert (Hfec0 : existsb (λ reserved, Contains reserved ip) reservedRanges =
    (octet ip 0 =? 254) && (Z.land (octet ip 1) 192 =? 192)).
  { unfold reservedRanges, Contains. rewrite H4. cbn [default from_option existsb net_IP net_Mask].
    unfold id. rewrite Hl. cbn [length Nat.eqb andb orb app replicate].
    destruct ip as [|b0 [|b1 rest]]; [done..|].
    apply Forall_cons in Hb as [Hb0 Hb']. apply Forall_cons in Hb' as [Hb1 Hb'].
    pose proof (masked_prefix [] 14 rest ltac:(constructor) Hb' ltac:(cbn in Hl |- *; lia)) as Hz.
    cbn -[Z.eqb Z.land zip forallb bool_decide] in Hz. rewrite bool_decide_true in Hz by done.
    change (zip (zip (254 :: 192 :: ?l) (255 :: 192 :: ?m)) (b0 :: b1 :: rest)) with
      ((254, 255, b0) :: (192, 192, b1) :: zip (zip l m) rest).
    cbn [forallb]. rewrite Hz, (land_255 b0) by done. change (Z.land 254 255) with 254.
    change (Z.land 192 192) with 192. cbn [octet lookup list_lookup default from_option].
    by rewrite (Z.eqb_sym 254), (Z.eqb_sym 192), orb_false_r, andb_true_r. }
  unfold disallowedItself. rewrite Hfec0.
  unfold IsGlobalUnicast, IsUnspecified, IsLoopback, IsMulticast, IsLinkLocalUnicast, IsPrivate.
  rewrite !Heq, H4, Hl by done. unfold IPv4bcast, IPv4zero. rewrite !Hm. cbn [Nat.eqb orb andb negb].
  assert (Ho : ∀ k, (k < 16)%nat → 0 <= octet ip k < 256).
  { intros k Hk. unfold octet. destruct (lookup_lt_is_Some_2 ip k) as [x Hx]; [lia|].
    rewrite Hx. by apply (Forall_lookup_1 _ _ _ _ Hb Hx). }
  pose proof (Ho 0%nat ltac:(lia)) as H0. pose proof (Ho 1%nat ltac:(lia)) as H1.
  rewrite !land_192, land_254 by done. clear -H0 H1.
  generalize (bool_decide (ip = IPv6unspecified)) (bool_decide (ip = IPv6loopback)).
  generalize dependent (octet ip 0). generalize dependent (octet ip 1). intros y Hy x Hx e0 e1.
  apply eq_true_iff_eq. destruct e0, e1; cbn [negb andb orb]; try done.
  Z.div_mod_to_equations. lia.
Qed.
End IPv6.

(** ** The guard agrees with the reference *)

Definition refusedIP (ip : IP) : bool :=
  if (length ip =? 4)%nat then refusedIPv4 (number ip)
  else if (length ip =? 16)%nat then refusedIPv6 (number ip) else true.

Lemma isDisallowed_mapped (l : list Z) :
  is_bytes l → length l = 4%nat → isDisallowedIP (v4InV6Prefix ++ l) = refusedIPv4 (number l).
Proof.
  intros Hb Hl. destruct (four_bytes l Hl) as (a & b & c & d & ->).
  change (v4InV6Prefix ++ [a; b; c; d]) with (IPv4 a b c d).
  rewrite isDisallowedIP_unfold. change (embeddedIPv4 (IPv4 a b c d)) with (@None IP).
  by rewrite disallowed_mapped, disallowed_IPv4.
Qed.

Lemma isDisallowedIP_IPv6 ip :
  is_bytes ip → length ip = 16%nat → isDisallowedIP ip = refusedIPv6 (number ip).
Proof.
  intros Hb Hl. unfold refusedIPv6. rewrite routedIPv4_bytes by done.
  destruct (decide (take 12 ip = v4InV6Prefix)) as [E|Hne].
  { rewrite (bool_decide_true (take 12 ip = _)) by done. cbn [orb].
    rewrite <- (take_drop 12 ip) at 1. rewrite E. apply isDisallowed_mapped.
    - by apply Forall_drop.
    - by rewrite length_drop, Hl. }
  rewrite isDisallowedIP_unfold, embeddedIPv4_bytes by done.
  rewrite (bool_decide_false (take 12 ip = v4InV6Prefix)) by done. cbn [orb].
  destruct (bool_decide (take 12 ip = nat64) || bool_decide (take 6 ip = nat64Local)).
  { apply isDisallowed_mapped; [by apply Forall_drop|by rewrite length_drop, Hl]. }
  destruct (bool_decide (take 2 ip = sixToFour)).
  { apply isDisallowed_mapped; [by apply Forall_take, Forall_drop|].
    rewrite length_take, length_drop, Hl. done. }
  by apply disallowed_IPv6.
Qed.

Lemma embeddedIPv4_Some ip e : embeddedIPv4 ip = Some e → length ip = 16%nat.
Proof.
  unfold embeddedIPv4, To16. destruct ip as [|a [|b [|c [|d [|x ip]]]]]; try done.
  destruct (Nat.eqb_spec (length (a :: b :: c :: d :: x :: ip)) 16); [done|].
  done.
Qed.

Lemma isDisallowedIP_reference ip : is_bytes ip → isDisallowedIP ip = refusedIP ip.
Proof.
  intros Hb. unfold refusedIP. destruct (Nat.eqb_spec (length ip) 4) as [H4|H4].
  - destruct (four_bytes ip H4) as (a & b & c & d & ->). rewrite isDisallowedIP_unfold.
    change (embeddedIPv4 [a; b; c; d]) with (@None IP). by apply disallowed_IPv4.
  - destruct (Nat.eqb_spec (length ip) 16) as [H16|H16]; [by apply isDisallowedIP_IPv6|].
    rewrite isDisallowedIP_unfold. destruct (embeddedIPv4 ip) eqn:E.
    { by apply embeddedIPv4_Some in E. }
    unfold disallowedItself, IsGlobalUnicast.
    apply Nat.eqb_neq in H4, H16. by rewrite H4, H16.
Qed.

(** ** Dialling *)

Lemma dialCandidates_spec nw port tried addresses attempts result :
  dialCandidates nw port tried addresses = (attempts, result) →
  (∀ target, target ∈ attempts → ∃ ip, ip ∈ addresses ∧ target = DialIP ip port ∧
                                      isDisallowedIP ip = false) ∧
  match result with
  | Connected target => target ∈ attempts ∧ nw_connects nw target = true
  | _ => ∀ ip, ip ∈ addresses → isDisallowedIP ip = false →
           DialIP ip port ∈ attempts ∧ nw_connects nw (DialIP ip port) = false
  end.
Proof.
  revert tried attempts result. induction addresses as [|ip addresses IH]; intros tried attempts result;
    cbn [dialCandidates].
  { intros [= <- <-]. split; [by intros ? ?%not_elem_of_nil|].
    destruct tried; by intros ? ?%not_elem_of_nil. }
  destruct (isDisallowedIP ip) eqn:E.
  { intros H. destruct (IH _ _ _ H) as [H1 H2]. split.
    - intros target Ht. destruct (H1 target Ht) as (ip' & ? & ?). exists ip'. split; [by right|done].
    - destruct result; [done|..]; intros ip' [->|Hin]%elem_of_cons Ha; try congruence; by apply H2. }
  destruct (nw_connects nw (DialIP ip port)) eqn:C.
  { intros [= <- <-]. split; [|split; [left|done]].
    intros target [->|[]%not_elem_of_nil]%elem_of_cons. exists ip. split; [left|done]. }
  destruct (dialCandidates nw port true addresses) as [attempts' result'] eqn:D.
  intros [= <- <-]. destruct (IH _ _ _ D) as [H1 H2]. split.
  - intros target [->|Ht]%elem_of_cons; [exists ip; split; [left|done]|].
    destruct (H1 target Ht) as (ip' & ? & ?). exists ip'. split; [by right|done].
  - destruct result'; [destruct H2; split; [by right|done]|..];
      intros ip' [->|Hin]%elem_of_cons Ha; try (split; [left|done]);
      destruct (H2 ip' Hin Ha); (split; [by right|done]).
Qed.

(** The addresses a connection attempt reaches. *)
Definition reaches `{NetParsers} (target : dialTarget) (ip : IP) : Prop :=
  match target with
  | DialIP ip' _ => ip' = ip
  | DialAddr addr => ∃ host port, SplitHostPort addr = Some (host, port) ∧ ParseIP host = Some ip
  end.

(** C22: A guarded dial reaches only public addresses: every connection attempt
    goes to an address outside the refused blocks, judged by the IPv4 address it
    routes to when it maps or embeds one; and when the dial of a host name ends
    without a connection, every public address the name resolves to was tried
    and did not answer. A URL whose host is a literal address is accepted
    exactly when that address is public. *)
Theorem guarded_dial_public `{NetParsers} nw addr attempts result :
  (∀ host ip, ParseIP host = Some ip → is_bytes ip) →
  (∀ host ips, nw_lookup nw host = Some ips → Forall is_bytes ips) →
  guardedDialContext false nw addr = (attempts, result) →
  (∀ target ip, target ∈ attempts → reaches target ip → refusedIP ip = false) ∧
  (∀ target, result = Connected target → target ∈ attempts) ∧
  (∀ host port ips ip, SplitHostPort addr = Some (host, port) → ParseIP host = None →
     nw_lookup nw host = Some ips → (∀ target, result ≠ Connected target) →
     ip ∈ ips → refusedIP ip = false →
     DialIP ip port ∈ attempts ∧ nw_connects nw (DialIP ip port) = false) ∧
  (∀ url host ip, URLHostname url = Some host → ParseIP host = Some ip →
     CheckURLTarget url false = negb (refusedIP ip)).
Proof.
  intros Hp Hl Hd. unfold guardedDialContext, dialOne in Hd.
  assert (Hcheck : ∀ url host ip, URLHostname url = Some host → ParseIP host = Some ip →
     CheckURLTarget url false = negb (refusedIP ip)).
  { intros url host ip Hu Hi. unfold CheckURLTarget.
    by rewrite Hu, Hi, isDisallowedIP_reference by eauto. }
  destruct (SplitHostPort addr) as [[host port]|] eqn:Es.
  2:{ simplify_eq. repeat split; try done. by intros ? ? ?%not_elem_of_nil. }
  destruct (ParseIP host) as [ip|] eqn:Ei.
  { destruct (isDisallowedIP ip) eqn:Ed; simplify_eq.
    - repeat split; try done; [by intros ? ? ?%not_elem_of_nil|congruence..].
    - repeat split; try done; [| |congruence..].
      + intros target ip' [->|[]%not_elem_of_nil]%elem_of_cons (h & p & Hs & Hip).
        simplify_eq. by rewrite <- isDisallowedIP_reference by eauto.
      + intros target. case_match; [intros [= <-]; left|done]. }
  destruct (nw_lookup nw host) as [ips|] eqn:En.
  2:{ simplify_eq. repeat split; try done; [by intros ? ? ?%not_elem_of_nil|congruence..]. }
  pose proof (Hl _ _ En) as Hips. rewrite Forall_forall in Hips.
  destruct (dialCandidates_spec _ _ _ _ _ _ Hd) as [H1 H2]. repeat split; [..|done].
  - intros target ip Ht Hr. destruct (H1 _ Ht) as (ip' & Hin & -> & Hf). cbn in Hr. subst ip'.
    by rewrite <- isDisallowedIP_reference by auto.
  - intros target ->. apply H2.
  - simplify_eq. rewrite <- isDisallowedIP_reference in * by auto. destruct result; [congruence|..]; by apply H2.
  - simplify_eq. rewrite <- isDisallowedIP_reference in * by auto. destruct result; [congruence|..]; by apply H2.
Qed.

(** A host name with an internal and a public record. *)
Definition sampleParsers : NetParsers := {|
  URLHostname := λ _, Some "hook.example";
  SplitHostPort := λ _, Some ("hook.example", "443");
  ParseIP := λ _, None |}.

Definition sampleNetwork : network :=
  mkNetwork (λ _, false)
    (λ _, Some [[10; 0; 0; 7]; IPv4 127 0 0 1; [8; 8; 8; 8]; [93; 184; 216; 34]]).

Lemma guarded_dial_public_witness :
  refusedIP [8; 8; 8; 8] = false ∧
  DialIP [93; 184; 216; 34] "443" ∈ [DialIP [8; 8; 8; 8] "443"; DialIP [93; 184; 216; 34] "443"].
Proof.
  destruct (guarded_dial_public (H := sampleParsers) sampleNetwork "hook.example:443"
    [DialIP [8; 8; 8; 8] "443"; DialIP [93; 184; 216; 34] "443"] DialFailed)
    as (H1 & _ & H3 & _).
  - done.
  - intros host ips [= <-]. repeat constructor; lia.
  - vm_compute; reflexivity.
  - split; [apply (H1 (DialIP [8; 8; 8; 8] "443")); [left|reflexivity]|].
    apply (H3 "hook.example" "443" [[10; 0; 0; 7]; IPv4 127 0 0 1; [8; 8; 8; 8]; [93; 184; 216; 34]]);
      try reflexivity; [done|]. do 3 right. left.
Defined.
