(* ===== verification/WebhookGateway.v ===== *)
(** * The webhook gateway (internal/actors/webhook_gateway.go)

    The delivery bridge of one webhook registration: it posts leased tasks to
    the endpoint, settles each delivery from the answer or from the endpoint's
    later callbacks, keeps the leases of open requests alive, and announces to
    the queue grains a capacity that follows the endpoint's health. A turn is a
    function on the gateway, the task log, the counters and the list of what the
    turn sent out; the environment of a turn is the worker gateway's [World].
    A request is posted off the turn: its answer comes back as a message. *)

From S2P Require Import Prelude Proto BrokerApi Backoff Messages TaskLog Gateway Webhook.
From Stdlib Require Import Strings.Byte.

#[local] Open Scope Z_scope.

Definition defaultRequestTimeout : Duration := 30 * Second.
Definition endpointBreakerFailureRate : Z := 50.
Definition endpointBreakerMinRequests : Z := 3.
Definition defaultEndpointBreakerOpenTimeout : Duration := 30 * Second.

(** ** Messages *)

Record webhookDelivery := mkWebhookDelivery {
  wd_taskID : string;
  wd_outcome : Outcome;
  wd_message : string }.

Record webhookBatchDelivery := mkWebhookBatchDelivery {
  bd_leaseID : string;
  bd_outcomes : gmap string webhookDelivery;
  bd_transportError : string }.

Record WebhookLeaseResult := mkWebhookLeaseResult {
  wr_TaskId : string;
  wr_LeaseId : string;
  wr_Outcome : TaskOutcome;
  wr_ErrorMsg : string;
  wr_Result : list byte }.

(** What the posting closure of [deliver] makes of the call. *)
Definition deliveryOf `{Json} (taskID : string) (answer : string + option Response)
    : webhookDelivery :=
  match answer with
  | inl err => mkWebhookDelivery taskID OutcomeTransportFailure err
  | inr response =>
      let '(outcome, failure) := Classify response in mkWebhookDelivery taskID outcome failure
  end.

(** What the posting closure of [deliverBatch] makes of the call. *)
Definition batchDeliveryOf `{Json} (leaseID : string) (answer : string + gmap string Response)
    : webhookBatchDelivery :=
  match answer with
  | inl err => mkWebhookBatchDelivery leaseID ∅ err
  | inr responses =>
      mkWebhookBatchDelivery leaseID
        (map_imap (λ id response,
           let '(outcome, failure) := Classify (Some response) in
           Some (mkWebhookDelivery id outcome failure)) responses) ""
  end.

Definition deliveryResult (message : webhookDelivery) : Result :=
  mkResult (wd_taskID message)
    match wd_outcome message with
    | OutcomeCompleted => TASK_OUTCOME_SUCCESS
    | OutcomeSkipRetry => TASK_OUTCOME_SKIP_RETRY
    | _ => TASK_OUTCOME_RETRY
    end (wd_message message) [].

Definition batchMemberResult (message : webhookBatchDelivery) (taskID : string) : Result :=
  if negb (String.eqb (bd_transportError message) "") then
    mkResult taskID TASK_OUTCOME_RETRY (bd_transportError message) []
  else
    match bd_outcomes message !! taskID with
    | None => mkResult taskID TASK_OUTCOME_RELEASED "" []
    | Some answer => deliveryResult answer
    end.

(** ** State *)

Record webhookBatch := mkWebhookBatch {
  wb_queue : string;
  wb_members : list string;
  wb_remaining : Z;
  wb_succeeded : Z }.

#[global] Instance webhookBatch_eta : Eta webhookBatch := λ s,
  mkWebhookBatch (wb_queue s) (wb_members s) (wb_remaining s) (wb_succeeded s).

(** An open HTTP request, named by the delivery it carries; its
    [context.CancelFunc] is the abort of that request. *)
Inductive openRequest :=
  | SingleRequest (taskID leaseID : string)
  | BatchRequest (leaseID : string).

Section WebhookGateway.
Context {MR : MapRange} {CB : CircuitBreakers} {B : Type} `{TL : TaskLog B}.

(** [wg_signer] is the secret the signer is keyed by. *)
Record WebhookGateway := mkWebhookGateway {
  wg_registration : WebhookWorker;
  wg_strategy : Backoff.Strategy;
  wg_name : string;
  wg_signer : string;
  wg_capacities : gmap string Z;
  wg_inflight : gmap string inflightTask;
  wg_batchStates : gmap string webhookBatch;
  wg_aborts : gmap string openRequest;
  wg_async : gmap string Time;
  wg_endpointBreaker : Breaker;
  wg_breakerOpenTimeout : Duration;
  wg_withholding : bool;
  wg_withheldAt : Time;
  wg_probing : bool;
  wg_draining : bool;
  wg_typeBreakers : gmap string Breaker }.

#[global] Instance WebhookGateway_eta : Eta WebhookGateway := λ g,
  mkWebhookGateway (wg_registration g) (wg_strategy g) (wg_name g) (wg_signer g)
    (wg_capacities g) (wg_inflight g) (wg_batchStates g) (wg_aborts g) (wg_async g)
    (wg_endpointBreaker g) (wg_breakerOpenTimeout g) (wg_withholding g) (wg_withheldAt g)
    (wg_probing g) (wg_draining g) (wg_typeBreakers g).

(** What a turn sends out. [WPanic] is the index panic of [Secrets[0]]. *)
Inductive webhookEffect :=
  | WToGrain (queue : string) (m : grainMessage)
  | WToResolver (taskID : string)
  | WScheduleCompletion (queue taskID : string) (success : bool)
  | WPost (request : openRequest) (url signer : string) (deadline : Time) (calls : list Request)
  | WNotify (url signer : string) (notification : Request)
  | WAbort (request : openRequest)
  | WSessionDrained (queues : list string)
  | WPanic
  | WUnhandled.

Record WebhookTurn := mkWebhookTurn {
  wt_gateway : WebhookGateway;
  wt_log : B;
  wt_counters : Counters;
  wt_out : list webhookEffect }.

#[global] Instance WebhookTurn_eta : Eta WebhookTurn := λ t,
  mkWebhookTurn (wt_gateway t) (wt_log t) (wt_counters t) (wt_out t).

Definition on_webhook (f : WebhookGateway → WebhookGateway) (t : WebhookTurn) : WebhookTurn :=
  t <| wt_gateway := f (wt_gateway t) |>.
Definition on_webhook_log (b : B) (t : WebhookTurn) : WebhookTurn := t <| wt_log := b |>.
Definition on_webhook_counters (f : Counters → Counters) (t : WebhookTurn) : WebhookTurn :=
  t <| wt_counters := f (wt_counters t) |>.
Definition sends (e : webhookEffect) (t : WebhookTurn) : WebhookTurn :=
  t <| wt_out := wt_out t ++ [e] |>.

(** ** Capacity *)

Definition splitCapacities (registration : WebhookWorker) : gmap string Z :=
  let queues := SortFunc strings_Compare (range_keys (dom (wh_Queues registration))) in
  splitCapacity (wh_Concurrency registration) queues (wh_Queues registration).

Definition capacity (g : WebhookGateway) (queue : string) : Z :=
  if wg_withholding g then 0
  else if wg_probing g then 1
  else default 0 (wg_capacities g !! queue).

Definition newestSecret (registration : WebhookWorker) : option string :=
  head (wh_Secrets registration).

(** [newWebhookGateway] and [PreStart]; [None] is the panic of a registration
    without secrets. The actor name is set at [PostStart]. *)
Definition PreStart (settings : Settings) (registration : WebhookWorker)
    : option WebhookGateway :=
  let strategy := set_RetryBackoff settings in
  let strategy :=
    if Backoff.base strategy <=? 0
    then Backoff.New Backoff.DefaultBase Backoff.DefaultCap else strategy in
  let timeout := set_WebhookBreakerOpenTimeout settings in
  let timeout := if timeout <=? 0 then defaultEndpointBreakerOpenTimeout else timeout in
  signer ← newestSecret registration;
  Some (mkWebhookGateway registration strategy "" signer (splitCapacities registration)
          ∅ ∅ ∅ ∅
          (NewCircuitBreaker (mkBreakerOptions endpointBreakerFailureRate
             endpointBreakerMinRequests timeout))
          timeout false zeroTime false false ∅).

Definition register (t : WebhookTurn) : WebhookTurn :=
  let g := wt_gateway t in
  if wg_draining g then t
  else
    foldl (λ t '(queue, weight), sends (WToGrain queue (MRegisterGateway
      (mkRegisterGateway queue (wg_name g) (capacity g queue)
         (wh_BatchTypes (wg_registration g)) weight))) t)
      t (range_map (wh_Queues (wg_registration g))).

Definition serves (g : WebhookGateway) (queue : string) : bool :=
  bool_decide (is_Some (wh_Queues (wg_registration g) !! queue)).

(** ** Endpoint health *)

Definition syncBreakerCapacity (w : World) (t : WebhookTurn) : WebhookTurn :=
  let g := wt_gateway t in
  if negb (wg_withholding g) && negb (wg_probing g) && isOpen (wk_now w) (wg_endpointBreaker g) then
    register (on_webhook (λ g, g <| wg_withholding := true |> <| wg_withheldAt := wk_now w |>) t)
  else if wg_withholding g && (wg_breakerOpenTimeout g <=? time_Sub (wk_now w) (wg_withheldAt g)) then
    register (on_webhook (λ g, g <| wg_withholding := false |> <| wg_probing := true |>) t)
  else t.

Definition resolveProbe (w : World) (t : WebhookTurn) : WebhookTurn :=
  match State (wk_now w) (wg_endpointBreaker (wt_gateway t)) with
  | BreakerClosed => register (on_webhook (λ g, g <| wg_probing := false |>) t)
  | BreakerOpen =>
      register (on_webhook (λ g, g <| wg_probing := false |> <| wg_withholding := true |>
                                   <| wg_withheldAt := wk_now w |>) t)
  | BreakerHalfOpen => t
  end.

Definition recordTransport (w : World) (failed : bool) (t : WebhookTurn) : WebhookTurn :=
  let wasProbing := wg_probing (wt_gateway t) in
  let t := on_webhook (λ g, g <| wg_endpointBreaker :=
    Execute (wk_now w) failed (wg_endpointBreaker g) |>) t in
  if wasProbing then resolveProbe w t else syncBreakerCapacity w t.

(** ** Reports *)

Definition typeBreakerFor (g : WebhookGateway) (taskType : string) : Breaker :=
  default newTypeBreaker (wg_typeBreakers g !! taskType).

Definition recordTypeOutcome (w : World) (taskType : string) (outcome : TaskOutcome)
    (g : WebhookGateway) : WebhookGateway :=
  let sample (failed : bool) :=
    g <| wg_typeBreakers :=
      <[taskType := Execute (wk_now w) failed (typeBreakerFor g taskType)]> (wg_typeBreakers g) |> in
  match outcome with
  | TASK_OUTCOME_SUCCESS => sample false
  | TASK_OUTCOME_RETRY => sample true
  | _ => g
  end.

Definition reportCompletion (queue taskID : string) (success : bool) (t : WebhookTurn)
    : WebhookTurn :=
  if negb (serves (wt_gateway t) queue) then t
  else sends (WToGrain queue (MTaskCompleted
         (mkTaskCompleted taskID queue success (wg_name (wt_gateway t))))) t.

Definition reportBatchCompletion (queue : string) (total succeeded : Z) (t : WebhookTurn)
    : WebhookTurn :=
  if negb (serves (wt_gateway t) queue) then t
  else sends (WToGrain queue (MBatchCompleted (mkBatchCompleted queue (wg_name (wt_gateway t))
                (wrap32 total) (wrap32 succeeded)))) t.

Definition deferCompletion (w : World) (queue taskID : string) (success : bool)
    (t : WebhookTurn) : WebhookTurn :=
  if wk_schedule_ok w then sends (WScheduleCompletion queue taskID success) t
  else reportCompletion queue taskID success t.

Definition refillCredit (queue : string) (t : WebhookTurn) : WebhookTurn :=
  if negb (serves (wt_gateway t) queue) then t
  else sends (WToGrain queue (MGatewayCredit
         (mkGatewayCredit queue (wg_name (wt_gateway t)) 1))) t.

Definition resolveDependents (w : World) (taskID : string) (t : WebhookTurn) : WebhookTurn :=
  if wk_resolver w then sends (WToResolver taskID) t else t.

Definition pushCancelNotification (taskID : string) (t : WebhookTurn) : WebhookTurn :=
  sends (WNotify (wh_URL (wg_registration (wt_gateway t))) (wg_signer (wt_gateway t))
           (NewCancelNotification taskID)) t.

Definition abortRequest (taskID : string) (t : WebhookTurn) : WebhookTurn :=
  match wg_aborts (wt_gateway t) !! taskID with
  | None => t
  | Some abort =>
      on_webhook (λ g, g <| wg_aborts := delete taskID (wg_aborts g) |>) (sends (WAbort abort) t)
  end.

(** ** Registration updates *)

Definition apply (worker : WebhookWorker) (t : WebhookTurn) : WebhookTurn :=
  let g := wt_gateway t in
  let t := foldl (λ t queue,
    if decide (is_Some (wh_Queues worker !! queue)) then t
    else sends (WToGrain queue (MRegisterGateway
           (mkRegisterGateway queue (wg_name g) 0 [] 0))) t)
    t (range_keys (dom (wh_Queues (wg_registration g)))) in
  let t := on_webhook (λ g, g <| wg_registration := worker |>
                              <| wg_capacities := splitCapacities worker |>) t in
  match newestSecret worker with
  | None => sends WPanic t
  | Some secret => register (on_webhook (λ g, g <| wg_signer := secret |>) t)
  end.

(** ** Delivery *)

Definition trackTask (w : World) (g : WebhookGateway) (leaseID : string) (task : TaskEnvelope)
    : inflightTask :=
  mkInflightTask leaseID (wk_now w) (env_Queue task) (env_Type task) (env_Retried task)
    (opt_MaxRetry (GetOptions task)) false
    (retryStrategyFor (wg_strategy g) (opt_RetryPolicy (GetOptions task))).

Definition deliveryDeadline (registration : WebhookWorker) (now executionDeadline : Time) : Time :=
  let requestTimeout := wh_RequestTimeout registration in
  let requestTimeout := if requestTimeout <=? 0 then defaultRequestTimeout else requestTimeout in
  let deadline := time_Add now requestTimeout in
  if Before executionDeadline deadline then executionDeadline else deadline.

Definition heartbeatInterval (settings : Settings) : Duration := Z.quot (set_LeaseTTL settings) 3.

(** The first secret exists: [PreStart] and [apply] panic otherwise. *)
Definition taskParams (settings : Settings) (registration : WebhookWorker) (task : TaskEnvelope)
    (leaseID : string) (deadline : Time) : TaskParams :=
  let token := MintLeaseToken (default "" (newestSecret registration)) (wh_Name registration)
                 (env_Id task) leaseID in
  mkTaskParams (env_Id task) (env_Queue task) (env_Type task) (wrap32 (env_Retried task + 1))
    (opt_MaxRetry (GetOptions task)) deadline (env_ContentType task) (env_Payload task)
    (env_Metadata task) (mkLeaseParams token (heartbeatInterval settings)).

Definition deliver (w : World) (message : ExecuteTask) (t : WebhookTurn) : WebhookTurn :=
  let task := et_Task message in
  let id := env_Id task in
  let leaseID := et_LeaseId message in
  let t := on_webhook (λ g, g <| wg_inflight := <[id := trackTask w g leaseID task]> (wg_inflight g) |>) t in
  let registration := wg_registration (wt_gateway t) in
  let deadline := deliveryDeadline registration (wk_now w)
    (executionDeadlineAt (wk_now w) (et_LeaseExpiresAt message) (GetOptions task)) in
  let request := NewExecuteRequest leaseID
    (taskParams (wk_settings w) registration task leaseID deadline) in
  let abort := SingleRequest id leaseID in
  let t := on_webhook (λ g, g <| wg_aborts := <[id := abort]> (wg_aborts g) |>) t in
  sends (WPost abort (wh_URL registration) (wg_signer (wt_gateway t)) deadline [request]) t.

Definition deliverBatch (w : World) (message : ExecuteBatch) (t : WebhookTurn) : WebhookTurn :=
  match eb_Tasks message with
  | [] => t
  | (first :: _) as tasks =>
      let leaseID := eb_LeaseId message in
      let registration := wg_registration (wt_gateway t) in
      let deadline := deliveryDeadline registration (wk_now w) (eb_LeaseExpiresAt message) in
      let deadline := foldl (λ d task, tightenDeadline d task (wk_now w)) deadline tasks in
      let t := foldl (λ t task, on_webhook (λ g, g <| wg_inflight :=
        <[env_Id task := trackTask w g leaseID task]> (wg_inflight g) |>) t) t tasks in
      let ids := env_Id <$> tasks in
      let requests := (λ task, NewExecuteRequest (env_Id task)
        (taskParams (wk_settings w) registration task leaseID deadline)) <$> tasks in
      let t := on_webhook (λ g, g <| wg_batchStates := <[leaseID :=
        mkWebhookBatch (env_Queue first) ids (Z.of_nat (length ids)) 0]> (wg_batchStates g) |>) t in
      let abort := BatchRequest leaseID in
      let t := on_webhook (λ g, g <| wg_aborts :=
        foldl (λ aborts id, <[id := abort]> aborts) (wg_aborts g) ids |>) t in
      sends (WPost abort (wh_URL registration) (wg_signer (wt_gateway t)) deadline requests) t
  end.

(** ** Resolution *)

(** Once the last member resolved, the batch reports and is forgotten. *)
Definition resolveBatchMember (leaseID : string) (state : webhookBatch) (success : bool)
    (t : WebhookTurn) : WebhookTurn :=
  let state := if success then state <| wb_succeeded := wb_succeeded state + 1 |> else state in
  let state := state <| wb_remaining := wb_remaining state - 1 |> in
  if 0 <? wb_remaining state then
    on_webhook (λ g, g <| wg_batchStates := <[leaseID := state]> (wg_batchStates g) |>) t
  else
    reportBatchCompletion (wb_queue state) (Z.of_nat (length (wb_members state))) (wb_succeeded state)
      (on_webhook (λ g, g <| wg_batchStates := delete leaseID (wg_batchStates g) |>) t).

(** The three deletions that end the tracking of a delivery. *)
Definition forget (taskID : string) (g : WebhookGateway) : WebhookGateway :=
  g <| wg_inflight := delete taskID (wg_inflight g) |>
    <| wg_aborts := delete taskID (wg_aborts g) |>
    <| wg_async := delete taskID (wg_async g) |>.

Definition resolveDelivery (w : World) (taskID : string) (result : Result) (t : WebhookTurn)
    : WebhookTurn :=
  match wg_inflight (wt_gateway t) !! taskID with
  | None => t
  | Some entry =>
      let t := on_webhook (forget taskID) t in
      let '(b, counters, (success, terminal)) :=
        applyOutcome w entry result (wt_log t) (wt_counters t) in
      let t := t <| wt_log := b |> <| wt_counters := counters |> in
      let t := on_webhook (recordTypeOutcome w (if_taskType entry) (res_Outcome result)) t in
      let t := if terminal then resolveDependents w taskID t else t in
      match wg_batchStates (wt_gateway t) !! if_leaseID entry with
      | Some state => resolveBatchMember (if_leaseID entry) state success t
      | None =>
          (* [typeBreakerFor] creates the breaker on first use *)
          let breaker := typeBreakerFor (wt_gateway t) (if_taskType entry) in
          let t := on_webhook (λ g, g <| wg_typeBreakers :=
            <[if_taskType entry := breaker]> (wg_typeBreakers g) |>) t in
          if isOpen (wk_now w) breaker then deferCompletion w (if_queue entry) taskID success t
          else reportCompletion (if_queue entry) taskID success t
      end
  end.

Definition acceptAsync (w : World) (taskID : string) (t : WebhookTurn) : WebhookTurn :=
  on_webhook (λ g, g <| wg_aborts := delete taskID (wg_aborts g) |>
                     <| wg_async := <[taskID := wk_now w]> (wg_async g) |>) t.

Definition complete (w : World) (message : webhookDelivery) (t : WebhookTurn) : WebhookTurn :=
  if decide (wg_inflight (wt_gateway t) !! wd_taskID message = None) then t
  else
    let t := recordTransport w (bool_decide (wd_outcome message = OutcomeTransportFailure)) t in
    if decide (wd_outcome message = OutcomeAccepted) then acceptAsync w (wd_taskID message) t
    else resolveDelivery w (wd_taskID message) (deliveryResult message) t.

(** The body of the loop over a batch's members. *)
Definition completeMember (w : World) (message : webhookBatchDelivery) (t : WebhookTurn)
    (taskID : string) : WebhookTurn :=
  if decide (wg_inflight (wt_gateway t) !! taskID = None) then t
  else
    let accepted :=
      match bd_outcomes message !! taskID with
      | Some answer => String.eqb (bd_transportError message) "" &&
                       bool_decide (wd_outcome answer = OutcomeAccepted)
      | None => false
      end in
    if accepted then acceptAsync w taskID t
    else resolveDelivery w taskID (batchMemberResult message taskID) t.

Definition completeBatch (w : World) (message : webhookBatchDelivery) (t : WebhookTurn)
    : WebhookTurn :=
  match wg_batchStates (wt_gateway t) !! bd_leaseID message with
  | None => t
  | Some state =>
      let t := recordTransport w (negb (String.eqb (bd_transportError message) "")) t in
      foldl (completeMember w message) t (wb_members state)
  end.

(** ** Leases lost and deliveries dropped *)

Definition dropDelivery (taskID : string) (entry : inflightTask) (notifyCancel : bool)
    (t : WebhookTurn) : WebhookTurn :=
  let t := on_webhook (forget taskID) t in
  let t := if notifyCancel then pushCancelNotification taskID t else t in
  match wg_batchStates (wt_gateway t) !! if_leaseID entry with
  | Some state => resolveBatchMember (if_leaseID entry) state false t
  | None => refillCredit (if_queue entry) (on_webhook_counters (countActive (-1)) t)
  end.

Definition heartbeatAsync (w : World) (taskID leaseID : string) (t : WebhookTurn) : WebhookTurn :=
  match wg_inflight (wt_gateway t) !! taskID with
  | None => t
  | Some entry =>
      if decide (if_leaseID entry ≠ leaseID) then t
      else if decide (wg_async (wt_gateway t) !! taskID = None) then t
      else
        let '(b, err) := log_ExtendLease taskID (if_leaseID entry) (set_LeaseTTL (wk_settings w))
                           (wk_now w) (wt_log t) in
        let t := on_webhook_log b t in
        match err with
        | None => on_webhook (λ g, g <| wg_async := <[taskID := wk_now w]> (wg_async g) |>) t
        | Some ErrLeaseLost => dropDelivery taskID entry true t
        | Some _ => t
        end
  end.

(** The outcomes a callback may report. *)
Definition reportable (outcome : TaskOutcome) : bool :=
  match outcome with
  | TASK_OUTCOME_SUCCESS | TASK_OUTCOME_RETRY | TASK_OUTCOME_SKIP_RETRY => true
  | _ => false
  end.

Definition resultAsync (w : World) (message : WebhookLeaseResult) (t : WebhookTurn) : WebhookTurn :=
  match wg_inflight (wt_gateway t) !! wr_TaskId message with
  | None => t
  | Some entry =>
      if decide (if_leaseID entry ≠ wr_LeaseId message) then t
      else if negb (reportable (wr_Outcome message)) then t
      else resolveDelivery w (wr_TaskId message)
             (mkResult (wr_TaskId message) (wr_Outcome message) (wr_ErrorMsg message)
                (wr_Result message)) t
  end.

(** The body of the loop over the asynchronous deliveries. *)
Definition reapStale (w : World) (t : WebhookTurn) (p : string * Time) : WebhookTurn :=
  let '(taskID, lastBeat) := p in
  if time_Sub (wk_now w) lastBeat <=? set_LeaseTTL (wk_settings w) then t
  else
    match wg_inflight (wt_gateway t) !! taskID with
    | None => on_webhook (λ g, g <| wg_async := delete taskID (wg_async g) |>) t
    | Some entry => dropDelivery taskID entry false t
    end.

Definition reapStaleAsync (w : World) (t : WebhookTurn) : WebhookTurn :=
  foldl (reapStale w) t (range_map (wg_async (wt_gateway t))).

(** The body of the loop over the open deliveries. *)
Definition extendOne (w : World) (t : WebhookTurn) (p : string * inflightTask) : WebhookTurn :=
  let '(taskID, entry) := p in
  if decide (is_Some (wg_async (wt_gateway t) !! taskID)) then t
  else
    let '(b, err) := log_ExtendLease taskID (if_leaseID entry) (set_LeaseTTL (wk_settings w))
                       (wk_now w) (wt_log t) in
    let t := on_webhook_log b t in
    match err with
    | Some ErrLeaseLost => dropDelivery taskID entry false (abortRequest taskID t)
    | _ => t
    end.

Definition extendLeases (w : World) (t : WebhookTurn) : WebhookTurn :=
  foldl (extendOne w) t (range_map (wg_inflight (wt_gateway t))).

Definition cancelActive (taskID : string) (t : WebhookTurn) : WebhookTurn :=
  match wg_inflight (wt_gateway t) !! taskID with
  | None => t
  | Some entry =>
      let t := on_webhook (λ g, g <| wg_inflight :=
        <[taskID := entry <| if_cancelRequested := true |>]> (wg_inflight g) |>) t in
      if decide (is_Some (wg_async (wt_gateway t) !! taskID)) then pushCancelNotification taskID t
      else abortRequest taskID t
  end.

Definition drain (w : World) (t : WebhookTurn) : WebhookTurn :=
  let t := foldl (λ t '(taskID, entry),
    let t := on_webhook_log (log_Release taskID (if_leaseID entry) (wk_now w) (wt_log t)).1 t in
    on_webhook_counters (countActive (-1)) (abortRequest taskID t))
    t (range_map (wg_inflight (wt_gateway t))) in
  on_webhook (λ g, g <| wg_inflight := ∅ |> <| wg_batchStates := ∅ |> <| wg_aborts := ∅ |>
                     <| wg_async := ∅ |> <| wg_draining := true |>) t.

(** ** The mailbox *)

Inductive webhookMessage :=
  | WPostStart (self : string)
  | WRegisterTick
  | WUpdateRegistration (worker : WebhookWorker)
  | WDrainSession
  | WExecuteTask (m : ExecuteTask)
  | WExecuteBatch (m : ExecuteBatch)
  | WDelivery (m : webhookDelivery)
  | WBatchDelivery (m : webhookBatchDelivery)
  | WLeaseHeartbeat (taskID leaseID : string)
  | WLeaseResult (m : WebhookLeaseResult)
  | WCancelActive (taskID : string)
  | WDeferredCompletion (queue taskID : string) (success : bool)
  | WNotificationSent
  | WOther.

Definition Receive (w : World) (message : webhookMessage) (t : WebhookTurn) : WebhookTurn :=
  match message with
  | WPostStart self => register (on_webhook (λ g, g <| wg_name := self |>) t)
  | WRegisterTick => reapStaleAsync w (extendLeases w (register (syncBreakerCapacity w t)))
  | WUpdateRegistration worker => apply worker t
  | WDrainSession =>
      let t := drain w t in
      sends (WSessionDrained (range_keys (dom (wh_Queues (wg_registration (wt_gateway t)))))) t
  | WExecuteTask m => deliver w m t
  | WExecuteBatch m => deliverBatch w m t
  | WDelivery m => complete w m t
  | WBatchDelivery m => completeBatch w m t
  | WLeaseHeartbeat taskID leaseID => heartbeatAsync w taskID leaseID t
  | WLeaseResult m => resultAsync w m t
  | WCancelActive taskID => cancelActive taskID t
  | WDeferredCompletion queue taskID success => reportCompletion queue taskID success t
  | WNotificationSent => t
  | WOther => sends WUnhandled t
  end.
End WebhookGateway.
