(* ===== verification/WebhookFacts.v ===== *)
(** * Facts about the webhook gateway

    The accounting of a turn: the deliveries the gateway holds are the single
    deliveries it tracks and, for every open batch, all of the batch's members,
    which are reported together once the last one resolves. *)

From S2P Require Import Prelude Proto BrokerApi Backoff Messages MemoryLease TaskLog Gateway.
From S2P Require Import GatewayFacts Webhook WebhookGateway.
From Stdlib Require Import Strings.Byte.

#[local] Open Scope Z_scope.

Section Facts.
Context {MR : MapRange} {CB : CircuitBreakers} {B : Type} `{TL : TaskLog B}.
Implicit Types (t : WebhookTurn (B := B)) (w : World) (g : WebhookGateway).

(** ** What the gateway holds *)

(** The tracked deliveries of no open batch, and those of one. *)
Definition singles g : gmap string inflightTask :=
  filter (λ p, wg_batchStates g !! if_leaseID p.2 = None) (wg_inflight g).
Definition members g (leaseID : string) : gmap string inflightTask :=
  filter (λ p, if_leaseID p.2 = leaseID) (wg_inflight g).

(** A sum over the open batches, and the slots one occupies. *)
Definition sumBatches (f : webhookBatch → Z) (batches : gmap string webhookBatch) : Z :=
  sumZ (λ p, f p.2) (map_to_list batches).
Definition batchSlots (s : webhookBatch) : Z := Z.of_nat (length (wb_members s)).

Definition holds g : Z := Z.of_nat (size (singles g)) + sumBatches batchSlots (wg_batchStates g).

(** Of those, the single deliveries and the batches of queues the registration
    no longer lists: nobody is told when they resolve. *)
Definition unservedSingles g : Z :=
  Z.of_nat (size (filter (λ p, serves g (if_queue p.2) = false) (singles g))).
Definition unservedSlots g (s : webhookBatch) : Z :=
  if serves g (wb_queue s) then 0 else batchSlots s.
Definition unservedBatched g : Z := sumBatches (unservedSlots g) (wg_batchStates g).

(** How many deliveries one effect reports back to a queue grain. *)
Definition wreports (e : webhookEffect) : Z :=
  match e with
  | WToGrain _ (MTaskCompleted _) => 1
  | WToGrain _ (MBatchCompleted m) => bc_Total m
  | WScheduleCompletion _ _ _ => 1
  | _ => 0
  end.

Definition wreported (out : list webhookEffect) : Z := sumZ wreports out.

#[local] Arguments wreported : simpl never.
#[local] Arguments holds : simpl never.

(** A report scheduled for a queue the registration does not list. *)
Definition unservedReport g (e : webhookEffect) : Z :=
  match e with
  | WScheduleCompletion queue _ _ => if serves g queue then 0 else 1
  | _ => 0
  end.

(** The single deliveries of such queues that are tracked or whose report is
    scheduled. *)
Definition unsettled t : Z :=
  unservedSingles (wt_gateway t) + sumZ (unservedReport (wt_gateway t)) (wt_out t).

(** The [Active] gauge less what the gateway still accounts for. *)
Definition balance t : Z :=
  ct_Active (wt_counters t) - holds (wt_gateway t) - wreported (wt_out t).

(** An open batch waits for at least the members that are tracked. *)
Definition consistent g : Prop :=
  ∀ L s, wg_batchStates g !! L = Some s →
    Z.of_nat (size (members g L)) <= wb_remaining s ∧ batchSlots s < 2 ^ 31.

(** [t'] follows [t], having accounted for [k] deliveries that came from
    outside; what left unreported is the batches of unserved queues that closed
    and, when the turn [resolves] deliveries, the single ones of such queues
    whose report was not scheduled. *)
Definition settles_books (resolves : bool) (k : Z) t t' : Prop :=
  consistent (wt_gateway t) → consistent (wt_gateway t') ∧
  balance t' = balance t - k
    + (if resolves then unsettled t - unsettled t' else 0)
    + (unservedBatched (wt_gateway t) - unservedBatched (wt_gateway t')).

Lemma books_refl r t : settles_books r 0 t t.
Proof. intros H. split; [done|]. destruct r; lia. Qed.

Lemma books_then r k t1 t2 t3 :
  settles_books r k t1 t2 → settles_books r 0 t2 t3 → settles_books r k t1 t3.
Proof.
  intros H1 H2 Hc. destruct (H1 Hc) as [Hc1 E1]. destruct (H2 Hc1) as [Hc2 E2].
  split; [done|]. destruct r; lia.
Qed.

Lemma wreported_app out out' : wreported (out ++ out') = wreported out + wreported out'.
Proof. unfold wreported, sumZ. induction out as [|e out IH]; cbn; [done|]. rewrite IH. lia. Qed.

Lemma wreported_one e : wreported [e] = wreports e.
Proof. unfold wreported, sumZ. cbn. lia. Qed.

(** ** Steps that keep the tracking *)

(** The parts of a gateway the books read. *)
Definition same_books g g' : Prop :=
  wh_Queues (wg_registration g') = wh_Queues (wg_registration g) ∧
  wg_inflight g' = wg_inflight g ∧ wg_batchStates g' = wg_batchStates g.

Lemma same_books_refl g : same_books g g.
Proof. done. Qed.

Lemma same_books_holds g g' : same_books g g' → holds g' = holds g.
Proof. intros (_ & Hi & Hb). unfold holds, singles. by rewrite Hi, Hb. Qed.

Lemma same_books_serves g g' queue : same_books g g' → serves g' queue = serves g queue.
Proof. intros (Hq & _). unfold serves. by rewrite Hq. Qed.

Lemma same_books_consistent g g' : same_books g g' → consistent g → consistent g'.
Proof.
  intros (_ & Hi & Hbs) Hb L s. unfold members. rewrite Hbs, Hi. apply Hb.
Qed.

Lemma sumZ_snoc {A} (f : A → Z) l x : sumZ f (l ++ [x]) = sumZ f l + f x.
Proof. unfold sumZ. induction l as [|y l IH]; cbn; lia. Qed.

(** Nothing is scheduled by [t'] that [t] had not. *)
Definition no_schedule t t' : Prop :=
  ∀ g, sumZ (unservedReport g) (wt_out t') = sumZ (unservedReport g) (wt_out t).

Lemma same_books_unserved t t' :
  same_books (wt_gateway t) (wt_gateway t') → no_schedule t t' →
  unsettled t' = unsettled t ∧ unservedBatched (wt_gateway t') = unservedBatched (wt_gateway t).
Proof.
  intros HS Hn. pose proof HS as (Hq & Hi & Hb). split.
  - unfold unsettled. rewrite Hn. f_equal.
    + unfold unservedSingles, singles, serves. by rewrite Hq, Hi, Hb.
    + apply sumZ_ext. intros [] _; cbn; try done. by rewrite (same_books_serves _ _ _ HS).
  - unfold unservedBatched, unservedSlots, serves. by rewrite Hq, Hb.
Qed.

Lemma same_books_balance k t t' :
  same_books (wt_gateway t) (wt_gateway t') →
  ct_Active (wt_counters t') - wreported (wt_out t') =
    ct_Active (wt_counters t) - wreported (wt_out t) - k →
  balance t' = balance t - k.
Proof. intros HS HA. unfold balance. rewrite (same_books_holds _ _ HS). lia. Qed.

Lemma books_frame r k t t' :
  same_books (wt_gateway t) (wt_gateway t') → no_schedule t t' →
  ct_Active (wt_counters t') - wreported (wt_out t') =
    ct_Active (wt_counters t) - wreported (wt_out t) - k →
  settles_books r k t t'.
Proof.
  intros HS Hn HA Hc. split; [by eapply same_books_consistent|].
  rewrite (same_books_balance k t t') by done.
  destruct (same_books_unserved _ _ HS Hn) as [-> ->]. destruct r; lia.
Qed.

Lemma no_schedule_snoc e t t' :
  wt_out t' = wt_out t ++ [e] → (∀ g, unservedReport g e = 0) → no_schedule t t'.
Proof. intros Ht He g. rewrite Ht, sumZ_snoc, He. lia. Qed.

Lemma no_schedule_sends e t :
  (∀ g, unservedReport g e = 0) → no_schedule t (sends e t).
Proof. by apply no_schedule_snoc. Qed.

Lemma books_sends r k e t :
  wreports e = k → (∀ g, unservedReport g e = 0) → settles_books r k t (sends e t).
Proof.
  intros <- He. apply books_frame; [done|by apply no_schedule_sends|].
  change (wt_out (sends e t)) with (wt_out t ++ [e]).
  rewrite wreported_app, wreported_one. cbn. lia.
Qed.

Lemma books_log r b t : settles_books r 0 t (on_webhook_log b t).
Proof. apply books_frame; [done|done|]. cbn. lia. Qed.

Lemma books_webhook r f t :
  same_books (wt_gateway t) (f (wt_gateway t)) → settles_books r 0 t (on_webhook f t).
Proof. intros H. apply books_frame; [done|done|]. cbn. lia. Qed.

Lemma books_foldl {A} r (f : WebhookTurn (B := B) → A → WebhookTurn) l t :
  (∀ t x, x ∈ l → settles_books r 0 t (f t x)) → settles_books r 0 t (foldl f t l).
Proof.
  revert t. induction l as [|x l IH]; intros t H; [apply books_refl|]. cbn.
  eapply books_then; [apply H; left|]. apply IH. intros; apply H. by right.
Qed.

Lemma books_register r t : settles_books r 0 t (register t).
Proof.
  unfold register. destruct (wg_draining _); [apply books_refl|].
  apply books_foldl. intros t1 [queue weight] _. by apply books_sends.
Qed.

Lemma books_sync r w t : settles_books r 0 t (syncBreakerCapacity w t).
Proof.
  unfold syncBreakerCapacity.
  destruct (_ && isOpen _ _); [|destruct (_ && _); [|apply books_refl]];
    (eapply books_then; [|apply books_register]; apply books_webhook; repeat split).
Qed.

Lemma books_probe r w t : settles_books r 0 t (resolveProbe w t).
Proof.
  unfold resolveProbe. destruct (State _ _); [| |apply books_refl];
    (eapply books_then; [|apply books_register]; apply books_webhook; repeat split).
Qed.

Lemma books_transport r w failed t : settles_books r 0 t (recordTransport w failed t).
Proof.
  unfold recordTransport. destruct (wg_probing _);
    (eapply books_then; [|apply books_probe || apply books_sync]; apply books_webhook; repeat split).
Qed.

(** Health samples and announcements leave the tracking alone. *)
Lemma register_gateway t : wt_gateway (register t) = wt_gateway t.
Proof.
  unfold register. destruct (wg_draining _); [done|].
  generalize (range_map (wh_Queues (wg_registration (wt_gateway t)))) as l.
  set (f := λ (t : WebhookTurn (B := B)) '(queue, weight), _). intros l.
  assert (H : ∀ t0, wt_gateway (foldl f t0 l) = wt_gateway t0).
  { induction l as [|[q x] l IH]; intros t0; [done|]. cbn [foldl]. by rewrite IH. }
  apply H.
Qed.

Lemma transport_same_books w failed t :
  same_books (wt_gateway t) (wt_gateway (recordTransport w failed t)).
Proof.
  unfold recordTransport, resolveProbe, syncBreakerCapacity.
  repeat case_match; rewrite ?register_gateway; repeat split.
Qed.

Lemma books_resolve r w id t : settles_books r 0 t (resolveDependents w id t).
Proof.
  unfold resolveDependents. destruct (wk_resolver w); [|apply books_refl]. by apply books_sends.
Qed.

Lemma books_refillCredit r queue t : settles_books r 0 t (refillCredit queue t).
Proof.
  unfold refillCredit. destruct (negb _); [apply books_refl|]. by apply books_sends.
Qed.

Lemma books_abort r id t : settles_books r 0 t (abortRequest id t).
Proof.
  unfold abortRequest. case_match; [|apply books_refl].
  eapply books_then; [|apply books_webhook; repeat split]. by apply books_sends.
Qed.

Lemma recordTypeOutcome_same w taskType outcome g :
  same_books g (recordTypeOutcome w taskType outcome g).
Proof. destruct outcome; repeat split. Qed.

(** ** Taking a delivery on and letting it go *)

Lemma lookup_singles g id entry :
  singles g !! id = Some entry ↔
  wg_inflight g !! id = Some entry ∧ wg_batchStates g !! if_leaseID entry = None.
Proof. unfold singles. rewrite map_lookup_filter_Some. done. Qed.

Lemma lookup_members g L id entry :
  members g L !! id = Some entry ↔ wg_inflight g !! id = Some entry ∧ if_leaseID entry = L.
Proof. unfold members. rewrite map_lookup_filter_Some. done. Qed.

Lemma size_delete_Z {V} (m : gmap string V) id x :
  m !! id = Some x → Z.of_nat (size (delete id m)) = Z.of_nat (size m) - 1.
Proof.
  intros H. rewrite map_size_delete_Some by eauto.
  assert (size m ≠ 0%nat) by (intros E; apply map_size_empty_inv in E; by subst). lia.
Qed.

Section Removal.
Variables (g g' : WebhookGateway) (id : string) (entry : inflightTask).
Hypotheses (He : wg_inflight g !! id = Some entry)
           (Hi : wg_inflight g' = delete id (wg_inflight g))
           (Hb : wg_batchStates g' = wg_batchStates g).

Lemma members_removed L :
  Z.of_nat (size (members g' L)) =
    Z.of_nat (size (members g L)) - (if decide (if_leaseID entry = L) then 1 else 0).
Proof.
  unfold members. rewrite Hi, map_filter_delete. case_decide as HL.
  - apply size_delete_Z with entry. by apply lookup_members.
  - rewrite delete_id; [lia|]. apply map_lookup_filter_None. right. intros x Hx. by simplify_eq.
Qed.

Lemma singles_removed :
  Z.of_nat (size (singles g')) =
    Z.of_nat (size (singles g)) -
    (if decide (wg_batchStates g !! if_leaseID entry = None) then 1 else 0).
Proof.
  unfold singles. rewrite Hi, Hb, map_filter_delete. case_decide as HL.
  - apply size_delete_Z with entry. by apply lookup_singles.
  - rewrite delete_id; [lia|]. apply map_lookup_filter_None. right. intros x Hx. by simplify_eq.
Qed.
Lemma unservedSingles_removed :
  wh_Queues (wg_registration g') = wh_Queues (wg_registration g) →
  unservedSingles g' = unservedSingles g -
    (if decide (wg_batchStates g !! if_leaseID entry = None ∧ serves g (if_queue entry) = false)
     then 1 else 0).
Proof.
  intros Hq. unfold unservedSingles, serves. rewrite Hq. unfold singles.
  rewrite Hi, Hb, map_filter_delete, map_filter_delete. case_decide as HL.
  - apply size_delete_Z with entry. apply map_lookup_filter_Some. split; [|apply HL].
    apply lookup_singles. split; [done|apply HL].
  - rewrite delete_id; [lia|]. apply eq_None_not_Some. intros [x Hx].
    apply map_lookup_filter_Some in Hx as [Hx Hs]. apply lookup_singles in Hx as [Hx Hn].
    simplify_eq. by apply HL.
Qed.
End Removal.

Lemma sumBatches_delete f batches L s :
  batches !! L = Some s → sumBatches f (delete L batches) = sumBatches f batches - f s.
Proof.
  intros H. unfold sumBatches. rewrite <- (sumZ_perm _ _ _ (map_to_list_delete batches L s H)).
  unfold sumZ. cbn [foldr snd]. lia.
Qed.

Lemma sumBatches_insert f batches L s :
  batches !! L = None → sumBatches f (<[L := s]> batches) = sumBatches f batches + f s.
Proof.
  intros H. unfold sumBatches. rewrite (sumZ_perm _ _ _ (map_to_list_insert batches L s H)).
  unfold sumZ. cbn [foldr snd]. lia.
Qed.

Lemma sumBatches_update f batches L s s' :
  batches !! L = Some s → f s' = f s → sumBatches f (<[L := s']> batches) = sumBatches f batches.
Proof.
  intros H Hf. rewrite <- insert_delete_eq, sumBatches_insert by apply lookup_delete_eq.
  rewrite (sumBatches_delete _ _ _ s H). lia.
Qed.

(** The single deliveries do not change when no tracked lease gains or loses a
    batch. *)
Lemma singles_ext g g' :
  wg_inflight g' = wg_inflight g →
  (∀ id entry, wg_inflight g !! id = Some entry →
     wg_batchStates g' !! if_leaseID entry = None ↔ wg_batchStates g !! if_leaseID entry = None) →
  singles g' = singles g.
Proof.
  intros Hi Hn. unfold singles. rewrite Hi. apply map_filter_ext. intros id entry He. cbn. by apply (Hn id).
Qed.

Lemma members_empty g L id entry :
  Z.of_nat (size (members g L)) <= 0 → wg_inflight g !! id = Some entry → if_leaseID entry ≠ L.
Proof.
  intros Hz He HL. assert (size (members g L) = 0%nat) as E by lia.
  apply map_size_empty_inv in E.
  assert (members g L !! id = Some entry) as Hm by by apply lookup_members.
  by rewrite E in Hm.
Qed.

(** What follows when a tracked delivery is let go. *)
Section LetGo.
Variables (t t1 : WebhookTurn (B := B)) (id : string) (entry : inflightTask).
Hypotheses (He : wg_inflight (wt_gateway t) !! id = Some entry)
           (Hi : wg_inflight (wt_gateway t1) = delete id (wg_inflight (wt_gateway t)))
           (Hb : wg_batchStates (wt_gateway t1) = wg_batchStates (wt_gateway t))
           (Hq : wh_Queues (wg_registration (wt_gateway t1)) =
                 wh_Queues (wg_registration (wt_gateway t))).

(** The report of a queue that is not served, if one was scheduled. *)
Lemma letgo_unsettled n :
  sumZ (unservedReport (wt_gateway t)) (wt_out t1) =
    sumZ (unservedReport (wt_gateway t)) (wt_out t) + n →
  unsettled t1 = unsettled t + n -
    (if decide (wg_batchStates (wt_gateway t) !! if_leaseID entry = None ∧
                serves (wt_gateway t) (if_queue entry) = false) then 1 else 0).
Proof.
  intros Hn. unfold unsettled. rewrite (unservedSingles_removed _ _ _ _ He Hi Hb Hq).
  rewrite (sumZ_ext (unservedReport (wt_gateway t1)) (unservedReport (wt_gateway t))); [lia|].
  intros [] _; cbn; try done. unfold serves. by rewrite Hq.
Qed.

Lemma letgo_serves queue : serves (wt_gateway t1) queue = serves (wt_gateway t) queue.
Proof. unfold serves. by rewrite Hq. Qed.

(** Every other batch still waits for its members. *)
Lemma letgo_batch L s :
  consistent (wt_gateway t) → wg_batchStates (wt_gateway t) !! L = Some s →
  if_leaseID entry ≠ L →
  Z.of_nat (size (members (wt_gateway t1) L)) <= wb_remaining s ∧ batchSlots s < 2 ^ 31.
Proof.
  intros Hc Hs HL. destruct (Hc _ _ Hs) as (H2 & H3).
  rewrite (members_removed _ _ _ _ He Hi L), decide_False by done. split; [lia|done].
Qed.

Lemma letgo_unservedBatched :
  unservedBatched (wt_gateway t1) = unservedBatched (wt_gateway t).
Proof. unfold unservedBatched, unservedSlots, serves. by rewrite Hq, Hb. Qed.

(** A single delivery leaves: taken off the gauge; or resolved, and reported or
    scheduled for a report, which an unserved queue does not get. *)
Lemma books_letgo_dropped k :
  wg_batchStates (wt_gateway t) !! if_leaseID entry = None →
  ct_Active (wt_counters t1) - wreported (wt_out t1) =
    ct_Active (wt_counters t) - wreported (wt_out t) - k - 1 →
  settles_books false k t t1.
Proof.
  intros Hn HA Hc. split.
  - intros L s Hs. rewrite Hb in Hs.
    apply letgo_batch; [done..|]. intros HL. subst L. congruence.
  - unfold balance, holds. rewrite (singles_removed _ _ _ _ He Hi Hb), decide_True by done.
    rewrite Hb, letgo_unservedBatched. lia.
Qed.

Lemma books_letgo_resolved (scheduled : bool) :
  wg_batchStates (wt_gateway t) !! if_leaseID entry = None →
  sumZ (unservedReport (wt_gateway t)) (wt_out t1) =
    sumZ (unservedReport (wt_gateway t)) (wt_out t) +
    (if scheduled then if serves (wt_gateway t) (if_queue entry) then 0 else 1 else 0) →
  ct_Active (wt_counters t1) - wreported (wt_out t1) =
    ct_Active (wt_counters t) - wreported (wt_out t) -
    (if scheduled || serves (wt_gateway t) (if_queue entry) then 1 else 0) →
  settles_books true 0 t t1.
Proof.
  intros Hn Hsch HA Hc. split.
  - intros L s Hs. rewrite Hb in Hs.
    apply letgo_batch; [done..|]. intros HL. subst L. congruence.
  - rewrite (letgo_unsettled _ Hsch), letgo_unservedBatched.
    unfold balance, holds. rewrite (singles_removed _ _ _ _ He Hi Hb), decide_True by done.
    rewrite Hb. destruct scheduled, (serves _ _); cbn [orb] in HA;
      first [rewrite decide_False by (by intros [_ ?])|rewrite decide_True by done]; lia.
Qed.

(** A member of an open batch leaves: the batch reports when it was the last,
    if its queue is served. *)
Lemma books_member r s success :
  wg_batchStates (wt_gateway t) !! if_leaseID entry = Some s → no_schedule t t1 →
  ct_Active (wt_counters t1) - wreported (wt_out t1) =
    ct_Active (wt_counters t) - wreported (wt_out t) →
  settles_books r 0 t (resolveBatchMember (if_leaseID entry) s success t1).
Proof.
  intros Hs Hns HA Hc. set (L := if_leaseID entry) in *.
  destruct (Hc _ _ Hs) as (Hrem & Hslots).
  pose proof (members_removed _ _ _ _ He Hi L) as Hm. rewrite decide_True in Hm by done.
  pose proof (singles_removed _ _ _ _ He Hi Hb) as Hsg.
  rewrite decide_False in Hsg by (fold L; congruence).
  pose proof (letgo_unsettled 0 ltac:(rewrite Hns; lia)) as Hus.
  rewrite decide_False in Hus by (fold L; intros [? _]; congruence).
  pose proof letgo_unservedBatched as Hub.
  unfold resolveBatchMember. set (s1 := if success then _ else s). cbv zeta.
  set (s2 := s1 <| wb_remaining := _ |>).
  assert (Hs2 : wb_members s2 = wb_members s ∧ wb_queue s2 = wb_queue s ∧
    wb_remaining s2 = wb_remaining s - 1) by by destruct success.
  destruct Hs2 as (Hmem & Hqu & Hr2). destruct (Z.ltb_spec 0 (wb_remaining s2)) as [Hpos|Hpos].
  - set (t2 := on_webhook _ t1).
    assert (Hsing : singles (wt_gateway t2) = singles (wt_gateway t1)).
    { apply singles_ext; [done|]. intros id' e' _. cbn. rewrite Hb.
      destruct (decide (if_leaseID e' = L)) as [->|Hne];
        [by rewrite lookup_insert_eq, Hs|by rewrite lookup_insert_ne by done]. }
    assert (Hus2 : unsettled t2 = unsettled t1).
    { unfold unsettled, unservedSingles. by rewrite Hsing. }
    assert (Hub2 : unservedBatched (wt_gateway t2) = unservedBatched (wt_gateway t1)).
    { unfold unservedBatched. cbn [wt_gateway t2 on_webhook set wg_batchStates].
      apply (sumBatches_update _ _ _ s); [by rewrite Hb|].
      unfold unservedSlots, batchSlots. by rewrite Hqu, Hmem. }
    split.
    + intros L' s' Hs'. cbn in Hs'. rewrite Hb in Hs'.
      apply lookup_insert_Some in Hs' as [[<- <-]|[Hne Hs']].
      * unfold batchSlots. rewrite Hmem. split; [|done].
        change (members _ L) with (members (wt_gateway t1) L). lia.
      * by apply (letgo_batch L' s').
    + rewrite Hus2, Hub2. unfold balance, holds. rewrite Hsing.
      cbn [wt_counters wt_out on_webhook set wt_gateway t2 wg_batchStates].
      rewrite Hb, (sumBatches_update _ _ _ s); [|done|unfold batchSlots; by rewrite Hmem].
      destruct r; lia.
  - set (t2 := on_webhook _ t1).
    assert (Hnone : ∀ id' e', wg_inflight (wt_gateway t1) !! id' = Some e' → if_leaseID e' ≠ L).
    { intros id' e'. apply members_empty. lia. }
    assert (Hsing : singles (wt_gateway t2) = singles (wt_gateway t1)).
    { apply singles_ext; [done|]. intros id' e' He'. cbn. rewrite Hb.
      by rewrite lookup_delete_ne by (intros E; by apply (Hnone id' e')). }
    assert (Hus2 : unsettled t2 = unsettled t1).
    { unfold unsettled, unservedSingles. by rewrite Hsing. }
    assert (Hub2 : unservedBatched (wt_gateway t2) =
      unservedBatched (wt_gateway t1) - unservedSlots (wt_gateway t1) s).
    { unfold unservedBatched. cbn [wt_gateway t2 on_webhook set wg_batchStates].
      apply sumBatches_delete. by rewrite Hb. }
    assert (Hc2 : consistent (wt_gateway t2)).
    { intros L' s' Hs'. cbn in Hs'. rewrite Hb in Hs'.
      apply lookup_delete_Some in Hs' as [Hne Hs']. by apply (letgo_batch L' s'). }
    assert (HB : balance t2 = balance t + batchSlots s).
    { unfold balance, holds. rewrite Hsing.
      cbn [wt_counters wt_out on_webhook set wt_gateway t2 wg_batchStates].
      rewrite Hb, (sumBatches_delete _ _ _ s) by done. lia. }
    unfold reportBatchCompletion. rewrite Hqu. change (serves (wt_gateway t2)) with (serves (wt_gateway t1)).
    unfold unservedSlots in Hub2. destruct (serves (wt_gateway t1) (wb_queue s)) eqn:Hserv;
      cbn [negb].
    + split; [exact Hc2|]. change (wt_gateway (sends _ t2)) with (wt_gateway t2).
      assert (Hus3 : ∀ e, (∀ g, unservedReport g e = 0) → unsettled (sends e t2) = unsettled t2).
      { intros e Hz. unfold unsettled. by rewrite (no_schedule_sends e t2 Hz). }
      rewrite Hus3, Hus2, Hub2 by done. unfold balance in *.
      change (wt_gateway (sends _ t2)) with (wt_gateway t2).
      change (wt_counters (sends _ t2)) with (wt_counters t2).
      cbn [wt_out sends set]. rewrite wreported_app, wreported_one. cbn [wreports bc_Total].
      unfold batchSlots in *. rewrite Hmem, wrap32_id by (unfold int32_range; lia). destruct r; lia.
    + split; [exact Hc2|]. rewrite Hus2, Hub2. destruct r; lia.
Qed.
End LetGo.

(** ** The operations *)

Lemma books_dropDelivery id entry notify t :
  wg_inflight (wt_gateway t) !! id = Some entry →
  settles_books false 0 t (dropDelivery id entry notify t).
Proof.
  intros He. unfold dropDelivery.
  set (t1 := if notify then _ else _).
  assert (Ht1 : wt_gateway t1 = forget id (wt_gateway t) ∧ wt_counters t1 = wt_counters t ∧
    wreported (wt_out t1) = wreported (wt_out t) ∧ no_schedule t t1).
  { unfold t1. destruct notify; [|done]. split_and!; [done..| |by eapply no_schedule_snoc].
    cbn [pushCancelNotification sends set wt_out]. rewrite wreported_app, wreported_one. cbn. lia. }
  clearbody t1. destruct Ht1 as (Hg & Hk & Ho & Hns).
  assert (Hi : wg_inflight (wt_gateway t1) = delete id (wg_inflight (wt_gateway t))) by by rewrite Hg.
  assert (Hb : wg_batchStates (wt_gateway t1) = wg_batchStates (wt_gateway t)) by by rewrite Hg.
  assert (Hq : wh_Queues (wg_registration (wt_gateway t1)) =
    wh_Queues (wg_registration (wt_gateway t))) by by rewrite Hg.
  rewrite Hb. destruct (wg_batchStates (wt_gateway t) !! if_leaseID entry) as [s|] eqn:Es.
  - apply (books_member t t1 id entry); [done..|]. by rewrite Hk, Ho.
  - eapply books_then; [|apply books_refillCredit].
    apply (books_letgo_dropped t _ id entry); [done..|]. cbn. rewrite Hk, Ho. lia.
Qed.

Lemma books_report t1 queue id success :
  wt_gateway (reportCompletion queue id success t1) = wt_gateway t1 ∧
  wt_counters (reportCompletion queue id success t1) = wt_counters t1 ∧
  wreported (wt_out (reportCompletion queue id success t1)) =
    wreported (wt_out t1) + (if serves (wt_gateway t1) queue then 1 else 0) ∧
  no_schedule t1 (reportCompletion queue id success t1).
Proof.
  unfold reportCompletion. destruct (serves _ _); cbn [negb].
  - split_and!; [done..| |by apply no_schedule_sends]. cbn [sends set wt_out].
    by rewrite wreported_app, wreported_one.
  - split_and!; [done..|lia|done].
Qed.

(** The end of a single delivery: reported now, or scheduled while the breaker
    of its type is open. *)
Lemma books_finish w t1 queue id success (held_back : bool) :
  let t2 := if held_back then deferCompletion w queue id success t1
            else reportCompletion queue id success t1 in
  let scheduled := held_back && wk_schedule_ok w in
  wt_gateway t2 = wt_gateway t1 ∧ wt_counters t2 = wt_counters t1 ∧
  wreported (wt_out t2) =
    wreported (wt_out t1) + (if scheduled || serves (wt_gateway t1) queue then 1 else 0) ∧
  ∀ g, sumZ (unservedReport g) (wt_out t2) = sumZ (unservedReport g) (wt_out t1) +
    (if scheduled then if serves g queue then 0 else 1 else 0).
Proof.
  cbv zeta. unfold deferCompletion. destruct held_back, (wk_schedule_ok w); cbn [andb orb].
  { cbn [sends set wt_gateway wt_counters wt_out]. rewrite wreported_app, wreported_one.
    split_and!; [done..|]. intros g. by rewrite sumZ_snoc. }
  all: destruct (books_report t1 queue id success) as (G & K & R & N);
    split_and!; [done..|]; intros g; rewrite N; lia.
Qed.

Lemma books_resolveDelivery w id result t : settles_books true 0 t (resolveDelivery w id result t).
Proof.
  unfold resolveDelivery.
  destruct (wg_inflight (wt_gateway t) !! id) as [entry|] eqn:He; [|apply books_refl].
  destruct (applyOutcome _ _ _ _ _) as [[b k] [success terminal]] eqn:Ea.
  apply applyOutcome_active in Ea. cbn in Ea.
  set (t1 := on_webhook (recordTypeOutcome _ _ _) _).
  set (t2 := if terminal then _ else t1).
  assert (Ht2 : wt_gateway t2 = recordTypeOutcome w (if_taskType entry) (res_Outcome result)
      (forget id (wt_gateway t)) ∧ ct_Active (wt_counters t2) = ct_Active (wt_counters t) ∧
    wreported (wt_out t2) = wreported (wt_out t) ∧ no_schedule t t2).
  { unfold t2, resolveDependents. destruct terminal, (wk_resolver w);
      (split_and!; [done|done| |first [done|by eapply no_schedule_snoc]]); try done.
    cbn [sends set wt_out]. rewrite wreported_app, wreported_one. cbn. lia. }
  clearbody t2. destruct Ht2 as (Hg & Hk & Ho & Hns).
  destruct (recordTypeOutcome_same w (if_taskType entry) (res_Outcome result)
    (forget id (wt_gateway t))) as (Hq & Hi & Hb). rewrite <- Hg in Hq, Hi, Hb.
  rewrite Hb. change (wg_batchStates (forget id (wt_gateway t))) with (wg_batchStates (wt_gateway t)).
  destruct (wg_batchStates (wt_gateway t) !! if_leaseID entry) as [s|] eqn:Es.
  - apply (books_member t t2 id entry); [done..|]. by rewrite Hk, Ho.
  - set (brk := typeBreakerFor _ _). set (t3 := on_webhook _ t2).
    destruct (books_finish w t3 (if_queue entry) id success (isOpen (wk_now w) brk))
      as (G & K & R & N). cbv zeta in *.
    assert (Hs3 : serves (wt_gateway t3) (if_queue entry) = serves (wt_gateway t) (if_queue entry)).
    { unfold serves. cbn. by rewrite Hq. }
    apply (books_letgo_resolved t _ id entry) with (isOpen (wk_now w) brk && wk_schedule_ok w);
      rewrite ?G; [done..| |].
    + rewrite N. change (wt_out t3) with (wt_out t2). by rewrite Hns.
    + rewrite K, R, Hs3. change (wt_counters t3) with (wt_counters t2).
      change (wt_out t3) with (wt_out t2). lia.
Qed.

Lemma books_acceptAsync r w id t : settles_books r 0 t (acceptAsync w id t).
Proof. apply books_webhook. repeat split. Qed.

Lemma books_complete w message t : settles_books true 0 t (complete w message t).
Proof.
  unfold complete. case_decide; [apply books_refl|].
  eapply books_then; [apply books_transport|].
  case_decide; [apply books_acceptAsync|apply books_resolveDelivery].
Qed.

Lemma books_completeBatch w message t : settles_books true 0 t (completeBatch w message t).
Proof.
  unfold completeBatch. case_match; [|apply books_refl].
  eapply books_then; [apply books_transport|]. apply books_foldl. intros t1 id _.
  unfold completeMember. case_decide; [apply books_refl|].
  match goal with |- context [if ?b then _ else _] => destruct b end;
    [apply books_acceptAsync|apply books_resolveDelivery].
Qed.

Lemma books_heartbeatAsync w id L t : settles_books false 0 t (heartbeatAsync w id L t).
Proof.
  unfold heartbeatAsync.
  destruct (wg_inflight (wt_gateway t) !! id) as [entry|] eqn:He; [|apply books_refl].
  case_decide; [apply books_refl|]. case_decide; [apply books_refl|].
  destruct (log_ExtendLease _ _ _ _ _) as [b err].
  eapply books_then; [apply (books_log _ b)|]. destruct err as [[]|]; try apply books_refl.
  - by apply books_dropDelivery.
  - apply books_webhook. repeat split.
Qed.

Lemma books_resultAsync w message t : settles_books true 0 t (resultAsync w message t).
Proof.
  unfold resultAsync. case_match; [|apply books_refl]. case_decide; [apply books_refl|].
  destruct (negb _); [apply books_refl|apply books_resolveDelivery].
Qed.

Lemma books_reapStaleAsync w t : settles_books false 0 t (reapStaleAsync w t).
Proof.
  apply books_foldl. intros t1 [id beat] _. unfold reapStale.
  destruct (_ <=? _); [apply books_refl|].
  destruct (wg_inflight (wt_gateway t1) !! id) as [entry|] eqn:He.
  - by apply books_dropDelivery.
  - apply books_webhook. repeat split.
Qed.

(** A change of an entry that keeps its lease keeps the counts. *)
Lemma filter_update_size (P : string * inflightTask → Prop) `{∀ p, Decision (P p)} (m : gmap string inflightTask) id entry entry' :
  m !! id = Some entry → (P (id, entry') ↔ P (id, entry)) →
  size (filter P (<[id := entry']> m)) = size (filter P m).
Proof.
  intros Hm HP. destruct (decide (P (id, entry))) as [Hp|Hp].
  - rewrite map_filter_insert_True by by apply HP. apply map_size_insert_Some.
    exists entry. by apply map_lookup_filter_Some.
  - rewrite map_filter_insert_False by (by rewrite HP). rewrite map_filter_delete, delete_id; [done|].
    apply map_lookup_filter_None. right. intros x Hx. by simplify_eq.
Qed.

Lemma books_update id entry entry' t :
  wg_inflight (wt_gateway t) !! id = Some entry → if_leaseID entry' = if_leaseID entry →
  settles_books false 0 t (on_webhook (λ g, g <| wg_inflight := <[id := entry']> (wg_inflight g) |>) t).
Proof.
  intros He HL Hc. split.
  - intros L s Hs. destruct (Hc L s Hs) as (H2 & H3). split; [|done].
    replace (size (members (wt_gateway (on_webhook _ t)) L)) with (size (members (wt_gateway t) L));
      [done|]. unfold members. cbn. symmetry.
    apply (filter_update_size _ _ id entry); [done|]. cbn. by rewrite HL.
  - change (unservedBatched (wt_gateway (on_webhook _ t))) with (unservedBatched (wt_gateway t)).
    unfold balance, holds. cbn. unfold singles at 1. cbn.
    rewrite (filter_update_size _ _ id entry); [|done|by cbn; rewrite HL]. unfold singles. lia.
Qed.

Lemma books_cancelActive id t : settles_books false 0 t (cancelActive id t).
Proof.
  unfold cancelActive.
  destruct (wg_inflight (wt_gateway t) !! id) as [entry|] eqn:He; [|apply books_refl].
  eapply books_then; [by apply (books_update id entry (entry <| if_cancelRequested := true |>))|].
  case_decide; [by apply books_sends|apply books_abort].
Qed.

(** A step that keeps the tracking and the registration changes the balance by
    nothing else. *)
Lemma books_plain t t' k :
  settles_books false k t t' → k = 0 → consistent (wt_gateway t) →
  unservedBatched (wt_gateway t') = unservedBatched (wt_gateway t) →
  consistent (wt_gateway t') ∧ balance t' = balance t.
Proof. intros H -> Hc Hu. destruct (H Hc) as [H1 H2]. split; [done|lia]. Qed.

Lemma cancelActive_books id t :
  consistent (wt_gateway t) →
  consistent (wt_gateway (cancelActive id t)) ∧ balance (cancelActive id t) = balance t.
Proof.
  intros Hc. apply (books_plain t _ 0 (books_cancelActive id t) eq_refl Hc).
  unfold unservedBatched, unservedSlots, serves, cancelActive, abortRequest.
  repeat case_match; done.
Qed.

(** The tasks of the loop in [extendLeases] are tracked when their turn
    comes. *)
Lemma dropDelivery_inflight id entry notify t :
  wg_inflight (wt_gateway (dropDelivery id entry notify t)) = delete id (wg_inflight (wt_gateway t)).
Proof.
  unfold dropDelivery, resolveBatchMember, reportBatchCompletion, refillCredit.
  destruct notify; repeat case_match; done.
Qed.

Lemma abortRequest_gateway id t :
  wg_inflight (wt_gateway (abortRequest id t)) = wg_inflight (wt_gateway t) ∧
  wg_batchStates (wt_gateway (abortRequest id t)) = wg_batchStates (wt_gateway t) ∧
  wg_async (wt_gateway (abortRequest id t)) = wg_async (wt_gateway t).
Proof. unfold abortRequest. by case_match. Qed.

Lemma extendOne_inflight w t id entry id' :
  id' ≠ id →
  wg_inflight (wt_gateway (extendOne w t (id, entry))) !! id' = wg_inflight (wt_gateway t) !! id'.
Proof.
  intros Hne. unfold extendOne. case_decide; [done|].
  destruct (log_ExtendLease _ _ _ _ _) as [b err]. destruct err as [[]|]; try done.
  rewrite dropDelivery_inflight, lookup_delete_ne by done.
  by destruct (abortRequest_gateway id (on_webhook_log b t)) as (-> & _).
Qed.

Lemma books_extendOne w t id entry :
  wg_inflight (wt_gateway t) !! id = Some entry → settles_books false 0 t (extendOne w t (id, entry)).
Proof.
  intros He. unfold extendOne. case_decide; [apply books_refl|].
  destruct (log_ExtendLease _ _ _ _ _) as [b err].
  eapply books_then; [apply (books_log _ b)|]. destruct err as [[]|]; try apply books_refl.
  eapply books_then; [apply books_abort|]. apply books_dropDelivery.
  by destruct (abortRequest_gateway id (on_webhook_log b t)) as (-> & _).
Qed.

Lemma books_extendLeases w t : settles_books false 0 t (extendLeases w t).
Proof.
  unfold extendLeases.
  assert (Hl : ∀ p, p ∈ range_map (wg_inflight (wt_gateway t)) →
    wg_inflight (wt_gateway t) !! p.1 = Some p.2).
  { intros [id entry] H. by apply elem_of_range_map in H. }
  pose proof (NoDup_fst_range_map (wg_inflight (wt_gateway t))) as Hn.
  revert Hl Hn. generalize (range_map (wg_inflight (wt_gateway t))) as l.
  intros l. revert t. induction l as [|[id entry] l IH]; intros t Hl Hn; [apply books_refl|].
  cbn in Hn. apply NoDup_cons in Hn as [Hx Hn]. cbn [foldl].
  eapply books_then; [apply books_extendOne, (Hl (id, entry)); left|].
  apply IH; [|done]. intros [id' entry'] Hin. cbn [fst snd]. rewrite extendOne_inflight.
  - apply (Hl (id', entry')). by right.
  - intros ->. apply Hx. by apply (list_elem_of_fmap_2 fst l (id, entry')).
Qed.

(** ** New deliveries *)

(** How many entries of a kind the id has: one, or none. *)
Definition present (P : string * inflightTask → Prop) `{∀ p, Decision (P p)}
    (m : gmap string inflightTask) (id : string) : Z :=
  if decide (is_Some (filter P m !! id)) then 1 else 0.

Lemma filter_insert_size (P : string * inflightTask → Prop) `{∀ p, Decision (P p)}
    (m : gmap string inflightTask) id entry :
  Z.of_nat (size (filter P (<[id := entry]> m))) =
    Z.of_nat (size (filter P m)) - present P m id + (if decide (P (id, entry)) then 1 else 0).
Proof.
  unfold present. destruct (decide (P (id, entry))) as [HP|HP].
  - rewrite map_filter_insert_True by done. destruct (filter P m !! id) eqn:E.
    + rewrite decide_True by eauto. rewrite map_size_insert_Some by eauto. lia.
    + rewrite decide_False by (by intros [? ?]). rewrite map_size_insert_None by done. lia.
  - rewrite map_filter_insert_False, map_filter_delete by done. destruct (filter P m !! id) eqn:E.
    + rewrite decide_True by eauto. rewrite (size_delete_Z _ _ _ E). lia.
    + rewrite decide_False by (by intros [? ?]). rewrite delete_id by done. lia.
Qed.

Lemma filter_insert_fresh (P : string * inflightTask → Prop) `{∀ p, Decision (P p)}
    (m : gmap string inflightTask) id entry :
  m !! id = None →
  Z.of_nat (size (filter P (<[id := entry]> m))) =
    Z.of_nat (size (filter P m)) + (if decide (P (id, entry)) then 1 else 0).
Proof.
  intros Hm. rewrite filter_insert_size. unfold present.
  rewrite decide_False; [lia|]. intros [x Hx]. apply map_lookup_filter_Some in Hx as [Hx _].
  congruence.
Qed.

Lemma present_bounds (P : string * inflightTask → Prop) `{∀ p, Decision (P p)} m id :
  0 <= present P m id <= 1.
Proof. unfold present. case_decide; lia. Qed.

(** A delivery of a task tracked as a single delivery replaces it. *)
Definition alreadySingle g (id : string) : Z :=
  if decide (is_Some (singles g !! id)) then 1 else 0.

Lemma deliver_books w message t :
  wg_batchStates (wt_gateway t) !! et_LeaseId message = None → consistent (wt_gateway t) →
  consistent (wt_gateway (deliver w message t)) ∧
  balance (deliver w message t) =
    balance t - 1 + alreadySingle (wt_gateway t) (env_Id (et_Task message)).
Proof.
  intros HL Hc. unfold deliver. set (task := et_Task message).
  set (t1 := on_webhook (λ g, g <| wg_inflight := _ |>) t).
  set (t2 := on_webhook _ t1).
  assert (HS : same_books (wt_gateway t1) (wt_gateway t2)) by repeat split.
  assert (Hc1 : consistent (wt_gateway t1)).
  { intros L s Hs. destruct (Hc L s Hs) as (H2 & H3). split; [|done].
    unfold members, t1. cbn. rewrite filter_insert_size. cbn.
    rewrite decide_False by (intros E; cbn in Hs; rewrite <- E in Hs; congruence).
    unfold members in H2.
    pose proof (present_bounds (λ p, if_leaseID p.2 = L) (wg_inflight (wt_gateway t)) (env_Id task)). lia. }
  split; [by apply (same_books_consistent (wt_gateway t1))|].
  rewrite (same_books_balance 0 t1 _); [|done|].
  2:{ cbn [sends set wt_out wt_counters]. rewrite wreported_app, wreported_one. cbn. lia. }
  unfold balance, holds, t1. cbn. unfold singles at 1. cbn. rewrite filter_insert_size. cbn.
  rewrite decide_True by done. unfold alreadySingle, present, singles. lia.
Qed.

(** The tracking of a batch, as the loop builds it. *)
Definition trackBatch (w : World) g (leaseID : string) (tasks : list TaskEnvelope)
    (m : gmap string inflightTask) : gmap string inflightTask :=
  foldl (λ m task, <[env_Id task := trackTask w g leaseID task]> m) m tasks.

Lemma trackBatch_turn w leaseID tasks t :
  foldl (λ t task, on_webhook (λ g, g <| wg_inflight :=
    <[env_Id task := trackTask w g leaseID task]> (wg_inflight g) |>) t) t tasks =
  on_webhook (λ g, g <| wg_inflight := trackBatch w g leaseID tasks (wg_inflight g) |>) t.
Proof.
  revert t. induction tasks as [|task tasks IH]; intros t; cbn [foldl]; [by destruct t as [[] ? ? ?]|].
  rewrite IH. done.
Qed.

Lemma trackBatch_size w g leaseID tasks m (P : string * inflightTask → Prop)
    `{∀ p, Decision (P p)} (b : bool) :
  NoDup (env_Id <$> tasks) →
  (∀ id entry, if_leaseID entry = leaseID → P (id, entry) ↔ b = true) →
  Z.of_nat (size (filter P (trackBatch w g leaseID tasks m))) =
    Z.of_nat (size (filter P m)) - sumZ (present P m) (env_Id <$> tasks) +
    (if b then Z.of_nat (length tasks) else 0).
Proof.
  intros Hn Hb. unfold trackBatch. revert m. induction tasks as [|task tasks IH]; intros m; cbn [foldl].
  { unfold sumZ. cbn. destruct b; lia. }
  cbn [fmap list_fmap] in Hn |- *. apply NoDup_cons in Hn as [Hx Hn]. rewrite IH by done.
  rewrite filter_insert_size.
  rewrite (sumZ_ext _ (present P m)).
  2:{ intros id Hid. unfold present. assert (Hne : env_Id task ≠ id) by (intros E; apply Hx; by rewrite E).
      assert (Hl : is_Some (filter P (<[env_Id task := trackTask w g leaseID task]> m) !! id) ↔
        is_Some (filter P m !! id)).
      { unfold is_Some. setoid_rewrite map_lookup_filter_Some.
        by rewrite lookup_insert_ne by done. }
      by rewrite (decide_ext _ _ _ _ Hl). }
  unfold sumZ. cbn [foldr length]. destruct b.
  - rewrite decide_True by (by apply Hb). lia.
  - rewrite decide_False; [lia|]. intros HP. by apply Hb in HP.
Qed.

Lemma deliverBatch_books w message t :
  NoDup (env_Id <$> eb_Tasks message) →
  wg_batchStates (wt_gateway t) !! eb_LeaseId message = None →
  (∀ id entry, wg_inflight (wt_gateway t) !! id = Some entry → if_leaseID entry ≠ eb_LeaseId message) →
  Z.of_nat (length (eb_Tasks message)) < 2 ^ 31 → consistent (wt_gateway t) →
  consistent (wt_gateway (deliverBatch w message t)) ∧
  balance (deliverBatch w message t) = balance t - Z.of_nat (length (eb_Tasks message)) +
    sumZ (alreadySingle (wt_gateway t)) (env_Id <$> eb_Tasks message).
Proof.
  intros Hn HL Hfresh Hlen Hc. unfold deliverBatch.
  destruct (eb_Tasks message) as [|first rest] eqn:Etasks;
    [split; [done|]; unfold sumZ; cbn; lia|].
  rewrite <- Etasks in *. rewrite trackBatch_turn.
  set (L := eb_LeaseId message) in *. set (tasks := eb_Tasks message) in *.
  set (m := wg_inflight (wt_gateway t)) in *.
  set (t1 := on_webhook (λ g, g <| wg_batchStates := _ |>) _). set (t2 := on_webhook _ t1).
  assert (HS : same_books (wt_gateway t1) (wt_gateway t2)) by repeat split.
  assert (Hc1 : consistent (wt_gateway t1)).
  { intros L' s Hs. cbn in Hs. unfold members. cbn. fold m.
    apply lookup_insert_Some in Hs as [[<- <-]|[Hne Hs]].
    - rewrite (trackBatch_size w (wt_gateway t) L tasks m _ true) by (try done; by cbn; intros; subst).
      cbn. unfold batchSlots. cbn. rewrite length_fmap. split; [|done].
      assert (size (filter (λ p, if_leaseID p.2 = L) m) = 0%nat) as E.
      { apply map_size_empty_iff, map_empty. intros id.
        destruct (filter _ m !! id) as [e|] eqn:Em; [|done].
        apply map_lookup_filter_Some in Em as [Em1 Em2]. by destruct (Hfresh id e). }
      pose proof (sumZ_nonneg (present (λ p, if_leaseID p.2 = L) m) (env_Id <$> tasks)
        (λ id _, proj1 (present_bounds _ m id))). lia.
    - destruct (Hc L' s Hs) as (C2 & C3). split; [|done].
      rewrite (trackBatch_size w (wt_gateway t) L tasks m _ false); [|done|].
      2:{ cbn. intros id e HE. rewrite HE. by split. }
      pose proof (sumZ_nonneg (present (λ p, if_leaseID p.2 = L') m) (env_Id <$> tasks)
        (λ id _, proj1 (present_bounds _ m id))). unfold members in C2. fold m in C2. lia. }
  split; [by apply (same_books_consistent (wt_gateway t1))|].
  rewrite (same_books_balance 0 t1 _); [|done|].
  2:{ cbn [sends set wt_out wt_counters]. rewrite wreported_app, wreported_one. cbn. lia. }
  unfold balance, holds. unfold singles at 1. cbn [wt_counters wt_out on_webhook set wt_gateway t1 wg_inflight wg_batchStates].
  fold m. rewrite sumBatches_insert by done. unfold batchSlots at 2. cbn [wb_members]. rewrite length_fmap.
  rewrite (trackBatch_size w (wt_gateway t) L tasks m _ false); [|done|].
  2:{ cbn. intros id e HE. rewrite HE, lookup_insert_eq. by split. }
  assert (Hf : ∀ s, filter (λ p : string * inflightTask,
    <[L := s]> (wg_batchStates (wt_gateway t)) !! if_leaseID p.2 = None) m = singles (wt_gateway t)).
  { intros s. apply map_filter_ext. intros id e He. cbn.
    by rewrite lookup_insert_ne by (intros E; by apply (Hfresh id e)). }
  rewrite Hf, (sumZ_ext _ (alreadySingle (wt_gateway t))); [lia|].
  intros id _. unfold present, alreadySingle. by rewrite Hf.
Qed.

(** ** Draining *)

(** The members of open batches that are not tracked any more: they resolved, or
    were delivered anew under another lease. *)
Definition untrackedMembers g : Z :=
  sumZ (λ p, batchSlots p.2 - Z.of_nat (size (members g p.1))) (map_to_list (wg_batchStates g)).

(** Counting the entries that satisfy exactly one of two conditions. *)
Lemma filter_split (P Q R : string * inflightTask → Prop)
    `{∀ p, Decision (P p), ∀ p, Decision (Q p), ∀ p, Decision (R p)} (m : gmap string inflightTask) :
  (∀ p, P p ↔ Q p ∨ R p) → (∀ p, Q p → ¬ R p) →
  Z.of_nat (size (filter P m)) = Z.of_nat (size (filter Q m)) + Z.of_nat (size (filter R m)).
Proof.
  intros HP HQ. induction m as [|id entry m Hm IH] using map_ind.
  { by rewrite !map_filter_empty, !map_size_empty. }
  rewrite !filter_insert_fresh by done. specialize (HP (id, entry)). specialize (HQ (id, entry)).
  repeat case_decide; try lia; exfalso; tauto.
Qed.

(** Every tracked delivery is a single one or a member of one open batch. *)
Lemma tracked_partition g :
  Z.of_nat (size (wg_inflight g)) =
    Z.of_nat (size (singles g)) +
    sumZ (λ p, Z.of_nat (size (members g p.1))) (map_to_list (wg_batchStates g)).
Proof.
  unfold singles, members. set (m := wg_inflight g).
  induction (wg_batchStates g) as [|L s batches HL IH] using map_ind.
  - rewrite map_to_list_empty. unfold sumZ. cbn [foldr].
    rewrite map_filter_id; [lia|]. intros. cbn. apply lookup_empty.
  - rewrite (sumZ_perm _ _ _ (map_to_list_insert _ _ s HL)), IH.
    rewrite (filter_split _ (λ p, <[L := s]> batches !! if_leaseID p.2 = None)
      (λ p, if_leaseID p.2 = L)).
    + unfold sumZ. cbn [foldr fst]. lia.
    + intros [id e]. cbn. destruct (decide (if_leaseID e = L)) as [->|Hne].
      * rewrite lookup_insert_eq. naive_solver.
      * rewrite lookup_insert_ne by done. naive_solver.
    + intros [id e]. cbn. intros H HE. by rewrite HE, lookup_insert_eq in H.
Qed.

Lemma sumZ_sub {A} (f h : A → Z) l : sumZ (λ x, f x - h x) l = sumZ f l - sumZ h l.
Proof. unfold sumZ. induction l as [|x l IH]; cbn; lia. Qed.

(** The body of the loop of [drain]. *)
Definition drainOne (w : World) t (p : string * inflightTask) : WebhookTurn :=
  let '(taskID, entry) := p in
  on_webhook_counters (countActive (-1)) (abortRequest taskID
    (on_webhook_log (log_Release taskID (if_leaseID entry) (wk_now w) (wt_log t)).1 t)).

Lemma drainOne_books w t p :
  ct_Active (wt_counters (drainOne w t p)) = ct_Active (wt_counters t) - 1 ∧
  wreported (wt_out (drainOne w t p)) = wreported (wt_out t).
Proof.
  destruct p as [id entry]. unfold drainOne, abortRequest. case_match; cbn -[wreported];
    rewrite ?wreported_app, ?wreported_one; cbn [wreports]; split; lia.
Qed.

Lemma drainLoop_books w l t :
  ct_Active (wt_counters (foldl (drainOne w) t l)) = ct_Active (wt_counters t) - Z.of_nat (length l) ∧
  wreported (wt_out (foldl (drainOne w) t l)) = wreported (wt_out t).
Proof.
  revert t. induction l as [|p l IH]; intros t; cbn [foldl]; [cbn [length]; split; [lia|done]|].
  destruct (IH (drainOne w t p)) as [-> ->]. destruct (drainOne_books w t p) as [-> ->].
  cbn [length]. split; [lia|done].
Qed.

(** A gateway that holds nothing. *)
Lemma balance_emptied t :
  wg_inflight (wt_gateway t) = ∅ → wg_batchStates (wt_gateway t) = ∅ →
  consistent (wt_gateway t) ∧ balance t = ct_Active (wt_counters t) - wreported (wt_out t).
Proof.
  intros Hi Hb. split.
  - intros L s. by rewrite Hb, lookup_empty.
  - unfold balance, holds, singles, sumBatches. rewrite Hi, Hb, map_filter_empty, map_size_empty,
      map_to_list_empty. change (sumZ _ []) with 0. lia.
Qed.

Lemma drain_books w t :
  consistent (wt_gateway (drain w t)) ∧
  balance (drain w t) = balance t + untrackedMembers (wt_gateway t).
Proof.
  set (l := range_map (wg_inflight (wt_gateway t))).
  destruct (drainLoop_books w l t) as [HA HR].
  destruct (balance_emptied (drain w t) eq_refl eq_refl) as [HC HB].
  split; [exact HC|]. rewrite HB.
  change (ct_Active (wt_counters (drain w t))) with (ct_Active (wt_counters (foldl (drainOne w) t l))).
  change (wt_out (drain w t)) with (wt_out (foldl (drainOne w) t l)). rewrite HA, HR.
  unfold balance, holds.
  assert (Hlen : Z.of_nat (length l) = Z.of_nat (size (wg_inflight (wt_gateway t)))).
  { unfold l. by rewrite range_map_perm, length_map_to_list. }
  rewrite Hlen, tracked_partition. unfold untrackedMembers, sumBatches.
  rewrite (sumZ_sub (λ p, batchSlots p.2)). lia.
Qed.

(** ** A new registration *)

Lemma apply_books worker t :
  consistent (wt_gateway t) →
  consistent (wt_gateway (apply worker t)) ∧ balance (apply worker t) = balance t.
Proof.
  intros Hc. unfold apply. set (l := range_keys _). set (body := λ (t : WebhookTurn (B := B)) queue, _).
  assert (Hl : ∀ l t0, wt_gateway (foldl body t0 l) = wt_gateway t0 ∧
    wt_counters (foldl body t0 l) = wt_counters t0 ∧
    wreported (wt_out (foldl body t0 l)) = wreported (wt_out t0)).
  { intros l0. induction l0 as [|q l0 IH]; intros t0; [done|]. cbn [foldl].
    destruct (IH (body t0 q)) as (-> & -> & ->). unfold body. case_decide; [done|].
    cbn [sends set wt_gateway wt_counters wt_out]. rewrite wreported_app, wreported_one.
    split_and!; [done..|]. cbn. lia. }
  destruct (Hl l t) as (Hg & Hk & Hr). set (t1 := foldl body t l) in *. clearbody t1.
  set (t2 := on_webhook _ t1).
  assert (H2 : consistent (wt_gateway t2) ∧ balance t2 = balance t).
  { split; [intros L s; unfold members; cbn; rewrite !Hg; apply Hc|].
    unfold balance, holds, singles. cbn. by rewrite Hg, Hk, Hr. }
  clearbody t2. destruct H2 as [Hc2 HB2].
  destruct (newestSecret worker) as [secret|].
  - set (t3 := on_webhook _ t2).
    destruct (books_then false 0 t2 t3 (register t3) ltac:(apply books_webhook; repeat split)
      (books_register false t3) Hc2) as [Hc3 HB3]. split; [done|].
    assert (unservedBatched (wt_gateway (register t3)) = unservedBatched (wt_gateway t2)) as HE
      by (rewrite register_gateway; done). lia.
  - destruct (books_sends false 0 WPanic t2 eq_refl ltac:(done) Hc2) as [Hc3 HB3]. split; [done|].
    change (wt_gateway (sends WPanic t2)) with (wt_gateway t2) in HB3. lia.
Qed.
End Facts.
