(* ===== verification/WebhookGatewayProps.v ===== *)
(** * What the webhook gateway guarantees

    Accounting, endpoint health, settlement and lease upkeep of
    internal/actors/webhook_gateway.go. The theorems about leases are proved
    against the [LeaseContract] of a task log; the witnesses run them on the
    in-memory broker. *)

From S2P Require Import Prelude Proto Events BrokerApi Memory MemoryFacts MemoryInv.
From S2P Require Import MemoryLease Backoff Messages TaskLog Gateway GatewayFacts.
From S2P Require Import MemorySteps MemoryProps GatewayProps Webhook WebhookGateway WebhookFacts.
From Stdlib Require Import Strings.Byte.

#[local] Open Scope Z_scope.

(** ** Accounting *)

(** The deliveries a message brings in: tasks its queue grain has already
    counted as active, or a report that was withheld. *)
Definition warrivals (m : webhookMessage) : Z :=
  match m with
  | WExecuteTask _ => 1
  | WExecuteBatch m => Z.of_nat (length (eb_Tasks m))
  | WDeferredCompletion _ _ _ => 1
  | _ => 0
  end.

Section Accounting.
Context {MR : MapRange} {CB : CircuitBreakers} {B : Type} `{TL : TaskLog B}.
Implicit Types (t : WebhookTurn (B := B)) (w : World).

(** What the senders guarantee: every lease of the log has an id of its own, so
    that a batch's is no other delivery's, and the tasks of a batch are distinct
    and fewer than a 32-bit count holds. *)
Definition wacceptable t (m : webhookMessage) : Prop :=
  let g := wt_gateway t in
  match m with
  | WExecuteTask m => wg_batchStates g !! et_LeaseId m = None
  | WExecuteBatch m =>
      NoDup (env_Id <$> eb_Tasks m) ∧
      wg_batchStates g !! eb_LeaseId m = None ∧
      (∀ id entry, wg_inflight g !! id = Some entry → if_leaseID entry ≠ eb_LeaseId m) ∧
      Z.of_nat (length (eb_Tasks m)) < 2 ^ 31
  | _ => True
  end.

(** The first exception: a delivery of a task the gateway still tracks as a
    single delivery replaces it. *)
Definition wreplaced t (m : webhookMessage) : Z :=
  match m with
  | WExecuteTask m => alreadySingle (wt_gateway t) (env_Id (et_Task m))
  | WExecuteBatch m => sumZ (alreadySingle (wt_gateway t)) (env_Id <$> eb_Tasks m)
  | _ => 0
  end.

(** The second: a drain forgets the members of open batches that are no longer
    tracked. *)
Definition abandoned t (m : webhookMessage) : Z :=
  match m with WDrainSession => untrackedMembers (wt_gateway t) | _ => 0 end.

(** The third: what ends for a queue the registration has dropped is reported to
    nobody: the single deliveries that resolve and whose report is not
    scheduled, the batches that close, the scheduled reports that come due. *)
Definition silenced t (m : webhookMessage) t' : Z :=
  match m with
  | WDelivery _ | WBatchDelivery _ | WLeaseResult _ =>
      (unsettled t - unsettled t') +
      (unservedBatched (wt_gateway t) - unservedBatched (wt_gateway t'))
  | WRegisterTick | WLeaseHeartbeat _ _ =>
      unservedBatched (wt_gateway t) - unservedBatched (wt_gateway t')
  | WDeferredCompletion queue _ _ => if serves (wt_gateway t) queue then 0 else 1
  | _ => 0
  end.

(** C20: every webhook delivery is accounted for exactly once, up to three leaks
    that are stated exactly. Whatever message the gateway handles, [Active] less
    the deliveries it holds less what it reported changes by the arrivals, a
    batch being held until its last member resolves and then reported as one,
    and beyond them only by: the single deliveries a new delivery of the same
    task replaces; the untracked members of open batches that a drain forgets;
    and what ends for a queue the registration no longer lists. Every open batch
    goes on waiting for the members it has tracked. *)
Theorem webhook_accounts_deliveries w m t :
  consistent (wt_gateway t) → wacceptable t m →
  let t' := Receive w m t in
  consistent (wt_gateway t') ∧
  balance t' = balance t - warrivals m + wreplaced t m + abandoned t m + silenced t m t'.
Proof.
  intros Hc Ha t'. subst t'.
  destruct m; cbn [Receive warrivals wacceptable wreplaced abandoned silenced] in *.
  - set (t1 := on_webhook _ t).
    destruct (books_plain t (register t1) 0) as [H1 H2]; [|done|done| |split; [done|lia]].
    + eapply books_then; [|apply books_register]. apply books_webhook. repeat split.
    + by rewrite register_gateway.
  - assert (H : settles_books false 0 t (Receive w WRegisterTick t)).
    { cbn [Receive]. eapply books_then; [|apply books_reapStaleAsync].
      eapply books_then; [|apply books_extendLeases].
      eapply books_then; [apply books_sync|apply books_register]. }
    destruct (H Hc) as [H1 H2]. cbn [Receive] in *. split; [done|lia].
  - destruct (apply_books worker t Hc) as [H1 H2]. split; [done|lia].
  - destruct (drain_books w t) as [H1 H2]. split; [exact H1|].
    rewrite (same_books_balance 0 (drain w t) (sends _ (drain w t))); [lia|done|].
    cbn [sends set wt_out wt_counters]. rewrite wreported_app, wreported_one. cbn [wreports]. lia.
  - destruct (deliver_books w m t Ha Hc) as [H1 H2]. split; [done|lia].
  - destruct Ha as (Hn & HL & Hf & Hlen).
    destruct (deliverBatch_books w m t Hn HL Hf Hlen Hc) as [H1 H2]. split; [done|lia].
  - destruct (books_complete w m t Hc) as [H1 H2]. split; [done|lia].
  - destruct (books_completeBatch w m t Hc) as [H1 H2]. split; [done|lia].
  - destruct (books_heartbeatAsync w taskID leaseID t Hc) as [H1 H2]. split; [done|lia].
  - destruct (books_resultAsync w m t Hc) as [H1 H2]. split; [done|lia].
  - destruct (cancelActive_books taskID t Hc) as [H1 H2]. split; [done|lia].
  - destruct (books_report t queue taskID success) as (G & K & R & _). rewrite G. split; [done|].
    unfold balance. rewrite G, K, R. destruct (serves _ _); lia.
  - split; [done|lia].
  - destruct (books_plain t (sends WUnhandled t) 0) as [H1 H2]; [by apply books_sends|done..|].
    split; [done|lia].
Qed.
End Accounting.

(** ** A sample registration *)

#[local] Existing Instance elements_range.
#[local] Existing Instance sample_breakers.

Definition sample_worker : WebhookWorker :=
  mkWebhookWorker "hook" "https://hook.example/rpc" (<["mail" := 1]> ∅) 4 ["s2"; "s1"] ["send"]
    (5 * Second) false.

(** The gateway of the registration, over a log in which "a" and "b" are leased
    under "L1". *)
Definition webhook_start : WebhookTurn :=
  mkWebhookTurn (default (mkWebhookGateway sample_worker (Backoff.New 1 1) "" "" ∅ ∅ ∅ ∅ ∅
      (0, 0) 0 false 0 false false ∅) (PreStart gateway_settings sample_worker))
    leased_store noCounters [].

Definition sample_batch : ExecuteBatch :=
  mkExecuteBatch [sample_task "a" sample_options; sample_task "b" sample_options] "L1" 110 "g".

(** Both tasks posted as one batch, and the first of them answered. *)
Definition webhook_batch : WebhookTurn :=
  Receive (sample_world true) (WExecuteBatch sample_batch) webhook_start.

Definition half_answer : webhookBatchDelivery :=
  mkWebhookBatchDelivery "L1"
    (<["a" := mkWebhookDelivery "a" OutcomeCompleted ""]>
      (<["b" := mkWebhookDelivery "b" OutcomeAccepted ""]> ∅)) "".

Definition webhook_half : WebhookTurn :=
  Receive (sample_world true) (WBatchDelivery half_answer) webhook_batch.

(** A batch of two whose first member completed and whose second was accepted
    for later; a drain then leaves the completed member on the gauge. *)
Lemma webhook_accounts_deliveries_witness :
  consistent (wt_gateway webhook_half) ∧ balance webhook_half = balance webhook_start - 2 ∧
  balance (Receive (sample_world true) WDrainSession webhook_half) = balance webhook_half + 1.
Proof.
  destruct (balance_emptied webhook_start ltac:(vm_compute; reflexivity) ltac:(vm_compute; reflexivity))
    as [C0 _].
  destruct (webhook_accounts_deliveries (sample_world true) (WExecuteBatch sample_batch) webhook_start C0)
    as [C1 E1].
  { split; [apply (bool_decide_unpack _); vm_compute; reflexivity|].
    split; [vm_compute; reflexivity|split; [|cbn; lia]].
    intros id entry. change (wg_inflight (wt_gateway webhook_start)) with (∅ : gmap string inflightTask).
    by rewrite lookup_empty. }
  destruct (webhook_accounts_deliveries (sample_world true) (WBatchDelivery half_answer) webhook_batch C1 I)
    as [C2 E2].
  destruct (webhook_accounts_deliveries (sample_world true) WDrainSession webhook_half C2 I) as [_ E3].
  split; [exact C2|].
  assert (silenced webhook_batch (WBatchDelivery half_answer) webhook_half = 0) as E4
    by (vm_compute; reflexivity).
  assert (untrackedMembers (wt_gateway webhook_half) = 1) as E5 by (vm_compute; reflexivity).
  assert (wreplaced webhook_start (WExecuteBatch sample_batch) = 0) as E6 by (vm_compute; reflexivity).
  change (warrivals (WExecuteBatch sample_batch)) with 2 in E1.
  fold webhook_batch in E1. fold webhook_half in E2.
  change (silenced webhook_start _ _) with 0 in E1. change (abandoned webhook_start _) with 0 in E1.
  cbn [warrivals wreplaced abandoned silenced] in E2, E3. cbn [silenced] in E4. split; lia.
Defined.

(** ** Endpoint health *)

Inductive health := Healthy | Withheld | Probing.

#[global] Instance health_eq_dec : EqDecision health.
Proof. solve_decision. Defined.

Section Health.
Context {MR : MapRange} {CB : CircuitBreakers} {B : Type} `{TL : TaskLog B}.
Implicit Types (t : WebhookTurn (B := B)) (w : World) (g : WebhookGateway).

Definition healthOf g : health :=
  if wg_withholding g then Withheld else if wg_probing g then Probing else Healthy.

Definition exclusive g : Prop := wg_withholding g = true → wg_probing g = false.

(** The capacity a gateway in some health announces for a queue. *)
Definition announced (h : health) g (queue : string) : Z :=
  match h with
  | Withheld => 0
  | Probing => 1
  | Healthy => default 0 (wg_capacities g !! queue)
  end.

(** How health may change in one turn, given the breaker after it and how long
    capacity had been withheld. *)
Inductive healthStep (now : Time) (breaker : Breaker) (timeout withheldFor : Duration)
    : health → health → Prop :=
  | health_stays h : healthStep now breaker timeout withheldFor h h
  | health_opens : State now breaker = BreakerOpen →
      healthStep now breaker timeout withheldFor Healthy Withheld
  | health_probes : timeout <= withheldFor →
      healthStep now breaker timeout withheldFor Withheld Probing
  | health_recovers : State now breaker = BreakerClosed →
      healthStep now breaker timeout withheldFor Probing Healthy
  | health_relapses : State now breaker = BreakerOpen →
      healthStep now breaker timeout withheldFor Probing Withheld.

(** The registration message of a queue, at a given capacity. *)
Definition announcement g (queue : string) (weight cap : Z) : webhookEffect :=
  WToGrain queue (MRegisterGateway (mkRegisterGateway queue (wg_name g) cap
    (wh_BatchTypes (wg_registration g)) weight)).

(** Steps that touch neither the health nor the registration. *)
Definition same_health g g' : Prop :=
  (wg_registration g', wg_name g', wg_capacities g') =
    (wg_registration g, wg_name g, wg_capacities g) ∧
  (wg_endpointBreaker g', wg_breakerOpenTimeout g') = (wg_endpointBreaker g, wg_breakerOpenTimeout g) ∧
  (wg_withholding g', wg_withheldAt g', wg_probing g') =
    (wg_withholding g, wg_withheldAt g, wg_probing g).

Definition quiet t t' : Prop :=
  same_health (wt_gateway t) (wt_gateway t') ∧ (∀ e, e ∈ wt_out t → e ∈ wt_out t').

Lemma quiet_refl t : quiet t t.
Proof. done. Qed.

Lemma quiet_trans t1 t2 t3 : quiet t1 t2 → quiet t2 t3 → quiet t1 t3.
Proof.
  intros [(A1 & B1 & C1) O1] [(A2 & B2 & C2) O2].
  split; [split; [congruence|split; congruence]|]. intros e He. by apply O2, O1.
Qed.

Lemma quiet_sends e t : quiet t (sends e t).
Proof. split; [done|]. intros e' He. cbn. apply elem_of_app. by left. Qed.

Lemma quiet_frame t t' :
  same_health (wt_gateway t) (wt_gateway t') → wt_out t' = wt_out t → quiet t t'.
Proof. intros H E. split; [done|]. by rewrite E. Qed.

Lemma quiet_foldl {A} (f : WebhookTurn (B := B) → A → WebhookTurn) l t :
  (∀ t x, quiet t (f t x)) → quiet t (foldl f t l).
Proof.
  intros H. revert t. induction l as [|x l IH]; intros t; [apply quiet_refl|].
  cbn. eapply quiet_trans; [apply H|apply IH].
Qed.

Lemma quiet_register t : quiet t (register t).
Proof.
  unfold register. destruct (wg_draining _); [apply quiet_refl|].
  apply quiet_foldl. intros t1 [queue weight]. apply quiet_sends.
Qed.

Lemma quiet_abort id t : quiet t (abortRequest id t).
Proof.
  unfold abortRequest. case_match; [|apply quiet_refl].
  eapply quiet_trans; [apply quiet_sends|]. by apply quiet_frame.
Qed.

Lemma quiet_member L s success t : quiet t (resolveBatchMember L s success t).
Proof.
  unfold resolveBatchMember, reportBatchCompletion. destruct (0 <? _); [by apply quiet_frame|].
  destruct (negb _); [by apply quiet_frame|].
  eapply quiet_trans; [|apply quiet_sends]. by apply quiet_frame.
Qed.

Lemma quiet_report queue id success t : quiet t (reportCompletion queue id success t).
Proof. unfold reportCompletion. destruct (negb _); [apply quiet_refl|apply quiet_sends]. Qed.

Lemma quiet_resolveDelivery w id result t : quiet t (resolveDelivery w id result t).
Proof.
  unfold resolveDelivery, resolveDependents, deferCompletion. case_match; [|apply quiet_refl].
  destruct (applyOutcome _ _ _ _ _) as [[b k] [success terminal]].
  set (t1 := on_webhook (recordTypeOutcome _ _ _) _).
  assert (H1 : quiet t t1) by (apply quiet_frame; [by destruct (res_Outcome result)|done]).
  set (t2 := if terminal then _ else t1).
  assert (H2 : quiet t t2).
  { unfold t2. destruct terminal, (wk_resolver w); try done.
    eapply quiet_trans; [exact H1|apply quiet_sends]. }
  clearbody t2. case_match; (eapply quiet_trans; [exact H2|]); [apply quiet_member|].
  eapply quiet_trans; [by apply (quiet_frame t2 (on_webhook (λ g, g <| wg_typeBreakers :=
    <[if_taskType i := typeBreakerFor (wt_gateway t2) (if_taskType i)]> (wg_typeBreakers g) |>) t2))|].
  destruct (isOpen _ _); [destruct (wk_schedule_ok w); [apply quiet_sends|]|]; apply quiet_report.
Qed.

Lemma quiet_dropDelivery id entry notify t : quiet t (dropDelivery id entry notify t).
Proof.
  unfold dropDelivery, refillCredit. set (t1 := if notify then _ else _).
  assert (H1 : quiet t t1).
  { unfold t1. destruct notify; [eapply quiet_trans; [|apply quiet_sends]|]; by apply quiet_frame. }
  clearbody t1. case_match; (eapply quiet_trans; [exact H1|]); [apply quiet_member|].
  destruct (negb _); [by apply quiet_frame|].
  eapply quiet_trans; [|apply quiet_sends]. by apply quiet_frame.
Qed.

(** ** One change of health at a time *)

Definition announces t' : Prop :=
  ∀ queue weight, wh_Queues (wg_registration (wt_gateway t')) !! queue = Some weight →
    announcement (wt_gateway t') queue weight (announced (healthOf (wt_gateway t')) (wt_gateway t') queue)
      ∈ wt_out t'.

Definition advances w t t' : Prop :=
  exclusive (wt_gateway t) →
  exclusive (wt_gateway t') ∧
  healthStep (wk_now w) (wg_endpointBreaker (wt_gateway t'))
    (wg_breakerOpenTimeout (wt_gateway t)) (time_Sub (wk_now w) (wg_withheldAt (wt_gateway t)))
    (healthOf (wt_gateway t)) (healthOf (wt_gateway t')) ∧
  (healthOf (wt_gateway t') ≠ healthOf (wt_gateway t) → wg_draining (wt_gateway t) = false →
   announces t').

Lemma quiet_health t t' : quiet t t' → healthOf (wt_gateway t') = healthOf (wt_gateway t).
Proof. intros [(_ & _ & E) _]. injection E as Ew _ Ep. unfold healthOf. by rewrite Ew, Ep. Qed.

Lemma advances_stays w t t' :
  wg_withholding (wt_gateway t') = wg_withholding (wt_gateway t) →
  wg_probing (wt_gateway t') = wg_probing (wt_gateway t) → advances w t t'.
Proof.
  intros HW HP Hx. assert (healthOf (wt_gateway t') = healthOf (wt_gateway t)) as E.
  { unfold healthOf. by rewrite HW, HP. }
  split; [unfold exclusive; by rewrite HW, HP|]. rewrite E. split; [constructor|done].
Qed.

Lemma advances_quiet w t t1 t2 : advances w t t1 → quiet t1 t2 → advances w t t2.
Proof.
  intros H Hq Hx. destruct (H Hx) as (H1 & H2 & H3). pose proof (quiet_health _ _ Hq) as E.
  destruct Hq as [(A & Bk & C) O]. injection A as Er En Ec. injection Bk as Eb _.
  injection C as Ew _ Ep. rewrite E, Eb. split; [unfold exclusive in *; by rewrite Ew, Ep|].
  split; [done|]. intros Hne Hd queue weight Hqw. rewrite E.
  rewrite Er in Hqw. unfold announcement, announced. rewrite Er, En, Ec.
  apply O. by apply (H3 Hne Hd).
Qed.

Lemma capacity_announced g queue : capacity g queue = announced (healthOf g) g queue.
Proof. unfold capacity, healthOf. by destruct (wg_withholding g), (wg_probing g). Qed.

Lemma register_announces t : wg_draining (wt_gateway t) = false → announces (register t).
Proof.
  intros Hd queue weight Hq. rewrite register_gateway in *. unfold register. rewrite Hd.
  rewrite <- capacity_announced. set (g := wt_gateway t) in *.
  apply elem_of_range_map in Hq. revert Hq. generalize (range_map (wh_Queues (wg_registration g))) as l.
  intros l. generalize t as t0. induction l as [|[q x] l IH]; intros t0 Hin; [by apply not_elem_of_nil in Hin|].
  cbn [foldl]. apply elem_of_cons in Hin as [[= <- <-]|Hin]; [|by apply IH].
  set (f := λ (t : WebhookTurn (B := B)) '(queue, weight), _).
  eapply (quiet_foldl f); [intros ? [? ?]; apply quiet_sends|].
  cbn. apply elem_of_app. right. left.
Qed.

Lemma advances_sync w t : advances w t (syncBreakerCapacity w t).
Proof.
  unfold syncBreakerCapacity. set (g := wt_gateway t).
  destruct (negb (wg_withholding g) && negb (wg_probing g) && isOpen (wk_now w) (wg_endpointBreaker g)) eqn:E1.
  { apply andb_true_iff in E1 as [E1 Eo]. apply andb_true_iff in E1 as [Ew Ep].
    apply negb_true_iff in Ew, Ep. apply bool_decide_eq_true in Eo. intros Hx.
    split; [unfold exclusive; by rewrite register_gateway|]. split.
    - rewrite register_gateway. unfold healthOf at 1. fold g. rewrite Ew, Ep. by constructor.
    - intros _ Hd. by apply register_announces. }
  destruct (wg_withholding g && _) eqn:E2; [|by apply advances_stays].
  apply andb_true_iff in E2 as [Ew Et]. apply Z.leb_le in Et. intros Hx.
  split; [unfold exclusive; by rewrite register_gateway|]. split.
  - rewrite register_gateway. unfold healthOf at 1. fold g. rewrite Ew. by constructor.
  - intros _ Hd. by apply register_announces.
Qed.

Lemma advances_transport w failed t : advances w t (recordTransport w failed t).
Proof.
  unfold recordTransport. set (t1 := on_webhook _ t). destruct (wg_probing (wt_gateway t)) eqn:Ep.
  - intros Hx. assert (Ew : wg_withholding (wt_gateway t) = false).
    { destruct (wg_withholding (wt_gateway t)) eqn:Ew; [|done]. by rewrite (Hx Ew) in Ep. }
    unfold resolveProbe. destruct (State _ _) eqn:Es.
    + split; [unfold exclusive; by rewrite register_gateway|]. split.
      * rewrite register_gateway. unfold healthOf. cbn. rewrite Ew, Ep. by constructor.
      * intros _ Hd. by apply register_announces.
    + split; [unfold exclusive; by rewrite register_gateway|]. split.
      * rewrite register_gateway. unfold healthOf. cbn. rewrite Ew, Ep. by constructor.
      * intros _ Hd. by apply register_announces.
    + by apply (advances_stays w t t1).
  - exact (advances_sync w t1).
Qed.

Lemma quiet_extendLeases w t : quiet t (extendLeases w t).
Proof.
  apply quiet_foldl. intros t1 [id entry]. unfold extendOne. case_decide; [apply quiet_refl|].
  destruct (log_ExtendLease _ _ _ _ _) as [b err]. destruct err as [[]|]; try by apply quiet_frame.
  eapply quiet_trans; [|apply quiet_dropDelivery]. eapply quiet_trans; [|apply quiet_abort].
  by apply quiet_frame.
Qed.

Lemma quiet_reapStaleAsync w t : quiet t (reapStaleAsync w t).
Proof.
  apply quiet_foldl. intros t1 [id beat]. unfold reapStale. destruct (_ <=? _); [apply quiet_refl|].
  case_match; [apply quiet_dropDelivery|by apply quiet_frame].
Qed.

Lemma quiet_completeMember w message t id : quiet t (completeMember w message t id).
Proof.
  unfold completeMember. case_decide; [apply quiet_refl|].
  match goal with |- context [if ?b then _ else _] => destruct b end;
    [by apply quiet_frame|apply quiet_resolveDelivery].
Qed.

(** Other steps that keep the flags. *)
Lemma drain_flags w t :
  wg_withholding (wt_gateway (drain w t)) = wg_withholding (wt_gateway t) ∧
  wg_probing (wt_gateway (drain w t)) = wg_probing (wt_gateway t).
Proof.
  assert (H : quiet t (foldl (drainOne w) t (range_map (wg_inflight (wt_gateway t))))).
  { apply quiet_foldl. intros t1 [id entry]. unfold drainOne.
    eapply quiet_trans; [|by apply (quiet_frame (abortRequest id (on_webhook_log
      (log_Release id (if_leaseID entry) (wk_now w) (wt_log t1)).1 t1)))].
    eapply quiet_trans; [|apply quiet_abort]. by apply quiet_frame. }
  destruct H as [(_ & _ & E) _]. injection E as Ew _ Ep. split; [exact Ew|exact Ep].
Qed.

Lemma apply_flags worker t :
  wg_withholding (wt_gateway (apply worker t)) = wg_withholding (wt_gateway t) ∧
  wg_probing (wt_gateway (apply worker t)) = wg_probing (wt_gateway t).
Proof.
  unfold apply. set (l := range_keys _). set (body := λ (t : WebhookTurn (B := B)) queue, _).
  assert (H : quiet t (foldl body t l)).
  { apply quiet_foldl. intros t1 q. unfold body. case_decide; [apply quiet_refl|apply quiet_sends]. }
  destruct H as [(_ & _ & E) _]. injection E as Ew _ Ep.
  destruct (newestSecret worker); rewrite ?register_gateway; split; [exact Ew|exact Ep|exact Ew|exact Ep].
Qed.

(** The announced capacity follows the endpoint's health, one step at a
    time. Withholding and probing exclude each other; in one turn health stays,
    or a healthy gateway withholds because its breaker is open, or a withheld
    one probes once the open timeout has lapsed, or a probing one recovers
    because the breaker closed or relapses because it opened again. A change is
    announced in the same turn to every registered queue, unless the gateway is
    draining: no capacity while withheld, a single slot while probing, the
    queue's share when healthy. *)
Theorem webhook_health_follows_breaker w m t :
  exclusive (wt_gateway t) →
  let t' := Receive w m t in
  exclusive (wt_gateway t') ∧
  healthStep (wk_now w) (wg_endpointBreaker (wt_gateway t'))
    (wg_breakerOpenTimeout (wt_gateway t)) (time_Sub (wk_now w) (wg_withheldAt (wt_gateway t)))
    (healthOf (wt_gateway t)) (healthOf (wt_gateway t')) ∧
  (healthOf (wt_gateway t') ≠ healthOf (wt_gateway t) → wg_draining (wt_gateway t) = false →
   ∀ queue weight, wh_Queues (wg_registration (wt_gateway t')) !! queue = Some weight →
     announcement (wt_gateway t') queue weight (announced (healthOf (wt_gateway t')) (wt_gateway t') queue)
       ∈ wt_out t').
Proof.
  intros Hx t'. enough (H : advances w t t') by by apply H. subst t'.
  assert (HQ : ∀ t1, quiet t t1 → advances w t t1).
  { intros t1 Hq. eapply advances_quiet; [by apply (advances_stays w t t)|done]. }
  destruct m; cbn [Receive].
  - apply advances_stays; by rewrite register_gateway.
  - eapply advances_quiet; [apply advances_sync|].
    eapply quiet_trans; [|apply quiet_reapStaleAsync]. eapply quiet_trans; [|apply quiet_extendLeases].
    apply quiet_register.
  - apply advances_stays; apply apply_flags.
  - apply advances_stays; apply drain_flags.
  - by apply advances_stays.
  - apply advances_stays; unfold deliverBatch; destruct (eb_Tasks m) eqn:E; rewrite ?trackBatch_turn; done.
  - unfold complete. case_decide; [apply HQ, quiet_refl|]. case_decide.
    + eapply advances_quiet; [apply advances_transport|by apply quiet_frame].
    + eapply advances_quiet; [apply advances_transport|apply quiet_resolveDelivery].
  - unfold completeBatch. case_match; [|apply HQ, quiet_refl].
    eapply advances_quiet; [apply advances_transport|]. apply quiet_foldl. intros. apply quiet_completeMember.
  - apply HQ. unfold heartbeatAsync. case_match; [|apply quiet_refl].
    case_decide; [apply quiet_refl|]. case_decide; [apply quiet_refl|].
    destruct (log_ExtendLease _ _ _ _ _) as [b err]. destruct err as [[]|]; try by apply quiet_frame.
    eapply quiet_trans; [|apply quiet_dropDelivery]. by apply quiet_frame.
  - apply HQ. unfold resultAsync. case_match; [|apply quiet_refl]. case_decide; [apply quiet_refl|].
    destruct (negb _); [apply quiet_refl|apply quiet_resolveDelivery].
  - apply HQ. unfold cancelActive. case_match; [|apply quiet_refl].
    eapply quiet_trans; [|case_decide; [apply quiet_sends|apply quiet_abort]]. by apply quiet_frame.
  - apply HQ, quiet_report.
  - apply HQ, quiet_refl.
  - apply HQ, quiet_sends.
Qed.
End Health.

(** Ten failing answers open the sample endpoint's breaker: the gateway
    withholds and says so to its queue. *)
Definition failing_webhook : WebhookTurn :=
  on_webhook (λ g, g <| wg_endpointBreaker := (9, 9) |>) webhook_batch.

Definition failed_batch : webhookBatchDelivery := mkWebhookBatchDelivery "L1" ∅ "connection refused".

Lemma webhook_health_follows_breaker_witness :
  healthOf (wt_gateway failing_webhook) = Healthy ∧
  healthOf (wt_gateway (Receive (sample_world true) (WBatchDelivery failed_batch) failing_webhook)) =
    Withheld ∧
  announcement (wt_gateway failing_webhook) "mail" 1 0 ∈
    wt_out (Receive (sample_world true) (WBatchDelivery failed_batch) failing_webhook).
Proof.
  assert (H1 : healthOf (wt_gateway failing_webhook) = Healthy) by (vm_compute; reflexivity).
  assert (H2 : healthOf (wt_gateway (Receive (sample_world true) (WBatchDelivery failed_batch)
    failing_webhook)) = Withheld) by (vm_compute; reflexivity).
  split; [exact H1|]. split; [exact H2|].
  destruct (webhook_health_follows_breaker (sample_world true) (WBatchDelivery failed_batch) failing_webhook)
    as (_ & _ & H3).
  { intros H. exfalso. vm_compute in H. congruence. }
  assert (Hne : healthOf (wt_gateway (Receive (sample_world true) (WBatchDelivery failed_batch) failing_webhook))
    ≠ healthOf (wt_gateway failing_webhook)) by (rewrite H1, H2; congruence).
  pose proof (H3 Hne ltac:(vm_compute; reflexivity) "mail" 1 ltac:(vm_compute; reflexivity)) as H4.
  rewrite H2 in H4. exact H4.
Defined.
