(* ===== verification/WebhookLeaseProps.v ===== *)
(** * Webhook deliveries and their leases

    How a delivery ends (an answer, a callback, a lost or stale lease) and what
    the gateway's tick keeps, against the lease contract of a task log. *)

From S2P Require Import Prelude Proto Events BrokerApi Memory MemoryFacts MemoryInv.
From S2P Require Import MemoryLease Backoff Messages TaskLog Gateway GatewayFacts.
From S2P Require Import MemorySteps MemoryProps GatewayProps Webhook WebhookGateway WebhookFacts.
From S2P Require Import WebhookGatewayProps.
From Stdlib Require Import Strings.Byte.

#[local] Open Scope Z_scope.

Section Leases.
Context {MR : MapRange} {CB : CircuitBreakers} {B : Type} `{TL : TaskLog B, !LeaseContract B}.
Implicit Types (t : WebhookTurn (B := B)) (w : World) (g : WebhookGateway).

(** ** One resolution *)

(** The tracking a step leaves: the deliveries, their open requests and the
    asynchronous marks. *)
Definition tracking g : gmap string inflightTask * gmap string openRequest * gmap string Time :=
  (wg_inflight g, wg_aborts g, wg_async g).

Lemma member_tracking L s success t :
  tracking (wt_gateway (resolveBatchMember L s success t)) = tracking (wt_gateway t) ∧
  wt_log (resolveBatchMember L s success t) = wt_log t.
Proof. unfold resolveBatchMember, reportBatchCompletion. by repeat case_match. Qed.

Lemma report_tracking queue id success t :
  tracking (wt_gateway (reportCompletion queue id success t)) = tracking (wt_gateway t) ∧
  wt_log (reportCompletion queue id success t) = wt_log t.
Proof. unfold reportCompletion. by case_match. Qed.

Lemma resolveDelivery_shape w id result t entry b k success terminal :
  wg_inflight (wt_gateway t) !! id = Some entry →
  applyOutcome w entry result (wt_log t) (wt_counters t) = (b, k, (success, terminal)) →
  tracking (wt_gateway (resolveDelivery w id result t)) = tracking (forget id (wt_gateway t)) ∧
  wt_log (resolveDelivery w id result t) = b.
Proof.
  intros He Ha. unfold resolveDelivery. rewrite He.
  change (wt_log (on_webhook (forget id) t)) with (wt_log t).
  change (wt_counters (on_webhook (forget id) t)) with (wt_counters t). rewrite Ha.
  set (t1 := on_webhook (recordTypeOutcome _ _ _) _). set (t2 := if terminal then _ else t1).
  assert (H2 : tracking (wt_gateway t2) = tracking (forget id (wt_gateway t)) ∧ wt_log t2 = b).
  { unfold t2, resolveDependents, t1, recordTypeOutcome.
    destruct terminal, (wk_resolver w), (res_Outcome result); done. }
  clearbody t2. clear t1. destruct H2 as [H2 H3]. rewrite <- H2, <- H3. case_match.
  - apply member_tracking.
  - set (t3 := on_webhook _ t2). change (tracking (wt_gateway t2)) with (tracking (wt_gateway t3)).
    change (wt_log t2) with (wt_log t3). unfold deferCompletion.
    destruct (isOpen _ _), (wk_schedule_ok w); try apply report_tracking; done.
Qed.

(** The lease of the resolved delivery has ended, and no other. *)
Lemma resolveDelivery_spec w id result t entry :
  wg_inflight (wt_gateway t) !! id = Some entry → if_leaseID entry ≠ "" → res_TaskId result = id →
  let t' := resolveDelivery w id result t in
  tracking (wt_gateway t') = tracking (forget id (wt_gateway t)) ∧
  ¬ log_held id (if_leaseID entry) (wt_log t') ∧
  (∀ id' lid', id' ≠ id → log_held id' lid' (wt_log t') ↔ log_held id' lid' (wt_log t)).
Proof.
  intros He Hl <-. destruct (applyOutcome w entry result (wt_log t) (wt_counters t))
    as [[b k] [success terminal]] eqn:Ea.
  destruct (resolveDelivery_shape _ _ _ _ _ _ _ _ _ He Ea) as [Ht Hb].
  destruct (applyOutcome_spec _ _ _ _ _ _ _ _ _ Hl Ea) as (H1 & _ & H3 & _).
  cbv zeta. rewrite Hb. done.
Qed.

Lemma register_log t : wt_log (register t) = wt_log t.
Proof.
  unfold register. destruct (wg_draining _); [done|].
  generalize (range_map (wh_Queues (wg_registration (wt_gateway t)))) as l.
  set (f := λ (t : WebhookTurn (B := B)) '(queue, weight), _). intros l.
  assert (H : ∀ t1, wt_log (foldl f t1 l) = wt_log t1); [|apply H].
  induction l as [|[q x] l IH]; intros t1; [done|]. cbn [foldl]. by rewrite IH.
Qed.

Lemma transport_tracking w failed t :
  tracking (wt_gateway (recordTransport w failed t)) = tracking (wt_gateway t) ∧
  wt_log (recordTransport w failed t) = wt_log t.
Proof.
  unfold recordTransport, resolveProbe, syncBreakerCapacity.
  repeat case_match; rewrite ?register_gateway, ?register_log; done.
Qed.

(** The messages that resolve the tracked delivery of [id] under [lease]. *)
Definition resolves (id lease : string) (m : webhookMessage) : Prop :=
  match m with
  | WDelivery d => wd_taskID d = id ∧ wd_outcome d ≠ OutcomeAccepted
  | WLeaseResult r => wr_TaskId r = id ∧ wr_LeaseId r = lease ∧ reportable (wr_Outcome r) = true
  | _ => False
  end.

(** The messages that speak of the delivery of [id]. *)
Definition about (id : string) (m : webhookMessage) : Prop :=
  match m with
  | WDelivery d => wd_taskID d = id
  | WLeaseResult r => wr_TaskId r = id
  | WLeaseHeartbeat taskID _ => taskID = id
  | WCancelActive taskID => taskID = id
  | _ => False
  end.

Lemma untracked_ignored w m t id :
  wg_inflight (wt_gateway t) !! id = None → about id m → Receive w m t = t.
Proof.
  intros Hn Ha. destruct m; try done; cbn in Ha |- *; subst.
  - unfold complete. by rewrite decide_True.
  - unfold heartbeatAsync. by rewrite Hn.
  - unfold resultAsync. by rewrite Hn.
  - unfold cancelActive. by rewrite Hn.
Qed.

(** What the gateway knows of one task. *)
Definition view t (id : string) : option inflightTask * option openRequest * option Time :=
  (wg_inflight (wt_gateway t) !! id, wg_aborts (wt_gateway t) !! id, wg_async (wt_gateway t) !! id).

Lemma view_tracking t g id :
  tracking (wt_gateway t) = tracking g →
  view t id = (wg_inflight g !! id, wg_aborts g !! id, wg_async g !! id).
Proof. intros H. injection H as Hi Ha Hs. unfold view. by rewrite Hi, Ha, Hs. Qed.

(** ** The answer to a batch *)

(** A step that leaves a task alone: what the gateway knows of it, and its
    leases. *)
Definition untouched (id : string) t t' : Prop :=
  view t' id = view t id ∧
  (∀ lid, log_held id lid (wt_log t') ↔ log_held id lid (wt_log t)).

Lemma untouched_trans id t1 t2 t3 : untouched id t1 t2 → untouched id t2 t3 → untouched id t1 t3.
Proof. intros [V1 L1] [V2 L2]. split; [congruence|]. intros lid. by rewrite L2. Qed.

(** Every tracked delivery has a lease. *)
Definition leased t : Prop :=
  ∀ id entry, wg_inflight (wt_gateway t) !! id = Some entry → if_leaseID entry ≠ "".

(** The endpoint took the member on for later. *)
Definition acceptedMember (d : webhookBatchDelivery) (id : string) : bool :=
  match bd_outcomes d !! id with
  | Some answer => String.eqb (bd_transportError d) "" &&
                   bool_decide (wd_outcome answer = OutcomeAccepted)
  | None => false
  end.

Lemma batchMemberResult_id d id :
  (∀ answer, bd_outcomes d !! id = Some answer → wd_taskID answer = id) →
  res_TaskId (batchMemberResult d id) = id.
Proof.
  intros H. unfold batchMemberResult. case_match; [done|]. case_match eqn:E; [|done].
  by apply H.
Qed.

Lemma completeMember_spec w d t id :
  (∀ id answer, bd_outcomes d !! id = Some answer → wd_taskID answer = id) → leased t →
  let t' := completeMember w d t id in
  leased t' ∧
  (∀ id', id' ≠ id ∨ wg_inflight (wt_gateway t) !! id' = None → untouched id' t t') ∧
  (∀ entry, wg_inflight (wt_gateway t) !! id = Some entry → acceptedMember d id = true →
     view t' id = (Some entry, None, Some (wk_now w)) ∧ wt_log t' = wt_log t) ∧
  (∀ entry, wg_inflight (wt_gateway t) !! id = Some entry → acceptedMember d id = false →
     view t' id = (None, None, None) ∧ ¬ log_held id (if_leaseID entry) (wt_log t')).
Proof.
  intros Hd Hls. cbv zeta. unfold completeMember. case_decide as Hn.
  { split; [done|]. split; [by intros; split|]. by split; intros; congruence. }
  fold (acceptedMember d id).
  destruct (wg_inflight (wt_gateway t) !! id) as [entry|] eqn:He; [|done].
  destruct (acceptedMember d id) eqn:Ha.
  - split; [exact Hls|]. split; [|split; [|done]].
    + intros id' Hid. assert (id' ≠ id) by (destruct Hid; [done|congruence]).
      split; [|done]. unfold view. cbn. by rewrite lookup_delete_ne, lookup_insert_ne by done.
    + intros ? [= <-] _. unfold view. cbn. by rewrite He, lookup_delete_eq, lookup_insert_eq.
  - destruct (resolveDelivery_spec w id (batchMemberResult d id) t entry He (Hls _ _ He)
      (batchMemberResult_id d id (Hd id))) as (H1 & H2 & H3). split; [|split; [|split; [done|]]].
    + intros id' e' Hi. injection H1 as Hi1 _ _. rewrite Hi1 in Hi.
      apply lookup_delete_Some in Hi as [_ Hi]. by apply (Hls id').
    + intros id' Hid. assert (id' ≠ id) by (destruct Hid; [done|congruence]). split; [|by intros; apply H3].
      rewrite (view_tracking _ _ _ H1). unfold view. cbn. by rewrite !lookup_delete_ne by done.
    + intros ? [= <-] _. split; [|done]. rewrite (view_tracking _ _ _ H1). cbn.
      by rewrite !lookup_delete_eq.
Qed.

Lemma batch_loop_spec w d l t :
  (∀ id answer, bd_outcomes d !! id = Some answer → wd_taskID answer = id) → leased t →
  let t' := foldl (completeMember w d) t l in
  leased t' ∧
  (∀ id, id ∉ l ∨ wg_inflight (wt_gateway t) !! id = None → untouched id t t') ∧
  (∀ id entry, id ∈ l → wg_inflight (wt_gateway t) !! id = Some entry → acceptedMember d id = true →
     view t' id = (Some entry, None, Some (wk_now w)) ∧
     (∀ lid, log_held id lid (wt_log t') ↔ log_held id lid (wt_log t))) ∧
  (∀ id entry, id ∈ l → wg_inflight (wt_gateway t) !! id = Some entry → acceptedMember d id = false →
     view t' id = (None, None, None) ∧ ¬ log_held id (if_leaseID entry) (wt_log t')).
Proof.
  intros Hd. revert t. induction l as [|x l IH]; intros t Hls; cbv zeta; cbn [foldl].
  { split; [done|]. split; [by intros; split|]. split; intros id e Hin; by apply not_elem_of_nil in Hin. }
  destruct (completeMember_spec w d t x Hd Hls) as (L1 & U1 & A1 & R1). cbv zeta in *.
  set (t1 := completeMember w d t x) in *. destruct (IH t1 L1) as (L2 & U2 & A2 & R2). cbv zeta in *.
  set (t2 := foldl _ t1 l) in *.
  assert (Hsame : ∀ id, id ≠ x → wg_inflight (wt_gateway t1) !! id = wg_inflight (wt_gateway t) !! id).
  { intros id Hne. destruct (U1 id (or_introl Hne)) as [Hv _]. by injection Hv. }
  split; [done|]. split; [|split].
  - intros id Hid. assert (U : untouched id t t1).
    { apply U1. destruct Hid as [Hid|Hid]; [left|by right]. by apply not_elem_of_cons in Hid as [? _]. }
    eapply untouched_trans; [exact U|]. apply U2. destruct Hid as [Hid|Hid].
    + left. by apply not_elem_of_cons in Hid as [_ ?].
    + right. destruct U as [Hv _]. injection Hv as Hi _ _. congruence.
  - intros id entry Hin He Hacc. destruct (decide (id = x)) as [->|Hne].
    + destruct (A1 entry He Hacc) as [Hv Hlog].
      destruct (decide (x ∈ l)) as [Hx|Hx].
      * injection Hv as Hi _ _. destruct (A2 x entry Hx Hi Hacc) as [Hv2 Hh2]. split; [done|].
        intros lid. by rewrite Hh2, Hlog.
      * destruct (U2 x (or_introl Hx)) as [Hv2 Hh2]. split; [congruence|]. intros lid.
        by rewrite Hh2, Hlog.
    + apply elem_of_cons in Hin as [?|Hin]; [done|].
      destruct (A2 id entry Hin ltac:(by rewrite Hsame) Hacc) as [Hv2 Hh2]. split; [done|].
      intros lid. rewrite Hh2. by apply U1; left.
  - intros id entry Hin He Hacc. destruct (decide (id = x)) as [->|Hne].
    + destruct (R1 entry He Hacc) as [Hv Hh]. injection Hv as Hi Hab Has.
      destruct (U2 x (or_intror Hi)) as [Hv2 Hh2]. split; [|by rewrite Hh2].
      rewrite Hv2. unfold view. by rewrite Hi, Hab, Has.
    + apply elem_of_cons in Hin as [?|Hin]; [done|]. apply R2; [done|by rewrite Hsame|done].
Qed.

(** The members a batch answer speaks of: those of the open batch of its
    lease. *)
Definition answers t (d : webhookBatchDelivery) : list string :=
  default [] (wb_members <$> wg_batchStates (wt_gateway t) !! bd_leaseID d).

(** The answers of an endpoint are keyed by the task they are about. *)
Definition keyed_answers (d : webhookBatchDelivery) : Prop :=
  ∀ id answer, bd_outcomes d !! id = Some answer → wd_taskID answer = id.

Lemma completeBatch_spec w d t :
  keyed_answers d → leased t →
  let t' := Receive w (WBatchDelivery d) t in
  (∀ id, id ∉ answers t d ∨ wg_inflight (wt_gateway t) !! id = None → untouched id t t') ∧
  (∀ id entry, id ∈ answers t d → wg_inflight (wt_gateway t) !! id = Some entry →
     acceptedMember d id = false →
     view t' id = (None, None, None) ∧ ¬ log_held id (if_leaseID entry) (wt_log t')) ∧
  (∀ id entry, id ∈ answers t d → wg_inflight (wt_gateway t) !! id = Some entry →
     acceptedMember d id = true →
     view t' id = (Some entry, None, Some (wk_now w)) ∧
     (∀ lid, log_held id lid (wt_log t') ↔ log_held id lid (wt_log t))) ∧
  leased t'.
Proof.
  intros Hd Hls. cbv zeta. cbn [Receive]. unfold completeBatch, answers.
  destruct (wg_batchStates (wt_gateway t) !! bd_leaseID d) as [s|] eqn:Es; cbn [fmap option_fmap option_map from_option].
  2:{ split; [by intros; split|]. split; [|split; [|done]]; intros id e Hin; by apply not_elem_of_nil in Hin. }
  destruct (transport_tracking w (negb (String.eqb (bd_transportError d) "")) t) as [Htr Hlog].
  set (t1 := recordTransport _ _ t) in *. injection Htr as Hi Hab Has.
  assert (Hv1 : ∀ id, view t1 id = view t id) by (intros id; unfold view; by rewrite Hi, Hab, Has).
  destruct (batch_loop_spec w d (wb_members s) t1 Hd) as (L2 & U2 & A2 & R2);
    [unfold leased; by rewrite Hi|]. cbv zeta in *. rewrite Hi in U2, A2, R2. rewrite Hlog in A2.
  change (default [] (Some (wb_members s))) with (wb_members s).
  split; [|split; [done|split; done]].
  intros id Hid. destruct (U2 id Hid) as [Hv2 Hh2]. split; [congruence|]. intros lid.
  by rewrite Hh2, Hlog.
Qed.

(** C21: a webhook delivery settles once. The endpoint's answer, or the callback
    of an accepted delivery, ends the tracking and the lease of the delivery the
    gateway holds for that task, and no other task's; any further answer,
    callback, heartbeat or cancel for the task changes nothing. A callback under
    another lease, or with an outcome an endpoint may not report, changes
    nothing, so a superseded delivery cannot settle the current one through a
    callback; a direct answer carries no lease, and one that arrives late
    settles the delivery that replaced its own. The answer to a batch ends, in
    the same way, every tracked member that it does not accept for later, keeps
    the accepted ones with their leases as asynchronous deliveries, leaves every
    task outside the batch alone, and no later answer to a batch touches a
    settled member. *)
Theorem webhook_settles_once w m t id entry :
  leased t → wg_inflight (wt_gateway t) !! id = Some entry →
  (resolves id (if_leaseID entry) m →
   let t' := Receive w m t in
   tracking (wt_gateway t') = tracking (forget id (wt_gateway t)) ∧
   ¬ log_held id (if_leaseID entry) (wt_log t') ∧
   (∀ id' lid', id' ≠ id → log_held id' lid' (wt_log t') ↔ log_held id' lid' (wt_log t)) ∧
   (∀ w' m', about id m' → Receive w' m' t' = t')) ∧
  (∀ r, wr_TaskId r = id → wr_LeaseId r ≠ if_leaseID entry ∨ reportable (wr_Outcome r) = false →
   Receive w (WLeaseResult r) t = t) ∧
  (∀ lease, lease ≠ if_leaseID entry → Receive w (WLeaseHeartbeat id lease) t = t) ∧
  (∀ d, keyed_answers d →
   let t' := Receive w (WBatchDelivery d) t in
   (∀ id', id' ∉ answers t d → untouched id' t t') ∧
   (id ∈ answers t d → acceptedMember d id = false →
     view t' id = (None, None, None) ∧ ¬ log_held id (if_leaseID entry) (wt_log t') ∧
     (∀ w' m', about id m' → Receive w' m' t' = t') ∧
     (∀ w' d', keyed_answers d' → untouched id t' (Receive w' (WBatchDelivery d') t'))) ∧
   (id ∈ answers t d → acceptedMember d id = true →
     view t' id = (Some entry, None, Some (wk_now w)) ∧
     (∀ lid, log_held id lid (wt_log t') ↔ log_held id lid (wt_log t)))).
Proof.
  intros Hls He. pose proof (Hls id entry He) as Hl. split; [|split; [|split]].
  - intros Hm. cbv zeta.
    enough (H : tracking (wt_gateway (Receive w m t)) = tracking (forget id (wt_gateway t)) ∧
      ¬ log_held id (if_leaseID entry) (wt_log (Receive w m t)) ∧
      (∀ id' lid', id' ≠ id → log_held id' lid' (wt_log (Receive w m t)) ↔ log_held id' lid' (wt_log t))).
    { destruct H as (H1 & H2 & H3). repeat (split; [done|]). intros w' m' Ha.
      apply (untracked_ignored _ _ _ id); [|done]. injection H1 as Hi _ _. rewrite Hi. apply lookup_delete_eq. }
    destruct m as [| | | | | |d| | |r| | | |]; try done; cbn [resolves Receive] in *.
    + destruct Hm as [Hid Ho]. unfold complete. rewrite Hid, decide_False by congruence.
      rewrite decide_False by done.
      set (t1 := recordTransport _ _ t). destruct (transport_tracking w
        (bool_decide (wd_outcome d = OutcomeTransportFailure)) t) as [Htr Hlog]. fold t1 in Htr, Hlog.
      injection Htr as Hi Hab Has.
      destruct (resolveDelivery_spec w id (deliveryResult d) t1 entry) as (H1 & H2 & H3);
        [by rewrite Hi|done|done|].
      split; [rewrite H1; unfold tracking; cbn; by rewrite Hi, Hab, Has|]. split; [done|].
      intros. rewrite <- Hlog. by apply H3.
    + destruct Hm as (Hid & HL & Hr). unfold resultAsync. rewrite Hid, He.
      rewrite decide_False by (rewrite HL; auto). rewrite Hr. cbn [negb].
      by apply resolveDelivery_spec.
  - intros r Hid Hbad. cbn [Receive]. unfold resultAsync. rewrite Hid, He. case_decide; [done|].
    destruct Hbad as [?|Hr]; [by exfalso; auto|]. by rewrite Hr.
  - intros lease Hne. cbn [Receive]. unfold heartbeatAsync. rewrite He. by rewrite decide_True.
  - intros d Hd. destruct (completeBatch_spec w d t Hd Hls) as (H1 & H2 & H3 & H4). split; [auto|].
    split; [|by intros; apply H3]. intros Hin Hacc. destruct (H2 id entry Hin He Hacc) as [Hv Hh].
    split; [done|]. split; [done|]. injection Hv as Hi _ _. split.
    + intros w' m' Ha. by apply (untracked_ignored _ _ _ id).
    + intros w' d' Hd'. apply (completeBatch_spec w' d' _ Hd' H4). by right.
Qed.

(** ** The tick *)

(** A step that leaves a task alone: its tracking, its lease, and what was sent
    before. *)
Definition leaves_alone (id : string) t t' : Prop :=
  view t' id = view t id ∧
  (∀ lid, log_held id lid (wt_log t') ↔ log_held id lid (wt_log t)) ∧
  (∀ e, e ∈ wt_out t → e ∈ wt_out t').

Lemma leaves_alone_trans id t1 t2 t3 :
  leaves_alone id t1 t2 → leaves_alone id t2 t3 → leaves_alone id t1 t3.
Proof.
  intros (V1 & L1 & O1) (V2 & L2 & O2). split; [congruence|]. split; [|auto].
  intros lid. by rewrite L2.
Qed.

Lemma dropDelivery_tracking id entry notify t :
  tracking (wt_gateway (dropDelivery id entry notify t)) = tracking (forget id (wt_gateway t)) ∧
  wt_log (dropDelivery id entry notify t) = wt_log t.
Proof.
  unfold dropDelivery, resolveBatchMember, reportBatchCompletion, refillCredit.
  destruct notify; repeat case_match; done.
Qed.

Lemma dropDelivery_other id entry notify t id' :
  id' ≠ id → leaves_alone id' t (dropDelivery id entry notify t).
Proof.
  intros Hne. destruct (dropDelivery_tracking id entry notify t) as [Ht Hl].
  split; [|split; [intros; by rewrite Hl|apply quiet_dropDelivery]].
  rewrite (view_tracking _ _ _ Ht). cbn. unfold view. by rewrite !lookup_delete_ne.
Qed.

Lemma abortRequest_other id t id' :
  id' ≠ id → leaves_alone id' t (abortRequest id t).
Proof.
  intros Hne. split; [|split; [unfold abortRequest; by case_match|apply quiet_abort]].
  unfold abortRequest, view. case_match; [|done]. cbn. by rewrite lookup_delete_ne.
Qed.

Lemma extendOne_other w t id entry id' :
  if_leaseID entry ≠ "" → id' ≠ id → leaves_alone id' t (extendOne w t (id, entry)).
Proof.
  intros Hl Hne. unfold extendOne. case_decide; [done|].
  destruct (log_ExtendLease _ _ _ _ _) as [b err] eqn:E.
  assert (Hb : leaves_alone id' t (on_webhook_log b t)).
  { split; [done|]. split; [|done]. intros lid.
    pose proof (log_others (LExtend (set_LeaseTTL (wk_settings w))) id (if_leaseID entry) (wk_now w)
      (wt_log t) id' lid Hl Hne) as Ho. cbn in Ho. by rewrite E in Ho. }
  destruct err as [[]|]; try done.
  eapply leaves_alone_trans; [exact Hb|].
  eapply leaves_alone_trans; [by apply abortRequest_other|by apply dropDelivery_other].
Qed.

(** The task of the turn: kept when asynchronous or its lease is held, dropped
    with its request aborted when the lease is lost. *)
Lemma extendOne_self w t id entry :
  if_leaseID entry ≠ "" →
  let t' := extendOne w t (id, entry) in
  (is_Some (wg_async (wt_gateway t) !! id) → t' = t) ∧
  (wg_async (wt_gateway t) !! id = None → log_held id (if_leaseID entry) (wt_log t) →
   view t' id = view t id ∧ log_held id (if_leaseID entry) (wt_log t')) ∧
  (wg_async (wt_gateway t) !! id = None → ¬ log_held id (if_leaseID entry) (wt_log t) →
   wg_inflight (wt_gateway t') !! id = None ∧ wg_async (wt_gateway t') !! id = None ∧
   (∀ r, wg_aborts (wt_gateway t) !! id = Some r → WAbort r ∈ wt_out t')).
Proof.
  intros Hl. cbv zeta. unfold extendOne. split; [intros; by rewrite decide_True|].
  split; intros Ha Hh; (rewrite decide_False by (rewrite Ha; by intros [? ?])).
  - destruct (log_accepted (LExtend (set_LeaseTTL (wk_settings w))) id _ (wk_now w) (wt_log t) Hl Hh)
      as [He Hk]. cbn in He, Hk.
    destruct (log_ExtendLease _ _ _ _ _) as [b err]. cbn in He, Hk. subst err.
    split; [done|]. by apply Hk.
  - pose proof (log_refused (LExtend (set_LeaseTTL (wk_settings w))) id _ (wk_now w) (wt_log t) Hl Hh) as E.
    cbn in E. rewrite E. set (t1 := abortRequest id _).
    destruct (dropDelivery_tracking id entry false t1) as [Ht _]. injection Ht as Hi _ Has.
    rewrite Hi, Has, !lookup_delete_eq. split; [done|]. split; [done|]. intros r Hr.
    apply (quiet_dropDelivery id entry false t1). unfold t1, abortRequest. cbn [wt_gateway on_webhook_log set].
    rewrite Hr. cbn. apply elem_of_app. right. left.
Qed.

Lemma extend_loop_other w l t id :
  (∀ p, p ∈ l → if_leaseID p.2 ≠ "") → id ∉ l.*1 → leaves_alone id t (foldl (extendOne w) t l).
Proof.
  revert t. induction l as [|[id' entry] l IH]; intros t Hl Hn; [done|]. cbn [foldl].
  cbn in Hn. apply not_elem_of_cons in Hn as [Hne Hn].
  eapply leaves_alone_trans; [apply (extendOne_other w t id' entry); [apply (Hl (id', entry)); left|done]|].
  apply IH; [|done]. intros p Hp. apply Hl. by right.
Qed.

Lemma extend_loop_self w l t id entry :
  NoDup l.*1 → (∀ p, p ∈ l → if_leaseID p.2 ≠ "") → (id, entry) ∈ l →
  ∃ t1 t2, leaves_alone id t t1 ∧ t2 = extendOne w t1 (id, entry) ∧
    leaves_alone id t2 (foldl (extendOne w) t l).
Proof.
  revert t. induction l as [|[id' entry'] l IH]; intros t Hn Hl Hin; [by apply not_elem_of_nil in Hin|].
  cbn in Hn. apply NoDup_cons in Hn as [Hx Hn]. cbn [foldl].
  assert (Hl' : ∀ p, p ∈ l → if_leaseID p.2 ≠ "") by (intros p Hp; apply Hl; by right).
  apply elem_of_cons in Hin as [[= <- <-]|Hin].
  - exists t, (extendOne w t (id, entry)). split; [done|]. split; [done|]. by apply extend_loop_other.
  - assert (Hne : id ≠ id') by (intros ->; apply Hx; by apply (list_elem_of_fmap_2 fst l (id', entry))).
    destruct (IH (extendOne w t (id', entry')) Hn Hl' Hin) as (t1 & t2 & H1 & H2 & H3).
    exists t1, t2. split; [|done]. eapply leaves_alone_trans; [|exact H1].
    apply extendOne_other; [apply (Hl (id', entry')); left|done].
Qed.

Lemma announce_tracking w t :
  tracking (wt_gateway (register (syncBreakerCapacity w t))) = tracking (wt_gateway t) ∧
  wt_log (register (syncBreakerCapacity w t)) = wt_log t.
Proof.
  rewrite register_gateway, register_log. unfold syncBreakerCapacity.
  repeat case_match; rewrite ?register_gateway, ?register_log; done.
Qed.

(** ** Silent endpoints *)

Definition stale w (beat : Time) : bool :=
  set_LeaseTTL (wk_settings w) <? time_Sub (wk_now w) beat.

Lemma reapStale_other w t id beat id' :
  id' ≠ id → leaves_alone id' t (reapStale w t (id, beat)).
Proof.
  intros Hne. unfold reapStale. destruct (_ <=? _); [done|].
  case_match; [by apply dropDelivery_other|]. split; [|done].
  unfold view. cbn. by rewrite lookup_delete_ne.
Qed.

Lemma reapStale_self w t id beat :
  (stale w beat = false → reapStale w t (id, beat) = t) ∧
  (stale w beat = true → wg_inflight (wt_gateway (reapStale w t (id, beat))) !! id = None).
Proof.
  unfold reapStale, stale.
  destruct (Z.leb_spec (time_Sub (wk_now w) beat) (set_LeaseTTL (wk_settings w))) as [H|H].
  { apply Z.ltb_ge in H. rewrite H. done. }
  apply Z.ltb_lt in H. rewrite H. split; [done|]. intros _. destruct (wg_inflight (wt_gateway t) !! id) eqn:He; [|done].
  by rewrite dropDelivery_inflight, lookup_delete_eq.
Qed.

Lemma reap_loop_other w l t id :
  id ∉ l.*1 → leaves_alone id t (foldl (reapStale w) t l).
Proof.
  revert t. induction l as [|[id' beat] l IH]; intros t Hn; [done|]. cbn [foldl].
  cbn in Hn. apply not_elem_of_cons in Hn as [Hne Hn].
  eapply leaves_alone_trans; [by apply reapStale_other|by apply IH].
Qed.

Lemma reap_loop_self w l t id beat :
  NoDup l.*1 → (id, beat) ∈ l →
  let t' := foldl (reapStale w) t l in
  (stale w beat = false → leaves_alone id t t') ∧
  (stale w beat = true → wg_inflight (wt_gateway t') !! id = None).
Proof.
  revert t. induction l as [|[id' beat'] l IH]; intros t Hn Hin; [by apply not_elem_of_nil in Hin|].
  cbn in Hn. apply NoDup_cons in Hn as [Hx Hn]. cbn [foldl]. cbv zeta.
  apply elem_of_cons in Hin as [[= <- <-]|Hin].
  - destruct (reapStale_self w t id beat) as [Hf Hd].
    pose proof (reap_loop_other w l (reapStale w t (id, beat)) id Hx) as Ho.
    set (t1 := reapStale w t (id, beat)) in *. clearbody t1. split; intros Hs.
    + by rewrite (Hf Hs) in *.
    + destruct Ho as (V & _). injection V as Vi _ _. rewrite Vi. by apply Hd.
  - assert (Hne : id ≠ id') by (intros ->; apply Hx; by apply (list_elem_of_fmap_2 fst l (id', beat))).
    destruct (IH (reapStale w t (id', beat')) Hn Hin) as [H1 H2]. split; [|exact H2].
    intros Hs. eapply leaves_alone_trans; [by apply reapStale_other|by apply H1].
Qed.

Lemma reapStaleAsync_log w t : wt_log (reapStaleAsync w t) = wt_log t.
Proof.
  unfold reapStaleAsync. generalize (range_map (wg_async (wt_gateway t))) as l. intros l.
  revert t. induction l as [|[id beat] l IH]; intros t; [done|]. cbn [foldl]. rewrite IH.
  unfold reapStale. destruct (_ <=? _); [done|]. case_match; [apply dropDelivery_tracking|done].
Qed.

Lemma reapStaleAsync_spec w t id :
  let t' := reapStaleAsync w t in
  (∀ beat, wg_async (wt_gateway t) !! id = Some beat →
     (stale w beat = false → leaves_alone id t t') ∧
     (stale w beat = true → wg_inflight (wt_gateway t') !! id = None)) ∧
  (wg_async (wt_gateway t) !! id = None → leaves_alone id t t').
Proof.
  split.
  - intros beat Hb. apply reap_loop_self; [apply NoDup_fst_range_map|by apply elem_of_range_map].
  - intros Hn. apply reap_loop_other. intros ([id' beat] & -> & Hin)%list_elem_of_fmap.
    apply elem_of_range_map in Hin. cbn in Hn. congruence.
Qed.

(** After a tick each delivery is kept for a reason or given up for one. A
    delivery whose request is open is kept, and still holds its lease, exactly
    when it held it before the tick; otherwise it is forgotten and its request
    aborted. An asynchronous delivery is kept exactly when its endpoint's last
    heartbeat is no older than the lease's lifetime; its lease is left to the
    endpoint. Nothing becomes tracked. *)
Theorem webhook_tick_keeps_or_drops w t id :
  (∀ id entry, wg_inflight (wt_gateway t) !! id = Some entry → if_leaseID entry ≠ "") →
  let t' := Receive w WRegisterTick t in
  (wg_inflight (wt_gateway t) !! id = None → wg_inflight (wt_gateway t') !! id = None) ∧
  ∀ entry, wg_inflight (wt_gateway t) !! id = Some entry →
    match wg_async (wt_gateway t) !! id with
    | Some beat =>
        wg_inflight (wt_gateway t') !! id =
          (if stale w beat then None else Some entry) ∧
        (log_held id (if_leaseID entry) (wt_log t') ↔ log_held id (if_leaseID entry) (wt_log t))
    | None =>
        if log_held_dec id (if_leaseID entry) (wt_log t) then
          wg_inflight (wt_gateway t') !! id = Some entry ∧
          log_held id (if_leaseID entry) (wt_log t')
        else
          wg_inflight (wt_gateway t') !! id = None ∧
          (∀ r, wg_aborts (wt_gateway t) !! id = Some r → WAbort r ∈ wt_out t')
    end.
Proof.
  intros Hl. cbv zeta. cbn [Receive].
  destruct (announce_tracking w t) as [Ht1 Hlog1]. set (t1 := register _) in *. clearbody t1.
  injection Ht1 as Hi1 Ha1 Hs1. rewrite <- Hi1, <- Ha1, <- Hs1, <- Hlog1 in *.
  clear Hi1 Ha1 Hs1 Hlog1 t. rename t1 into t.
  assert (Hl' : ∀ p, p ∈ range_map (wg_inflight (wt_gateway t)) → if_leaseID p.2 ≠ "").
  { intros [id' e'] Hin. apply elem_of_range_map in Hin. by apply (Hl id'). }
  destruct (reapStaleAsync_spec w (extendLeases w t) id) as [HrS HrN].
  unfold extendLeases in *. set (l := range_map (wg_inflight (wt_gateway t))) in *.
  split.
  - intros Hn. destruct (extend_loop_other w l t id Hl') as (V & _ & _).
    { intros ([id' e'] & -> & Hin)%list_elem_of_fmap. apply elem_of_range_map in Hin. cbn in Hn. congruence. }
    set (t2 := foldl _ t l) in *. clearbody t2. injection V as Vi _ Vs.
    destruct (wg_async (wt_gateway t2) !! id) as [beat|] eqn:Hb.
    + destruct (HrS beat eq_refl) as [Hf Hd]. destruct (stale w beat); [by apply Hd|].
      destruct (Hf eq_refl) as (V & _). injection V as Vi' _ _. by rewrite Vi', Vi.
    + destruct (HrN eq_refl) as (V & _). injection V as Vi' _ _. by rewrite Vi', Vi.
  - intros entry He. assert (Hin : (id, entry) ∈ l) by by apply elem_of_range_map.
    assert (Hle : if_leaseID entry ≠ "") by by apply (Hl id).
    destruct (extend_loop_self w l t id entry (NoDup_fst_range_map _) Hl' Hin) as (t1 & t2 & A1 & -> & A2).
    destruct (extendOne_self w t1 id entry Hle) as (Ea & Eh & En).
    destruct A1 as (V1 & L1 & O1). injection V1 as Vi1 Va1 Vs1.
    set (t2 := extendOne w t1 (id, entry)) in *. set (t3 := foldl _ t l) in *. clearbody t2 t3.
    destruct A2 as (V2 & L2 & O2). injection V2 as Vi2 _ Vs2.
    destruct (wg_async (wt_gateway t) !! id) as [beat|] eqn:Hb.
    + rewrite (Ea ltac:(rewrite Vs1; eauto)) in *. rewrite Vs2, Vs1 in HrS.
      destruct (HrS beat eq_refl) as [Hf Hd].
      rewrite reapStaleAsync_log, (L2 (if_leaseID entry)), (L1 (if_leaseID entry)). split; [|done].
      destruct (stale w beat); [by apply Hd|].
      destruct (Hf eq_refl) as (V & _). injection V as Vi _ _. by rewrite Vi, Vi2, Vi1.
    + destruct (log_held_dec id (if_leaseID entry) (wt_log t)) as [Hh|Hh];
        rewrite <- (L1 (if_leaseID entry)) in Hh.
      * destruct (Eh Vs1 Hh) as [V Hh2]. injection V as Vi _ Vs.
        destruct (HrN ltac:(by rewrite Vs2, Vs)) as (V3 & L3 & _). injection V3 as Vi3 _ _.
        split; [by rewrite Vi3, Vi2, Vi, Vi1|]. by apply L3, L2.
      * destruct (En Vs1 Hh) as (Ni & Ns & Nr).
        destruct (HrN ltac:(by rewrite Vs2)) as (V3 & _ & O3). injection V3 as Vi3 _ _.
        split; [by rewrite Vi3, Vi2|]. intros r Hr. apply O3, O2, Nr. by rewrite Va1.
Qed.
End Leases.

#[local] Existing Instance elements_range.
#[local] Existing Instance sample_breakers.

Definition sample_entry : inflightTask :=
  mkInflightTask "L1" 20 "mail" "send" 0 (opt_MaxRetry sample_options) false
    (set_RetryBackoff gateway_settings).

Lemma webhook_half_tracks :
  wg_inflight (wt_gateway webhook_half) = {["b" := sample_entry]} ∧
  wg_async (wt_gateway webhook_half) = {["b" := 20]}.
Proof. split; vm_compute; reflexivity. Qed.

(** The accepted member of the sample batch reports success: its lease ends, and
    a repeated report changes nothing. *)
Definition async_success : WebhookLeaseResult :=
  mkWebhookLeaseResult "b" "L1" TASK_OUTCOME_SUCCESS "" [].

Lemma webhook_half_leased : leased webhook_half.
Proof.
  intros id entry. destruct webhook_half_tracks as [-> _]. by intros [<- <-]%lookup_singleton_Some.
Qed.

Lemma webhook_batch_leased : leased webhook_batch.
Proof.
  intros id entry H.
  assert (Hall : map_Forall (λ _ e, if_leaseID e = "L1") (wg_inflight (wt_gateway webhook_batch)))
    by (by apply (bool_decide_unpack _); vm_compute).
  by rewrite (Hall id entry H).
Qed.

(** The callback of the accepted member "b", twice; and the answer to the batch
    that completed "a". *)
Lemma webhook_settles_once_witness :
  let t' := Receive (sample_world true) (WLeaseResult async_success) webhook_half in
  ¬ held "b" "L1" (wt_log t') ∧
  Receive (sample_world true) (WLeaseResult async_success) t' = t' ∧
  Receive (sample_world true) (WLeaseHeartbeat "b" "L0") webhook_half = webhook_half ∧
  ¬ held "a" "L1" (wt_log webhook_half).
Proof.
  cbv zeta. destruct webhook_half_tracks as [Hi _].
  destruct (webhook_settles_once (sample_world true) (WLeaseResult async_success) webhook_half "b" sample_entry
    webhook_half_leased) as (H1 & _ & H3 & _); [by rewrite Hi, lookup_singleton_eq|].
  destruct H1 as (_ & H1 & _ & H4); [done|].
  split; [exact H1|]. split; [by apply H4|]. split; [by apply H3|].
  destruct (wg_inflight (wt_gateway webhook_batch) !! "a") as [entry|] eqn:Ea; [|by vm_compute in Ea].
  assert (HL : if_leaseID entry = "L1") by (by vm_compute in Ea; injection Ea as <-).
  destruct (webhook_settles_once (sample_world true) WOther webhook_batch "a" entry
    webhook_batch_leased Ea) as (_ & _ & _ & Hb).
  destruct (Hb half_answer) as (_ & Ha & _).
  { intros id answer H. cbn [half_answer bd_outcomes] in H.
    apply lookup_insert_Some in H as [[<- <-]|[_ H]]; [done|].
    apply lookup_insert_Some in H as [[<- <-]|[_ H]]; [done|]. by rewrite lookup_empty in H. }
  destruct Ha as (_ & Hh & _); [by left|by vm_compute|]. rewrite HL in Hh. exact Hh.
Defined.

(** A later tick, past the lifetime of the lease since the last heartbeat. *)
Definition late_world : World :=
  mkWorld gateway_settings 200 (λ d, 0) (λ _, true) true true.

Lemma webhook_tick_keeps_or_drops_witness :
  wg_inflight (wt_gateway (Receive (sample_world true) WRegisterTick webhook_half)) !! "b" =
    Some sample_entry ∧
  wg_inflight (wt_gateway (Receive late_world WRegisterTick webhook_half)) !! "b" = None.
Proof.
  destruct webhook_half_tracks as [Hi Hs].
  assert (Hl : ∀ id entry, wg_inflight (wt_gateway webhook_half) !! id = Some entry →
    if_leaseID entry ≠ "").
  { intros id entry. rewrite Hi. by intros [<- <-]%lookup_singleton_Some. }
  assert (Hb : wg_inflight (wt_gateway webhook_half) !! "b" = Some sample_entry)
    by by rewrite Hi, lookup_singleton_eq.
  split.
  - destruct (webhook_tick_keeps_or_drops (sample_world true) webhook_half "b" Hl) as [_ H].
    specialize (H sample_entry Hb). rewrite Hs, lookup_singleton_eq in H. by destruct H.
  - destruct (webhook_tick_keeps_or_drops late_world webhook_half "b" Hl) as [_ H].
    specialize (H sample_entry Hb). rewrite Hs, lookup_singleton_eq in H. by destruct H.
Defined.

(** ** What the code does beyond its comments *)

(** A late answer of a superseded delivery carries no lease: it settles the
    delivery that replaced it. Here "b" was leased anew under "L2" and delivered
    again when the endpoint's answer to the first delivery arrives. *)
Definition superseded_webhook : WebhookTurn :=
  let t := on_webhook (λ g, g <| wg_inflight := <["b" := sample_entry <| if_leaseID := "L2" |>]> ∅ |>
                              <| wg_batchStates := ∅ |> <| wg_async := ∅ |>) webhook_half in
  on_webhook_log (Lease "mail" 5 100 "L2" 20
    (Release "b" "L1" 20 (wt_log webhook_half)).1).1 t.

Lemma late_answer_settles_successor :
  held "b" "L2" (wt_log superseded_webhook) ∧
  ¬ held "b" "L2" (wt_log (Receive (sample_world true)
      (WDelivery (mkWebhookDelivery "b" OutcomeCompleted "")) superseded_webhook)).
Proof.
  split; [|apply activeRow_None; vm_compute; reflexivity].
  eexists. split; [vm_compute; reflexivity|]. vm_compute. done.
Qed.

(** Cancelling one member of an open batch aborts the request that carries the
    whole batch. *)
Lemma cancel_member_aborts_batch :
  WAbort (BatchRequest "L1") ∈
    wt_out (Receive (sample_world true) (WCancelActive "a") webhook_batch) ∧
  is_Some (wg_inflight (wt_gateway (Receive (sample_world true) (WCancelActive "a") webhook_batch)) !! "b").
Proof. split; [vm_compute; right; left|vm_compute; eauto]. Qed.

(** A registration that drops the queue of an open delivery: the delivery's end
    is reported to nobody, and the gauge keeps counting it. *)
Definition other_worker : WebhookWorker := sample_worker <| wh_Queues := <["other" := 1]> ∅ |>.

Definition webhook_single : WebhookTurn :=
  Receive (sample_world true) (WExecuteTask (sample_execute "a"))  webhook_start.

Definition dropped_queue : WebhookTurn :=
  Receive (sample_world true) (WDelivery (mkWebhookDelivery "a" OutcomeCompleted ""))
    (Receive (sample_world true) (WUpdateRegistration other_worker) webhook_single).

Lemma dropped_queue_leaks_active :
  balance dropped_queue = balance webhook_single + 1 ∧
  wg_inflight (wt_gateway dropped_queue) = ∅ ∧
  wt_counters dropped_queue = wt_counters webhook_single.
Proof. split; [|split]; vm_compute; reflexivity. Qed.
