(* ===== verification/WebhookManager.v ===== *)
(** * The webhook manager (internal/actors/webhook_gateway.go)

    The singleton that keeps one webhook gateway running per active
    registration. Which children run, and whether a spawn succeeds, is read
    from the environment of the turn; draining and stopping a child runs off
    the turn and comes back as a message. *)

From S2P Require Import Prelude Proto BrokerApi Backoff Messages TaskLog Gateway WebhookGateway.

#[local] Open Scope Z_scope.

Definition webhookGatewayPrefix : string := "webhook-".

(** An actor, by its process id. *)
Definition PID : Type := string.

Record WebhookManager := mkWebhookManager {
  wm_children : gmap string PID;
  wm_stopping : gset string }.

#[global] Instance WebhookManager_eta : Eta WebhookManager := λ m,
  mkWebhookManager (wm_children m) (wm_stopping m).

(** [PreStart]: the bookkeeping is reset. *)
Definition manager_PreStart : WebhookManager := mkWebhookManager ∅ ∅.

(** What a turn asks of the actor system: [StopChild] starts the closure of
    [stopChild], whose steps are [stopSequence]. *)
Inductive managerEffect :=
  | TellUpdate (child : PID) (worker : WebhookWorker)
  | SpawnGateway (actorName : string) (worker : WebhookWorker)
  | StopChild (name : string) (child : PID)
  | ManagerUnhandled.

Record managerWorld := mkManagerWorld {
  mw_running : PID → bool;
  mw_spawn : string → option PID }.

Record managerTurn := mkManagerTurn {
  mt_manager : WebhookManager;
  mt_out : list managerEffect }.

#[global] Instance managerTurn_eta : Eta managerTurn := λ t,
  mkManagerTurn (mt_manager t) (mt_out t).

Definition on_manager (f : WebhookManager → WebhookManager) (t : managerTurn) : managerTurn :=
  t <| mt_manager := f (mt_manager t) |>.
Definition asks (e : managerEffect) (t : managerTurn) : managerTurn :=
  t <| mt_out := mt_out t ++ [e] |>.

(** ** Stopping a child *)

Definition stopChild (name : string) (child : PID) (t : managerTurn) : managerTurn :=
  asks (StopChild name child)
    (on_manager (λ m, m <| wm_children := delete name (wm_children m) |>
                        <| wm_stopping := {[name]} ∪ wm_stopping m |>) t).

(** What the closure of [stopChild] does to the system before it answers
    [gatewayStopped]. [drained] is the answer to the drain request, the queues
    the gateway served, or [None] when it failed. *)
Inductive stopStep :=
  | AskDrain (child : PID)
  | Unregister (queue gatewayName : string)
  | Shutdown (child : PID).

Definition unregisterGateway (name : string) (queues : list string) : list stopStep :=
  (λ queue, Unregister queue name) <$> queues.

Definition stopSequence (running : bool) (child : PID) (drained : option (list string))
    : list stopStep :=
  if running then
    [AskDrain child] ++
    match drained with Some queues => unregisterGateway child queues | None => [] end ++
    [Shutdown child]
  else [].

(** ** Reconciliation *)

(** The registrations that should have a gateway. *)
Definition desiredWorkers (workers : list WebhookWorker) : gmap string WebhookWorker :=
  foldl (λ desired worker,
    if wh_Paused worker then desired
    else if decide (wh_Secrets worker = []) then desired
    else <[wh_Name worker := worker]> desired) ∅ workers.

Section Manager.
Context {MR : MapRange}.

(** The body of the loop over the children. *)
Definition pruneChild (mw : managerWorld) (desired : gmap string WebhookWorker)
    (t : managerTurn) (p : string * PID) : managerTurn :=
  let '(name, child) := p in
  if negb (bool_decide (is_Some (desired !! name))) || negb (mw_running mw child)
  then stopChild name child t else t.

(** The body of the loop over the desired registrations. *)
Definition ensureChild (mw : managerWorld) (t : managerTurn) (p : string * WebhookWorker)
    : managerTurn :=
  let '(name, worker) := p in
  if decide (name ∈ wm_stopping (mt_manager t)) then t
  else
    match wm_children (mt_manager t) !! name with
    | Some child => asks (TellUpdate child worker) t
    | None =>
        let t := asks (SpawnGateway (webhookGatewayPrefix +:+ name) worker) t in
        match mw_spawn mw (webhookGatewayPrefix +:+ name) with
        | None => t
        | Some spawned => on_manager (λ m, m <| wm_children := <[name := spawned]> (wm_children m) |>) t
        end
    end.

(** [workers] is the broker's answer, [None] for an error. *)
Definition reconcile (mw : managerWorld) (workers : option (list WebhookWorker)) (t : managerTurn)
    : managerTurn :=
  match workers with
  | None => t
  | Some workers =>
      let desired := desiredWorkers workers in
      let t := foldl (pruneChild mw desired) t (range_map (wm_children (mt_manager t))) in
      foldl (ensureChild mw) t (range_map desired)
  end.

(** ** The mailbox *)

Inductive managerMessage :=
  | ManagerPostStart
  | WebhookReconcile
  | GatewayStopped (name : string)
  | ManagerOther.

Definition manager_Receive (mw : managerWorld) (workers : option (list WebhookWorker))
    (m : managerMessage) (t : managerTurn) : managerTurn :=
  match m with
  | ManagerPostStart | WebhookReconcile => reconcile mw workers t
  | GatewayStopped name =>
      on_manager (λ m, m <| wm_stopping := wm_stopping m ∖ {[name]} |>) t
  | ManagerOther => asks ManagerUnhandled t
  end.
End Manager.

(** ** The webhook manager converges on the registrations

    One reconciliation pass: which gateways are stopped, kept, updated and
    started, and what the children are afterwards. *)

(** A registration that should have a gateway. *)
Definition active (w : WebhookWorker) : Prop := wh_Paused w = false ∧ wh_Secrets w ≠ [].

#[global] Instance active_dec w : Decision (active w).
Proof. unfold active. apply _. Defined.

(** The step of [desiredWorkers], by cases. *)
Lemma desired_step (desired : gmap string WebhookWorker) worker :
  (if wh_Paused worker then desired
   else if decide (wh_Secrets worker = []) then desired
   else <[wh_Name worker := worker]> desired) =
  (if decide (active worker) then <[wh_Name worker := worker]> desired else desired).
Proof.
  destruct (decide (active worker)) as [[Hp Hs]|Ha]; [by rewrite Hp, decide_False|].
  destruct (wh_Paused worker) eqn:E; [done|]. case_decide; [done|]. by destruct Ha.
Qed.

Lemma desired_sound workers (m : gmap string WebhookWorker) name w :
  foldl (λ desired worker,
    if decide (active worker) then <[wh_Name worker := worker]> desired else desired) m workers !! name
    = Some w →
  m !! name = Some w ∨ w ∈ workers ∧ wh_Name w = name ∧ active w.
Proof.
  revert m. induction workers as [|w' workers IH]; intros m; cbn [foldl]; [by left|].
  intros H. apply IH in H as [H|(H1 & H2 & H3)]; [|right; split; [by right|done]].
  case_decide as Ha; [|by left]. apply lookup_insert_Some in H as [[<- <-]|[_ H]]; [|by left].
  right. split; [left|done].
Qed.

Lemma desired_complete workers (m : gmap string WebhookWorker) w :
  NoDup (wh_Name <$> workers) → w ∈ workers → active w →
  foldl (λ desired worker,
    if decide (active worker) then <[wh_Name worker := worker]> desired else desired) m workers !! wh_Name w
    = Some w.
Proof.
  intros Hn Hin Ha. revert m. induction workers as [|w' workers IH]; intros m; cbn [foldl].
  { by apply not_elem_of_nil in Hin. }
  cbn in Hn. apply NoDup_cons in Hn as [Hx Hn]. apply elem_of_cons in Hin as [<-|Hin]; [|by apply IH].
  rewrite decide_True by done. clear IH. generalize (<[wh_Name w := w]> m), (lookup_insert_eq m (wh_Name w) w).
  intros m1 Hm1. induction workers as [|w' workers IH] in m1, Hx, Hn, Hm1 |- *; [done|].
  cbn in Hx, Hn. apply not_elem_of_cons in Hx as [Hne Hx]. apply NoDup_cons in Hn as [_ Hn].
  cbn [foldl]. apply IH; [done..|]. case_decide; [|done]. by rewrite lookup_insert_ne by congruence.
Qed.

Lemma desiredWorkers_lookup workers name w :
  NoDup (wh_Name <$> workers) →
  desiredWorkers workers !! name = Some w ↔ w ∈ workers ∧ wh_Name w = name ∧ active w.
Proof.
  intros Hn. unfold desiredWorkers.
  rewrite (foldl_ext_in _ (λ desired worker,
    if decide (active worker) then <[wh_Name worker := worker]> desired else desired))
    by (intros; apply desired_step).
  split.
  - intros H. apply desired_sound in H as [H|H]; [by rewrite lookup_empty in H|done].
  - intros (Hin & <- & Ha). by apply desired_complete.
Qed.

Section Manager.
Context {MR : MapRange}.
Implicit Types (t : managerTurn).

(** Whether a pass keeps a child. *)
Definition kept (mw : managerWorld) (desired : gmap string WebhookWorker) (name : string)
    (child : PID) : bool :=
  bool_decide (is_Some (desired !! name)) && mw_running mw child.

Lemma pruneChild_kept mw desired t name child :
  pruneChild mw desired t (name, child) =
    if kept mw desired name child then t else stopChild name child t.
Proof. unfold pruneChild, kept. by destruct (bool_decide _), (mw_running mw child). Qed.

(** What the manager knows of one name. *)
Definition known t (n : string) : option PID * bool :=
  (wm_children (mt_manager t) !! n, bool_decide (n ∈ wm_stopping (mt_manager t))).

(** A step that leaves a name alone and forgets no effect. *)
Definition spares (n : string) t t' : Prop :=
  known t' n = known t n ∧ (∀ e, e ∈ mt_out t → e ∈ mt_out t').

Lemma spares_trans n t1 t2 t3 : spares n t1 t2 → spares n t2 t3 → spares n t1 t3.
Proof. intros [K1 O1] [K2 O2]. split; [congruence|auto]. Qed.

(** A loop whose body touches only the name of its turn. *)
Section Loop.
Context {A : Type} (body : managerTurn → string * A → managerTurn).
Hypothesis body_other : ∀ t n a n', n' ≠ n → spares n' t (body t (n, a)).

Lemma loop_other l t n : n ∉ l.*1 → spares n t (foldl body t l).
Proof.
  revert t. induction l as [|[n' a] l IH]; intros t Hn; [done|]. cbn in Hn |- *.
  apply not_elem_of_cons in Hn as [Hne Hn]. eapply spares_trans; [by apply body_other|by apply IH].
Qed.

Lemma loop_self l t n a :
  NoDup l.*1 → (n, a) ∈ l →
  ∃ t1, spares n t t1 ∧ spares n (body t1 (n, a)) (foldl body t l).
Proof.
  revert t. induction l as [|[n' a'] l IH]; intros t Hn Hin; [by apply not_elem_of_nil in Hin|].
  cbn in Hn |- *. apply NoDup_cons in Hn as [Hx Hn]. apply elem_of_cons in Hin as [[= <- <-]|Hin].
  - exists t. split; [done|]. by apply loop_other.
  - destruct (IH (body t (n', a')) Hn Hin) as (t1 & H1 & H2). exists t1. split; [|done].
    eapply spares_trans; [|exact H1]. apply body_other. intros ->. apply Hx.
    by apply (list_elem_of_fmap_2 fst l (n', a)).
Qed.
End Loop.

Lemma prune_other mw desired t n c n' : n' ≠ n → spares n' t (pruneChild mw desired t (n, c)).
Proof.
  intros Hne. rewrite pruneChild_kept. destruct (kept _ _ _ _); [done|]. split.
  - unfold known. cbn. rewrite lookup_delete_ne by done. f_equal.
    apply bool_decide_ext. set_solver.
  - intros e He. cbn. apply elem_of_app. by left.
Qed.

Lemma ensure_other mw t n w n' : n' ≠ n → spares n' t (ensureChild mw t (n, w)).
Proof.
  intros Hne. unfold ensureChild. case_decide; [done|].
  repeat case_match; (split; [unfold known; cbn; by rewrite ?lookup_insert_ne|]);
    intros e He; cbn; apply elem_of_app; by left.
Qed.

(** What the two loops leave of one name. *)
Lemma prune_spec mw desired t n :
  let t' := foldl (pruneChild mw desired) t (range_map (wm_children (mt_manager t))) in
  match wm_children (mt_manager t) !! n with
  | None => known t' n = known t n
  | Some c =>
      if kept mw desired n c then known t' n = known t n
      else known t' n = (None, true) ∧ StopChild n c ∈ mt_out t'
  end.
Proof.
  cbv zeta. set (l := range_map _). destruct (wm_children (mt_manager t) !! n) as [c|] eqn:Hc.
  - destruct (loop_self _ (prune_other mw desired) l t n c) as (t1 & [K1 _] & [K2 O2]).
    { apply NoDup_fst_range_map. } { by apply elem_of_range_map. }
    rewrite pruneChild_kept in K2, O2. destruct (kept mw desired n c); [congruence|].
    split; [|apply O2; cbn; apply elem_of_app; right; left].
    rewrite K2. unfold known. cbn. rewrite lookup_delete_eq. f_equal.
    apply bool_decide_true. set_solver.
  - apply (loop_other _ (prune_other mw desired)).
    intros ([n' c'] & -> & Hin)%list_elem_of_fmap. apply elem_of_range_map in Hin. cbn in Hc. congruence.
Qed.

Lemma ensure_self mw t n w :
  let t' := ensureChild mw t (n, w) in
  if bool_decide (n ∈ wm_stopping (mt_manager t)) then t' = t
  else
    match wm_children (mt_manager t) !! n with
    | Some c => known t' n = known t n ∧ TellUpdate c w ∈ mt_out t'
    | None => known t' n = (mw_spawn mw (webhookGatewayPrefix +:+ n), false) ∧
              SpawnGateway (webhookGatewayPrefix +:+ n) w ∈ mt_out t'
    end.
Proof.
  cbv zeta. unfold ensureChild. case_bool_decide as Hs; [by rewrite decide_True|].
  rewrite decide_False by done. destruct (wm_children (mt_manager t) !! n) as [c|] eqn:Hc.
  - split; [done|]. cbn. apply elem_of_app. right. left.
  - destruct (mw_spawn mw (webhookGatewayPrefix +:+ n)) eqn:Hsp; cbn;
      (split; [|apply elem_of_app; right; left]); unfold known; cbn;
      rewrite ?lookup_insert_eq, ?Hc; f_equal; by apply bool_decide_false.
Qed.

Lemma ensure_spec mw (desired : gmap string WebhookWorker) t n :
  let t' := foldl (ensureChild mw) t (range_map desired) in
  match desired !! n with
  | None => known t' n = known t n
  | Some w =>
      if bool_decide (n ∈ wm_stopping (mt_manager t)) then known t' n = known t n
      else
        match wm_children (mt_manager t) !! n with
        | Some c => known t' n = known t n ∧ TellUpdate c w ∈ mt_out t'
        | None => known t' n = (mw_spawn mw (webhookGatewayPrefix +:+ n), false) ∧
                  SpawnGateway (webhookGatewayPrefix +:+ n) w ∈ mt_out t'
        end
  end.
Proof.
  cbv zeta. set (l := range_map desired). destruct (desired !! n) as [w|] eqn:Hd.
  - destruct (loop_self _ (ensure_other mw) l t n w) as (t1 & [K1 _] & [K2 O2]).
    { apply NoDup_fst_range_map. } { by apply elem_of_range_map. }
    pose proof (ensure_self mw t1 n w) as H. cbv zeta in H. injection K1 as Kc Ks.
    rewrite Kc, Ks in H. destruct (bool_decide (n ∈ wm_stopping (mt_manager t))) eqn:Eb.
    { rewrite H in K2. rewrite K2. unfold known. by rewrite Kc, Ks, Eb. }
    destruct (wm_children (mt_manager t) !! n) eqn:Ec; destruct H as [H1 H2];
      (split; [rewrite K2, H1; try done|by apply O2]). unfold known. by rewrite Kc, Ks, Eb, Ec.
  - apply (loop_other _ (ensure_other mw)).
    intros ([n' w'] & -> & Hin)%list_elem_of_fmap. apply elem_of_range_map in Hin. cbn in Hd. congruence.
Qed.

(** What a loop asks for comes from its turns. *)
Lemma loop_effects {A} (body : managerTurn → A → managerTurn) (P : managerEffect → Prop) l t :
  (∀ t a e, a ∈ l → e ∈ mt_out (body t a) → e ∈ mt_out t ∨ P e) →
  ∀ e, e ∈ mt_out (foldl body t l) → e ∈ mt_out t ∨ P e.
Proof.
  intros Hb. revert t. induction l as [|a l IH]; intros t e; cbn [foldl]; [by left|].
  intros He. apply IH in He as [He|?]; [|by right|intros; eapply Hb; [by right|done]].
  eapply Hb; [left|done].
Qed.

Lemma loop_grows {A} (body : managerTurn → A → managerTurn) l t :
  (∀ t a e, e ∈ mt_out t → e ∈ mt_out (body t a)) →
  ∀ e, e ∈ mt_out t → e ∈ mt_out (foldl body t l).
Proof.
  intros Hb. revert t. induction l as [|a l IH]; intros t e He; cbn [foldl]; [done|].
  by apply IH, Hb.
Qed.

(** The registration an effect hands over. *)
Definition hands (e : managerEffect) : option WebhookWorker :=
  match e with TellUpdate _ w | SpawnGateway _ w => Some w | _ => None end.

Lemma reconcile_hands mw workers t e w :
  NoDup (wh_Name <$> workers) → mt_out t = [] →
  e ∈ mt_out (reconcile mw (Some workers) t) → hands e = Some w → w ∈ workers ∧ active w.
Proof.
  intros Hn Ho He Hw. unfold reconcile in He. set (t1 := foldl (pruneChild _ _) _ _) in He.
  apply (loop_effects _ (λ e, ∀ w, hands e = Some w → w ∈ workers ∧ active w)) in He as [He|He].
  - apply (loop_effects _ (λ e, hands e = None)) in He as [He|He]; [|congruence|].
    + rewrite Ho in He. by apply not_elem_of_nil in He.
    + intros t0 [n c] e' _. rewrite pruneChild_kept. destruct (kept _ _ _ _); [by left|].
      cbn. intros [?|He']%elem_of_app; [by left|]. apply list_elem_of_singleton in He' as ->. by right.
  - by apply He.
  - intros t0 [n w0] e' Hin. apply elem_of_range_map, desiredWorkers_lookup in Hin as (Hin & _ & Ha); [|done].
    unfold ensureChild. case_decide; [by left|].
    repeat case_match; cbn; (intros [?|He']%elem_of_app; [by left|]);
      apply list_elem_of_singleton in He' as ->; right; intros ? [= <-]; done.
Qed.

Lemma ensure_grows mw t p e : e ∈ mt_out t → e ∈ mt_out (ensureChild mw t p).
Proof.
  destruct p as [n w]. intros He. unfold ensureChild. case_decide; [done|].
  repeat case_match; cbn; apply elem_of_app; by left.
Qed.

(** What one pass leaves of one name. *)
Lemma reconcile_spec mw workers t n :
  (is_Some (wm_children (mt_manager t) !! n) → n ∉ wm_stopping (mt_manager t)) →
  let t' := reconcile mw (Some workers) t in
  match wm_children (mt_manager t) !! n, desiredWorkers workers !! n with
  | Some c, Some w =>
      if mw_running mw c then known t' n = (Some c, false) ∧ TellUpdate c w ∈ mt_out t'
      else known t' n = (None, true) ∧ StopChild n c ∈ mt_out t'
  | Some c, None => known t' n = (None, true) ∧ StopChild n c ∈ mt_out t'
  | None, Some w =>
      if bool_decide (n ∈ wm_stopping (mt_manager t)) then known t' n = (None, true)
      else known t' n = (mw_spawn mw (webhookGatewayPrefix +:+ n), false) ∧
           SpawnGateway (webhookGatewayPrefix +:+ n) w ∈ mt_out t'
  | None, None => known t' n = (None, bool_decide (n ∈ wm_stopping (mt_manager t)))
  end.
Proof.
  intros Hdis. cbv zeta. unfold reconcile. set (desired := desiredWorkers workers).
  pose proof (prune_spec mw desired t n) as Hp. cbv zeta in Hp.
  set (t1 := foldl (pruneChild mw desired) t _) in *. clearbody t1.
  pose proof (ensure_spec mw desired t1 n) as He. cbv zeta in He.
  pose proof (loop_grows _ (range_map desired) t1 (ensure_grows mw)) as Hg.
  set (t2 := foldl (ensureChild mw) t1 _) in *. clearbody t2. unfold kept in Hp.
  destruct (wm_children (mt_manager t) !! n) as [c|] eqn:Hc.
  - assert (Hs : bool_decide (n ∈ wm_stopping (mt_manager t)) = false)
      by (apply bool_decide_false; apply Hdis; eauto).
    destruct (desired !! n) as [w|] eqn:Hd; cbn in Hp.
    + destruct (mw_running mw c).
      * injection Hp as Pc Ps. rewrite Pc, Ps, ?Hs, ?Hc in He. destruct He as [He1 He2].
        split; [|done]. rewrite He1. unfold known. by rewrite Pc, Ps, ?Hs, ?Hc.
      * destruct Hp as [Hp1 Hp2]. injection Hp1 as Pc Ps. rewrite Ps in He.
        split; [|by apply Hg]. rewrite He. unfold known. by rewrite Pc, Ps.
    + destruct Hp as [Hp1 Hp2]. split; [by rewrite He|by apply Hg].
  - injection Hp as Pc Ps. destruct (desired !! n) as [w|] eqn:Hd.
    + rewrite Pc, Ps, ?Hc in He. destruct (bool_decide (n ∈ wm_stopping (mt_manager t))) eqn:Hs; [|done].
      rewrite He. unfold known. by rewrite Pc, Ps, ?Hs, ?Hc.
    + rewrite He. unfold known. by rewrite Pc, Ps, ?Hc.
Qed.

(** Reads off what a pass left of a name, case by case. *)
Ltac pass_cases :=
  let H := fresh "Hcase" in
  intros H; intros;
  lazymatch type of H with _ ∧ _ => destruct H as [H ?] | _ => idtac end;
  rewrite H in *; cbn in *; simplify_eq; try done.

(** A reconciliation pass converges on the registrations. No name is both
    running and stopping. Every child left is of an active registration (not
    paused, with a secret): a running child that stayed, or one just started. A
    child that is not is reserved as stopping and its drain is started. Every
    active registration that is not still stopping is handed to its gateway, to
    the running one or to a new one; and only active registrations are handed
    over, so no gateway starts without a secret. With no child stopping, all
    children running and every spawn succeeding, the children are exactly the
    active registrations after one pass. *)
Theorem manager_converges {CB : CircuitBreakers} mw workers t :
  NoDup (wh_Name <$> workers) → mt_out t = [] →
  (∀ n, is_Some (wm_children (mt_manager t) !! n) → n ∉ wm_stopping (mt_manager t)) →
  let t' := reconcile mw (Some workers) t in
  (∀ n, is_Some (wm_children (mt_manager t') !! n) → n ∉ wm_stopping (mt_manager t')) ∧
  (∀ n c, wm_children (mt_manager t') !! n = Some c →
     ∃ w, w ∈ workers ∧ wh_Name w = n ∧ active w ∧
       (wm_children (mt_manager t) !! n = Some c ∧ mw_running mw c = true ∨
        wm_children (mt_manager t) !! n = None ∧ mw_spawn mw (webhookGatewayPrefix +:+ n) = Some c)) ∧
  (∀ n c, wm_children (mt_manager t) !! n = Some c → wm_children (mt_manager t') !! n ≠ Some c →
     n ∈ wm_stopping (mt_manager t') ∧ StopChild n c ∈ mt_out t') ∧
  (∀ w, w ∈ workers → active w → wh_Name w ∉ wm_stopping (mt_manager t') →
     ∃ e, e ∈ mt_out t' ∧ hands e = Some w) ∧
  (∀ e w settings, e ∈ mt_out t' → hands e = Some w → active w ∧ PreStart settings w ≠ None) ∧
  (wm_stopping (mt_manager t) = ∅ →
   (∀ n c, wm_children (mt_manager t) !! n = Some c → mw_running mw c = true) →
   (∀ n, is_Some (mw_spawn mw n)) →
   ∀ n, is_Some (wm_children (mt_manager t') !! n) ↔ ∃ w, w ∈ workers ∧ wh_Name w = n ∧ active w).
Proof.
  intros Hn Ho Hdis t'.
  pose proof (λ n, reconcile_spec mw workers t n (Hdis n)) as Hspec. cbv zeta in Hspec. fold t' in Hspec.
  pose proof (desiredWorkers_lookup workers) as Hdes.
  assert (Hstop : ∀ n, n ∈ wm_stopping (mt_manager t') ↔ (known t' n).2 = true).
  { intros n. cbn. by rewrite bool_decide_eq_true. }
  split; [|split; [|split; [|split; [|split]]]].
  - intros n [c Hc] Hs. apply Hstop in Hs. specialize (Hspec n).
    assert (Hk : (known t' n).1 = Some c) by done. revert Hspec Hs Hk.
    repeat case_match; pass_cases.
  - intros n c Hc. specialize (Hspec n). assert (Hk : (known t' n).1 = Some c) by done.
    destruct (desiredWorkers workers !! n) as [w|] eqn:Hd.
    + apply Hdes in Hd as (Hin & Hnm & Ha); [|done]. exists w. repeat (split; [done|]).
      revert Hspec Hk. repeat case_match; pass_cases; auto.
    + exfalso. revert Hspec Hk. case_match; pass_cases.
  - intros n c Hc Hne. rewrite Hstop. specialize (Hspec n). rewrite Hc in Hspec.
    assert (Hk : (known t' n).1 ≠ Some c) by done. revert Hspec Hk. repeat case_match; pass_cases; auto.
  - intros w Hin Ha Hs. rewrite Hstop in Hs. specialize (Hspec (wh_Name w)).
    rewrite (proj2 (Hdes (wh_Name w) w Hn)) in Hspec by done. revert Hspec Hs.
    repeat case_match; pass_cases; eauto.
  - intros e w settings He Hw. destruct (reconcile_hands _ _ _ _ _ Hn Ho He Hw) as [_ Ha].
    split; [done|]. destruct Ha as [_ Ha]. unfold PreStart, newestSecret.
    by destruct (wh_Secrets w).
  - intros Hst Hrun Hspawn n. specialize (Hspec n). rewrite Hst in Hspec.
    rewrite (bool_decide_false (n ∈ ∅)) in Hspec by set_solver.
    destruct (Hspawn (webhookGatewayPrefix +:+ n)) as [c' Hc'].
    assert (Hk : wm_children (mt_manager t') !! n = (known t' n).1) by done. rewrite Hk.
    destruct (desiredWorkers workers !! n) as [w|] eqn:Hd.
    + apply Hdes in Hd; [|done]. split; [by exists w|]. intros _.
      destruct (wm_children (mt_manager t) !! n) as [c|] eqn:Hc.
      * rewrite (Hrun n c Hc) in Hspec. destruct Hspec as [-> _]. eauto.
      * destruct Hspec as [-> _]. rewrite Hc'. eauto.
    + assert (¬ is_Some (known t' n).1) as Hno.
      { revert Hspec. case_match; pass_cases; by intros [? ?]. }
      split; [done|]. intros (w & Hw). apply (Hdes n w Hn) in Hw. congruence.
Qed.
End Manager.

(** Two active registrations, one of them running already, a paused one and a
    child whose registration is gone. *)
Definition hook (name : string) (paused : bool) (secrets : list string) : WebhookWorker :=
  mkWebhookWorker name "https://hook.example/rpc" (<["mail" := 1]> ∅) 4 secrets [] 0 paused.

Definition hooks : list WebhookWorker :=
  [hook "a" false ["s"]; hook "b" false ["s"]; hook "c" true ["s"]; hook "d" false []].

Definition sample_manager : managerTurn :=
  mkManagerTurn (mkWebhookManager (<["a" := "webhook-a"]> (<["z" := "webhook-z"]> ∅)) ∅) [].

Lemma manager_converges_witness :
  let t' := reconcile (MR := elements_range) (mkManagerWorld (λ _, true) Some) (Some hooks) sample_manager in
  (is_Some (wm_children (mt_manager t') !! "b") ↔
     ∃ w, w ∈ hooks ∧ wh_Name w = "b" ∧ active w) ∧
  "z" ∈ wm_stopping (mt_manager t') ∧ ¬ is_Some (wm_children (mt_manager t') !! "d").
Proof.
  cbv zeta.
  assert (Hn : NoDup (wh_Name <$> hooks)) by (apply (bool_decide_unpack _); vm_compute; reflexivity).
  destruct (manager_converges (MR := elements_range)
    (CB := {| Breaker := unit; NewCircuitBreaker := λ _, tt; Execute := λ _ _ b, b; State := λ _ _, BreakerClosed |})
    (mkManagerWorld (λ _, true) Some) hooks sample_manager Hn eq_refl) as (_ & _ & H3 & _ & _ & H6).
  { intros n _. cbn. set_solver. }
  specialize (H6 eq_refl). split; [apply H6; [done|by intros; eexists]|].
  split; [apply (H3 "z" "webhook-z"); [reflexivity|vm_compute; congruence]|].
  rewrite H6; [|done|by intros; eexists]. intros (w & Hin & Hnm & Hp & Hs).
  repeat (apply elem_of_cons in Hin as [->|Hin]; [done|]). by apply not_elem_of_nil in Hin.
Defined.
