(* ===== verification/Encryption.v ===== *)
(** * Payload encryption (encryption/encryption.go, encryption/aesgcm.go)

    The [Encryptor] interface and its built-in implementation, AES-256-GCM with
    a keyring and a framed key id. The block cipher mode itself is a class with
    its documented law, opening what was sealed; the random nonce of a call is
    an argument of it. *)

From S2P Require Import Prelude Encoding.
From Stdlib Require Import Strings.Byte.

#[local] Open Scope Z_scope.

Inductive EncryptionError :=
  | ErrUnknownKeyID
  | ErrMalformedCiphertext
  | ErrAuthentication
  | ErrInvalidKey
  | ErrNonce.

#[global] Instance EncryptionError_eq_dec : EqDecision EncryptionError.
Proof. solve_decision. Defined.

(** The interface: the first argument of [Encrypt] is the randomness the call
    draws. *)
Class Encryptor (E : Type) := {
  Encrypt : E → list byte → list byte → EncryptionError + list byte;
  Decrypt : E → list byte → EncryptionError + list byte }.

(** ** AES-256-GCM *)

Definition schemeVersion : byte := x01.
Definition keyBytes : nat := 32.
Definition nonceBytes : nat := 12.
Definition maxKeyIDBytes : nat := 255.
Definition headerFixedBytes : nat := 2.

Record Key := mkKey { key_ID : string; key_Secret : list byte }.

(** [cipher.NewGCM] over [aes.NewCipher]: sealing and opening under a 32-byte
    secret, with a nonce and additional data. [GCM_Open] fails when the tag does
    not verify. *)
Class GCM := {
  GCM_Seal : list byte → list byte → list byte → list byte → list byte;
  GCM_Open : list byte → list byte → list byte → list byte → option (list byte);
  GCM_Open_Seal : ∀ secret nonce plaintext ad,
    GCM_Open secret nonce (GCM_Seal secret nonce plaintext ad) ad = Some plaintext }.

(** An AEAD is known by its secret. *)
Record AESGCM := mkAESGCM {
  gcm_ring : gmap string (list byte);
  gcm_activeID : string;
  gcm_active : list byte }.

Definition newAEAD (key : Key) : EncryptionError + list byte :=
  if decide (key_ID key = "") then inl ErrInvalidKey
  else if decide (maxKeyIDBytes < String.length (key_ID key))%nat then inl ErrInvalidKey
  else if decide (length (key_Secret key) ≠ keyBytes) then inl ErrInvalidKey
  else inr (key_Secret key).

(** The loop over the keys. *)
Fixpoint buildRing (keys : list Key) (ring : gmap string (list byte))
    : EncryptionError + gmap string (list byte) :=
  match keys with
  | [] => inr ring
  | key :: keys =>
      match newAEAD key with
      | inl err => inl err
      | inr aead =>
          if decide (is_Some (ring !! key_ID key)) then inl ErrInvalidKey
          else buildRing keys (<[key_ID key := aead]> ring)
      end
  end.

Definition NewAESGCM (activeKeyID : string) (keys : list Key) : EncryptionError + AESGCM :=
  if decide (activeKeyID = "") then inl ErrInvalidKey
  else if decide (keys = []) then inl ErrInvalidKey
  else
    match buildRing keys ∅ with
    | inl err => inl err
    | inr ring =>
        match ring !! activeKeyID with
        | None => inl ErrInvalidKey
        | Some active => inr (mkAESGCM ring activeKeyID active)
        end
    end.

Definition encodeHeader (keyID : string) : list byte :=
  [schemeVersion; Zbyte (Z.of_nat (String.length keyID))] ++ bytesOf keyID.

(** The key id and the header's length. *)
Definition decodeHeader (ciphertext : list byte) : EncryptionError + (string * nat) :=
  if decide (length ciphertext < headerFixedBytes)%nat then inl ErrMalformedCiphertext
  else
    match ciphertext with
    | version :: idLen :: _ =>
        if decide (version ≠ schemeVersion) then inl ErrMalformedCiphertext
        else
          let headerLen := (headerFixedBytes + Z.to_nat (byteZ idLen))%nat in
          if decide (length ciphertext < headerLen)%nat then inl ErrMalformedCiphertext
          else inr (stringOf (drop headerFixedBytes (take headerLen ciphertext)), headerLen)
    | _ => inl ErrMalformedCiphertext
    end.

Section AESGCM.
Context {G : GCM}.

(** [entropy] is what [rand.Read] filled the nonce with; a read of another
    length stands for its failure. *)
Definition gcm_Encrypt (a : AESGCM) (entropy plaintext : list byte) : EncryptionError + list byte :=
  let header := encodeHeader (gcm_activeID a) in
  if decide (length entropy ≠ nonceBytes) then inl ErrNonce
  else inr (header ++ entropy ++ GCM_Seal (gcm_active a) entropy plaintext header).

Definition gcm_Decrypt (a : AESGCM) (ciphertext : list byte) : EncryptionError + list byte :=
  match decodeHeader ciphertext with
  | inl err => inl err
  | inr (keyID, headerLen) =>
      match gcm_ring a !! keyID with
      | None => inl ErrUnknownKeyID
      | Some aead =>
          let rest := drop headerLen ciphertext in
          if decide (length rest < nonceBytes)%nat then inl ErrMalformedCiphertext
          else
            match GCM_Open aead (take nonceBytes rest) (drop nonceBytes rest)
                    (take headerLen ciphertext) with
            | None => inl ErrAuthentication
            | Some plaintext => inr plaintext
            end
      end
  end.

#[export] Instance AESGCM_Encryptor : Encryptor AESGCM := {|
  Encrypt := gcm_Encrypt; Decrypt := gcm_Decrypt |}.

(** ** Facts *)

Lemma bytesOf_length s : length (bytesOf s) = String.length s.
Proof.
  unfold bytesOf, String.list_byte_of_string. rewrite length_map.
  induction s as [|c s IH]; cbn; [done|]. by rewrite IH.
Qed.

Lemma encodeHeader_length keyID : length (encodeHeader keyID) = (2 + String.length keyID)%nat.
Proof. unfold encodeHeader. rewrite length_app, bytesOf_length. done. Qed.

Lemma byteZ_Zbyte z : 0 <= z < 256 → byteZ (Zbyte z) = z.
Proof.
  intros Hz. unfold byteZ, Zbyte. rewrite Z.mod_small by done.
  destruct (Byte.of_N (Z.to_N z)) as [b|] eqn:E.
  - apply Byte.to_of_N in E. cbn. rewrite E. lia.
  - apply Byte.of_N_None_iff in E. lia.
Qed.

(** The header of a key id that fits its length byte reads back. *)
Lemma decode_encodeHeader keyID rest :
  (String.length keyID <= maxKeyIDBytes)%nat →
  decodeHeader (encodeHeader keyID ++ rest) = inr (keyID, length (encodeHeader keyID)).
Proof.
  unfold maxKeyIDBytes. intros Hk. unfold decodeHeader, headerFixedBytes.
  rewrite decide_False by (rewrite length_app, encodeHeader_length; lia).
  unfold encodeHeader at 1. cbn [app]. rewrite decide_False by (intros H; by apply H).
  rewrite byteZ_Zbyte, Nat2Z.id by lia. rewrite <- encodeHeader_length.
  rewrite decide_False by (rewrite length_app; lia).
  rewrite take_app_length. change (drop 2 (encodeHeader keyID)) with (bytesOf keyID).
  by rewrite stringOf_bytesOf.
Qed.

Lemma newAEAD_ok key aead :
  newAEAD key = inr aead →
  key_ID key ≠ "" ∧ (String.length (key_ID key) <= maxKeyIDBytes)%nat ∧
  length (key_Secret key) = keyBytes ∧ aead = key_Secret key.
Proof. unfold newAEAD. repeat case_decide; intros [= <-]. repeat split; [done|lia|lia]. Qed.

(** The ring of a successful build holds the keys and what was there before. *)
Lemma buildRing_spec keys ring ring' :
  buildRing keys ring = inr ring' →
  (∀ key, key ∈ keys → ring' !! key_ID key = Some (key_Secret key)) ∧
  (∀ id aead, ring !! id = Some aead → ring' !! id = Some aead) ∧
  (∀ id aead, ring' !! id = Some aead → ring !! id = Some aead ∨
     ∃ key, key ∈ keys ∧ key_ID key = id ∧ newAEAD key = inr aead).
Proof.
  revert ring. induction keys as [|key keys IH]; intros ring; cbn [buildRing].
  { intros [= <-]. split; [by intros ? ?%not_elem_of_nil|]. split; [done|by left]. }
  destruct (newAEAD key) as [err|aead] eqn:Ek; [done|]. case_decide as Hd; [done|]. intros H.
  destruct (IH _ H) as (H1 & H2 & H3). apply newAEAD_ok in Ek as Ek'. destruct Ek' as (_ & _ & _ & ->).
  split; [|split].
  - intros key' [->|Hin]%elem_of_cons; [|by apply H1]. apply H2. apply lookup_insert_eq.
  - intros id aead Hl. apply H2. rewrite lookup_insert_ne; [done|]. intros <-. apply Hd. eauto.
  - intros id aead Hl. destruct (H3 id aead Hl) as [Hi|(key' & Hin & ? & ?)].
    + apply lookup_insert_Some in Hi as [[<- <-]|[_ Hi]]; [|by left].
      right. exists key. split; [left|done].
    + right. exists key'. split; [by right|done].
Qed.

Lemma NewAESGCM_ok activeID keys a :
  NewAESGCM activeID keys = inr a →
  buildRing keys ∅ = inr (gcm_ring a) ∧ gcm_activeID a = activeID ∧
  gcm_ring a !! activeID = Some (gcm_active a).
Proof.
  unfold NewAESGCM. do 2 (case_decide; [done|]). destruct (buildRing keys ∅) as [|ring]; [done|].
  destruct (ring !! activeID) as [active|] eqn:E; [|done]. by intros [= <-].
Qed.

(** The active key is one of the keys, and its id fits the header. *)
Lemma NewAESGCM_active activeID keys a :
  NewAESGCM activeID keys = inr a →
  (String.length activeID <= maxKeyIDBytes)%nat ∧
  ∃ key, key ∈ keys ∧ key_ID key = activeID ∧ gcm_active a = key_Secret key.
Proof.
  intros (Hb & _ & Ha)%NewAESGCM_ok. destruct (buildRing_spec _ _ _ Hb) as (_ & _ & H3).
  destruct (H3 _ _ Ha) as [H|(key & Hin & <- & (_ & Hlen & _ & He)%newAEAD_ok)].
  { by rewrite lookup_empty in H. }
  split; [done|]. by exists key.
Qed.

(** The keys of a ring are distinct by id. *)
Lemma buildRing_distinct keys ring ring' key key' :
  buildRing keys ring = inr ring' → key ∈ keys → key' ∈ keys → key_ID key = key_ID key' →
  key_Secret key = key_Secret key'.
Proof.
  intros Hb Hk Hk' E. destruct (buildRing_spec _ _ _ Hb) as (H1 & _).
  pose proof (H1 _ Hk) as E1. rewrite E, (H1 _ Hk') in E1. congruence.
Qed.

(** What one keyring sealed, another that holds the key opens. *)
Lemma gcm_opens activeID keys a activeID' keys' a' key entropy plaintext ciphertext :
  NewAESGCM activeID keys = inr a → NewAESGCM activeID' keys' = inr a' →
  gcm_Encrypt a entropy plaintext = inr ciphertext →
  key ∈ keys → key_ID key = activeID → key ∈ keys' →
  gcm_Decrypt a' ciphertext = inr plaintext.
Proof.
  intros Ha Ha' He Hin Hid Hin'.
  destruct (NewAESGCM_active _ _ _ Ha) as (Hlen & key0 & Hin0 & Hid0 & Hact).
  destruct (NewAESGCM_ok _ _ _ Ha) as (Hb & Hai & _). destruct (NewAESGCM_ok _ _ _ Ha') as (Hb' & _ & _).
  destruct (buildRing_spec _ _ _ Hb') as (R1 & _).
  unfold gcm_Encrypt in He. case_decide as Hnl; [done|].
  rewrite Hai in He. apply (inj inr) in He. subst ciphertext.
  unfold gcm_Decrypt. rewrite decode_encodeHeader by done. rewrite <- Hid, (R1 _ Hin'), Hid.
  rewrite drop_app_length, take_app_length.
  rewrite decide_False by (rewrite length_app, Hnl; unfold nonceBytes; lia).
  rewrite <- Hnl, take_app_length, drop_app_length.
  assert (gcm_active a = key_Secret key) as ->.
  { rewrite Hact. eapply buildRing_distinct; [exact Hb|done..|congruence]. }
  by rewrite GCM_Open_Seal.
Qed.

(** Decryption opens what encryption sealed, across key rotations: data
    sealed under the active key of one keyring is opened, to the same bytes, by
    every keyring that still holds that key, whatever its own active key; a
    keyring without a key of that id reports an unknown key id. Sealed data is
    never empty and names the key it was sealed under. *)
Theorem encryption_roundtrip activeID keys a activeID' keys' a' entropy plaintext ciphertext :
  NewAESGCM activeID keys = inr a → NewAESGCM activeID' keys' = inr a' →
  gcm_Encrypt a entropy plaintext = inr ciphertext →
  (∀ key, key ∈ keys → key_ID key = activeID → key ∈ keys' →
     gcm_Decrypt a' ciphertext = inr plaintext) ∧
  ((∀ key, key ∈ keys' → key_ID key ≠ activeID) →
     gcm_Decrypt a' ciphertext = inl ErrUnknownKeyID) ∧
  ciphertext ≠ [] ∧ ∃ headerLen, decodeHeader ciphertext = inr (activeID, headerLen).
Proof.
  intros Ha Ha' He. destruct (NewAESGCM_active _ _ _ Ha) as (Hlen & _).
  destruct (NewAESGCM_ok _ _ _ Ha) as (_ & Hai & _). destruct (NewAESGCM_ok _ _ _ Ha') as (Hb' & _ & _).
  destruct (buildRing_spec _ _ _ Hb') as (_ & _ & R3).
  split; [intros key; exact (gcm_opens _ _ _ _ _ _ _ _ _ _ Ha Ha' He)|].
  unfold gcm_Encrypt in He. case_decide as Hnl; [done|].
  rewrite Hai in He. apply (inj inr) in He. subst ciphertext.
  pose proof (decode_encodeHeader activeID
    (entropy ++ GCM_Seal (gcm_active a) entropy plaintext (encodeHeader activeID)) Hlen) as Hdec.
  split; [|split; [by unfold encodeHeader|eauto]].
  intros Hno. unfold gcm_Decrypt. rewrite Hdec.
  destruct (gcm_ring a' !! activeID) as [aead|] eqn:E; [|done].
  destruct (R3 _ _ E) as [H|(key & Hin & Hid & _)]; [by rewrite lookup_empty in H|].
  by destruct (Hno key).
Qed.
End AESGCM.

(** A toy mode, for evaluation: the sealed bytes are the plaintext after the
    additional data. *)
Definition toyGCM : GCM.
Proof.
  refine {| GCM_Seal := λ _ _ plaintext ad, ad ++ plaintext;
            GCM_Open := λ _ _ sealed ad,
              if decide (take (length ad) sealed = ad) then Some (drop (length ad) sealed) else None |}.
  intros _ _ plaintext ad. by rewrite take_app_length, drop_app_length, decide_True.
Defined.

Definition oldKey : Key := mkKey "2025" (replicate 32 x11).
Definition newKey : Key := mkKey "2026" (replicate 32 x22).

Lemma encryption_roundtrip_witness :
  ∃ a a' ciphertext,
    NewAESGCM "2025" [oldKey] = inr a ∧ NewAESGCM "2026" [newKey; oldKey] = inr a' ∧
    gcm_Encrypt (G := toyGCM) a (replicate 12 x00) [x68; x69] = inr ciphertext ∧
    gcm_Decrypt (G := toyGCM) a' ciphertext = inr [x68; x69].
Proof.
  eexists _, _, _. split; [vm_compute; reflexivity|]. split; [vm_compute; reflexivity|].
  split; [vm_compute; reflexivity|].
  refine (proj1 (encryption_roundtrip (G := toyGCM) "2025" [oldKey] _ "2026" [newKey; oldKey] _
    (replicate 12 x00) [x68; x69] _ _ _ _) oldKey _ _ _); [vm_compute; reflexivity..| | |].
  - left.
  - reflexivity.
  - right. left.
Defined.
