(* ===== verification/BrokerCalls.v ===== *)
(** * The broker interface (internal/broker/broker.go)

    [broker.Broker] as data: a constructor per method with its arguments, and
    what a method returns. A broker is then one function from a call to its
    effect and its reply, so that a decorator is a function between brokers.
    [memory] is the in-memory broker behind the interface. *)

From S2P Require Import Prelude Proto Events BrokerApi Memory Encryption.
From Stdlib Require Import Floats.SpecFloat Strings.Byte.

Inductive request :=
  | REnqueue (task : TaskEnvelope)
  | REnqueueBatch (tasks : list TaskEnvelope)
  | RLease (queue : string) (limit : Z) (ttl : Duration) (leaseID : string)
  | RLeaseGroup (queue group : string) (limit : Z) (ttl : Duration) (leaseID : string)
  | RGroupStats
  | RSetProgress (taskID leaseID : string) (percent : Z) (message : string)
  | RExtendLease (taskID leaseID : string) (ttl : Duration)
  | RAck (taskID leaseID : string) (result : list byte)
  | RAckBatch (items : list AckItem)
  | RFail (taskID leaseID errMsg : string) (processAt : Time)
  | RRelease (taskID leaseID : string)
  | RArchive (taskID leaseID errMsg : string)
  | RReapExpiredLeases (limit : Z)
  | RPromoteScheduled (limit : Z)
  | RResolveDependents (taskID : string)
  | RPromoteReadyDependents (limit : Z)
  | RPurgeTerminal (archiveRetention : Duration) (limit : Z)
  | RArchiveExpired (limit : Z)
  | RPendingCount
  | RQueueStats
  | RSetQueuePaused (queue : string) (paused : bool)
  | RQueuePaused (queue : string)
  | RSetQueueRateLimit (queue : string) (ratePerSec : spec_float) (burst : Z)
  | RDeleteQueueRateLimit (queue : string)
  | RQueueRateLimit (queue : string)
  | RQueueRateLimits
  | RSetQueueConcurrencyLimit (queue : string) (maxActive : Z)
  | RDeleteQueueConcurrencyLimit (queue : string)
  | RQueueConcurrencyLimit (queue : string)
  | RQueueConcurrencyLimits
  | RSetGroupConfig (queue group : string) (maxSize : Z) (maxDelay gracePeriod : Duration)
  | RDeleteGroupConfig (queue group : string)
  | RGroupConfigs
  | RInfo
  | RGetTask (id : string)
  | RListTasks (query : TaskQuery)
  | RCancelTask (id : string)
  | RDeleteTask (id : string)
  | RRunTaskNow (id : string)
  | RRescheduleTask (id : string) (processAt : Time)
  | RArchiveTask (id : string)
  | RUpsertCronEntry (entry : CronEntry)
  | RListCronEntries
  | RListDueCronEntries (now : Time)
  | RSetCronPaused (id : string) (paused : bool)
  | RUpdateCronNextRun (id : string) (expected next : Time)
  | RDeleteCronEntry (id : string)
  | RUpsertWebhookWorker (worker : WebhookWorker)
  | RGetWebhookWorker (name : string)
  | RListWebhookWorkers
  | RSetWebhookWorkerPaused (name : string) (paused : bool)
  | RDeleteWebhookWorker (name : string)
  | RSetEventSink
  | RClose.

(** The errors that cross the interface: a sentinel, a batch error, the cause a
    decorator wrapped, or a storage driver's error in its context, with the
    position and task of the batch member it is about. *)
Inductive callError :=
  | EBroker (err : BrokerError)
  | EBatch (err : BatchError)
  | EEncryption (err : EncryptionError)
  | EDriver (member : option (nat * string)) (context : string).

Inductive reply :=
  | Returned
  | Failed (err : callError)
  | Tasks (tasks : list TaskEnvelope)
  | Names (names : list string)
  | Number (n : Z)
  | Numbers (counts : gmap string Z)
  | Flag (flag : bool)
  | GroupStatList (stats : list GroupStat)
  | QueueStatList (stats : list QueueStat)
  | RateLimitFound (limit : option RateLimit)
  | RateLimitList (limits : list RateLimit)
  | ConcurrencyLimitFound (limit : option ConcurrencyLimit)
  | ConcurrencyLimitList (limits : list ConcurrencyLimit)
  | GroupConfigList (configs : list GroupConfig)
  | BrokerInformation (info : Info)
  | Task (task : TaskEnvelope) (state : TaskState)
  | Records (records : list TaskRecord)
  | CronEntries (entries : list CronEntry)
  | Worker (worker : WebhookWorker)
  | Workers (workers : list WebhookWorker).

(** A broker over the stores [B]: the effect and reply of a call at a clock
    reading. *)
Definition broker (B : Type) : Type := Time → request → B → B * reply.

(** The reply of a method that returns only an error. *)
Definition errorOnly {B} (p : B * option BrokerError) : B * reply :=
  (p.1, match p.2 with None => Returned | Some err => Failed (EBroker err) end).

Definition replying {B A} (f : A → reply) (p : B * A) : B * reply := (p.1, f p.2).

Section Memory.
Context {MR : MapRange}.

Definition memory : broker Broker := λ now r b,
  match r with
  | REnqueue task => errorOnly (Enqueue task now b)
  | REnqueueBatch tasks =>
      replying (λ e, match e with None => Returned | Some err => Failed (EBatch err) end)
        (EnqueueBatch tasks now b)
  | RLease queue limit ttl lid => replying Tasks (Lease queue limit ttl lid now b)
  | RLeaseGroup queue group limit ttl lid =>
      replying Tasks (LeaseGroup queue group limit ttl lid now b)
  | RGroupStats => (b, GroupStatList (GroupStats b))
  | RSetProgress id lid percent message => errorOnly (SetProgress id lid percent message b)
  | RExtendLease id lid ttl => errorOnly (ExtendLease id lid ttl now b)
  | RAck id lid result => errorOnly (Ack id lid result now b)
  | RAckBatch items => replying Names (AckBatch items now b)
  | RFail id lid msg at_ => errorOnly (Fail id lid msg at_ now b)
  | RRelease id lid => errorOnly (Release id lid now b)
  | RArchive id lid msg => errorOnly (Archive id lid msg now b)
  | RReapExpiredLeases limit => replying Names (ReapExpiredLeases limit now b)
  | RPromoteScheduled limit => replying Names (PromoteScheduled limit now b)
  | RResolveDependents id => replying Names (ResolveDependents id now b)
  | RPromoteReadyDependents limit => replying Names (PromoteReadyDependents limit now b)
  | RPurgeTerminal retention limit => replying Number (PurgeTerminal retention limit now b)
  | RArchiveExpired limit => replying Number (ArchiveExpired limit now b)
  | RPendingCount => (b, Numbers (PendingCount now b))
  | RQueueStats => (b, QueueStatList (QueueStats b))
  | RSetQueuePaused queue paused => (SetQueuePaused queue paused b, Returned)
  | RQueuePaused queue => (b, Flag (QueuePaused queue b))
  | RSetQueueRateLimit queue rate burst => (SetQueueRateLimit queue rate burst now b, Returned)
  | RDeleteQueueRateLimit queue => (DeleteQueueRateLimit queue b, Returned)
  | RQueueRateLimit queue => (b, RateLimitFound (QueueRateLimit queue b))
  | RQueueRateLimits => (b, RateLimitList (QueueRateLimits b))
  | RSetQueueConcurrencyLimit queue max => (SetQueueConcurrencyLimit queue max now b, Returned)
  | RDeleteQueueConcurrencyLimit queue => (DeleteQueueConcurrencyLimit queue b, Returned)
  | RQueueConcurrencyLimit queue => (b, ConcurrencyLimitFound (QueueConcurrencyLimit queue b))
  | RQueueConcurrencyLimits => (b, ConcurrencyLimitList (QueueConcurrencyLimits b))
  | RSetGroupConfig queue group max delay grace =>
      (SetGroupConfig queue group max delay grace now b, Returned)
  | RDeleteGroupConfig queue group => (DeleteGroupConfig queue group b, Returned)
  | RGroupConfigs => (b, GroupConfigList (GroupConfigs b))
  | RInfo => (b, BrokerInformation (BrokerInfo b))
  | RGetTask id =>
      (b, match GetTask id b with
          | inl (task, state) => Task task state
          | inr err => Failed (EBroker err)
          end)
  | RListTasks query => (b, Records (ListTasks query b))
  | RCancelTask id => errorOnly (CancelTask id now b)
  | RDeleteTask id => errorOnly (DeleteTask id b)
  | RRunTaskNow id => errorOnly (RunTaskNow id now b)
  | RRescheduleTask id at_ => errorOnly (RescheduleTask id at_ now b)
  | RArchiveTask id => errorOnly (ArchiveTask id now b)
  | RUpsertCronEntry entry => (UpsertCronEntry entry b, Returned)
  | RListCronEntries => (b, CronEntries (ListCronEntries b))
  | RListDueCronEntries at_ => (b, CronEntries (ListDueCronEntries at_ b))
  | RSetCronPaused id paused => errorOnly (SetCronPaused id paused b)
  | RUpdateCronNextRun id expected next => (UpdateCronNextRun id expected next b, Returned)
  | RDeleteCronEntry id => (DeleteCronEntry id b, Returned)
  | RUpsertWebhookWorker worker => (UpsertWebhookWorker worker b, Returned)
  | RGetWebhookWorker name =>
      (b, match GetWebhookWorker name b with
          | inl worker => Worker worker
          | inr err => Failed (EBroker err)
          end)
  | RListWebhookWorkers => (b, Workers (ListWebhookWorkers b))
  | RSetWebhookWorkerPaused name paused => errorOnly (SetWebhookWorkerPaused name paused b)
  | RDeleteWebhookWorker name => (DeleteWebhookWorker name b, Returned)
  | RSetEventSink => (SetEventSink b, Returned)
  | RClose => (b, Returned)
  end.
End Memory.
