(* ===== verification/Postgres.v ===== *)
(** * The PostgreSQL broker: tables and statements (internal/broker/postgres)

    The tables of the migrations as finite maps keyed by their primary keys and
    every SQL statement of [postgres.go] as a function on them. A nullable column
    is an [option], and a comparison with NULL does not hold. A statement takes its
    bind parameters as the database receives them, reads the tables and either
    fails, changing nothing, or returns the new tables with the rows it yields;
    [locked] are the rows other transactions hold, which SKIP LOCKED passes over.
    The order of rows no ORDER BY fixes is the [MapRange] order, one choice among
    all.

    PostgreSQL's and the driver's own behaviour is three parameters: how an
    instant is stored ([PgDriver]), how text is collated ([PgDriver]) and how
    protobuf messages become bytes ([ProtoWire]). *)

From S2P Require Import Prelude Proto Events BrokerApi.
From Stdlib Require Import Floats.SpecFloat Strings.Byte.

#[local] Open Scope Z_scope.

(** ** The database's own behaviour *)

(** [timestamptz] is the instant the database keeps: whole microseconds, in
    order. [collate] is the order of text under the database's collation, total
    and, for a deterministic collation, equal only on equal strings. *)
Class PgDriver := {
  timestamptz : Time → Time;
  timestamptz_mono : ∀ t u, t <= u → timestamptz t <= timestamptz u;
  timestamptz_whole : ∀ n, timestamptz (1000 * n) = 1000 * n;
  timestamptz_resolution : ∀ t, (1000 | timestamptz t);
  collate : string → string → Z;
  collate_comparator :: Comparator (λ _, True) collate;
  collate_eq : ∀ a b, collate a b = 0 ↔ a = b }.

(** [proto.Marshal] and [proto.Unmarshal]: a message that marshals reads back as
    itself, and only the all-zero options marshal to no bytes. *)
Class ProtoWire := {
  wire : Type;
  marshalEnvelope : TaskEnvelope → option wire;
  unmarshalTask : wire → option TaskEnvelope;
  unmarshal_marshal : ∀ e w, marshalEnvelope e = Some w → unmarshalTask w = Some e;
  marshalOptions : TaskOptions → option wire;
  unmarshalOptions : wire → option TaskOptions;
  unmarshal_options : ∀ o w, marshalOptions o = Some w → unmarshalOptions w = Some o;
  noBytes : wire;
  isEmpty : wire → bool;
  isEmpty_noBytes : isEmpty noBytes = true;
  isEmpty_options : ∀ o w, marshalOptions o = Some w → isEmpty w = true ↔ o = emptyTaskOptions }.

(** ** Column types *)

(** SMALLINT and INTEGER columns refuse a value outside their width. *)
Definition smallint (z : Z) : bool := (- 2 ^ 15 <=? z) && (z <? 2 ^ 15).
Definition integer (z : Z) : bool := (- 2 ^ 31 <=? z) && (z <? 2 ^ 31).

(** [Duration.Microseconds] and [Duration.Milliseconds] truncate toward zero. *)
Definition Microseconds (d : Duration) : Z := Z.quot d 1000.
Definition Milliseconds (d : Duration) : Z := Z.quot d 1000000.

(** [pgInterval]: an interval column keeps microseconds; here in nanoseconds. *)
Definition pgInterval (d : Duration) : Duration := Microseconds d * 1000.

Section Tables.
Context {PW : ProtoWire}.

(** A row of conveyor_tasks, under its id. *)
Record taskRec := mkTaskRec {
  pt_queue : string;
  pt_type : string;
  pt_state : TaskState;
  pt_priority : Z;
  pt_payload : wire;
  pt_unique_key : option string;
  pt_unique_expires_at : option Time;
  pt_process_at : Time;
  pt_deadline : option Time;
  pt_max_retry : Z;
  pt_retried : Z;
  pt_last_error : string;
  pt_lease_id : option string;
  pt_lease_expires_at : option Time;
  pt_result : option (list byte);
  pt_retention : Duration;
  pt_enqueued_at : Time;
  pt_completed_at : option Time;
  pt_updated_at : Time;
  pt_started_at : option Time;
  pt_group_key : string;
  pt_expires_at : option Time;
  pt_progress : Z;
  pt_progress_message : string }.

#[global] Instance taskRec_eta : Eta taskRec := λ r,
  mkTaskRec (pt_queue r) (pt_type r) (pt_state r) (pt_priority r) (pt_payload r)
    (pt_unique_key r) (pt_unique_expires_at r) (pt_process_at r) (pt_deadline r)
    (pt_max_retry r) (pt_retried r) (pt_last_error r) (pt_lease_id r) (pt_lease_expires_at r)
    (pt_result r) (pt_retention r) (pt_enqueued_at r) (pt_completed_at r) (pt_updated_at r)
    (pt_started_at r) (pt_group_key r) (pt_expires_at r) (pt_progress r) (pt_progress_message r).

(** A row of conveyor_group_configs, under (queue, group_key). *)
Record groupRec := mkGroupRec {
  pgc_max_size : Z;
  pgc_max_delay_ms : Z;
  pgc_grace_period_ms : Z;
  pgc_updated_at : Time }.

(** A row of conveyor_cron_entries, under its id. *)
Record cronRec := mkCronRec {
  pc_spec : string;
  pc_task_type : string;
  pc_queue : string;
  pc_payload : list byte;
  pc_content_type : string;
  pc_options : wire;
  pc_paused : bool;
  pc_next_run_at : option Time;
  pc_updated_at : Time }.

#[global] Instance cronRec_eta : Eta cronRec := λ c,
  mkCronRec (pc_spec c) (pc_task_type c) (pc_queue c) (pc_payload c) (pc_content_type c)
    (pc_options c) (pc_paused c) (pc_next_run_at c) (pc_updated_at c).

(** A row of conveyor_webhook_workers, under its name. The queues column is JSON,
    which keeps a map of names to integers as it is. *)
Record workerRec := mkWorkerRec {
  pw_url : string;
  pw_queues : gmap string Z;
  pw_concurrency : Z;
  pw_secrets : list string;
  pw_batch_types : list string;
  pw_request_timeout : Duration;
  pw_paused : bool;
  pw_updated_at : Time }.

#[global] Instance workerRec_eta : Eta workerRec := λ w,
  mkWorkerRec (pw_url w) (pw_queues w) (pw_concurrency w) (pw_secrets w) (pw_batch_types w)
    (pw_request_timeout w) (pw_paused w) (pw_updated_at w).

(** The tables; a dependency edge is under (dependent_id, dependency_id). *)
Record Db := mkDb {
  db_tasks : gmap string taskRec;
  db_deps : gmap (string * string) DependencyFailurePolicy;
  db_queue_state : gmap string (bool * Time);
  db_rate_limits : gmap string (spec_float * Z * Time);
  db_concurrency_limits : gmap string (Z * Time);
  db_group_configs : gmap (string * string) groupRec;
  db_cron_entries : gmap string cronRec;
  db_webhook_workers : gmap string workerRec }.

#[global] Instance Db_eta : Eta Db := λ d,
  mkDb (db_tasks d) (db_deps d) (db_queue_state d) (db_rate_limits d) (db_concurrency_limits d)
    (db_group_configs d) (db_cron_entries d) (db_webhook_workers d).

(** The tables the migrations create. *)
Definition emptyDb : Db := mkDb ∅ ∅ ∅ ∅ ∅ ∅ ∅ ∅.

(** ** Statements *)

(** [UniqueViolation] is SQLSTATE 23505 on conveyor_tasks_unique_idx, the only
    unique index besides the primary keys; [Unavailable] is a statement that did
    not answer. *)
Inductive sqlError := UniqueViolation | OutOfRange | Unavailable.

Definition sql (A : Type) : Type := Db → sqlError + (Db * A).

(** A statement that reads. *)
Definition reads {A} (f : Db → A) : sql A := λ db, inr (db, f db).

(** The key conveyor_tasks_unique_idx has for a row: the partial index covers the
    states 1 to 4. *)
Definition uniqueIdxKey (row : taskRec) : option string :=
  match pt_state row with
  | TASK_STATE_SCHEDULED | TASK_STATE_PENDING | TASK_STATE_ACTIVE | TASK_STATE_RETRY =>
      pt_unique_key row
  | _ => None
  end.

Definition uniqueIdxHolds (tasks : gmap string taskRec) : bool :=
  bool_decide (NoDup (omap (λ p, uniqueIdxKey p.2) (map_to_list tasks))).

(** The integer columns of a row. *)
Definition rowFits (row : taskRec) : bool :=
  smallint (pt_priority row) && integer (pt_max_retry row) && integer (pt_retried row) &&
  smallint (pt_progress row).

Context {MR : MapRange}.

(** UPDATE conveyor_tasks SET f for the selected ids, RETURNING the new rows. *)
Definition updateTasks (ids : list string) (f : taskRec → taskRec) : sql (list (string * taskRec)) :=
  λ db,
  let tasks := foldr (λ id tasks, alter f id tasks) (db_tasks db) ids in
  let updated := omap (λ id, pair id <$> tasks !! id) (range_keys (list_to_set ids : gset string)) in
  if negb (forallb (λ p, rowFits p.2) updated) then inl OutOfRange
  else if negb (uniqueIdxHolds tasks) then inl UniqueViolation
  else inr (db <| db_tasks := tasks |>, updated).

(** WHERE over conveyor_tasks, in no particular order. *)
Definition tasksWhere (cond : string → taskRec → bool) (db : Db) : list (string * taskRec) :=
  filter (λ p, cond p.1 p.2 = true) (range_map (db_tasks db)).

(** WHERE id = $1 AND cond. *)
Definition whereId (id : string) (cond : taskRec → bool) (db : Db) : list string :=
  match db_tasks db !! id with
  | Some row => if cond row then [id] else []
  | None => []
  end.

(** ORDER BY cmp LIMIT limit FOR UPDATE SKIP LOCKED, over the selected rows. *)
Definition skipLocked (locked : gset string) (cmp : string * taskRec → string * taskRec → Z)
    (limit : Z) (rows : list (string * taskRec)) : list (string * taskRec) :=
  take (Z.to_nat limit) (SortFunc cmp (filter (λ p, p.1 ∉ locked) rows)).

Definition inState (states : list TaskState) (row : taskRec) : bool := bool_decide (pt_state row ∈ states).

(** A nullable instant that is set and not after [at_]. *)
Definition reached (t : option Time) (at_ : Time) : bool :=
  match t with Some t => t <=? at_ | None => false end.

Definition heldBy (leaseID : string) (row : taskRec) : bool :=
  inState [TASK_STATE_ACTIVE] row && bool_decide (pt_lease_id row = Some leaseID).

(** ** Enqueue statements *)

(** ON CONFLICT (id) DO NOTHING: the number of rows inserted. *)
Definition insertTaskQuery (id : string) (row : taskRec) : sql Z := λ db,
  if negb (rowFits row) then inl OutOfRange
  else
    match db_tasks db !! id with
    | Some _ => inr (db, 0)
    | None =>
        let tasks := <[id := row]> (db_tasks db) in
        if uniqueIdxHolds tasks then inr (db <| db_tasks := tasks |>, 1) else inl UniqueViolation
    end.

Definition releaseClaim (now : Time) (row : taskRec) : taskRec :=
  row <| pt_unique_key := None |> <| pt_unique_expires_at := None |> <| pt_updated_at := now |>.

Definition releaseLapsedUniqueQuery (key : string) (now : Time) : sql unit := λ db,
  match updateTasks (tasksWhere (λ _ row,
      bool_decide (pt_unique_key row = Some key) && reached (pt_unique_expires_at row) now) db).*1
    (releaseClaim now) db with
  | inl err => inl err
  | inr (db, _) => inr (db, ())
  end.

Definition insertEdgeQuery (dependent dependency : string) (policy : DependencyFailurePolicy) : sql unit :=
  λ db, inr (match db_deps db !! (dependent, dependency) with
             | Some _ => db
             | None => db <| db_deps := <[(dependent, dependency) := policy]> (db_deps db) |>
             end, ()).

Definition dependencyStatesQuery (ids : gset string) : sql (list (string * TaskState)) :=
  reads (λ db, (λ p, (p.1, pt_state p.2)) <$> tasksWhere (λ id _, bool_decide (id ∈ ids)) db).

Definition stampCanceledQuery (id : string) (now : Time) : sql unit := λ db,
  match updateTasks (whereId id (inState [TASK_STATE_CANCELED]) db)
    (λ row, row <| pt_completed_at := Some now |>) db with
  | inl err => inl err
  | inr (db, _) => inr (db, ())
  end.

(** ** Sequencing within a statement *)

Definition thenReturning {A B} (m : sql A) (f : A → B) : sql B := λ db,
  match m db with inl err => inl err | inr (db, x) => inr (db, f x) end.

(** DELETE FROM conveyor_tasks for the selected ids, with the rows affected. *)
Definition deleteTasks (ids : list string) : sql Z := λ db,
  inr (db <| db_tasks := foldr delete (db_tasks db) ids |>, Z.of_nat (length ids)).

(** DELETE FROM conveyor_task_deps WHERE cond. *)
Definition deleteEdges (cond : string → string → bool) : sql unit := λ db,
  inr (db <| db_deps := filter (λ p, cond p.1.1 p.1.2 = false) (db_deps db) |>, ()).

Definition depended (id : string) (db : Db) : bool :=
  existsb (λ p, bool_decide (p.1.2 = id)) (range_map (db_deps db)).

Definition waitsOn (id : string) (db : Db) : bool :=
  existsb (λ p, bool_decide (p.1.1 = id)) (range_map (db_deps db)).

Definition terminalStates : list TaskState :=
  [TASK_STATE_COMPLETED; TASK_STATE_ARCHIVED; TASK_STATE_CANCELED].

(** ** Lease-scoped statements *)

Definition clearLease (row : taskRec) : taskRec :=
  row <| pt_lease_id := None |> <| pt_lease_expires_at := None |>.

Definition extendLeaseQuery (id leaseID : string) (expires now : Time) : sql Z := λ db,
  thenReturning (updateTasks (whereId id (heldBy leaseID) db)
    (λ row, row <| pt_lease_expires_at := Some expires |> <| pt_updated_at := now |>))
    (λ rows, Z.of_nat (length rows)) db.

Definition setProgressQuery (id leaseID : string) (percent : Z) (message : string) (now : Time)
    : sql Z := λ db,
  thenReturning (updateTasks (whereId id (heldBy leaseID) db)
    (λ row, row <| pt_progress := percent |> <| pt_progress_message := message |>
                <| pt_updated_at := now |>))
    (λ rows, Z.of_nat (length rows)) db.

(** The row ackQuery and ackBatchQuery write. *)
Definition completeRec (result : list byte) (now : Time) (row : taskRec) : taskRec :=
  clearLease row <| pt_state := TASK_STATE_COMPLETED |> <| pt_result := Some result |>
                 <| pt_completed_at := Some now |> <| pt_updated_at := now |>.

Definition ackQuery (id leaseID : string) (result : list byte) (now : Time)
    : sql (list (string * taskRec)) := λ db,
  updateTasks (whereId id (heldBy leaseID) db) (completeRec result now) db.

(** FROM unnest: a task named by several items joins several rows and is updated
    once, with one of their results; here the first. *)
Definition ackBatchQuery (now : Time) (items : list AckItem) : sql (list (string * taskRec)) := λ db,
  let matches id row :=
    filter (λ item, ack_TaskID item = id ∧ heldBy (ack_LeaseID item) row = true) items in
  let ids := (tasksWhere (λ id row, bool_decide (matches id row ≠ [])) db).*1 in
  let tasks := foldr (λ id tasks,
      match db_tasks db !! id with
      | Some row =>
          match matches id row with
          | item :: _ => <[id := completeRec (ack_Result item) now row]> tasks
          | [] => tasks
          end
      | None => tasks
      end) (db_tasks db) ids in
  let updated := omap (λ id, pair id <$> tasks !! id) (range_keys (list_to_set ids : gset string)) in
  inr (db <| db_tasks := tasks |>, updated).

Definition failQuery (id leaseID errMsg : string) (processAt now : Time)
    : sql (list (string * taskRec)) := λ db,
  updateTasks (whereId id (heldBy leaseID) db)
    (λ row, clearLease row <| pt_state := TASK_STATE_RETRY |> <| pt_retried := pt_retried row + 1 |>
       <| pt_last_error := errMsg |> <| pt_process_at := processAt |> <| pt_updated_at := now |>) db.

Definition releaseQuery (id leaseID : string) (now : Time) : sql (list (string * taskRec)) := λ db,
  updateTasks (whereId id (heldBy leaseID) db)
    (λ row, clearLease row <| pt_state := TASK_STATE_PENDING |> <| pt_process_at := now |>
       <| pt_updated_at := now |>) db.

(** The row the archiving statements write. *)
Definition archiveRec (errMsg : string) (now : Time) (row : taskRec) : taskRec :=
  clearLease row <| pt_state := TASK_STATE_ARCHIVED |> <| pt_last_error := errMsg |>
                 <| pt_completed_at := Some now |> <| pt_updated_at := now |>.

Definition archiveLeasedQuery (id leaseID errMsg : string) (now : Time)
    : sql (list (string * taskRec)) := λ db,
  updateTasks (whereId id (heldBy leaseID) db) (archiveRec errMsg now) db.

(** WITH prev: the state before the update beside each updated row. *)
Definition withOldState (id : string) (m : Db → sql (list (string * taskRec)))
    : sql (list (TaskState * (string * taskRec))) := λ db,
  match db_tasks db !! id with
  | Some prev => thenReturning (m db) (fmap (pair (pt_state prev))) db
  | None => inr (db, [])
  end.

Definition archiveAnyQuery (id errMsg : string) (now : Time)
    : sql (list (TaskState * (string * taskRec))) :=
  withOldState id (λ db,
    updateTasks (whereId id (λ row, negb (inState [TASK_STATE_COMPLETED] row)) db)
      (archiveRec errMsg now)).

(** ** Administrative statements *)

Definition cancelTaskQuery (id : string) (now : Time) : sql (list (string * taskRec)) := λ db,
  updateTasks (whereId id (inState [TASK_STATE_SCHEDULED; TASK_STATE_PENDING; TASK_STATE_RETRY;
      TASK_STATE_AGGREGATING; TASK_STATE_BLOCKED]) db)
    (λ row, row <| pt_state := TASK_STATE_CANCELED |> <| pt_completed_at := Some now |>
                <| pt_updated_at := now |>) db.

Definition deleteTaskQuery (id : string) : sql Z := λ db,
  deleteTasks (whereId id (λ row, negb (inState [TASK_STATE_ACTIVE] row)) db) db.

Definition runTaskNowQuery (id : string) (now : Time)
    : sql (list (TaskState * (string * taskRec))) :=
  withOldState id (λ db,
    updateTasks (whereId id (inState [TASK_STATE_SCHEDULED; TASK_STATE_PENDING; TASK_STATE_RETRY;
        TASK_STATE_ARCHIVED]) db)
      (λ row, row <| pt_state := TASK_STATE_PENDING |> <| pt_process_at := now |>
                  <| pt_completed_at := None |> <| pt_updated_at := now |>)).

Definition rescheduleQuery (id : string) (processAt : Time) (newState : TaskState) (now : Time)
    : sql (list (TaskState * (string * taskRec))) :=
  withOldState id (λ db,
    updateTasks (whereId id (inState [TASK_STATE_SCHEDULED; TASK_STATE_PENDING; TASK_STATE_RETRY]) db)
      (λ row, row <| pt_state := newState |> <| pt_process_at := processAt |>
                  <| pt_updated_at := now |>)).

Definition archiveWaitingQuery (id : string) (now : Time) : sql (list (string * taskRec)) := λ db,
  updateTasks (whereId id (inState [TASK_STATE_SCHEDULED; TASK_STATE_PENDING; TASK_STATE_RETRY;
      TASK_STATE_BLOCKED]) db)
    (λ row, row <| pt_state := TASK_STATE_ARCHIVED |> <| pt_completed_at := Some now |>
                <| pt_updated_at := now |>) db.

(** SELECT state FROM conveyor_tasks WHERE id = $1. *)
Definition taskStateQuery (id : string) : sql (option TaskState) :=
  reads (λ db, pt_state <$> db_tasks db !! id).

(** ** Leasing *)

Context {PD : PgDriver}.

(** ORDER BY priority DESC, process_at, id. *)
Definition byDispatch (a b : string * taskRec) : Z :=
  cmp_lex (λ a b, time_Compare (pt_priority b.2) (pt_priority a.2))
    (cmp_lex (λ a b, time_Compare (pt_process_at a.2) (pt_process_at b.2))
             (λ a b : string * taskRec, collate a.1 b.1)) a b.

(** ORDER BY enqueued_at, id. *)
Definition byEnqueue (a b : string * taskRec) : Z :=
  cmp_lex (λ a b, time_Compare (pt_enqueued_at a.2) (pt_enqueued_at b.2))
          (λ a b : string * taskRec, collate a.1 b.1) a b.

Definition claimRec (leaseID : string) (now expires : Time) (row : taskRec) : taskRec :=
  row <| pt_state := TASK_STATE_ACTIVE |> <| pt_lease_id := Some leaseID |>
      <| pt_lease_expires_at := Some expires |> <| pt_started_at := Some now |>
      <| pt_updated_at := now |> <| pt_progress := 0 |> <| pt_progress_message := "" |>.

(** The rows leaseQuery selects: due, not expired. *)
Definition dueForLease (queue : string) (now : Time) (row : taskRec) : bool :=
  bool_decide (pt_queue row = queue) && inState [TASK_STATE_PENDING; TASK_STATE_RETRY] row &&
  (pt_process_at row <=? now) && negb (reached (pt_expires_at row) now).

(** The trailing SELECT orders by the selected columns, which the update leaves. *)
Definition leaseQuery (locked : gset string) (queue : string) (limit : Z) (leaseID : string)
    (now expires : Time) : sql (list (string * taskRec)) := λ db,
  let due := skipLocked locked byDispatch limit (tasksWhere (λ _, dueForLease queue now) db) in
  thenReturning (updateTasks due.*1 (claimRec leaseID now expires)) (SortFunc byDispatch) db.

Definition leaseGroupQuery (locked : gset string) (queue group : string) (limit : Z)
    (leaseID : string) (now expires : Time) : sql (list (string * taskRec)) := λ db,
  let due := skipLocked locked byEnqueue limit (tasksWhere (λ _ row,
      bool_decide (pt_queue row = queue) && bool_decide (pt_group_key row = group) &&
      inState [TASK_STATE_AGGREGATING] row) db) in
  thenReturning (updateTasks due.*1 (claimRec leaseID now expires)) (SortFunc byEnqueue) db.

(** ** Sweeps *)

(** ORDER BY a nullable instant, set in the rows selected. *)
Definition byTime (f : taskRec → option Time) (a b : string * taskRec) : Z :=
  time_Compare (default 0 (f a.2)) (default 0 (f b.2)).

Definition reapRec (message : string) (now : Time) (row : taskRec) : taskRec :=
  let exhausted := pt_max_retry row <=? pt_retried row in
  clearLease row
    <| pt_state := if exhausted then TASK_STATE_ARCHIVED else TASK_STATE_RETRY |>
    <| pt_retried := if exhausted then pt_retried row else pt_retried row + 1 |>
    <| pt_process_at := if exhausted then pt_process_at row else now |>
    <| pt_completed_at := if exhausted then Some now else pt_completed_at row |>
    <| pt_last_error := message |> <| pt_updated_at := now |>.

Definition reapQuery (locked : gset string) (limit : Z) (now : Time) (message : string)
    : sql (list (string * taskRec)) := λ db,
  let expired := skipLocked locked (byTime pt_lease_expires_at) limit (tasksWhere (λ _ row,
      inState [TASK_STATE_ACTIVE] row && reached (pt_lease_expires_at row) now) db) in
  updateTasks expired.*1 (reapRec message now) db.

Definition promoteQuery (locked : gset string) (limit : Z) (now : Time)
    : sql (list (string * taskRec)) := λ db,
  let due := skipLocked locked (byTime (λ row, Some (pt_process_at row))) limit (tasksWhere (λ _ row,
      inState [TASK_STATE_SCHEDULED] row && (pt_process_at row <=? now)) db) in
  updateTasks due.*1 (λ row, row <| pt_state := TASK_STATE_PENDING |> <| pt_updated_at := now |>) db.

Definition archiveExpiredQuery (locked : gset string) (now : Time) (limit : Z) (message : string)
    : sql (list (string * taskRec)) := λ db,
  let expired := skipLocked locked (byTime pt_expires_at) limit (tasksWhere (λ _ row,
      inState [TASK_STATE_SCHEDULED; TASK_STATE_PENDING; TASK_STATE_RETRY; TASK_STATE_BLOCKED] row &&
      reached (pt_expires_at row) now) db) in
  updateTasks expired.*1 (archiveRec message now) db.

Definition releaseAllLapsed (now : Time) : sql unit := λ db,
  thenReturning (updateTasks (tasksWhere (λ _ row,
      bool_decide (is_Some (pt_unique_key row)) && reached (pt_unique_expires_at row) now) db).*1
    (releaseClaim now)) (λ _, ()) db.

Definition dropTerminalDependentEdgesQuery : sql unit := λ db,
  deleteEdges (λ dependent _,
    match db_tasks db !! dependent with
    | Some row => inState terminalStates row
    | None => true
    end) db.

Definition purgeCompletedQuery (locked : gset string) (now : Time) (limit : Z) : sql Z := λ db,
  let expired := skipLocked locked (byTime pt_completed_at) limit (tasksWhere (λ id row,
      inState [TASK_STATE_COMPLETED] row &&
      reached ((λ t, t + pt_retention row) <$> pt_completed_at row) now &&
      negb (depended id db)) db) in
  deleteTasks expired.*1 db.

Definition purgeArchivedQuery (locked : gset string) (cutoff : Time) (limit : Z) : sql Z := λ db,
  let expired := skipLocked locked (byTime pt_completed_at) limit (tasksWhere (λ id row,
      inState [TASK_STATE_ARCHIVED; TASK_STATE_CANCELED] row &&
      reached (pt_completed_at row) cutoff && negb (depended id db)) db) in
  deleteTasks expired.*1 db.

(** ** Dependency statements *)

Definition hasDependentsQuery (id : string) : sql bool := reads (depended id).

Definition hasWaitingDependentsQuery (id : string) : sql bool := reads (λ db,
  existsb (λ p,
    bool_decide (p.1.2 = id) && bool_decide (is_Some (db_tasks db !! p.1.2)) &&
    match db_tasks db !! p.1.1 with
    | Some dependent => negb (inState terminalStates dependent)
    | None => false
    end) (range_map (db_deps db))).

(** ORDER BY dependent_id. *)
Definition edgesForDependencyQuery (dependency : string)
    : sql (list (string * DependencyFailurePolicy)) := reads (λ db,
  SortFunc (λ a b, collate a.1 b.1)
    ((λ p, (p.1.1, p.2)) <$> filter (λ p, p.1.2 = dependency) (range_map (db_deps db)))).

Definition dropSatisfiedEdgesQuery (dependency : string) (dependents : list string) : sql unit :=
  deleteEdges (λ dependent' dependency',
    bool_decide (dependency' = dependency) && bool_decide (dependent' ∈ dependents)).

Definition dropDependentEdgesQuery (dependent : string) : sql unit :=
  deleteEdges (λ dependent' _, bool_decide (dependent' = dependent)).

Definition cascadeCancelQuery (id : string) (now : Time) (message : string)
    : sql (list (string * taskRec)) := λ db,
  updateTasks (whereId id (inState [TASK_STATE_BLOCKED]) db)
    (λ row, row <| pt_state := TASK_STATE_CANCELED |> <| pt_completed_at := Some now |>
                <| pt_last_error := message |> <| pt_updated_at := now |>) db.

(** Whether the row was there to lock; the lock itself is held to the end of the
    transaction. *)
Definition lockBlockedDependentQuery (id : string) : sql bool := reads (λ db,
  bool_decide (whereId id (inState [TASK_STATE_BLOCKED]) db ≠ [])).

(** The row a blocked task is promoted to. *)
Definition unblockRec (now : Time) (row : taskRec) : taskRec :=
  row <| pt_state :=
           if negb (bool_decide (pt_group_key row = "")) then TASK_STATE_AGGREGATING
           else if now <? pt_process_at row then TASK_STATE_SCHEDULED
           else TASK_STATE_PENDING |>
      <| pt_updated_at := now |>.

Definition promoteDependentQuery (id : string) (now : Time) : sql (list (string * taskRec)) := λ db,
  updateTasks (whereId id (λ row, inState [TASK_STATE_BLOCKED] row && negb (waitsOn id db)) db)
    (unblockRec now) db.

Definition readyDependenciesQuery (limit : Z) : sql (list string) := reads (λ db,
  let ready := filter (λ p, match db_tasks db !! p.1.2 with
                            | Some row => inState terminalStates row
                            | None => false
                            end = true) (range_map (db_deps db)) in
  take (Z.to_nat limit) (range_keys (list_to_set ((λ p, p.1.2) <$> ready) : gset string))).

Definition promoteOrphanBlockedQuery (locked : gset string) (limit : Z) (now : Time)
    : sql (list (string * taskRec)) := λ db,
  let ready := skipLocked locked (λ _ _, 0) limit (tasksWhere (λ id row,
      inState [TASK_STATE_BLOCKED] row && negb (waitsOn id db)) db) in
  updateTasks ready.*1 (unblockRec now) db.

(** ** Statistics *)

Definition pendingCountQuery (now : Time) : sql (gmap string Z) := reads (λ db,
  foldl (λ counts p,
    <[pt_queue p.2 := default 0 (counts !! pt_queue p.2) + 1]> counts) ∅
    (tasksWhere (λ _ row,
       inState [TASK_STATE_PENDING; TASK_STATE_RETRY] row && (pt_process_at row <=? now)) db)).

(** GROUP BY a key: the groups in no particular order, each with its rows. *)
Definition groupBy {K} `{Countable K} (key : taskRec → K) (rows : list (string * taskRec))
    : list (K * list taskRec) :=
  (λ k, (k, filter (λ row, key row = k) rows.*2)) <$>
    range_keys (list_to_set ((λ p, key p.2) <$> rows) : gset K).

(** MIN over a text column and MIN and MAX over an instant. *)
Definition minText (l : list string) : string := default "" (head (SortFunc collate l)).
Definition minTime (l : list Time) : Time := default 0 (head (SortFunc time_Compare l)).
Definition maxTime (l : list Time) : Time := default 0 (last (SortFunc time_Compare l)).

Definition groupStatsQuery : sql (list GroupStat) := reads (λ db,
  SortFunc (cmp_lex (λ a b, collate (gs_Queue a) (gs_Queue b)) (λ a b, collate (gs_Group a) (gs_Group b)))
    ((λ '(k, rows), mkGroupStat k.1 k.2 (minText (pt_type <$> rows)) (Z.of_nat (length rows))
        (minTime (pt_enqueued_at <$> rows)) (maxTime (pt_enqueued_at <$> rows))) <$>
      groupBy (λ row, (pt_queue row, pt_group_key row))
        (tasksWhere (λ _, inState [TASK_STATE_AGGREGATING]) db))).

#[local] Instance TaskState_countable : Countable TaskState.
Proof.
  refine (inj_countable (λ s,
    match s with
    | TASK_STATE_UNSPECIFIED => 0%nat | TASK_STATE_SCHEDULED => 1%nat | TASK_STATE_PENDING => 2%nat
    | TASK_STATE_ACTIVE => 3%nat | TASK_STATE_RETRY => 4%nat | TASK_STATE_COMPLETED => 5%nat
    | TASK_STATE_ARCHIVED => 6%nat | TASK_STATE_CANCELED => 7%nat
    | TASK_STATE_AGGREGATING => 8%nat | TASK_STATE_BLOCKED => 9%nat
    end) (λ n,
    match n with
    | 0%nat => Some TASK_STATE_UNSPECIFIED | 1%nat => Some TASK_STATE_SCHEDULED
    | 2%nat => Some TASK_STATE_PENDING | 3%nat => Some TASK_STATE_ACTIVE
    | 4%nat => Some TASK_STATE_RETRY | 5%nat => Some TASK_STATE_COMPLETED
    | 6%nat => Some TASK_STATE_ARCHIVED | 7%nat => Some TASK_STATE_CANCELED
    | 8%nat => Some TASK_STATE_AGGREGATING | 9%nat => Some TASK_STATE_BLOCKED
    | _ => None
    end) _).
  by intros [].
Defined.

(** The full outer join of the counts per (queue, state) with the pause flags: a
    queue with a flag and no task has one row without a state. *)
Definition queueStatsQuery : sql (list (string * bool * option (TaskState * Z))) := reads (λ db,
  let counts := groupBy (λ row, (pt_queue row, pt_state row)) (range_map (db_tasks db)) in
  let paused queue := match db_queue_state db !! queue with Some (p, _) => p | None => false end in
  let idle := filter (λ p, p.1 ∉ (λ c, c.1.1) <$> counts) (range_map (db_queue_state db)) in
  SortFunc (λ a b, collate a.1.1 b.1.1)
    (((λ '(k, rows), (k.1, paused k.1, Some (k.2, Z.of_nat (length rows)))) <$> counts) ++
     ((λ '(queue, s), (queue, s.1, None)) <$> idle))).

(** ** Configuration *)

Definition upsertPause (queue : string) (paused : bool) (now : Time) : sql unit := λ db,
  inr (db <| db_queue_state := <[queue := (paused, now)]> (db_queue_state db) |>, ()).

Definition selectPaused (queue : string) : sql (option bool) :=
  reads (λ db, fst <$> db_queue_state db !! queue).

Definition upsertRateLimit (queue : string) (rate : spec_float) (burst : Z) (now : Time) : sql unit := λ db,
  if integer burst then
    inr (db <| db_rate_limits := <[queue := (rate, burst, now)]> (db_rate_limits db) |>, ())
  else inl OutOfRange.

Definition deleteRateLimit (queue : string) : sql unit := λ db,
  inr (db <| db_rate_limits := delete queue (db_rate_limits db) |>, ()).

Definition selectRateLimit (queue : string) : sql (option (spec_float * Z * Time)) :=
  reads (λ db, db_rate_limits db !! queue).

(** ORDER BY the primary key. *)
Definition byKey {V} (a b : string * V) : Z := collate a.1 b.1.

Definition selectRateLimits : sql (list (string * (spec_float * Z * Time))) :=
  reads (λ db, SortFunc byKey (range_map (db_rate_limits db))).

Definition upsertConcurrencyLimit (queue : string) (maxActive : Z) (now : Time) : sql unit := λ db,
  if integer maxActive then
    inr (db <| db_concurrency_limits := <[queue := (maxActive, now)]> (db_concurrency_limits db) |>, ())
  else inl OutOfRange.

Definition deleteConcurrencyLimit (queue : string) : sql unit := λ db,
  inr (db <| db_concurrency_limits := delete queue (db_concurrency_limits db) |>, ()).

Definition selectConcurrencyLimit (queue : string) : sql (option (Z * Time)) :=
  reads (λ db, db_concurrency_limits db !! queue).

Definition selectConcurrencyLimits : sql (list (string * (Z * Time))) :=
  reads (λ db, SortFunc byKey (range_map (db_concurrency_limits db))).

Definition upsertGroupConfig (queue group : string) (row : groupRec) : sql unit := λ db,
  if integer (pgc_max_size row) then
    inr (db <| db_group_configs := <[(queue, group) := row]> (db_group_configs db) |>, ())
  else inl OutOfRange.

Definition deleteGroupConfig (queue group : string) : sql unit := λ db,
  inr (db <| db_group_configs := delete (queue, group) (db_group_configs db) |>, ()).

Definition selectGroupConfigs : sql (list (string * string * groupRec)) := reads (λ db,
  SortFunc (cmp_lex (λ a b, collate a.1.1 b.1.1) (λ a b, collate a.1.2 b.1.2))
    (range_map (db_group_configs db))).

(** ** Task queries *)

Definition selectTask (id : string) : sql (option taskRec) := reads (λ db, db_tasks db !! id).

(** The conditions [ListTasks] adds for the fields the query sets, ORDER BY id
    DESC LIMIT. *)
Definition selectTasks (query : TaskQuery) (limit : Z) : sql (list taskRec) := reads (λ db,
  (take (Z.to_nat limit) (SortFunc (λ a b, collate b.1 a.1) (tasksWhere (λ id row,
     (bool_decide (query_Queue query = "") || bool_decide (pt_queue row = query_Queue query)) &&
     (bool_decide (query_State query = TASK_STATE_UNSPECIFIED) ||
      bool_decide (pt_state row = query_State query)) &&
     (bool_decide (query_AfterID query = "") || (collate id (query_AfterID query) <? 0))) db))).*2).

(** ** Cron entries *)

Definition upsertEntry (id : string) (row : cronRec) : sql unit := λ db,
  inr (db <| db_cron_entries := <[id := row]> (db_cron_entries db) |>, ()).

Definition updateNextRun (id : string) (expected : option Time) (next : Time) : sql unit := λ db,
  inr (db <| db_cron_entries := alter (λ row,
         if decide (pc_next_run_at row = expected) then row <| pc_next_run_at := Some next |> else row)
         id (db_cron_entries db) |>, ()).

Definition selectCronEntries : sql (list (string * cronRec)) :=
  reads (λ db, SortFunc byKey (range_map (db_cron_entries db))).

Definition selectDueCronEntries (now : Time) : sql (list (string * cronRec)) := reads (λ db,
  SortFunc byKey (filter (λ p, negb (pc_paused p.2) &&
    match pc_next_run_at p.2 with None => true | Some t => t <=? now end = true)
    (range_map (db_cron_entries db)))).

Definition pauseEntry (id : string) (paused : bool) (now : Time) : sql Z := λ db,
  inr (db <| db_cron_entries := alter (λ row,
         row <| pc_paused := paused |> <| pc_updated_at := now |>) id (db_cron_entries db) |>,
       if decide (is_Some (db_cron_entries db !! id)) then 1 else 0).

Definition deleteEntry (id : string) : sql unit := λ db,
  inr (db <| db_cron_entries := delete id (db_cron_entries db) |>, ()).

Definition countCronEntries : sql Z := reads (λ db, Z.of_nat (size (db_cron_entries db))).

(** ** Webhook workers *)

Definition upsertWorker (name : string) (row : workerRec) : sql unit := λ db,
  if integer (pw_concurrency row) then
    inr (db <| db_webhook_workers := <[name := row]> (db_webhook_workers db) |>, ())
  else inl OutOfRange.

Definition selectWorker (name : string) : sql (list (string * workerRec)) := reads (λ db,
  match db_webhook_workers db !! name with Some row => [(name, row)] | None => [] end).

Definition selectWorkers : sql (list (string * workerRec)) :=
  reads (λ db, SortFunc byKey (range_map (db_webhook_workers db))).

Definition pauseWorker (name : string) (paused : bool) (now : Time) : sql Z := λ db,
  inr (db <| db_webhook_workers := alter (λ row,
         row <| pw_paused := paused |> <| pw_updated_at := now |>) name (db_webhook_workers db) |>,
       if decide (is_Some (db_webhook_workers db !! name)) then 1 else 0).

Definition deleteWorker (name : string) : sql unit := λ db,
  inr (db <| db_webhook_workers := delete name (db_webhook_workers db) |>, ()).
End Tables.

(** ** A database to run on *)

(** Instants truncated to the microsecond, text compared by its bytes (the "C"
    collation). *)
Definition micro (t : Time) : Time := 1000 * (t / 1000).

Lemma micro_mono t u : t <= u → micro t <= micro u.
Proof. unfold micro. intros H. pose proof (Z.div_le_mono t u 1000). lia. Qed.
Lemma micro_whole n : micro (1000 * n) = 1000 * n.
Proof. unfold micro. rewrite (Z.mul_comm 1000 n), Z.div_mul; lia. Qed.
Lemma micro_resolution t : (1000 | micro t).
Proof. unfold micro. apply Z.divide_factor_l. Qed.

Definition microDriver : PgDriver := {|
  timestamptz := micro;
  timestamptz_mono := micro_mono;
  timestamptz_whole := micro_whole;
  timestamptz_resolution := micro_resolution;
  collate := strings_Compare;
  collate_comparator := strings_Compare_comparator;
  collate_eq := strings_Compare_eq |}.

#[local] Instance TaskOptions_eq_dec : EqDecision TaskOptions.
Proof.
  assert (EqDecision RetryPolicy) by solve_decision.
  assert (EqDecision TaskDependency) by solve_decision.
  solve_decision.
Defined.

(** Messages kept as they are; the all-zero options have no bytes. *)
Definition plainOptions (o : TaskOptions) : option (TaskEnvelope + TaskOptions) :=
  if decide (o = emptyTaskOptions) then None else Some (inr o).
Definition plainEmpty (w : option (TaskEnvelope + TaskOptions)) : bool :=
  match w with None => true | Some _ => false end.

Lemma plain_options o w :
  Some (plainOptions o) = Some w →
  match w with Some (inr o) => Some o | Some (inl _) => None | None => Some emptyTaskOptions end = Some o.
Proof. intros [= <-]. unfold plainOptions. by case_decide; subst. Qed.
Lemma plain_empty o w :
  Some (plainOptions o) = Some w → plainEmpty w = true ↔ o = emptyTaskOptions.
Proof. intros [= <-]. unfold plainOptions. by case_decide. Qed.
Lemma plain_task (e : TaskEnvelope) (w : option (TaskEnvelope + TaskOptions)) :
  Some (Some (inl e)) = Some w → match w with Some (inl e) => Some e | _ => None end = Some e.
Proof. by intros [= <-]. Qed.

Definition plainWire : ProtoWire := {|
  wire := option (TaskEnvelope + TaskOptions);
  marshalEnvelope := λ e, Some (Some (inl e));
  unmarshalTask := λ w, match w with Some (inl e) => Some e | _ => None end;
  unmarshal_marshal := plain_task;
  marshalOptions := λ o, Some (plainOptions o);
  unmarshalOptions := λ w,
    match w with Some (inr o) => Some o | Some (inl _) => None | None => Some emptyTaskOptions end;
  unmarshal_options := plain_options;
  noBytes := None;
  isEmpty := plainEmpty;
  isEmpty_noBytes := eq_refl;
  isEmpty_options := plain_empty |}.
