(* ===== verification/PostgresBroker.v ===== *)
(** * The PostgreSQL broker: methods (internal/broker/postgres/postgres.go)

    Every method of the broker over the statements of [Postgres.v]. A method runs
    its statements one after the other, each atomic; statements between a Begin and
    a Commit take effect together or not at all. Each round trip meets the next
    fault of the schedule [ps_faults]: it is answered, or refused before it had an
    effect, or takes effect and its reply is lost. A call is executed against a
    database no other call writes to meanwhile; rows other transactions hold are
    [ps_locked]. A call reads the clock once. *)

From S2P Require Import Prelude Proto Events BrokerApi Encryption BrokerCalls Postgres.
From stdpp Require Import pretty.
From Stdlib Require Import Floats.SpecFloat Strings.Byte.

#[local] Open Scope Z_scope.

Inductive fault := Answered | Refused | ReplyLost.

(** [pgxpool.Stat], the counters [Info] reports. *)
Record poolStat := mkPoolStat {
  TotalConns : Z; AcquiredConns : Z; IdleConns : Z; MaxConns : Z }.

(** What the server says of itself: the planner's row estimate for the task table
    (NULL without the table) and its version. *)
Record serverInfo := mkServerInfo {
  si_stat : poolStat; si_reltuples : option Z; si_version : string }.

Section Broker.
Context {PW : ProtoWire} {MR : MapRange} {PD : PgDriver}.

(** [ps_sink] is whether a sink is wired and [ps_emitted] what it received. *)
Record Store := mkStore {
  ps_db : Db;
  ps_sink : bool;
  ps_emitted : list TaskEvent;
  ps_faults : list fault;
  ps_locked : gset string;
  ps_server : serverInfo }.

#[global] Instance Store_eta : Eta Store := λ s,
  mkStore (ps_db s) (ps_sink s) (ps_emitted s) (ps_faults s) (ps_locked s) (ps_server s).

(** The broker over the tables just migrated. *)
Definition NewWithPool (info : serverInfo) : Store := mkStore emptyDb false [] [] ∅ info.

(** ** Round trips *)

Definition pg (E A : Type) : Type := Store → Store * (E + A).

Definition ret {E A} (x : A) : pg E A := λ s, (s, inr x).
Definition fail {E A} (err : E) : pg E A := λ s, (s, inl err).
Definition bind {E A B} (m : pg E A) (k : A → pg E B) : pg E B := λ s,
  let '(s, r) := m s in match r with inl err => (s, inl err) | inr x => k x s end.

Definition nextFault (s : Store) : fault * Store :=
  match ps_faults s with
  | [] => (Answered, s)
  | f :: faults => (f, s <| ps_faults := faults |>)
  end.

(** One statement, alone or within the transaction under way. *)
Definition exec {A} (q : sql A) : pg sqlError A := λ s,
  let '(f, s) := nextFault s in
  match f with
  | Refused => (s, inl Unavailable)
  | Answered | ReplyLost =>
      match q (ps_db s) with
      | inl err => (s, inl err)
      | inr (db, x) =>
          (s <| ps_db := db |>, match f with Answered => inr x | _ => inl Unavailable end)
      end
  end.

(** A statement that reads the rows other transactions hold. *)
Definition execLocked {A} (q : gset string → sql A) : pg sqlError A := λ s, exec (q (ps_locked s)) s.

(** [fmt.Errorf("context: %w", err)]. *)
Definition wrapping {A} (context : string) (m : pg sqlError A) : pg callError A := λ s,
  let '(s, r) := m s in
  (s, match r with inl _ => inl (EDriver None context) | inr x => inr x end).

(** Begin, the body, and Commit, with the deferred [rollback]: an error of the
    body, or a refused commit, leaves the tables as they were. A failed rollback
    only adds to the error. *)
Definition transaction {A} (beginContext commitContext : string) (body : pg callError A)
    : pg callError A := λ s,
  let '(f, s0) := nextFault s in
  match f with
  | Refused | ReplyLost => (s0, inl (EDriver None beginContext))
  | Answered =>
      let '(s1, r) := body s0 in
      match r with
      | inl err => ((nextFault s1).2 <| ps_db := ps_db s0 |>, inl err)
      | inr x =>
          let '(f, s2) := nextFault s1 in
          match f with
          | Answered => (s2, inr x)
          | Refused => (s2 <| ps_db := ps_db s0 |>, inl (EDriver None commitContext))
          | ReplyLost => (s2, inl (EDriver None commitContext))
          end
      end
  end.

Local Notation "x <- m ;; k" := (bind m (λ x, k)) (at level 100, m at next level, right associativity).
Local Notation "m ;;; k" := (bind m (λ _, k)) (at level 100, right associativity).

(** ** Events *)

Definition SetEventSink (s : Store) : Store := s <| ps_sink := true |>.

Definition eventSink {E} : pg E bool := λ s, (s, inr (ps_sink s)).

Definition emitEvent {E} (event : option TaskEvent) : pg E unit := λ s,
  (match event with
   | Some event => if ps_sink s then s <| ps_emitted := ps_emitted s ++ [event] |> else s
   | None => s
   end, inr ()).

Definition emit {E} (oldState newState : TaskState) (id queue taskType lastError : string)
    (attempt : Z) (occurredAt : Time) : pg E unit := λ s,
  if ps_sink s then
    emitEvent (Derive oldState newState id queue taskType lastError attempt occurredAt) s
  else (s, inr ()).

Fixpoint emitAll {E} (events : list TaskEvent) : pg E unit :=
  match events with
  | [] => ret ()
  | event :: events => emitEvent (Some event) ;;; emitAll events
  end.

Record rowChange := mkRowChange {
  rc_id : string;
  rc_queue : string;
  rc_taskType : string;
  rc_state : TaskState;
  rc_retried : Z;
  rc_lastError : string }.

Definition scanChange (p : string * taskRec) : rowChange :=
  mkRowChange p.1 (pt_queue p.2) (pt_type p.2) (pt_state p.2) (pt_retried p.2) (pt_last_error p.2).

Definition emitChange {E} (taskID : string) (oldState : TaskState) (change : rowChange)
    (occurredAt : Time) : pg E unit :=
  emit oldState (rc_state change) taskID (rc_queue change) (rc_taskType change)
    (rc_lastError change) (rc_retried change) occurredAt.

(** A loop of emissions over the scanned rows, each from [oldState]. *)
Fixpoint emitChanges {E} (oldState : TaskState) (changes : list rowChange) (now : Time)
    : pg E unit :=
  match changes with
  | [] => ret ()
  | change :: changes =>
      emitChange (rc_id change) oldState change now ;;; emitChanges oldState changes now
  end.

(** The first row of a statement, scanned; [None] is [pgx.ErrNoRows]. *)
Definition mutateScoped (q : sql (list (string * taskRec))) : pg sqlError (option rowChange) :=
  rows <- exec q ;; ret (scanChange <$> head rows).

Definition mutateScopedOld (q : sql (list (TaskState * (string * taskRec))))
    : pg sqlError (option (TaskState * rowChange)) :=
  rows <- exec q ;; ret ((λ p, (p.1, scanChange p.2)) <$> head rows).

Definition explainMiss {A} (taskID : string) : pg callError A :=
  state <- wrapping "postgres: look up task state" (exec (taskStateQuery taskID)) ;;
  match state with
  | None => fail (EBroker ErrTaskNotFound)
  | Some _ => fail (EBroker ErrInvalidState)
  end.

Definition leaseScopedExec (q : sql Z) : pg callError unit :=
  affected <- wrapping "postgres: lease-scoped update" (exec q) ;;
  if affected =? 0 then fail (EBroker ErrLeaseLost) else ret ().

(** ** Enqueue *)

Record preparedEnqueue := mkPrepared {
  pe_task : TaskEnvelope;
  pe_state : TaskState;
  pe_uniqueKey : option string;
  pe_edges : list TaskDependency;
  pe_buildArguments : TaskState → taskRec;
  pe_now : Time }.

(** [protoTime]: an optional instant, as a bind parameter. *)
Definition protoTime (t : option Time) : option Time := timestamptz <$> t.

(** [nullableTime]: the zero time is NULL. *)
Definition nullableTime (t : Time) : option Time := if IsZero t then None else Some (timestamptz t).

Definition prepareEnqueue (task : TaskEnvelope) (now : Time) : callError + preparedEnqueue :=
  let options := GetOptions task in
  let processAt := default now (opt_ProcessAt options) in
  let group := opt_Group options in
  if negb (bool_decide (group = "")) && After processAt now then inl (EBroker ErrGroupedSchedule)
  else
    let state :=
      if negb (bool_decide (group = "")) then TASK_STATE_AGGREGATING
      else if After processAt now then TASK_STATE_SCHEDULED
      else TASK_STATE_PENDING in
    let uniqueKey := if decide (opt_UniqueKey options = "") then None else Some (opt_UniqueKey options) in
    let uniqueExpiresAt :=
      match uniqueKey, opt_UniqueTtl options with
      | Some _, Some ttl => Some (time_Add now ttl)
      | _, _ => None
      end in
    let enqueuedAt := default now (env_EnqueuedAt task) in
    match marshalEnvelope task with
    | None => inl (EDriver None "postgres: marshal envelope")
    | Some payload =>
        inr {| pe_task := task;
               pe_state := state;
               pe_uniqueKey := uniqueKey;
               pe_edges := opt_DependsOn options;
               pe_buildArguments := λ state,
                 {| pt_queue := env_Queue task;
                    pt_type := env_Type task;
                    pt_state := state;
                    pt_priority := opt_Priority options;
                    pt_payload := payload;
                    pt_unique_key := uniqueKey;
                    pt_unique_expires_at := timestamptz <$> uniqueExpiresAt;
                    pt_process_at := timestamptz processAt;
                    pt_deadline := protoTime (opt_Deadline options);
                    pt_max_retry := opt_MaxRetry options;
                    pt_retried := env_Retried task;
                    pt_last_error := env_LastError task;
                    pt_lease_id := None;
                    pt_lease_expires_at := None;
                    pt_result := None;
                    pt_retention := pgInterval (AsDuration (opt_Retention options));
                    pt_enqueued_at := timestamptz enqueuedAt;
                    pt_completed_at := None;
                    pt_updated_at := timestamptz now;
                    pt_started_at := None;
                    pt_group_key := group;
                    pt_expires_at := protoTime (opt_ExpiresAt options);
                    pt_progress := 0;
                    pt_progress_message := "" |};
               pe_now := now |}
    end.

Definition dependencyPolicy (policy : DependencyFailurePolicy) : DependencyFailurePolicy :=
  match policy with
  | DEPENDENCY_FAILURE_POLICY_UNSPECIFIED => DEPENDENCY_FAILURE_POLICY_BLOCK
  | p => p
  end.

(** The policy map of [resolveInitialDeps]; the last edge to a task wins. *)
Definition declaredPolicies (taskID : string) (edges : list TaskDependency)
    : gmap string DependencyFailurePolicy :=
  foldl (λ policies edge,
    if decide (dep_TaskId edge = "" ∨ dep_TaskId edge = taskID) then policies
    else <[dep_TaskId edge := dependencyPolicy (dep_OnFailure edge)]> policies) ∅ edges.

(** The loop over the policy map; [None] is the immediate cancellation. *)
Fixpoint reconcileDeps (states : gmap string TaskState)
    (policies : list (string * DependencyFailurePolicy))
    (deps : gmap string DependencyFailurePolicy) : option (gmap string DependencyFailurePolicy) :=
  match policies with
  | [] => Some deps
  | (policyID, policy) :: rest =>
      match states !! policyID with
      | None => reconcileDeps states rest (<[policyID := policy]> deps)
      | Some TASK_STATE_COMPLETED => reconcileDeps states rest deps
      | Some TASK_STATE_ARCHIVED | Some TASK_STATE_CANCELED =>
          match policy with
          | DEPENDENCY_FAILURE_POLICY_CONTINUE => reconcileDeps states rest deps
          | DEPENDENCY_FAILURE_POLICY_CASCADE_CANCEL => None
          | _ => reconcileDeps states rest (<[policyID := policy]> deps)
          end
      | Some _ => reconcileDeps states rest (<[policyID := policy]> deps)
      end
  end.

Definition dependencyStates (ids : gset string) : pg callError (gmap string TaskState) :=
  rows <- wrapping "postgres: read dependency states" (exec (dependencyStatesQuery ids)) ;;
  ret (list_to_map rows).

Definition resolveInitialDeps (taskID : string) (edges : list TaskDependency)
    : pg callError (gmap string DependencyFailurePolicy * bool) :=
  let policies := declaredPolicies taskID edges in
  if decide (policies = ∅) then ret (∅, false)
  else
    states <- dependencyStates (dom policies) ;;
    match reconcileDeps states (range_map policies) ∅ with
    | None => ret (∅, true)
    | Some deps => ret (deps, false)
    end.

Fixpoint insertEdges (taskID : string) (deps : list (string * DependencyFailurePolicy))
    : pg callError unit :=
  match deps with
  | [] => ret ()
  | (depID, policy) :: deps =>
      wrapping "postgres: insert dependency edge" (exec (insertEdgeQuery taskID depID policy)) ;;;
      insertEdges taskID deps
  end.

(** [isUniqueViolation] turns the violation into the sentinel. *)
Definition orDuplicate {A} (context : string) (m : pg sqlError A) : pg callError A := λ s,
  let '(s, r) := m s in
  (s, match r with
      | inl UniqueViolation => inl (EBroker ErrDuplicateTask)
      | inl _ => inl (EDriver None context)
      | inr x => inr x
      end).

(** The event of a committed task, built when a sink is wired. *)
Definition enqueueOneTx (prepared : preparedEnqueue) : pg callError (option TaskEvent) :=
  let task := pe_task prepared in
  let now := pe_now prepared in
  (match pe_uniqueKey prepared with
   | Some key =>
       wrapping "postgres: release lapsed unique claim"
         (exec (releaseLapsedUniqueQuery key (timestamptz now)))
   | None => ret ()
   end) ;;;
  r <- resolveInitialDeps (env_Id task) (pe_edges prepared) ;;
  let '(deps, cancel) := r in
  let state :=
    if cancel : bool then TASK_STATE_CANCELED
    else if decide (deps = ∅) then pe_state prepared
    else TASK_STATE_BLOCKED in
  inserted <- orDuplicate "postgres: insert task"
                (exec (insertTaskQuery (env_Id task) (pe_buildArguments prepared state))) ;;
  if inserted =? 0 then ret None
  else
    (if decide (state = TASK_STATE_CANCELED) then
       wrapping "postgres: stamp canceled task"
         (exec (stampCanceledQuery (env_Id task) (timestamptz now)))
     else ret ()) ;;;
    insertEdges (env_Id task) (range_map deps) ;;;
    sink <- eventSink ;;
    ret (if sink : bool then
           Derive TASK_STATE_UNSPECIFIED state (env_Id task) (env_Queue task) (env_Type task)
             (env_LastError task) (env_Retried task) now
         else None).

Definition enqueueWithEdges (prepared : preparedEnqueue) : pg callError unit :=
  event <- transaction "postgres: begin enqueue" "postgres: commit enqueue" (enqueueOneTx prepared) ;;
  emitEvent event.

Definition Enqueue (task : TaskEnvelope) (now : Time) : pg callError unit :=
  match prepareEnqueue task now with
  | inl err => fail err
  | inr prepared =>
      if decide (pe_uniqueKey prepared = None ∧ pe_edges prepared = []) then
        inserted <- wrapping "postgres: insert task"
          (exec (insertTaskQuery (env_Id task) (pe_buildArguments prepared (pe_state prepared)))) ;;
        if 0 <? inserted then
          emit TASK_STATE_UNSPECIFIED (pe_state prepared) (env_Id task) (env_Queue task)
            (env_Type task) (env_LastError task) (env_Retried task) now
        else ret ()
      else enqueueWithEdges prepared
  end.

(** The cause of a failed batch member, at its position. *)
Definition batchError (index : nat) (taskID : string) (err : callError) : callError :=
  match err with
  | EBroker err => EBatch (mkBatchError index taskID err)
  | EDriver _ context => EDriver (Some (index, taskID)) context
  | err => err
  end.

Fixpoint prepareBatch (index : nat) (tasks : list TaskEnvelope) (now : Time)
    : callError + list preparedEnqueue :=
  match tasks with
  | [] => inr []
  | task :: rest =>
      match prepareEnqueue task now with
      | inl err => inl (batchError index (env_Id task) err)
      | inr entry =>
          match prepareBatch (S index) rest now with
          | inl err => inl err
          | inr prepared => inr (entry :: prepared)
          end
      end
  end.

(** The error of the computation, as the batch member's. *)
Definition asMember {A} (index : nat) (taskID : string) (m : pg callError A) : pg callError A := λ s,
  let '(s, r) := m s in
  (s, match r with inl err => inl (batchError index taskID err) | inr x => inr x end).

Fixpoint enqueueAllTx (index : nat) (prepared : list preparedEnqueue)
    : pg callError (list TaskEvent) :=
  match prepared with
  | [] => ret []
  | entry :: rest =>
      event <- asMember index (env_Id (pe_task entry)) (enqueueOneTx entry) ;;
      events <- enqueueAllTx (S index) rest ;;
      ret (match event with Some event => event :: events | None => events end)
  end.

Definition EnqueueBatch (tasks : list TaskEnvelope) (now : Time) : pg callError unit :=
  match tasks with
  | [] => ret ()
  | _ =>
      match prepareBatch 0 tasks now with
      | inl err => fail err
      | inr prepared =>
          committedEvents <- transaction "postgres: begin enqueue batch"
            "postgres: commit enqueue batch" (enqueueAllTx 0 prepared) ;;
          emitAll committedEvents
      end
  end.

(** ** Reading rows back *)

Definition unmarshalEnvelope (row : taskRec) : callError + TaskEnvelope :=
  match unmarshalTask (pt_payload row) with
  | None => inl (EDriver None "postgres: unmarshal envelope")
  | Some envelope =>
      inr (envelope <| env_Retried := pt_retried row |> <| env_LastError := pt_last_error row |>)
  end.

Definition stampProcessAt (processAt : Time) (envelope : TaskEnvelope) : TaskEnvelope :=
  let options := GetOptions envelope in
  envelope <| env_Options := Some (options <| opt_ProcessAt := Some processAt |>) |>.

Definition stampExecutionTimes (startedAt completedAt : option Time) (envelope : TaskEnvelope)
    : TaskEnvelope :=
  let envelope :=
    match startedAt with
    | Some t => envelope <| env_StartedAt := Some t |>
    | None => envelope
    end in
  match completedAt with
  | Some t => envelope <| env_CompletedAt := Some t |>
  | None => envelope
  end.

Definition stampProgress (progress : Z) (message : string) (envelope : TaskEnvelope) : TaskEnvelope :=
  envelope <| env_Progress := progress |> <| env_ProgressMessage := message |>.

(** The overlays of [GetTask] and [ListTasks]. *)
Definition readEnvelope (row : taskRec) : callError + TaskEnvelope :=
  match unmarshalEnvelope row with
  | inl err => inl err
  | inr envelope =>
      inr (stampProgress (pt_progress row) (pt_progress_message row)
             (stampExecutionTimes (pt_started_at row) (pt_completed_at row)
               (stampProcessAt (pt_process_at row) envelope)))
  end.

(** A scan of every row, stopped by the first error. *)
Fixpoint scanRows {A B} (f : A → callError + B) (rows : list A) : callError + list B :=
  match rows with
  | [] => inr []
  | row :: rows =>
      match f row, scanRows f rows with
      | inl err, _ => inl err
      | inr _, inl err => inl err
      | inr x, inr xs => inr (x :: xs)
      end
  end.

Definition scanEnvelopes (rows : list (string * taskRec)) : callError + list TaskEnvelope :=
  scanRows (λ p, unmarshalEnvelope p.2) rows.

Definition orFailing {A} (r : callError + A) : pg callError A :=
  match r with inl err => fail err | inr x => ret x end.

(** ** Leasing *)

Fixpoint emitLeased (leased : list TaskEnvelope) (occurredAt : Time) : pg callError unit :=
  match leased with
  | [] => ret ()
  | task :: leased =>
      emit TASK_STATE_PENDING TASK_STATE_ACTIVE (env_Id task) (env_Queue task) (env_Type task)
        (env_LastError task) (env_Retried task) occurredAt ;;;
      emitLeased leased occurredAt
  end.

Definition Lease (queue : string) (limit : Z) (ttl : Duration) (leaseID : string) (now : Time)
    : pg callError (list TaskEnvelope) :=
  if limit <=? 0 then ret []
  else
    rows <- wrapping "postgres: lease" (execLocked (λ locked,
      leaseQuery locked queue limit leaseID (timestamptz now) (timestamptz (time_Add now ttl)))) ;;
    leased <- orFailing (scanEnvelopes rows) ;;
    emitLeased leased now ;;;
    ret leased.

Definition LeaseGroup (queue group : string) (limit : Z) (ttl : Duration) (leaseID : string)
    (now : Time) : pg callError (list TaskEnvelope) :=
  if limit <=? 0 then ret []
  else
    rows <- wrapping "postgres: lease group" (execLocked (λ locked,
      leaseGroupQuery locked queue group limit leaseID (timestamptz now)
        (timestamptz (time_Add now ttl)))) ;;
    leased <- orFailing (scanEnvelopes rows) ;;
    emitLeased leased now ;;;
    ret leased.

Definition GroupStats : pg callError (list GroupStat) :=
  wrapping "postgres: group stats" (exec groupStatsQuery).

(** ** Lease-scoped operations *)

Definition ExtendLease (taskID leaseID : string) (ttl : Duration) (now : Time) : pg callError unit :=
  leaseScopedExec (extendLeaseQuery taskID leaseID (timestamptz (time_Add now ttl)) (timestamptz now)).

Definition maxProgressPercent : Z := 100.

Definition clampPercent (percent : Z) : Z :=
  if maxProgressPercent <? percent then maxProgressPercent else percent.

Definition SetProgress (taskID leaseID : string) (percent : Z) (message : string) (now : Time)
    : pg callError unit :=
  leaseScopedExec (setProgressQuery taskID leaseID (clampPercent percent) message (timestamptz now)).

Definition Ack (taskID leaseID : string) (result : list byte) (now : Time) : pg callError unit :=
  change <- wrapping "postgres: ack" (mutateScoped (ackQuery taskID leaseID result (timestamptz now))) ;;
  match change with
  | None => fail (EBroker ErrLeaseLost)
  | Some change => emitChange taskID TASK_STATE_ACTIVE change now
  end.

Definition AckBatch (items : list AckItem) (now : Time) : pg callError (list string) :=
  match items with
  | [] => ret []
  | _ =>
      rows <- wrapping "postgres: ack batch" (exec (ackBatchQuery (timestamptz now) items)) ;;
      let changes := scanChange <$> rows in
      emitChanges TASK_STATE_ACTIVE changes now ;;;
      ret (rc_id <$> changes)
  end.

Definition Fail (taskID leaseID errMsg : string) (processAt now : Time) : pg callError unit :=
  change <- wrapping "postgres: fail"
    (mutateScoped (failQuery taskID leaseID errMsg (timestamptz processAt) (timestamptz now))) ;;
  match change with
  | None => fail (EBroker ErrLeaseLost)
  | Some change => emitChange taskID TASK_STATE_ACTIVE change now
  end.

Definition Release (taskID leaseID : string) (now : Time) : pg callError unit :=
  change <- wrapping "postgres: release" (mutateScoped (releaseQuery taskID leaseID (timestamptz now))) ;;
  match change with
  | None => fail (EBroker ErrLeaseLost)
  | Some change => emitChange taskID TASK_STATE_ACTIVE change now
  end.

Definition Archive (taskID leaseID errMsg : string) (now : Time) : pg callError unit :=
  if negb (bool_decide (leaseID = "")) then
    change <- wrapping "postgres: archive"
      (mutateScoped (archiveLeasedQuery taskID leaseID errMsg (timestamptz now))) ;;
    match change with
    | None => fail (EBroker ErrLeaseLost)
    | Some change => emitChange taskID TASK_STATE_ACTIVE change now
    end
  else
    r <- wrapping "postgres: archive"
      (mutateScopedOld (archiveAnyQuery taskID errMsg (timestamptz now))) ;;
    match r with
    | None => explainMiss taskID
    | Some (oldState, change) => emitChange taskID oldState change now
    end.

(** ** Sweeps *)

Definition ReapExpiredLeases (limit : Z) (now : Time) : pg callError (list string) :=
  if limit <=? 0 then ret []
  else
    rows <- wrapping "postgres: reap expired leases" (execLocked (λ locked,
      reapQuery locked limit (timestamptz now) LeaseExpiredMessage)) ;;
    let reaped := scanChange <$> rows in
    let queues : gset string := list_to_set
      (rc_queue <$> filter (λ change, rc_state change = TASK_STATE_RETRY) reaped) in
    emitChanges TASK_STATE_ACTIVE reaped now ;;;
    ret (range_keys queues).

(** promoteQuery does not return the state, which is pending. *)
Definition PromoteScheduled (limit : Z) (now : Time) : pg callError (list string) :=
  if limit <=? 0 then ret []
  else
    rows <- wrapping "postgres: promote scheduled" (execLocked (λ locked,
      promoteQuery locked limit (timestamptz now))) ;;
    let promoted := scanChange <$> rows in
    let queues : gset string := list_to_set (rc_queue <$> promoted) in
    emitChanges TASK_STATE_SCHEDULED promoted now ;;;
    ret (range_keys queues).

Definition PurgeTerminal (archiveRetention : Duration) (limit : Z) (now : Time) : pg callError Z :=
  if limit <=? 0 then ret 0
  else
    wrapping "postgres: release lapsed unique claims" (exec (releaseAllLapsed (timestamptz now))) ;;;
    wrapping "postgres: drop terminal dependent edges" (exec dropTerminalDependentEdgesQuery) ;;;
    purged <- wrapping "postgres: purge completed" (execLocked (λ locked,
      purgeCompletedQuery locked (timestamptz now) limit)) ;;
    if archiveRetention <=? 0 then ret purged
    else
      archived <- wrapping "postgres: purge archived" (execLocked (λ locked,
        purgeArchivedQuery locked (timestamptz (time_Add now (- archiveRetention))) limit)) ;;
      ret (purged + archived).

(** archiveExpiredQuery does not return the state, which is archived; the event's
    prior state is always the scheduled one. *)
Definition ArchiveExpired (limit : Z) (now : Time) : pg callError Z :=
  if limit <=? 0 then ret 0
  else
    rows <- wrapping "postgres: archive expired tasks" (execLocked (λ locked,
      archiveExpiredQuery locked (timestamptz now) limit TaskExpiredMessage)) ;;
    let archived := scanChange <$> rows in
    emitChanges TASK_STATE_SCHEDULED archived now ;;;
    ret (Z.of_nat (length archived)).

(** ** Dependency resolution *)

Definition terminalState (taskID : string) : pg callError TaskState :=
  state <- wrapping "postgres: read task state" (exec (taskStateQuery taskID)) ;;
  ret (default TASK_STATE_UNSPECIFIED state).

Definition edgesWaitingOn (dependencyID : string)
    : pg callError (list (string * DependencyFailurePolicy)) :=
  wrapping "postgres: read waiting edges" (exec (edgesForDependencyQuery dependencyID)).

(** The event of a changed dependent, built when a sink is wired. *)
Definition blockedEvent (id : string) (change : rowChange) (now : Time)
    : pg callError (option TaskEvent) :=
  sink <- eventSink ;;
  ret (if sink : bool then
         Derive TASK_STATE_BLOCKED (rc_state change) id (rc_queue change) (rc_taskType change)
           (rc_lastError change) (rc_retried change) now
       else None).

Definition cascadeCancel (dependentID : string) (now : Time) : pg callError (option TaskEvent) :=
  change <- wrapping "postgres: cascade-cancel dependent"
    (mutateScoped (cascadeCancelQuery dependentID (timestamptz now) CascadeCanceledMessage)) ;;
  event <- (match change with
            | Some change => blockedEvent dependentID change now
            | None => ret None
            end) ;;
  wrapping "postgres: drop canceled dependent edges" (exec (dropDependentEdgesQuery dependentID)) ;;;
  ret event.

(** The queue of a promoted dependent with its event; [None] when none was. *)
Definition promoteDependent (dependentID : string) (now : Time)
    : pg callError (option (string * option TaskEvent)) :=
  locked <- wrapping "postgres: lock dependent" (exec (lockBlockedDependentQuery dependentID)) ;;
  if negb locked then ret None
  else
    change <- wrapping "postgres: promote dependent"
      (mutateScoped (promoteDependentQuery dependentID (timestamptz now))) ;;
    match change with
    | None => ret None
    | Some change =>
        event <- blockedEvent dependentID change now ;;
        ret (Some (rc_queue change, event))
    end.

Definition appendEvent (event : option TaskEvent) (emitted : list TaskEvent) : list TaskEvent :=
  match event with Some event => emitted ++ [event] | None => emitted end.

(** The loop over the edges of a finished task: the worklist with the canceled
    dependents, the satisfied dependents and the events. *)
Fixpoint partitionEdges (failed : bool) (now : Time) (edges : list (string * DependencyFailurePolicy))
    (worklist satisfied : list string) (emitted : list TaskEvent)
    : pg callError (list string * list string * list TaskEvent) :=
  match edges with
  | [] => ret (worklist, satisfied, emitted)
  | (dependent, policy) :: edges =>
      if decide (failed = true ∧ policy = DEPENDENCY_FAILURE_POLICY_BLOCK) then
        partitionEdges failed now edges worklist satisfied emitted
      else if decide (failed = true ∧ policy = DEPENDENCY_FAILURE_POLICY_CASCADE_CANCEL) then
        event <- cascadeCancel dependent now ;;
        partitionEdges failed now edges (worklist ++ [dependent]) satisfied (appendEvent event emitted)
      else partitionEdges failed now edges worklist (satisfied ++ [dependent]) emitted
  end.

Fixpoint promoteAll (now : Time) (satisfied : list string) (queues : gset string)
    (emitted : list TaskEvent) : pg callError (gset string * list TaskEvent) :=
  match satisfied with
  | [] => ret (queues, emitted)
  | dependentID :: satisfied =>
      r <- promoteDependent dependentID now ;;
      match r with
      | Some (queue, event) => promoteAll now satisfied ({[queue]} ∪ queues) (appendEvent event emitted)
      | None => promoteAll now satisfied queues emitted
      end
  end.

(** The worklist loop. A turn takes one id off the worklist and every id put on it
    loses its edges, so the seeds and the edges bound the turns. *)
Fixpoint resolveLoop (fuel : nat) (now : Time) (seen : gset string) (worklist : list string)
    (queues : gset string) (emitted : list TaskEvent) : pg callError (gset string * list TaskEvent) :=
  match fuel, worklist with
  | O, _ | _, [] => ret (queues, emitted)
  | S fuel, finishedID :: worklist =>
      if decide (finishedID ∈ seen) then resolveLoop fuel now seen worklist queues emitted
      else
        let seen := {[finishedID]} ∪ seen in
        state <- terminalState finishedID ;;
        let succeeded := bool_decide (state = TASK_STATE_COMPLETED) in
        let failed := bool_decide (state = TASK_STATE_ARCHIVED) ||
                      bool_decide (state = TASK_STATE_CANCELED) in
        if negb succeeded && negb failed then resolveLoop fuel now seen worklist queues emitted
        else
          edges <- edgesWaitingOn finishedID ;;
          r <- partitionEdges failed now edges worklist [] emitted ;;
          let '(worklist, satisfied, emitted) := r in
          if decide (satisfied = []) then resolveLoop fuel now seen worklist queues emitted
          else
            wrapping "postgres: drop satisfied edges"
              (exec (dropSatisfiedEdgesQuery finishedID satisfied)) ;;;
            r <- promoteAll now satisfied queues emitted ;;
            let '(queues, emitted) := r in
            resolveLoop fuel now seen worklist queues emitted
  end.

Definition resolveFuel (seed : list string) (db : Db) : nat := (length seed + size (db_deps db))%nat.

Definition resolveWithin (seed : list string) (now : Time)
    : pg callError (gset string * list TaskEvent) := λ s,
  resolveLoop (resolveFuel seed (ps_db s)) now ∅ seed ∅ [] s.

Definition ResolveDependents (taskID : string) (now : Time) : pg callError (list string) :=
  hasDependents <- wrapping "postgres: check dependents" (exec (hasDependentsQuery taskID)) ;;
  if negb hasDependents then ret []
  else
    r <- transaction "postgres: begin resolve dependents" "postgres: commit resolve dependents"
           (resolveWithin [taskID] now) ;;
    let '(queues, emitted) := r in
    emitAll emitted ;;;
    ret (range_keys queues).

Definition promoteReadyTx (limit : Z) (now : Time) : pg callError (gset string * list TaskEvent) :=
  seed <- wrapping "postgres: read ready dependencies" (exec (readyDependenciesQuery limit)) ;;
  r <- resolveWithin seed now ;;
  let '(queues, emitted) := r in
  sink <- eventSink ;;
  rows <- wrapping "postgres: promote orphaned blocked tasks" (execLocked (λ locked,
    promoteOrphanBlockedQuery locked limit (timestamptz now))) ;;
  let orphans := scanChange <$> rows in
  let events :=
    if sink : bool then
      omap (λ change, Derive TASK_STATE_BLOCKED (rc_state change) (rc_id change) (rc_queue change)
              (rc_taskType change) (rc_lastError change) (rc_retried change) now) orphans
    else [] in
  ret (list_to_set (rc_queue <$> orphans) ∪ queues, emitted ++ events).

Definition PromoteReadyDependents (limit : Z) (now : Time) : pg callError (list string) :=
  if limit <=? 0 then ret []
  else
    r <- transaction "postgres: begin promote ready dependents"
           "postgres: commit promote ready dependents" (promoteReadyTx limit now) ;;
    let '(queues, emitted) := r in
    emitAll emitted ;;;
    ret (range_keys queues).

(** ** Statistics *)

Definition PendingCount (now : Time) : pg callError (gmap string Z) :=
  wrapping "postgres: pending count" (exec (pendingCountQuery (timestamptz now))).

(** One row of the statistics, into the last queue's entry or a new one. *)
Definition addStat (stats : list QueueStat) (row : string * bool * option (TaskState * Z))
    : list QueueStat :=
  let '(queue, paused, counted) := row in
  let '(earlier, stat) :=
    match last stats with
    | Some stat =>
        if decide (qs_Queue stat = queue) then (removelast stats, stat)
        else (stats, mkQueueStat queue paused 0 0 0 0 0 0 0 0)
    | None => (stats, mkQueueStat queue paused 0 0 0 0 0 0 0 0)
    end in
  let stat :=
    match counted with
    | Some (TASK_STATE_SCHEDULED, n) => stat <| qs_Scheduled := n |>
    | Some (TASK_STATE_PENDING, n) => stat <| qs_Pending := n |>
    | Some (TASK_STATE_ACTIVE, n) => stat <| qs_Active := n |>
    | Some (TASK_STATE_RETRY, n) => stat <| qs_Retry := n |>
    | Some (TASK_STATE_COMPLETED, n) => stat <| qs_Completed := n |>
    | Some (TASK_STATE_ARCHIVED, n) => stat <| qs_Archived := n |>
    | Some (TASK_STATE_AGGREGATING, n) => stat <| qs_Aggregating := n |>
    | Some (TASK_STATE_BLOCKED, n) => stat <| qs_Blocked := n |>
    | Some (_, _) | None => stat
    end in
  earlier ++ [stat].

Definition QueueStats : pg callError (list QueueStat) :=
  rows <- wrapping "postgres: queue stats" (exec queueStatsQuery) ;;
  ret (foldl addStat [] rows).

(** ** Queue configuration *)

Definition SetQueuePaused (queue : string) (paused : bool) (now : Time) : pg callError unit :=
  wrapping "postgres: set queue paused" (exec (upsertPause queue paused (timestamptz now))).

Definition QueuePaused (queue : string) : pg callError bool :=
  paused <- wrapping "postgres: queue paused" (exec (selectPaused queue)) ;;
  ret (default false paused).

Definition SetQueueRateLimit (queue : string) (ratePerSec : spec_float) (burst : Z) (now : Time)
    : pg callError unit :=
  wrapping "postgres: set queue rate limit"
    (exec (upsertRateLimit queue ratePerSec burst (timestamptz now))).

Definition DeleteQueueRateLimit (queue : string) : pg callError unit :=
  wrapping "postgres: delete queue rate limit" (exec (deleteRateLimit queue)).

Definition QueueRateLimit (queue : string) : pg callError (option RateLimit) :=
  row <- wrapping "postgres: queue rate limit" (exec (selectRateLimit queue)) ;;
  ret ((λ '(rate, burst, updatedAt), mkRateLimit queue rate burst updatedAt) <$> row).

Definition QueueRateLimits : pg callError (list RateLimit) :=
  rows <- wrapping "postgres: queue rate limits" (exec selectRateLimits) ;;
  ret ((λ '(queue, (rate, burst, updatedAt)), mkRateLimit queue rate burst updatedAt) <$> rows).

Definition SetQueueConcurrencyLimit (queue : string) (maxActive : Z) (now : Time)
    : pg callError unit :=
  wrapping "postgres: set queue concurrency limit"
    (exec (upsertConcurrencyLimit queue maxActive (timestamptz now))).

Definition DeleteQueueConcurrencyLimit (queue : string) : pg callError unit :=
  wrapping "postgres: delete queue concurrency limit" (exec (deleteConcurrencyLimit queue)).

Definition QueueConcurrencyLimit (queue : string) : pg callError (option ConcurrencyLimit) :=
  row <- wrapping "postgres: queue concurrency limit" (exec (selectConcurrencyLimit queue)) ;;
  ret ((λ '(maxActive, updatedAt), mkConcurrencyLimit queue maxActive updatedAt) <$> row).

Definition QueueConcurrencyLimits : pg callError (list ConcurrencyLimit) :=
  rows <- wrapping "postgres: queue concurrency limits" (exec selectConcurrencyLimits) ;;
  ret ((λ '(queue, (maxActive, updatedAt)), mkConcurrencyLimit queue maxActive updatedAt) <$> rows).

Definition SetGroupConfig (queue group : string) (maxSize : Z) (maxDelay gracePeriod : Duration)
    (now : Time) : pg callError unit :=
  wrapping "postgres: set group config" (exec (upsertGroupConfig queue group
    (mkGroupRec maxSize (Milliseconds maxDelay) (Milliseconds gracePeriod) (timestamptz now)))).

Definition DeleteGroupConfig (queue group : string) : pg callError unit :=
  wrapping "postgres: delete group config" (exec (deleteGroupConfig queue group)).

Definition GroupConfigs : pg callError (list GroupConfig) :=
  rows <- wrapping "postgres: group configs" (exec selectGroupConfigs) ;;
  ret ((λ '(queue, group, row), mkGroupConfig queue group (pgc_max_size row)
          (pgc_max_delay_ms row * 1000000) (pgc_grace_period_ms row * 1000000)
          (pgc_updated_at row)) <$> rows).

(** taskCountEstimateQuery: COALESCE of the estimate. *)
Definition estimateTasks : pg callError Z := λ s,
  wrapping "postgres: estimate tasks" (exec (reads (λ _, default 0 (si_reltuples (ps_server s))))) s.

(** SHOW server_version, whose failure [Info] does not report. *)
Definition serverVersion : pg callError (option string) := λ s,
  let '(s, r) := exec (reads (λ _, si_version (ps_server s))) s in
  (s, inr (match r with inl _ => None | inr version => Some version end)).

Definition BrokerInfo : pg callError Info := λ s,
  let stat := si_stat (ps_server s) in
  (tasks <- estimateTasks ;;
   entries <- wrapping "postgres: count cron entries" (exec countCronEntries) ;;
   version <- serverVersion ;;
   ret (mkInfo "postgres" (list_to_map
     ([("pool_total_conns", pretty (TotalConns stat));
       ("pool_acquired_conns", pretty (AcquiredConns stat));
       ("pool_idle_conns", pretty (IdleConns stat));
       ("pool_max_conns", pretty (MaxConns stat))] ++
      match version with Some version => [("server_version", version)] | None => [] end ++
      [("tasks", pretty (Z.max tasks 0)); ("cron_entries", pretty entries)])))) s.

(** ** Queries *)

Definition GetTask (id : string) : pg callError (TaskEnvelope * TaskState) :=
  row <- wrapping "postgres: get task" (exec (selectTask id)) ;;
  match row with
  | None => fail (EBroker ErrTaskNotFound)
  | Some row =>
      envelope <- orFailing (readEnvelope row) ;;
      ret (envelope, pt_state row)
  end.

Definition ListTasks (query : TaskQuery) : pg callError (list TaskRecord) :=
  rows <- wrapping "postgres: list tasks"
            (exec (selectTasks query (EffectiveListLimit (query_Limit query)))) ;;
  orFailing (scanRows (λ row,
    match readEnvelope row with
    | inl err => inl err
    | inr envelope => inr (mkTaskRecord envelope (pt_state row))
    end) rows).

(** ** Administrative operations *)

Definition CancelTask (id : string) (now : Time) : pg callError unit :=
  change <- wrapping "postgres: cancel task" (mutateScoped (cancelTaskQuery id (timestamptz now))) ;;
  match change with
  | None => explainMiss id
  | Some change => emitChange id TASK_STATE_PENDING change now
  end.

Definition DeleteTask (id : string) : pg callError unit :=
  hasDependents <- wrapping "postgres: check dependents" (exec (hasWaitingDependentsQuery id)) ;;
  if hasDependents : bool then fail (EBroker ErrTaskHasDependents)
  else
    affected <- wrapping "postgres: delete task" (exec (deleteTaskQuery id)) ;;
    if affected =? 0 then explainMiss id
    else wrapping "postgres: drop deleted task edges" (exec (dropDependentEdgesQuery id)).

Definition RunTaskNow (id : string) (now : Time) : pg callError unit :=
  r <- wrapping "postgres: run task now" (mutateScopedOld (runTaskNowQuery id (timestamptz now))) ;;
  match r with
  | None => explainMiss id
  | Some (oldState, change) => emitChange id oldState change now
  end.

Definition RescheduleTask (id : string) (processAt now : Time) : pg callError unit :=
  let newState := if After processAt now then TASK_STATE_SCHEDULED else TASK_STATE_PENDING in
  r <- wrapping "postgres: reschedule task"
    (mutateScopedOld (rescheduleQuery id (timestamptz processAt) newState (timestamptz now))) ;;
  match r with
  | None => explainMiss id
  | Some (oldState, change) => emitChange id oldState change now
  end.

Definition ArchiveTask (id : string) (now : Time) : pg callError unit :=
  change <- wrapping "postgres: archive task" (mutateScoped (archiveWaitingQuery id (timestamptz now))) ;;
  match change with
  | None => explainMiss id
  | Some change => emitChange id TASK_STATE_SCHEDULED change now
  end.

(** ** Cron entries *)

Definition UpsertCronEntry (entry : CronEntry) (now : Time) : pg callError unit :=
  options <- (match cron_Options entry with
              | None => ret noBytes
              | Some options =>
                  match marshalOptions options with
                  | None => fail (EDriver None "postgres: marshal cron options")
                  | Some options => ret options
                  end
              end) ;;
  wrapping "postgres: upsert cron entry" (exec (upsertEntry (cron_ID entry)
    (mkCronRec (cron_Spec entry) (cron_TaskType entry) (cron_Queue entry) (cron_Payload entry)
       (cron_ContentType entry) options (cron_Paused entry) (nullableTime (cron_NextRunAt entry))
       (timestamptz now)))).

Definition scanCronEntry (p : string * cronRec) : callError + CronEntry :=
  let '(id, row) := p in
  let entry options := mkCronEntry id (pc_spec row) (pc_task_type row) (pc_queue row) (pc_payload row)
    (pc_content_type row) options (pc_paused row) (default zeroTime (pc_next_run_at row)) in
  if isEmpty (pc_options row) then inr (entry None)
  else
    match unmarshalOptions (pc_options row) with
    | None => inl (EDriver None "postgres: unmarshal cron options")
    | Some options => inr (entry (Some options))
    end.

Definition scanCronEntries (rows : list (string * cronRec)) : callError + list CronEntry :=
  scanRows scanCronEntry rows.

Definition ListCronEntries : pg callError (list CronEntry) :=
  rows <- wrapping "postgres: list cron entries" (exec selectCronEntries) ;;
  orFailing (scanCronEntries rows).

Definition ListDueCronEntries (now : Time) : pg callError (list CronEntry) :=
  rows <- wrapping "postgres: list due cron entries" (exec (selectDueCronEntries (timestamptz now))) ;;
  orFailing (scanCronEntries rows).

Definition SetCronPaused (id : string) (paused : bool) (now : Time) : pg callError unit :=
  affected <- wrapping "postgres: set cron paused" (exec (pauseEntry id paused (timestamptz now))) ;;
  if affected =? 0 then fail (EBroker ErrTaskNotFound) else ret ().

Definition UpdateCronNextRun (id : string) (expected next : Time) : pg callError unit :=
  wrapping "postgres: update cron next run"
    (exec (updateNextRun id (nullableTime expected) (timestamptz next))).

Definition DeleteCronEntry (id : string) : pg callError unit :=
  wrapping "postgres: delete cron entry" (exec (deleteEntry id)).

(** ** Webhook workers *)

Definition UpsertWebhookWorker (worker : WebhookWorker) (now : Time) : pg callError unit :=
  wrapping "postgres: upsert webhook worker" (exec (upsertWorker (wh_Name worker)
    (mkWorkerRec (wh_URL worker) (wh_Queues worker) (wh_Concurrency worker) (wh_Secrets worker)
       (wh_BatchTypes worker) (pgInterval (wh_RequestTimeout worker)) (wh_Paused worker)
       (timestamptz now)))).

Definition scanWebhookWorker (p : string * workerRec) : WebhookWorker :=
  mkWebhookWorker p.1 (pw_url p.2) (pw_queues p.2) (pw_concurrency p.2) (pw_secrets p.2)
    (pw_batch_types p.2) (pw_request_timeout p.2) (pw_paused p.2).

Definition GetWebhookWorker (name : string) : pg callError WebhookWorker :=
  rows <- wrapping "postgres: get webhook worker" (exec (selectWorker name)) ;;
  match rows with
  | [] => fail (EBroker ErrTaskNotFound)
  | row :: _ => ret (scanWebhookWorker row)
  end.

Definition ListWebhookWorkers : pg callError (list WebhookWorker) :=
  rows <- wrapping "postgres: list webhook workers" (exec selectWorkers) ;;
  ret (scanWebhookWorker <$> rows).

Definition SetWebhookWorkerPaused (name : string) (paused : bool) (now : Time) : pg callError unit :=
  affected <- wrapping "postgres: set webhook worker paused"
                (exec (pauseWorker name paused (timestamptz now))) ;;
  if affected =? 0 then fail (EBroker ErrTaskNotFound) else ret ().

Definition DeleteWebhookWorker (name : string) : pg callError unit :=
  wrapping "postgres: delete webhook worker" (exec (deleteWorker name)).

(** ** The broker behind the interface *)

Definition answering {A} (f : A → reply) (m : pg callError A) (s : Store) : Store * reply :=
  let '(s, r) := m s in (s, match r with inl err => Failed err | inr x => f x end).

Definition returned (_ : unit) : reply := Returned.

Definition postgres : broker Store := λ now r,
  match r with
  | REnqueue task => answering returned (Enqueue task now)
  | REnqueueBatch tasks => answering returned (EnqueueBatch tasks now)
  | RLease queue limit ttl lid => answering Tasks (Lease queue limit ttl lid now)
  | RLeaseGroup queue group limit ttl lid => answering Tasks (LeaseGroup queue group limit ttl lid now)
  | RGroupStats => answering GroupStatList GroupStats
  | RSetProgress id lid percent message => answering returned (SetProgress id lid percent message now)
  | RExtendLease id lid ttl => answering returned (ExtendLease id lid ttl now)
  | RAck id lid result => answering returned (Ack id lid result now)
  | RAckBatch items => answering Names (AckBatch items now)
  | RFail id lid msg at_ => answering returned (Fail id lid msg at_ now)
  | RRelease id lid => answering returned (Release id lid now)
  | RArchive id lid msg => answering returned (Archive id lid msg now)
  | RReapExpiredLeases limit => answering Names (ReapExpiredLeases limit now)
  | RPromoteScheduled limit => answering Names (PromoteScheduled limit now)
  | RResolveDependents id => answering Names (ResolveDependents id now)
  | RPromoteReadyDependents limit => answering Names (PromoteReadyDependents limit now)
  | RPurgeTerminal retention limit => answering Number (PurgeTerminal retention limit now)
  | RArchiveExpired limit => answering Number (ArchiveExpired limit now)
  | RPendingCount => answering Numbers (PendingCount now)
  | RQueueStats => answering QueueStatList QueueStats
  | RSetQueuePaused queue paused => answering returned (SetQueuePaused queue paused now)
  | RQueuePaused queue => answering Flag (QueuePaused queue)
  | RSetQueueRateLimit queue rate burst => answering returned (SetQueueRateLimit queue rate burst now)
  | RDeleteQueueRateLimit queue => answering returned (DeleteQueueRateLimit queue)
  | RQueueRateLimit queue => answering RateLimitFound (QueueRateLimit queue)
  | RQueueRateLimits => answering RateLimitList QueueRateLimits
  | RSetQueueConcurrencyLimit queue max => answering returned (SetQueueConcurrencyLimit queue max now)
  | RDeleteQueueConcurrencyLimit queue => answering returned (DeleteQueueConcurrencyLimit queue)
  | RQueueConcurrencyLimit queue => answering ConcurrencyLimitFound (QueueConcurrencyLimit queue)
  | RQueueConcurrencyLimits => answering ConcurrencyLimitList QueueConcurrencyLimits
  | RSetGroupConfig queue group max delay grace =>
      answering returned (SetGroupConfig queue group max delay grace now)
  | RDeleteGroupConfig queue group => answering returned (DeleteGroupConfig queue group)
  | RGroupConfigs => answering GroupConfigList GroupConfigs
  | RInfo => answering BrokerInformation BrokerInfo
  | RGetTask id => answering (λ p, Task p.1 p.2) (GetTask id)
  | RListTasks query => answering Records (ListTasks query)
  | RCancelTask id => answering returned (CancelTask id now)
  | RDeleteTask id => answering returned (DeleteTask id)
  | RRunTaskNow id => answering returned (RunTaskNow id now)
  | RRescheduleTask id at_ => answering returned (RescheduleTask id at_ now)
  | RArchiveTask id => answering returned (ArchiveTask id now)
  | RUpsertCronEntry entry => answering returned (UpsertCronEntry entry now)
  | RListCronEntries => answering CronEntries ListCronEntries
  | RListDueCronEntries at_ => answering CronEntries (ListDueCronEntries at_)
  | RSetCronPaused id paused => answering returned (SetCronPaused id paused now)
  | RUpdateCronNextRun id expected next => answering returned (UpdateCronNextRun id expected next)
  | RDeleteCronEntry id => answering returned (DeleteCronEntry id)
  | RUpsertWebhookWorker worker => answering returned (UpsertWebhookWorker worker now)
  | RGetWebhookWorker name => answering Worker (GetWebhookWorker name)
  | RListWebhookWorkers => answering Workers ListWebhookWorkers
  | RSetWebhookWorkerPaused name paused => answering returned (SetWebhookWorkerPaused name paused now)
  | RDeleteWebhookWorker name => answering returned (DeleteWebhookWorker name)
  | RSetEventSink => λ s, (SetEventSink s, Returned)
  | RClose => λ s, (s, Returned)
  end.
End Broker.

(** A server whose task table was never analyzed. *)
Definition someServer : serverInfo := mkServerInfo (mkPoolStat 4 1 3 4) (Some (-1)) "17.2".
