(* ===== verification/PostgresOpen.v ===== *)
(** * Opening the PostgreSQL broker (internal/broker/postgres: [NewWithPool], [migrate])

    The pool's configuration, the connection, and the migrations, which are applied
    in the order of their names inside one transaction that holds an advisory lock
    to its end. Nodes that boot together therefore migrate one after the other, and
    one call of [migrate] is one step here. What the statements of a migration do to
    the schema is a parameter, and so is the parsing of the connection string. *)

From S2P Require Import Prelude BrokerApi Postgres PostgresBroker.
From stdpp Require Import pretty.

#[local] Open Scope Z_scope.

(** ** The pool's settings *)

Record PoolSettings := mkPoolSettings {
  set_MaxConns : Z; set_MinConns : Z; set_ConnectTimeout : Duration; set_StatementTimeout : Duration }.

(** The fields of [pgxpool.Config] the settings reach. *)
Record poolConf := mkPoolConf {
  pc_MaxConns : Z; pc_MinConns : Z; pc_ConnectTimeout : Duration; pc_RuntimeParams : gmap string string }.

#[global] Instance poolConf_eta : Eta poolConf := λ c,
  mkPoolConf (pc_MaxConns c) (pc_MinConns c) (pc_ConnectTimeout c) (pc_RuntimeParams c).

Definition statementTimeoutParam : string := "statement_timeout".

(** The settings over what [pgxpool.ParseConfig] made of the connection string. *)
Definition poolConfig (parsed : option poolConf) (settings : PoolSettings) : option poolConf :=
  match parsed with
  | None => None
  | Some config =>
      let config := if 0 <? set_MaxConns settings
                    then config <| pc_MaxConns := set_MaxConns settings |> else config in
      let config := if 0 <? set_MinConns settings
                    then config <| pc_MinConns := set_MinConns settings |> else config in
      let config := if 0 <? set_ConnectTimeout settings
                    then config <| pc_ConnectTimeout := set_ConnectTimeout settings |> else config in
      Some (if 0 <? set_StatementTimeout settings
            then config <| pc_RuntimeParams :=
                   <[statementTimeoutParam := pretty (Milliseconds (set_StatementTimeout settings))]>
                     (pc_RuntimeParams config) |>
            else config)
  end.

(** ** Migrations *)

(** The files embedded from migrations/. *)
Definition migrationFiles : list string :=
  ["0001_init.sql"; "0002_cron_next_run.sql"; "0002_queue_state_idx.sql"; "0003_task_started_at.sql";
   "0004_task_group.sql"; "0005_rate_limits.sql"; "0006_task_expires_at.sql"; "0007_task_dependencies.sql";
   "0008_concurrency_limits.sql"; "0009_task_progress.sql"; "0010_group_configs.sql";
   "0011_webhook_workers.sql"; "0012_terminal_purge_idx.sql"].

Section Migrate.
(** [apply name] is what the statements of a file do to the schema, if they run. *)
Context {D : Type} (apply : string → D → option D).

(** conveyor_schema_migrations, [None] before it is created, and the rest. *)
Record schema := mkSchema { sc_versions : option (gset string); sc_objects : D }.

(** A connection: the faults ahead and the schema. An error is its message. *)
Definition conn : Type := list fault * schema.
Definition migration (A : Type) : Type := conn → conn * (string + A).

Definition then_ {A B} (m : migration A) (k : A → migration B) : migration B := λ c,
  let '(c, r) := m c in match r with inl err => (c, inl err) | inr x => k x c end.

(** One statement of the transaction, wrapped in its message. *)
Definition statement {A} (context : string) (q : schema → option (schema * A)) : migration A :=
  λ '(faults, sc),
    let rest := tail faults in
    match hd Answered faults with
    | Refused => ((rest, sc), inl context)
    | f =>
        match q sc with
        | None => ((rest, sc), inl context)
        | Some (sc, x) => ((rest, sc), match f with Answered => inr x | _ => inl context end)
        end
    end.

Definition createVersions (sc : schema) : schema :=
  mkSchema (Some (default ∅ (sc_versions sc))) (sc_objects sc).

Definition listVersions (sc : schema) : option (schema * gset string) :=
  applied ← sc_versions sc; Some (sc, applied).

Definition runFile (name : string) (sc : schema) : option (schema * unit) :=
  objects ← apply name (sc_objects sc); Some (mkSchema (sc_versions sc) objects, ()).

(** The version is the table's primary key. *)
Definition recordVersion (name : string) (sc : schema) : option (schema * unit) :=
  applied ← sc_versions sc;
  if decide (name ∈ applied) then None
  else Some (mkSchema (Some ({[name]} ∪ applied)) (sc_objects sc), ()).

Fixpoint applyPending (applied : gset string) (names : list string) : migration unit :=
  match names with
  | [] => λ c, (c, inr ())
  | name :: names =>
      if decide (name ∈ applied) then applyPending applied names
      else then_ (statement ("postgres: apply migration " +:+ name) (runFile name)) (λ _,
           then_ (statement ("postgres: record migration " +:+ name) (recordVersion name)) (λ _,
           applyPending applied names))
  end.

Definition migrateTx : migration unit :=
  then_ (statement "postgres: lift migration statement timeout" (λ sc, Some (sc, ()))) (λ _,
  then_ (statement "postgres: acquire migration lock" (λ sc, Some (sc, ()))) (λ _,
  then_ (statement "postgres: create migration table" (λ sc, Some (createVersions sc, ()))) (λ _,
  then_ (statement "postgres: list applied migrations" listVersions) (λ applied,
  applyPending applied (SortFunc strings_Compare migrationFiles))))).

(** Begin, [migrateTx], Commit and the deferred rollback. *)
Definition migrate : migration unit := λ '(faults, sc),
  match hd Answered faults with
  | Refused | ReplyLost => ((tail faults, sc), inl "postgres: begin migration")
  | Answered =>
      let '((faults, sc'), r) := migrateTx (tail faults, sc) in
      match r with
      | inl err => ((tail faults, sc), inl err)
      | inr _ =>
          match hd Answered faults with
          | Answered => ((tail faults, sc'), inr ())
          | Refused => ((tail faults, sc), inl "postgres: commit migrations")
          | ReplyLost => ((tail faults, sc'), inl "postgres: commit migrations")
          end
      end
  end.

(** [NewWithPool]: the pool is opened and pinged, then the database migrated;
    [connects] is whether [pgxpool.NewWithConfig] accepts a configuration. *)
Definition openBroker (parsed : option poolConf) (settings : PoolSettings) (connects : poolConf → bool)
    : migration poolConf := λ c,
  match poolConfig parsed settings with
  | None => (c, inl "postgres: parse dsn")
  | Some config =>
      if negb (connects config) then (c, inl "postgres: connect") else
      then_ (statement "postgres: ping" (λ sc, Some (sc, ()))) (λ _, then_ migrate (λ _ c, (c, inr config))) c
  end.

(** ** What a migration does *)

(** The files still to run, in order, and their effect one after the other. *)
Definition pending (applied : gset string) : list string :=
  filter (.∉ applied) (SortFunc strings_Compare migrationFiles).

Definition applyAll (names : list string) (objects : D) : option D :=
  foldl (λ acc name, acc ≫= apply name) (Some objects) names.

(** The schema the files lead to, if their statements run. *)
Definition migrated (sc : schema) : option schema :=
  let applied := default ∅ (sc_versions sc) in
  objects ← applyAll (pending applied) (sc_objects sc);
  Some (mkSchema (Some (list_to_set (pending applied) ∪ applied)) objects).

Lemma applyAll_None names : foldl (λ acc name, acc ≫= apply name) None names = None.
Proof. by induction names. Qed.

Lemma applyAll_cons name names d : applyAll (name :: names) d = apply name d ≫= applyAll names.
Proof. unfold applyAll. cbn. destruct (apply name d); [done|apply applyAll_None]. Qed.

Lemma statement_inr {A} context (q : schema → option (schema * A)) faults sc c x :
  statement context q (faults, sc) = (c, inr x) → c.1 = tail faults ∧ q sc = Some (c.2, x).
Proof.
  unfold statement. destruct (hd Answered faults), (q sc) as [[sc' y]|]; intros [= <- <-]; done.
Qed.

Lemma statement_calm {A} context (q : schema → option (schema * A)) sc sc' x :
  q sc = Some (sc', x) → statement context q ([], sc) = (([], sc'), inr x).
Proof. unfold statement. cbn. by intros ->. Qed.

Lemma then_inr {A B} (m : migration A) (k : A → migration B) c c' y :
  then_ m k c = (c', inr y) → ∃ c1 x, m c = (c1, inr x) ∧ k x c1 = (c', inr y).
Proof. unfold then_. destruct (m c) as [c1 [err|x]]; [done|]. eauto. Qed.

Section Pending.
Variable applied : gset string.

(** The versions table lacks the files that have not been skipped. *)
Definition unrecorded (names : list string) (sc : schema) : Prop :=
  ∃ v, sc_versions sc = Some v ∧ ∀ name, name ∈ names → name ∉ applied → name ∉ v.

Definition effect (names : list string) (sc : schema) : option schema :=
  objects ← applyAll (filter (.∉ applied) names) (sc_objects sc);
  Some (mkSchema (Some (list_to_set (filter (.∉ applied) names) ∪ default ∅ (sc_versions sc))) objects).

Lemma effect_cons name names sc d :
  name ∉ applied → apply name (sc_objects sc) = Some d →
  effect (name :: names) sc =
  effect names (mkSchema (Some ({[name]} ∪ default ∅ (sc_versions sc))) d).
Proof.
  intros Hn Hd. unfold effect. rewrite filter_cons_True by done. rewrite applyAll_cons, Hd. cbn.
  destruct (applyAll _ d); [|done]. cbn. do 3 f_equal. set_solver.
Qed.

Lemma unrecorded_cons name names sc d v :
  NoDup (name :: names) → sc_versions sc = Some v → unrecorded (name :: names) sc →
  unrecorded names (mkSchema (Some ({[name]} ∪ v)) d).
Proof.
  intros [Hnotin _]%NoDup_cons Hv (v' & Hv' & Hun). simplify_eq. eexists; split; [done|].
  intros n Hn Ha. rewrite not_elem_of_union, not_elem_of_singleton. split; [set_solver|].
  apply Hun; [by right|done].
Qed.

Lemma effect_skip name names sc : name ∈ applied → effect (name :: names) sc = effect names sc.
Proof. intros H. unfold effect. rewrite filter_cons_False; [done|]. intros H'. by apply H'. Qed.

Lemma unrecorded_skip name names sc : unrecorded (name :: names) sc → unrecorded names sc.
Proof. intros (v & Hv & H). exists v. split; [done|]. intros n Hn. apply H. by right. Qed.

(** A run that succeeds had the files' effect, whatever faults it met. *)
Lemma applyPending_inr names : ∀ faults sc c,
  NoDup names → unrecorded names sc →
  applyPending applied names (faults, sc) = (c, inr ()) → effect names sc = Some c.2.
Proof.
  induction names as [|name names IH]; intros faults sc c Hnd Hun.
  { cbn. intros [= <-]. unfold effect. cbn. destruct Hun as (v & Hv & _). rewrite Hv. cbn.
    destruct sc as [vs d]; cbn in *; subst. do 3 f_equal. set_solver. }
  cbn [applyPending]. case_decide as Hin.
  { rewrite effect_skip by done. apply IH; [by apply NoDup_cons in Hnd as [_ ?]|by eapply unrecorded_skip]. }
  intros ([f1 sc1] & [] & H1 & ([f2 sc2] & [] & H2 & H3)%then_inr)%then_inr.
  apply statement_inr in H1 as [_ H1]. apply statement_inr in H2 as [_ H2]. cbn in H1, H2, H3.
  unfold runFile in H1. destruct (apply name (sc_objects sc)) as [d|] eqn:Hd; [|done]. cbn in H1. simplify_eq.
  rewrite (effect_cons _ _ _ d) by done. pose proof Hun as (v & Hv & _).
  unfold recordVersion in H2. cbn in H2. rewrite Hv in H2 |- *. cbn in H2 |- *. case_decide; [done|]. simplify_eq.
  eapply IH; [by apply NoDup_cons in Hnd as [_ ?]|by eapply unrecorded_cons|done].
Qed.

(** Without faults it succeeds whenever the statements run. *)
Lemma applyPending_calm names : ∀ sc sc',
  NoDup names → unrecorded names sc → effect names sc = Some sc' →
  applyPending applied names ([], sc) = (([], sc'), inr ()).
Proof.
  induction names as [|name names IH]; intros sc sc' Hnd Hun He.
  { cbn. unfold effect in He. cbn in He. destruct Hun as (v & Hv & _). rewrite Hv in He. cbn in He. simplify_eq.
    destruct sc as [vs d]; cbn in *; subst. do 4 f_equal. set_solver. }
  cbn [applyPending]. case_decide as Hin.
  { rewrite effect_skip in He by done.
    apply IH; [by apply NoDup_cons in Hnd as [_ ?]|by eapply unrecorded_skip|done]. }
  pose proof Hun as (v & Hv & Hfree).
  destruct (apply name (sc_objects sc)) as [d|] eqn:Hd.
  2: { unfold effect in He. rewrite filter_cons_True, applyAll_cons, Hd in He by done. done. }
  unfold then_. rewrite (statement_calm _ _ _ (mkSchema (Some v) d) ()).
  2: { unfold runFile. by rewrite Hd, Hv. }
  rewrite (statement_calm _ _ _ (mkSchema (Some ({[name]} ∪ v)) d) ()).
  2: { unfold recordVersion. cbn. rewrite decide_False; [done|]. by apply Hfree; [left|]. }
  apply IH; [by apply NoDup_cons in Hnd as [_ ?]|by eapply unrecorded_cons|].
  rewrite <- He. rewrite (effect_cons _ _ _ d) by done. by rewrite Hv.
Qed.
End Pending.

Lemma names_NoDup : NoDup (SortFunc strings_Compare migrationFiles).
Proof. apply (bool_decide_unpack _). vm_compute. exact I. Qed.

Lemma unrecorded_start sc :
  unrecorded (default ∅ (sc_versions sc)) (SortFunc strings_Compare migrationFiles) (createVersions sc).
Proof. eexists. by split. Qed.

Lemma effect_start sc :
  effect (default ∅ (sc_versions sc)) (SortFunc strings_Compare migrationFiles) (createVersions sc) = migrated sc.
Proof. done. Qed.

Lemma migrateTx_inr faults sc c : migrateTx (faults, sc) = (c, inr ()) → migrated sc = Some c.2.
Proof.
  intros ([f1 s1] & [] & H1 & ([f2 s2] & [] & H2 & ([f3 s3] & [] & H3 &
    ([f4 s4] & applied & H4 & H)%then_inr)%then_inr)%then_inr)%then_inr.
  apply statement_inr in H1 as [_ [= ->]], H2 as [_ [= ->]], H3 as [_ [= <-]], H4 as [_ H4].
  cbn in H4. simplify_eq. rewrite <- effect_start.
  eapply applyPending_inr; [apply names_NoDup|apply unrecorded_start|exact H].
Qed.

(** A migration leaves the schema alone or takes it all the way, and if it reports
    success it took it all the way. *)
Lemma migrate_whole faults sc :
  let '(c, r) := migrate (faults, sc) in
  (c.2 = sc ∧ r ≠ inr ()) ∨ migrated sc = Some c.2.
Proof.
  unfold migrate. destruct (hd Answered faults); [|by left..].
  destruct (migrateTx (tail faults, sc)) as [[faults' sc'] [err|[]]] eqn:Htx; [by left|].
  apply migrateTx_inr in Htx. destruct (hd Answered faults'); [by right|by left|by right].
Qed.

Lemma migrate_calm sc sc' : migrated sc = Some sc' → migrate ([], sc) = (([], sc'), inr ()).
Proof.
  intros H. unfold migrate, migrateTx, then_. cbn [hd tail].
  rewrite !(statement_calm _ (λ sc, Some (sc, ())) sc sc ()) by done.
  rewrite (statement_calm _ _ sc (createVersions sc) ()) by done.
  rewrite (statement_calm _ listVersions (createVersions sc) (createVersions sc) (default ∅ (sc_versions sc))) by done.
  by rewrite (applyPending_calm _ _ _ sc' names_NoDup (unrecorded_start sc)).
Qed.

#[local] Arguments pending : simpl never.

(** Nothing is pending in a migrated schema. *)
Lemma migrated_again sc sc' : migrated sc = Some sc' → migrated sc' = Some sc'.
Proof.
  unfold migrated. destruct (applyAll (pending _) _) as [d|]; [|done]. intros [= <-]. cbn.
  set (applied := default ∅ (sc_versions sc)).
  assert (Hnone : pending (list_to_set (pending applied) ∪ applied) = []).
  { unfold pending at 1. apply elem_of_nil_inv. intros name [Hnot Hin]%list_elem_of_filter. apply Hnot.
    rewrite elem_of_union, elem_of_list_to_set. unfold pending. rewrite list_elem_of_filter.
    destruct (decide (name ∈ applied)); [by right|by left]. }
  rewrite Hnone. cbn. do 3 f_equal. set_solver.
Qed.

(** The nodes of a cluster boot, each with its own faults; what the last one leaves,
    and whether one of them reported success. *)
Fixpoint boots (schedules : list (list fault)) (sc : schema) : schema * bool :=
  match schedules with
  | [] => (sc, false)
  | faults :: schedules =>
      let '(c, r) := migrate (faults, sc) in
      let '(sc, ok) := boots schedules c.2 in
      (sc, (match r with inr _ => true | inl _ => false end) || ok)
  end.

(** C12: however many nodes boot and whatever faults their migrations meet, the
    schema is untouched or exactly what the embedded files, each applied once and in
    the order of their names, make of it, and it is the latter as soon as one node
    reported success; a later boot without faults then succeeds and changes
    nothing. *)
Theorem boots_migrate_once schedules sc :
  let '(sc', ok) := boots schedules sc in
  ((sc' = sc ∧ ok = false) ∨ migrated sc = Some sc') ∧
  (ok = true → migrate ([], sc') = (([], sc'), inr ())).
Proof.
  assert (H : ∀ sc, let '(sc', ok) := boots schedules sc in
              (sc' = sc ∧ ok = false) ∨ migrated sc = Some sc').
  { induction schedules as [|faults schedules IH]; intros sc0; [by left|]. cbn [boots].
    pose proof (migrate_whole faults sc0) as Hone. destruct (migrate (faults, sc0)) as [[f1 sc1] r].
    specialize (IH sc1). cbn [snd] in *. destruct (boots schedules sc1) as [sc' ok]. cbn [snd] in *.
    destruct Hone as [[-> Hr]|Hone], IH as [[-> ->]|IH]; try by right.
    - left. destruct r as [|[]]; done.
    - right. apply migrated_again in Hone as Hagain. congruence. }
  specialize (H sc). destruct (boots schedules sc) as [sc' ok]. split; [done|].
  intros ->. destruct H as [[_ [=]]|H]. by apply migrate_calm, migrated_again with sc.
Qed.
End Migrate.

(** Three boots: the first meets a refused commit, the second loses the reply of its
    commit, the third finds everything applied. *)
Lemma boots_migrate_once_witness :
  let apply name (log : list string) := Some (log ++ [name]) in
  let atCommit f : list fault := replicate 31 Answered ++ [f] in
  let '(sc, ok) := boots apply [atCommit Refused; atCommit ReplyLost; []] (mkSchema None []) in
  sc_objects sc = migrationFiles ∧ ok = true ∧ migrate apply ([], sc) = (([], sc), inr ()).
Proof.
  set (apply := λ name (log : list string), Some (log ++ [name])). cbn beta zeta.
  pose proof (boots_migrate_once apply
    [replicate 31 Answered ++ [Refused]; replicate 31 Answered ++ [ReplyLost]; []] (mkSchema None [])) as H.
  assert (Hrun : boots apply [replicate 31 Answered ++ [Refused]; replicate 31 Answered ++ [ReplyLost]; []]
      (mkSchema None []) = (mkSchema (Some (list_to_set migrationFiles)) migrationFiles, true))
    by (vm_compute; reflexivity).
  rewrite Hrun in H |- *. destruct H as [_ H]. split_and!; [done|done|by apply H].
Defined.
