(* ===== verification/PostgresAtomic.v ===== *)
(** * Faults and the PostgreSQL broker

    Whatever round trips of a call are refused or lose their reply, the call took
    effect as a whole or not at all, it emitted no event unless it succeeded, and
    what it answers, when it is not the driver's error, is what it would have
    answered without faults. The computations of the broker are built from
    statements, transactions and sequencing, so each of these is a property of the
    combinators. *)

From S2P Require Import Prelude Proto Events BrokerApi Encryption BrokerCalls Postgres PostgresBroker.
From Stdlib Require Import Strings.Byte.

Create HintDb pg_db.

Section Faults.
Context {PW : ProtoWire} {MR : MapRange} {PD : PgDriver}.

(** The same broker with no fault ahead. *)
Definition calm (s : Store) : Store := s <| ps_faults := [] |>.

Definition driverError (err : callError) : Prop := ∃ member context, err = EDriver member context.
Definition unavailable (err : sqlError) : Prop := err = Unavailable.

(** With and without faults the computation does the same, unless it reports one. *)
Definition lockstep {E A} (bad : E → Prop) (m : pg E A) : Prop := ∀ s,
  (calm (m s).1 = (m (calm s)).1 ∧ (m s).2 = (m (calm s)).2) ∨ ∃ err, (m s).2 = inl err ∧ bad err.

(** The tables end as they were or as they end without faults. *)
Definition allOrNothing {E A} (m : pg E A) : Prop := ∀ s,
  ps_db (m s).1 = ps_db s ∨ ps_db (m s).1 = ps_db (m (calm s)).1.

Definition readOnly {E A} (m : pg E A) : Prop := ∀ s, ps_db (m s).1 = ps_db s.
Definition silent {E A} (m : pg E A) : Prop := ∀ s, ps_emitted (m s).1 = ps_emitted s.
Definition total {E A} (m : pg E A) : Prop := ∀ s, ∃ x, (m s).2 = inr x.

(** An error means no event was emitted. *)
Definition emitsOnSuccess {E A} (m : pg E A) : Prop := ∀ s err,
  (m s).2 = inl err → ps_emitted (m s).1 = ps_emitted s.

Lemma calm_calm s : calm (calm s) = calm s.
Proof. done. Qed.

Lemma nextFault_calm s : nextFault (calm s) = (Answered, calm s).
Proof. done. Qed.

Lemma nextFault_keeps s :
  calm (nextFault s).2 = calm s ∧ ps_db (nextFault s).2 = ps_db s ∧
  ps_emitted (nextFault s).2 = ps_emitted s.
Proof. unfold nextFault. by destruct (ps_faults s). Qed.

(** ** Return, failure and sequencing *)

Lemma lockstep_ret {E A} (bad : E → Prop) (x : A) : lockstep bad (ret x).
Proof. intros s. by left. Qed.
Lemma lockstep_fail {E A} (bad : E → Prop) (err : E) : lockstep (A := A) bad (fail err).
Proof. intros s. by left. Qed.
Lemma readOnly_ret {E A} (x : A) : readOnly (E := E) (ret x).
Proof. done. Qed.
Lemma readOnly_fail {E A} (err : E) : readOnly (A := A) (fail err).
Proof. done. Qed.
Lemma silent_ret {E A} (x : A) : silent (E := E) (ret x).
Proof. done. Qed.
Lemma silent_fail {E A} (err : E) : silent (A := A) (fail err).
Proof. done. Qed.
Lemma total_ret {E A} (x : A) : total (E := E) (ret x).
Proof. intros s. by exists x. Qed.

Lemma lockstep_bind {E A B} (bad : E → Prop) (m : pg E A) (k : A → pg E B) :
  lockstep bad m → (∀ x, lockstep bad (k x)) → lockstep bad (bind m k).
Proof.
  intros Hm Hk s. unfold bind. specialize (Hm s).
  destruct (m s) as [s1 [err|x]], (m (calm s)) as [s2 [err'|y]]; cbn in *;
    destruct Hm as [[Hs Hr]|(e & He & Hb)]; try done; simplify_eq; eauto.
  by destruct (Hk y s1) as [?|?]; auto.
Qed.

Lemma readOnly_bind {E A B} (m : pg E A) (k : A → pg E B) :
  readOnly m → (∀ x, readOnly (k x)) → readOnly (bind m k).
Proof.
  intros Hm Hk s. unfold bind. specialize (Hm s). destruct (m s) as [s1 [err|x]]; cbn in *; [done|].
  by rewrite Hk.
Qed.

Lemma silent_bind {E A B} (m : pg E A) (k : A → pg E B) :
  silent m → (∀ x, silent (k x)) → silent (bind m k).
Proof.
  intros Hm Hk s. unfold bind. specialize (Hm s). destruct (m s) as [s1 [err|x]]; cbn in *; [done|].
  by rewrite Hk.
Qed.

Lemma total_bind {E A B} (m : pg E A) (k : A → pg E B) :
  total m → (∀ x, total (k x)) → total (bind m k).
Proof.
  intros Hm Hk s. unfold bind. destruct (Hm s) as [x Hx]. destruct (m s) as [s1 r]. cbn in Hx.
  subst r. apply Hk.
Qed.

Lemma emitsOnSuccess_silent {E A} (m : pg E A) : silent m → emitsOnSuccess m.
Proof. intros Hm s err _. apply Hm. Qed.
Lemma emitsOnSuccess_total {E A} (m : pg E A) : total m → emitsOnSuccess m.
Proof. intros Hm s err He. destruct (Hm s) as [x Hx]. congruence. Qed.

Lemma emitsOnSuccess_bind {E A B} (m : pg E A) (k : A → pg E B) :
  silent m → (∀ x, emitsOnSuccess (k x)) → emitsOnSuccess (bind m k).
Proof.
  intros Hm Hk s err. unfold bind. specialize (Hm s). destruct (m s) as [s1 [e|x]]; cbn in *; [done|].
  intros He. by rewrite (Hk x s1 err He).
Qed.

Lemma allOrNothing_readOnly {E A} (m : pg E A) : readOnly m → allOrNothing m.
Proof. intros Hm s. left. apply Hm. Qed.

(** A read before the unit that writes. *)
Lemma allOrNothing_after {E A B} (bad : E → Prop) (m : pg E A) (k : A → pg E B) :
  readOnly m → lockstep bad m → (∀ x, allOrNothing (k x)) → allOrNothing (bind m k).
Proof.
  intros Hr Hm Hk s. unfold bind. specialize (Hm s). pose proof (Hr s) as Hs.
  destruct (m s) as [s1 [err|x]]; cbn in *; [by left|].
  destruct Hm as [[Hs' Hr']|(e & He & _)]; [|done].
  destruct (m (calm s)) as [s2 r2]. cbn in *. subst r2 s2. rewrite <- Hs. apply Hk.
Qed.

(** Reads and emissions after it. *)
Lemma allOrNothing_before {E A B} (m : pg E A) (k : A → pg E B) :
  allOrNothing m → (∀ x, readOnly (k x)) → allOrNothing (bind m k).
Proof.
  intros Hm Hk s. specialize (Hm s). unfold bind.
  assert (Hsame : ∀ s1 (r : E + A),
    ps_db (match r with inl err => (s1, inl err) | inr x => k x s1 end).1 = ps_db s1)
    by (intros s1 [err|x]; [done|apply Hk]).
  destruct (m s) as [s1 r1], (m (calm s)) as [s2 r2]. by rewrite !Hsame.
Qed.

(** ** Statements *)

Lemma exec_lockstep {A} (q : sql A) : lockstep unavailable (exec q).
Proof.
  intros s. unfold exec. rewrite nextFault_calm. pose proof (nextFault_keeps s) as (Hc & Hd & _).
  destruct (nextFault s) as [f s']. cbn in *.
  destruct f; [|right; by eexists|]; rewrite Hd; destruct (q (ps_db s)) as [err|[db x]]; cbn.
  - by left.
  - left. split; [|done]. unfold calm in *. by destruct s, s'; cbn in *; simplify_eq.
  - by left.
  - right. by eexists.
Qed.

Lemma exec_allOrNothing {A} (q : sql A) : allOrNothing (exec q).
Proof.
  intros s. unfold exec. rewrite nextFault_calm. pose proof (nextFault_keeps s) as (_ & Hd & _).
  destruct (nextFault s) as [f s']. cbn in *.
  destruct f; [|by left|]; rewrite Hd; destruct (q (ps_db s)) as [err|[db x]]; cbn; auto.
Qed.

Lemma exec_silent {A} (q : sql A) : silent (exec q).
Proof.
  intros s. unfold exec. pose proof (nextFault_keeps s) as (_ & _ & He).
  destruct (nextFault s) as [f s']. cbn in *.
  destruct f; [|done|]; destruct (q (ps_db s')) as [err|[db x]]; by cbn.
Qed.

Lemma exec_readOnly {A} (f : Db → A) : readOnly (exec (reads f)).
Proof.
  intros s. unfold exec. pose proof (nextFault_keeps s) as (_ & Hd & _).
  destruct (nextFault s) as [g s']. cbn in *. by destruct g.
Qed.

Lemma execLocked_lockstep {A} (q : gset string → sql A) : lockstep unavailable (execLocked q).
Proof. intros s. apply (exec_lockstep (q (ps_locked s))). Qed.
Lemma execLocked_allOrNothing {A} (q : gset string → sql A) : allOrNothing (execLocked q).
Proof. intros s. apply (exec_allOrNothing (q (ps_locked s))). Qed.
Lemma execLocked_silent {A} (q : gset string → sql A) : silent (execLocked q).
Proof. intros s. apply exec_silent. Qed.

(** A computation whose result only is rewritten, keeping the errors of faults. *)
Lemma mapping_lockstep {E E' A A'} (bad : E → Prop) (bad' : E' → Prop) (g : E + A → E' + A') (m : pg E A) :
  (∀ err, bad err → ∃ err', g (inl err) = inl err' ∧ bad' err') → lockstep bad m →
  lockstep bad' (λ s, let '(s, r) := m s in (s, g r)).
Proof.
  intros Hg Hm s. specialize (Hm s). destruct (m s) as [s1 r1], (m (calm s)) as [s2 r2]. cbn in *.
  destruct Hm as [[-> ->]|(err & -> & Hb)]; [by left|]. right. eauto.
Qed.

Lemma wrapping_lockstep {A} context (m : pg sqlError A) :
  lockstep unavailable m → lockstep driverError (wrapping context m).
Proof.
  intros Hm. apply (mapping_lockstep unavailable driverError
    (λ r, match r with inl _ => inl (EDriver None context) | inr x => inr x end)); [|done].
  intros err _. repeat eexists.
Qed.

Lemma orDuplicate_lockstep {A} context (m : pg sqlError A) :
  lockstep unavailable m → lockstep driverError (orDuplicate context m).
Proof.
  intros Hm. apply (mapping_lockstep unavailable driverError
    (λ r, match r with
          | inl UniqueViolation => inl (EBroker ErrDuplicateTask)
          | inl _ => inl (EDriver None context)
          | inr x => inr x
          end)); [|done].
  intros err ->. repeat eexists.
Qed.

Lemma asMember_lockstep {A} index id (m : pg callError A) :
  lockstep driverError m → lockstep driverError (asMember index id m).
Proof.
  intros Hm. apply (mapping_lockstep driverError driverError
    (λ r, match r with inl err => inl (batchError index id err) | inr x => inr x end)); [|done].
  intros err (member & context & ->). repeat eexists.
Qed.

Lemma wrapping_store {A} context (m : pg sqlError A) s : (wrapping context m s).1 = (m s).1.
Proof. unfold wrapping. by destruct (m s). Qed.
Lemma orDuplicate_store {A} context (m : pg sqlError A) s : (orDuplicate context m s).1 = (m s).1.
Proof. unfold orDuplicate. by destruct (m s). Qed.
Lemma asMember_store {A} index id (m : pg callError A) s : (asMember index id m s).1 = (m s).1.
Proof. unfold asMember. by destruct (m s). Qed.

Lemma wrapping_allOrNothing {A} context (m : pg sqlError A) :
  allOrNothing m → allOrNothing (wrapping context m).
Proof. intros Hm s. rewrite !wrapping_store. apply Hm. Qed.
Lemma wrapping_readOnly {A} context (m : pg sqlError A) : readOnly m → readOnly (wrapping context m).
Proof. intros Hm s. rewrite wrapping_store. apply Hm. Qed.
Lemma wrapping_silent {A} context (m : pg sqlError A) : silent m → silent (wrapping context m).
Proof. intros Hm s. rewrite wrapping_store. apply Hm. Qed.
Lemma orDuplicate_silent {A} context (m : pg sqlError A) : silent m → silent (orDuplicate context m).
Proof. intros Hm s. rewrite orDuplicate_store. apply Hm. Qed.
Lemma asMember_silent {A} index id (m : pg callError A) : silent m → silent (asMember index id m).
Proof. intros Hm s. rewrite asMember_store. apply Hm. Qed.

(** ** Transactions *)

Lemma transaction_lockstep {A} b c (body : pg callError A) :
  lockstep driverError body → lockstep driverError (transaction b c body).
Proof.
  intros Hm s. unfold transaction. rewrite nextFault_calm. pose proof (nextFault_keeps s) as (Hc & Hd & _).
  destruct (nextFault s) as [f s0]. cbn in *.
  destruct f; [|right; repeat eexists..]. specialize (Hm s0). rewrite Hc in Hm.
  destruct (body s0) as [s1 [err|x]], (body (calm s)) as [s2 [err'|y]]; cbn in *;
    destruct Hm as [[Hs Hr]|(e & He & Hb)]; try done; simplify_eq; [|by eauto..|].
  - left. split; [|done]. pose proof (nextFault_keeps s1) as (Hc1 & _).
    destruct (nextFault s1) as [g s1']. unfold calm in *. destruct s1, s1', s, s0; cbn in *. by simplify_eq.
  - rewrite nextFault_calm. pose proof (nextFault_keeps s1) as (Hc1 & _).
    destruct (nextFault s1) as [g s1']. cbn in *.
    destruct g; [by left|right; repeat eexists..].
Qed.

Lemma transaction_allOrNothing {A} b c (body : pg callError A) :
  lockstep driverError body → allOrNothing (transaction b c body).
Proof.
  intros Hm s. unfold transaction. rewrite nextFault_calm. pose proof (nextFault_keeps s) as (Hc & Hd & _).
  destruct (nextFault s) as [f s0]. cbn in *.
  destruct f; [|by left..]. specialize (Hm s0). rewrite Hc in Hm.
  destruct (body s0) as [s1 [err|x]]; cbn in *; [by left|].
  destruct Hm as [[Hs Hr]|(e & He & _)]; [|done].
  destruct (body (calm s)) as [s2 r2]. cbn in *. subst r2 s2. rewrite nextFault_calm.
  pose proof (nextFault_keeps s1) as (_ & Hd1 & _).
  destruct (nextFault s1) as [g s1']. destruct g; cbn in *; auto.
Qed.

Lemma transaction_silent {A} b c (body : pg callError A) : silent body → silent (transaction b c body).
Proof.
  intros Hm s. unfold transaction. pose proof (nextFault_keeps s) as (_ & _ & He).
  destruct (nextFault s) as [f s0]. cbn in *.
  destruct f; [|done..]. specialize (Hm s0). pose proof (λ s, nextFault_keeps s) as Hn.
  destruct (body s0) as [s1 [err|x]]; cbn in *; specialize (Hn s1) as (_ & _ & He1);
    destruct (nextFault s1) as [g s1']; cbn in *; [congruence|destruct g; cbn; congruence].
Qed.

(** ** Emission *)

Lemma emitEvent_total {E} event : total (E := E) (emitEvent event).
Proof. intros s. by eexists. Qed.
Lemma emitEvent_readOnly {E} event : readOnly (E := E) (emitEvent event).
Proof. intros s. unfold emitEvent. cbn. destruct event; [|done]. by destruct (ps_sink s). Qed.
Lemma emitEvent_lockstep {E} (bad : E → Prop) event : lockstep bad (emitEvent event).
Proof.
  intros s. left. unfold emitEvent. cbn. destruct event; [|done]. by destruct (ps_sink s) eqn:?.
Qed.

Lemma emit_total {E} o n id q t le a at_ : total (E := E) (emit o n id q t le a at_).
Proof. intros s. unfold emit. destruct (ps_sink s); [apply emitEvent_total|by eexists]. Qed.
Lemma emit_readOnly {E} o n id q t le a at_ : readOnly (E := E) (emit o n id q t le a at_).
Proof. intros s. unfold emit. destruct (ps_sink s) eqn:?; [apply emitEvent_readOnly|done]. Qed.
Lemma emit_lockstep {E} (bad : E → Prop) o n id q t le a at_ : lockstep bad (emit o n id q t le a at_).
Proof.
  intros s. unfold emit. cbn. destruct (ps_sink s) eqn:Hs; [|by left]. apply emitEvent_lockstep.
Qed.
End Faults.

#[export] Hint Resolve lockstep_ret lockstep_fail readOnly_ret readOnly_fail silent_ret silent_fail
  total_ret exec_lockstep exec_allOrNothing exec_silent exec_readOnly execLocked_lockstep
  execLocked_allOrNothing execLocked_silent wrapping_lockstep wrapping_allOrNothing
  wrapping_readOnly wrapping_silent orDuplicate_lockstep orDuplicate_silent asMember_lockstep
  asMember_silent transaction_lockstep transaction_allOrNothing transaction_silent
  emitEvent_total emitEvent_readOnly emitEvent_lockstep emit_total emit_readOnly emit_lockstep : pg_db.

(** Takes a computation apart into statements, transactions and emissions. *)
Ltac pg_solve :=
  intros;
  lazymatch goal with
  | |- lockstep _ (bind _ _) => apply lockstep_bind; pg_solve
  | |- readOnly (bind _ _) => apply readOnly_bind; pg_solve
  | |- silent (bind _ _) => apply silent_bind; pg_solve
  | |- total (bind _ _) => apply total_bind; pg_solve
  | |- _ (match ?x with _ => _ end) => destruct x; pg_solve
  | |- _ => eauto 6 with pg_db
  end.

Section Methods.
Context {PW : ProtoWire} {MR : MapRange} {PD : PgDriver}.

(** ** Helpers of the methods *)

Lemma emitAll_facts events :
  total (E := callError) (emitAll events) ∧ readOnly (E := callError) (emitAll events) ∧
  lockstep driverError (emitAll events).
Proof. induction events as [|e es (Ht & Hr & Hl)]; cbn; repeat split; pg_solve. Qed.

Lemma emitChanges_facts o changes now :
  total (E := callError) (emitChanges o changes now) ∧ readOnly (E := callError) (emitChanges o changes now) ∧
  lockstep driverError (emitChanges o changes now).
Proof. unfold emitChange. induction changes as [|e es (Ht & Hr & Hl)]; cbn; repeat split; pg_solve. Qed.

Lemma emitLeased_facts leased now :
  total (emitLeased leased now) ∧ readOnly (emitLeased leased now) ∧
  lockstep driverError (emitLeased leased now).
Proof. induction leased as [|e es (Ht & Hr & Hl)]; cbn; repeat split; pg_solve. Qed.

Lemma eventSink_lockstep {E} (bad : E → Prop) : lockstep bad eventSink.
Proof. intros s. by left. Qed.
Lemma eventSink_silent {E} : silent (E := E) eventSink.
Proof. done. Qed.
#[local] Hint Resolve eventSink_lockstep eventSink_silent : pg_db.

Lemma mutateScoped_lockstep q : lockstep unavailable (mutateScoped q).
Proof. unfold mutateScoped. pg_solve. Qed.
Lemma mutateScoped_silent q : silent (mutateScoped q).
Proof. unfold mutateScoped. pg_solve. Qed.
Lemma mutateScoped_allOrNothing q : allOrNothing (mutateScoped q).
Proof. apply allOrNothing_before; pg_solve. Qed.
Lemma mutateScopedOld_lockstep q : lockstep unavailable (mutateScopedOld q).
Proof. unfold mutateScopedOld. pg_solve. Qed.
Lemma mutateScopedOld_silent q : silent (mutateScopedOld q).
Proof. unfold mutateScopedOld. pg_solve. Qed.
Lemma mutateScopedOld_allOrNothing q : allOrNothing (mutateScopedOld q).
Proof. apply allOrNothing_before; pg_solve. Qed.
#[local] Hint Resolve mutateScoped_lockstep mutateScoped_silent mutateScoped_allOrNothing
  mutateScopedOld_lockstep mutateScopedOld_silent mutateScopedOld_allOrNothing : pg_db.

Lemma orFailing_facts {A} (r : callError + A) :
  lockstep driverError (orFailing r) ∧ silent (orFailing r) ∧ readOnly (orFailing r).
Proof. destruct r; cbn; repeat split; pg_solve. Qed.

Lemma explainMiss_facts {A} id :
  lockstep driverError (explainMiss (A := A) id) ∧ silent (explainMiss (A := A) id) ∧
  readOnly (explainMiss (A := A) id).
Proof. unfold explainMiss, taskStateQuery. repeat split; pg_solve. Qed.

(** ** The bodies of the transactions *)

Lemma insertEdges_facts id deps :
  lockstep driverError (insertEdges id deps) ∧ silent (insertEdges id deps).
Proof. induction deps as [|[d p] deps [IHl IHs]]; cbn; split; pg_solve. Qed.

Lemma enqueueOneTx_facts prepared :
  lockstep driverError (enqueueOneTx prepared) ∧ silent (enqueueOneTx prepared).
Proof.
  unfold enqueueOneTx, resolveInitialDeps, dependencyStates.
  split; pg_solve; apply insertEdges_facts.
Qed.

Lemma enqueueAllTx_facts index prepared :
  lockstep driverError (enqueueAllTx index prepared) ∧ silent (enqueueAllTx index prepared).
Proof.
  revert index. induction prepared as [|entry rest IH]; intros index; cbn [enqueueAllTx]; split; pg_solve;
    solve [apply asMember_lockstep, enqueueOneTx_facts|apply asMember_silent, enqueueOneTx_facts|apply IH].
Qed.

Lemma partitionEdges_facts failed now edges :
  ∀ worklist satisfied emitted,
  lockstep driverError (partitionEdges failed now edges worklist satisfied emitted) ∧
  silent (partitionEdges failed now edges worklist satisfied emitted).
Proof.
  induction edges as [|[d p] edges IH]; intros worklist satisfied emitted;
    cbn [partitionEdges]; unfold cascadeCancel, blockedEvent; split; pg_solve; apply IH.
Qed.

Lemma promoteAll_facts now satisfied :
  ∀ queues emitted, lockstep driverError (promoteAll now satisfied queues emitted) ∧
    silent (promoteAll now satisfied queues emitted).
Proof.
  induction satisfied as [|d satisfied IH]; intros queues emitted;
    cbn [promoteAll]; unfold promoteDependent, blockedEvent; split; pg_solve; apply IH.
Qed.

Lemma resolveLoop_facts fuel now :
  ∀ seen worklist queues emitted,
  lockstep driverError (resolveLoop fuel now seen worklist queues emitted) ∧
  silent (resolveLoop fuel now seen worklist queues emitted).
Proof.
  induction fuel as [|fuel IH]; intros seen [|id worklist] queues emitted;
    cbn [resolveLoop]; unfold terminalState, edgesWaitingOn; split; pg_solve;
    solve [apply IH|apply partitionEdges_facts|apply promoteAll_facts].
Qed.

Lemma resolveWithin_facts seed now :
  lockstep driverError (resolveWithin seed now) ∧ silent (resolveWithin seed now).
Proof. split; intros s; apply (resolveLoop_facts (resolveFuel seed (ps_db s))). Qed.

Lemma promoteReadyTx_facts limit now :
  lockstep driverError (promoteReadyTx limit now) ∧ silent (promoteReadyTx limit now).
Proof. unfold promoteReadyTx. split; pg_solve; apply resolveWithin_facts. Qed.

Ltac pg_fact :=
  first [apply emitAll_facts|apply emitChanges_facts|apply emitLeased_facts|apply orFailing_facts
        |apply explainMiss_facts|apply enqueueOneTx_facts|apply enqueueAllTx_facts
        |apply resolveWithin_facts|apply promoteReadyTx_facts].
#[local] Hint Extern 1 (lockstep _ _) => pg_fact : pg_db.
#[local] Hint Extern 1 (silent _) => pg_fact : pg_db.
#[local] Hint Extern 1 (readOnly _) => pg_fact : pg_db.
#[local] Hint Extern 1 (total _) => pg_fact : pg_db.

(** ** The methods *)

(** What a call owes its caller when round trips can fail. *)
Definition unitOfWork {A} (m : pg callError A) : Prop :=
  lockstep driverError m ∧ allOrNothing m ∧ emitsOnSuccess m.

Ltac pg_leaf := solve [pg_solve].
Ltac pg_unit :=
  intros;
  lazymatch goal with
  | |- allOrNothing (bind _ _) =>
      first [apply allOrNothing_before; [pg_unit|intros; pg_leaf]
            |eapply (allOrNothing_after driverError); [pg_leaf|pg_leaf|pg_unit]]
  | |- emitsOnSuccess (bind _ _) =>
      first [apply emitsOnSuccess_bind; [pg_leaf|pg_unit]|apply emitsOnSuccess_total; pg_leaf]
  | |- _ (match ?x with _ => _ end) => destruct x; pg_unit
  | |- allOrNothing _ => first [pg_leaf|apply allOrNothing_readOnly; pg_leaf]
  | |- emitsOnSuccess _ =>
      first [apply emitsOnSuccess_silent; pg_leaf|apply emitsOnSuccess_total; pg_leaf]
  | |- lockstep _ _ => pg_leaf
  end.

(** The calls that do their writing in one statement or one transaction: all but
    [PurgeTerminal] and [DeleteTask], which run several statements one by one, and
    [Info], which answers without a version when it cannot read one. *)
Definition oneUnit (r : request) : bool :=
  match r with RPurgeTerminal _ _ | RDeleteTask _ | RInfo => false | _ => true end.

Lemma leaseScopedExec_unit q : unitOfWork (leaseScopedExec q).
Proof. unfold leaseScopedExec. repeat split; pg_unit. Qed.

Lemma Enqueue_unit task now : unitOfWork (Enqueue task now).
Proof. unfold Enqueue, enqueueWithEdges. repeat split; pg_unit. Qed.

Lemma EnqueueBatch_unit tasks now : unitOfWork (EnqueueBatch tasks now).
Proof. unfold EnqueueBatch. repeat split; pg_unit. Qed.

Lemma Lease_unit queue limit ttl lid now : unitOfWork (Lease queue limit ttl lid now).
Proof. unfold Lease. repeat split; pg_unit. Qed.

Lemma LeaseGroup_unit queue group limit ttl lid now : unitOfWork (LeaseGroup queue group limit ttl lid now).
Proof. unfold LeaseGroup. repeat split; pg_unit. Qed.

Lemma Archive_unit id lid msg now : unitOfWork (Archive id lid msg now).
Proof. unfold Archive, emitChange. repeat split; pg_unit. Qed.

Lemma ResolveDependents_unit id now : unitOfWork (ResolveDependents id now).
Proof. unfold ResolveDependents, hasDependentsQuery. repeat split; pg_unit. Qed.

Lemma PromoteReadyDependents_unit limit now : unitOfWork (PromoteReadyDependents limit now).
Proof. unfold PromoteReadyDependents. repeat split; pg_unit. Qed.

Lemma SetEventSink_unit : unitOfWork (λ s, (SetEventSink s, inr ())).
Proof. repeat split; intros s; by left. Qed.

Ltac unit_lemma :=
  lazymatch goal with
  | |- unitOfWork (ExtendLease _ _ _ _) => apply leaseScopedExec_unit
  | |- unitOfWork (SetProgress _ _ _ _ _) => apply leaseScopedExec_unit
  | |- unitOfWork (Enqueue _ _) => apply Enqueue_unit
  | |- unitOfWork (EnqueueBatch _ _) => apply EnqueueBatch_unit
  | |- unitOfWork (Lease _ _ _ _ _) => apply Lease_unit
  | |- unitOfWork (LeaseGroup _ _ _ _ _ _) => apply LeaseGroup_unit
  | |- unitOfWork (Archive _ _ _ _) => apply Archive_unit
  | |- unitOfWork (ResolveDependents _ _) => apply ResolveDependents_unit
  | |- unitOfWork (PromoteReadyDependents _ _) => apply PromoteReadyDependents_unit
  end.

Lemma call_unit now r :
  oneUnit r = true →
  ∃ A (f : A → reply) (m : pg callError A), unitOfWork m ∧ postgres now r = answering f m.
Proof.
  destruct r; intros Hr; try discriminate Hr; clear Hr; cbn [postgres];
    lazymatch goal with
    | |- context [answering ?g ?c = _] => exists _, g, c; split; [|reflexivity]
    | |- _ => idtac
    end.
  all: try unit_lemma.
  all: unfold GroupStats, Ack, AckBatch, Fail, Release, ReapExpiredLeases, PromoteScheduled,
    ArchiveExpired, PendingCount, QueueStats, SetQueuePaused, QueuePaused,
    SetQueueRateLimit, DeleteQueueRateLimit, QueueRateLimit, QueueRateLimits,
    SetQueueConcurrencyLimit, DeleteQueueConcurrencyLimit, QueueConcurrencyLimit,
    QueueConcurrencyLimits, SetGroupConfig, DeleteGroupConfig, GroupConfigs, GetTask, ListTasks,
    CancelTask, RunTaskNow, RescheduleTask, ArchiveTask, UpsertCronEntry, ListCronEntries,
    ListDueCronEntries, SetCronPaused, UpdateCronNextRun, DeleteCronEntry,
    UpsertWebhookWorker, GetWebhookWorker, ListWebhookWorkers, SetWebhookWorkerPaused,
    DeleteWebhookWorker, emitChange.
  all: try (repeat split; pg_unit; fail).
  - exists unit, returned, (λ s, (SetEventSink s, inr ())). split; [apply SetEventSink_unit|reflexivity].
  - exists unit, returned, (ret ()). split; [repeat split; pg_unit|reflexivity].
Qed.

Lemma answering_unit {A} (f : A → reply) (m : pg callError A) s :
  unitOfWork m →
  let '(s', rep) := answering f m s in
  let '(c, rep') := answering f m (calm s) in
  (ps_db s' = ps_db s ∨ ps_db s' = ps_db c) ∧
  ((∃ member context, rep = Failed (EDriver member context)) ∧ ps_emitted s' = ps_emitted s ∨
   rep = rep' ∧ ps_db s' = ps_db c ∧ ps_emitted s' = ps_emitted c).
Proof.
  intros (Hl & Ha & He). specialize (Hl s). specialize (Ha s). specialize (He s). unfold answering.
  destruct (m s) as [s' r], (m (calm s)) as [c r']. cbn in *. split; [done|].
  destruct Hl as [[<- <-]|(err & -> & (member & context & ->))]; [by right|].
  left. split; [by eexists _, _|]. by eapply He.
Qed.

(** C9: under every schedule of refused and lost round trips, a call of the
    PostgreSQL broker that writes in one statement or one transaction leaves the
    tables as they were or as it would have without faults, never in between; if it
    answers with anything but the driver's error, reply, tables and emitted events
    are those of the run without faults; and with the driver's error it emitted
    nothing. Batches, dependency resolution and enqueues with edges included. *)
Theorem postgres_all_or_nothing now r s :
  oneUnit r = true →
  let '(s', rep) := postgres now r s in
  let '(c, rep') := postgres now r (calm s) in
  (ps_db s' = ps_db s ∨ ps_db s' = ps_db c) ∧
  ((∃ member context, rep = Failed (EDriver member context)) ∧ ps_emitted s' = ps_emitted s ∨
   rep = rep' ∧ ps_db s' = ps_db c ∧ ps_emitted s' = ps_emitted c).
Proof.
  intros Hr. destruct (call_unit now r Hr) as (A & f & m & Hm & ->). by apply answering_unit.
Qed.
End Methods.

(** ** A batch whose second insert is refused *)

Definition memo (id : string) : TaskEnvelope :=
  mkTaskEnvelope id "mail" "send" [] "" ∅ None 0 "" None None None 0 "".

Definition flakyStore : Store (PW := plainWire) :=
  (NewWithPool (PW := plainWire) someServer) <| ps_faults := [Answered; Answered; Refused] |>.

(** The first insert of the batch took effect, the second met the fault, and the
    transaction leaves neither, although the run without faults stores both. *)
Lemma postgres_all_or_nothing_witness :
  let call := postgres (PW := plainWire) (MR := elements_range) (PD := microDriver) 1000%Z
                (REnqueueBatch [memo "a"; memo "b"]) in
  let '(s', rep) := call flakyStore in
  let '(c, _) := call (calm (PW := plainWire) flakyStore) in
  (ps_db s' = ps_db flakyStore ∨ ps_db s' = ps_db c) ∧
  rep = Failed (EDriver (Some (1%nat, "b")) "postgres: insert task")
  ∧ db_tasks (ps_db s') = ∅ ∧ size (db_tasks (ps_db c)) = 2%nat.
Proof.
  pose proof (postgres_all_or_nothing (PW := plainWire) (MR := elements_range) (PD := microDriver) 1000%Z
    (REnqueueBatch [memo "a"; memo "b"]) flakyStore eq_refl) as H.
  cbn zeta. revert H.
  set (faulty := postgres _ _ flakyStore). set (smooth := postgres _ _ (calm flakyStore)).
  assert (Hrep : faulty.2 = Failed (EDriver (Some (1%nat, "b")) "postgres: insert task")) by (vm_compute; reflexivity).
  assert (Hnone : db_tasks (ps_db faulty.1) = ∅) by (vm_compute; reflexivity).
  assert (Hboth : size (db_tasks (ps_db smooth.1)) = 2%nat) by (vm_compute; reflexivity).
  destruct faulty as [s' rep], smooth as [c rep']. intros [H _]. by split_and!.
Defined.
