(* ===== verification/PostgresFanIn.v ===== *)
(** * Concurrent fan-in on the PostgreSQL broker (internal/broker/postgres)

    Several dependencies of one blocked task finish at the same time, and each is
    resolved by a transaction of its own at READ COMMITTED: it drops its edge, locks
    the dependent's row ([lockBlockedDependentQuery]), promotes the dependent if no
    edge it can see remains ([promoteDependentQuery]), and commits. A statement sees
    the committed tables with its own transaction's writes, a row lock is held to
    the end of the transaction, and an aborted transaction leaves no trace. The
    transitions below interleave any number of resolvers, statement by statement,
    with each other and with transactions on other rows; [locking] false leaves out
    the row lock. *)

From S2P Require Import Prelude Proto BrokerApi Postgres PostgresBroker.

(** How far a resolver has come: its edge is dropped; it holds the dependent's row;
    it found edges left; it wrote the promoted row; it found the row not blocked. *)
Inductive phase {PW : ProtoWire} :=
  | Dropped | Locked | Passed | Promoting (row : taskRec) | Skipped | Committed | Aborted.

Section FanIn.
Context {PW : ProtoWire} {MR : MapRange} {PD : PgDriver}.

(** The blocked task, the dependency each resolver is about, and the clock. *)
Context (dependent : string) (dependencyOf : nat → string) (now : Time) (locking : bool).

(** The committed tables, who holds the dependent's row, and the resolvers. *)
Record join := mkJoin {
  jn_db : Db;
  jn_lock : option nat;
  jn_phase : gmap nat phase }.

#[global] Instance join_eta : Eta join := λ j, mkJoin (jn_db j) (jn_lock j) (jn_phase j).

(** What the statements of resolver [r] see after its edge delete. *)
Definition seenBy (r : nat) (db : Db) : Db :=
  match dropSatisfiedEdgesQuery (dependencyOf r) [dependent] db with
  | inr (db, _) => db
  | inl _ => db
  end.

#[local] Arguments seenBy : simpl never.

Definition inFlight (p : phase) : bool :=
  match p with Committed | Aborted => false | _ => true end.

(** The end of a transaction releases its lock. *)
Definition released (r : nat) (lock : option nat) : option nat :=
  if decide (lock = Some r) then None else lock.

Definition blockedIn (db : Db) : Prop :=
  ∃ row, db_tasks db !! dependent = Some row ∧ pt_state row = TASK_STATE_BLOCKED.

Inductive join_step : join → join → Prop :=
  | step_drop j r :
      jn_phase j !! r = None →
      (** the delete waits for another transaction on the same edge *)
      (∀ r' p, jn_phase j !! r' = Some p → dependencyOf r' = dependencyOf r → inFlight p = false) →
      join_step j (j <| jn_phase := <[r := Dropped]> (jn_phase j) |>)
  | step_lock j r :
      locking = true →
      jn_phase j !! r = Some Dropped → jn_lock j = None →
      lockBlockedDependentQuery dependent (seenBy r (jn_db j)) = inr (seenBy r (jn_db j), true) →
      join_step j (j <| jn_lock := Some r |> <| jn_phase := <[r := Locked]> (jn_phase j) |>)
  | step_no_lock j r :
      locking = false → jn_phase j !! r = Some Dropped →
      join_step j (j <| jn_phase := <[r := Locked]> (jn_phase j) |>)
  | step_skip j r :
      locking = true →
      jn_phase j !! r = Some Dropped →
      lockBlockedDependentQuery dependent (seenBy r (jn_db j)) = inr (seenBy r (jn_db j), false) →
      join_step j (j <| jn_phase := <[r := Skipped]> (jn_phase j) |>)
  | step_pass j r db :
      jn_phase j !! r = Some Locked →
      promoteDependentQuery dependent now (seenBy r (jn_db j)) = inr (db, []) →
      join_step j (j <| jn_phase := <[r := Passed]> (jn_phase j) |>)
  | step_promote j r db row rows :
      jn_phase j !! r = Some Locked → jn_lock j = None ∨ jn_lock j = Some r →
      promoteDependentQuery dependent now (seenBy r (jn_db j)) = inr (db, (dependent, row) :: rows) →
      join_step j (j <| jn_lock := Some r |> <| jn_phase := <[r := Promoting row]> (jn_phase j) |>)
  | step_commit j r p :
      jn_phase j !! r = Some p → p = Passed ∨ p = Skipped →
      join_step j (mkJoin (seenBy r (jn_db j)) (released r (jn_lock j)) (<[r := Committed]> (jn_phase j)))
  | step_commit_promoted j r row :
      jn_phase j !! r = Some (Promoting row) →
      join_step j (mkJoin ((seenBy r (jn_db j)) <| db_tasks := <[dependent := row]> (db_tasks (jn_db j)) |>)
                     (released r (jn_lock j)) (<[r := Committed]> (jn_phase j)))
  | step_abort j r p :
      jn_phase j !! r = Some p → inFlight p = true →
      join_step j (mkJoin (jn_db j) (released r (jn_lock j)) (<[r := Aborted]> (jn_phase j)))
  | step_elsewhere j db :
      (** a transaction that does not touch the dependent *)
      db_tasks db !! dependent = db_tasks (jn_db j) !! dependent →
      (∀ dependency, db_deps db !! (dependent, dependency) = db_deps (jn_db j) !! (dependent, dependency)) →
      join_step j (j <| jn_db := db |>)
  | step_leave j db :
      (** a cancel, an archive or a delete of the dependent *)
      jn_lock j = None → ¬ blockedIn db →
      (∀ dependency, is_Some (db_deps db !! (dependent, dependency)) →
         is_Some (db_deps (jn_db j) !! (dependent, dependency))) →
      join_step j (j <| jn_db := db |>).

(** A blocked task with an edge, before any resolver began. *)
Definition waiting (j : join) : Prop :=
  blockedIn (jn_db j) ∧ (∃ dependency, is_Some (db_deps (jn_db j) !! (dependent, dependency))) ∧
  jn_lock j = None ∧ jn_phase j = ∅.

(** ** What the statements see *)

Lemma seenBy_tasks r db : db_tasks (seenBy r db) = db_tasks db.
Proof. done. Qed.

Lemma seenBy_deps r db x y :
  db_deps (seenBy r db) !! (x, y) =
    if decide (x = dependent ∧ y = dependencyOf r) then None else db_deps db !! (x, y).
Proof.
  unfold seenBy, dropSatisfiedEdgesQuery, deleteEdges. cbn [db_deps set].
  destruct (db_deps db !! (x, y)) as [p|] eqn:Hl.
  - case_decide as Hd.
    + apply map_lookup_filter_None. right. intros p' Hp'. cbn. destruct Hd as [-> ->].
      rewrite (bool_decide_true (dependencyOf r = _)), (bool_decide_true (dependent ∈ _)); [done| |done].
      apply list_elem_of_singleton. done.
    + apply map_lookup_filter_Some. split; [done|]. cbn.
      destruct (decide (y = dependencyOf r)) as [->|Hne]; [|by rewrite (bool_decide_false _ Hne)].
      rewrite (bool_decide_true (dependencyOf r = _)) by done. cbn. apply bool_decide_false.
      rewrite list_elem_of_singleton. intros ->. by apply Hd.
  - case_decide; apply map_lookup_filter_None; by left.
Qed.

Lemma waitsOn_true id db :
  waitsOn id db = true ↔ ∃ dependency, is_Some (db_deps db !! (id, dependency)).
Proof.
  unfold waitsOn. rewrite existsb_exists. split.
  - intros ([[x y] p] & Hin%list_elem_of_In & Hx%bool_decide_eq_true). cbn in Hx. subst x.
    apply elem_of_range_map in Hin. eauto.
  - intros (y & p & Hp). exists ((id, y), p). split; [|by apply bool_decide_eq_true].
    apply list_elem_of_In. by apply elem_of_range_map.
Qed.

Lemma range_keys_singleton (id : string) : range_keys (list_to_set [id] : gset string) = [id].
Proof.
  apply Permutation_singleton_r. rewrite range_keys_perm. cbn.
  by rewrite union_empty_r_L, elements_singleton.
Qed.

Lemma blockedIn_whereId db (cond : taskRec → bool) :
  whereId dependent (λ row, inState [TASK_STATE_BLOCKED] row && cond row) db ≠ [] → blockedIn db.
Proof.
  unfold whereId. destruct (db_tasks db !! dependent) as [row|] eqn:Hl; [|done].
  destruct (inState [TASK_STATE_BLOCKED] row) eqn:Hs; [|done]. intros _. exists row. split; [done|].
  apply bool_decide_eq_true in Hs. set_solver.
Qed.

(** The promotion saw the row blocked and no edge, and writes a row that is not. *)
Lemma promote_spec r db db' rows :
  promoteDependentQuery dependent now (seenBy r db) = inr (db', rows) →
  match rows with
  | [] => blockedIn db → ∃ dependency, dependency ≠ dependencyOf r ∧ is_Some (db_deps db !! (dependent, dependency))
  | (_, row) :: _ =>
      pt_state row ≠ TASK_STATE_BLOCKED ∧ blockedIn db ∧
      ∀ dependency, is_Some (db_deps db !! (dependent, dependency)) → dependency = dependencyOf r
  end.
Proof.
  unfold promoteDependentQuery, updateTasks.
  destruct (whereId _ _ _) as [|id ids] eqn:Hw; cbn [foldr].
  - change (list_to_set [] : gset string) with (∅ : gset string).
    assert (Hnil : range_keys (∅ : gset string) = []).
    { apply Permutation_nil_r. by rewrite range_keys_perm. }
    rewrite Hnil. cbn. destruct (negb (uniqueIdxHolds _)); intros [= <- <-].
    intros (row & Hl & Hs). revert Hw. unfold whereId. rewrite seenBy_tasks, Hl.
    unfold inState. rewrite (bool_decide_true (pt_state row ∈ _)) by (rewrite Hs; set_solver). cbn.
    destruct (waitsOn dependent (seenBy r db)) eqn:Hwait; [|done]. intros _.
    apply waitsOn_true in Hwait as (y & Hy). rewrite seenBy_deps in Hy.
    case_decide as Hd; [by apply is_Some_None in Hy|]. exists y. split; [|done].
    intros ->. by apply Hd.
  - assert (Hb : blockedIn db).
    { apply (blockedIn_whereId (seenBy r db) (λ _, negb (waitsOn dependent (seenBy r db)))). by rewrite Hw. }
    revert Hw. unfold whereId. rewrite seenBy_tasks. destruct Hb as (row & Hl & Hs). rewrite Hl.
    destruct (inState [TASK_STATE_BLOCKED] row && negb (waitsOn dependent (seenBy r db))) eqn:Hc; [|done].
    intros [= <- <-]. rewrite range_keys_singleton. cbn. rewrite lookup_alter_eq, Hl. cbn.
    destruct (negb (_ && _)); [done|]. destruct (negb (uniqueIdxHolds _)); [done|]. intros [= <- <-].
    split; [unfold unblockRec; cbn; by repeat case_match|]. split; [by exists row|].
    intros y Hy. apply andb_true_iff in Hc as [_ Hwait]. apply negb_true_iff in Hwait.
    destruct (decide (y = dependencyOf r)); [done|]. exfalso.
    apply not_true_iff_false in Hwait. apply Hwait, waitsOn_true. exists y. rewrite seenBy_deps.
    rewrite decide_False by naive_solver. done.
Qed.

(** ** The invariant *)

(** The phases in which a resolver holds the dependent's row. *)
Definition holding (p : phase) : bool :=
  match p with Locked | Passed | Promoting _ => true | _ => false end.

Abbreviation edge db y := (is_Some (db_deps db !! (dependent, y))).

Lemma seenBy_edge r db y : edge (seenBy r db) y ↔ edge db y ∧ y ≠ dependencyOf r.
Proof.
  rewrite seenBy_deps. case_decide as Hd.
  - split; [by intros ?%is_Some_None|]. naive_solver.
  - naive_solver.
Qed.

Lemma seenBy_blocked r db : blockedIn (seenBy r db) ↔ blockedIn db.
Proof. unfold blockedIn. by rewrite seenBy_tasks. Qed.

Lemma lock_spec r db found :
  lockBlockedDependentQuery dependent (seenBy r db) = inr (seenBy r db, found) →
  if found then blockedIn db else ¬ blockedIn db.
Proof.
  pose proof (seenBy_tasks r db) as Ht. generalize dependent (seenBy r db). intros v Ht.
  unfold lockBlockedDependentQuery, reads, whereId, blockedIn. rewrite Ht. intros [= Hf]. revert Hf. destruct (db_tasks db !! dependent) as [row|].
  - destruct (inState [TASK_STATE_BLOCKED] row) eqn:Hs; cbn; intros <-;
      unfold inState in Hs; [apply bool_decide_eq_true in Hs|apply bool_decide_eq_false in Hs].
    + exists row. split; [done|]. set_solver.
    + intros (row' & [= <-] & E). apply Hs. rewrite E. set_solver.
  - cbn. intros <-. naive_solver.
Qed.

Lemma released_other r r' lock : lock = Some r' → r' ≠ r → released r lock = Some r'.
Proof. unfold released. intros -> Hne. by rewrite decide_False by congruence. Qed.

(** What holds of one resolver in its phase. *)
Definition phase_ok (j : join) (r : nat) (p : phase) : Prop :=
  (holding p = true → jn_lock j = Some r ∧ blockedIn (jn_db j)) ∧
  match p with
  | Passed => ∃ y, y ≠ dependencyOf r ∧ edge (jn_db j) y
  | Promoting row => pt_state row ≠ TASK_STATE_BLOCKED ∧ ∀ y, edge (jn_db j) y → y = dependencyOf r
  | Skipped => ¬ blockedIn (jn_db j)
  | Committed => ¬ edge (jn_db j) (dependencyOf r)
  | _ => True
  end.

(** The committed row is blocked only with an edge left; [j0] is where the
    resolvers started. *)
Definition join_inv (j0 j : join) : Prop :=
  (blockedIn (jn_db j) → ∃ y, edge (jn_db j) y) ∧ (∀ y, edge (jn_db j) y → edge (jn_db j0) y) ∧
  ∀ r p, jn_phase j !! r = Some p → phase_ok j r p.

(** A resolver moves on; the tables stay, and so does what others hold. *)
Lemma inv_advance j0 j r p lock :
  join_inv j0 j →
  (∀ r', r' ≠ r → jn_lock j = Some r' → lock = Some r') →
  phase_ok (mkJoin (jn_db j) lock (jn_phase j)) r p →
  join_inv j0 (mkJoin (jn_db j) lock (<[r := p]> (jn_phase j))).
Proof.
  intros (He & Hsh & Hp) Hlock Hr. split_and!; [done..|].
  intros r' p'. cbn [jn_phase]. intros [[<- <-]|[Hne Hp']]%lookup_insert_Some; [done|].
  destruct (Hp r' p' Hp') as [Hh Hm]. split; [|done].
  intros Hhold. destruct (Hh Hhold) as [Hl Hb]. split; [|done]. by apply Hlock.
Qed.

(** A commit of [r] that no other resolver can be holding the row for. *)
Lemma inv_commit j0 j r db :
  join_inv j0 j →
  (∀ r' p, r' ≠ r → jn_phase j !! r' = Some p → holding p = false) →
  (∀ y, edge db y ↔ edge (jn_db j) y ∧ y ≠ dependencyOf r) →
  (blockedIn db → blockedIn (jn_db j) ∧ ∃ y, edge db y) →
  join_inv j0 (mkJoin db (released r (jn_lock j)) (<[r := Committed]> (jn_phase j))).
Proof.
  intros (He & Hsh & Hp) Hother Hedge Hblocked. cbn [jn_db].
  split_and!; [naive_solver|intros y Hy; apply Hsh; by apply Hedge|].
  intros r' p'. cbn [jn_phase]. intros [[<- <-]|[Hne Hp']]%lookup_insert_Some; (split; [try done|]); cbn [jn_db].
  - intros [_ Hy]%Hedge. done.
  - intros Hh. rewrite (Hother r' p') in Hh; done.
  - specialize (Hother r' p' (not_eq_sym Hne) Hp'). destruct (Hp r' p' Hp') as [_ Hm].
    destruct p'; try done.
    + intros Hb. apply Hm. by apply Hblocked.
    + intros [Hy _]%Hedge. done.
Qed.

(** The tables change under resolvers none of which the change concerns. *)
Lemma inv_tables j0 j db :
  join_inv j0 j →
  (blockedIn db → blockedIn (jn_db j)) →
  (∀ y, edge db y → edge (jn_db j) y) →
  (jn_lock j ≠ None ∨ blockedIn db → blockedIn (jn_db j) → blockedIn db ∧ ∀ y, edge (jn_db j) y → edge db y) →
  join_inv j0 (j <| jn_db := db |>).
Proof.
  intros (He & Hsh & Hp) Hb Hy Hback. cbn.
  split_and!; [intros Hbl; destruct (He (Hb Hbl)) as [y ?]; exists y; eapply Hback; eauto|eauto|].
  intros r p Hrp. destruct (Hp r p Hrp) as [Hh Hm]. split; cbn.
  - intros Hhold. destruct (Hh Hhold) as [Hl Hbl]. split; [done|]. apply Hback; [|done]. left. by rewrite Hl.
  - destruct p; try done; cbn in Hm.
    + destruct (Hh eq_refl) as [Hl Hbl]. destruct Hm as (y & Hne & Hey). exists y. split; [done|].
      apply Hback; [|done..]. left. by rewrite Hl.
    + destruct Hm as [? Hm]. split; [done|]. eauto.
    + naive_solver.
    + naive_solver.
Qed.

Lemma join_step_inv j0 j j' :
  locking = true → join_inv j0 j → join_step j j' → join_inv j0 j'.
Proof.
  intros Hlk Hi Hstep. destruct (Hi) as (He & Hsh & Hp).
  destruct Hstep as [j r Hn _|j r _ Hph Hl Hq|j r Hnl _|j r _ Hph Hq|j r db Hph Hq|j r db row rows Hph Hl Hq
                    |j r p Hph Hc|j r row Hph|j r p Hph Hf|j db Ht Hd|j db Hl Hnb Hd].
  - apply (inv_advance j0 j r Dropped (jn_lock j)); [done..|]. by split.
  - apply (inv_advance j0 j r Locked (Some r)); [done|congruence|]. apply lock_spec in Hq. by split.
  - congruence.
  - apply (inv_advance j0 j r Skipped (jn_lock j)); [done..|]. apply lock_spec in Hq. by split.
  - apply (inv_advance j0 j r Passed (jn_lock j)); [done..|]. destruct (Hp r _ Hph) as [Hh _].
    destruct (Hh eq_refl) as [Hl Hb]. split; [done|]. by apply (promote_spec r _ _ _ Hq).
  - destruct (Hp r _ Hph) as [Hh _]. destruct (Hh eq_refl) as [Hl' Hb].
    apply (inv_advance j0 j r (Promoting row) (Some r)); [done|congruence|].
    apply promote_spec in Hq as (Hs & _ & Hy). by split.
  - apply inv_commit; [done| |intros y; apply seenBy_edge|].
    + intros r' p' Hne Hp'. destruct (holding p') eqn:Hh; [|done]. exfalso.
      destruct (Hp r _ Hph) as [Hhr Hm]. destruct (Hp r' _ Hp') as [Hhr' _]. destruct (Hhr' Hh) as [Hl Hb].
      destruct Hc as [-> | ->]; [|done]. destruct (Hhr eq_refl). congruence.
    + rewrite seenBy_blocked. intros Hb. split; [done|]. destruct (Hp r _ Hph) as [_ Hm].
      destruct Hc as [-> | ->]; [|done]. destruct Hm as (y & Hne & Hy). exists y. by apply seenBy_edge.
  - destruct (Hp r _ Hph) as [Hh (Hs & Hy)]. destruct (Hh eq_refl) as [Hl Hb].
    apply inv_commit; [done| |intros y; apply (seenBy_edge r (jn_db j) y)|].
    + intros r' p' Hne Hp'. destruct (holding p') eqn:Hh'; [|done].
      destruct (Hp r' _ Hp') as [Hhr' _]. destruct (Hhr' Hh'). congruence.
    + intros (row' & Hrow & Hst). cbn in Hrow. rewrite lookup_insert_eq in Hrow. congruence.
  - apply inv_advance; [done| |by split].
    intros r' Hne Hl. by apply released_other.
  - apply inv_tables; [done|unfold blockedIn; by rewrite Ht|intros y; by rewrite Hd|].
    unfold blockedIn. rewrite Ht. intros _ Hb. split; [done|]. intros y. by rewrite Hd.
  - apply inv_tables; [done|done|done|]. rewrite Hl. naive_solver.
Qed.
End FanIn.

(** C10: a fan-in join on the PostgreSQL broker never strands its task. In every
    interleaving of any number of resolvers of its dependencies, statement by
    statement, with aborts and with other transactions, the committed dependent is
    blocked only while a committed edge of it is left; once every dependency it
    waited on has a committed resolver it is not blocked; and a resolver promotes it
    only when no other resolver's edge is left. *)
Theorem fan_in_never_strands {PW : ProtoWire} {MR : MapRange} {PD : PgDriver}
    (dependent : string) (dependencyOf : nat → string) (now : Time) (j0 j : join) :
  waiting dependent j0 → rtc (join_step dependent dependencyOf now true) j0 j →
  (blockedIn dependent (jn_db j) → ∃ y, is_Some (db_deps (jn_db j) !! (dependent, y))) ∧
  ((∀ y, is_Some (db_deps (jn_db j0) !! (dependent, y)) →
      ∃ r, dependencyOf r = y ∧ jn_phase j !! r = Some Committed) →
   ¬ blockedIn dependent (jn_db j)) ∧
  (∀ r row y, jn_phase j !! r = Some (Promoting row) →
     is_Some (db_deps (jn_db j) !! (dependent, y)) → y = dependencyOf r).
Proof.
  intros (Hb & Hy & Hl & Hph) Hsteps.
  assert (Hi : join_inv dependent dependencyOf j0 j).
  { apply (rtc_ind_r (R := join_step dependent dependencyOf now true) (join_inv dependent dependencyOf j0) j0);
      [| |exact Hsteps].
    - split_and!; [done..|]. rewrite Hph. intros r p. by rewrite lookup_empty.
    - intros a b _ Hab Ha. by apply (join_step_inv _ _ now true j0 a b eq_refl). }
  destruct Hi as (He & Hsh & Hp). split_and!; [done| |].
  - intros Hall Hblocked. destruct (He Hblocked) as [y Hey]. destruct (Hall y (Hsh y Hey)) as (r & <- & Hr).
    by apply (Hp r Committed Hr).
  - intros r row y Hr Hey. apply (Hp r (Promoting row) Hr). done.
Qed.

(** ** A join of two *)

Definition joinTask : TaskEnvelope :=
  mkTaskEnvelope "c" "default" "sum" [] "" ∅
    (Some (emptyTaskOptions <| opt_DependsOn :=
       [mkTaskDependency "a" DEPENDENCY_FAILURE_POLICY_UNSPECIFIED;
        mkTaskDependency "b" DEPENDENCY_FAILURE_POLICY_UNSPECIFIED] |>)) 0 "" None None None 0 "".

Definition joinDependency (r : nat) : string := match r with 0 => "a" | _ => "b" end.

#[local] Existing Instances plainWire microDriver elements_range.

(** The tables after the join task was enqueued. *)
Definition joinTables : Db := ps_db (Enqueue joinTask 0%Z (NewWithPool someServer)).1.
Definition joinStart : join := mkJoin joinTables None ∅.

Lemma joinStart_waiting : waiting "c" joinStart.
Proof.
  split; [eexists; split; [vm_compute; reflexivity|reflexivity]|]. split; [|done].
  exists "a". eexists. vm_compute. reflexivity.
Qed.

(** The other resolvers so far are about another dependency. *)
Ltac no_clash :=
  let r := fresh in let p := fresh in let H := fresh in
  intros r p H; cbn in H; rewrite ?lookup_insert_Some, lookup_empty in H; naive_solver.

(** Without the row lock the comment on lockBlockedDependentQuery comes true: both
    resolvers see the other's edge, none promotes, and the task stays blocked with
    no edge left. *)
Lemma unlocked_join_lost :
  ∃ j, rtc (join_step "c" joinDependency 0%Z false) joinStart j ∧
    blockedIn "c" (jn_db j) ∧ ∀ y, ¬ is_Some (db_deps (jn_db j) !! ("c", y)).
Proof.
  eexists. split.
  { eapply rtc_l; [apply (step_drop _ _ _ _ _ 0); [done|no_clash]|].
    eapply rtc_l; [apply (step_drop _ _ _ _ _ 1); [done|no_clash]|].
    eapply rtc_l; [apply (step_no_lock _ _ _ _ _ 0); done|].
    eapply rtc_l; [apply (step_no_lock _ _ _ _ _ 1); done|].
    eapply rtc_l; [eapply (step_pass _ _ _ _ _ 0); [done|vm_compute; reflexivity]|].
    eapply rtc_l; [eapply (step_pass _ _ _ _ _ 1); [done|vm_compute; reflexivity]|].
    eapply rtc_l; [eapply (step_commit _ _ _ _ _ 0); [done|by left]|].
    eapply rtc_l; [eapply (step_commit _ _ _ _ _ 1); [done|by left]|].
    apply rtc_refl. }
  split; [eexists; split; [vm_compute; reflexivity|reflexivity]|].
  match goal with |- ∀ y, ¬ is_Some (?deps !! _) => assert (deps = ∅) as -> by (vm_compute; reflexivity) end.
  intros y. rewrite lookup_empty. by intros ?%is_Some_None.
Qed.

(** With it the second resolver promotes. *)
Lemma fan_in_never_strands_witness :
  ∃ j, rtc (join_step "c" joinDependency 0%Z true) joinStart j ∧ ¬ blockedIn "c" (jn_db j).
Proof.
  assert (Hrun : ∃ j, rtc (join_step "c" joinDependency 0%Z true) joinStart j ∧
    jn_phase j = {[1 := Committed; 0 := Committed]}).
  { eexists. split.
    - eapply rtc_l; [apply (step_drop _ _ _ _ _ 0); [done|no_clash]|].
      eapply rtc_l; [apply (step_drop _ _ _ _ _ 1); [done|no_clash]|].
      eapply rtc_l; [eapply (step_lock _ _ _ _ _ 0); [done..|vm_compute; reflexivity]|].
      eapply rtc_l; [eapply (step_pass _ _ _ _ _ 0); [done|vm_compute; reflexivity]|].
      eapply rtc_l; [eapply (step_commit _ _ _ _ _ 0); [done|by left]|].
      eapply rtc_l; [eapply (step_lock _ _ _ _ _ 1); [done..|vm_compute; reflexivity]|].
      eapply rtc_l; [eapply (step_promote _ _ _ _ _ 1); [done|by right|vm_compute; reflexivity]|].
      eapply rtc_l; [eapply (step_commit_promoted _ _ _ _ _ 1); done|].
      apply rtc_refl.
    - reflexivity. }
  destruct Hrun as (j & Hrun & Hph). exists j. split; [done|].
  apply (fan_in_never_strands "c" joinDependency 0%Z joinStart j joinStart_waiting Hrun).
  intros y Hy. rewrite Hph. destruct (decide (y = "a")) as [->|Ha]; [by exists 0|].
  destruct (decide (y = "b")) as [->|Hb]; [by exists 1|]. exfalso.
  assert (Hd : dom (db_deps joinTables) = {[("c", "a"); ("c", "b")]}) by (vm_compute; reflexivity).
  apply elem_of_dom in Hy. cbn [jn_db joinStart] in Hy. rewrite Hd in Hy. set_solver.
Defined.
