(* ===== verification/PostgresSim.v ===== *)
(** * The PostgreSQL broker against the in-memory broker

    On the requests of a task's life, from its lease to its settlement, with the
    administrative moves and the reads, the two brokers simulate each other: from
    stores with the same tasks they answer alike, leave stores with the same tasks
    and emit the same events. *)

From S2P Require Import Prelude Proto Events BrokerApi Memory MemoryFacts MemoryInv MemoryLease Encryption BrokerCalls Postgres PostgresBroker PostgresAtomic PostgresFanIn.
From Stdlib Require Import Strings.Byte.

#[local] Open Scope Z_scope.

(** ** Updates and the unique index *)

Section Updates.
Context {PW : ProtoWire} {MR : MapRange} {PD : PgDriver}.

Lemma uniqueIdxHolds_spec (tasks : gmap string taskRec) :
  uniqueIdxHolds tasks = true ↔
  ∀ i j p q k, tasks !! i = Some p → tasks !! j = Some q →
    uniqueIdxKey p = Some k → uniqueIdxKey q = Some k → i = j.
Proof.
  unfold uniqueIdxHolds. rewrite bool_decide_eq_true.
  assert (Hgen : ∀ l : list (string * taskRec), NoDup l.*1 →
    NoDup (omap (λ p, uniqueIdxKey p.2) l) ↔
    ∀ i j p q k, (i, p) ∈ l → (j, q) ∈ l → uniqueIdxKey p = Some k → uniqueIdxKey q = Some k → i = j).
  { induction l as [|[i p] l IH]; [split; [|constructor]; intros; set_solver|].
    cbn. intros [Hi Hnd]%NoDup_cons. specialize (IH Hnd). split.
    - intros Hn i1 j1 p1 q1 k. rewrite !elem_of_cons.
      assert (Hl : NoDup (omap (λ p, uniqueIdxKey p.2) l) ∧
        ∀ k j q, uniqueIdxKey p = Some k → (j, q) ∈ l → uniqueIdxKey q = Some k → False).
      { destruct (uniqueIdxKey p) as [kp|]; [apply NoDup_cons in Hn as [Hk Hn]|]; (split; [done|]); [|done].
        intros k' j q [= <-] Hin Hq. apply Hk, list_elem_of_omap. by exists (j, q). }
      destruct Hl as [Hl Hclash].
      intros [[= -> ->]|Hin1] [[= -> ->]|Hin2] H1 H2; [done| | |].
      + exfalso. by apply (Hclash k j1 q1).
      + exfalso. by apply (Hclash k i1 p1).
      + by apply (proj1 IH Hl i1 j1 p1 q1 k).
    - intros H. assert (Hl : NoDup (omap (λ p, uniqueIdxKey p.2) l)).
      { apply IH. intros i1 j1 p1 q1 k1 Hin1 Hin2. apply H; by apply elem_of_cons; right. }
      destruct (uniqueIdxKey p) as [k|] eqn:Hk; [|done]. constructor; [|done].
      intros ([j q] & Hin & Hq)%list_elem_of_omap. apply Hi.
      assert (i = j) as ->.
      { apply (H i j p q k); [apply elem_of_cons; by left|apply elem_of_cons; by right|done..]. }
      by apply (list_elem_of_fmap_2 fst) in Hin. }
  rewrite Hgen by apply NoDup_fst_map_to_list.
  setoid_rewrite elem_of_map_to_list. done.
Qed.

(** No row gained a key: the index still holds. *)
Lemma uniqueIdxHolds_mono (tasks tasks' : gmap string taskRec) :
  uniqueIdxHolds tasks = true →
  (∀ id p' k, tasks' !! id = Some p' → uniqueIdxKey p' = Some k →
     ∃ p, tasks !! id = Some p ∧ uniqueIdxKey p = Some k) →
  uniqueIdxHolds tasks' = true.
Proof.
  rewrite !uniqueIdxHolds_spec. intros H Hk i j p q k Hi Hj Hp Hq.
  destruct (Hk i p k Hi Hp) as (p0 & ? & ?). destruct (Hk j q k Hj Hq) as (q0 & ? & ?). eauto.
Qed.

Lemma foldr_alter_lookup (f : taskRec → taskRec) ids (tasks : gmap string taskRec) id :
  NoDup ids →
  foldr (λ id tasks, alter f id tasks) tasks ids !! id =
    if decide (id ∈ ids) then f <$> tasks !! id else tasks !! id.
Proof.
  induction 1 as [|x ids Hx Hnd IH]; cbn; [done|].
  destruct (decide (id = x)) as [->|Hne].
  - rewrite lookup_alter_eq, IH, decide_False, decide_True by (done || set_solver). done.
  - rewrite lookup_alter_ne, IH by done. destruct (decide (id ∈ ids)).
    + by rewrite decide_True by set_solver.
    + by rewrite decide_False by set_solver.
Qed.

(** An UPDATE whose rows fit and gain no key succeeds and returns the new rows. *)
Lemma updateTasks_ok (ids : list string) (f : taskRec → taskRec) (db : Db) :
  NoDup ids → uniqueIdxHolds (db_tasks db) = true →
  (∀ id p, id ∈ ids → db_tasks db !! id = Some p →
     rowFits (f p) = true ∧ (uniqueIdxKey (f p) = None ∨ uniqueIdxKey (f p) = uniqueIdxKey p)) →
  ∃ tasks rows,
    updateTasks ids f db = inr (db <| db_tasks := tasks |>, rows) ∧
    uniqueIdxHolds tasks = true ∧
    (∀ id, tasks !! id = if decide (id ∈ ids) then f <$> db_tasks db !! id else db_tasks db !! id) ∧
    rows ≡ₚ omap (λ id, pair id <$> tasks !! id) ids.
Proof.
  intros Hnd Hu Hf. pose proof (foldr_alter_lookup f ids (db_tasks db)) as Hl.
  set (tasks := foldr (λ id tasks, alter f id tasks) (db_tasks db) ids) in *.
  assert (Hlook : ∀ id, tasks !! id = if decide (id ∈ ids) then f <$> db_tasks db !! id else db_tasks db !! id)
    by (intros id; by apply Hl).
  assert (Hperm : range_keys (list_to_set ids : gset string) ≡ₚ ids).
  { rewrite range_keys_perm. by apply elements_list_to_set. }
  exists tasks, (omap (λ id, pair id <$> tasks !! id) (range_keys (list_to_set ids : gset string))).
  assert (Hidx : uniqueIdxHolds tasks = true).
  { apply (uniqueIdxHolds_mono (db_tasks db)); [done|]. intros id p' k Hp' Hk. rewrite Hlook in Hp'.
    case_decide as Hin; [|eauto]. apply fmap_Some in Hp' as (p & Hp & ->).
    destruct (Hf id p Hin Hp) as [_ [E|E]]; [congruence|]. exists p. split; [done|congruence]. }
  split_and!; [|done|done|by rewrite Hperm].
  unfold updateTasks. fold tasks. rewrite Hidx.
  assert (Hfits : forallb (λ p, rowFits p.2)
    (omap (λ id, pair id <$> tasks !! id) (range_keys (list_to_set ids : gset string))) = true).
  { apply forallb_forall. intros [id p] Hin%list_elem_of_In. rewrite Hperm in Hin.
    apply list_elem_of_omap in Hin as (id' & Hin' & E). rewrite Hlook, decide_True in E by done.
    destruct (db_tasks db !! id') as [p'|] eqn:Hp'; [|done]. cbn in E. injection E as <- <-.
    by apply (Hf id' p'). }
  rewrite Hfits. done.
Qed.

(** One row, by its id. *)
Lemma updateTasks_one id cond f db p :
  db_tasks db !! id = Some p → cond p = true → uniqueIdxHolds (db_tasks db) = true →
  rowFits (f p) = true → uniqueIdxKey (f p) = None ∨ uniqueIdxKey (f p) = uniqueIdxKey p →
  ∃ tasks,
    updateTasks (whereId id cond db) f db = inr (db <| db_tasks := tasks |>, [(id, f p)]) ∧
    uniqueIdxHolds tasks = true ∧ tasks = <[id := f p]> (db_tasks db).
Proof.
  intros Hp Hc Hu Hfit Hk. unfold whereId. rewrite Hp, Hc.
  destruct (updateTasks_ok [id] f db) as (tasks & rows & -> & Hu' & Hl & Hrows).
  - apply NoDup_singleton.
  - done.
  - intros id' p' ->%list_elem_of_singleton Hp'. simplify_eq. done.
  - assert (Ht : tasks = <[id := f p]> (db_tasks db)).
    { apply map_eq. intros id'. rewrite Hl. destruct (decide (id' = id)) as [->|Hne].
      - rewrite lookup_insert_eq, decide_True, Hp by set_solver. done.
      - rewrite lookup_insert_ne, decide_False by set_solver. done. }
    exists tasks. split_and!; [|done|done]. f_equal. f_equal. subst tasks. cbn in Hrows.
    rewrite lookup_insert_eq in Hrows. cbn in Hrows. by apply Permutation_singleton_r in Hrows.
Qed.

Lemma updateTasks_none id cond f db :
  (∀ p, db_tasks db !! id = Some p → cond p = false) → uniqueIdxHolds (db_tasks db) = true →
  updateTasks (whereId id cond db) f db = inr (db, []).
Proof.
  intros Hc Hu.
  assert (Hw : whereId id cond db = []).
  { unfold whereId. destruct (db_tasks db !! id) as [p|]; [|done]. by rewrite (Hc p eq_refl). }
  rewrite Hw. destruct (updateTasks_ok [] f db) as (tasks & rows & -> & _ & Hl & Hrows);
    [constructor|done|intros ??; set_solver|].
  apply Permutation_nil_r in Hrows. subst rows. f_equal. f_equal.
  assert (tasks = db_tasks db) as ->; [|by destruct db]. apply map_eq. intros i. by rewrite Hl.
Qed.
End Updates.

(** ** Stores with the same tasks *)

(** A nullable column against a Go time whose zero value means unset. *)
Definition nullable (t : Time) : option Time := if IsZero t then None else Some t.

(** An instant or a duration of whole microseconds, which the tables keep. *)
Definition whole (t : Z) : Prop := (1000 | t).

Section Simulation.
Context {PW : ProtoWire} {MR : MapRange} {PD : PgDriver}.

(** The row of the in-memory broker and the row of the table for one task. The
    in-memory broker keeps the lease of a settled task, which nothing reads. The
    tasks are outside uniqueness and dependencies. *)
Record sameRow (id : string) (m : taskRow) (p : taskRec) : Prop := {
  sr_payload : unmarshalTask (pt_payload p) = Some (row_envelope m);
  sr_id : env_Id (row_envelope m) = id;
  sr_queue : pt_queue p = env_Queue (row_envelope m);
  sr_type : pt_type p = env_Type (row_envelope m);
  sr_state : pt_state p = row_state m;
  sr_priority : pt_priority p = row_priority m;
  sr_process : pt_process_at p = row_processAt m;
  sr_expires : pt_expires_at p = nullable (row_expiresAt m);
  sr_retried : pt_retried p = row_retried m;
  sr_error : pt_last_error p = row_lastError m;
  sr_lease : row_state m = TASK_STATE_ACTIVE →
    pt_lease_id p = Some (row_leaseID m) ∧ pt_lease_expires_at p = Some (row_leaseExpiresAt m);
  sr_started : pt_started_at p = nullable (row_startedAt m);
  sr_completed : pt_completed_at p = nullable (row_completedAt m);
  sr_progress : pt_progress p = row_progress m;
  sr_message : pt_progress_message p = row_progressMessage m;
  sr_maxRetry : pt_max_retry p = row_maxRetry m;
  sr_group : pt_group_key p = row_group m;
  sr_enqueued : pt_enqueued_at p = row_enqueuedAt m;
  sr_key : pt_unique_key p = None;
  sr_deps : row_deps m = ∅;
  sr_fits : rowFits p = true }.

(** [k] is how many more failures the retry counters have room for. *)
Record sameStore (k : Z) (b : Broker) (s : Store) : Prop := {
  ss_none : ∀ id, br_tasks b !! id = None ↔ db_tasks (ps_db s) !! id = None;
  ss_rows : ∀ id m p, br_tasks b !! id = Some m → db_tasks (ps_db s) !! id = Some p → sameRow id m p;
  ss_unique : uniqueIdxHolds (db_tasks (ps_db s)) = true;
  ss_sink : ps_sink s = br_sink b;
  ss_emitted : ps_emitted s = br_emitted b;
  ss_faults : ps_faults s = [];
  ss_locked : ps_locked s = ∅;
  ss_waiters : br_dependents b = ∅;
  ss_edges : db_deps (ps_db s) = ∅;
  ss_room : ∀ id m, br_tasks b !! id = Some m → row_retried m + k < 2 ^ 31 }.

Lemma sameStore_lookup k b s id m :
  sameStore k b s → br_tasks b !! id = Some m →
  ∃ p, db_tasks (ps_db s) !! id = Some p ∧ sameRow id m p.
Proof.
  intros Hs Hm. destruct (db_tasks (ps_db s) !! id) as [p|] eqn:Hp.
  - exists p. split; [done|]. by apply (ss_rows _ _ _ Hs).
  - apply (ss_none _ _ _ Hs) in Hp. congruence.
Qed.

Lemma sameStore_absent k b s id :
  sameStore k b s → br_tasks b !! id = None → db_tasks (ps_db s) !! id = None.
Proof. intros Hs. apply (ss_none _ _ _ Hs). Qed.

Lemma sameStore_room k k' b s : k' <= k → sameStore k b s → sameStore k' b s.
Proof. intros Hk []. split; try done. intros id m Hm. specialize (ss_room0 id m Hm). lia. Qed.

(** One row replaced on both sides. *)
Lemma sameStore_put k b s id m p :
  sameStore k b s → sameRow id m p → row_retried m + k < 2 ^ 31 →
  uniqueIdxHolds (<[id := p]> (db_tasks (ps_db s))) = true →
  sameStore k (put_row id m b)
    (s <| ps_db := (ps_db s) <| db_tasks := <[id := p]> (db_tasks (ps_db s)) |> |>).
Proof.
  intros [Hn Hr Hu Hsk He Hf Hl Hw Hed Hroom] Hrow Hk Hu'. split; cbn; try done.
  - intros id'. destruct (decide (id' = id)) as [->|Hne]; [by rewrite !lookup_insert_eq|].
    by rewrite !lookup_insert_ne.
  - intros id' m' p'. destruct (decide (id' = id)) as [->|Hne].
    + rewrite !lookup_insert_eq. naive_solver.
    + rewrite !lookup_insert_ne by done. apply Hr.
  - intros id' m'. destruct (decide (id' = id)) as [->|Hne].
    + rewrite lookup_insert_eq. naive_solver.
    + rewrite lookup_insert_ne by done. apply Hroom.
Qed.

(** The same event on both sides. *)
Lemma sameStore_emit k b s o o' n id q t le a w :
  sameStore k b s → Derive o n id q t le a w = Derive o' n id q t le a w →
  ∃ s', PostgresBroker.emit (E := callError) o' n id q t le a w s = (s', inr ()) ∧
    sameStore k (Memory.emit o n id q t le a w b) s'.
Proof.
  intros Hs Hd. pose proof (ss_sink _ _ _ Hs) as Hsk. unfold PostgresBroker.emit, Memory.emit.
  rewrite Hsk. destruct (br_sink b) eqn:Hb; [|by exists s].
  unfold emitEvent. rewrite <- Hd, ?Hsk, ?Hb. destruct (Derive _ _ _ _ _ _ _ _) as [event|]; [|by exists s].
  eexists. split; [done|]. destruct Hs as [Hn Hr Hu _ He Hf Hl Hw Hed Hroom]. split; cbn; try done.
  - by rewrite ?Hsk, ?Hb.
  - by rewrite He.
Qed.

(** The event of a replaced row. *)
Lemma sameStore_emit_row k b s o o' id m p now :
  sameStore k b s → sameRow id m p →
  Derive o (row_state m) id (env_Queue (row_envelope m)) (env_Type (row_envelope m)) (row_lastError m)
    (row_retried m) now =
  Derive o' (row_state m) id (env_Queue (row_envelope m)) (env_Type (row_envelope m)) (row_lastError m)
    (row_retried m) now →
  ∃ s', emitChange (E := callError) id o' (scanChange (id, p)) now s = (s', inr ()) ∧
    sameStore k (emit_row o id m now b) s'.
Proof.
  intros Hs Hrow Hd. unfold emitChange, scanChange, emit_row. cbn.
  rewrite (sr_queue _ _ _ Hrow), (sr_type _ _ _ Hrow), (sr_state _ _ _ Hrow), (sr_error _ _ _ Hrow),
    (sr_retried _ _ _ Hrow). by apply sameStore_emit.
Qed.

(** ** Statements without faults *)

Lemma exec_answers {A} (q : sql A) s db x :
  ps_faults s = [] → q (ps_db s) = inr (db, x) → exec q s = (s <| ps_db := db |>, inr x).
Proof. intros Hf Hq. unfold exec, nextFault. by rewrite Hf, Hq. Qed.

Lemma bind_inr {E A B} (m : pg E A) (k : A → pg E B) s s' x :
  m s = (s', inr x) → bind m k s = k x s'.
Proof. unfold bind. by intros ->. Qed.

Lemma wrapping_inr {A} context (m : pg sqlError A) s s' x :
  m s = (s', inr x) → wrapping context m s = (s', inr x).
Proof. unfold wrapping. by intros ->. Qed.

Lemma set_db_same (s : Store) : s <| ps_db := ps_db s |> = s.
Proof. by destruct s. Qed.

Lemma mutate_found k b s id cond f m p context :
  sameStore k b s → br_tasks b !! id = Some m → db_tasks (ps_db s) !! id = Some p →
  cond p = true → rowFits (f p) = true →
  uniqueIdxKey (f p) = None ∨ uniqueIdxKey (f p) = uniqueIdxKey p →
  wrapping context (mutateScoped (λ db, updateTasks (whereId id cond db) f db)) s =
    (s <| ps_db := (ps_db s) <| db_tasks := <[id := f p]> (db_tasks (ps_db s)) |> |>,
     inr (Some (scanChange (id, f p)))) ∧
  uniqueIdxHolds (<[id := f p]> (db_tasks (ps_db s))) = true.
Proof.
  intros Hs Hm Hp Hc Hfit Hk.
  destruct (updateTasks_one id cond f (ps_db s) p Hp Hc (ss_unique _ _ _ Hs) Hfit Hk)
    as (tasks & Hq & Hu & ->).
  split; [|done]. apply wrapping_inr. unfold mutateScoped.
  by rewrite (bind_inr _ _ _ _ _ (exec_answers (λ db, updateTasks (whereId id cond db) f db) _ _ _ (ss_faults _ _ _ Hs) Hq)).
Qed.

Lemma mutate_missed k b s id cond f context :
  sameStore k b s → (∀ p, db_tasks (ps_db s) !! id = Some p → cond p = false) →
  wrapping context (mutateScoped (λ db, updateTasks (whereId id cond db) f db)) s = (s, inr None).
Proof.
  intros Hs Hc. apply wrapping_inr. unfold mutateScoped.
  pose proof (updateTasks_none id cond f (ps_db s) Hc (ss_unique _ _ _ Hs)) as Hq.
  rewrite (bind_inr _ _ _ _ _ (exec_answers (λ db, updateTasks (whereId id cond db) f db) _ _ _ (ss_faults _ _ _ Hs) Hq)).
  by rewrite set_db_same.
Qed.

(** ** Lease-scoped calls *)

Lemma heldBy_same id m p lid :
  sameRow id m p →
  heldBy lid p = true ↔ row_state m = TASK_STATE_ACTIVE ∧ row_leaseID m = lid.
Proof.
  intros Hr. unfold heldBy, inState. rewrite andb_true_iff, !bool_decide_eq_true, (sr_state _ _ _ Hr).
  rewrite list_elem_of_singleton. split.
  - intros [Hs Hl]. split; [done|]. destruct (sr_lease _ _ _ Hr Hs) as [E _]. congruence.
  - intros [Hs <-]. split; [done|]. by destruct (sr_lease _ _ _ Hr Hs).
Qed.

Lemma not_held_same k b s id lid :
  sameStore k b s → activeRow id lid b = None →
  ∀ p, db_tasks (ps_db s) !! id = Some p → heldBy lid p = false.
Proof.
  intros Hs Ha p Hp. destruct (heldBy lid p) eqn:Hh; [|done]. exfalso.
  apply activeRow_None in Ha. apply Ha. destruct (br_tasks b !! id) as [m|] eqn:Hm.
  - apply (heldBy_same id m p lid (ss_rows _ _ _ Hs id m p Hm Hp)) in Hh. exists m. tauto.
  - rewrite (sameStore_absent _ _ _ _ Hs Hm) in Hp. done.
Qed.

(** The outcome of a method that only reports an error. *)
Definition outcome (err : option BrokerError) : callError + unit :=
  match err with None => inr () | Some err => inl (EBroker err) end.

(** What a replacement of a row owes: the same row on both sides, at most one more
    failure, no unique key gained. *)
Definition replaces (id : string) (g : taskRow → taskRow) (f : taskRec → taskRec)
    (m : taskRow) (p : taskRec) : Prop :=
  sameRow id (g m) (f p) ∧ row_retried (g m) <= row_retried m + 1 ∧
  (uniqueIdxKey (f p) = None ∨ uniqueIdxKey (f p) = uniqueIdxKey p).

(** A row found by a guarded update, with its event. *)
Lemma replaced_sim k b s id now cond o o' g f m p context :
  sameStore (k + 1) b s → br_tasks b !! id = Some m → db_tasks (ps_db s) !! id = Some p →
  cond p = true → replaces id g f m p →
  (∀ q t le a, Derive o (row_state (g m)) id q t le a now = Derive o' (row_state (g m)) id q t le a now) →
  ∃ s', wrapping context (mutateScoped (λ db, updateTasks (whereId id cond db) f db)) s =
      (s <| ps_db := (ps_db s) <| db_tasks := <[id := f p]> (db_tasks (ps_db s)) |> |>,
       inr (Some (scanChange (id, f p)))) ∧
    emitChange (E := callError) id o' (scanChange (id, f p)) now
      (s <| ps_db := (ps_db s) <| db_tasks := <[id := f p]> (db_tasks (ps_db s)) |> |>) = (s', inr ()) ∧
    sameStore k (emit_row o id (g m) now (put_row id (g m) b)) s'.
Proof.
  intros Hs Hm Hp Hc (Hrow & Hret & Hkey) Hd.
  destruct (mutate_found (k + 1) b s id cond f m p context Hs Hm Hp Hc (sr_fits _ _ _ Hrow) Hkey) as [Hq Hu].
  pose proof (ss_room _ _ _ Hs id m Hm) as Hroom.
  assert (Hput : sameStore k (put_row id (g m) b)
    (s <| ps_db := (ps_db s) <| db_tasks := <[id := f p]> (db_tasks (ps_db s)) |> |>)).
  { apply sameStore_put; [|done|lia|done]. apply (sameStore_room (k + 1)); [lia|done]. }
  destruct (sameStore_emit_row k _ _ o o' id (g m) (f p) now Hput Hrow (Hd _ _ _ _)) as (s' & He & Hs').
  exists s'. done.
Qed.

Lemma scoped_sim k b s id lid now g f context :
  sameStore (k + 1) b s →
  (∀ m p, sameRow id m p → row_state m = TASK_STATE_ACTIVE → row_retried m + (k + 1) < 2 ^ 31 →
     replaces id g f m p) →
  let mem := match activeRow id lid b with
             | None => (b, Some ErrLeaseLost)
             | Some row => (emit_row (row_state row) id (g row) now (put_row id (g row) b), None)
             end in
  let out := bind (wrapping context (mutateScoped (λ db, updateTasks (whereId id (heldBy lid) db) f db)))
    (λ change, match change with
               | None => fail (EBroker ErrLeaseLost)
               | Some change => emitChange id TASK_STATE_ACTIVE change now
               end) s in
  sameStore k mem.1 out.1 ∧ out.2 = outcome mem.2.
Proof.
  intros Hs Hf. cbn zeta. destruct (activeRow id lid b) as [m|] eqn:Ha.
  - apply activeRow_Some in Ha as (Hm & Hact & Hlid).
    destruct (sameStore_lookup _ _ _ _ _ Hs Hm) as (p & Hp & Hrow).
    destruct (replaced_sim k b s id now (heldBy lid) (row_state m) TASK_STATE_ACTIVE g f m p context)
      as (s' & Hq & He & Hs'); [done..| | | |].
    + by apply (heldBy_same id m p lid Hrow).
    + apply Hf; [done..|]. by apply (ss_room _ _ _ Hs id).
    + by rewrite Hact.
    + rewrite (bind_inr _ _ _ _ _ Hq), He. done.
  - rewrite (bind_inr _ _ _ _ _ (mutate_missed (k + 1) b s id (heldBy lid) f context Hs
      (not_held_same _ b s id lid Hs Ha))).
    split; [|done]. by apply (sameStore_room (k + 1)); [lia|].
Qed.

(** The lease-scoped updates without an event. *)
Lemma scoped_exec_sim k b s id lid g f :
  sameStore (k + 1) b s →
  (∀ m p, sameRow id m p → row_state m = TASK_STATE_ACTIVE → replaces id g f m p) →
  let mem := match activeRow id lid b with
             | None => (b, Some ErrLeaseLost)
             | Some row => (put_row id (g row) b, None)
             end in
  let out := leaseScopedExec (λ db, thenReturning (updateTasks (whereId id (heldBy lid) db) f)
    (λ rows, Z.of_nat (length rows)) db) s in
  sameStore k mem.1 out.1 ∧ out.2 = outcome mem.2.
Proof.
  intros Hs Hf. cbn zeta. unfold leaseScopedExec.
  set (q := λ db, thenReturning (updateTasks (whereId id (heldBy lid) db) f) (λ rows, Z.of_nat (length rows)) db).
  assert (Hq : ∀ db rows, updateTasks (whereId id (heldBy lid) (ps_db s)) f (ps_db s) = inr (db, rows) →
    wrapping "postgres: lease-scoped update" (exec q) s = (s <| ps_db := db |>, inr (Z.of_nat (length rows)))).
  { intros db rows Hu. apply wrapping_inr, (exec_answers q); [apply (ss_faults _ _ _ Hs)|].
    unfold q, thenReturning. by rewrite Hu. }
  pose proof (ss_unique _ _ _ Hs) as Hidx. destruct (activeRow id lid b) as [m|] eqn:Ha.
  - apply activeRow_Some in Ha as (Hm & Hact & Hlid).
    destruct (sameStore_lookup _ _ _ _ _ Hs Hm) as (p & Hp & Hrow).
    destruct (Hf m p Hrow Hact) as (Hrow' & Hret & Hkey).
    destruct (updateTasks_one id (heldBy lid) f (ps_db s) p Hp) as (tasks & Hu & Hu' & ->);
      [by apply (heldBy_same id m p lid Hrow)|done|apply (sr_fits _ _ _ Hrow')|done|].
    rewrite (bind_inr _ _ _ _ _ (Hq _ _ Hu)). cbn. split; [|done].
    pose proof (ss_room _ _ _ Hs id m Hm). apply sameStore_put; [|done|lia|done].
    by apply (sameStore_room (k + 1)); [lia|].
  - pose proof (updateTasks_none id (heldBy lid) f (ps_db s) (not_held_same _ _ _ _ _ Hs Ha) Hidx) as Hu.
    rewrite (bind_inr _ _ _ _ _ (Hq _ _ Hu)), set_db_same. cbn. split; [|done].
    by apply (sameStore_room (k + 1)); [lia|].
Qed.

(** ** Whole microseconds *)

Lemma timestamptz_id t : whole t → timestamptz t = t.
Proof. intros [n ->]. rewrite Z.mul_comm. apply timestamptz_whole. Qed.

Lemma whole_add t d : whole t → whole d → whole (time_Add t d).
Proof. apply Z.divide_add_r. Qed.

Lemma nullable_now now : 0 < now → nullable now = Some now.
Proof. intros H. unfold nullable, IsZero. by rewrite (proj2 (Z.eqb_neq now 0)) by lia. Qed.

#[local] Arguments wrap32 : simpl never.

(** Rows differ in the columns written; the rest is as it was. *)
Ltac same_row :=
  match goal with H : sameRow _ _ _ |- _ => destruct H end;
  split; [split; cbn; try done; try congruence|split; [cbn; lia|]].

Context (now : Time) (Hnow : whole now) (Hpos : 0 < now).

Lemma key_active p p' :
  pt_state p = TASK_STATE_ACTIVE → pt_unique_key p' = pt_unique_key p →
  uniqueIdxKey p' = None ∨ uniqueIdxKey p' = uniqueIdxKey p.
Proof. intros Hs Hk. unfold uniqueIdxKey. rewrite Hs, Hk. destruct (pt_state p'); auto. Qed.

Lemma Ack_sim k b s id lid result :
  sameStore (k + 1) b s →
  let mem := Memory.Ack id lid result now b in
  let out := PostgresBroker.Ack id lid result now s in
  sameStore k mem.1 out.1 ∧ out.2 = outcome mem.2.
Proof.
  intros Hs. apply (scoped_sim k b s id lid now (ack_row now) (completeRec result (timestamptz now))); [done|].
  intros m p Hr Hact _. pose proof (sr_state _ _ _ Hr) as Hst. rewrite (timestamptz_id now Hnow).
  same_row; [by rewrite nullable_now|]. apply key_active; [congruence|done].
Qed.

Lemma Fail_sim k b s id lid msg at_ :
  whole at_ → 0 <= k → sameStore (k + 1) b s →
  let mem := Memory.Fail id lid msg at_ now b in
  let out := PostgresBroker.Fail id lid msg at_ now s in
  sameStore k mem.1 out.1 ∧ out.2 = outcome mem.2.
Proof.
  intros Hat Hk Hs. unfold PostgresBroker.Fail, failQuery.
  rewrite (timestamptz_id at_ Hat), (timestamptz_id now Hnow).
  apply (scoped_sim k b s id lid now (λ row, row <| row_state := TASK_STATE_RETRY |>
    <| row_retried := wrap32 (row_retried row + 1) |> <| row_lastError := msg |>
    <| row_processAt := at_ |> <| row_leaseID := "" |>)); [done|].
  intros m p Hr Hact Hroom. pose proof (sr_state _ _ _ Hr) as Hst.
  assert (Hin : integer (row_retried m) = true).
  { pose proof (sr_fits _ _ _ Hr) as Hf. unfold rowFits in Hf. rewrite !andb_true_iff in Hf.
    rewrite <- (sr_retried _ _ _ Hr). tauto. }
  unfold integer in Hin. apply andb_true_iff in Hin as [Hlo%Z.leb_le Hhi%Z.ltb_lt].
  assert (Hw : wrap32 (row_retried m + 1) = row_retried m + 1).
  { apply wrap32_id. unfold int32_range. lia. }
  destruct Hr. split; [split; cbn; rewrite ?Hw; try done; try congruence|split; [cbn; rewrite Hw; lia|]].
  - unfold rowFits in *. cbn. rewrite !andb_true_iff in *. split_and!; try tauto.
    unfold integer. rewrite andb_true_iff, Z.leb_le, Z.ltb_lt. lia.
  - apply key_active; [congruence|done].
Qed.

Lemma Release_sim k b s id lid :
  sameStore (k + 1) b s →
  let mem := Memory.Release id lid now b in
  let out := PostgresBroker.Release id lid now s in
  sameStore k mem.1 out.1 ∧ out.2 = outcome mem.2.
Proof.
  intros Hs. unfold PostgresBroker.Release, releaseQuery. rewrite (timestamptz_id now Hnow).
  apply (scoped_sim k b s id lid now (λ row, row <| row_state := TASK_STATE_PENDING |>
    <| row_processAt := now |> <| row_leaseID := "" |>)); [done|].
  intros m p Hr Hact _. pose proof (sr_state _ _ _ Hr) as Hst. same_row. apply key_active; [congruence|done].
Qed.

Lemma ExtendLease_sim k b s id lid ttl :
  whole ttl → sameStore (k + 1) b s →
  let mem := Memory.ExtendLease id lid ttl now b in
  let out := PostgresBroker.ExtendLease id lid ttl now s in
  sameStore k mem.1 out.1 ∧ out.2 = outcome mem.2.
Proof.
  intros Httl Hs. unfold PostgresBroker.ExtendLease, extendLeaseQuery.
  rewrite (timestamptz_id now Hnow), (timestamptz_id _ (whole_add now ttl Hnow Httl)).
  apply (scoped_exec_sim k b s id lid (λ row, row <| row_leaseExpiresAt := time_Add now ttl |>)); [done|].
  intros m p Hr Hact. pose proof (sr_state _ _ _ Hr) as Hst. same_row.
  - intros _. by destruct (sr_lease0 Hact).
  - apply key_active; [congruence|done].
Qed.

Lemma SetProgress_sim k b s id lid percent message :
  0 <= percent → sameStore (k + 1) b s →
  let mem := Memory.SetProgress id lid percent message b in
  let out := PostgresBroker.SetProgress id lid percent message now s in
  sameStore k mem.1 out.1 ∧ out.2 = outcome mem.2.
Proof.
  intros Hpc Hs. unfold PostgresBroker.SetProgress, setProgressQuery. rewrite (timestamptz_id now Hnow).
  apply (scoped_exec_sim k b s id lid (λ row, row <| row_progress := clampPercent percent |>
    <| row_progressMessage := message |>)); [done|].
  intros m p Hr Hact. pose proof (sr_state _ _ _ Hr) as Hst. same_row.
  - unfold rowFits in *. cbn. rewrite !andb_true_iff in *. split_and!; try tauto.
    unfold smallint, clampPercent, PostgresBroker.maxProgressPercent.
    destruct (Z.ltb_spec 100 percent); rewrite andb_true_iff, Z.leb_le, Z.ltb_lt; lia.
  - apply key_active; [congruence|done].
Qed.

(** ** Guarded updates of the administration *)

(** The in-memory side of a guarded update: [guard] selects the states. *)
Definition guarded (id : string) (guard : TaskState → bool) (o : taskRow → TaskState)
    (g : taskRow → taskRow) (b : Broker) : Broker * option BrokerError :=
  match br_tasks b !! id with
  | None => (b, Some ErrTaskNotFound)
  | Some row =>
      if guard (row_state row) then (emit_row (o row) id (g row) now (put_row id (g row) b), None)
      else (b, Some ErrInvalidState)
  end.

Lemma explainMiss_sim k b s id :
  sameStore k b s →
  explainMiss (A := unit) id s =
    (s, inl (EBroker (match br_tasks b !! id with None => ErrTaskNotFound | Some _ => ErrInvalidState end))).
Proof.
  intros Hs. unfold explainMiss.
  assert (Hq : exec (taskStateQuery id) s = (s, inr (pt_state <$> db_tasks (ps_db s) !! id))).
  { rewrite (exec_answers (taskStateQuery id) s (ps_db s) (pt_state <$> db_tasks (ps_db s) !! id));
      [by rewrite set_db_same|apply (ss_faults _ _ _ Hs)|done]. }
  rewrite (bind_inr _ _ _ _ _ (wrapping_inr _ _ _ _ _ Hq)).
  destruct (br_tasks b !! id) as [m|] eqn:Hm.
  - destruct (sameStore_lookup _ _ _ _ _ Hs Hm) as (p & -> & _). done.
  - by rewrite (sameStore_absent _ _ _ _ Hs Hm).
Qed.

Lemma guarded_sim k b s id guard cond o o' g f context :
  sameStore (k + 1) b s →
  (∀ m p, sameRow id m p → cond p = guard (row_state m)) →
  (∀ m p, sameRow id m p → guard (row_state m) = true → replaces id g f m p) →
  (∀ m q t le a, guard (row_state m) = true →
     Derive (o m) (row_state (g m)) id q t le a now = Derive o' (row_state (g m)) id q t le a now) →
  let mem := guarded id guard o g b in
  let out := bind (wrapping context (mutateScoped (λ db, updateTasks (whereId id cond db) f db)))
    (λ change, match change with
               | None => explainMiss id
               | Some change => emitChange id o' change now
               end) s in
  sameStore k mem.1 out.1 ∧ out.2 = outcome mem.2.
Proof.
  intros Hs Hc Hf Hd. cbn zeta. unfold guarded.
  assert (Hmiss : (∀ p, db_tasks (ps_db s) !! id = Some p → cond p = false) →
    bind (wrapping context (mutateScoped (λ db, updateTasks (whereId id cond db) f db)))
      (λ change, match change with None => explainMiss id | Some change => emitChange id o' change now end) s =
    (s, inl (EBroker (match br_tasks b !! id with None => ErrTaskNotFound | Some _ => ErrInvalidState end)))).
  { intros Hno. rewrite (bind_inr _ _ _ _ _ (mutate_missed _ b s id cond f context Hs Hno)).
    by apply (explainMiss_sim (k + 1)). }
  destruct (br_tasks b !! id) as [m|] eqn:Hm.
  - destruct (sameStore_lookup _ _ _ _ _ Hs Hm) as (p & Hp & Hrow).
    destruct (guard (row_state m)) eqn:Hg.
    + destruct (replaced_sim k b s id now cond (o m) o' g f m p context) as (s' & Hq & He & Hs'); [done..| | | |].
      * by rewrite (Hc m p Hrow).
      * by apply Hf.
      * intros. by apply Hd.
      * rewrite (bind_inr _ _ _ _ _ Hq), He. done.
    + rewrite Hmiss; [|intros p' Hp'; simplify_eq; by rewrite (Hc m p Hrow)].
      split; [|done]. by apply (sameStore_room (k + 1)); [lia|].
  - rewrite Hmiss; [|intros p Hp; rewrite (sameStore_absent _ _ _ _ Hs Hm) in Hp; done].
    split; [|done]. by apply (sameStore_room (k + 1)); [lia|].
Qed.

(** The same with the state before the update read along. *)
Lemma guardedOld_sim k b s id guard cond g f context :
  sameStore (k + 1) b s →
  (∀ m p, sameRow id m p → cond p = guard (row_state m)) →
  (∀ m p, sameRow id m p → guard (row_state m) = true → replaces id g f m p) →
  let mem := guarded id guard row_state g b in
  let out := bind (wrapping context (mutateScopedOld (withOldState id (λ db, updateTasks (whereId id cond db) f))))
    (λ r, match r with
          | None => explainMiss id
          | Some (oldState, change) => emitChange id oldState change now
          end) s in
  sameStore k mem.1 out.1 ∧ out.2 = outcome mem.2.
Proof.
  intros Hs Hc Hf.
  assert (Hold : ∀ s' r, wrapping context (mutateScoped (λ db, updateTasks (whereId id cond db) f db)) s = (s', inr r) →
    wrapping context (mutateScopedOld (withOldState id (λ db, updateTasks (whereId id cond db) f))) s =
      (s', inr (match db_tasks (ps_db s) !! id, r with
                | Some p, Some change => Some (pt_state p, change)
                | _, _ => None
                end))).
  { unfold wrapping, mutateScoped, mutateScopedOld, bind, exec, nextFault, withOldState, thenReturning.
    rewrite (ss_faults _ _ _ Hs). intros s' r.
    pose proof (updateTasks_none id cond f (ps_db s)) as Hnone.
    destruct (db_tasks (ps_db s) !! id) as [p|] eqn:Hp.
    - destruct (updateTasks (whereId id cond (ps_db s)) f (ps_db s)) as [err|[db rows]]; [done|].
      destruct rows; cbn; by intros [= <- <-].
    - rewrite Hnone by (done || apply (ss_unique _ _ _ Hs)). cbn. by intros [= <- <-]. }
  assert (Hmiss : (∀ p, db_tasks (ps_db s) !! id = Some p → cond p = false) →
    bind (wrapping context (mutateScopedOld (withOldState id (λ db, updateTasks (whereId id cond db) f))))
      (λ r, match r with None => explainMiss id | Some (oldState, change) => emitChange id oldState change now end) s =
    (s, inl (EBroker (match br_tasks b !! id with None => ErrTaskNotFound | Some _ => ErrInvalidState end)))).
  { intros Hno. rewrite (bind_inr _ _ _ _ _ (Hold _ _ (mutate_missed _ b s id cond f context Hs Hno))).
    destruct (db_tasks (ps_db s) !! id); by apply (explainMiss_sim (k + 1)). }
  cbn zeta. unfold guarded. destruct (br_tasks b !! id) as [m|] eqn:Hm.
  - destruct (sameStore_lookup _ _ _ _ _ Hs Hm) as (p & Hp & Hrow).
    destruct (guard (row_state m)) eqn:Hg.
    + destruct (replaced_sim k b s id now cond (row_state m) (row_state m) g f m p context)
        as (s' & Hq & He & Hs'); [done..| | |done|].
      * by rewrite (Hc m p Hrow).
      * by apply Hf.
      * rewrite (bind_inr _ _ _ _ _ (Hold _ _ Hq)), Hp, (sr_state _ _ _ Hrow), He. done.
    + rewrite Hmiss; [|intros p' Hp'; simplify_eq; by rewrite (Hc m p Hrow)].
      split; [|done]. by apply (sameStore_room (k + 1)); [lia|].
  - rewrite Hmiss; [|intros p Hp; rewrite (sameStore_absent _ _ _ _ Hs Hm) in Hp; done].
    split; [|done]. by apply (sameStore_room (k + 1)); [lia|].
Qed.

(** A terminal row has no key in the index. *)
Lemma key_terminal p : pt_state p = TASK_STATE_ARCHIVED ∨ pt_state p = TASK_STATE_CANCELED →
  uniqueIdxKey p = None.
Proof. unfold uniqueIdxKey. by intros [-> | ->]. Qed.

Lemma archive_replaces id msg m p : sameRow id m p → replaces id (archive_row msg now) (archiveRec msg now) m p.
Proof.
  intros Hr. same_row; [by rewrite nullable_now|]. left. apply key_terminal. by left.
Qed.

Lemma Archive_sim k b s id lid msg :
  sameStore (k + 1) b s →
  let mem := Memory.Archive id lid msg now b in
  let out := PostgresBroker.Archive id lid msg now s in
  sameStore k mem.1 out.1 ∧ out.2 = outcome mem.2.
Proof.
  intros Hs. unfold PostgresBroker.Archive, Memory.Archive, archiveLeasedQuery, archiveAnyQuery.
  rewrite (timestamptz_id now Hnow).
  destruct (bool_decide_reflect (lid = "")) as [->|Hlid]; cbn [negb].
  - pose proof (guardedOld_sim k b s id (λ st, negb (bool_decide (st = TASK_STATE_COMPLETED)))
      (λ row, negb (inState [TASK_STATE_COMPLETED] row)) (archive_row msg now) (archiveRec msg now)
      "postgres: archive" Hs) as H.
    cbn zeta in *. unfold guarded in H. destruct (br_tasks b !! id) as [m|] eqn:Hm.
    + case_decide as Hst; [rewrite bool_decide_true in H by done|rewrite bool_decide_false in H by done];
        apply H; try (intros; apply archive_replaces; done);
        intros m' p' Hr; unfold inState; rewrite (sr_state _ _ _ Hr); f_equal; apply bool_decide_ext; set_solver.
    + apply H; [|intros; apply archive_replaces; done].
      intros m' p' Hr; unfold inState; rewrite (sr_state _ _ _ Hr); f_equal; apply bool_decide_ext; set_solver.
  - pose proof (scoped_sim k b s id lid now (archive_row msg now) (archiveRec msg now) "postgres: archive" Hs) as H.
    cbn zeta in *. destruct (activeRow id lid b) as [m|]; apply H; intros; apply archive_replaces; done.
Qed.

(** The states a guarded update lists. *)
Lemma inState_same id m p states :
  sameRow id m p → inState states p = bool_decide (row_state m ∈ states).
Proof. intros Hr. unfold inState. by rewrite (sr_state _ _ _ Hr). Qed.

Lemma CancelTask_sim k b s id :
  sameStore (k + 1) b s →
  let mem := Memory.CancelTask id now b in
  let out := PostgresBroker.CancelTask id now s in
  sameStore k mem.1 out.1 ∧ out.2 = outcome mem.2.
Proof.
  intros Hs. unfold PostgresBroker.CancelTask, cancelTaskQuery. rewrite (timestamptz_id now Hnow).
  set (states := [TASK_STATE_SCHEDULED; TASK_STATE_PENDING; TASK_STATE_RETRY; TASK_STATE_AGGREGATING; TASK_STATE_BLOCKED]).
  assert (Hmem : Memory.CancelTask id now b = guarded id (λ st, bool_decide (st ∈ states)) row_state
    (λ row, row <| row_state := TASK_STATE_CANCELED |> <| row_completedAt := now |>) b).
  { unfold Memory.CancelTask, guarded. destruct (br_tasks b !! id) as [m|]; [|done].
    by destruct (row_state m) eqn:?. }
  cbn zeta. rewrite Hmem. apply guarded_sim; [done|intros; by eapply inState_same| |].
  - intros m p Hr _. same_row; [by rewrite nullable_now|]. left. apply key_terminal. by right.
  - intros m q t le a Hg. cbn. unfold Derive. rewrite decide_False, (decide_False (P := TASK_STATE_PENDING = _)).
    + done.
    + done.
    + intros E. rewrite E in Hg. done.
Qed.

Lemma ArchiveTask_sim k b s id :
  sameStore (k + 1) b s →
  let mem := Memory.ArchiveTask id now b in
  let out := PostgresBroker.ArchiveTask id now s in
  sameStore k mem.1 out.1 ∧ out.2 = outcome mem.2.
Proof.
  intros Hs. unfold PostgresBroker.ArchiveTask, archiveWaitingQuery. rewrite (timestamptz_id now Hnow).
  set (states := [TASK_STATE_SCHEDULED; TASK_STATE_PENDING; TASK_STATE_RETRY; TASK_STATE_BLOCKED]).
  assert (Hmem : Memory.ArchiveTask id now b = guarded id (λ st, bool_decide (st ∈ states)) row_state
    (λ row, row <| row_state := TASK_STATE_ARCHIVED |> <| row_completedAt := now |>) b).
  { unfold Memory.ArchiveTask, guarded. destruct (br_tasks b !! id) as [m|]; [|done].
    by destruct (row_state m) eqn:?. }
  cbn zeta. rewrite Hmem. apply guarded_sim; [done|intros; by eapply inState_same| |].
  - intros m p Hr _. same_row; [by rewrite nullable_now|]. left. apply key_terminal. by left.
  - intros m q t le a Hg. cbn. unfold Derive. rewrite decide_False, (decide_False (P := TASK_STATE_SCHEDULED = _)).
    + done.
    + done.
    + intros E. rewrite E in Hg. done.
Qed.

Lemma RescheduleTask_sim k b s id at_ :
  whole at_ → sameStore (k + 1) b s →
  let mem := Memory.RescheduleTask id at_ now b in
  let out := PostgresBroker.RescheduleTask id at_ now s in
  sameStore k mem.1 out.1 ∧ out.2 = outcome mem.2.
Proof.
  intros Hat Hs. unfold PostgresBroker.RescheduleTask, rescheduleQuery.
  rewrite (timestamptz_id now Hnow), (timestamptz_id at_ Hat).
  set (states := [TASK_STATE_SCHEDULED; TASK_STATE_PENDING; TASK_STATE_RETRY]).
  set (new := if After at_ now then TASK_STATE_SCHEDULED else TASK_STATE_PENDING).
  assert (Hmem : Memory.RescheduleTask id at_ now b = guarded id (λ st, bool_decide (st ∈ states)) row_state
    (λ row, row <| row_processAt := at_ |> <| row_state := new |>) b).
  { unfold Memory.RescheduleTask, guarded. destruct (br_tasks b !! id) as [m|]; [|done]. fold new.
    assert (Hno : ∀ o, o = new → ∀ row : taskRow, row_state row = new → ∀ b', emit_row o id row now b' = b').
    { intros o -> row E b'. unfold emit_row, Memory.emit, Derive. rewrite E, decide_True by done.
      by destruct (br_sink b'). }
    destruct (row_state m) eqn:Hst; cbn [row_state set]; try done;
      case_decide as E; try done; by rewrite Hno by (done || cbn; congruence). }
  cbn zeta. rewrite Hmem. apply guardedOld_sim; [done|intros; by eapply inState_same|].
  intros m p Hr Hg. pose proof (sr_state _ _ _ Hr) as Hst. same_row; [subst new; by destruct (After at_ now)|].
  right. unfold uniqueIdxKey. cbn. rewrite Hst. unfold new.
  destruct (row_state m); try done; by destruct (After at_ now).
Qed.

(** An archived task runs again; its row has no key to gain. *)
Lemma RunTaskNow_sim k b s id :
  sameStore (k + 1) b s →
  let mem := Memory.RunTaskNow id now b in
  let out := PostgresBroker.RunTaskNow id now s in
  sameStore k mem.1 out.1 ∧ out.2 = outcome mem.2.
Proof.
  intros Hs. unfold PostgresBroker.RunTaskNow, runTaskNowQuery. rewrite (timestamptz_id now Hnow).
  set (states := [TASK_STATE_SCHEDULED; TASK_STATE_PENDING; TASK_STATE_RETRY; TASK_STATE_ARCHIVED]).
  assert (Hmem : Memory.RunTaskNow id now b = guarded id (λ st, bool_decide (st ∈ states)) row_state
    (λ row, row <| row_state := TASK_STATE_PENDING |> <| row_processAt := now |> <| row_completedAt := zeroTime |>) b).
  { unfold Memory.RunTaskNow, guarded. destruct (br_tasks b !! id) as [m|]; [|done].
    destruct (row_state m) eqn:Hst; cbn [row_state set]; try done.
    unfold emit_row, Memory.emit, Derive. cbn. by destruct (br_sink _). }
  cbn zeta. rewrite Hmem. apply guardedOld_sim; [done|intros; by eapply inState_same|].
  intros m p Hr Hg. pose proof (sr_key _ _ _ Hr) as Hkey. same_row.
  left. unfold uniqueIdxKey. cbn. done.
Qed.

Lemma existsb_empty {A} (f : string * string * A → bool) (m : gmap (string * string) A) :
  m = ∅ → existsb f (range_map m) = false.
Proof.
  intros ->. destruct (existsb f (range_map ∅)) eqn:E; [|done].
  apply existsb_exists in E as ([key x] & Hin%list_elem_of_In & _). by apply elem_of_range_map in Hin.
Qed.

Lemma sameStore_delete k b s id :
  sameStore k b s →
  sameStore k (delete_row id b)
    (s <| ps_db := (ps_db s) <| db_tasks := delete id (db_tasks (ps_db s)) |> |>).
Proof.
  intros [Hn Hr Hu Hsk He Hf Hl Hw Hed Hroom]. split; cbn; try done.
  - intros id'. rewrite !lookup_delete_None. specialize (Hn id'). tauto.
  - intros id' m p [_ Hm]%lookup_delete_Some [_ Hp]%lookup_delete_Some. by apply Hr.
  - apply (uniqueIdxHolds_mono (db_tasks (ps_db s))); [done|]. intros id' p key [_ Hp]%lookup_delete_Some Hk. eauto.
  - intros id' m [_ Hm]%lookup_delete_Some. by eapply Hroom.
Qed.

Lemma dropEdges_none id db : db_deps db = ∅ → dropDependentEdgesQuery id db = inr (db, ()).
Proof.
  intros H. unfold dropDependentEdgesQuery, deleteEdges. rewrite H, map_filter_empty, <- H. by destruct db.
Qed.

Lemma DeleteTask_sim k b s id :
  sameStore k b s →
  let mem := Memory.DeleteTask id b in
  let out := PostgresBroker.DeleteTask id s in
  sameStore k mem.1 out.1 ∧ out.2 = outcome mem.2.
Proof.
  intros Hs. cbn zeta. unfold PostgresBroker.DeleteTask, Memory.DeleteTask.
  pose proof (ss_faults _ _ _ Hs) as Hf.
  assert (Hdep : exec (hasWaitingDependentsQuery id) s = (s, inr false)).
  { rewrite (exec_answers (hasWaitingDependentsQuery id) s (ps_db s) false); [by rewrite set_db_same|done|].
    unfold hasWaitingDependentsQuery, reads. by rewrite existsb_empty by apply (ss_edges _ _ _ Hs). }
  rewrite (bind_inr _ _ _ _ _ (wrapping_inr _ _ _ _ _ Hdep)).
  assert (Hdel : ∀ db n, deleteTaskQuery id (ps_db s) = inr (db, n) →
    wrapping "postgres: delete task" (exec (deleteTaskQuery id)) s = (s <| ps_db := db |>, inr n)).
  { intros db n E. by apply wrapping_inr, exec_answers. }
  assert (Hmiss : whereId id (λ row, negb (inState [TASK_STATE_ACTIVE] row)) (ps_db s) = [] →
    bind (wrapping "postgres: delete task" (exec (deleteTaskQuery id)))
      (λ affected, if affected =? 0 then explainMiss id
         else wrapping "postgres: drop deleted task edges" (exec (dropDependentEdgesQuery id))) s =
    (s, inl (EBroker (match br_tasks b !! id with None => ErrTaskNotFound | Some _ => ErrInvalidState end)))).
  { intros E. rewrite (bind_inr _ _ _ _ _ (Hdel (ps_db s) 0 ltac:(unfold deleteTaskQuery, deleteTasks; rewrite E; by destruct (ps_db s)))).
    rewrite set_db_same. cbn [Z.eqb]. by apply (explainMiss_sim k). }
  destruct (br_tasks b !! id) as [m|] eqn:Hm.
  - destruct (sameStore_lookup _ _ _ _ _ Hs Hm) as (p & Hp & Hrow).
    assert (hasWaitingDependents id b = false) as ->.
    { unfold hasWaitingDependents. rewrite (ss_waiters _ _ _ Hs), lookup_empty. cbn.
      destruct (existsb _ _) eqn:E; [|done]. apply existsb_exists in E as (x & Hin%list_elem_of_In & _).
      by apply elem_of_range_keys in Hin. }
    case_decide as Hact.
    + rewrite Hmiss; [done|]. unfold whereId, inState. by rewrite Hp, (sr_state _ _ _ Hrow), Hact.
    + assert (Hw : whereId id (λ row, negb (inState [TASK_STATE_ACTIVE] row)) (ps_db s) = [id]).
      { unfold whereId, inState. rewrite Hp, (sr_state _ _ _ Hrow), bool_decide_false by set_solver. done. }
      rewrite (bind_inr _ _ _ _ _ (Hdel _ 1 ltac:(unfold deleteTaskQuery, deleteTasks; rewrite Hw; cbn; reflexivity))).
      cbn [Z.eqb]. set (s1 := s <| ps_db := _ |>). pose proof (sameStore_delete k b s id Hs) as Hs1. fold s1 in Hs1.
      assert (Hnil : range_keys (dom (row_deps m)) = []).
      { apply Permutation_nil_r. by rewrite range_keys_perm, (sr_deps _ _ _ Hrow), dom_empty_L, elements_empty. }
      rewrite Hnil. cbn [foldl].
      rewrite (wrapping_inr _ _ s1 (s1 <| ps_db := ps_db s1 |>) ()); [by rewrite set_db_same|].
      apply exec_answers; [done|]. apply dropEdges_none, (ss_edges _ _ _ Hs1).
  - rewrite Hmiss; [done|]. unfold whereId. by rewrite (sameStore_absent _ _ _ _ Hs Hm).
Qed.

Lemma readEnvelope_same id m p : sameRow id m p → readEnvelope p = inr (overlay m).
Proof.
  intros []. unfold readEnvelope, unmarshalEnvelope, overlay, stampProgress, stampExecutionTimes, stampProcessAt.
  rewrite sr_payload0, sr_retried0, sr_error0, sr_process0, sr_started0, sr_completed0, sr_progress0, sr_message0.
  unfold nullable. by destruct (IsZero (row_startedAt m)), (IsZero (row_completedAt m)).
Qed.

Lemma GetTask_sim k b s id :
  sameStore k b s →
  PostgresBroker.GetTask id s =
    (s, match Memory.GetTask id b with inl found => inr found | inr err => inl (EBroker err) end).
Proof.
  intros Hs. unfold PostgresBroker.GetTask, Memory.GetTask.
  assert (Hq : exec (selectTask id) s = (s, inr (db_tasks (ps_db s) !! id))).
  { rewrite (exec_answers (selectTask id) s (ps_db s) (db_tasks (ps_db s) !! id));
      [by rewrite set_db_same|apply (ss_faults _ _ _ Hs)|done]. }
  rewrite (bind_inr _ _ _ _ _ (wrapping_inr _ _ _ _ _ Hq)).
  destruct (br_tasks b !! id) as [m|] eqn:Hm.
  - destruct (sameStore_lookup _ _ _ _ _ Hs Hm) as (p & -> & Hrow).
    rewrite (readEnvelope_same id m p Hrow). unfold bind. cbn. by rewrite (sr_state _ _ _ Hrow).
  - by rewrite (sameStore_absent _ _ _ _ Hs Hm).
Qed.
End Simulation.

(** ** Dependency resolution on the PostgreSQL broker terminates

    Every id the worklist loop of [resolveWithin] appends costs its dependent the
    edge it was listed for, so the seeds and the edges bound its turns: the fuel of
    the model is never used up. *)

Section Termination.
Context {PW : ProtoWire} {MR : MapRange} {PD : PgDriver}.

Definition edgeCount (s : Store) : nat := size (db_deps (ps_db s)).

(** Two continuations that agree on every outcome of the first computation. *)
Lemma bind_ext {E A B} (m : pg E A) (k k' : A → pg E B) s :
  (∀ s' x, m s = (s', inr x) → k x s' = k' x s') → bind m k s = bind m k' s.
Proof. unfold bind. intros H. destruct (m s) as [s' [err|x]]; [done|]. by apply H. Qed.

Lemma bind_Some {E A B} (m : pg E A) (k : A → pg E B) s s' y :
  bind m k s = (s', inr y) → ∃ s1 x, m s = (s1, inr x) ∧ k x s1 = (s', inr y).
Proof. unfold bind. destruct (m s) as [s1 [err|x]]; [done|]. eauto. Qed.

Lemma wrapping_Some {A} context (m : pg sqlError A) s s' x :
  wrapping context m s = (s', inr x) → m s = (s', inr x).
Proof. unfold wrapping. destruct (m s) as [s1 [err|y]]; [done|]. by intros [= <- <-]. Qed.

Lemma exec_Some {A} (q : sql A) s s' x :
  exec q s = (s', inr x) → q (ps_db s) = inr (ps_db s', x).
Proof.
  unfold exec. pose proof (nextFault_keeps s) as (_ & Hd & _).
  destruct (nextFault s) as [f s1]. cbn in *. destruct f; [|done|].
  - rewrite Hd. destruct (q (ps_db s)) as [err|[db y]]; [done|]. by intros [= <- <-].
  - rewrite Hd. by destruct (q (ps_db s)) as [err|[db y]].
Qed.

(** ** What the statements do to the edges *)

Lemma updateTasks_deps ids f db db' rows :
  updateTasks ids f db = inr (db', rows) → db_deps db' = db_deps db.
Proof.
  unfold updateTasks. destruct (negb (forallb _ _)); [done|]. destruct (negb (uniqueIdxHolds _)); [done|].
  by intros [= <- _].
Qed.

Lemma mutateScoped_deps q s s' x :
  (∀ db db' rows, q db = inr (db', rows) → db_deps db' = db_deps db) →
  mutateScoped q s = (s', inr x) → db_deps (ps_db s') = db_deps (ps_db s).
Proof.
  unfold mutateScoped. intros Hq (s1 & rows & Hm & [= <- _])%bind_Some. by apply exec_Some, Hq in Hm.
Qed.

(** A cascade cancel drops exactly the dependent's edges. *)
Lemma cascadeCancel_deps id now s s' event :
  cascadeCancel id now s = (s', inr event) →
  db_deps (ps_db s') = filter (λ p, bool_decide (p.1.1 = id) = false) (db_deps (ps_db s)).
Proof.
  unfold cascadeCancel. intros (s1 & change & Hm%wrapping_Some & Hk)%bind_Some.
  apply mutateScoped_deps in Hm; [|intros; by eapply updateTasks_deps].
  apply bind_Some in Hk as (s2 & ev & Hev & Hk).
  assert (Hs2 : s2 = s1).
  { destruct change as [change|]; [|by injection Hev].
    unfold blockedEvent in Hev. apply bind_Some in Hev as (s3 & sink & [= <- _] & [= <- _]). done. }
  subst s2. apply bind_Some in Hk as (s3 & [] & Hd%wrapping_Some%exec_Some & [= <- _]).
  injection Hd as Hd. by rewrite <- Hd, <- Hm.
Qed.

Lemma promoteAll_deps now satisfied queues emitted s s' x :
  promoteAll now satisfied queues emitted s = (s', inr x) → db_deps (ps_db s') = db_deps (ps_db s).
Proof.
  revert queues emitted s. induction satisfied as [|d satisfied IH]; intros queues emitted s; cbn.
  { by intros [= <- _]. }
  intros (s1 & r & Hp & Hk)%bind_Some.
  assert (Hs1 : db_deps (ps_db s1) = db_deps (ps_db s)).
  { unfold promoteDependent in Hp. apply bind_Some in Hp as (s2 & locked & Hl%wrapping_Some%exec_Some & Hp).
    injection Hl as Hl _. rewrite Hl. destruct locked; [|by injection Hp as <- _]. cbn in Hp.
    apply bind_Some in Hp as (s3 & change & Hm%wrapping_Some & Hp).
    apply mutateScoped_deps in Hm; [|intros; by eapply updateTasks_deps]. rewrite <- Hm.
    destruct change as [change|]; [|by injection Hp as <- _].
    apply bind_Some in Hp as (s4 & ev & Hev & [= <- _]).
    unfold blockedEvent in Hev. by apply bind_Some in Hev as (s5 & sink & [= <- _] & [= <- _]). }
  rewrite <- Hs1. destruct r as [[queue event]|]; by eapply IH.
Qed.

(** Dropping edges, one of them present, leaves fewer. *)
Lemma drop_fewer (deps : gmap (string * string) DependencyFailurePolicy) d y :
  is_Some (deps !! (d, y)) →
  (size (filter (λ p : string * string * DependencyFailurePolicy, bool_decide (p.1.1 = d) = false) deps) < size deps)%nat.
Proof.
  intros Hy. apply map_subset_size. split; [apply map_filter_subseteq|]. intros Hsub.
  destruct Hy as [p Hp]. eapply lookup_weaken in Hp; [|exact Hsub].
  apply map_lookup_filter_Some in Hp as [_ Hp]. cbn in Hp. by rewrite bool_decide_true in Hp.
Qed.

Lemma filter_at_most {K V} `{Countable K} (P : K * V → Prop) `{∀ x, Decision (P x)} (m : gmap K V) :
  (size (filter P m) <= size m)%nat.
Proof. apply map_subseteq_size, map_filter_subseteq. Qed.

(** ** A turn of the loop *)

(** Each canceled dependent loses the edge it was listed for. *)
Lemma partitionEdges_measure failed now finished edges :
  NoDup edges.*1 →
  ∀ worklist satisfied emitted s s' worklist' satisfied' emitted',
  (∀ d, d ∈ edges.*1 → is_Some (db_deps (ps_db s) !! (d, finished))) →
  partitionEdges failed now edges worklist satisfied emitted s = (s', inr (worklist', satisfied', emitted')) →
  (length worklist' + edgeCount s' <= length worklist + edgeCount s)%nat.
Proof.
  induction edges as [|[d policy] edges IH]; intros Hnd worklist satisfied emitted s s' w' sat' em' Hin; cbn [partitionEdges].
  { intros [= <- <- _ _]. done. }
  cbn in Hnd. apply NoDup_cons in Hnd as [Hd Hnd].
  assert (Hrest : ∀ x, x ∈ edges.*1 → is_Some (db_deps (ps_db s) !! (x, finished))) by (intros x Hx; apply Hin; by right).
  case_decide; [by apply IH|]. case_decide; [|by apply IH].
  intros (s1 & event & Hc%cascadeCancel_deps & Hk)%bind_Some.
  assert (Hd' : is_Some (db_deps (ps_db s) !! (d, finished))) by (apply Hin; by left).
  pose proof (drop_fewer _ d finished Hd') as Hfew. rewrite <- Hc in Hfew.
  apply IH in Hk; [|done|].
  - rewrite length_app in Hk. cbn in Hk. unfold edgeCount in *. lia.
  - intros x Hx. rewrite Hc. destruct (Hrest x Hx) as [p Hp]. exists p.
    apply map_lookup_filter_Some. split; [done|]. cbn. apply bool_decide_false. by intros ->.
Qed.

Lemma edgesWaitingOn_spec finished s s' edges :
  edgesWaitingOn finished s = (s', inr edges) →
  db_deps (ps_db s') = db_deps (ps_db s) ∧ NoDup edges.*1 ∧
  ∀ d, d ∈ edges.*1 → is_Some (db_deps (ps_db s) !! (d, finished)).
Proof.
  unfold edgesWaitingOn. intros Hq%wrapping_Some%exec_Some. injection Hq as Hdb He. split; [by rewrite Hdb|].
  assert (Hp : edges.*1 ≡ₚ (λ p, p.1.1) <$> filter (λ p, p.1.2 = finished) (range_map (db_deps (ps_db s)))).
  { subst edges. rewrite SortFunc_perm, <- list_fmap_compose. done. }
  split.
  - rewrite Hp. apply NoDup_fmap_2_strong; [|apply NoDup_filter, NoDup_range_map].
    intros [[x y] p] [[x' y'] p'] Hx Hx' E. apply list_elem_of_filter in Hx as [Hy Hx], Hx' as [Hy' Hx'].
    apply elem_of_range_map in Hx, Hx'. cbn in *. subst. rewrite Hx in Hx'. by injection Hx' as ->.
  - intros d Hd. rewrite Hp in Hd. apply list_elem_of_fmap in Hd as ([[x y] p] & -> & Hd).
    apply list_elem_of_filter in Hd as [Hy Hd]. cbn in *. subst y. apply elem_of_range_map in Hd. eauto.
Qed.

(** One turn more changes nothing once the fuel covers the worklist and the
    edges. *)
Lemma resolveLoop_enough now fuel :
  ∀ seen worklist queues emitted s,
  (length worklist + edgeCount s <= fuel)%nat →
  resolveLoop (S fuel) now seen worklist queues emitted s = resolveLoop fuel now seen worklist queues emitted s.
Proof.
  induction fuel as [|fuel IH]; intros seen [|id worklist] queues emitted s Hf; try done; [cbn in Hf; lia|].
  cbn [length] in Hf. cbn [resolveLoop]. case_decide; [apply IH; lia|].
  apply bind_ext. intros s1 state Hst.
  assert (H1 : edgeCount s1 = edgeCount s).
  { unfold terminalState in Hst. apply bind_Some in Hst as (s2 & st & Hq%wrapping_Some%exec_Some & [= <- _]).
    injection Hq as Hq _. unfold edgeCount. by rewrite Hq. }
  destruct (negb _ && negb _); [apply IH; lia|]. apply bind_ext. intros s2 edges He.
  apply edgesWaitingOn_spec in He as (Hdb & Hnd & Hin). apply bind_ext. intros s3 [[w sat] em] Hp.
  apply (partitionEdges_measure _ _ id) in Hp; [|done|by rewrite Hdb].
  assert (H2 : edgeCount s2 = edgeCount s1) by (unfold edgeCount; by rewrite Hdb).
  case_decide; [apply IH; lia|]. apply bind_ext. intros s4 [] Hd%wrapping_Some%exec_Some.
  injection Hd as Hd. apply bind_ext. intros s5 [qs em'] Hpr%promoteAll_deps. apply IH.
  assert (edgeCount s5 <= edgeCount s3)%nat; [|lia].
  unfold edgeCount. rewrite Hpr, <- Hd. apply filter_at_most.
Qed.

(** The fuel of [resolveWithin] is enough, whatever more is given. *)
Lemma resolveWithin_enough seed now s extra :
  resolveLoop (extra + resolveFuel seed (ps_db s)) now ∅ seed ∅ [] s = resolveWithin seed now s.
Proof.
  unfold resolveWithin. induction extra as [|extra IH]; [done|]. cbn [Nat.add].
  rewrite resolveLoop_enough; [done|]. unfold resolveFuel, edgeCount. lia.
Qed.
End Termination.
