(* ===== verification/PostgresLease.v ===== *)
(** * Leasing on the PostgreSQL broker against the in-memory broker

    The statement that leases selects, orders and claims as the in-memory loop does,
    and the simulation of a task's life by the two brokers. *)

From S2P Require Import Prelude Proto Events BrokerApi Memory MemoryFacts MemoryInv MemoryLease Encryption BrokerCalls Postgres PostgresBroker PostgresFanIn PostgresSim.
From Stdlib Require Import Strings.Byte.

#[local] Open Scope Z_scope.

(** ** Selecting and sorting corresponding lists *)

Lemma Forall2_filter {A B} (R : A → B → Prop) (P : A → bool) (Q : B → bool) l l' :
  (∀ x y, R x y → P x = Q y) → Forall2 R l l' →
  Forall2 R (filter (λ x, P x = true) l) (filter (λ y, Q y = true) l').
Proof.
  intros HPQ. induction 1 as [|x y l l' Hxy Hl IH]; [constructor|].
  rewrite !filter_cons. rewrite (HPQ x y Hxy). destruct (Q y); cbn; [by constructor|done].
Qed.

Lemma filter_everything {A} (P : A → Prop) `{∀ x, Decision (P x)} (l : list A) : (∀ x, P x) → filter P l = l.
Proof.
  intros HP. induction l as [|x l IH]; [done|]. rewrite filter_cons, decide_True by done. by rewrite IH.
Qed.

Lemma Forall2_insert_by {A B} (R : A → B → Prop) cmp cmp' x y l l' :
  (∀ a b c d, R a b → R c d → cmp a c <= 0 ↔ cmp' b d <= 0) → R x y →
  Forall2 R l l' → Forall2 R (insert_by cmp x l) (insert_by cmp' y l').
Proof.
  intros Hc Hxy. induction 1 as [|a b l l' Hab Hl IH]; cbn; [by repeat constructor|].
  pose proof (Hc x y a b Hxy Hab).
  destruct (Z.leb_spec (cmp x a) 0), (Z.leb_spec (cmp' y b) 0); try lia; by repeat constructor.
Qed.

Lemma Forall2_SortFunc {A B} (R : A → B → Prop) cmp cmp' l l' :
  (∀ a b c d, R a b → R c d → cmp a c <= 0 ↔ cmp' b d <= 0) →
  Forall2 R l l' → Forall2 R (SortFunc cmp l) (SortFunc cmp' l').
Proof.
  intros Hc. induction 1 as [|x y l l' Hxy Hl IH]; [constructor|]. cbn. by apply Forall2_insert_by.
Qed.

Lemma insert_by_snd {A B} (cmp : B → B → Z) (x : A * B) l :
  (insert_by (λ a b, cmp a.2 b.2) x l).*2 = insert_by cmp x.2 l.*2.
Proof. induction l as [|y l IH]; [done|]. cbn. destruct (cmp x.2 y.2 <=? 0); cbn; [done|]. by rewrite IH. Qed.

Lemma SortFunc_snd {A B} (cmp : B → B → Z) (l : list (A * B)) :
  (SortFunc (λ a b, cmp a.2 b.2) l).*2 = SortFunc cmp l.*2.
Proof. induction l as [|x l IH]; [done|]. unfold SortFunc in *. cbn. by rewrite insert_by_snd, IH. Qed.

Lemma filter_snd {A B} (P : B → bool) (l : list (A * B)) :
  (filter (λ p, P p.2 = true) l).*2 = filter (λ x, P x = true) l.*2.
Proof. induction l as [|x l IH]; [done|]. rewrite fmap_cons, !filter_cons. case_decide; cbn; by rewrite IH. Qed.

Section Leasing.
Context {PW : ProtoWire} {MR : MapRange} {PD : PgDriver}.

(** The database compares text by its bytes, as Go does. *)
Context (Hbytes : ∀ a b, collate a b = strings_Compare a b).
Context (now : Time) (Hnow : whole now) (Hpos : 0 < now).

(** The same task, keyed alike. *)
Definition sameEntry (x : string * taskRow) (y : string * taskRec) : Prop :=
  x.1 = y.1 ∧ sameRow x.1 x.2 y.2.

Lemma range_map_same k b s :
  sameStore k b s → Forall2 sameEntry (range_map (br_tasks b)) (range_map (db_tasks (ps_db s))).
Proof.
  intros Hs. unfold range_map.
  assert (Hdom : dom (br_tasks b) = dom (db_tasks (ps_db s))).
  { apply set_eq. intros id. rewrite !elem_of_dom, <- !not_eq_None_Some. pose proof (ss_none _ _ _ Hs id). tauto. }
  rewrite <- Hdom. induction (range_keys (dom (br_tasks b))) as [|id keys IH]; [constructor|]. cbn.
  destruct (br_tasks b !! id) as [m|] eqn:Hm; cbn.
  - destruct (sameStore_lookup _ _ _ _ _ Hs Hm) as (p & Hp & Hrow). rewrite Hp. cbn.
    by constructor.
  - by rewrite (sameStore_absent _ _ _ _ Hs Hm).
Qed.

Lemma reached_same t at_ : reached (nullable t) at_ = negb (IsZero t) && negb (After t at_).
Proof.
  unfold reached, nullable, After. destruct (IsZero t); [done|]. cbn.
  destruct (Z.leb_spec t at_), (Z.ltb_spec at_ t); try done; lia.
Qed.

Lemma leasable_same queue x y : sameEntry x y → leasable queue now x.2 = dueForLease queue now y.2.
Proof.
  intros [_ Hr]. unfold leasable, dueForLease, expired.
  rewrite (sr_queue _ _ _ Hr), (sr_expires _ _ _ Hr), (sr_process _ _ _ Hr), reached_same.
  unfold inState. rewrite (sr_state _ _ _ Hr). unfold After.
  replace (negb (now <? row_processAt x.2)) with (row_processAt x.2 <=? now)
    by (destruct (Z.leb_spec (row_processAt x.2) now), (Z.ltb_spec now (row_processAt x.2)); done || lia).
  by destruct (row_state x.2).
Qed.

(** Priorities of a SMALLINT column are far from the wrap of the subtraction. *)
Lemma compareDue_same x y x' y' :
  sameEntry x y → sameEntry x' y' → compareDue x.2 x'.2 <= 0 ↔ byDispatch y y' <= 0.
Proof.
  intros [Hx Hr] [Hx' Hr']. unfold compareDue, byDispatch, cmp_lex. cbn.
  pose proof (sr_fits _ _ _ Hr) as Hf. pose proof (sr_fits _ _ _ Hr') as Hf'.
  unfold rowFits, smallint in Hf, Hf'. rewrite !andb_true_iff, !Z.leb_le, !Z.ltb_lt in Hf, Hf'.
  rewrite (sr_priority _ _ _ Hr) in *. rewrite (sr_priority _ _ _ Hr') in *.
  rewrite (sr_process _ _ _ Hr), (sr_process _ _ _ Hr'), (sr_id _ _ _ Hr), (sr_id _ _ _ Hr'), Hbytes, <- Hx, <- Hx'.
  destruct (Z.eqb_spec (row_priority x.2) (row_priority x'.2)) as [E|N]; cbn [negb].
  - rewrite decide_True by (by apply time_Compare_eq). unfold Equal.
    destruct (Z.eqb_spec (row_processAt x.2) (row_processAt x'.2)) as [E'|N']; cbn [negb].
    + by rewrite decide_True by (by apply time_Compare_eq).
    + by rewrite decide_False by (by rewrite time_Compare_eq).
  - rewrite decide_False by (rewrite time_Compare_eq; congruence). rewrite time_Compare_le.
    rewrite wrap32_id by (unfold int32_range; lia). lia.
Qed.

(** The rows the statement selects are the ones the loop claims, in its order. *)
Definition leaseRows (queue : string) (limit : Z) (db : Db) : list (string * taskRec) :=
  skipLocked ∅ byDispatch limit (tasksWhere (λ _, dueForLease queue now) db).

Lemma leaseRows_same k b s queue limit :
  0 < limit → sameStore k b s →
  Forall2 sameEntry (dueTasks queue limit now b) (leaseRows queue limit (ps_db s)).
Proof.
  intros Hl Hs. rewrite dueTasks_take by done. unfold leaseRows, skipLocked, tasksWhere, candidates.
  rewrite (filter_everything (λ p : string * taskRec, p.1 ∉ (∅ : gset string))) by (intros; apply not_elem_of_empty).
  apply Forall2_take, Forall2_SortFunc; [apply compareDue_same|].
  apply (Forall2_filter sameEntry (λ p, leasable queue now p.2) (λ p, dueForLease queue now p.2));
    [intros x y; apply leasable_same|by eapply range_map_same].
Qed.

(** ** The order is total *)

#[local] Instance flip_comparator {A B} (P : A → Prop) (f : A → B) (c : B → B → Z) :
  Comparator (λ _, True) c → Comparator P (λ a b, c (f b) (f a)).
Proof.
  intros Hc. split; intros.
  - by apply cmp_flip.
  - by apply (cmp_lt_trans (cmp := c) (f c0) (f b) (f a)).
  - pose proof (cmp_flip (cmp := c) (f b) (f a) I I). pose proof (cmp_flip (cmp := c) (f a) (f c0) I I).
    pose proof (cmp_flip (cmp := c) (f b) (f c0) I I).
    pose proof (cmp_eq_l (cmp := c) (f a) (f b) (f c0) I I I). lia.
Qed.

#[local] Instance byDispatch_comparator : Comparator (λ _, True) byDispatch.
Proof. unfold byDispatch. apply _. Qed.

Lemma byDispatch_eq a b : byDispatch a b = 0 → a.1 = b.1.
Proof. unfold byDispatch, cmp_lex. repeat case_decide; try done. intros E. by apply collate_eq. Qed.

(** ** The lease statement *)

Lemma leaseRows_lookup queue limit db id p :
  (id, p) ∈ leaseRows queue limit db → db_tasks db !! id = Some p ∧ dueForLease queue now p = true.
Proof.
  unfold leaseRows, skipLocked, tasksWhere. intros Hin%subseteq_take.
  rewrite SortFunc_perm in Hin. apply list_elem_of_filter in Hin as [_ Hin].
  apply list_elem_of_filter in Hin as [Hdue Hin]. by apply elem_of_range_map in Hin.
Qed.

Lemma claimRec_key lid expires queue p :
  dueForLease queue now p = true → uniqueIdxKey (claimRec lid now expires p) = uniqueIdxKey p.
Proof.
  unfold dueForLease, inState. rewrite !andb_true_iff, bool_decide_eq_true. intros [[[_ Hst%bool_decide_eq_true] _] _].
  unfold uniqueIdxKey. cbn. by destruct (pt_state p); set_solver.
Qed.

Lemma claimRec_fits lid expires p : rowFits p = true → rowFits (claimRec lid now expires p) = true.
Proof. unfold rowFits. rewrite !andb_true_iff. cbn. tauto. Qed.

Lemma claim_sorted lid expires (rows : list (string * taskRec)) :
  StronglySorted (λ a b, byDispatch a b <= 0) rows →
  StronglySorted (λ a b, byDispatch a b <= 0) ((λ y, (y.1, claimRec lid now expires y.2)) <$> rows).
Proof.
  induction 1 as [|x rows Hs IH Hx]; cbn; constructor; [done|].
  rewrite Forall_fmap. eapply Forall_impl; [exact Hx|]. by intros y.
Qed.

(** The trailing ORDER BY puts the updated rows back into the order of the
    selection. *)
Lemma returned_in_order (tasks : gmap string taskRec) rows (f : taskRec → taskRec) updated :
  (∀ y, y ∈ rows → tasks !! y.1 = Some (f y.2)) →
  updated ≡ₚ omap (λ id, pair id <$> tasks !! id) rows.*1 →
  StronglySorted (λ a b, byDispatch a b <= 0) ((λ y, (y.1, f y.2)) <$> rows) →
  ((λ y, (y.1, f y.2)) <$> rows) = SortFunc byDispatch updated.
Proof.
  intros Hin Hperm Hs.
  assert (Hrows : omap (λ id, pair id <$> tasks !! id) rows.*1 = (λ y, (y.1, f y.2)) <$> rows).
  { clear -Hin. induction rows as [|y rows IH]; [done|]. cbn.
    rewrite (Hin y) by (apply elem_of_cons; by left). cbn. f_equal. apply IH. intros z Hz. apply Hin.
    apply elem_of_cons. by right. }
  apply (SortFunc_unique (λ _, True) byDispatch); [by apply Forall_forall| |by rewrite Hperm, Hrows|done].
  intros a c Ha Hc E%byDispatch_eq. rewrite Hperm in Ha, Hc.
  apply list_elem_of_omap in Ha as (i & _ & Ha). apply list_elem_of_omap in Hc as (j & _ & Hc).
  destruct (tasks !! i) eqn:?, (tasks !! j) eqn:?; cbn in *; simplify_eq. cbn in E. congruence.
Qed.

Lemma leaseQuery_claims k b s queue limit lid expires :
  0 < limit → sameStore k b s →
  let rows := leaseRows queue limit (ps_db s) in
  ∃ tasks, leaseQuery ∅ queue limit lid now expires (ps_db s) =
      inr ((ps_db s) <| db_tasks := tasks |>, (λ y, (y.1, claimRec lid now expires y.2)) <$> rows) ∧
    uniqueIdxHolds tasks = true ∧
    ∀ id, tasks !! id = if decide (id ∈ rows.*1) then claimRec lid now expires <$> db_tasks (ps_db s) !! id
                        else db_tasks (ps_db s) !! id.
Proof.
  intros Hl Hs rows. pose proof (leaseRows_same k b s queue limit Hl Hs) as Hsame. fold rows in Hsame.
  assert (Hids : rows.*1 = (dueTasks queue limit now b).*1).
  { symmetry. induction Hsame as [|x y l l' [E _] _ IH]; [done|]. cbn. by rewrite E, IH. }
  assert (Hnd : NoDup rows.*1) by (rewrite Hids; apply (dueTasks_selection queue limit now b)).
  assert (Hrow : ∀ id p, (id, p) ∈ rows → db_tasks (ps_db s) !! id = Some p ∧ dueForLease queue now p = true)
    by (intros id p; apply leaseRows_lookup).
  destruct (updateTasks_ok rows.*1 (claimRec lid now expires) (ps_db s) Hnd (ss_unique _ _ _ Hs))
    as (tasks & updated & Hq & Hu & Hlook & Hperm).
  { intros id p Hin Hp. apply list_elem_of_fmap in Hin as ([id' p'] & -> & Hin).
    destruct (Hrow _ _ Hin) as [Hp' Hdue]. cbn in Hp. rewrite Hp in Hp'. injection Hp' as ->.
    split; [|right; by eapply claimRec_key]. apply claimRec_fits.
    destruct (br_tasks b !! id') as [m|] eqn:Hm.
    - apply (sr_fits id' m p'). by apply (ss_rows _ _ _ Hs).
    - rewrite (sameStore_absent _ _ _ _ Hs Hm) in Hp. done. }
  exists tasks. split_and!; [|done|done]. unfold leaseQuery, thenReturning. fold (leaseRows queue limit (ps_db s)).
  fold rows. rewrite Hq. f_equal. f_equal. symmetry.
  apply (returned_in_order tasks rows (claimRec lid now expires)); [|done|].
  - intros [id p] Hin. destruct (Hrow _ _ Hin) as [Hp _]. cbn.
    rewrite Hlook, decide_True, Hp by (by apply (list_elem_of_fmap_2 fst) in Hin). done.
  - apply claim_sorted. unfold rows, leaseRows, skipLocked.
    set (l := SortFunc _ _). assert (Hsl : StronglySorted (λ a b, byDispatch a b <= 0) l).
    { apply (SortFunc_sorted (λ _, True) byDispatch). by apply Forall_forall. }
    rewrite <- (take_drop (Z.to_nat limit) l) in Hsl. by eapply StronglySorted_app_1_l.
Qed.

(** ** What a lease hands out *)

(** The envelope the durable broker returns: the stored one with the columns it
    overlays on a lease. *)
Definition delivered (m : taskRow) : TaskEnvelope :=
  (row_envelope m) <| env_Retried := row_retried m |> <| env_LastError := row_lastError m |>.

(** The work an envelope describes, without the due time and the execution stamps
    the in-memory broker adds to it. *)
Definition work (e : TaskEnvelope) : TaskEnvelope :=
  e <| env_Options := Some ((GetOptions e) <| opt_ProcessAt := None |>) |>
    <| env_StartedAt := None |> <| env_CompletedAt := None |>
    <| env_Progress := 0 |> <| env_ProgressMessage := "" |>.

Lemma work_overlay m : work (overlay m) = work (delivered m).
Proof.
  unfold work, overlay, delivered. by destruct (IsZero (row_startedAt m)), (IsZero (row_completedAt m)).
Qed.

Lemma scan_claimed lid expires due rows :
  Forall2 sameEntry due rows →
  scanEnvelopes ((λ y, (y.1, claimRec lid now expires y.2)) <$> rows) = inr ((λ x, delivered x.2) <$> due).
Proof.
  unfold scanEnvelopes. induction 1 as [|x y due rows [_ Hr] _ IH]; [done|]. cbn. rewrite IH.
  unfold unmarshalEnvelope. cbn. rewrite (sr_payload _ _ _ Hr), (sr_retried _ _ _ Hr), (sr_error _ _ _ Hr). done.
Qed.

(** ** The events of a lease *)

Definition leaseEvents (due : list (string * taskRow)) : list TaskEvent :=
  omap (λ x, Derive TASK_STATE_PENDING TASK_STATE_ACTIVE (env_Id (row_envelope x.2))
    (env_Queue (row_envelope x.2)) (env_Type (row_envelope x.2)) (row_lastError x.2) (row_retried x.2) now) due.

Lemma claim_events ttl lid due b :
  Forall (λ x, dispatchable (row_state x.2) = true) due →
  br_sink (claim now ttl lid due b).1 = br_sink b ∧
  br_emitted (claim now ttl lid due b).1 =
    if br_sink b then br_emitted b ++ leaseEvents due else br_emitted b.
Proof.
  intros Hd. revert b. induction Hd as [|[id row] due Hst _ IH]; intros b.
  { cbn. destruct (br_sink b); [by rewrite app_nil_r|done]. }
  cbn [claim]. set (b1 := emit_row _ _ _ _ _). destruct (IH b1) as [Hs He].
  destruct (claim now ttl lid due b1) as [b' leased]. cbn [fst] in *.
  assert (H1 : br_sink b1 = br_sink b ∧ br_emitted b1 =
    if br_sink b then br_emitted b ++ leaseEvents [(id, row)] else br_emitted b).
  { cbn in Hst. unfold b1, emit_row, Memory.emit, put_row. cbn. destruct (br_sink b) eqn:Hb; [|done].
    replace (Derive (row_state row) TASK_STATE_ACTIVE) with (Derive TASK_STATE_PENDING TASK_STATE_ACTIVE)
      by (by destruct (row_state row)).
    destruct (Derive _ _ _ _ _ _ _ _); cbn; [done|]. by rewrite app_nil_r. }
  destruct H1 as [H1 H2]. rewrite Hs, He, H1. split; [done|]. rewrite H2.
  destruct (br_sink b); [|done]. unfold leaseEvents. cbn.
  destruct (Derive _ _ _ _ _ _ _ _); cbn; [by rewrite <- app_assoc|]. by rewrite app_nil_r.
Qed.

Lemma emitLeased_events (due : list (string * taskRow)) s :
  emitLeased ((λ x, delivered x.2) <$> due) now s =
    (s <| ps_emitted := if ps_sink s then ps_emitted s ++ leaseEvents due else ps_emitted s |>, inr ()).
Proof.
  revert s. induction due as [|x due IH]; intros s.
  { cbn. destruct s as [? sink ? ? ? ?]; cbn. destruct sink; [by rewrite app_nil_r|done]. }
  cbn [fmap list_fmap emitLeased]. unfold bind, PostgresBroker.emit, emitEvent, leaseEvents, delivered. cbn.
  destruct s as [db sink emitted faults locked server]. cbn. destruct sink; cbn.
  - destruct (Derive _ _ _ _ _ _ _ _) as [event|]; cbn; rewrite IH; cbn; [|done].
    unfold leaseEvents. by rewrite <- app_assoc.
  - by rewrite IH.
Qed.

Lemma claim_same id m p lid ttl :
  sameRow id m p → sameRow id (claim_row now ttl lid m) (claimRec lid now (time_Add now ttl) p).
Proof.
  intros []. split; cbn; try done.
  - by rewrite nullable_now.
  - by apply claimRec_fits.
Qed.

Lemma Lease_sim k b s queue limit ttl lid :
  whole ttl → sameStore k b s →
  let mem := Memory.Lease queue limit ttl lid now b in
  let out := PostgresBroker.Lease queue limit ttl lid now s in
  sameStore k mem.1 out.1 ∧ ∃ leased, out.2 = inr leased ∧ work <$> mem.2 = work <$> leased.
Proof.
  intros Httl Hs. unfold Memory.Lease, PostgresBroker.Lease. cbn zeta.
  destruct (Z.leb_spec limit 0) as [Hl|Hl]; [split; [done|by exists []]|].
  rewrite (timestamptz_id now Hnow), (timestamptz_id _ (whole_add now ttl Hnow Httl)).
  pose proof (leaseRows_same k b s queue limit Hl Hs) as Hsame.
  destruct (leaseQuery_claims k b s queue limit lid (time_Add now ttl) Hl Hs) as (tasks & Hq & Hu & Hlook).
  set (due := dueTasks queue limit now b) in *. set (rows := leaseRows queue limit (ps_db s)) in *.
  pose proof (dueTasks_selection queue limit now b) as Hsel. fold due in Hsel.
  destruct (claim_effect now ttl lid due b Hsel) as (Ht & Hres & Hdep).
  destruct (claim_events ttl lid due b) as [Hsink Hev].
  { apply Forall_forall. by intros [id row] [_ (_ & Hd & _)%leasable_spec]%dueTasks_leasable. }
  assert (Hids : rows.*1 = due.*1).
  { symmetry. clear -Hsame. induction Hsame as [|x y l l' [E _] _ IH]; [done|]. cbn. by rewrite E, IH. }
  rewrite (bind_inr _ _ s (s <| ps_db := (ps_db s) <| db_tasks := tasks |> |>)
    ((λ y, (y.1, claimRec lid now (time_Add now ttl) y.2)) <$> rows)).
  2:{ apply wrapping_inr. unfold execLocked. rewrite (ss_locked _ _ _ Hs).
      by apply exec_answers; [apply (ss_faults _ _ _ Hs)|]. }
  rewrite (scan_claimed lid (time_Add now ttl) due rows Hsame). cbn [orFailing].
  unfold bind, ret. rewrite emitLeased_events. cbn [fst snd].
  split; [|exists ((λ x, delivered x.2) <$> due); split; [done|]].
  - destruct Hs as [Hn Hr Hux Hsk He Hf Hlo Hwa Hed Hroom]. split; cbn [ps_db ps_sink ps_emitted ps_faults ps_locked db_tasks set].
    + intros id. rewrite Ht, Hlook, fmap_None, Hn. case_decide; [by rewrite fmap_None|done].
    + intros id m p. rewrite Ht, Hlook, Hids. intros (m0 & Hm0 & ->)%fmap_Some. case_decide as Hin.
      * intros (p0 & Hp0 & ->)%fmap_Some. apply claim_same. by apply Hr.
      * intros Hp0. by apply Hr.
    + done.
    + by rewrite Hsink.
    + rewrite Hev, Hsk, He. done.
    + done.
    + done.
    + by rewrite Hdep.
    + done.
    + intros id m. rewrite Ht. intros (m0 & Hm0 & ->)%fmap_Some. specialize (Hroom id m0 Hm0).
      by case_decide.
  - rewrite Hres. rewrite <- !list_fmap_compose. apply list_fmap_ext. intros i x _. apply work_overlay.
Qed.

(** ** Listing *)

Lemma matches_same query x y :
  sameEntry x y →
  matchesQuery query x.2 =
    (bool_decide (query_Queue query = "") || bool_decide (pt_queue y.2 = query_Queue query)) &&
    (bool_decide (query_State query = TASK_STATE_UNSPECIFIED) || bool_decide (pt_state y.2 = query_State query)) &&
    (bool_decide (query_AfterID query = "") || (collate y.1 (query_AfterID query) <? 0)).
Proof.
  intros [Hx Hr]. unfold matchesQuery.
  by rewrite Hbytes, <- Hx, (sr_queue _ _ _ Hr), (sr_state _ _ _ Hr), (sr_id _ _ _ Hr).
Qed.

Lemma take_limit {A} (l : list A) limit :
  (if limit <? Z.of_nat (length l) then take (Z.to_nat limit) l else l) = take (Z.to_nat limit) l.
Proof. destruct (Z.ltb_spec limit (Z.of_nat (length l))); [done|]. symmetry. apply take_ge. lia. Qed.

Lemma scan_listed (rows : list (string * taskRow)) (recs : list (string * taskRec)) :
  Forall2 sameEntry rows recs →
  scanRows (λ row, match readEnvelope row with
                   | inl err => inl err
                   | inr envelope => inr (mkTaskRecord envelope (pt_state row))
                   end) recs.*2 =
    inr ((λ row, mkTaskRecord (overlay row) (row_state row)) <$> rows.*2).
Proof.
  induction 1 as [|x y rows recs [_ Hr] _ IH]; [done|]. cbn [fmap list_fmap scanRows].
  rewrite (readEnvelope_same _ _ _ Hr), (sr_state _ _ _ Hr). by rewrite IH.
Qed.

Lemma ListTasks_sim k b s query :
  sameStore k b s → PostgresBroker.ListTasks query s = (s, inr (Memory.ListTasks query b)).
Proof.
  intros Hs. unfold PostgresBroker.ListTasks, Memory.ListTasks. cbv zeta. rewrite take_limit.
  set (limit := EffectiveListLimit _).
  rewrite (bind_inr _ _ s s (take (Z.to_nat limit) (SortFunc (λ a b, collate b.1 a.1) (tasksWhere (λ id row,
     (bool_decide (query_Queue query = "") || bool_decide (pt_queue row = query_Queue query)) &&
     (bool_decide (query_State query = TASK_STATE_UNSPECIFIED) ||
      bool_decide (pt_state row = query_State query)) &&
     (bool_decide (query_AfterID query = "") || (collate id (query_AfterID query) <? 0))) (ps_db s)))).*2).
  2:{ apply wrapping_inr. rewrite <- (set_db_same s) at 2. by apply exec_answers; [apply (ss_faults _ _ _ Hs)|]. }
  rewrite (scan_listed (take (Z.to_nat limit) (SortFunc (λ a b, compareNewest a.2 b.2)
    (filter (λ p, matchesQuery query p.2 = true) (range_map (br_tasks b)))))).
  - cbn [orFailing ret]. unfold ret. do 3 f_equal.
    by rewrite fmap_take, (SortFunc_snd compareNewest), (filter_snd (matchesQuery query)).
  - apply Forall2_take, Forall2_SortFunc.
    + intros x y x' y' [Hx Hr] [Hx' Hr']. unfold compareNewest.
      by rewrite Hbytes, <- Hx, <- Hx', (sr_id _ _ _ Hr), (sr_id _ _ _ Hr').
    + unfold tasksWhere. apply (Forall2_filter sameEntry (λ p, matchesQuery query p.2) (λ p,
        (bool_decide (query_Queue query = "") || bool_decide (pt_queue p.2 = query_Queue query)) &&
        (bool_decide (query_State query = TASK_STATE_UNSPECIFIED) || bool_decide (pt_state p.2 = query_State query)) &&
        (bool_decide (query_AfterID query = "") || (collate p.1 (query_AfterID query) <? 0))));
        [intros x y; apply matches_same|by eapply range_map_same].
Qed.
End Leasing.
