(* ===== verification/PostgresRefines.v ===== *)
(** * The PostgreSQL broker refines the in-memory broker

    From fresh brokers every sequence of the requests of a task's life gets the same
    answers and emits the same events from both. *)

From S2P Require Import Prelude Proto Events BrokerApi Memory MemoryFacts MemoryInv MemoryLease Encryption BrokerCalls Postgres PostgresBroker PostgresFanIn PostgresSim PostgresLease.
From Stdlib Require Import Strings.Byte.

#[local] Open Scope Z_scope.

Section Refinement.
Context {PW : ProtoWire} {MR : MapRange} {PD : PgDriver}.

(** ** Enqueueing *)

(** A task outside uniqueness, groups and dependencies, whose message marshals,
    whose integers fit the columns and whose instants are whole microseconds. *)
Definition plainTask (task : TaskEnvelope) : Prop :=
  let options := GetOptions task in
  is_Some (marshalEnvelope task) ∧
  opt_UniqueKey options = "" ∧ opt_Group options = "" ∧ opt_DependsOn options = [] ∧
  smallint (opt_Priority options) = true ∧ integer (opt_MaxRetry options) = true ∧
  env_Retried task = 0 ∧
  (∀ t, opt_ProcessAt options = Some t → whole t) ∧
  (∀ t, opt_ExpiresAt options = Some t → whole t ∧ t ≠ 0) ∧
  (∀ t, env_EnqueuedAt task = Some t → whole t).

Context (now : Time) (Hnow : whole now) (Hpos : 0 < now).

(** The row each broker stores for a plain task. *)
Definition plainState (task : TaskEnvelope) : TaskState :=
  if After (default now (opt_ProcessAt (GetOptions task))) now then TASK_STATE_SCHEDULED
  else TASK_STATE_PENDING.
Definition plainRow (task : TaskEnvelope) : taskRow :=
  stage_row task now (plainState task) (default now (opt_ProcessAt (GetOptions task))) ∅.

Lemma stage_plain task b :
  plainTask task →
  Memory.Enqueue task now b =
    (if decide (is_Some (br_tasks b !! env_Id task)) then b
     else Memory.emit TASK_STATE_UNSPECIFIED (plainState task) (env_Id task) (env_Queue task) (env_Type task)
            (env_LastError task) (env_Retried task) now (put_row (env_Id task) (plainRow task) b), None).
Proof.
  intros (_ & Hk & Hg & Hd & _). unfold Memory.Enqueue, stageEnqueue.
  case_decide as Hin; [done|]. rewrite decide_False by set_solver. rewrite Hk, Hg, Hd. cbn.
  rewrite (bool_decide_true ("" = "")) by done. rewrite decide_True by done. cbn.
  unfold applyStaged. cbn. assert (Hnil : range_keys (dom (∅ : gmap string DependencyFailurePolicy)) = []).
  { apply Permutation_nil_r. by rewrite range_keys_perm, dom_empty_L, elements_empty. }
  rewrite Hnil. done.
Qed.

Lemma prepare_plain task :
  plainTask task →
  ∃ prepared, prepareEnqueue task now = inr prepared ∧
    pe_uniqueKey prepared = None ∧ pe_edges prepared = [] ∧ pe_state prepared = plainState task ∧
    uniqueIdxKey (pe_buildArguments prepared (plainState task)) = None ∧
    sameRow (env_Id task) (plainRow task) (pe_buildArguments prepared (plainState task)).
Proof.
  intros ([w Hw] & Hk & Hg & Hd & Hpr & Hmr & Hre & Hpa & Hex & Hen). unfold prepareEnqueue.
  rewrite Hk, Hg, Hd, Hw. cbn. eexists. split; [reflexivity|]. cbn. split_and!; try done.
  - unfold uniqueIdxKey. cbn. by destruct (plainState task).
  - split; cbn; rewrite ?Hk, ?Hg; try done.
    + by apply unmarshal_marshal.
    + apply timestamptz_id. destruct (opt_ProcessAt (GetOptions task)) eqn:E; cbn; [by apply Hpa|done].
    + destruct (opt_ExpiresAt (GetOptions task)) as [t|] eqn:E; cbn; [|done].
      destruct (Hex t eq_refl) as [Hwh Hnz]. rewrite timestamptz_id by done. unfold nullable, IsZero.
      by rewrite (proj2 (Z.eqb_neq t 0)).
    + unfold plainState. by destruct (After _ _).
    + unfold plainState. by destruct (After _ _).
    + apply timestamptz_id. destruct (env_EnqueuedAt task) eqn:E; cbn; [by apply Hen|done].
    + unfold rowFits. cbn. rewrite Hre, Hpr, Hmr. done.
Qed.

Lemma Enqueue_sim k b s task :
  plainTask task → 0 <= k < 2 ^ 31 → sameStore (k + 1) b s →
  let mem := Memory.Enqueue task now b in
  let out := PostgresBroker.Enqueue task now s in
  sameStore k mem.1 out.1 ∧ out.2 = outcome mem.2.
Proof.
  intros Hpl Hk Hs. rewrite (stage_plain task b Hpl). cbn zeta. unfold PostgresBroker.Enqueue.
  destruct (prepare_plain task Hpl) as (prepared & -> & Huk & Hed & Hst & Hkey & Hrow).
  rewrite (decide_True (P := pe_uniqueKey prepared = None ∧ _)) by done. rewrite Hst. set (id := env_Id task) in *.
  set (p := pe_buildArguments prepared (plainState task)) in *.
  assert (Hs' : sameStore k b s) by (by apply (sameStore_room (k + 1)); [lia|]).
  assert (Hq : ∀ db n, insertTaskQuery id p (ps_db s) = inr (db, n) →
    wrapping "postgres: insert task" (exec (insertTaskQuery id p)) s = (s <| ps_db := db |>, inr n)).
  { intros db n E. apply wrapping_inr, exec_answers; [apply (ss_faults _ _ _ Hs)|done]. }
  destruct (br_tasks b !! id) as [m|] eqn:Hm.
  - destruct (sameStore_lookup _ _ _ _ _ Hs Hm) as (p' & Hp' & _).
    rewrite decide_True by done. rewrite (bind_inr _ _ _ _ _ (Hq (ps_db s) 0 ltac:(
      unfold insertTaskQuery; by rewrite (sr_fits _ _ _ Hrow), Hp'))), set_db_same. done.
  - rewrite decide_False by (by intros ?%is_Some_None). pose proof (sameStore_absent _ _ _ _ Hs Hm) as Hp.
    assert (Hu : uniqueIdxHolds (<[id := p]> (db_tasks (ps_db s))) = true).
    { apply (uniqueIdxHolds_mono (db_tasks (ps_db s))); [apply (ss_unique _ _ _ Hs)|].
      intros id' q key [[<- <-]|[_ Hl]]%lookup_insert_Some Hq'; [congruence|eauto]. }
    rewrite (bind_inr _ _ _ _ _ (Hq _ 1 ltac:(
      unfold insertTaskQuery; by rewrite (sr_fits _ _ _ Hrow), Hp, Hu))). cbn [Z.ltb Z.compare].
    assert (Hput : sameStore k (put_row id (plainRow task) b)
      (s <| ps_db := (ps_db s) <| db_tasks := <[id := p]> (db_tasks (ps_db s)) |> |>)).
    { apply sameStore_put; [done|done| |done]. cbn. destruct Hpl as (_ & _ & _ & _ & _ & _ & -> & _). lia. }
    destruct (sameStore_emit k _ _ TASK_STATE_UNSPECIFIED TASK_STATE_UNSPECIFIED (plainState task) id
      (env_Queue task) (env_Type task) (env_LastError task) (env_Retried task) now Hput eq_refl) as (s' & He & Hs'').
    rewrite He. done.
Qed.

Lemma SetEventSink_sim k b s :
  sameStore k b s → sameStore k (Memory.SetEventSink b) (PostgresBroker.SetEventSink s).
Proof. by intros []. Qed.
End Refinement.

(** ** Sequences of calls *)

Section Life.
Context {PW : ProtoWire} {MR : MapRange} {PD : PgDriver}.

(** The requests of a task's life. *)
Definition lifeRequest (r : request) : Prop :=
  match r with
  | REnqueue task => plainTask task
  | RLease _ _ ttl _ | RExtendLease _ _ ttl => whole ttl
  | RSetProgress _ _ percent _ => 0 <= percent
  | RFail _ _ _ at_ | RRescheduleTask _ at_ => whole at_
  | RAck _ _ _ | RRelease _ _ | RArchive _ _ _ | RCancelTask _ | RArchiveTask _ | RRunTaskNow _
  | RDeleteTask _ | RGetTask _ | RListTasks _ | RSetEventSink => True
  | _ => False
  end.

(** Answers alike: leased tasks by the work they describe, the rest as they are. *)
Definition sameReply (rep rep' : reply) : Prop :=
  match rep, rep' with
  | Tasks tasks, Tasks tasks' => work <$> tasks = work <$> tasks'
  | _, _ => rep = rep'
  end.

(** The replies to a list of calls, each at a clock reading. *)
Fixpoint runCalls {B} (brk : broker B) (calls : list (Time * request)) (b : B) : B * list reply :=
  match calls with
  | [] => (b, [])
  | (now, r) :: calls =>
      let '(b, rep) := brk now r b in
      let '(b, replies) := runCalls brk calls b in
      (b, rep :: replies)
  end.

Lemma errorOnly_sim k (mem : Broker * option BrokerError) (m : pg callError unit) s :
  sameStore k mem.1 (m s).1 ∧ (m s).2 = outcome mem.2 →
  let '(b', rep) := errorOnly mem in
  let '(s', rep') := answering returned m s in
  sameStore k b' s' ∧ sameReply rep rep'.
Proof.
  unfold errorOnly, answering. destruct (m s) as [s' r], mem as [b' err]. cbn. intros [Hs ->].
  split; [done|]. by destruct err.
Qed.

Lemma life_step k now r b s :
  (∀ x y, collate x y = strings_Compare x y) → whole now → 0 < now → lifeRequest r →
  0 <= k < 2 ^ 31 → sameStore (k + 1) b s →
  let '(b', rep) := memory now r b in
  let '(s', rep') := postgres now r s in
  sameStore k b' s' ∧ sameReply rep rep'.
Proof.
  intros Hbytes Hnow Hpos Hr Hk Hs. assert (Hs' : sameStore k b s) by (by apply (sameStore_room (k + 1)); [lia|]).
  destruct r; try done; cbn [memory postgres]; try (apply errorOnly_sim).
  - by apply Enqueue_sim.
  - pose proof (Lease_sim Hbytes now Hnow Hpos k b s queue limit ttl leaseID Hr Hs') as H.
    cbn zeta in H. unfold replying, answering. destruct (PostgresBroker.Lease _ _ _ _ _ _) as [s' r].
    cbn [fst snd] in H. destruct H as [Hsame (leased & -> & Hw)]. done.
  - by apply SetProgress_sim.
  - by apply ExtendLease_sim.
  - by apply Ack_sim.
  - apply Fail_sim; [done..|lia|done].
  - by apply Release_sim.
  - by apply Archive_sim.
  - unfold answering. rewrite (GetTask_sim k b s id Hs'). split; [done|].
    by destruct (Memory.GetTask id b) as [[task state]|err].
  - unfold answering. by rewrite (ListTasks_sim Hbytes k b s query Hs').
  - by apply CancelTask_sim.
  - by apply (DeleteTask_sim now).
  - by apply RunTaskNow_sim.
  - by apply RescheduleTask_sim.
  - by apply ArchiveTask_sim.
  - split; [|done]. by apply SetEventSink_sim.
Qed.

Lemma life_run k calls b s :
  (∀ x y, collate x y = strings_Compare x y) →
  Forall (λ c, whole c.1 ∧ 0 < c.1 ∧ lifeRequest c.2) calls →
  0 <= k → k + Z.of_nat (length calls) <= 2 ^ 31 → sameStore (k + Z.of_nat (length calls)) b s →
  sameStore k (runCalls memory calls b).1 (runCalls postgres calls s).1 ∧
  Forall2 sameReply (runCalls memory calls b).2 (runCalls postgres calls s).2.
Proof.
  intros Hbytes Hall Hk. revert b s. induction Hall as [|[now r] calls (Hw & Hp & Hr) _ IH]; intros b s Hlen Hs.
  { cbn in *. by rewrite Z.add_0_r in Hs. }
  cbn [length] in *. rewrite Nat2Z.inj_succ in *. cbn in Hw, Hp, Hr.
  pose proof (life_step (k + Z.of_nat (length calls)) now r b s Hbytes Hw Hp Hr ltac:(lia)
    ltac:(by replace (k + Z.of_nat (length calls) + 1) with (k + Z.succ (Z.of_nat (length calls))) by lia)) as Hstep.
  cbn [runCalls]. destruct (memory now r b) as [b' rep], (postgres now r s) as [s' rep'].
  destruct Hstep as [Hs' Hrep]. destruct (IH b' s' ltac:(lia) Hs') as [Hs'' Hreps].
  destruct (runCalls memory calls b') as [b'' reps], (runCalls postgres calls s') as [s'' reps']. cbn in *.
  split; [done|]. by constructor.
Qed.

Lemma fresh_same info : sameStore (2 ^ 31) New (NewWithPool info).
Proof. split; cbn; try done; intros id m; rewrite lookup_empty; done. Qed.

(** C8: on the life of tasks outside uniqueness keys, groups and dependencies the
    PostgreSQL broker refines the in-memory one. From fresh brokers, under bytewise
    collation, with clock readings and instants of whole microseconds, integers
    that fit their columns and progress that is not negative, every sequence of fewer than 2^31 requests (enqueue,
    lease, extend, progress, ack, fail, release, archive, cancel, run now,
    reschedule, delete, read, list) is answered alike by both, refusals and errors
    included; the replies are equal, except that the tasks of a lease are compared
    without the due time, the execution stamps and the progress that only the
    in-memory broker adds to them. The two emit the same events in the same order,
    and reading any task or listing any page afterwards gives the same. *)
Theorem postgres_refines_memory (info : serverInfo) (calls : list (Time * request)) :
  (∀ x y, collate x y = strings_Compare x y) →
  Forall (λ c, whole c.1 ∧ 0 < c.1 ∧ lifeRequest c.2) calls →
  Z.of_nat (length calls) < 2 ^ 31 →
  let '(b, replies) := runCalls memory calls New in
  let '(s, replies') := runCalls postgres calls (NewWithPool info) in
  Forall2 sameReply replies replies' ∧ ps_emitted s = br_emitted b ∧
  (∀ id, (PostgresBroker.GetTask id s).2 =
    match Memory.GetTask id b with inl found => inr found | inr err => inl (EBroker err) end) ∧
  ∀ query, (PostgresBroker.ListTasks query s).2 = inr (Memory.ListTasks query b).
Proof.
  intros Hbytes Hall Hlen.
  assert (Hs : sameStore (0 + Z.of_nat (length calls)) New (NewWithPool info)).
  { apply (sameStore_room (2 ^ 31)); [lia|]. apply fresh_same. }
  destruct (life_run 0 calls New (NewWithPool info) Hbytes Hall ltac:(lia) ltac:(lia) Hs) as [Hsame Hreps].
  destruct (runCalls memory calls New) as [b replies],
    (runCalls postgres calls (NewWithPool info)) as [s replies']. cbn in *.
  split_and!; [done|apply (ss_emitted _ _ _ Hsame)|intros id; by rewrite (GetTask_sim 0 b s id Hsame)|].
  intros query. by rewrite (ListTasks_sim Hbytes 0 b s query Hsame).
Qed.
End Life.

(** ** A life *)

Definition letter : TaskEnvelope :=
  mkTaskEnvelope "t1" "mail" "send" [] "" ∅ (Some (emptyTaskOptions <| opt_MaxRetry := 3 |>)) 0 "" None None None 0 "".

Definition letterLife : list (Time * request) :=
  [(1000, RSetEventSink); (1000, REnqueue letter); (2000, RLease "mail" 10 60000 "l1");
   (3000, RFail "t1" "l1" "bounced" 5000); (6000, RLease "mail" 10 60000 "l2");
   (7000, RAck "t1" "l1" []); (8000, RArchive "t1" "l2" "gone"); (9000, RRunTaskNow "t1");
   (10000, RListTasks (mkTaskQuery "mail" TASK_STATE_UNSPECIFIED 10 "")); (11000, RDeleteTask "t1");
   (12000, RGetTask "t1")].

Lemma postgres_refines_memory_witness :
  let calls := letterLife in
  let '(b, replies) := runCalls (memory (MR := elements_range)) calls New in
  let '(s, replies') := runCalls (postgres (PW := plainWire) (MR := elements_range) (PD := microDriver)) calls
                          (NewWithPool (PW := plainWire) someServer) in
  Forall2 sameReply replies replies' ∧ length (ps_emitted s) = 6%nat ∧
  nth_error replies' 5 = Some (Failed (EBroker ErrLeaseLost)).
Proof.
  pose proof (postgres_refines_memory (PW := plainWire) (MR := elements_range) (PD := microDriver) someServer letterLife)
    as H.
  assert (Hcalls : Forall (λ c, whole c.1 ∧ 0 < c.1 ∧ lifeRequest (PW := plainWire) c.2) letterLife).
  { assert (Hw : ∀ n, whole (n * 1000)) by (intros n; by exists n).
    repeat (apply Forall_cons; split); [..|apply Forall_nil; done]; cbn -[Z.mul];
      (split; [first [apply (Hw 1)|apply (Hw 2)|apply (Hw 3)|apply (Hw 6)|apply (Hw 7)|apply (Hw 8)|apply (Hw 9)|apply (Hw 10)|apply (Hw 11)|apply (Hw 12)]|split; [lia|]]);
      try exact I; try apply (Hw 60); try apply (Hw 5).
    split_and!; try done. }
  specialize (H (λ x y, eq_refl) Hcalls ltac:(cbn; lia)). cbn zeta.
  assert (Hlen : length (ps_emitted (runCalls (postgres (PW := plainWire) (MR := elements_range) (PD := microDriver))
    letterLife (NewWithPool (PW := plainWire) someServer)).1) = 6%nat) by (vm_compute; reflexivity).
  assert (Hnth : nth_error (runCalls (postgres (PW := plainWire) (MR := elements_range) (PD := microDriver))
    letterLife (NewWithPool (PW := plainWire) someServer)).2 5 = Some (Failed (EBroker ErrLeaseLost)))
    by (vm_compute; reflexivity).
  destruct (runCalls (memory (MR := elements_range)) letterLife New) as [b replies],
    (runCalls (postgres (PW := plainWire) (MR := elements_range) (PD := microDriver)) letterLife
       (NewWithPool (PW := plainWire) someServer)) as [s replies'].
  destruct H as (Hreps & _). split_and!; [exact Hreps|exact Hlen|exact Hnth].
Defined.
