(* ===== verification/Encrypted.v ===== *)
(** * The encrypting broker (internal/broker/encrypted/encrypted.go)

    A decorator that seals task payloads, cron payloads and results on the way
    into the broker it wraps and opens payloads on the way out. The calls that
    carry neither delegate. [rnd i] is the randomness of the [i]-th item a call
    seals. *)

From S2P Require Import Prelude Proto BrokerApi Encryption BrokerCalls.
From Stdlib Require Import Strings.Byte.

Section Encrypted.
Context {B E : Type} `{Encryptor E} (encryptor : E).

(** An empty payload or result stays as it is. *)
Definition sealBytes (entropy data : list byte) : callError + list byte :=
  if decide (length data = 0%nat) then inr data
  else
    match Encrypt encryptor entropy data with
    | inl err => inl (EEncryption err)
    | inr sealed => inr sealed
    end.

Definition openBytes (data : list byte) : callError + list byte :=
  if decide (length data = 0%nat) then inr data
  else
    match Decrypt encryptor data with
    | inl err => inl (EEncryption err)
    | inr plaintext => inr plaintext
    end.

(** The loops over a slice: the first error ends them. *)
Fixpoint tryEach {A C} (f : nat → A → callError + C) (i : nat) (l : list A) : callError + list C :=
  match l with
  | [] => inr []
  | x :: l =>
      match f i x with
      | inl err => inl err
      | inr y => match tryEach f (S i) l with inl err => inl err | inr ys => inr (y :: ys) end
      end
  end.

Definition sealEnvelope (entropy : list byte) (task : TaskEnvelope) : callError + TaskEnvelope :=
  match sealBytes entropy (env_Payload task) with
  | inl err => inl err
  | inr sealed => inr (task <| env_Payload := sealed |>)
  end.

Definition openEnvelope (task : TaskEnvelope) : callError + TaskEnvelope :=
  match openBytes (env_Payload task) with
  | inl err => inl err
  | inr plaintext => inr (task <| env_Payload := plaintext |>)
  end.

Definition openEnvelopes (tasks : list TaskEnvelope) : callError + list TaskEnvelope :=
  tryEach (λ _, openEnvelope) 0 tasks.

Definition openCronEntry (entry : CronEntry) : callError + CronEntry :=
  match openBytes (cron_Payload entry) with
  | inl err => inl err
  | inr plaintext => inr (entry <| cron_Payload := plaintext |>)
  end.

Definition openCronEntries (entries : list CronEntry) : callError + list CronEntry :=
  tryEach (λ _, openCronEntry) 0 entries.

Definition orFail {A} (f : A → reply) (r : callError + A) : reply :=
  match r with inl err => Failed err | inr x => f x end.

Section Calls.
Context (inner : broker B) (rnd : nat → list byte) (now : Time).

Definition enc_Enqueue (task : TaskEnvelope) (b : B) : B * reply :=
  match sealEnvelope (rnd 0) task with
  | inl err => (b, Failed err)
  | inr sealed => inner now (REnqueue sealed) b
  end.

Definition enc_EnqueueBatch (tasks : list TaskEnvelope) (b : B) : B * reply :=
  match tryEach (λ i, sealEnvelope (rnd i)) 0 tasks with
  | inl err => (b, Failed err)
  | inr sealed => inner now (REnqueueBatch sealed) b
  end.

(** [Lease] and [LeaseGroup]: the reply of the wrapped broker, opened. *)
Definition openTasks (r : reply) : reply :=
  match r with Tasks tasks => orFail Tasks (openEnvelopes tasks) | r => r end.

Definition enc_Lease (queue : string) (limit : Z) (ttl : Duration) (leaseID : string) (b : B)
    : B * reply :=
  replying openTasks (inner now (RLease queue limit ttl leaseID) b).

Definition enc_LeaseGroup (queue group : string) (limit : Z) (ttl : Duration) (leaseID : string)
    (b : B) : B * reply :=
  replying openTasks (inner now (RLeaseGroup queue group limit ttl leaseID) b).

Definition enc_Ack (taskID leaseID : string) (result : list byte) (b : B) : B * reply :=
  match sealBytes (rnd 0) result with
  | inl err => (b, Failed err)
  | inr sealed => inner now (RAck taskID leaseID sealed) b
  end.

Definition sealItem (entropy : list byte) (item : AckItem) : callError + AckItem :=
  match sealBytes entropy (ack_Result item) with
  | inl err => inl err
  | inr sealed => inr (mkAckItem (ack_TaskID item) (ack_LeaseID item) sealed)
  end.

Definition enc_AckBatch (items : list AckItem) (b : B) : B * reply :=
  match tryEach (λ i, sealItem (rnd i)) 0 items with
  | inl err => (b, Failed err)
  | inr sealed => inner now (RAckBatch sealed) b
  end.

Definition enc_GetTask (id : string) (b : B) : B * reply :=
  replying (λ r, match r with
    | Task task state => orFail (λ opened, Task opened state) (openEnvelope task)
    | r => r
    end) (inner now (RGetTask id) b).

Definition openRecord (record : TaskRecord) : callError + TaskRecord :=
  match openEnvelope (rec_Envelope record) with
  | inl err => inl err
  | inr opened => inr (mkTaskRecord opened (rec_State record))
  end.

Definition enc_ListTasks (query : TaskQuery) (b : B) : B * reply :=
  replying (λ r, match r with
    | Records records => orFail Records (tryEach (λ _, openRecord) 0 records)
    | r => r
    end) (inner now (RListTasks query) b).

Definition enc_UpsertCronEntry (entry : CronEntry) (b : B) : B * reply :=
  match sealBytes (rnd 0) (cron_Payload entry) with
  | inl err => (b, Failed err)
  | inr sealed => inner now (RUpsertCronEntry (entry <| cron_Payload := sealed |>)) b
  end.

Definition openCron (r : reply) : reply :=
  match r with CronEntries entries => orFail CronEntries (openCronEntries entries) | r => r end.

Definition enc_ListCronEntries (b : B) : B * reply :=
  replying openCron (inner now RListCronEntries b).

Definition enc_ListDueCronEntries (at_ : Time) (b : B) : B * reply :=
  replying openCron (inner now (RListDueCronEntries at_) b).
End Calls.

(** [New]: every other method delegates. *)
Definition encrypted (inner : broker B) (rnd : nat → list byte) : broker B := λ now r b,
  match r with
  | REnqueue task => enc_Enqueue inner rnd now task b
  | REnqueueBatch tasks => enc_EnqueueBatch inner rnd now tasks b
  | RLease queue limit ttl lid => enc_Lease inner now queue limit ttl lid b
  | RLeaseGroup queue group limit ttl lid => enc_LeaseGroup inner now queue group limit ttl lid b
  | RAck id lid result => enc_Ack inner rnd now id lid result b
  | RAckBatch items => enc_AckBatch inner rnd now items b
  | RGetTask id => enc_GetTask inner now id b
  | RListTasks query => enc_ListTasks inner now query b
  | RUpsertCronEntry entry => enc_UpsertCronEntry inner rnd now entry b
  | RListCronEntries => enc_ListCronEntries inner now b
  | RListDueCronEntries at_ => enc_ListDueCronEntries inner now at_ b
  | r => inner now r b
  end.
End Encrypted.
