(* ===== verification/MemoryBlind.v ===== *)
(** * The in-memory broker never looks at a payload

    Replacing every stored payload by its image under a function commutes with
    every operation: the broker moves payloads around and reads none. This is
    what lets a decorator store other bytes than its callers see. *)

From S2P Require Import Prelude Proto Events BrokerApi Memory MemoryFacts Encryption BrokerCalls.
From Stdlib Require Import Strings.Byte.

#[local] Open Scope Z_scope.

(** ** Lists and maps under a function *)

Lemma fmap_filter {A C} (g : A → C) (P : A → Prop) (Q : C → Prop)
    `{∀ x, Decision (P x), ∀ x, Decision (Q x)} (l : list A) :
  (∀ x, Q (g x) ↔ P x) → filter Q (g <$> l) = g <$> filter P l.
Proof.
  intros HPQ. induction l as [|x l IH]; [done|]. cbn [fmap list_fmap].
  destruct (decide (P x)).
  - rewrite !filter_cons_True by (done || by apply HPQ). cbn. by rewrite <- IH.
  - rewrite !filter_cons_False by (done || by rewrite HPQ). done.
Qed.

Lemma fmap_insert_by {A C} (g : A → C) (cmp : A → A → Z) (cmp' : C → C → Z) x (l : list A) :
  (∀ a b, cmp' (g a) (g b) = cmp a b) → insert_by cmp' (g x) (g <$> l) = g <$> insert_by cmp x l.
Proof.
  intros Hc. induction l as [|y l IH]; [done|]. cbn. rewrite Hc.
  destruct (_ <=? _); cbn; [done|]. by rewrite <- IH.
Qed.

Lemma fmap_SortFunc {A C} (g : A → C) (cmp : A → A → Z) (cmp' : C → C → Z) (l : list A) :
  (∀ a b, cmp' (g a) (g b) = cmp a b) → SortFunc cmp' (g <$> l) = g <$> SortFunc cmp l.
Proof.
  intros Hc. unfold SortFunc. induction l as [|x l IH]; [done|]. cbn. rewrite IH.
  by apply fmap_insert_by.
Qed.

Lemma fmap_range_map {MR : MapRange} {V W} (g : V → W) (m : gmap string V) :
  range_map (g <$> m) = prod_map id g <$> range_map m.
Proof.
  unfold range_map. rewrite dom_fmap_L. induction (range_keys (dom m)) as [|k l IH]; [done|].
  cbn. rewrite lookup_fmap. destruct (m !! k); cbn; by rewrite <- IH.
Qed.

Lemma fmap_foldl {A S T} (h : S → T) (step : S → A → S) (step' : T → A → T) (l : list A) s :
  (∀ s a, step' (h s) a = h (step s a)) → foldl step' (h s) l = h (foldl step s l).
Proof.
  intros Hs. revert s. induction l as [|a l IH]; intros s; [done|]. cbn. by rewrite Hs, IH.
Qed.

Lemma fmap_range_loop {V S} (g : V → V) (h : S → S) (cur : S → gmap string V)
    (body : string → V → S → S) keys s :
  (∀ s, cur (h s) = g <$> cur s) → (∀ k v s, body k (g v) (h s) = h (body k v s)) →
  range_loop cur body keys (h s) = h (range_loop cur body keys s).
Proof.
  intros Hc Hb. unfold range_loop. apply fmap_foldl. intros s' k. rewrite Hc, lookup_fmap.
  by destruct (cur s' !! k); cbn.
Qed.

(** ** The image of a store *)

Section Blind.
Context {MR : MapRange} (f : list byte → list byte).

Definition mapEnv (e : TaskEnvelope) : TaskEnvelope := e <| env_Payload := f (env_Payload e) |>.
Definition mapRow (r : taskRow) : taskRow := r <| row_envelope := mapEnv (row_envelope r) |>.
Definition mapCron (e : CronEntry) : CronEntry := e <| cron_Payload := f (cron_Payload e) |>.
Definition mapStore (b : Broker) : Broker :=
  b <| br_tasks := mapRow <$> br_tasks b |> <| br_cronEntries := mapCron <$> br_cronEntries b |>.

Lemma map_lookup b id : br_tasks (mapStore b) !! id = mapRow <$> br_tasks b !! id.
Proof. cbn. by rewrite lookup_fmap. Qed.

Lemma map_put_row id r b : put_row id (mapRow r) (mapStore b) = mapStore (put_row id r b).
Proof. unfold put_row, mapStore. cbn. by rewrite fmap_insert. Qed.

Lemma map_delete_row id b : delete_row id (mapStore b) = mapStore (delete_row id b).
Proof. unfold delete_row, mapStore. cbn. by rewrite fmap_delete. Qed.

Lemma map_emit s s' id queue ty err n at_ b :
  emit s s' id queue ty err n at_ (mapStore b) = mapStore (emit s s' id queue ty err n at_ b).
Proof. unfold emit. cbn. destruct (br_sink b); [|done]. by case_match. Qed.

Lemma map_emit_row old id r now b :
  emit_row old id (mapRow r) now (mapStore b) = mapStore (emit_row old id r now b).
Proof. apply map_emit. Qed.

Lemma map_addDependent x y b : addDependent x y (mapStore b) = mapStore (addDependent x y b).
Proof. done. Qed.

Lemma map_removeDependent x y b : removeDependent x y (mapStore b) = mapStore (removeDependent x y b).
Proof. unfold removeDependent. cbn. case_match; [|done]. by case_decide. Qed.

(** Writing a row and announcing it. *)
Lemma map_write old id k r now b :
  emit_row old id (mapRow r) now (put_row k (mapRow r) (mapStore b)) =
    mapStore (emit_row old id r now (put_row k r b)).
Proof. by rewrite map_put_row, map_emit_row. Qed.

(** ** Enqueueing *)

Lemma map_uniqueKeyClaimed key now b :
  uniqueKeyClaimed key now (mapStore b) = uniqueKeyClaimed key now b.
Proof.
  unfold uniqueKeyClaimed. cbn [br_tasks mapStore set]. rewrite fmap_range_map.
  induction (range_map (br_tasks b)) as [|[id r] l IH]; [done|]. cbn. by rewrite IH.
Qed.

Lemma map_resolveInitialDeps b id edges deps :
  resolveInitialDeps_loop (mapStore b) id edges deps = resolveInitialDeps_loop b id edges deps.
Proof.
  revert deps. induction edges as [|edge edges IH]; intros deps; [done|]. cbn [resolveInitialDeps_loop].
  case_decide; [apply IH|]. rewrite map_lookup. destruct (br_tasks b !! dep_TaskId edge) as [r|]; cbn;
    [|apply IH]. destruct (row_state r), (dependencyPolicy (dep_OnFailure edge)); done || apply IH.
Qed.

Definition mapStaged (s : stagedTask) : stagedTask :=
  mkStagedTask (st_id s) (st_queue s) (st_taskType s) (st_state s) (mapRow (st_row s)).

Definition mapStage (r : stageResult) : stageResult :=
  match r with Staged s => Staged (mapStaged s) | Skip => Skip | StageError e => StageError e end.

Lemma map_stageEnqueue task now ids keys b :
  stageEnqueue (mapEnv task) now ids keys (mapStore b) = mapStage (stageEnqueue task now ids keys b).
Proof.
  unfold stageEnqueue. cbv zeta. change (env_Id (mapEnv task)) with (env_Id task).
  change (GetOptions (mapEnv task)) with (GetOptions task).
  rewrite map_lookup, map_uniqueKeyClaimed. unfold resolveInitialDeps. rewrite map_resolveInitialDeps.
  destruct (br_tasks b !! env_Id task); cbn [fmap option_fmap option_map].
  { by rewrite !decide_True by eauto. }
  rewrite !(decide_False (P := is_Some None)) by by intros [? ?].
  case_decide; [done|]. destruct (_ && (_ || _)); [done|]. destruct (_ && After _ _); [done|].
  by destruct (resolveInitialDeps_loop _ _ _ _) as [deps cancel].
Qed.

Lemma map_applyStaged s now b :
  applyStaged (mapStaged s) now (mapStore b) = mapStore (applyStaged s now b).
Proof.
  unfold applyStaged. cbv zeta. cbn [mapStaged st_row st_id st_queue st_taskType st_state].
  rewrite (fmap_foldl mapStore (λ b dependencyID, addDependent dependencyID (st_id s) b)).
  - change (row_deps (mapRow (st_row s))) with (row_deps (st_row s)). by rewrite map_put_row, map_emit.
  - intros. apply map_addDependent.
Qed.

Lemma map_Enqueue task now b :
  Enqueue (mapEnv task) now (mapStore b) = prod_map mapStore id (Enqueue task now b).
Proof.
  unfold Enqueue. rewrite map_stageEnqueue. destruct (stageEnqueue _ _ _ _ _); cbn; [|done..].
  by rewrite map_applyStaged.
Qed.

Lemma map_stageBatch tasks i now ids keys b :
  stageBatch (mapEnv <$> tasks) i now ids keys (mapStore b) =
    match stageBatch tasks i now ids keys b with inl l => inl (mapStaged <$> l) | inr e => inr e end.
Proof.
  revert i ids keys. induction tasks as [|task tasks IH]; intros i ids keys; [done|].
  cbn [fmap list_fmap stageBatch]. rewrite map_stageEnqueue.
  destruct (stageEnqueue task now ids keys b) as [s| |e]; cbn [mapStage]; [|apply IH|done].
  fold (mapEnv <$> tasks). cbv zeta. change (st_id (mapStaged s)) with (st_id s).
  change (row_uniqueKey (st_row (mapStaged s))) with (row_uniqueKey (st_row s)). rewrite IH.
  by destruct (stageBatch _ _ _ _ _ _).
Qed.

Lemma map_EnqueueBatch tasks now b :
  EnqueueBatch (mapEnv <$> tasks) now (mapStore b) = prod_map mapStore id (EnqueueBatch tasks now b).
Proof.
  unfold EnqueueBatch. rewrite map_stageBatch. destruct (stageBatch _ _ _ _ _ _) as [l|e]; [|done].
  cbn. f_equal. revert b. induction l as [|s l IH]; intros b; [done|]. cbn. by rewrite map_applyStaged, IH.
Qed.

(** ** Leasing *)

Lemma map_overlay r : overlay (mapRow r) = mapEnv (overlay r).
Proof. unfold overlay. cbn. by repeat case_match. Qed.

(** Selecting rows: filter, sort and cut depend on the rows' own fields. *)
Lemma map_select (P : taskRow → bool) (cmp : taskRow → taskRow → Z) limit b :
  (∀ r, P (mapRow r) = P r) → (∀ r r', cmp (mapRow r) (mapRow r') = cmp r r') →
  let sel b :=
    SortFunc (λ a other : string * taskRow, cmp a.2 other.2)
      (filter (λ p : string * taskRow, P p.2 = true) (range_map (br_tasks b))) in
  (if (limit <? Z.of_nat (length (sel (mapStore b))))%Z
   then take (Z.to_nat limit) (sel (mapStore b)) else sel (mapStore b)) =
  prod_map id mapRow <$> (if (limit <? Z.of_nat (length (sel b)))%Z
   then take (Z.to_nat limit) (sel b) else sel b).
Proof.
  intros HP Hc sel.
  assert (sel (mapStore b) = prod_map id mapRow <$> sel b) as ->.
  { unfold sel. cbn [br_tasks mapStore set]. rewrite fmap_range_map.
    rewrite (fmap_filter (prod_map id mapRow) (λ p : string * taskRow, P p.2 = true)
      (λ p : string * taskRow, P p.2 = true)) by (intros [k r]; cbn; by rewrite HP).
    apply fmap_SortFunc. intros [? ?] [? ?]. apply Hc. }
  rewrite length_fmap. case_match; [by rewrite fmap_take|done].
Qed.

Lemma map_claim now ttl lid due b :
  claim now ttl lid (prod_map id mapRow <$> due) (mapStore b) =
    prod_map mapStore (fmap mapEnv) (claim now ttl lid due b).
Proof.
  revert b. induction due as [|[k r] due IH]; intros b; [done|].
  cbn [fmap list_fmap prod_map claim fst snd id]. cbv zeta.
  change (claim_row now ttl lid (mapRow r)) with (mapRow (claim_row now ttl lid r)).
  change (env_Id (row_envelope (mapRow (claim_row now ttl lid r)))) with
    (env_Id (row_envelope (claim_row now ttl lid r))).
  change (row_state (mapRow r)) with (row_state r).
  rewrite map_write. fold (prod_map (@id string) mapRow <$> due). rewrite IH.
  destruct (claim now ttl lid due _) as [b' leased]. cbn. by rewrite map_overlay.
Qed.

Lemma map_Lease queue limit ttl lid now b :
  Lease queue limit ttl lid now (mapStore b) =
    prod_map mapStore (fmap mapEnv) (Lease queue limit ttl lid now b).
Proof.
  unfold Lease. destruct (limit <=? 0)%Z; [done|]. unfold dueTasks. cbv zeta.
  rewrite (map_select (leasable queue now) compareDue) by done. apply map_claim.
Qed.

Lemma map_LeaseGroup queue group limit ttl lid now b :
  LeaseGroup queue group limit ttl lid now (mapStore b) =
    prod_map mapStore (fmap mapEnv) (LeaseGroup queue group limit ttl lid now b).
Proof.
  unfold LeaseGroup. destruct (limit <=? 0)%Z; [done|]. unfold groupMembers. cbv zeta.
  rewrite (map_select (groupMember queue group) compareMembers) by done. apply map_claim.
Qed.

(** ** Lease-scoped calls and admin transitions *)

Lemma map_activeRow id lid b : activeRow id lid (mapStore b) = mapRow <$> activeRow id lid b.
Proof.
  unfold activeRow. rewrite map_lookup. destruct (br_tasks b !! id) as [r|]; [|done]. cbn.
  by case_decide.
Qed.

(** Both sides look the same row up, make the same decision on it and write the
    same change: the read first, then the write under [mapStore]. *)
Ltac blind_write :=
  etransitivity; [|first [apply map_write | apply map_put_row | apply map_emit_row]]; reflexivity.
Ltac blind_reads :=
  repeat match goal with
  | |- context [decide (_ = row_state ?x)] =>
      let v := eval cbn in (row_state x) in progress change (row_state x) with v
  | |- context [expired (mapRow ?r) ?t] => change (expired (mapRow r) t) with (expired r t)
  | |- context [?p (mapRow ?r)] => change (p (mapRow r)) with (p r)
  end.
Ltac blind_leaf := first [apply (f_equal (λ b, (b, None))); blind_write | reflexivity].
Ltac blind_call :=
  rewrite ?map_activeRow, ?map_lookup;
  match goal with
  | |- context [activeRow ?i ?l ?s] => destruct (activeRow i l s) as [r|]
  | |- context [br_tasks ?s !! ?i] => destruct (br_tasks s !! i) as [r|]
  end; cbn [fmap option_fmap option_map]; [|reflexivity]; blind_reads; repeat case_decide;
  first
    [ blind_leaf
    | match goal with |- context [match row_state ?r with _ => _ end] => destruct (row_state r) eqn:? end;
      blind_reads; repeat case_decide; blind_leaf ].

Lemma map_ExtendLease id lid ttl now b :
  ExtendLease id lid ttl now (mapStore b) = prod_map mapStore Datatypes.id (ExtendLease id lid ttl now b).
Proof. unfold ExtendLease. blind_call. Qed.

Lemma map_SetProgress id lid percent message b :
  SetProgress id lid percent message (mapStore b) =
    prod_map mapStore Datatypes.id (SetProgress id lid percent message b).
Proof. unfold SetProgress. blind_call. Qed.

Lemma map_Ack id lid result result' now b :
  Ack id lid result' now (mapStore b) = prod_map mapStore Datatypes.id (Ack id lid result now b).
Proof. unfold Ack. blind_call. Qed.

Lemma map_Fail id lid msg at_ now b :
  Fail id lid msg at_ now (mapStore b) = prod_map mapStore Datatypes.id (Fail id lid msg at_ now b).
Proof. unfold Fail. blind_call. Qed.

Lemma map_Release id lid now b :
  Release id lid now (mapStore b) = prod_map mapStore Datatypes.id (Release id lid now b).
Proof. unfold Release. blind_call. Qed.

Lemma map_Archive id lid msg now b :
  Archive id lid msg now (mapStore b) = prod_map mapStore Datatypes.id (Archive id lid msg now b).
Proof. unfold Archive. destruct (negb _); blind_call. Qed.

Lemma map_CancelTask id now b :
  CancelTask id now (mapStore b) = prod_map mapStore Datatypes.id (CancelTask id now b).
Proof. unfold CancelTask. blind_call. Qed.

Lemma map_RunTaskNow id now b :
  RunTaskNow id now (mapStore b) = prod_map mapStore Datatypes.id (RunTaskNow id now b).
Proof. unfold RunTaskNow. blind_call. Qed.

Lemma map_RescheduleTask id at_ now b :
  RescheduleTask id at_ now (mapStore b) = prod_map mapStore Datatypes.id (RescheduleTask id at_ now b).
Proof. unfold RescheduleTask. blind_call. Qed.

Lemma map_ArchiveTask id now b :
  ArchiveTask id now (mapStore b) = prod_map mapStore Datatypes.id (ArchiveTask id now b).
Proof. unfold ArchiveTask. blind_call. Qed.

(** The results of the items are not looked at either. *)
Lemma map_AckBatch items items' now b :
  (λ i, (ack_TaskID i, ack_LeaseID i)) <$> items' = (λ i, (ack_TaskID i, ack_LeaseID i)) <$> items →
  AckBatch items' now (mapStore b) = prod_map mapStore Datatypes.id (AckBatch items now b).
Proof.
  assert (Hitems : ∀ b, (λ i, (ack_TaskID i, ack_LeaseID i)) <$> items' =
      (λ i, (ack_TaskID i, ack_LeaseID i)) <$> items →
    ackItems items' now (mapStore b) = prod_map mapStore Datatypes.id (ackItems items now b)).
  { clear b. revert items'. induction items as [|i items IH]; intros [|i' items'] b; try done.
    intros [= E1 E2 E3]. cbn [ackItems]. rewrite E1, E2, map_activeRow.
    destruct (activeRow _ _ b) as [r|]; cbn [fmap option_fmap option_map]; [|by apply IH].
    change (ack_row now (mapRow r)) with (mapRow (ack_row now r)).
    change (row_state (mapRow r)) with (row_state r). rewrite map_write, IH by done.
    by destruct (ackItems items now _). }
  intros E. unfold AckBatch. destruct items as [|i items], items' as [|i' items']; try done.
  by apply Hitems.
Qed.

(** ** Sweeps *)

Definition mapSweep (s : sweep) : sweep := mkSweep (mapStore (sw_b s)) (sw_queues s) (sw_count s).

Lemma map_sweep_loop (body : string → taskRow → sweep → sweep) keys s :
  (∀ k r s, body k (mapRow r) (mapSweep s) = mapSweep (body k r s)) →
  range_loop (λ s, br_tasks (sw_b s)) body keys (mapSweep s) =
    mapSweep (range_loop (λ s, br_tasks (sw_b s)) body keys s).
Proof. intros Hb. by apply fmap_range_loop with (g := mapRow). Qed.

Lemma map_dom b : dom (br_tasks (mapStore b)) = dom (br_tasks b).
Proof. cbn. apply dom_fmap_L. Qed.

(** A sweep that answers with its store and something read off the rest. *)
Lemma map_sweep {A} (body : string → taskRow → sweep → sweep) (ans : sweep → A) b :
  (∀ k r s, body k (mapRow r) (mapSweep s) = mapSweep (body k r s)) →
  (∀ s, ans (mapSweep s) = ans s) →
  let final b := range_loop (λ s, br_tasks (sw_b s)) body (range_keys (dom (br_tasks b))) (mkSweep b ∅ 0) in
  (sw_b (final (mapStore b)), ans (final (mapStore b))) =
    prod_map mapStore Datatypes.id (sw_b (final b), ans (final b)).
Proof.
  intros Hb Ha final.
  assert (final (mapStore b) = mapSweep (final b)) as ->.
  { unfold final. rewrite map_dom. apply (map_sweep_loop body _ (mkSweep b ∅ 0) Hb). }
  cbn. by rewrite Ha.
Qed.

Ltac blind_body :=
  intros k r [bs qs n]; cbn [sw_count sw_queues sw_b mapSweep]; blind_reads;
  case_decide; [reflexivity|]; repeat match goal with |- context [if negb ?c then _ else _] => destruct c | |- context [if ?c || ?d then _ else _] => destruct (c || d) | |- context [if ?c && ?d then _ else _] => destruct (c && d) end; cbn [negb];
  first [unfold mapSweep; cbn [sw_count sw_queues sw_b]; f_equal; blind_write | reflexivity].

Lemma map_reap_row now r : reap_row now (mapRow r) = mapRow (reap_row now r).
Proof. unfold reap_row. cbn. by case_match. Qed.

Lemma map_ReapExpiredLeases limit now b :
  ReapExpiredLeases limit now (mapStore b) = prod_map mapStore Datatypes.id (ReapExpiredLeases limit now b).
Proof.
  unfold ReapExpiredLeases. destruct (limit <=? 0)%Z; [done|].
  apply (map_sweep (reapOne limit now) (λ s, range_keys (sw_queues s))); [|done].
  unfold reapOne. intros k r s. cbv zeta. rewrite map_reap_row. revert k r s. blind_body.
Qed.

Lemma map_PromoteScheduled limit now b :
  PromoteScheduled limit now (mapStore b) = prod_map mapStore Datatypes.id (PromoteScheduled limit now b).
Proof.
  unfold PromoteScheduled. destruct (limit <=? 0)%Z; [done|].
  apply (map_sweep (promoteOne limit now) (λ s, range_keys (sw_queues s))); [|done].
  unfold promoteOne. blind_body.
Qed.

Lemma map_ArchiveExpired limit now b :
  ArchiveExpired limit now (mapStore b) = prod_map mapStore Datatypes.id (ArchiveExpired limit now b).
Proof.
  unfold ArchiveExpired. destruct (limit <=? 0)%Z; [done|].
  apply (map_sweep (archiveExpiredOne limit now) sw_count); [|done].
  intros k r [bs qs n]. unfold archiveExpiredOne. cbn [sw_count sw_queues sw_b mapSweep]. cbv zeta.
  change (row_state (mapRow r)) with (row_state r).
  change (expired (mapRow r) now) with (expired r now).
  change (archive_row TaskExpiredMessage now (mapRow r)) with
    (mapRow (archive_row TaskExpiredMessage now r)).
  case_decide; [reflexivity|]. destruct (_ && _); [reflexivity|].
  destruct (negb (expired r now)); [reflexivity|].
  rewrite map_write. reflexivity.
Qed.

(** ** Dependencies *)

Lemma map_removeDependents id keys b :
  foldl (λ b dependencyID, removeDependent dependencyID id b) (mapStore b) keys =
    mapStore (foldl (λ b dependencyID, removeDependent dependencyID id b) b keys).
Proof. apply fmap_foldl. intros. apply map_removeDependent. Qed.

Lemma map_promoteIfReady id r now b :
  promoteIfReady id (mapRow r) now (mapStore b) =
    prod_map mapStore Datatypes.id (promoteIfReady id r now b).
Proof.
  unfold promoteIfReady. cbv zeta.
  change (row_state (mapRow r)) with (row_state r). change (row_deps (mapRow r)) with (row_deps r).
  case_decide; [reflexivity|]. apply (f_equal2 pair); [|reflexivity]. blind_write.
Qed.

Definition mapResolution (r : resolution) : resolution :=
  mkResolution (mapStore (rs_b r)) (rs_queues r) (rs_worklist r).

Lemma map_resolveOne finishedID failed now r dependentID :
  resolveOne finishedID failed now (mapResolution r) dependentID =
    mapResolution (resolveOne finishedID failed now r dependentID).
Proof.
  destruct r as [b queues worklist]. unfold resolveOne. cbv zeta.
  cbn [rs_b rs_queues rs_worklist mapResolution]. rewrite map_lookup.
  destruct (br_tasks b !! dependentID) as [d|]; cbn [fmap option_fmap option_map];
    [|by rewrite map_removeDependent].
  change (row_deps (mapRow d)) with (row_deps d).
  destruct (row_deps d !! finishedID) as [policy|]; [|by rewrite map_removeDependent].
  case_decide; [done|]. case_decide.
  - change (cancel_row now (mapRow d)) with (mapRow (cancel_row now d)).
    change (row_state (mapRow d)) with (row_state d).
    by rewrite map_removeDependents, map_write.
  - change ((mapRow d) <| row_deps := delete finishedID (row_deps d) |>) with
      (mapRow (d <| row_deps := delete finishedID (row_deps d) |>)).
    rewrite map_put_row, map_removeDependent, map_promoteIfReady.
    by destruct (promoteIfReady _ _ _ _).
Qed.

Lemma map_resolve_loop fuel now seen r :
  resolve_loop fuel now seen (mapResolution r) = mapResolution (resolve_loop fuel now seen r).
Proof.
  revert seen r. induction fuel as [|fuel IH]; intros seen [b queues worklist]; [done|].
  cbn [resolve_loop rs_worklist mapResolution rs_b rs_queues].
  destruct worklist as [|id worklist]; [done|]. cbv zeta.
  pose proof (IH seen (mkResolution b queues worklist)) as IH0.
  pose proof (IH ({[id]} ∪ seen) (mkResolution b queues worklist)) as IH1.
  case_decide; [exact IH0|]. rewrite map_lookup.
  destruct (br_tasks b !! id) as [r|]; cbn [fmap option_fmap option_map]; [|exact IH1].
  change (row_state (mapRow r)) with (row_state r). destruct (_ && _); [exact IH1|].
  rewrite <- IH. f_equal.
  apply (fmap_foldl mapResolution _ _ _ (mkResolution b queues worklist)). intros.
  apply map_resolveOne.
Qed.

Lemma map_resolveDependents id now b :
  resolveDependents id now (mapStore b) = prod_map mapStore Datatypes.id (resolveDependents id now b).
Proof.
  unfold resolveDependents.
  assert (resolveFuel (mapStore b) = resolveFuel b) as ->.
  { unfold resolveFuel. cbn [br_tasks mapStore set]. by rewrite map_size_fmap. }
  pose proof (map_resolve_loop (resolveFuel b) now ∅ (mkResolution b ∅ [id])) as H.
  unfold mapResolution at 1 in H. cbn [rs_b rs_queues rs_worklist] in H. by rewrite H.
Qed.

Lemma map_ResolveDependents id now b :
  ResolveDependents id now (mapStore b) = prod_map mapStore Datatypes.id (ResolveDependents id now b).
Proof.
  unfold ResolveDependents. rewrite map_resolveDependents. by destruct (resolveDependents _ _ _).
Qed.

(** Folds over the stored rows whose step reads the rows' own fields. *)
Lemma map_fold_rows {S} (step : S → string * taskRow → S) s b :
  (∀ s k r, step s (k, mapRow r) = step s (k, r)) →
  foldl step s (range_map (br_tasks (mapStore b))) = foldl step s (range_map (br_tasks b)).
Proof.
  intros Hs. cbn [br_tasks mapStore set]. rewrite fmap_range_map. revert s.
  induction (range_map (br_tasks b)) as [|[k r] l IH]; intros s; [done|]. cbn. by rewrite Hs, IH.
Qed.

Lemma map_finishedDeps b : finishedDeps (mapStore b) = finishedDeps b.
Proof.
  unfold finishedDeps. etransitivity; [|apply map_fold_rows; by intros].
  apply foldl_ext_in. intros s [k r] _. case_decide; [|done].
  apply foldl_ext_in. intros s' d _. rewrite map_lookup. by destruct (br_tasks b !! d).
Qed.

Lemma map_PromoteReadyDependents limit now b :
  PromoteReadyDependents limit now (mapStore b) =
    prod_map mapStore Datatypes.id (PromoteReadyDependents limit now b).
Proof.
  unfold PromoteReadyDependents. destruct (limit <=? 0)%Z; [done|]. cbv zeta.
  rewrite map_finishedDeps. change (mkSweep (mapStore b) ∅ 0) with (mapSweep (mkSweep b ∅ 0)).
  rewrite (fmap_foldl mapSweep (resolveBounded limit now)).
  2: { intros [bs qs n] d. unfold resolveBounded. cbn [sw_count sw_b sw_queues mapSweep].
       case_decide; [done|]. rewrite map_resolveDependents. by destruct (resolveDependents _ _ _). }
  set (s := foldl _ _ _). cbn [sw_b mapSweep]. rewrite map_dom, map_sweep_loop; [done|].
  intros k r [bs qs n]. unfold promoteReadyOne. cbn [sw_count sw_b sw_queues mapSweep].
  rewrite map_promoteIfReady. by destruct (promoteIfReady _ _ _ _).
Qed.

(** ** Removal *)

Lemma map_hasWaitingDependents id b : hasWaitingDependents id (mapStore b) = hasWaitingDependents id b.
Proof.
  unfold hasWaitingDependents. change (br_dependents (mapStore b)) with (br_dependents b).
  induction (range_keys _) as [|d l IH]; [done|]. cbn [existsb]. rewrite IH, map_lookup.
  by destruct (br_tasks b !! d).
Qed.

Lemma map_DeleteTask id b :
  DeleteTask id (mapStore b) = prod_map mapStore Datatypes.id (DeleteTask id b).
Proof.
  unfold DeleteTask. rewrite map_lookup, map_hasWaitingDependents.
  destruct (br_tasks b !! id) as [r|]; cbn [fmap option_fmap option_map]; [|done].
  change (row_state (mapRow r)) with (row_state r). change (row_deps (mapRow r)) with (row_deps r).
  case_match; [done|]. case_decide; [done|]. by rewrite map_removeDependents, map_delete_row.
Qed.

Lemma map_dropTerminalDependentEdges b :
  dropTerminalDependentEdges (mapStore b) = mapStore (dropTerminalDependentEdges b).
Proof.
  unfold dropTerminalDependentEdges. change (br_dependents (mapStore b)) with (br_dependents b).
  apply fmap_foldl. clear b. intros b d. unfold dropWaiters.
  change (br_dependents (mapStore b)) with (br_dependents b).
  apply fmap_foldl. clear b. intros b w. rewrite map_lookup.
  destruct (br_tasks b !! w) as [r|]; cbn [fmap option_fmap option_map];
    [|apply map_removeDependent].
  change (row_state (mapRow r)) with (row_state r).
  destruct (incomplete _); [done|apply map_removeDependent].
Qed.

Definition mapPurging (p : purging) : purging :=
  mkPurging (mapStore (pg_b p)) (pg_completed p) (pg_archived p).

Lemma map_purgeOne retention limit now k r p :
  purgeOne retention limit now k (mapRow r) (mapPurging p) =
    mapPurging (purgeOne retention limit now k r p).
Proof.
  destruct p as [b c a]. unfold purgeOne. cbv zeta. cbn [pg_b pg_completed pg_archived mapPurging].
  assert (releaseLapsed now (mapRow r) = mapRow (releaseLapsed now r)) as ->.
  { unfold releaseLapsed. cbn. by case_match. }
  set (r' := releaseLapsed now r). rewrite map_put_row.
  change (row_state (mapRow r')) with (row_state r').
  change (purgeable (mapRow r') now retention) with (purgeable r' now retention).
  change (hasDependents k (mapStore (put_row k r' b))) with (hasDependents k (put_row k r' b)).
  destruct (_ || _); [done|].
  repeat case_decide; first [done | by rewrite map_delete_row].
Qed.

Lemma map_PurgeTerminal retention limit now b :
  PurgeTerminal retention limit now (mapStore b) =
    prod_map mapStore Datatypes.id (PurgeTerminal retention limit now b).
Proof.
  unfold PurgeTerminal. destruct (limit <=? 0)%Z; [done|]. cbv zeta.
  rewrite map_dropTerminalDependentEdges, map_dom.
  set (b' := dropTerminalDependentEdges b).
  change (mkPurging (mapStore b') 0 0) with (mapPurging (mkPurging b' 0 0)).
  rewrite (fmap_range_loop mapRow mapPurging); [done|done|]. intros. apply map_purgeOne.
Qed.

(** ** Queries and registries *)

Lemma map_PendingCount now b : PendingCount now (mapStore b) = PendingCount now b.
Proof. apply map_fold_rows. by intros. Qed.

Lemma map_QueueStats b : QueueStats (mapStore b) = QueueStats b.
Proof.
  unfold QueueStats. cbv zeta. do 2 f_equal. f_equal. apply map_fold_rows. by intros.
Qed.

Lemma map_GroupStats b : GroupStats (mapStore b) = GroupStats b.
Proof. unfold GroupStats. cbv zeta. do 2 f_equal. f_equal. apply map_fold_rows. by intros. Qed.

Lemma map_BrokerInfo b : BrokerInfo (mapStore b) = BrokerInfo b.
Proof. unfold BrokerInfo. cbn [br_tasks br_cronEntries mapStore set]. by rewrite !map_size_fmap. Qed.

Definition mapFound (r : (TaskEnvelope * TaskState) + BrokerError) :=
  match r with inl p => inl (prod_map mapEnv Datatypes.id p) | inr err => inr err end.

Lemma map_GetTask id b : GetTask id (mapStore b) = mapFound (GetTask id b).
Proof.
  unfold GetTask. rewrite map_lookup. destruct (br_tasks b !! id) as [r|]; [|done]. cbn.
  by rewrite map_overlay.
Qed.

Definition mapRecord (r : TaskRecord) : TaskRecord := mkTaskRecord (mapEnv (rec_Envelope r)) (rec_State r).

Lemma snd_range_map {V} (g : V → V) (m : gmap string V) :
  (range_map (g <$> m)).*2 = g <$> (range_map m).*2.
Proof. rewrite fmap_range_map, <- !list_fmap_compose. by apply list_fmap_ext. Qed.

Lemma map_ListTasks query b : ListTasks query (mapStore b) = mapRecord <$> ListTasks query b.
Proof.
  unfold ListTasks. cbv zeta. cbn [br_tasks mapStore set]. rewrite snd_range_map.
  rewrite (fmap_filter mapRow (λ r, matchesQuery query r = true) (λ r, matchesQuery query r = true)) by done.
  rewrite (fmap_SortFunc mapRow compareNewest compareNewest) by done. rewrite length_fmap.
  set (l := SortFunc _ _).
  assert (Hrec : ∀ l : list taskRow, (λ row, mkTaskRecord (overlay row) (row_state row)) <$> (mapRow <$> l) =
    mapRecord <$> ((λ row, mkTaskRecord (overlay row) (row_state row)) <$> l)).
  { intros l'. rewrite <- !list_fmap_compose. apply list_fmap_ext. intros ? r _. cbn.
    by rewrite map_overlay. }
  case_match; [|apply Hrec]. rewrite <- fmap_take. apply Hrec.
Qed.

Lemma map_ListCronEntries b : ListCronEntries (mapStore b) = mapCron <$> ListCronEntries b.
Proof.
  unfold ListCronEntries. cbn [br_cronEntries mapStore set]. rewrite snd_range_map.
  by apply fmap_SortFunc.
Qed.

Lemma map_ListDueCronEntries now b :
  ListDueCronEntries now (mapStore b) = mapCron <$> ListDueCronEntries now b.
Proof.
  unfold ListDueCronEntries. cbn [br_cronEntries mapStore set]. rewrite snd_range_map.
  rewrite (fmap_filter mapCron (λ e, cronDue now e = true) (λ e, cronDue now e = true)) by done.
  by apply fmap_SortFunc.
Qed.

Lemma map_put_cron id e b :
  (mapStore b) <| br_cronEntries := <[id := mapCron e]> (br_cronEntries (mapStore b)) |> =
    mapStore (b <| br_cronEntries := <[id := e]> (br_cronEntries b) |>).
Proof. unfold mapStore. cbn. by rewrite fmap_insert. Qed.

Lemma map_SetCronPaused id paused b :
  SetCronPaused id paused (mapStore b) = prod_map mapStore Datatypes.id (SetCronPaused id paused b).
Proof.
  unfold SetCronPaused. cbn [br_cronEntries mapStore set]. rewrite lookup_fmap.
  destruct (br_cronEntries b !! id) as [e|]; [|done]. cbn [fmap option_fmap option_map].
  apply (f_equal (λ b, (b, None))). etransitivity; [|apply map_put_cron]. reflexivity.
Qed.

Lemma map_UpdateCronNextRun id expected next b :
  UpdateCronNextRun id expected next (mapStore b) = mapStore (UpdateCronNextRun id expected next b).
Proof.
  unfold UpdateCronNextRun. cbn [br_cronEntries mapStore set]. rewrite lookup_fmap.
  destruct (br_cronEntries b !! id) as [e|]; [|done]. cbn [fmap option_fmap option_map].
  change (cron_NextRunAt (mapCron e)) with (cron_NextRunAt e). destruct (Equal _ _); [|done].
  etransitivity; [|apply map_put_cron]. reflexivity.
Qed.

Lemma map_DeleteCronEntry id b : DeleteCronEntry id (mapStore b) = mapStore (DeleteCronEntry id b).
Proof. unfold DeleteCronEntry, mapStore. cbn. by rewrite fmap_delete. Qed.

Lemma map_SetWebhookWorkerPaused name paused b :
  SetWebhookWorkerPaused name paused (mapStore b) =
    prod_map mapStore Datatypes.id (SetWebhookWorkerPaused name paused b).
Proof.
  unfold SetWebhookWorkerPaused. change (br_webhookWorkers (mapStore b)) with (br_webhookWorkers b).
  by destruct (br_webhookWorkers b !! name).
Qed.

(** ** Every call *)

Definition mapItem (i : AckItem) : AckItem := mkAckItem (ack_TaskID i) (ack_LeaseID i) (f (ack_Result i)).

Definition mapRequest (r : request) : request :=
  match r with
  | REnqueue task => REnqueue (mapEnv task)
  | REnqueueBatch tasks => REnqueueBatch (mapEnv <$> tasks)
  | RUpsertCronEntry entry => RUpsertCronEntry (mapCron entry)
  | RAck taskID leaseID result => RAck taskID leaseID (f result)
  | RAckBatch items => RAckBatch (mapItem <$> items)
  | r => r
  end.

Definition mapReply (r : reply) : reply :=
  match r with
  | Tasks tasks => Tasks (mapEnv <$> tasks)
  | Task task state => Task (mapEnv task) state
  | Records records => Records (mapRecord <$> records)
  | CronEntries entries => CronEntries (mapCron <$> entries)
  | r => r
  end.

Lemma map_errorOnly (p : Broker * option BrokerError) :
  errorOnly (prod_map mapStore Datatypes.id p) = prod_map mapStore mapReply (errorOnly p).
Proof. by destruct p as [b [err|]]. Qed.

Lemma map_replying {A} (h : A → A) (g : A → reply) (p : Broker * A) :
  (∀ a, g (h a) = mapReply (g a)) →
  replying g (prod_map mapStore h p) = prod_map mapStore mapReply (replying g p).
Proof. destruct p as [b a]. intros Hg. unfold replying. cbn. by rewrite Hg. Qed.

Create Rewrite HintDb blind.
#[local] Hint Rewrite map_Enqueue map_EnqueueBatch map_Lease map_LeaseGroup map_ExtendLease
  map_SetProgress map_Fail map_Release map_Archive map_CancelTask map_RunTaskNow
  map_RescheduleTask map_ArchiveTask map_ReapExpiredLeases map_PromoteScheduled map_ArchiveExpired
  map_ResolveDependents map_PromoteReadyDependents map_DeleteTask map_PurgeTerminal map_PendingCount
  map_QueueStats map_GroupStats map_BrokerInfo map_GetTask map_ListTasks map_ListCronEntries
  map_ListDueCronEntries map_SetCronPaused map_UpdateCronNextRun map_DeleteCronEntry
  map_SetWebhookWorkerPaused map_errorOnly : blind.

(** The in-memory broker treats payloads alike: a call with its payloads
    replaced, on the store with its payloads replaced, has the effect and the
    reply of the call with their payloads replaced. *)
Lemma memory_blind now r b :
  memory now (mapRequest r) (mapStore b) = prod_map mapStore mapReply (memory now r b).
Proof.
  destruct r; cbn [memory mapRequest]; autorewrite with blind; try reflexivity.
  all: try (apply map_replying; by intros).
  all: try (by rewrite (map_Ack _ _ result), map_errorOnly).
  all: try (rewrite (map_AckBatch items) by (rewrite <- list_fmap_compose; by apply list_fmap_ext);
    by apply map_replying).
  - apply map_replying. by intros [err|].
  - by destruct (GetTask id b) as [[task state]|err].
  - unfold UpsertCronEntry. change (cron_ID (mapCron entry)) with (cron_ID entry).
    by rewrite map_put_cron.
  - change (GetWebhookWorker name (mapStore b)) with (GetWebhookWorker name b).
    by destruct (GetWebhookWorker name b).
Qed.
End Blind.
