(* ===== verification/EncryptedProps.v ===== *)
(** * The encrypting broker is transparent

    Over the in-memory broker the decorator answers every call as the plain
    broker does, and what it stores opens to what the plain broker stores. The
    proofs use [memory_blind] twice: with the opening of payloads, for the
    simulation, and with the erasure of what does not open, for the invariant
    that everything stored opens. *)

From S2P Require Import Prelude Proto Events BrokerApi Memory Encoding Encryption BrokerCalls Encrypted MemoryBlind.
From Stdlib Require Import Strings.Byte.

#[local] Open Scope Z_scope.

(** What the decorator relies on: sealed data is not empty and opens to what
    was sealed. *)
Class LawfulEncryptor {E} `{Encryptor E} (encryptor : E) : Prop :=
  sealed_opens : ∀ entropy plaintext ciphertext,
    Encrypt encryptor entropy plaintext = inr ciphertext →
    ciphertext ≠ [] ∧ Decrypt encryptor ciphertext = inr plaintext.

(** Every keyring is one. *)
Lemma AESGCM_lawful `{GCM} activeID keys a : NewAESGCM activeID keys = inr a → LawfulEncryptor a.
Proof.
  intros Ha entropy plaintext ciphertext He. cbn in *.
  destruct (NewAESGCM_active _ _ _ Ha) as (_ & key & Hin & Hid & _). split.
  - unfold gcm_Encrypt in He. case_decide; [done|]. by injection He as <-.
  - exact (gcm_opens _ _ _ _ _ _ _ _ _ _ Ha Ha He Hin Hid Hin).
Qed.

Section Transparency.
Context {MR : MapRange} {E : Type} `{Encryptor E} (a : E) {L : LawfulEncryptor a}.

(** ** Opening as a function *)

Definition opened (data : list byte) : list byte :=
  match openBytes a data with inr plaintext => plaintext | inl _ => data end.

Definition legible (data : list byte) : Prop := ∃ plaintext, openBytes a data = inr plaintext.

(** Keeps what opens. *)
Definition erased (data : list byte) : list byte :=
  match openBytes a data with inr _ => data | inl _ => [] end.

Lemma erased_fixed data : erased data = data ↔ legible data.
Proof.
  unfold erased, legible. destruct (openBytes a data) as [err|p] eqn:Eo; [|naive_solver].
  split; [|naive_solver]. intros <-. unfold openBytes in Eo. by rewrite decide_True in Eo.
Qed.

Lemma legible_opened data : legible data → openBytes a data = inr (opened data).
Proof. intros [p Hp]. unfold opened. by rewrite Hp. Qed.

Lemma sealBytes_spec entropy data sealed :
  sealBytes a entropy data = inr sealed → erased sealed = sealed ∧ opened sealed = data.
Proof.
  unfold sealBytes. case_decide as Hd.
  - intros [= ->]. unfold erased, opened, openBytes. rewrite decide_True by done. done.
  - destruct (Encrypt a entropy data) as [|c] eqn:He; [done|]. intros [= <-].
    destruct (sealed_opens _ _ _ He) as [Hne Ho]. unfold erased, opened, openBytes.
    destruct c; [done|]. rewrite decide_False by done. by rewrite Ho.
Qed.

(** ** Requests *)

(** A loop that succeeds turned each item into one that [h] turns back. *)
Lemma tryEach_spec {A C} (g : nat → A → callError + C) (h : C → A) (k : C → C) i l l' :
  (∀ i x y, g i x = inr y → k y = y ∧ h y = x) →
  tryEach g i l = inr l' → k <$> l' = l' ∧ h <$> l' = l.
Proof.
  intros Hg. revert i l'. induction l as [|x l IH]; intros i l'; cbn [tryEach]; [by intros [= <-]|].
  destruct (g i x) as [|y] eqn:Ey; [done|]. destruct (tryEach g (S i) l) as [|ys] eqn:Es; [done|].
  intros [= <-]. destruct (Hg _ _ _ Ey), (IH _ _ Es). cbn. split; by f_equal.
Qed.

(** The request the wrapped broker receives. *)
Definition sealRequest (rnd : nat → list byte) (r : request) : callError + request :=
  match r with
  | REnqueue task =>
      match sealEnvelope a (rnd 0%nat) task with inl err => inl err | inr t => inr (REnqueue t) end
  | REnqueueBatch tasks =>
      match tryEach (λ i, sealEnvelope a (rnd i)) 0 tasks with
      | inl err => inl err | inr ts => inr (REnqueueBatch ts) end
  | RAck id lid result =>
      match sealBytes a (rnd 0%nat) result with inl err => inl err | inr s => inr (RAck id lid s) end
  | RAckBatch items =>
      match tryEach (λ i, sealItem a (rnd i)) 0 items with
      | inl err => inl err | inr s => inr (RAckBatch s) end
  | RUpsertCronEntry entry =>
      match sealBytes a (rnd 0%nat) (cron_Payload entry) with
      | inl err => inl err | inr s => inr (RUpsertCronEntry (entry <| cron_Payload := s |>)) end
  | r => inr r
  end.

Lemma sealEnvelope_spec entropy task t :
  sealEnvelope a entropy task = inr t → mapEnv erased t = t ∧ mapEnv opened t = task.
Proof.
  unfold sealEnvelope. destruct (sealBytes a entropy _) as [|s] eqn:Es; [done|]. intros [= <-].
  destruct (sealBytes_spec _ _ _ Es) as [H1 H2]. destruct task. unfold mapEnv. cbn in *.
  by rewrite H1, H2.
Qed.

Lemma sealItem_spec entropy item i :
  sealItem a entropy item = inr i → mapItem erased i = i ∧ mapItem opened i = item.
Proof.
  unfold sealItem. destruct (sealBytes a entropy _) as [|s] eqn:Es; [done|]. intros [= <-].
  destruct (sealBytes_spec _ _ _ Es) as [H1 H2]. destruct item. unfold mapItem. cbn in *.
  by rewrite H1, H2.
Qed.

Lemma sealRequest_spec rnd r r' :
  sealRequest rnd r = inr r' → mapRequest erased r' = r' ∧ mapRequest opened r' = r.
Proof.
  destruct r; cbn [sealRequest]; try (by intros [= <-]).
  - destruct (sealEnvelope a _ task) as [|t] eqn:Es; [done|]. intros [= <-].
    destruct (sealEnvelope_spec _ _ _ Es). cbn. split; by f_equal.
  - destruct (tryEach _ _ tasks) as [|ts] eqn:Es; [done|]. intros [= <-]. cbn.
    destruct (tryEach_spec _ (mapEnv opened) (mapEnv erased) _ _ _
      (λ i x y, sealEnvelope_spec (rnd i) x y) Es). split; by f_equal.
  - destruct (sealBytes a _ result) as [|s] eqn:Es; [done|]. intros [= <-]. cbn.
    destruct (sealBytes_spec _ _ _ Es). split; by f_equal.
  - destruct (tryEach _ _ items) as [|ts] eqn:Es; [done|]. intros [= <-]. cbn.
    destruct (tryEach_spec _ (mapItem opened) (mapItem erased) _ _ _
      (λ i x y, sealItem_spec (rnd i) x y) Es). split; by f_equal.
  - destruct (sealBytes a _ _) as [|s] eqn:Es; [done|]. intros [= <-].
    destruct (sealBytes_spec _ _ _ Es) as [H1 H2]. destruct entry. unfold mapRequest, mapCron. cbn in *.
    by rewrite H1, H2.
Qed.

(** ** Replies *)

Lemma tryEach_total {A C} (g : A → callError + C) (h : A → C) (k : A → A) i l :
  (∀ x, k x = x → g x = inr (h x)) → k <$> l = l → tryEach (λ _, g) i l = inr (h <$> l).
Proof.
  intros Hg. revert i. induction l as [|x l IH]; intros i; cbn; [done|].
  intros [= Ex El]. by rewrite (Hg _ Ex), IH.
Qed.

Definition openReply (r : reply) : reply :=
  match r with
  | Tasks tasks => orFail Tasks (openEnvelopes a tasks)
  | Task task state => orFail (λ t, Task t state) (openEnvelope a task)
  | Records records => orFail Records (tryEach (λ _, openRecord a) 0 records)
  | CronEntries entries => orFail CronEntries (openCronEntries a entries)
  | r => r
  end.

Lemma openEnvelope_total t : mapEnv erased t = t → openEnvelope a t = inr (mapEnv opened t).
Proof.
  intros Ht. apply (f_equal env_Payload) in Ht. cbn in Ht. apply erased_fixed, legible_opened in Ht.
  unfold openEnvelope. by rewrite Ht.
Qed.

Lemma openRecord_total r : mapRecord erased r = r → openRecord a r = inr (mapRecord opened r).
Proof.
  intros Hr. apply (f_equal rec_Envelope) in Hr. cbn in Hr. unfold openRecord.
  by rewrite openEnvelope_total.
Qed.

Lemma openCronEntry_total e : mapCron erased e = e → openCronEntry a e = inr (mapCron opened e).
Proof.
  intros He. apply (f_equal cron_Payload) in He. cbn in He. apply erased_fixed, legible_opened in He.
  unfold openCronEntry. by rewrite He.
Qed.

Lemma openReply_total r : mapReply erased r = r → openReply r = mapReply opened r.
Proof.
  destruct r; cbn [mapReply openReply]; intros Hr; try done; injection Hr as Hr.
  - unfold openEnvelopes. by rewrite (tryEach_total _ _ _ _ _ openEnvelope_total Hr).
  - by rewrite (openEnvelope_total _ Hr).
  - by rewrite (tryEach_total _ _ _ _ _ openRecord_total Hr).
  - unfold openCronEntries. by rewrite (tryEach_total _ _ _ _ _ openCronEntry_total Hr).
Qed.

(** A call through the decorator: seal, call, open. The replies of the calls
    that delegate hold nothing to open. *)
Lemma encrypted_call rnd now r b :
  encrypted a memory rnd now r b =
    match sealRequest rnd r with
    | inl err => (b, Failed err)
    | inr r' => replying openReply (memory now r' b)
    end.
Proof.
  destruct r; cbn [encrypted sealRequest];
    unfold enc_Enqueue, enc_EnqueueBatch, enc_Ack, enc_AckBatch, enc_UpsertCronEntry;
    repeat match goal with
    | |- context [match sealEnvelope ?x ?y ?z with _ => _ end] => destruct (sealEnvelope x y z)
    | |- context [match tryEach ?x ?y ?z with _ => _ end] => destruct (tryEach x y z)
    | |- context [match sealBytes ?x ?y ?z with _ => _ end] => destruct (sealBytes x y z)
    end; try reflexivity; cbn [memory].
  all: unfold errorOnly, replying; cbn [fst snd].
  all: try (match goal with |- context [match ?o with Some _ => _ | None => _ end] => by destruct o end).
  all: try reflexivity.
  all: try (by case_match).
  unfold enc_GetTask, replying. cbn [memory fst snd]. by destruct (GetTask id b) as [[task state]|err].
Qed.

(** ** Stores *)

Definition all_legible (b : Broker) : Prop :=
  (∀ id row, br_tasks b !! id = Some row → legible (env_Payload (row_envelope row))) ∧
  (∀ id entry, br_cronEntries b !! id = Some entry → legible (cron_Payload entry)).

Lemma fmap_fixed {V} (g : V → V) (m : gmap string V) :
  g <$> m = m ↔ ∀ k v, m !! k = Some v → g v = v.
Proof.
  split.
  - intros Em k v Hk. pose proof (f_equal (.!! k) Em) as Hl. cbn in Hl.
    rewrite lookup_fmap, Hk in Hl. cbn in Hl. by injection Hl.
  - intros Hg. apply map_eq. intros k. rewrite lookup_fmap.
    destruct (m !! k) as [v|] eqn:Hk; [|done]. cbn. by rewrite (Hg _ _ Hk).
Qed.

Lemma erased_row row : mapRow erased row = row ↔ legible (env_Payload (row_envelope row)).
Proof.
  rewrite <- erased_fixed. split.
  - intros Hr. by apply (f_equal (env_Payload ∘ row_envelope)) in Hr.
  - intros Hr. destruct row as [[]]. unfold mapRow, mapEnv. cbn in *. by rewrite Hr.
Qed.

Lemma erased_cron entry : mapCron erased entry = entry ↔ legible (cron_Payload entry).
Proof.
  rewrite <- erased_fixed. split.
  - intros He. by apply (f_equal cron_Payload) in He.
  - intros He. destruct entry. unfold mapCron. cbn in *. by rewrite He.
Qed.

Lemma erased_store b : mapStore erased b = b ↔ all_legible b.
Proof.
  assert (mapStore erased b = b ↔
    mapRow erased <$> br_tasks b = br_tasks b ∧ mapCron erased <$> br_cronEntries b = br_cronEntries b)
    as ->.
  { split.
    - intros Hb. split; [exact (f_equal br_tasks Hb)|exact (f_equal br_cronEntries Hb)].
    - intros [H1 H2]. destruct b. unfold mapStore. cbn in *. by rewrite H1, H2. }
  rewrite !fmap_fixed. unfold all_legible.
  split; intros [H1 H2]; split; intros k v Hk; first [apply erased_row | apply erased_cron]; eauto.
Qed.

(** [b] is what the callers of the encrypted store [eb] believe is stored. *)
Definition conceals (b eb : Broker) : Prop := all_legible eb ∧ mapStore opened eb = b.

Lemma conceals_step rnd now r r' b eb :
  conceals b eb → sealRequest rnd r = inr r' →
  let '(eb', rep) := encrypted a memory rnd now r eb in
  memory now r b = (mapStore opened eb', rep) ∧ conceals (mapStore opened eb') eb'.
Proof.
  intros [Hl <-] Hs. rewrite encrypted_call, Hs. destruct (sealRequest_spec _ _ _ Hs) as [Hfix Hopen].
  pose proof (memory_blind erased now r' eb) as Herase.
  rewrite Hfix, (proj2 (erased_store eb) Hl) in Herase.
  pose proof (memory_blind opened now r' eb) as Hsim. rewrite Hopen in Hsim.
  destruct (memory now r' eb) as [eb' rep']. unfold replying. cbn in *.
  injection Herase as Hb' Hr'. rewrite openReply_total by done.
  split; [done|]. split; [|done]. by apply erased_store.
Qed.

(** A conversation with a broker: the calls with their clock readings and
    randomness, answered in order. *)
Fixpoint converse {B} (brk : (nat → list byte) → broker B)
    (calls : list (Time * (nat → list byte) * request)) (b : B) : B * list reply :=
  match calls with
  | [] => (b, [])
  | (now, rnd, r) :: calls =>
      let '(b, rep) := brk rnd now r b in
      let '(b, reps) := converse brk calls b in (b, rep :: reps)
  end.
End Transparency.

(** C23: the encrypting broker is a drop-in replacement for the in-memory broker
    it wraps. Through any sequence of calls whose payloads can be sealed its
    callers get, reply for reply, what the plain broker answers; every payload
    it stores opens, to the payload the plain broker stores; and a call whose
    data cannot be sealed reports the cause and changes nothing. *)
Theorem encrypted_is_transparent {MR : MapRange} {E} `{Encryptor E} (a : E) calls b eb :
  LawfulEncryptor a → conceals a b eb →
  ((∀ now rnd r, (now, rnd, r) ∈ calls → ∃ r', sealRequest a rnd r = inr r') →
   (converse (encrypted a memory) calls eb).2 = (converse (λ _, memory) calls b).2 ∧
   conceals a (converse (λ _, memory) calls b).1 (converse (encrypted a memory) calls eb).1) ∧
  (∀ now rnd r err, sealRequest a rnd r = inl err →
     encrypted a memory rnd now r eb = (eb, Failed err)).
Proof.
  intros L Hc. split; [|intros now rnd r err Hs; by rewrite encrypted_call, Hs].
  revert b eb Hc. induction calls as [|[[now rnd] r] calls IH]; intros b eb Hc Hs; [done|].
  destruct (Hs now rnd r ltac:(left)) as [r' Hr']. cbn [converse].
  pose proof (conceals_step a rnd now r r' b eb Hc Hr') as Hstep.
  destruct (encrypted a memory rnd now r eb) as [eb' rep]. destruct Hstep as [-> Hc'].
  destruct (IH _ _ Hc') as [H1 H2]; [intros; eapply Hs; by right|].
  destruct (converse (encrypted a memory) calls eb') as [eb'' reps].
  destruct (converse (λ _, memory) calls (mapStore (opened a) eb')) as [b'' reps'].
  cbn in *. by rewrite H1.
Qed.

(** ** An instance *)

Definition toyRing : AESGCM := mkAESGCM {["2026" := replicate 32 x22]} "2026" (replicate 32 x22).

Lemma toyRing_lawful : LawfulEncryptor (H := AESGCM_Encryptor (G := toyGCM)) toyRing.
Proof. apply (AESGCM_lawful (H := toyGCM) "2026" [newKey]). vm_compute. reflexivity. Qed.

Definition secret_task : TaskEnvelope :=
  mkTaskEnvelope "a" "default" "mail" [x68; x69] "" ∅ None 0 "" None None None 0 "".

Definition toyNonce : nat → list byte := λ _, replicate 12 x07.

Definition secret_calls : list (Time * (nat → list byte) * request) :=
  [(1, toyNonce, REnqueue secret_task); (2, toyNonce, RLease "default" 1 10 "L");
   (3, toyNonce, RAck "a" "L" [x6f; x6b])].

Lemma encrypted_is_transparent_witness :
  let AE := AESGCM_Encryptor (G := toyGCM) in
  let run := converse (encrypted toyRing (memory (MR := elements_range)))
               secret_calls New in
  run.2 = (converse (λ _, memory (MR := elements_range)) secret_calls New).2 ∧
  conceals toyRing (converse (λ _, memory (MR := elements_range)) secret_calls New).1 run.1 ∧
  (env_Payload ∘ row_envelope <$> br_tasks run.1 !! "a") ≠ Some (env_Payload secret_task).
Proof.
  intros AE run. assert (Hsame : run.2 = (converse (λ _, memory (MR := elements_range)) secret_calls New).2 ∧
    conceals toyRing (converse (λ _, memory (MR := elements_range)) secret_calls New).1 run.1).
  { refine (proj1 (encrypted_is_transparent (MR := elements_range) toyRing secret_calls New New
      toyRing_lawful _) _).
    - split; [|reflexivity]. split; intros id row Hl; cbn in Hl; by rewrite lookup_empty in Hl.
    - intros now rnd r Hin. unfold secret_calls in Hin.
      repeat (apply elem_of_cons in Hin as [Hin|Hin]; [injection Hin as -> -> ->; eexists; vm_compute; reflexivity|]).
      by apply not_elem_of_nil in Hin. }
  destruct Hsame as [H1 H2]. split; [exact H1|]. split; [exact H2|]. vm_compute. discriminate.
Defined.
