(* ===== verification/Engine.v ===== *)
(** * The engine (internal/actors/engine.go, internal/actors/events.go)

    The enqueue entry points over any broker, and the coalescing of wake-ups.
    The actor system is the list of messages handed to it. A wake is a turn of
    a mutex-guarded record shared by the callers and a drain goroutine: each
    critical section is one step of [waker]. *)

From S2P Require Import Prelude Proto Events BrokerApi Memory Messages EventBus Encryption BrokerCalls.

#[local] Open Scope Z_scope.

(** ** Enqueueing *)

(** What a call leaves behind: the broker's store, the counter, the wakes
    requested, oldest first, and the number of ids drawn. *)
Record Engine (B : Type) := mkEngine {
  en_store : B;
  en_enqueued : Z;
  en_wakes : list string;
  en_drawn : nat }.
Arguments mkEngine {_} _ _ _ _.
Arguments en_store {_} _.
Arguments en_enqueued {_} _.
Arguments en_wakes {_} _.
Arguments en_drawn {_} _.

#[global] Instance Engine_eta {B} : Eta (Engine B) := λ e,
  mkEngine (en_store e) (en_enqueued e) (en_wakes e) (en_drawn e).

(** The error of a method that returns only one. *)
Definition errorOf (r : reply) : option callError :=
  match r with Failed err => Some err | _ => None end.

Section Enqueue.
Context {MR : MapRange} {B : Type} (taskLog : broker B) (newID : nat → string).

(** [wake]: the effect on the actor system is that of [waker] below. *)
Definition requestWake (queue : string) (e : Engine B) : Engine B :=
  e <| en_wakes := en_wakes e ++ [queue] |>.

(** [task.Id = e.runtime.NewID()] when the task carries none. *)
Definition assignID (task : TaskEnvelope) (e : Engine B) : TaskEnvelope * Engine B :=
  if decide (env_Id task = "") then
    (task <| env_Id := newID (en_drawn e) |>, e <| en_drawn := S (en_drawn e) |>)
  else (task, e).

(** The task with its id, which the caller sees, the engine and the error. *)
Definition engine_Enqueue (task : TaskEnvelope) (now : Time) (e : Engine B)
    : TaskEnvelope * Engine B * option callError :=
  let '(task, e) := assignID task e in
  let '(b, r) := taskLog now (REnqueue task) (en_store e) in
  let e := e <| en_store := b |> in
  match errorOf r with
  | Some err => (task, e, Some err)
  | None => (task, requestWake (env_Queue task) (e <| en_enqueued := en_enqueued e + 1 |>), None)
  end.

Fixpoint assignIDs (tasks : list TaskEnvelope) (e : Engine B) : list TaskEnvelope * Engine B :=
  match tasks with
  | [] => ([], e)
  | task :: tasks =>
      let '(task, e) := assignID task e in
      let '(tasks, e) := assignIDs tasks e in (task :: tasks, e)
  end.

Definition queuesOf (tasks : list TaskEnvelope) : gset string := list_to_set (env_Queue <$> tasks).

Definition engine_EnqueueBatch (tasks : list TaskEnvelope) (now : Time) (e : Engine B)
    : list TaskEnvelope * Engine B * option callError :=
  match tasks with
  | [] => ([], e, None)
  | _ =>
      let '(tasks, e) := assignIDs tasks e in
      let '(b, r) := taskLog now (REnqueueBatch tasks) (en_store e) in
      let e := e <| en_store := b |> in
      match errorOf r with
      | Some err => (tasks, e, Some err)
      | None =>
          let e := e <| en_enqueued := en_enqueued e + Z.of_nat (length tasks) |> in
          (tasks, foldl (λ e queue, requestWake queue e) e (range_keys (queuesOf tasks)), None)
      end
  end.
End Enqueue.

(** ** Coalesced wake-ups *)

Record queueWaker := mkQueueWaker { qw_dirty : bool; qw_running : bool }.

(** Where a drain goroutine is: about to take the lock, or past it and about to
    tell the grain. *)
Inductive drainPoint := AtCheck | AtSend.

(** The critical section of [wake]; whether a drain goroutine is started. *)
Definition wake (w : queueWaker) : queueWaker * bool :=
  if qw_running w then (mkQueueWaker true true, false) else (mkQueueWaker true true, true).

(** The critical section of one turn of [drainWaker]: whether it goes on to
    send. *)
Definition drainCheck (w : queueWaker) : queueWaker * bool :=
  if negb (qw_dirty w) then (mkQueueWaker (qw_dirty w) false, false)
  else (mkQueueWaker false (qw_running w), true).

(** One queue's waker with its goroutines. The history counts the wakes
    requested and the sends, and records of each goroutine past the check, and
    of the last send, how many wakes had been requested when it passed the
    check: those are the enqueues the send announces. *)
Record wakerState := mkWakerState {
  ws_waker : queueWaker;
  ws_drains : list (drainPoint * nat);
  ws_requested : nat;
  ws_sent : nat;
  ws_announced : nat }.

#[global] Instance wakerState_eta : Eta wakerState := λ s,
  mkWakerState (ws_waker s) (ws_drains s) (ws_requested s) (ws_sent s) (ws_announced s).

Definition idleWaker : wakerState := mkWakerState (mkQueueWaker false false) [] 0 0 0.

(** A caller's turn. *)
Definition requestStep (s : wakerState) : wakerState :=
  let '(w, spawn) := wake (ws_waker s) in
  mkWakerState w (ws_drains s ++ if spawn : bool then [(AtCheck, 0%nat)] else [])
    (S (ws_requested s)) (ws_sent s) (ws_announced s).

(** A turn of the [i]-th goroutine; the send may fail, which the goroutine only
    logs. *)
Definition drainStep (i : nat) (s : wakerState) : wakerState :=
  match ws_drains s !! i with
  | None => s
  | Some (AtCheck, _) =>
      let '(w, go) := drainCheck (ws_waker s) in
      mkWakerState w
        (if go : bool then <[i := (AtSend, ws_requested s)]> (ws_drains s) else delete i (ws_drains s))
        (ws_requested s) (ws_sent s) (ws_announced s)
  | Some (AtSend, covered) =>
      mkWakerState (ws_waker s) (<[i := (AtCheck, 0%nat)]> (ws_drains s)) (ws_requested s)
        (S (ws_sent s)) (Nat.max covered (ws_announced s))
  end.

(** Callers and goroutines interleave freely. *)
Inductive waker_step (s : wakerState) : wakerState → Prop :=
  | step_request : waker_step s (requestStep s)
  | step_drain i p : ws_drains s !! i = Some p → waker_step s (drainStep i s).

(** ** The event topic *)

(** [topicSink.Emit]: what reaches the topic actor, [None] when there is none or
    the event is nil; a publish may be lost on the way. *)
Definition topicSink_Emit (topicActor : bool) (event : option TaskEvent) : option TaskEvent :=
  match event with
  | None => None
  | Some event => if topicActor then Some event else None
  end.

Inductive relayMessage :=
  | RelayPostStart
  | RelaySubscribeAck
  | RelayEvent (event : TaskEvent)
  | RelayOther.

Inductive relayEffect := SubscribeTopic | RelayUnhandled.

(** [eventRelay.Receive]: the node's bus after the message and what the relay
    asks of the actor system. *)
Definition relay_Receive {MR : MapRange} (topicActor : bool) (m : relayMessage) (bus : EventBus)
    : EventBus * list relayEffect :=
  match m with
  | RelayPostStart => (bus, if topicActor then [SubscribeTopic] else [])
  | RelaySubscribeAck => (bus, [])
  | RelayEvent event => (Emit (Some event) bus, [])
  | RelayOther => (bus, [RelayUnhandled])
  end.

(** ** Wake-ups are coalesced and never lost *)

(** At most one goroutine drains, exactly while [running]; a wake is owed only
    while it does, and what is not owed has been announced or is about to be. *)
Inductive waker_ok : wakerState → Prop :=
  | ok_idle n k : (k <= n)%nat → waker_ok (mkWakerState (mkQueueWaker false false) [] n k n)
  | ok_check_owed c n k a : (a <= n)%nat → (k < n)%nat →
      waker_ok (mkWakerState (mkQueueWaker true true) [(AtCheck, c)] n k a)
  | ok_check_clean c n k : (k <= n)%nat →
      waker_ok (mkWakerState (mkQueueWaker false true) [(AtCheck, c)] n k n)
  | ok_send_owed c n k a : (c < n)%nat → (a <= c)%nat → (k < c)%nat →
      waker_ok (mkWakerState (mkQueueWaker true true) [(AtSend, c)] n k a)
  | ok_send_clean n k a : (a <= n)%nat → (k < n)%nat →
      waker_ok (mkWakerState (mkQueueWaker false true) [(AtSend, n)] n k a).

Lemma waker_ok_step s s' : waker_ok s → waker_step s s' → waker_ok s'.
Proof.
  intros Hok Hs. destruct Hs as [|i p Hi].
  - destruct Hok; cbn; constructor; lia.
  - destruct Hok; cbn in Hi; destruct i as [|i]; try done; cbn in Hi;
      unfold drainStep; cbn; rewrite ?Nat.max_l by lia; constructor; lia.
Qed.

Lemma waker_ok_reachable s : rtc waker_step idleWaker s → waker_ok s.
Proof.
  intros Hr. assert (H0 : waker_ok idleWaker) by (apply ok_idle; lia).
  induction Hr as [|? ? ? Hs _ IH]; [done|]. apply IH. by eapply waker_ok_step.
Qed.

(** The drain goroutine left alone. *)
Definition drainAlone (n : nat) (s : wakerState) : wakerState := Nat.iter n (drainStep 0) s.

(** A schedule: the turns of callers and of the drain goroutine, in the order in
    which they take the lock. *)
Inductive wakerTurn := CallerTurn | DrainTurn.

Definition takeTurn (s : wakerState) (turn : wakerTurn) : wakerState :=
  match turn with CallerTurn => requestStep s | DrainTurn => drainStep 0 s end.

Fixpoint drainTurns (turns : list wakerTurn) : nat :=
  match turns with
  | [] => 0
  | DrainTurn :: turns => S (drainTurns turns)
  | CallerTurn :: turns => drainTurns turns
  end.

(** How many turns the goroutine needs to announce the first [n] requests. *)
Definition turnsLeft (n : nat) (s : wakerState) : nat :=
  if decide (n <= ws_announced s)%nat then 0%nat
  else match ws_drains s with
       | [(AtCheck, _)] => 2%nat
       | [(AtSend, c)] => if decide (n <= c)%nat then 1%nat else 3%nat
       | _ => 0%nat
       end.

Lemma takeTurn_left n turn s :
  waker_ok s → (n <= ws_requested s)%nat →
  waker_ok (takeTurn s turn) ∧ (n <= ws_requested (takeTurn s turn))%nat ∧
  (turnsLeft n (takeTurn s turn) <= turnsLeft n s - match turn with DrainTurn => 1 | _ => 0 end)%nat.
Proof.
  intros Hok Hn. destruct turn.
  - split; [by eapply waker_ok_step, step_request|].
    unfold turnsLeft. destruct Hok; cbn in *; repeat case_decide; lia.
  - split.
    { destruct (ws_drains s !! 0%nat) as [p|] eqn:E; [by eapply waker_ok_step, step_drain|].
      cbn. unfold drainStep. by rewrite E. }
    unfold turnsLeft. destruct Hok; cbn -[Nat.max] in *; repeat case_decide; lia.
Qed.

Lemma schedule_left n turns s :
  waker_ok s → (n <= ws_requested s)%nat →
  waker_ok (foldl takeTurn s turns) ∧ (n <= ws_requested (foldl takeTurn s turns))%nat ∧
  (turnsLeft n (foldl takeTurn s turns) <= turnsLeft n s - drainTurns turns)%nat.
Proof.
  revert s. induction turns as [|turn turns IH]; intros s Hok Hn; cbn [foldl].
  { split_and!; [done..|]. cbn. lia. }
  destruct (takeTurn_left n turn s Hok Hn) as (H1 & H2 & H3).
  destruct (IH _ H1 H2) as (H4 & H5 & H6). split_and!; [done..|].
  destruct turn; cbn [drainTurns] in *; lia.
Qed.

(** Nothing left to announce once the goroutine needs no more turns. *)
Lemma announced_when_done n s :
  waker_ok s → (n <= ws_requested s)%nat → turnsLeft n s = 0%nat → (n <= ws_announced s)%nat.
Proof.
  unfold turnsLeft. intros Hok Hn. destruct Hok; cbn in *; repeat case_decide; lia.
Qed.

Lemma turnsLeft_bound n s : (turnsLeft n s <= 3)%nat.
Proof. unfold turnsLeft. repeat case_match; lia. Qed.

(** C24: wake-ups are coalesced and never lost, however enqueues and the drain
    goroutine interleave. At most one goroutine per queue runs, and one does
    while a request is not announced; there are never more sends than requests;
    whenever no goroutine runs, the last send was started after the last
    request; in every schedule of callers and goroutine, three turns of the
    goroutine announce all that was requested before them; and from any point on
    the goroutine, left alone, stops within five turns with every request
    announced. *)
Theorem wakes_never_lost s :
  rtc waker_step idleWaker s →
  (length (ws_drains s) <= 1)%nat ∧
  (qw_running (ws_waker s) = true ↔ length (ws_drains s) = 1%nat) ∧
  (ws_sent s <= ws_requested s)%nat ∧
  (ws_drains s = [] → ws_announced s = ws_requested s) ∧
  (∀ turns, (3 <= drainTurns turns)%nat →
     (ws_requested s <= ws_announced (foldl takeTurn s turns))%nat) ∧
  (let s' := drainAlone 5 s in
   ws_drains s' = [] ∧ ws_requested s' = ws_requested s ∧ ws_announced s' = ws_requested s).
Proof.
  intros Hok%waker_ok_reachable.
  assert (Hsched : ∀ turns, (3 <= drainTurns turns)%nat →
    (ws_requested s <= ws_announced (foldl takeTurn s turns))%nat).
  { intros turns Ht.
    destruct (schedule_left (ws_requested s) turns s Hok ltac:(lia)) as (H1 & H2 & H3).
    pose proof (turnsLeft_bound (ws_requested s) s). apply announced_when_done; [done..|lia]. }
  unfold drainAlone. destruct Hok; cbn -[Nat.max takeTurn];
    repeat split; try done; lia.
Qed.

(** A request, the goroutine past its check, a second request during the send. *)
Definition busy_waker : wakerState := requestStep (drainStep 0 (requestStep idleWaker)).

Lemma wakes_never_lost_witness :
  rtc waker_step idleWaker busy_waker ∧ ws_requested busy_waker = 2%nat ∧
  length (ws_drains busy_waker) = 1%nat ∧
  (2 <= ws_announced (foldl takeTurn busy_waker
     [DrainTurn; CallerTurn; DrainTurn; CallerTurn; DrainTurn]))%nat ∧
  ws_announced (drainAlone 5 busy_waker) = 2%nat.
Proof.
  assert (Hr : rtc waker_step idleWaker busy_waker).
  { eapply rtc_l; [apply step_request|]. eapply rtc_l; [eapply (step_drain _ 0); reflexivity|].
    eapply rtc_l; [apply step_request|]. apply rtc_refl. }
  split; [exact Hr|]. split; [reflexivity|]. split; [reflexivity|].
  destruct (wakes_never_lost busy_waker Hr) as (_ & _ & _ & _ & Hs & _ & _ & Ha).
  split; [|exact Ha]. apply (Hs [DrainTurn; CallerTurn; DrainTurn; CallerTurn; DrainTurn]).
  vm_compute. lia.
Defined.
