(* ===== verification/Api.v ===== *)
(** * What the API services share (server/api)

    The error codes, the queue name grammar, and the effects of a handler: it
    changes the broker's store, hands messages to the actor system, and returns
    a value or an error. *)

From S2P Require Import Prelude Proto BrokerApi Encryption BrokerCalls Messages.
From Stdlib Require Import Strings.Ascii.

(** The connect error codes the services use. *)
Inductive Code :=
  | CodeInvalidArgument | CodeUnauthenticated | CodePermissionDenied | CodeNotFound
  | CodeAlreadyExists | CodeFailedPrecondition | CodeUnavailable | CodeInternal.

#[global] Instance Code_eq_dec : EqDecision Code.
Proof. solve_decision. Defined.

(** ** Names *)

(** [queueNamePattern]: ^[a-zA-Z0-9][a-zA-Z0-9-_.]*$ *)
Definition between (lo hi c : ascii) : bool :=
  (Ascii.nat_of_ascii lo <=? Ascii.nat_of_ascii c)%nat && (Ascii.nat_of_ascii c <=? Ascii.nat_of_ascii hi)%nat.
Definition alphanumeric (c : ascii) : bool :=
  between "a" "z" c || between "A" "Z" c || between "0" "9" c.
Definition nameChar (c : ascii) : bool :=
  alphanumeric c || Ascii.eqb c "-" || Ascii.eqb c "_" || Ascii.eqb c ".".
Definition queueNamePattern (s : string) : bool :=
  match s with
  | EmptyString => false
  | String c rest => alphanumeric c && forallb nameChar (String.list_ascii_of_string rest)
  end.

(** ** Effects *)

(** What a handler asks of the actor system. *)
Inductive apiEffect :=
  | TellQueue (queue : string) (message : grainMessage)
  | ReconcileWebhookWorkers.

(** A computation of a handler over the stores [B], with errors [E]. *)
Definition eff (B E X : Type) : Type := B → B * list apiEffect * (E + X).

Section Effects.
Context {B E : Type}.

Definition returns {X} (x : X) : eff B E X := λ b, (b, [], inr x).
Definition fails {X} (err : E) : eff B E X := λ b, (b, [], inl err).

(** [m], then [k] of its value; an error ends the computation. *)
Definition andThen {X Y} (m : eff B E X) (k : X → eff B E Y) : eff B E Y := λ b,
  let '(b, out, r) := m b in
  match r with
  | inl err => (b, out, inl err)
  | inr x => let '(b, out', r) := k x b in (b, out ++ out', r)
  end.

(** One effect on the actor system; [ok] is whether it was accepted. *)
Definition asking (e : apiEffect) (ok : bool) (err : E) : eff B E unit := λ b,
  (b, [e], if ok then inr () else inl err).

(** A best-effort effect, whose failure is only logged. *)
Definition hint (e : apiEffect) : eff B E unit := λ b, (b, [e], inr ()).
End Effects.

Declare Scope eff_scope.
Delimit Scope eff_scope with eff.
Notation "x <- m ;; k" := (andThen m (λ x, k)) (at level 100, m at next level, right associativity) : eff_scope.
Notation "m ;;; k" := (andThen m (λ _, k)) (at level 100, right associativity) : eff_scope.

(** A broker call, with its error as the computation's. *)
Definition calling {B} (taskLog : broker B) (now : Time) (r : request) : eff B callError reply := λ b,
  let '(b, rep) := taskLog now r b in
  (b, [], match rep with Failed err => inl err | rep => inr rep end).

(** The computation with its errors mapped to codes. *)
Definition coded {B E X} (code : E → Code) (m : eff B E X) : eff B Code X := λ b,
  let '(b, out, r) := m b in (b, out, match r with inl err => inl (code err) | inr x => inr x end).
