(* ===== verification/Session.v ===== *)
(** * Worker sessions (server/api/session.go, server/api/worker_service.go)

    The frame state machine of a session, the registry of live sessions and the
    session handler as the sequence of effects it has. What the stream delivers
    and whether a send, a spawn or a forward succeeds are arguments. *)

From S2P Require Import Prelude Proto BrokerApi Messages Backoff TaskLog Gateway Api.

#[local] Open Scope Z_scope.

(** ** Frames *)

Record Hello := mkHello {
  he_Queues : gmap string Z;
  he_Concurrency : Z;
  he_SdkVersion : string;
  he_MinServerVersion : string;
  he_BatchTypes : list string }.

(** A worker frame; [FrameEmpty] is one without a recognized payload. *)
Inductive WorkerMessage :=
  | FrameHello (hello : Hello)
  | FrameCredit (n : Z)
  | FrameResult (result : Result)
  | FrameBatchResult (results : list Result)
  | FrameHeartbeat (activeTaskIDs : list string)
  | FrameProgress (taskID : string) (percent : Z) (message : string)
  | FrameEmpty.

Inductive sessionError :=
  | errFrameBeforeHello
  | errDuplicateHello
  | errEmptyFrame
  | errSdkVersion
  | errServerVersion
  | errConcurrency
  | errNoQueues
  | errQueueName (queue : string)
  | errQueueWeight (queue : string)
  | errCredit
  | errCreditExceeds
  | errResultID
  | errOutcome
  | errProgressID.

(** golang.org/x/mod/semver, and the build's version. *)
Class Semver := {
  semver_IsValid : string → bool;
  semver_Compare : string → string → Z;
  serverVersion : string }.

Definition minSDKVersion : string := "v0.0.0-0".

(** ** The frame state machine *)

Record sessionState := mkSessionState { ss_helloSeen : bool; ss_concurrency : Z }.

Definition newSessionState : sessionState := mkSessionState false 0.

Section Validation.
Context {MR : MapRange} {SV : Semver}.

(** The loop over the declared queues: the first one that fails. *)
Fixpoint validateQueues (queues : list (string * Z)) : option sessionError :=
  match queues with
  | [] => None
  | (name, weight) :: queues =>
      if negb (queueNamePattern name) then Some (errQueueName name)
      else if weight <=? 0 then Some (errQueueWeight name)
      else validateQueues queues
  end.

Definition validateHello (hello : Hello) : option sessionError :=
  let version := he_SdkVersion hello in
  let required := he_MinServerVersion hello in
  if semver_IsValid version && (semver_Compare version minSDKVersion <? 0) then Some errSdkVersion
  else if semver_IsValid required && semver_IsValid serverVersion &&
          (semver_Compare serverVersion required <? 0) then Some errServerVersion
  else if he_Concurrency hello <=? 0 then Some errConcurrency
  else if decide (size (he_Queues hello) = 0%nat) then Some errNoQueues
  else validateQueues (range_map (he_Queues hello)).

Definition validateCredit (s : sessionState) (n : Z) : option sessionError :=
  if n <=? 0 then Some errCredit
  else if ss_concurrency s <? n then Some errCreditExceeds
  else None.

Definition validateResult (result : Result) : option sessionError :=
  if decide (res_TaskId result = "") then Some errResultID
  else
    match res_Outcome result with
    | TASK_OUTCOME_SUCCESS | TASK_OUTCOME_RETRY | TASK_OUTCOME_SKIP_RETRY
    | TASK_OUTCOME_RELEASED => None
    | _ => Some errOutcome
    end.

Fixpoint validateBatchResult (results : list Result) : option sessionError :=
  match results with
  | [] => None
  | result :: results =>
      match validateResult result with
      | Some err => Some err
      | None => validateBatchResult results
      end
  end.

Definition validateProgress (taskID : string) : option sessionError :=
  if decide (taskID = "") then Some errProgressID else None.

(** [check]: the state after the frame and the violation. *)
Definition check (message : WorkerMessage) (s : sessionState) : sessionState * option sessionError :=
  match message with
  | FrameHello hello =>
      if ss_helloSeen s then (s, Some errDuplicateHello)
      else
        match validateHello hello with
        | Some err => (s, Some err)
        | None => (mkSessionState true (he_Concurrency hello), None)
        end
  | FrameCredit n =>
      if ss_helloSeen s then (s, validateCredit s n) else (s, Some errFrameBeforeHello)
  | FrameResult result =>
      if ss_helloSeen s then (s, validateResult result) else (s, Some errFrameBeforeHello)
  | FrameBatchResult results =>
      if ss_helloSeen s then (s, validateBatchResult results) else (s, Some errFrameBeforeHello)
  | FrameHeartbeat _ =>
      if ss_helloSeen s then (s, None) else (s, Some errFrameBeforeHello)
  | FrameProgress taskID _ _ =>
      if ss_helloSeen s then (s, validateProgress taskID) else (s, Some errFrameBeforeHello)
  | FrameEmpty =>
      if ss_helloSeen s then (s, Some errEmptyFrame) else (s, Some errFrameBeforeHello)
  end.
End Validation.

(** ** The registry *)

Record SessionSnapshot := mkSessionSnapshot {
  sn_ID : string;
  sn_Queues : list string;
  sn_Concurrency : Z;
  sn_SDKVersion : string;
  sn_ConnectedAt : Time }.

Record WorkerService := mkWorkerService {
  wo_sessions : gmap string SessionSnapshot;
  wo_draining : bool }.

#[global] Instance WorkerService_eta : Eta WorkerService := λ s,
  mkWorkerService (wo_sessions s) (wo_draining s).

Definition NewWorkerService : WorkerService := mkWorkerService ∅ false.

Definition ActiveSessions (s : WorkerService) : Z := Z.of_nat (size (wo_sessions s)).

Definition Sessions {MR : MapRange} (s : WorkerService) : list SessionSnapshot :=
  SortFunc (λ a other, strings_Compare (sn_ID a) (sn_ID other)) (range_map (wo_sessions s)).*2.

(** The opening of [DrainSessions]: the sessions it cancels. It then polls
    [ActiveSessions] until it is zero or its context lapses. *)
Definition beginDrain {MR : MapRange} (s : WorkerService) : WorkerService * list string :=
  (s <| wo_draining := true |>, range_keys (dom (wo_sessions s))).

(** [None] is [errNodeDraining]. *)
Definition registerSession (snapshot : SessionSnapshot) (s : WorkerService) : option WorkerService :=
  if wo_draining s then None
  else Some (s <| wo_sessions := <[sn_ID snapshot := snapshot]> (wo_sessions s) |>).

Definition unregisterSession (sessionID : string) (s : WorkerService) : WorkerService :=
  s <| wo_sessions := delete sessionID (wo_sessions s) |>.

(** ** The session handler *)

Definition heartbeatDivisor : Z := 3.

Record Welcome := mkWelcome {
  we_SessionId : string;
  we_LeaseTtl : Duration;
  we_HeartbeatInterval : Duration;
  we_ServerVersion : string;
  we_MinSdkVersion : string }.

(** What the handler does to the system, in order; [StoppedGateway] is the run of
    the deferred [handle.Stop], whose error is only logged. *)
Inductive sessionEffect :=
  | Registered (snapshot : SessionSnapshot)
  | SentWelcome (welcome : Welcome)
  | SpawnedGateway (session : GatewaySession)
  | Forwarded (message : gatewayMessage)
  | StoppedGateway
  | ClosedSender
  | Unregistered (sessionID : string).

(** How the handler returns: nil, a coded error, or the stream's own error. *)
Inductive sessionEnd := EndedNil | EndedCode (code : Code) | EndedStream.

(** [forward]; [None] for a frame it has no case for. *)
Definition forward (message : WorkerMessage) : option gatewayMessage :=
  match message with
  | FrameCredit n => Some (GCredit n)
  | FrameResult result => Some (GResult result)
  | FrameBatchResult results => Some (GBatchResult results)
  | FrameHeartbeat ids => Some (GHeartbeat ids)
  | FrameProgress id percent text => Some (GProgress id percent text)
  | _ => None
  end.

(** The effect of a forward; one that fails reaches no gateway. *)
Definition forwarded (message : WorkerMessage) (delivered : bool) : list sessionEffect :=
  match forward message with
  | Some m => if delivered then [Forwarded m] else []
  | None => []
  end.

(** The select of the session loop: a frame, with whether its forward succeeds;
    the end of the stream; or the end of the session's context, with the frames
    already received. *)
Inductive sessionEvent :=
  | FrameReceived (message : WorkerMessage) (delivered : bool)
  | ReceiveEnded (eof : bool)
  | SessionDone (buffered : list (WorkerMessage * bool)).

Section Handler.
Context {MR : MapRange} {SV : Semver}.

Fixpoint flushFrames (frames : list (WorkerMessage * bool)) (state : sessionState)
    : list sessionEffect :=
  match frames with
  | [] => []
  | (message, delivered) :: frames =>
      let '(state, violation) := check message state in
      match violation with
      | Some _ => flushFrames frames state
      | None => forwarded message delivered ++ flushFrames frames state
      end
  end.

(** The loop of [Session]; without a further event it waits, which the list's
    end stands for. *)
Fixpoint sessionLoop (events : list sessionEvent) (state : sessionState)
    : list sessionEffect * option sessionEnd :=
  match events with
  | [] => ([], None)
  | SessionDone buffered :: _ => (flushFrames buffered state, Some EndedNil)
  | ReceiveEnded eof :: _ => ([], Some (if eof then EndedNil else EndedStream))
  | FrameReceived message delivered :: events =>
      let '(state, violation) := check message state in
      match violation with
      | Some _ => ([], Some (EndedCode CodeInvalidArgument))
      | None =>
          if negb delivered && bool_decide (is_Some (forward message)) then
            ([], Some (EndedCode CodeInternal))
          else
            let '(effects, ended) := sessionLoop events state in
            (forwarded message delivered ++ effects, ended)
      end
  end.

(** The environment of one handler: its id, the clock, the lease lifetime, and
    whether the node drains, the welcome is sent and the gateway spawns. *)
Record sessionWorld := mkSessionWorld {
  sw_id : string;
  sw_now : Time;
  sw_leaseTTL : Duration;
  sw_draining : bool;
  sw_welcomeSent : bool;
  sw_spawned : bool }.

Definition helloSession (w : sessionWorld) (hello : Hello) : GatewaySession :=
  mkGatewaySession (sw_id w)
    (SortFunc strings_Compare (range_keys (dom (he_Queues hello)))) (he_Queues hello)
    (he_Concurrency hello) (he_BatchTypes hello).

Definition helloSnapshot (w : sessionWorld) (hello : Hello) : SessionSnapshot :=
  mkSessionSnapshot (sw_id w) (ses_Queues (helloSession w hello)) (he_Concurrency hello)
    (he_SdkVersion hello) (sw_now w).

Definition welcome (w : sessionWorld) : Welcome :=
  mkWelcome (sw_id w) (sw_leaseTTL w) (Z.quot (sw_leaseTTL w) heartbeatDivisor) serverVersion
    minSDKVersion.

(** [Session] after its first frame arrived. The deferred calls run in reverse
    order of their registration whatever ended the session; a session whose
    loop still waits has not run them. *)
Definition Session (w : sessionWorld) (first : WorkerMessage) (events : list sessionEvent)
    : list sessionEffect * option sessionEnd :=
  let '(state, violation) := check first newSessionState in
  match violation, first with
  | Some _, _ => ([], Some (EndedCode CodeInvalidArgument))
  | None, FrameHello hello =>
      if sw_draining w then ([], Some (EndedCode CodeUnavailable))
      else
        let registered := [Registered (helloSnapshot w hello)] in
        let released := [ClosedSender; Unregistered (sw_id w)] in
        if negb (sw_welcomeSent w) then (registered ++ released, Some EndedStream)
        else
          let welcomed := registered ++ [SentWelcome (welcome w)] in
          if negb (sw_spawned w) then (welcomed ++ released, Some (EndedCode CodeInternal))
          else
            let '(effects, ended) := sessionLoop events state in
            (welcomed ++ [SpawnedGateway (helloSession w hello)] ++ effects ++
               match ended with Some _ => [StoppedGateway] ++ released | None => [] end, ended)
  | None, _ => ([], None)
  end.
End Handler.
