(* ===== verification/SessionProps.v ===== *)
(** * A worker session follows its protocol *)

From S2P Require Import Prelude Proto BrokerApi Messages Backoff TaskLog Gateway Api Session.

#[local] Open Scope Z_scope.

(** ** The protocol, stated on its own *)

Definition result_ok (r : Result) : bool :=
  negb (bool_decide (res_TaskId r = "")) && negb (bool_decide (res_Outcome r = TASK_OUTCOME_UNSPECIFIED)).

(** The frames a worker with [c] slots may send after its Hello. *)
Definition frame_ok (c : Z) (m : WorkerMessage) : bool :=
  match m with
  | FrameCredit n => (1 <=? n) && (n <=? c)
  | FrameResult r => result_ok r
  | FrameBatchResult rs => forallb result_ok rs
  | FrameHeartbeat _ => true
  | FrameProgress id _ _ => negb (bool_decide (id = ""))
  | FrameHello _ | FrameEmpty => false
  end.

Definition hello_ok (hello : Hello) : Prop :=
  0 < he_Concurrency hello ∧ he_Queues hello ≠ ∅ ∧
  ∀ q weight, he_Queues hello !! q = Some weight → queueNamePattern q = true ∧ 0 < weight.

(** The frames before the first violation. *)
Fixpoint admitted (c : Z) (frames : list WorkerMessage) : list WorkerMessage :=
  match frames with
  | [] => []
  | m :: frames => if frame_ok c m then m :: admitted c frames else []
  end.

Section SessionProps.
Context {MR : MapRange} {SV : Semver}.

(** ** The state machine against the protocol *)

Lemma validateResult_ok r : validateResult r = None ↔ result_ok r = true.
Proof.
  unfold validateResult, result_ok. case_decide as Hid.
  - by rewrite bool_decide_true.
  - rewrite bool_decide_false by done. by destruct (res_Outcome r).
Qed.

Lemma validateBatchResult_ok rs : validateBatchResult rs = None ↔ forallb result_ok rs = true.
Proof.
  induction rs as [|r rs IH]; [done|]. cbn. rewrite andb_true_iff, <- IH, <- validateResult_ok.
  destruct (validateResult r); naive_solver.
Qed.

(** Past the Hello the state is fixed, and exactly the frames of the protocol
    pass. *)
Lemma check_open c m :
  check m (mkSessionState true c) = (mkSessionState true c, (check m (mkSessionState true c)).2) ∧
  ((check m (mkSessionState true c)).2 = None ↔ frame_ok c m = true).
Proof.
  destruct m; cbn; (split; [done|]); try done.
  - unfold validateCredit. cbn. rewrite andb_true_iff, !Z.leb_le.
    destruct (Z.leb_spec n 0), (Z.ltb_spec c n); naive_solver lia.
  - apply validateResult_ok.
  - apply validateBatchResult_ok.
  - unfold validateProgress. case_decide; [by rewrite bool_decide_true|by rewrite bool_decide_false].
Qed.

Lemma validateQueues_ok l :
  validateQueues l = None ↔ Forall (λ p, queueNamePattern p.1 = true ∧ 0 < p.2) l.
Proof.
  induction l as [|[q weight] l IH]; [by split|]. cbn. rewrite Forall_cons, <- IH. cbn.
  destruct (queueNamePattern q), (Z.leb_spec weight 0); naive_solver lia.
Qed.

Lemma validateHello_ok hello : validateHello hello = None → hello_ok hello.
Proof.
  unfold validateHello. destruct (_ && _); [done|]. destruct (_ && _); [done|].
  destruct (Z.leb_spec (he_Concurrency hello) 0); [done|]. case_decide as Hs; [done|].
  intros Hq%validateQueues_ok. split; [lia|].
  split; [intros Hq0; apply Hs; by rewrite Hq0|].
  intros q weight Hl. rewrite Forall_forall in Hq. by apply (Hq (q, weight)), elem_of_range_map.
Qed.

Lemma check_first m s :
  check m newSessionState = (s, None) →
  ∃ hello, m = FrameHello hello ∧ hello_ok hello ∧ s = mkSessionState true (he_Concurrency hello).
Proof.
  destruct m as [hello| | | | | |]; cbn; try done. destruct (validateHello hello) eqn:Hv; [done|].
  intros [= <-]. exists hello. split; [done|]. split; [by apply validateHello_ok|done].
Qed.

(** ** The loop *)

(** What a session with [c] slots may hand to its gateway. *)
Definition handed_over (c : Z) (e : sessionEffect) : Prop :=
  ∃ m g, e = Forwarded g ∧ forward m = Some g ∧ frame_ok c m = true.

Lemma forwarded_ok c m delivered :
  frame_ok c m = true → Forall (handed_over c) (forwarded m delivered).
Proof.
  intros Hm. unfold forwarded. destruct (forward m) as [g|] eqn:Hg; [|done].
  destruct delivered; [|done]. constructor; [|done]. by exists m, g.
Qed.

Lemma flushFrames_ok c frames : Forall (handed_over c) (flushFrames frames (mkSessionState true c)).
Proof.
  induction frames as [|[m d] frames IH]; cbn; [done|]. destruct (check_open c m) as [-> Hm].
  destruct ((check m _).2) as [err|]; [done|]. apply Forall_app. split; [|done].
  by apply forwarded_ok, Hm.
Qed.

Lemma sessionLoop_ok c events :
  Forall (handed_over c) (sessionLoop events (mkSessionState true c)).1.
Proof.
  induction events as [|[m d|eof|buffered] events IH]; cbn; try done; [|apply flushFrames_ok].
  destruct (check_open c m) as [-> Hm]. destruct ((check m _).2) as [err|]; [done|].
  destruct (negb d && _); [done|]. destruct (sessionLoop events _) as [effects ended]. cbn in *.
  apply Forall_app. split; [by apply forwarded_ok, Hm|done].
Qed.

(** The frames of a worker that then closes its side, all delivered. *)
Definition deliveredThenClosed (frames : list WorkerMessage) : list sessionEvent :=
  ((λ m, FrameReceived m true) <$> frames) ++ [ReceiveEnded true].

Lemma sessionLoop_frames c frames :
  sessionLoop (deliveredThenClosed frames) (mkSessionState true c) =
    (Forwarded <$> omap forward (admitted c frames),
     Some (if forallb (frame_ok c) frames then EndedNil else EndedCode CodeInvalidArgument)).
Proof.
  unfold deliveredThenClosed. induction frames as [|m frames IH]; [done|].
  cbn [fmap list_fmap app sessionLoop admitted forallb]. destruct (check_open c m) as [-> Hm].
  destruct ((check m _).2) as [err|].
  - destruct (frame_ok c m); [|done]. by destruct Hm as [_ Hm]; specialize (Hm eq_refl).
  - destruct Hm as [Hm _]. rewrite Hm by done. cbn [negb andb]. fold ((λ m, FrameReceived m true) <$> frames).
    rewrite IH. unfold forwarded. cbn. by destruct (forward m).
Qed.

(** The frames of a list the protocol allows and whose forward reaches the
    gateway. *)
Definition reaches (c : Z) (p : WorkerMessage * bool) : option gatewayMessage :=
  if frame_ok c p.1 && p.2 then forward p.1 else None.

(** What ends a session, or has not yet: what the gateway is handed then, and how
    the handler returns. *)
Inductive session_tail (c : Z) : list sessionEvent → list gatewayMessage → option sessionEnd → Prop :=
  | tail_waiting : session_tail c [] [] None
  | tail_closed eof more :
      session_tail c (ReceiveEnded eof :: more) [] (Some (if eof then EndedNil else EndedStream))
  | tail_violation m delivered more : frame_ok c m = false →
      session_tail c (FrameReceived m delivered :: more) [] (Some (EndedCode CodeInvalidArgument))
  | tail_unreachable m more : frame_ok c m = true →
      session_tail c (FrameReceived m false :: more) [] (Some (EndedCode CodeInternal))
  | tail_cancelled buffered more :
      session_tail c (SessionDone buffered :: more) (omap (reaches c) buffered) (Some EndedNil).

(** A frame of the protocol has a case in [forward]. *)
Lemma frame_ok_forward c m : frame_ok c m = true → ∃ g, forward m = Some g.
Proof. destruct m; cbn; try done; eauto. Qed.

Lemma flushFrames_exact c frames :
  flushFrames frames (mkSessionState true c) = Forwarded <$> omap (reaches c) frames.
Proof.
  induction frames as [|[m d] frames IH]; [done|]. cbn [flushFrames omap list_omap].
  destruct (check_open c m) as [-> Hm]. rewrite IH.
  change (reaches c (m, d)) with (if frame_ok c m && d then forward m else None).
  destruct ((check m _).2) as [err|].
  - destruct (frame_ok c m); [|done]. by destruct Hm as [_ Hm]; specialize (Hm eq_refl).
  - destruct Hm as [Hm _]. rewrite Hm by done. unfold forwarded.
    destruct d; cbn [andb]; destruct (forward m); done.
Qed.

(** The loop: the frames up to what ends the session are handed over in order. *)
Lemma sessionLoop_exact c events :
  ∃ good tail last ended,
    events = ((λ m, FrameReceived m true) <$> good) ++ tail ∧ Forall (λ m, frame_ok c m = true) good ∧
    session_tail c tail last ended ∧
    sessionLoop events (mkSessionState true c) = (Forwarded <$> (omap forward good ++ last), ended).
Proof.
  induction events as [|[m d|eof|buffered] events IH].
  - exists [], [], [], None. repeat constructor.
  - cbn [sessionLoop]. destruct (check_open c m) as [-> Hm].
    destruct ((check m _).2) as [err|] eqn:Hc.
    { exists [], (FrameReceived m d :: events), [], (Some (EndedCode CodeInvalidArgument)).
      split_and!; [done|constructor| |done]. constructor. apply not_true_is_false.
      by intros Hok%Hm. }
    destruct Hm as [Hm _]. specialize (Hm eq_refl). destruct (frame_ok_forward c m Hm) as [g Hg].
    rewrite Hg. destruct d; cbn [negb andb].
    + destruct IH as (good & tail & last & ended & -> & Hgood & Htail & Hloop).
      exists (m :: good), tail, last, ended. rewrite Hloop. split_and!; [done|by constructor|done|].
      unfold forwarded. cbn. by rewrite Hg.
    + exists [], (FrameReceived m false :: events), [], (Some (EndedCode CodeInternal)).
      split_and!; [done|constructor|by constructor|]. by rewrite bool_decide_true by eauto.
  - exists [], (ReceiveEnded eof :: events), [], (Some (if eof then EndedNil else EndedStream)).
    split_and!; [done|constructor|constructor|done].
  - exists [], (SessionDone buffered :: events), (omap (reaches c) buffered), (Some EndedNil).
    split_and!; [done|constructor|constructor|]. cbn. by rewrite flushFrames_exact.
Qed.

(** The queues a session declares, as the gateway gets them. *)
Lemma helloSession_queues w hello :
  NoDup (ses_Queues (helloSession w hello)) ∧
  ∀ q, q ∈ ses_Queues (helloSession w hello) ↔ is_Some (he_Queues hello !! q).
Proof.
  cbn. split.
  - rewrite SortFunc_perm. apply NoDup_range_keys.
  - intros q. by rewrite SortFunc_perm, elem_of_range_keys, elem_of_dom.
Qed.
End SessionProps.

(** C25: a worker session follows its protocol. A session is opened only by a
    valid Hello on a node that is not draining. Its worker is welcomed before
    its gateway exists; the gateway is given distinct queues, the declared ones,
    each with a positive weight, and a positive concurrency; it is handed only
    frames the protocol allows, credits within the declared concurrency and
    results with a task and a defined outcome, and never a second Hello. However
    the session ends, the stop of its gateway runs before the stream is severed
    and the session leaves the registry. What the gateway is handed is exact for
    every sequence of events: the frames up to the one that ends the session, all
    allowed and delivered, in order; then nothing when the stream ends, at the
    first violation (which ends the session as an invalid argument) or at a frame
    that cannot be forwarded (an internal error); and, when the server ends the
    session, those of the frames it had already received that the protocol allows
    and that can be forwarded, also past one that violates it. *)
Theorem session_follows_protocol {MR : MapRange} {SV : Semver} w first events effects ended :
  Session w first events = (effects, ended) →
  (effects = [] ∧ (ended = Some (EndedCode CodeInvalidArgument) ∨
                   sw_draining w = true ∧ ended = Some (EndedCode CodeUnavailable))) ∨
  ∃ hello, first = FrameHello hello ∧ hello_ok hello ∧ sw_draining w = false ∧
    let opening := [Registered (helloSnapshot w hello); SentWelcome (welcome w)] in
    let closing := [ClosedSender; Unregistered (sw_id w)] in
    (effects = [Registered (helloSnapshot w hello)] ++ closing ∧ ended = Some EndedStream ∨
     effects = opening ++ closing ∧ ended = Some (EndedCode CodeInternal) ∨
     NoDup (ses_Queues (helloSession w hello)) ∧
     (∀ q, q ∈ ses_Queues (helloSession w hello) ↔ is_Some (he_Queues hello !! q)) ∧
     ∃ body, effects = opening ++ [SpawnedGateway (helloSession w hello)] ++ body ++
                        match ended with Some _ => [StoppedGateway] ++ closing | None => [] end ∧
       Forall (handed_over (he_Concurrency hello)) body ∧
       (∃ good tail last,
          events = ((λ m, FrameReceived m true) <$> good) ++ tail ∧
          Forall (λ m, frame_ok (he_Concurrency hello) m = true) good ∧
          session_tail (he_Concurrency hello) tail last ended ∧
          body = Forwarded <$> (omap forward good ++ last)) ∧
       ∀ frames, events = deliveredThenClosed frames →
         body = Forwarded <$> omap forward (admitted (he_Concurrency hello) frames) ∧
         ended = Some (if forallb (frame_ok (he_Concurrency hello)) frames then EndedNil
                       else EndedCode CodeInvalidArgument)).
Proof.
  unfold Session. destruct (check first newSessionState) as [s [err|]] eqn:Hc.
  { intros [= <- <-]. left. auto. }
  destruct (check_first _ _ Hc) as (hello & -> & Hh & ->).
  destruct (sw_draining w); [intros [= <- <-]; left; auto|].
  intros H. right. exists hello. do 3 (split; [done|]).
  destruct (sw_welcomeSent w); cbn [negb] in H; [|injection H as <- <-; by left].
  destruct (sw_spawned w); cbn [negb] in H; [|injection H as <- <-; right; by left].
  destruct (helloSession_queues w hello) as [H1 H2].
  pose proof (sessionLoop_ok (he_Concurrency hello) events) as Hok.
  pose proof (sessionLoop_frames (he_Concurrency hello)) as Hfr.
  destruct (sessionLoop_exact (he_Concurrency hello) events)
    as (good & tail & last & e' & Hev & Hgood & Htail & Hex).
  destruct (sessionLoop events _) as [body e] eqn:Hl. injection H as <- <-.
  right; right. split; [done|]. split; [done|]. exists body. split; [done|]. split; [done|].
  injection Hex as -> ->. split; [by exists good, tail, last|].
  clear Hev. intros frames ->. rewrite Hfr in Hl. by injection Hl as <- <-.
Qed.

(** ** An instance *)

Definition devSemver : Semver := {|
  semver_IsValid := λ _, false; semver_Compare := λ _ _, 0; serverVersion := "devel" |}.

Definition sample_hello : Hello := mkHello {["default" := 1]} 2 "v1.0.0" "" [].
Definition sample_world : sessionWorld := mkSessionWorld "S1" 1 30 false true true.

(** A grant beyond the declared concurrency ends the session after the one
    within it was handed over. *)
Lemma session_follows_protocol_witness :
  let r := Session (MR := elements_range) (SV := devSemver) sample_world (FrameHello sample_hello)
             (deliveredThenClosed [FrameCredit 2; FrameCredit 3; FrameHeartbeat []]) in
  r.2 = Some (EndedCode CodeInvalidArgument) ∧
  ∃ hello, FrameHello sample_hello = FrameHello hello ∧ hello_ok hello ∧
    r.1 !! 3%nat = Some (Forwarded (GCredit 2)).
Proof.
  intros r. split; [vm_compute; reflexivity|].
  destruct (session_follows_protocol (MR := elements_range) (SV := devSemver) sample_world
    (FrameHello sample_hello) (deliveredThenClosed [FrameCredit 2; FrameCredit 3; FrameHeartbeat []])
    r.1 r.2 ltac:(vm_compute; reflexivity)) as [[H _]|(hello & H1 & H2 & _)].
  - vm_compute in H. discriminate.
  - exists hello. split; [exact H1|]. split; [exact H2|]. vm_compute. reflexivity.
Defined.
