(* ===== verification/AdminApi.v ===== *)
(** * The admin service (server/api/admin_service.go, admin_service_webhooks.go)

    Every unary procedure as a computation over the broker behind the
    interface. The actor system's answers, the clock, the cron grammar and the
    URL parser are read from the environment of the call. Responses carry the
    fields the source copies; error texts are left out, their codes are kept. *)

From S2P Require Import Prelude Proto Events BrokerApi Encryption BrokerCalls Messages Backoff QueueGrain TaskLog Gateway WebhookGuard Api Session.
From Stdlib Require Import Floats.SpecFloat Strings.Byte.

#[local] Open Scope Z_scope.
#[local] Open Scope eff_scope.

Definition maxBatchTasks : Z := 1000.
Definition defaultQueueName : string := "default".

(** ** Wire records *)

Record TaskInfo := mkTaskInfo {
  ti_Id : string;
  ti_Queue : string;
  ti_Type : string;
  ti_State : TaskState;
  ti_Priority : Z;
  ti_Retried : Z;
  ti_MaxRetry : Z;
  ti_LastError : string;
  ti_EnqueuedAt : option Time;
  ti_ProcessAt : option Time;
  ti_StartedAt : option Time;
  ti_CompletedAt : option Time;
  ti_Payload : list byte;
  ti_ContentType : string;
  ti_Progress : Z;
  ti_ProgressMessage : string }.

Definition taskInfo (envelope : TaskEnvelope) (state : TaskState) : TaskInfo :=
  mkTaskInfo (env_Id envelope) (env_Queue envelope) (env_Type envelope) state
    (opt_Priority (GetOptions envelope)) (env_Retried envelope)
    (opt_MaxRetry (GetOptions envelope)) (env_LastError envelope) (env_EnqueuedAt envelope)
    (opt_ProcessAt (GetOptions envelope)) (env_StartedAt envelope) (env_CompletedAt envelope)
    (env_Payload envelope) (env_ContentType envelope) (env_Progress envelope)
    (env_ProgressMessage envelope).

Record RateLimitInfo := mkRateLimitInfo { ri_Queue : string; ri_RatePerSec : spec_float; ri_Burst : Z }.
Record ConcurrencyLimitInfo := mkConcurrencyLimitInfo { ci_Queue : string; ci_MaxActive : Z }.
Record GroupConfigInfo := mkGroupConfigInfo {
  gi_Queue : string; gi_Group : string; gi_MaxSize : Z; gi_MaxDelay : Duration; gi_GracePeriod : Duration }.

(** The wire form of a cron entry; the next run is unset at the zero time. *)
Record CronInfo := mkCronInfo {
  cri_Id : string;
  cri_Spec : string;
  cri_TaskType : string;
  cri_Queue : string;
  cri_Payload : list byte;
  cri_ContentType : string;
  cri_Options : option TaskOptions;
  cri_Paused : bool;
  cri_NextRunAt : option Time }.

(** The wire form of a registration. *)
Record WebhookWorkerInfo := mkWebhookWorkerInfo {
  whi_Name : string;
  whi_Url : string;
  whi_Queues : gmap string Z;
  whi_Concurrency : Z;
  whi_Secrets : list string;
  whi_BatchTypes : list string;
  whi_RequestTimeout : option Duration;
  whi_Paused : bool }.

Record TaskActionResult := mkTaskActionResult { tar_Id : string; tar_Failed : bool }.

Record ListTasksResponse := mkListTasksResponse {
  lt_Tasks : list TaskInfo; lt_NextPageToken : string }.

(** ** The environment *)

(** [net/url]: scheme and host of a URL that parses. *)
Class UrlParser := url_Parse : string → option (string * string).

Record adminWorld := mkAdminWorld {
  aw_now : Time;
  aw_tellOk : string → bool;
  aw_cronValid : string → bool;
  aw_sessions : list SessionSnapshot;
  aw_allowInsecure : bool;
  aw_allowPrivate : bool }.

(** ** Helpers *)

Definition validQueueName (queue : string) : Code + string :=
  if decide (queue = "") then inl CodeInvalidArgument
  else if negb (queueNamePattern queue) then inl CodeInvalidArgument
  else inr queue.

Definition requireTaskID (id : string) : Code + string :=
  if decide (id = "") then inl CodeInvalidArgument else inr id.

Definition adminTaskError (err : callError) : Code :=
  match err with
  | EBroker ErrTaskNotFound => CodeNotFound
  | EBroker ErrInvalidState => CodeFailedPrecondition
  | EBroker ErrTaskHasDependents => CodeFailedPrecondition
  | _ => CodeInternal
  end.

Definition internal (_ : callError) : Code := CodeInternal.

Definition lift {B E X} (r : E + X) : eff B E X :=
  match r with inl err => fails err | inr x => returns x end.

Section Admin.
Context {MR : MapRange} {NP : NetParsers} {UP : UrlParser} {B : Type} (taskLog : broker B) (w : adminWorld).

Notation op := (calling taskLog (aw_now w)).

(** A broker write, its failure internal. *)
Definition persist (r : request) : eff B Code unit := coded internal (op r) ;;; returns ().

Definition tellQueue (queue : string) (m : grainMessage) : eff B Code unit :=
  asking (TellQueue queue m) (aw_tellOk w queue) CodeInternal.

(** ** Queues *)

Definition ListQueues : eff B Code (list QueueStat) :=
  r <- coded internal (op RQueueStats) ;;
  returns match r with QueueStatList stats => stats | _ => [] end.

Definition PauseQueue (queue : string) : eff B Code unit :=
  queue <- lift (validQueueName queue) ;;
  persist (RSetQueuePaused queue true) ;;; tellQueue queue MDrainQueue.

Definition ResumeQueue (queue : string) : eff B Code unit :=
  queue <- lift (validQueueName queue) ;;
  persist (RSetQueuePaused queue false) ;;; tellQueue queue MResumeQueue.

Definition ListRateLimits : eff B Code (list RateLimitInfo) :=
  r <- coded internal (op RQueueRateLimits) ;;
  returns match r with
    | RateLimitList limits =>
        (λ l, mkRateLimitInfo (rl_Queue l) (rl_RatePerSec l) (wrap32 (rl_Burst l))) <$> limits
    | _ => []
    end.

Definition SetQueueRateLimit (queue : string) (rate : spec_float) (burst : Z) : eff B Code unit :=
  queue <- lift (validQueueName queue) ;;
  (if SFleb rate (S754_zero false) || negb (is_finite rate) then fails CodeInvalidArgument
   else if burst <? 1 then fails CodeInvalidArgument
   else persist (RSetQueueRateLimit queue rate burst) ;;;
        tellQueue queue (MRateLimitChanged rate burst)).

Definition DeleteQueueRateLimit (queue : string) : eff B Code unit :=
  queue <- lift (validQueueName queue) ;;
  persist (RDeleteQueueRateLimit queue) ;;; tellQueue queue (MRateLimitChanged (S754_zero false) 0).

Definition ListConcurrencyLimits : eff B Code (list ConcurrencyLimitInfo) :=
  r <- coded internal (op RQueueConcurrencyLimits) ;;
  returns match r with
    | ConcurrencyLimitList limits =>
        (λ l, mkConcurrencyLimitInfo (cl_Queue l) (wrap32 (cl_MaxActive l))) <$> limits
    | _ => []
    end.

Definition SetQueueConcurrencyLimit (queue : string) (maxActive : Z) : eff B Code unit :=
  queue <- lift (validQueueName queue) ;;
  (if maxActive <? 1 then fails CodeInvalidArgument
   else persist (RSetQueueConcurrencyLimit queue maxActive) ;;;
        tellQueue queue (MConcurrencyLimitChanged maxActive)).

Definition DeleteQueueConcurrencyLimit (queue : string) : eff B Code unit :=
  queue <- lift (validQueueName queue) ;;
  persist (RDeleteQueueConcurrencyLimit queue) ;;; tellQueue queue (MConcurrencyLimitChanged 0).

Definition ListGroupConfigs : eff B Code (list GroupConfigInfo) :=
  r <- coded internal (op RGroupConfigs) ;;
  returns match r with
    | GroupConfigList configs =>
        (λ c, mkGroupConfigInfo (gc_Queue c) (gc_Group c) (wrap32 (gc_MaxSize c)) (gc_MaxDelay c)
                (gc_GracePeriod c)) <$> configs
    | _ => []
    end.

Definition SetGroupConfig (queue group : string) (maxSize : Z) (maxDelay gracePeriod : option Duration)
    : eff B Code unit :=
  queue <- lift (validQueueName queue) ;;
  (if maxSize <? 1 then fails CodeInvalidArgument
   else if AsDuration maxDelay <=? 0 then fails CodeInvalidArgument
   else if AsDuration gracePeriod <=? 0 then fails CodeInvalidArgument
   else persist (RSetGroupConfig queue group maxSize (AsDuration maxDelay) (AsDuration gracePeriod))).

Definition DeleteGroupConfig (queue group : string) : eff B Code unit :=
  queue <- lift (validQueueName queue) ;; persist (RDeleteGroupConfig queue group).

(** ** Tasks *)

Definition ListTasks (query : TaskQuery) : eff B Code ListTasksResponse :=
  if query_Limit query <? 0 then fails CodeInvalidArgument
  else
    r <- coded internal (op (RListTasks query)) ;;
    let records := match r with Records records => records | _ => [] end in
    returns (mkListTasksResponse
      ((λ record, taskInfo (rec_Envelope record) (rec_State record)) <$> records)
      (if decide (Z.of_nat (length records) = EffectiveListLimit (query_Limit query)) then
         match last records with Some record => env_Id (rec_Envelope record) | None => "" end
       else "")).

(** [cancelActive]: whether the cancel was handed to the task's queue grain. *)
Definition cancelActive (id : string) : eff B callError unit :=
  r <- op (RGetTask id) ;;
  match r with
  | Task envelope state =>
      if decide (state ≠ TASK_STATE_ACTIVE) then fails (EBroker ErrInvalidState)
      else asking (TellQueue (env_Queue envelope) (MCancelActive id)) (aw_tellOk w (env_Queue envelope))
             (EBroker ErrInvalidState)
  | _ => fails (EBroker ErrInvalidState)
  end.

Definition CancelTask (id : string) : eff B Code unit :=
  id <- lift (requireTaskID id) ;;
  λ b,
    match op (RCancelTask id) b with
    | (b, out, inl (EBroker ErrInvalidState as err)) =>
        match cancelActive id b with
        | (b, out', inr _) => (b, out ++ out', inr ())
        | (b, out', inl _) => (b, out ++ out', inl (adminTaskError err))
        end
    | (b, out, inl err) => (b, out, inl (adminTaskError err))
    | (b, out, inr _) => (b, out, inr ())
    end.

Definition DeleteTask (id : string) : eff B Code unit :=
  id <- lift (requireTaskID id) ;; coded adminTaskError (op (RDeleteTask id)) ;;; returns ().

Definition runTask (id : string) : eff B callError unit :=
  r <- op (RGetTask id) ;;
  match r with
  | Task envelope _ =>
      op (RRunTaskNow id) ;;; hint (TellQueue (env_Queue envelope) MTaskEnqueued)
  | _ => returns ()
  end.

Definition RunTask (id : string) : eff B Code unit :=
  id <- lift (requireTaskID id) ;; coded adminTaskError (runTask id).

(** The new due time from the two exclusive forms. *)
Definition rescheduleDueTime (processAt : option Time) (processIn : option Duration) : Code + Time :=
  match processAt, processIn with
  | Some _, Some _ => inl CodeInvalidArgument
  | Some at_, None => inr at_
  | None, Some delay => inr (time_Add (aw_now w) delay)
  | None, None => inl CodeInvalidArgument
  end.

Definition rescheduleTask (id : string) (processAt : Time) : eff B callError unit :=
  op (RRescheduleTask id processAt) ;;;
  (if After processAt (aw_now w) then returns ()
   else λ b,
     match op (RGetTask id) b with
     | (b, out, inr (Task envelope _)) =>
         (b, out ++ [TellQueue (env_Queue envelope) MTaskEnqueued], inr ())
     | (b, out, _) => (b, out, inr ())
     end).

Definition RescheduleTask (id : string) (processAt : option Time) (processIn : option Duration)
    : eff B Code unit :=
  id <- lift (requireTaskID id) ;;
  at_ <- lift (rescheduleDueTime processAt processIn) ;;
  coded adminTaskError (rescheduleTask id at_).

Definition ArchiveTask (id : string) : eff B Code unit :=
  id <- lift (requireTaskID id) ;; coded adminTaskError (op (RArchiveTask id)) ;;; returns ().

(** The loop of [batchTasks]: an id that fails does not stop the others. *)
Fixpoint batchLoop (perform : string → eff B callError unit) (ids : list string)
    : eff B Code (list TaskActionResult) :=
  match ids with
  | [] => returns []
  | id :: ids => λ b,
      let '(b, out, failed) :=
        if decide (id = "") then (b, [], true)
        else
          let '(b, out, r) := perform id b in
          (b, out, match r with inl _ => true | inr _ => false end) in
      let '(b, out', r) := batchLoop perform ids b in
      (b, out ++ out',
       match r with inl err => inl err | inr rs => inr (mkTaskActionResult id failed :: rs) end)
  end.

Definition batchTasks (ids : list string) (perform : string → eff B callError unit)
    : eff B Code (list TaskActionResult) :=
  if decide (length ids = 0%nat) then fails CodeInvalidArgument
  else if maxBatchTasks <? Z.of_nat (length ids) then fails CodeInvalidArgument
  else batchLoop perform ids.

Definition BatchDeleteTasks (ids : list string) : eff B Code (list TaskActionResult) :=
  batchTasks ids (λ id, op (RDeleteTask id) ;;; returns ()).
Definition BatchRunTasks (ids : list string) : eff B Code (list TaskActionResult) :=
  batchTasks ids runTask.
Definition BatchCancelTasks (ids : list string) : eff B Code (list TaskActionResult) :=
  batchTasks ids (λ id, op (RCancelTask id) ;;; returns ()).
Definition BatchArchiveTasks (ids : list string) : eff B Code (list TaskActionResult) :=
  batchTasks ids (λ id, op (RArchiveTask id) ;;; returns ()).

(** ** Cron entries *)

Definition cronInfo (entry : CronEntry) : CronInfo :=
  mkCronInfo (cron_ID entry) (cron_Spec entry) (cron_TaskType entry) (cron_Queue entry)
    (cron_Payload entry) (cron_ContentType entry) (cron_Options entry) (cron_Paused entry)
    (if IsZero (cron_NextRunAt entry) then None else Some (cron_NextRunAt entry)).

Definition ListCron : eff B Code (list CronInfo) :=
  r <- coded internal (op RListCronEntries) ;;
  returns match r with CronEntries entries => cronInfo <$> entries | _ => [] end.

Definition UpsertCron (entry : CronInfo) : eff B Code unit :=
  if decide (cri_Id entry = "") then fails CodeInvalidArgument
  else if decide (cri_TaskType entry = "") then fails CodeInvalidArgument
  else if negb (aw_cronValid w (cri_Spec entry)) then fails CodeInvalidArgument
  else
    let queue := if decide (cri_Queue entry = "") then defaultQueueName else cri_Queue entry in
    if negb (queueNamePattern queue) then fails CodeInvalidArgument
    else
      let options := default emptyTaskOptions (cri_Options entry) in
      if negb (bool_decide (opt_Group options = "")) &&
         negb (bool_decide (opt_ConcurrencyKey options = ""))
      then fails CodeInvalidArgument
      else
        persist (RUpsertCronEntry
          (mkCronEntry (cri_Id entry) (cri_Spec entry) (cri_TaskType entry) queue (cri_Payload entry)
             (cri_ContentType entry) (cri_Options entry) (cri_Paused entry) zeroTime)).

(** [errors.Is(err, broker.ErrTaskNotFound)], else internal. *)
Definition notFoundOrInternal (err : callError) : Code :=
  match err with EBroker ErrTaskNotFound => CodeNotFound | _ => CodeInternal end.

Definition setCronPaused (id : string) (paused : bool) : eff B Code unit :=
  if decide (id = "") then fails CodeInvalidArgument
  else coded notFoundOrInternal (op (RSetCronPaused id paused)) ;;; returns ().

Definition PauseCron (id : string) : eff B Code unit := setCronPaused id true.
Definition ResumeCron (id : string) : eff B Code unit := setCronPaused id false.

Definition DeleteCron (id : string) : eff B Code unit :=
  if decide (id = "") then fails CodeInvalidArgument else persist (RDeleteCronEntry id).

(** ** Webhook registrations *)

Definition webhookSecretLimit : Z := 2.

Definition validateWebhookURL (raw : string) : bool :=
  match url_Parse raw with
  | None => false
  | Some (scheme, host) =>
      negb (bool_decide (host = "")) &&
      (bool_decide (scheme = "http") || bool_decide (scheme = "https")) &&
      negb (bool_decide (scheme = "http") && negb (aw_allowInsecure w)) &&
      CheckURLTarget raw (aw_allowPrivate w)
  end.

Definition webhookWorkerFromRequest (worker : option WebhookWorkerInfo) : Code + WebhookWorker :=
  match worker with
  | None => inl CodeInvalidArgument
  | Some worker =>
      let count := Z.of_nat (length (whi_Secrets worker)) in
      if negb (queueNamePattern (whi_Name worker)) then inl CodeInvalidArgument
      else if negb (validateWebhookURL (whi_Url worker)) then inl CodeInvalidArgument
      else if decide (size (whi_Queues worker) = 0%nat) then inl CodeInvalidArgument
      else
        match validateQueues (range_map (whi_Queues worker)) with
        | Some _ => inl CodeInvalidArgument
        | None =>
            if whi_Concurrency worker <? 1 then inl CodeInvalidArgument
            else if (count <? 1) || (webhookSecretLimit <? count) then inl CodeInvalidArgument
            else if decide ("" ∈ whi_Secrets worker) then inl CodeInvalidArgument
            else if AsDuration (whi_RequestTimeout worker) <? 0 then inl CodeInvalidArgument
            else inr (mkWebhookWorker (whi_Name worker) (whi_Url worker) (whi_Queues worker)
                        (whi_Concurrency worker) (whi_Secrets worker) (whi_BatchTypes worker)
                        (AsDuration (whi_RequestTimeout worker)) (whi_Paused worker))
        end
  end.

(** The secrets are redacted. *)
Definition webhookWorkerInfo (worker : WebhookWorker) : WebhookWorkerInfo :=
  mkWebhookWorkerInfo (wh_Name worker) (wh_URL worker) (wh_Queues worker) (wh_Concurrency worker) []
    (wh_BatchTypes worker)
    (if 0 <? wh_RequestTimeout worker then Some (wh_RequestTimeout worker) else None)
    (wh_Paused worker).

Definition ListWebhookWorkers : eff B Code (list WebhookWorkerInfo) :=
  r <- coded internal (op RListWebhookWorkers) ;;
  returns match r with Workers workers => webhookWorkerInfo <$> workers | _ => [] end.

Definition UpsertWebhookWorker (worker : option WebhookWorkerInfo) : eff B Code unit :=
  worker <- lift (webhookWorkerFromRequest worker) ;;
  persist (RUpsertWebhookWorker worker) ;;; hint ReconcileWebhookWorkers.

Definition setWebhookWorkerPaused (name : string) (paused : bool) : eff B Code unit :=
  if decide (name = "") then fails CodeInvalidArgument
  else coded notFoundOrInternal (op (RSetWebhookWorkerPaused name paused)) ;;;
       hint ReconcileWebhookWorkers.

Definition PauseWebhookWorker (name : string) : eff B Code unit := setWebhookWorkerPaused name true.
Definition ResumeWebhookWorker (name : string) : eff B Code unit := setWebhookWorkerPaused name false.

Definition DeleteWebhookWorker (name : string) : eff B Code unit :=
  if decide (name = "") then fails CodeInvalidArgument
  else persist (RDeleteWebhookWorker name) ;;; hint ReconcileWebhookWorkers.

(** ** Sessions and the broker *)

Definition ListWorkerSessions : eff B Code (list SessionSnapshot) := returns (aw_sessions w).

Definition admin_BrokerInfo : eff B Code (option Info) :=
  r <- coded internal (op RInfo) ;;
  returns match r with BrokerInformation info => Some info | _ => None end.
End Admin.
