(* ===== verification/Access.v ===== *)
(** * Access to the API (server/api/auth.go, server/api/readonly.go, server/server.go)

    The bearer-token and read-only interceptors, in the order the server mounts
    them before the admin service, and the admin procedures by name. *)

From S2P Require Import Prelude Proto Events BrokerApi Encryption BrokerCalls Messages Backoff TaskLog Gateway WebhookGuard Api Session AdminApi.
From Stdlib Require Import Floats.SpecFloat Strings.Byte.

#[local] Open Scope Z_scope.
#[local] Open Scope eff_scope.

(** ** Scopes and tokens *)

Inductive Scope := ScopeProduce | ScopeConsume | ScopeAdmin.

#[global] Instance Scope_eq_dec : EqDecision Scope.
Proof. solve_decision. Defined.

Definition AllScopes : list Scope := [ScopeProduce; ScopeConsume; ScopeAdmin].

Definition ParseScope (name : string) : option Scope :=
  if decide (name = "produce") then Some ScopeProduce
  else if decide (name = "consume") then Some ScopeConsume
  else if decide (name = "admin") then Some ScopeAdmin
  else None.

Record ScopedToken := mkScopedToken { tok_Token : string; tok_Scopes : list Scope }.

(** [strings.CutPrefix]. *)
Fixpoint CutPrefix (s prefix : string) : option string :=
  match prefix, s with
  | EmptyString, s => Some s
  | String p prefix, String c s => if Ascii.eqb p c then CutPrefix s prefix else None
  | String _ _, EmptyString => None
  end.

Definition HasPrefix (s prefix : string) : bool := bool_decide (is_Some (CutPrefix s prefix)).

Definition bearerPrefix : string := "Bearer ".
Definition taskServicePrefix : string := "/conveyor.v1.TaskService/".
Definition workerServicePrefix : string := "/conveyor.v1.WorkerService/".
Definition adminServicePrefix : string := "/conveyor.v1.AdminService/".

Definition TaskServiceGetTaskProcedure : string := taskServicePrefix +:+ "GetTask".

Definition admittedScopes (procedure : string) : list Scope :=
  if decide (procedure = TaskServiceGetTaskProcedure) then [ScopeProduce; ScopeAdmin]
  else if HasPrefix procedure taskServicePrefix then [ScopeProduce]
  else if HasPrefix procedure workerServicePrefix then [ScopeConsume]
  else if HasPrefix procedure adminServicePrefix then [ScopeAdmin]
  else [].

(** [None] is admission. *)
Definition authorizeScope (scopes : list Scope) (procedure : string) : option Code :=
  if existsb (λ admitted, bool_decide (admitted ∈ scopes)) (admittedScopes procedure) then None
  else Some CodePermissionDenied.

(** The loop over the accepted tokens. *)
Fixpoint findToken (tokens : list ScopedToken) (candidate procedure : string) : option Code :=
  match tokens with
  | [] => Some CodeUnauthenticated
  | entry :: tokens =>
      if decide (candidate = tok_Token entry) then authorizeScope (tok_Scopes entry) procedure
      else findToken tokens candidate procedure
  end.

(** [header] is the Authorization header's value. *)
Definition authorize (tokens : list ScopedToken) (header procedure : string) : option Code :=
  match CutPrefix header bearerPrefix with
  | None => Some CodeUnauthenticated
  | Some presented =>
      if decide (presented = "") then Some CodeUnauthenticated
      else findToken tokens presented procedure
  end.

(** ** Configuration *)

Record APIConfig := mkAPIConfig {
  api_AuthTokens : list string;
  api_ScopedTokens : list (string * list string);
  api_AuthDisabled : bool;
  api_ReadOnly : bool }.

(** An unknown scope name, which config validation has refused, grants nothing. *)
Definition scopedTokens (config : APIConfig) : list ScopedToken :=
  ((λ token, mkScopedToken token AllScopes) <$> api_AuthTokens config) ++
  ((λ '(token, names), mkScopedToken token (omap ParseScope names)) <$> api_ScopedTokens config).

(** ** The admin procedures *)

Inductive adminCall :=
  | AListQueues
  | APauseQueue (queue : string)
  | AResumeQueue (queue : string)
  | AListRateLimits
  | ASetQueueRateLimit (queue : string) (rate : spec_float) (burst : Z)
  | ADeleteQueueRateLimit (queue : string)
  | AListConcurrencyLimits
  | ASetQueueConcurrencyLimit (queue : string) (maxActive : Z)
  | ADeleteQueueConcurrencyLimit (queue : string)
  | AListGroupConfigs
  | ASetGroupConfig (queue group : string) (maxSize : Z) (maxDelay gracePeriod : option Duration)
  | ADeleteGroupConfig (queue group : string)
  | AListTasks (query : TaskQuery)
  | ACancelTask (id : string)
  | ADeleteTask (id : string)
  | ARunTask (id : string)
  | ARescheduleTask (id : string) (processAt : option Time) (processIn : option Duration)
  | AArchiveTask (id : string)
  | ABatchDeleteTasks (ids : list string)
  | ABatchRunTasks (ids : list string)
  | ABatchCancelTasks (ids : list string)
  | ABatchArchiveTasks (ids : list string)
  | AListCron
  | AUpsertCron (entry : CronInfo)
  | APauseCron (id : string)
  | AResumeCron (id : string)
  | ADeleteCron (id : string)
  | AListWebhookWorkers
  | AUpsertWebhookWorker (worker : option WebhookWorkerInfo)
  | APauseWebhookWorker (name : string)
  | AResumeWebhookWorker (name : string)
  | ADeleteWebhookWorker (name : string)
  | AListWorkerSessions
  | ABrokerInfo.

Definition adminMethod (c : adminCall) : string :=
  match c with
  | AListQueues => "ListQueues"
  | APauseQueue _ => "PauseQueue"
  | AResumeQueue _ => "ResumeQueue"
  | AListRateLimits => "ListRateLimits"
  | ASetQueueRateLimit _ _ _ => "SetQueueRateLimit"
  | ADeleteQueueRateLimit _ => "DeleteQueueRateLimit"
  | AListConcurrencyLimits => "ListConcurrencyLimits"
  | ASetQueueConcurrencyLimit _ _ => "SetQueueConcurrencyLimit"
  | ADeleteQueueConcurrencyLimit _ => "DeleteQueueConcurrencyLimit"
  | AListGroupConfigs => "ListGroupConfigs"
  | ASetGroupConfig _ _ _ _ _ => "SetGroupConfig"
  | ADeleteGroupConfig _ _ => "DeleteGroupConfig"
  | AListTasks _ => "ListTasks"
  | ACancelTask _ => "CancelTask"
  | ADeleteTask _ => "DeleteTask"
  | ARunTask _ => "RunTask"
  | ARescheduleTask _ _ _ => "RescheduleTask"
  | AArchiveTask _ => "ArchiveTask"
  | ABatchDeleteTasks _ => "BatchDeleteTasks"
  | ABatchRunTasks _ => "BatchRunTasks"
  | ABatchCancelTasks _ => "BatchCancelTasks"
  | ABatchArchiveTasks _ => "BatchArchiveTasks"
  | AListCron => "ListCron"
  | AUpsertCron _ => "UpsertCron"
  | APauseCron _ => "PauseCron"
  | AResumeCron _ => "ResumeCron"
  | ADeleteCron _ => "DeleteCron"
  | AListWebhookWorkers => "ListWebhookWorkers"
  | AUpsertWebhookWorker _ => "UpsertWebhookWorker"
  | APauseWebhookWorker _ => "PauseWebhookWorker"
  | AResumeWebhookWorker _ => "ResumeWebhookWorker"
  | ADeleteWebhookWorker _ => "DeleteWebhookWorker"
  | AListWorkerSessions => "ListWorkerSessions"
  | ABrokerInfo => "BrokerInfo"
  end.

Definition adminProcedure (c : adminCall) : string := adminServicePrefix +:+ adminMethod c.

Definition mutatingProcedures : list string :=
  (λ method, adminServicePrefix +:+ method) <$>
  ["PauseQueue"; "ResumeQueue"; "SetQueueRateLimit"; "DeleteQueueRateLimit";
   "SetQueueConcurrencyLimit"; "DeleteQueueConcurrencyLimit"; "SetGroupConfig"; "DeleteGroupConfig";
   "CancelTask"; "DeleteTask"; "RunTask"; "RescheduleTask"; "ArchiveTask"; "BatchDeleteTasks";
   "BatchRunTasks"; "BatchCancelTasks"; "BatchArchiveTasks"; "UpsertCron"; "PauseCron"; "ResumeCron";
   "DeleteCron"; "UpsertWebhookWorker"; "PauseWebhookWorker"; "ResumeWebhookWorker";
   "DeleteWebhookWorker"].

(** ** A call to the admin service *)

Section Serve.
Context {MR : MapRange} {NP : NetParsers} {UP : UrlParser} {B : Type} (taskLog : broker B) (w : adminWorld).

(** The handler, its response left out. *)
Definition adminHandler (c : adminCall) : eff B Code unit :=
  match c with
  | AListQueues => ListQueues taskLog w ;;; returns ()
  | APauseQueue queue => PauseQueue taskLog w queue
  | AResumeQueue queue => ResumeQueue taskLog w queue
  | AListRateLimits => ListRateLimits taskLog w ;;; returns ()
  | ASetQueueRateLimit queue rate burst => SetQueueRateLimit taskLog w queue rate burst
  | ADeleteQueueRateLimit queue => DeleteQueueRateLimit taskLog w queue
  | AListConcurrencyLimits => ListConcurrencyLimits taskLog w ;;; returns ()
  | ASetQueueConcurrencyLimit queue max => SetQueueConcurrencyLimit taskLog w queue max
  | ADeleteQueueConcurrencyLimit queue => DeleteQueueConcurrencyLimit taskLog w queue
  | AListGroupConfigs => ListGroupConfigs taskLog w ;;; returns ()
  | ASetGroupConfig queue group max delay grace => SetGroupConfig taskLog w queue group max delay grace
  | ADeleteGroupConfig queue group => DeleteGroupConfig taskLog w queue group
  | AListTasks query => ListTasks taskLog w query ;;; returns ()
  | ACancelTask id => CancelTask taskLog w id
  | ADeleteTask id => DeleteTask taskLog w id
  | ARunTask id => RunTask taskLog w id
  | ARescheduleTask id at_ delay => RescheduleTask taskLog w id at_ delay
  | AArchiveTask id => ArchiveTask taskLog w id
  | ABatchDeleteTasks ids => BatchDeleteTasks taskLog w ids ;;; returns ()
  | ABatchRunTasks ids => BatchRunTasks taskLog w ids ;;; returns ()
  | ABatchCancelTasks ids => BatchCancelTasks taskLog w ids ;;; returns ()
  | ABatchArchiveTasks ids => BatchArchiveTasks taskLog w ids ;;; returns ()
  | AListCron => ListCron taskLog w ;;; returns ()
  | AUpsertCron entry => UpsertCron taskLog w entry
  | APauseCron id => PauseCron taskLog w id
  | AResumeCron id => ResumeCron taskLog w id
  | ADeleteCron id => DeleteCron taskLog w id
  | AListWebhookWorkers => ListWebhookWorkers taskLog w ;;; returns ()
  | AUpsertWebhookWorker worker => UpsertWebhookWorker taskLog w worker
  | APauseWebhookWorker name => PauseWebhookWorker taskLog w name
  | AResumeWebhookWorker name => ResumeWebhookWorker taskLog w name
  | ADeleteWebhookWorker name => DeleteWebhookWorker taskLog w name
  | AListWorkerSessions => ListWorkerSessions w ;;; returns ()
  | ABrokerInfo => admin_BrokerInfo taskLog w ;;; returns ()
  end.

(** [readOnlyInterceptor.WrapUnary]. *)
Definition readOnlyUnary (procedure : string) (next : eff B Code unit) : eff B Code unit :=
  if decide (procedure ∈ mutatingProcedures) then fails CodePermissionDenied else next.

(** [authInterceptor.WrapUnary]. *)
Definition authUnary (tokens : list ScopedToken) (header procedure : string) (next : eff B Code unit)
    : eff B Code unit :=
  match authorize tokens header procedure with Some code => fails code | None => next end.

(** The admin service as [buildMux] mounts it. *)
Definition serveAdmin (config : APIConfig) (header : string) (c : adminCall) : eff B Code unit :=
  let procedure := adminProcedure c in
  let handler := adminHandler c in
  let handler := if api_ReadOnly config then readOnlyUnary procedure handler else handler in
  if api_AuthDisabled config then handler
  else authUnary (scopedTokens config) header procedure handler.
End Serve.
