(* ===== verification/AccessProps.v ===== *)
(** * Admin changes need the admin scope and a writable server *)

From S2P Require Import Prelude Proto Events BrokerApi Memory Encryption BrokerCalls Messages Backoff TaskLog Gateway WebhookGuard Api Session AdminApi Access.
From Stdlib Require Import Floats.SpecFloat Strings.Byte.

#[local] Open Scope Z_scope.
#[local] Open Scope eff_scope.

(** ** Computations that only read *)

(** Leaves the store and the actor system alone. *)
Definition silent {B E X} (m : eff B E X) : Prop := ∀ b, ∃ r, m b = (b, [], r).

Lemma silent_returns {B E X} (x : X) : silent (B := B) (E := E) (returns x).
Proof. intros b. by eexists. Qed.

Lemma silent_fails {B E X} (err : E) : silent (B := B) (X := X) (fails err).
Proof. intros b. by eexists. Qed.

Lemma silent_andThen {B E X Y} (m : eff B E X) (k : X → eff B E Y) :
  silent m → (∀ x, silent (k x)) → silent (andThen m k).
Proof.
  intros Hm Hk b. destruct (Hm b) as [r Hr]. unfold andThen. rewrite Hr. destruct r as [err|x]; [by eexists|].
  destruct (Hk x b) as [r' ->]. by eexists.
Qed.

Lemma silent_coded {B E X} (code : E → Code) (m : eff B E X) : silent m → silent (coded code m).
Proof. intros Hm b. destruct (Hm b) as [r Hr]. unfold coded. rewrite Hr. by eexists. Qed.

(** The calls of the in-memory broker that read. *)
Lemma silent_calling {B} (taskLog : broker B) now r :
  (∀ b, ∃ rep, taskLog now r b = (b, rep)) → silent (calling taskLog now r).
Proof. intros Hr b. destruct (Hr b) as [rep E]. unfold calling. rewrite E. by eexists. Qed.

Create HintDb silent.
#[local] Hint Resolve silent_returns silent_fails silent_andThen silent_coded silent_calling : silent.

Section Admin.
Context {MR : MapRange} {NP : NetParsers} {UP : UrlParser}.

(** Every admin procedure the read-only list leaves out only reads. *)
Lemma unlisted_reads w c :
  adminProcedure c ∉ mutatingProcedures → silent (adminHandler memory w c).
Proof.
  intros Hc. destruct c;
    try (exfalso; apply Hc, (bool_decide_unpack _); vm_compute; exact I);
    cbn [adminHandler]; apply silent_andThen; try (intros; apply silent_returns).
  all: unfold ListQueues, ListRateLimits, ListConcurrencyLimits, ListGroupConfigs, ListTasks, ListCron,
    ListWebhookWorkers, ListWorkerSessions, admin_BrokerInfo;
    try (destruct (_ <? _)); repeat first
    [ apply silent_fails | apply silent_returns | apply silent_andThen; [|intros]
    | apply silent_coded | apply silent_calling; intros; by eexists ].
Qed.

(** ** Tokens *)

Lemma CutPrefix_app prefix s t : CutPrefix s prefix = Some t → s = prefix +:+ t.
Proof.
  revert s. induction prefix as [|p prefix IH]; intros s; [destruct s; by intros [= <-]|].
  destruct s as [|c s]; [done|]. cbn [CutPrefix]. destruct (Ascii.eqb_spec p c) as [->|]; [|done].
  intros Hs. by rewrite (IH s Hs).
Qed.

(** The admin procedures admit the admin scope and no other. *)
Lemma admin_scope c : admittedScopes (adminProcedure c) = [ScopeAdmin].
Proof. destruct c; vm_compute; reflexivity. Qed.

(** The entry a token is judged by: the first that carries it. *)
Definition granted (tokens : list ScopedToken) (token : string) (scope : Scope) : Prop :=
  ∃ before entry after, tokens = before ++ entry :: after ∧ tok_Token entry = token ∧
    (∀ e, e ∈ before → tok_Token e ≠ token) ∧ scope ∈ tok_Scopes entry.

Lemma findToken_admin tokens token c :
  findToken tokens token (adminProcedure c) = None ↔ granted tokens token ScopeAdmin.
Proof.
  induction tokens as [|entry tokens IH]; cbn [findToken].
  { split; [done|]. intros (before & e & after & Ht & _). by destruct before. }
  case_decide as Hd.
  - unfold authorizeScope. rewrite admin_scope. cbn. rewrite orb_false_r. split.
    + case_bool_decide as Hs; [|done]. intros _. exists [], entry, tokens.
      split; [done|]. split; [done|]. split; [|done]. by intros e He%not_elem_of_nil.
    + intros (before & e & after & Ht & He & Hb & Hs). destruct before as [|e' before].
      * injection Ht as -> _. by rewrite bool_decide_true.
      * injection Ht as -> _. by destruct (Hb e' ltac:(left)).
  - rewrite IH. split.
    + intros (before & e & after & -> & He & Hb & Hs). exists (entry :: before), e, after.
      do 2 (split; [done|]). split; [|done]. intros e' [->|Hin]%elem_of_cons; [done|by apply Hb].
    + intros (before & e & after & Ht & He & Hb & Hs). destruct before as [|e' before].
      * injection Ht as -> _. done.
      * injection Ht as -> ->. exists before, e, after. do 2 (split; [done|]).
        split; [|done]. intros e0 Hin. apply Hb. by right.
Qed.

(** A header that presents a token of the admin scope. *)
Definition admin_header (config : APIConfig) (header : string) : Prop :=
  ∃ token, CutPrefix header bearerPrefix = Some token ∧ token ≠ "" ∧
    granted (scopedTokens config) token ScopeAdmin.

Lemma authorize_admin config header c :
  authorize (scopedTokens config) header (adminProcedure c) = None ↔ admin_header config header.
Proof.
  unfold authorize, admin_header. destruct (CutPrefix header bearerPrefix) as [token|]; [|naive_solver].
  case_decide as Ht; [naive_solver|]. rewrite findToken_admin. naive_solver.
Qed.
End Admin.

(** C26: the admin service changes nothing for a caller without the admin scope,
    and nothing at all on a read-only server. A call that changes the broker's
    store or reaches the actor system was made on a writable server, and with
    authentication on its header carried a bearer token whose first entry grants
    the admin scope. A call so authorised is served by its handler unchanged,
    and on a read-only server so are the procedures that only read. *)
Theorem admin_access_controlled {MR : MapRange} {NP : NetParsers} {UP : UrlParser} w config header c b b' out r :
  serveAdmin memory w config header c b = (b', out, r) →
  (b' ≠ b ∨ out ≠ [] →
     api_ReadOnly config = false ∧
     (api_AuthDisabled config = true ∨ admin_header config header)) ∧
  (api_AuthDisabled config = true ∨ admin_header config header →
   api_ReadOnly config = false ∨ adminProcedure c ∉ mutatingProcedures →
   adminHandler memory w c b = (b', out, r)).
Proof.
  unfold serveAdmin, authUnary, readOnlyUnary. intros H.
  pose proof (unlisted_reads w c) as Hread.
  destruct (api_AuthDisabled config) eqn:Ha;
    [|destruct (authorize (scopedTokens config) header (adminProcedure c)) as [code|] eqn:Hz].
  2: { injection H as <- <- <-. split; [naive_solver|]. intros [?|Hh]; [done|].
       apply (authorize_admin config header c) in Hh. congruence. }
  2: apply authorize_admin in Hz.
  all: destruct (api_ReadOnly config) eqn:Hr; [|by auto].
  all: case_decide as Hm; [injection H as <- <- <-; naive_solver|].
  all: destruct (Hread Hm b) as [r' Hp]; rewrite Hp in H; injection H as <- <- <-; naive_solver.
Qed.

(** ** An instance *)

Definition noParsers : NetParsers := {|
  URLHostname := λ _, None; SplitHostPort := λ _, None; ParseIP := λ _, None |}.

Definition two_tokens (readOnly : bool) : APIConfig :=
  mkAPIConfig [] [("p", ["produce"]); ("s", ["admin"])] false readOnly.

Definition sample_admin : adminWorld := mkAdminWorld 1 (λ _, true) (λ _, true) [] false false.

Definition call_with (config : APIConfig) (header : string) (c : adminCall) :=
  serveAdmin (MR := elements_range) (NP := noParsers) (UP := λ _, None)
    (memory (MR := elements_range)) sample_admin config header c New.

Lemma admin_access_controlled_witness :
  call_with (two_tokens false) "Bearer p" (APauseQueue "default") = (New, [], inl CodePermissionDenied) ∧
  call_with (two_tokens true) "Bearer s" (APauseQueue "default") = (New, [], inl CodePermissionDenied) ∧
  admin_header (two_tokens false) "Bearer s" ∧
  adminHandler (MR := elements_range) (NP := noParsers) (UP := λ _, None)
    (memory (MR := elements_range)) sample_admin (APauseQueue "default") New =
  call_with (two_tokens false) "Bearer s" (APauseQueue "default").
Proof.
  split; [vm_compute; reflexivity|]. split; [vm_compute; reflexivity|].
  destruct (call_with (two_tokens false) "Bearer s" (APauseQueue "default")) as [[b' out] r] eqn:E.
  destruct (admin_access_controlled (MR := elements_range) (NP := noParsers) (UP := λ _, None)
    sample_admin (two_tokens false) "Bearer s" (APauseQueue "default") New b' out r E) as [H1 H2].
  assert (Hout : out ≠ []) by (vm_compute in E; injection E as _ <- _; discriminate).
  destruct (H1 (or_intror Hout)) as [Hr [Hd|Hh]]; [discriminate Hd|].
  split; [exact Hh|]. exact (H2 (or_intror Hh) (or_introl Hr)).
Defined.
