(* ===== verification/AdminProps.v ===== *)
(** * Listing tasks page by page, and settings that take effect *)

From S2P Require Import Prelude Proto Events BrokerApi Memory MemoryFacts MemorySteps MemoryProps Encryption BrokerCalls Messages Backoff QueueGrain TaskLog Gateway WebhookGuard Api Session AdminApi.
From Stdlib Require Import Floats.SpecFloat Strings.Byte.

#[local] Open Scope Z_scope.

(** ** Newest first *)

Definition rowID (r : taskRow) : string := env_Id (row_envelope r).

Lemma compareNewest_comparator : Comparator (λ _ : taskRow, True) compareNewest.
Proof.
  pose proof strings_Compare_comparator as H. unfold compareNewest. split; intros.
  - by apply (cmp_flip (cmp := strings_Compare)).
  - by eapply (cmp_lt_trans (cmp := strings_Compare) _ (rowID b)).
  - assert (E : strings_Compare (rowID b) (rowID a) = 0) by done.
    apply strings_Compare_eq in E. unfold rowID in E. by rewrite E.
Qed.

(** Strictly descending ids. *)
Definition descending : list taskRow → Prop :=
  StronglySorted (λ a b, strings_Compare (rowID b) (rowID a) < 0).

Lemma Compare_flip a b : strings_Compare a b < 0 ↔ 0 < strings_Compare b a.
Proof. pose proof (cmp_flip (cmp := strings_Compare) a b I I). lia. Qed.

Lemma Compare_empty s : ¬ strings_Compare s "" < 0.
Proof. destruct s; cbn; [lia|]. vm_compute. done. Qed.

(** What follows a row in descending order is what is older than it. *)
Lemma descending_after l1 r l2 :
  descending (l1 ++ r :: l2) → filter (λ x, strings_Compare (rowID x) (rowID r) < 0) (l1 ++ r :: l2) = l2.
Proof.
  intros Hd. induction l1 as [|x l1 IH]; cbn [app] in *; inversion Hd as [|? ? Hs Hf]; subst.
  - rewrite filter_cons_False by (rewrite strings_Compare_refl; lia).
    clear Hd Hs. induction Hf as [|y l2 Hy Hf IH]; [done|]. by rewrite filter_cons_True, IH.
  - rewrite filter_cons_False; [by apply IH|]. rewrite Forall_app, Forall_cons in Hf.
    destruct Hf as (_ & Hr & _). apply Compare_flip in Hr. lia.
Qed.

Lemma sorted_filter {A} (R : A → A → Prop) (P : A → Prop) `{∀ x, Decision (P x)} l :
  StronglySorted R l → StronglySorted R (filter P l).
Proof.
  induction 1 as [|x l Hs IH Hx]; [constructor|]. destruct (decide (P x)).
  - rewrite filter_cons_True by done. constructor; [done|]. rewrite Forall_forall in *.
    intros y [_ Hy]%list_elem_of_filter. auto.
  - by rewrite filter_cons_False.
Qed.

(** ** One page *)

Section Listing.
Context {MR : MapRange} (b : Broker) (Hwf : wf b).

Definition allRows : list taskRow := (range_map (br_tasks b)).*2.

Lemma allRows_distinct r r' : r ∈ allRows → r' ∈ allRows → rowID r = rowID r' → r = r'.
Proof.
  unfold allRows. intros ([id x] & -> & Hx)%list_elem_of_fmap ([id' x'] & -> & Hx')%list_elem_of_fmap.
  apply elem_of_range_map in Hx, Hx'. unfold rowID. cbn in *. intros E.
  pose proof (wf_rows _ Hwf _ _ Hx) as [Hid _]. pose proof (wf_rows _ Hwf _ _ Hx') as [Hid' _].
  congruence.
Qed.

(** The rows a query selects, leaving its page aside, newest first. *)
Definition newest (query : TaskQuery) : list taskRow :=
  SortFunc compareNewest (filter (λ r, matchesQuery (mkTaskQuery (query_Queue query) (query_State query) 0 "") r = true) allRows).

Lemma newest_perm query : newest query ≡ₚ
  filter (λ r, matchesQuery (mkTaskQuery (query_Queue query) (query_State query) 0 "") r = true) allRows.
Proof. apply SortFunc_perm. Qed.

Lemma newest_distinct query r r' :
  r ∈ newest query → r' ∈ newest query → rowID r = rowID r' → r = r'.
Proof.
  rewrite newest_perm. intros [_ Hr]%list_elem_of_filter [_ Hr']%list_elem_of_filter.
  by apply allRows_distinct.
Qed.

Lemma newest_descending query : descending (newest query).
Proof.
  pose proof compareNewest_comparator.
  assert (Hs : StronglySorted (λ a c, compareNewest a c <= 0) (newest query)).
  { apply (SortFunc_sorted (λ _, True) compareNewest). by apply Forall_true. }
  pose proof (newest_distinct query) as Hd.
  assert (Hnd : NoDup (newest query)).
  { rewrite newest_perm. apply NoDup_filter. unfold allRows.
    apply NoDup_fmap_2_strong; [|apply NoDup_range_map]. intros [i x] [i' x'] Hx Hx' E.
    apply elem_of_range_map in Hx, Hx'. cbn in E. subst x'.
    pose proof (wf_rows _ Hwf _ _ Hx) as [<- _]. pose proof (wf_rows _ Hwf _ _ Hx') as [<- _]. done. }
  unfold descending. revert Hs Hd Hnd. generalize (newest query). intros l Hs.
  induction Hs as [|x l Hs IH Hx]; intros Hd Hnd; [constructor|].
  apply NoDup_cons in Hnd as [Hni Hnd]. constructor.
  - apply IH; [|done]. intros r r' Hr Hr'. apply Hd; by right.
  - rewrite Forall_forall in *. intros y Hy. specialize (Hx y Hy).
    change (strings_Compare (rowID y) (rowID x) <= 0) in Hx.
    destruct (Z.eq_dec (strings_Compare (rowID y) (rowID x)) 0) as [E|]; [|lia].
    apply strings_Compare_eq in E. assert (y = x) as -> by (apply Hd; [by right|left|done]). done.
Qed.

(** What a page token leaves of the listing. *)
Definition beyond (token : string) (r : taskRow) : Prop :=
  token = "" ∨ strings_Compare (rowID r) token < 0.

#[local] Instance beyond_dec token r : Decision (beyond token r).
Proof. unfold beyond. apply _. Defined.

Lemma matchesQuery_page query r :
  matchesQuery query r = true ↔
  matchesQuery (mkTaskQuery (query_Queue query) (query_State query) 0 "") r = true ∧
  beyond (query_AfterID query) r.
Proof.
  unfold matchesQuery, beyond. cbn [query_Queue query_State query_AfterID].
  rewrite !andb_true_iff, !orb_true_iff, !bool_decide_eq_true, !Z.ltb_lt. naive_solver.
Qed.

(** The rows of a page before it is cut are those of the listing beyond its
    token. *)
Lemma page_rows query :
  SortFunc compareNewest (filter (λ r, matchesQuery query r = true) allRows) =
    filter (beyond (query_AfterID query)) (newest query).
Proof.
  pose proof compareNewest_comparator. symmetry. apply (SortFunc_unique (λ _, True) compareNewest).
  - by apply Forall_true.
  - intros r r' [_ Hr]%list_elem_of_filter [_ Hr']%list_elem_of_filter E.
    apply strings_Compare_eq in E. by apply allRows_distinct.
  - rewrite newest_perm, list_filter_filter. apply Permutation_refl'. apply list_filter_iff.
    intros r. rewrite (matchesQuery_page query). tauto.
  - apply sorted_filter. pose proof (newest_descending query) as Hd. unfold descending in Hd.
    induction Hd as [|x l Hd IH Hx]; [constructor|]. constructor; [done|].
    rewrite Forall_forall in *. intros y Hy. specialize (Hx y Hy).
    change (strings_Compare (rowID y) (rowID x) <= 0). lia.
Qed.

Lemma EffectiveListLimit_pos limit : 0 < EffectiveListLimit limit.
Proof.
  unfold EffectiveListLimit, DefaultListLimit, MaxListLimit.
  destruct (Z.leb_spec limit 0); [lia|]. destruct (Z.ltb_spec 1000 limit); lia.
Qed.

Definition rowInfo (r : taskRow) : TaskInfo := taskInfo (overlay r) (row_state r).

Lemma overlay_id r : env_Id (overlay r) = rowID r.
Proof. unfold overlay. repeat case_match; done. Qed.

(** A page: the first rows beyond its token, and the last one's id when the
    page is full. *)
Lemma ListTasks_page {NP : NetParsers} {UP : UrlParser} w query :
  0 <= query_Limit query →
  let n := Z.to_nat (EffectiveListLimit (query_Limit query)) in
  let rest := filter (beyond (query_AfterID query)) (newest query) in
  ListTasks memory w query b =
    (b, [], inr (mkListTasksResponse (rowInfo <$> take n rest)
       (if decide (n <= length rest)%nat then default "" (rowID <$> last (take n rest)) else ""))).
Proof.
  intros Hlim n rest. pose proof (EffectiveListLimit_pos (query_Limit query)) as Hpos.
  unfold ListTasks. destruct (Z.ltb_spec (query_Limit query) 0); [lia|].
  unfold andThen, coded, calling. cbn [memory]. unfold Memory.ListTasks. fold allRows.
  cbv zeta. rewrite page_rows. fold rest n.
  assert ((if (EffectiveListLimit (query_Limit query) <? Z.of_nat (length rest))%Z
           then take n rest else rest) = take n rest) as ->.
  { destruct (Z.ltb_spec (EffectiveListLimit (query_Limit query)) (Z.of_nat (length rest))); [done|].
    symmetry. apply take_ge. lia. }
  cbn [app]. do 2 f_equal. f_equal.
  - rewrite <- list_fmap_compose. done.
  - rewrite length_fmap, length_take, fmap_last.
    destruct (decide (n <= length rest)%nat).
    + rewrite decide_True by lia. destruct (last (take n rest)) as [r|]; [exact (overlay_id r)|done].
    + rewrite decide_False by lia. done.
Qed.

(** ** Following the page tokens *)

(** A client that asks for pages until one carries no token; [None] when the
    fuel runs out or a call fails. *)
Fixpoint listPages {NP : NetParsers} {UP : UrlParser} (fuel : nat) (w : adminWorld) (query : TaskQuery)
    : option (list TaskInfo) :=
  match fuel with
  | O => None
  | S fuel =>
      match (ListTasks memory w query b).2 with
      | inl _ => None
      | inr page =>
          if decide (lt_NextPageToken page = "") then Some (lt_Tasks page)
          else
            more ← listPages fuel w (mkTaskQuery (query_Queue query) (query_State query)
                     (query_Limit query) (lt_NextPageToken page));
            Some (lt_Tasks page ++ more)
      end
  end.

(** Beyond the last row of a page lies the rest of the listing; an empty id is
    the last of all. *)
Lemma beyond_page query l1 l2 r :
  newest query = l1 ++ r :: l2 →
  (rowID r = "" → l2 = []) ∧ (rowID r ≠ "" → filter (beyond (rowID r)) (newest query) = l2).
Proof.
  intros Hn. pose proof (newest_descending query) as Hd. rewrite Hn in Hd |- *.
  pose proof (descending_after _ _ _ Hd) as Ha. split.
  - intros E. destruct l2 as [|x l2]; [done|]. exfalso. apply (Compare_empty (rowID x)).
    assert (Hx : x ∈ x :: l2) by left. rewrite <- Ha, E in Hx. by apply list_elem_of_filter in Hx as [Hx _].
  - intros Hne. rewrite <- Ha at 2. apply list_filter_iff. intros x. unfold beyond. naive_solver.
Qed.

Lemma listPages_rest {NP : NetParsers} {UP : UrlParser} fuel w query l1 l2 :
  0 <= query_Limit query → newest query = l1 ++ l2 →
  filter (beyond (query_AfterID query)) (newest query) = l2 → (length l2 < fuel)%nat →
  listPages fuel w query = Some (rowInfo <$> l2).
Proof.
  intros Hlim. revert query Hlim l1 l2. induction fuel as [|fuel IH]; intros query Hlim l1 l2 Hn Hrest Hf; [lia|].
  cbn [listPages]. rewrite ListTasks_page by done. cbn [snd]. rewrite Hrest.
  pose proof (EffectiveListLimit_pos (query_Limit query)) as Hpos.
  set (n := Z.to_nat (EffectiveListLimit (query_Limit query))). cbn [lt_NextPageToken lt_Tasks].
  destruct (decide (n <= length l2)%nat) as [Hfull|Hshort].
  2: { rewrite decide_True by done. by rewrite take_ge by lia. }
  destruct (last (take n l2)) as [r|] eqn:Hl.
  2: { apply last_None in Hl. apply (f_equal length) in Hl. rewrite length_take in Hl. cbn in Hl. lia. }
  change (default "" (rowID <$> Some r)) with (rowID r). apply last_Some in Hl as [l0 Hl].
  assert (Hl2 : l2 = l0 ++ r :: drop n l2).
  { rewrite <- (take_drop n l2) at 1. rewrite Hl. by rewrite <- app_assoc. }
  destruct (beyond_page query (l1 ++ l0) (drop n l2) r) as [Hlast Hmore].
  { rewrite Hn, Hl2 at 1. by rewrite <- app_assoc. }
  case_decide as Hid.
  - by rewrite take_ge by (apply Hlast, (f_equal length) in Hid; rewrite length_drop in Hid; cbn in Hid; lia).
  - rewrite (IH (mkTaskQuery (query_Queue query) (query_State query) (query_Limit query) (rowID r))
      Hlim (l1 ++ take n l2) (drop n l2)).
    + cbn. rewrite <- fmap_app. by rewrite take_drop.
    + change (newest query = (l1 ++ take n l2) ++ drop n l2). by rewrite Hn, <- app_assoc, take_drop.
    + exact (Hmore Hid).
    + rewrite length_drop. lia.
Qed.
End Listing.

(** C27: following the page tokens lists every task exactly once. From the first
    page on, with any page limit, the client stops, after at most one call more
    than there are matching tasks, with all the tasks the query's queue and
    state select, newest id first and strictly descending, each in the form the
    service returns it. *)
Theorem ListTasks_pages_complete {MR : MapRange} {NP : NetParsers} {UP : UrlParser} b w query fuel :
  reachable b → 0 <= query_Limit query → query_AfterID query = "" →
  (length (newest b query) < fuel)%nat →
  listPages b fuel w query = Some (rowInfo <$> newest b query) ∧
  descending (newest b query) ∧
  ∀ id row, br_tasks b !! id = Some row →
    row ∈ newest b query ↔
      (query_Queue query = "" ∨ env_Queue (row_envelope row) = query_Queue query) ∧
      (query_State query = TASK_STATE_UNSPECIFIED ∨ row_state row = query_State query).
Proof.
  intros Hwf%reachable_wf Hlim Hpage Hf.
  assert (Hall : filter (beyond (query_AfterID query)) (newest b query) = newest b query).
  { rewrite Hpage. generalize (newest b query). intros l. induction l as [|x l IH]; [done|].
    rewrite filter_cons_True by by left. by rewrite IH. }
  split; [by apply (listPages_rest b Hwf fuel w query [] (newest b query))|].
  split; [by apply newest_descending|]. intros id row Hrow.
  rewrite newest_perm, list_elem_of_filter. unfold matchesQuery, allRows. cbn.
  rewrite !andb_true_iff, !orb_true_iff, !bool_decide_eq_true.
  assert (row ∈ (range_map (br_tasks b)).*2).
  { apply list_elem_of_fmap. exists (id, row). by rewrite elem_of_range_map. }
  naive_solver.
Qed.

(** ** An instance *)

Definition noNames : NetParsers := {|
  URLHostname := λ _, None; SplitHostPort := λ _, None; ParseIP := λ _, None |}.

(** Three tasks in pages of one: the fourth page is the empty last one. *)
Lemma ListTasks_pages_complete_witness :
  let query := mkTaskQuery "mail" TASK_STATE_UNSPECIFIED 1 "" in
  let w := mkAdminWorld 1 (λ _, true) (λ _, true) [] false false in
  ti_Id <$> (rowInfo <$> newest (MR := elements_range) sample_store query) = ["c"; "b"; "a"] ∧
  listPages (MR := elements_range) (NP := noNames) (UP := λ _, None) sample_store 4 w query =
    Some (rowInfo <$> newest (MR := elements_range) sample_store query) ∧
  listPages (MR := elements_range) (NP := noNames) (UP := λ _, None) sample_store 3 w query = None.
Proof.
  intros query w. split; [vm_compute; reflexivity|]. split; [|vm_compute; reflexivity].
  refine (proj1 (ListTasks_pages_complete (MR := elements_range) (NP := noNames) (UP := λ _, None)
    sample_store w query 4 sample_reachable _ _ _)); [vm_compute; discriminate|reflexivity|].
  vm_compute. lia.
Defined.
