(* ===== verification/QueueSettings.v ===== *)
(** * Settings that take effect: the admin service and the queue grain together

    A change of a queue's pause flag, rate limit or concurrency limit writes the
    store and tells the queue's grain. The grain that handles the message is
    compared with one that activates afresh over the new store. *)

From S2P Require Import Prelude Proto Events BrokerApi Memory Encryption BrokerCalls Messages Backoff QueueGrain TaskLog Gateway WebhookGuard Api Session AdminApi QueueGrainProps.
From Stdlib Require Import Floats.SpecFloat.

#[local] Open Scope Z_scope.

(** The admin calls that change what a grain loads when it activates. *)
Inductive settingCall :=
  | SPause (queue : string)
  | SResume (queue : string)
  | SSetRate (queue : string) (rate : spec_float) (burst : Z)
  | SDeleteRate (queue : string)
  | SSetConcurrency (queue : string) (maxActive : Z)
  | SDeleteConcurrency (queue : string).

Definition settingQueue (c : settingCall) : string :=
  match c with
  | SPause q | SResume q | SSetRate q _ _ | SDeleteRate q | SSetConcurrency q _
  | SDeleteConcurrency q => q
  end.

(** Which of the three settings a call changes. *)
Inductive setting := PauseFlag | RateBucket | KeyLimit.

Definition changes (c : settingCall) : setting :=
  match c with
  | SPause _ | SResume _ => PauseFlag
  | SSetRate _ _ _ | SDeleteRate _ => RateBucket
  | SSetConcurrency _ _ | SDeleteConcurrency _ => KeyLimit
  end.

Definition applySetting {MR : MapRange} (w : adminWorld) (c : settingCall)
    : eff Broker Code unit :=
  match c with
  | SPause q => PauseQueue memory w q
  | SResume q => ResumeQueue memory w q
  | SSetRate q rate burst => SetQueueRateLimit memory w q rate burst
  | SDeleteRate q => DeleteQueueRateLimit memory w q
  | SSetConcurrency q maxActive => SetQueueConcurrencyLimit memory w q maxActive
  | SDeleteConcurrency q => DeleteQueueConcurrencyLimit memory w q
  end.

Section Settings.
Context {RL : RateLimiter} {MR : MapRange}.

(** The grain of a queue activated over a store. *)
Definition activated (settings : Settings) (queue : string) (b : Broker) : QueueGrain :=
  OnActivate settings queue (QueuePaused queue b)
    ((λ l, (rl_RatePerSec l, rl_Burst l)) <$> QueueRateLimit queue b)
    (cl_MaxActive <$> QueueConcurrencyLimit queue b).

(** Two grains agree on a setting. *)
Definition agree (s : setting) (x y : QueueGrain) : Prop :=
  match s with
  | PauseFlag => qg_paused x = qg_paused y
  | RateBucket => qg_limiter x = qg_limiter y
  | KeyLimit => qg_concurrencyLimit x = qg_concurrencyLimit y
  end.

(** A persisted pause flag, as the turn writes it to the store. *)
Definition persisted (queue : string) (out : list grainEffect) (b : Broker) : Broker :=
  foldl (λ b e, match e with PersistPaused p => SetQueuePaused queue p b | _ => b end) b out.

Lemma agree_refl s x : agree s x x.
Proof. by destruct s. Qed.

Lemma agree_trans s x y z : agree s x y → agree s y z → agree s x z.
Proof. destruct s; cbn; congruence. Qed.

(** A lease cycle keeps the settings and writes no pause flag. *)
Lemma maybeLease_keeps sys t s : agree s (tn_grain (maybeLease sys t)) (tn_grain t).
Proof. unfold maybeLease, startLease. repeat case_match; by destruct s. Qed.

Lemma maybeLease_persists sys t queue b :
  persisted queue (tn_out (maybeLease sys t)) b = persisted queue (tn_out t) b.
Proof.
  unfold maybeLease, startLease. repeat case_match; try done; cbn; unfold persisted;
    by rewrite foldl_app.
Qed.

(** What a fresh activation loads of each setting. *)
Lemma activated_paused settings queue b : qg_paused (activated settings queue b) = QueuePaused queue b.
Proof. unfold activated, OnActivate, loadConcurrencyLimit, loadRateLimit. repeat case_match; done. Qed.

Lemma activated_limiter settings queue b :
  qg_limiter (activated settings queue b) =
    if set_RateLimitEnabled settings then
      match QueueRateLimit queue b with
      | Some l => buildLimiter (rl_RatePerSec l) (rl_Burst l)
      | None => buildLimiter (set_RateLimitRatePerSec settings) (set_RateLimitBurst settings)
      end
    else None.
Proof.
  unfold activated, OnActivate, loadConcurrencyLimit, loadRateLimit.
  destruct (set_RateLimitEnabled settings), (QueueRateLimit queue b), (QueueConcurrencyLimit queue b);
    cbn; repeat case_match; done.
Qed.

Lemma activated_concurrency settings queue b :
  qg_concurrencyLimit (activated settings queue b) =
    match QueueConcurrencyLimit queue b with
    | Some l => if 1 <=? cl_MaxActive l then cl_MaxActive l else 0
    | None => 0
    end.
Proof.
  unfold activated, OnActivate, loadConcurrencyLimit, loadRateLimit.
  destruct (set_RateLimitEnabled settings), (QueueRateLimit queue b), (QueueConcurrencyLimit queue b);
    cbn; repeat case_match; done.
Qed.

(** The grain after the turn of a change's message, from a turn that has sent
    nothing. *)
Definition handled (sys : System) (m : grainMessage) (x : QueueGrain) (k : Counters) : Turn :=
  OnReceive sys m (mkTurn x k []).

(** The message [m] brings a grain to the store [b']: the setting [s] becomes
    what an activation over [b'] loads, the others stay, and what the turn writes
    to the store is there already. *)
Definition brings (settings : Settings) (queue : string) (s : setting) (m : grainMessage)
    (b' : Broker) : Prop :=
  ∀ (sys : System) (x : QueueGrain) (k : Counters), sys_settings sys = settings → sys_persist_ok sys = true →
    agree s (tn_grain (handled sys m x k)) (activated settings queue b') ∧
    (∀ s', s' ≠ s → agree s' (tn_grain (handled sys m x k)) x) ∧
    persisted queue (tn_out (handled sys m x k)) b' = b'.

(** The store's settings differ from [b]'s at most in [s] of [queue]. *)
Definition differs_only (settings : Settings) (queue : string) (s : setting) (b b' : Broker) : Prop :=
  (∀ queue', queue' ≠ queue → activated settings queue' b' = activated settings queue' b) ∧
  ∀ s', s' ≠ s → agree s' (activated settings queue b') (activated settings queue b).

Lemma SetQueuePaused_again queue paused b :
  SetQueuePaused queue paused (SetQueuePaused queue paused b) = SetQueuePaused queue paused b.
Proof. unfold SetQueuePaused. destruct b; cbn. by rewrite insert_insert_eq. Qed.

Lemma pause_brings settings queue (paused : bool) b :
  brings settings queue PauseFlag (if paused then MDrainQueue else MResumeQueue)
    (SetQueuePaused queue paused b).
Proof.
  intros sys x k _ Hp. unfold handled.
  assert (Hq : qg_paused (activated settings queue (SetQueuePaused queue paused b)) = paused).
  { rewrite activated_paused. unfold QueuePaused, SetQueuePaused. cbn. by rewrite lookup_insert_eq. }
  destruct paused; cbn [OnReceive]; unfold setPaused; rewrite Hp.
  - split; [by rewrite <- Hq at 1|]. split; [by intros []|]. apply SetQueuePaused_again.
  - split; [eapply agree_trans; [apply maybeLease_keeps|]; by rewrite <- Hq at 1|].
    split; [intros s Hs; eapply agree_trans; [apply maybeLease_keeps|]; by destruct s|].
    rewrite maybeLease_persists. apply SetQueuePaused_again.
Qed.

Lemma rate_brings settings queue rate burst b' :
  (set_RateLimitEnabled settings = true →
   (if SFleb rate (S754_zero false)
    then buildLimiter (set_RateLimitRatePerSec settings) (set_RateLimitBurst settings)
    else buildLimiter rate burst) = qg_limiter (activated settings queue b')) →
  brings settings queue RateBucket (MRateLimitChanged rate burst) b'.
Proof.
  intros Hl sys x k Hs _. unfold handled. cbn [OnReceive]. rewrite maybeLease_persists. split.
  - eapply agree_trans; [apply maybeLease_keeps|]. unfold applyRateLimitChange. cbn. rewrite Hs.
    rewrite activated_limiter in *. destruct (set_RateLimitEnabled settings); [|done].
    rewrite <- Hl by done. cbn. by destruct (SFleb rate (S754_zero false)).
  - split; [|done]. intros s Hne. eapply agree_trans; [apply maybeLease_keeps|].
    unfold applyRateLimitChange. cbn. repeat case_match; by destruct s.
Qed.

Lemma concurrency_brings settings queue maxActive b' :
  (if 1 <=? maxActive then maxActive else 0) = qg_concurrencyLimit (activated settings queue b') →
  brings settings queue KeyLimit (MConcurrencyLimitChanged maxActive) b'.
Proof.
  intros Hl sys x k Hs _. unfold handled. cbn [OnReceive]. rewrite maybeLease_persists. split.
  - eapply agree_trans; [apply maybeLease_keeps|]. unfold applyConcurrencyLimitChange. cbn.
    rewrite <- Hl. by destruct (1 <=? maxActive).
  - split; [|done]. intros s Hne. eapply agree_trans; [apply maybeLease_keeps|].
    unfold applyConcurrencyLimitChange. cbn. repeat case_match; by destruct s.
Qed.

(** Storing at [queue] one of the three settings. *)
Lemma differs_store settings queue s b b' :
  (∀ queue', queue' ≠ queue ∨ s ≠ PauseFlag → QueuePaused queue' b' = QueuePaused queue' b) →
  (∀ queue', queue' ≠ queue ∨ s ≠ RateBucket → QueueRateLimit queue' b' = QueueRateLimit queue' b) →
  (∀ queue', queue' ≠ queue ∨ s ≠ KeyLimit →
     QueueConcurrencyLimit queue' b' = QueueConcurrencyLimit queue' b) →
  differs_only settings queue s b b'.
Proof.
  intros H1 H2 H3. split.
  - intros q Hq. unfold activated. by rewrite H1, H2, H3 by auto.
  - intros [] Hs; cbn; rewrite ?activated_paused, ?activated_limiter, ?activated_concurrency;
      rewrite ?H1, ?H2, ?H3; auto.
Qed.
End Settings.

(** A change that has passed its validation writes the store and tells the
    grain. *)
Lemma setting_told {RL : RateLimiter} {MR : MapRange} settings w queue s r m b b1 b' out res :
  (let '(b, out, res) := andThen (persist memory w r) (λ _, tellQueue w queue m) b in
   (b, [] ++ out, res) : Broker * list apiEffect * (Code + unit)) = (b', out, res) →
  memory (aw_now w) r b = (b1, Returned) →
  differs_only settings queue s b b1 → brings settings queue s m b1 →
  ∃ m, out = [TellQueue queue m] ∧
    res = (if aw_tellOk w queue then inr () else inl CodeInternal) ∧
    differs_only settings queue s b b' ∧ brings settings queue s m b'.
Proof.
  unfold persist, coded, calling, tellQueue, asking, andThen. intros H Hm. rewrite Hm in H.
  injection H as <- <- <-. intros Hd Hb. by exists m.
Qed.

Ltac stored_elsewhere :=
  let queue' := fresh in intros queue' [Hq|Hq]; try done;
  unfold QueuePaused, QueueRateLimit, QueueConcurrencyLimit, SetQueuePaused, Memory.SetQueueRateLimit,
    Memory.DeleteQueueRateLimit, Memory.SetQueueConcurrencyLimit, Memory.DeleteQueueConcurrencyLimit;
  cbn; rewrite ?lookup_insert_ne, ?lookup_delete_ne by congruence; done.

Ltac settled :=
  unfold QueueRateLimit, QueueConcurrencyLimit, Memory.SetQueueRateLimit, Memory.DeleteQueueRateLimit,
    Memory.SetQueueConcurrencyLimit, Memory.DeleteQueueConcurrencyLimit;
  cbn; rewrite ?lookup_insert_eq, ?lookup_delete_eq; done.

(** C28: a change of a queue's settings is one thing to the store and to the
    live grain. A change with an invalid argument touches neither. Any other
    writes only that setting of that queue and tells the queue's grain exactly
    one message, failing only when the grain cannot be reached; and a grain in
    whatever state that handles the message ends up with the setting a grain
    activated afresh over the new store loads (a full token bucket included),
    keeps its other settings, and persists nothing that is not stored. *)
Theorem queue_settings_take_effect {RL : RateLimiter} {MR : MapRange} settings w c b b' out r :
  applySetting w c b = (b', out, r) →
  (b' = b ∧ out = [] ∧ r = inl CodeInvalidArgument) ∨
  ∃ m, out = [TellQueue (settingQueue c) m] ∧
    r = (if aw_tellOk w (settingQueue c) then inr () else inl CodeInternal) ∧
    differs_only settings (settingQueue c) (changes c) b b' ∧
    brings settings (settingQueue c) (changes c) m b'.
Proof.
  destruct c as [q|q|q rate burst|q|q maxActive|q]; cbn [applySetting settingQueue changes];
    unfold PauseQueue, ResumeQueue, SetQueueRateLimit, DeleteQueueRateLimit, SetQueueConcurrencyLimit,
      DeleteQueueConcurrencyLimit, validQueueName;
    case_decide; try (intros [= <- <- <-]; by left);
    destruct (queueNamePattern q); cbn [negb lift]; try (intros [= <- <- <-]; by left);
    unfold andThen at 1, returns at 1.
  - intros H1. right. eapply (setting_told _ w q _ (RSetQueuePaused q true) MDrainQueue);
       [exact H1|reflexivity| |apply (pause_brings settings q true)].
    apply differs_store; stored_elsewhere.
  - intros H1. right. eapply (setting_told _ w q _ (RSetQueuePaused q false) MResumeQueue);
       [exact H1|reflexivity| |apply (pause_brings settings q false)].
    apply differs_store; stored_elsewhere.
  - destruct (SFleb rate _) eqn:Hpos; [intros [= <- <- <-]; by left|].
    destruct (is_finite rate) eqn:Hfin; [|intros [= <- <- <-]; by left].
    destruct (Z.ltb_spec burst 1); [intros [= <- <- <-]; by left|]. cbn [orb negb]. intros H1. right.
    eapply (setting_told _ w q _ (RSetQueueRateLimit q rate burst) (MRateLimitChanged rate burst));
       [exact H1|reflexivity|apply differs_store; stored_elsewhere|apply rate_brings].
    intros He. rewrite activated_limiter, He, Hpos. settled.
  - intros H1. right.
    eapply (setting_told _ w q _ (RDeleteQueueRateLimit q) (MRateLimitChanged (S754_zero false) 0));
       [exact H1|reflexivity|apply differs_store; stored_elsewhere|apply rate_brings].
    intros He. rewrite activated_limiter, He. settled.
  - destruct (Z.ltb_spec maxActive 1); [intros [= <- <- <-]; by left|]. intros H1. right.
    eapply (setting_told _ w q _ (RSetQueueConcurrencyLimit q maxActive) (MConcurrencyLimitChanged maxActive));
       [exact H1|reflexivity|apply differs_store; stored_elsewhere|].
    apply concurrency_brings. rewrite activated_concurrency. settled.
  - intros H1. right.
    eapply (setting_told _ w q _ (RDeleteQueueConcurrencyLimit q) (MConcurrencyLimitChanged 0));
       [exact H1|reflexivity|apply differs_store; stored_elsewhere|].
    apply concurrency_brings. rewrite activated_concurrency. settled.
Qed.

(** ** An instance *)

(** A limit set over the server's default: the live grain, its bucket spent,
    starts a full one of the new size. *)
Lemma queue_settings_take_effect_witness :
  let settings := sample_settings in
  let w := mkAdminWorld 1 (λ _, true) (λ _, true) [] false false in
  let rate := S754_finite false 1 0 in
  let '(b', out, r) := applySetting (MR := elements_range) w (SSetRate "mail" rate 7) New in
  out = [TellQueue "mail" (MRateLimitChanged rate 7)] ∧ r = inr () ∧
  brings (RL := simple_bucket) settings "mail" RateBucket (MRateLimitChanged rate 7) b' ∧
  qg_limiter (activated (RL := simple_bucket) settings "mail" b') = Some (7, 7).
Proof.
  intros settings w rate.
  destruct (applySetting (MR := elements_range) w (SSetRate "mail" rate 7) New) as [[b' out] r] eqn:E.
  destruct (queue_settings_take_effect (RL := simple_bucket) (MR := elements_range) settings w
    (SSetRate "mail" rate 7) New b' out r E) as [(_ & _ & Hr)|(m & Hout & Hr & _ & Hb)].
  - vm_compute in E. injection E as _ _ <-. discriminate Hr.
  - pose proof E as E'. vm_compute in E'. injection E' as <- <- <-. injection Hout as <-.
    split; [reflexivity|]. split; [reflexivity|]. split; [exact Hb|]. vm_compute. reflexivity.
Defined.
