(* ===== verification/TasksApi.v ===== *)
(** * The task service (server/api/tasks_service.go)

    Validation and defaults of an enqueue request, and the enqueue procedures
    over the engine. The trace stamp is a function on the task's metadata. The
    optional instants and durations of a request are those that are valid: an
    unset and an invalid one are alike to [IsValid]. *)

From S2P Require Import Prelude Proto Events BrokerApi Memory Encryption BrokerCalls Messages EventBus Engine Backoff TaskLog Gateway WebhookGuard Api Session AdminApi.
From Stdlib Require Import Strings.Byte.

#[local] Open Scope Z_scope.

Definition defaultPriority : Z := 4.
Definition maxPriority : Z := 9.
Definition maxPayloadBytes : Z := 2 ^ 20.
Definition maxDependencies : Z := 1000.
Definition perTaskOverheadBytes : Z := 64 * 2 ^ 10.
Definition MaxRequestBytes : Z := maxBatchTasks * (maxPayloadBytes + perTaskOverheadBytes).
Definition MaxMessageBytes : Z := maxPayloadBytes + perTaskOverheadBytes.

Record EnqueueRequest := mkEnqueueRequest {
  rq_TaskId : string;
  rq_Queue : string;
  rq_Type : string;
  rq_Payload : list byte;
  rq_ContentType : string;
  rq_Metadata : gmap string string;
  rq_MaxRetry : Z;
  rq_Timeout : option Duration;
  rq_Deadline : option Time;
  rq_ProcessAt : option Time;
  rq_ProcessIn : option Duration;
  rq_UniqueKey : string;
  rq_UniqueTtl : option Duration;
  rq_Priority : Z;
  rq_Retention : option Duration;
  rq_Group : string;
  rq_ExpiresIn : option Duration;
  rq_ExpiresAt : option Time;
  rq_DependsOn : list TaskDependency;
  rq_ConcurrencyKey : string;
  rq_RetryPolicy : option RetryPolicy }.

#[global] Instance EnqueueRequest_eta : Eta EnqueueRequest := λ r,
  mkEnqueueRequest (rq_TaskId r) (rq_Queue r) (rq_Type r) (rq_Payload r) (rq_ContentType r)
    (rq_Metadata r) (rq_MaxRetry r) (rq_Timeout r) (rq_Deadline r) (rq_ProcessAt r) (rq_ProcessIn r)
    (rq_UniqueKey r) (rq_UniqueTtl r) (rq_Priority r) (rq_Retention r) (rq_Group r) (rq_ExpiresIn r)
    (rq_ExpiresAt r) (rq_DependsOn r) (rq_ConcurrencyKey r) (rq_RetryPolicy r).

(** The clock readings taken for one request: for [process_in], for
    [expires_in], for the enqueue stamp, and for the reported state. *)
Record readings := mkReadings {
  rd_processIn : Time;
  rd_expiresIn : Time;
  rd_enqueued : Time;
  rd_reply : Time }.

(** Why a request is refused. *)
Inductive requestError :=
  | TypeRequired
  | InvalidQueueName
  | PayloadTooLarge
  | ProcessAtAndIn
  | ExpiresAtAndIn
  | GroupAndSchedule
  | GroupAndConcurrencyKey
  | NegativeMaxRetry
  | PriorityOutOfRange
  | TooManyDependencies
  | UnnamedDependency.

(** An absolute instant, or one relative to the clock. *)
Definition resolveTime (now : Time) (at_ : option Time) (delay : option Duration) : option Time :=
  match at_, delay with
  | Some at_, _ => Some at_
  | None, Some delay => Some (time_Add now delay)
  | None, None => None
  end.

Definition envelopeFromRequest (defaultMaxRetry : Z) (rd : readings) (request : EnqueueRequest)
    : requestError + TaskEnvelope :=
  let queue := if decide (rq_Queue request = "") then defaultQueueName else rq_Queue request in
  let scheduled := bool_decide (is_Some (rq_ProcessAt request)) || bool_decide (is_Some (rq_ProcessIn request)) in
  if decide (rq_Type request = "") then inl TypeRequired
  else if negb (queueNamePattern queue) then inl InvalidQueueName
  else if maxPayloadBytes <? Z.of_nat (length (rq_Payload request)) then inl PayloadTooLarge
  else if bool_decide (is_Some (rq_ProcessAt request)) && bool_decide (is_Some (rq_ProcessIn request))
  then inl ProcessAtAndIn
  else if bool_decide (is_Some (rq_ExpiresAt request)) && bool_decide (is_Some (rq_ExpiresIn request))
  then inl ExpiresAtAndIn
  else if negb (bool_decide (rq_Group request = "")) && scheduled then inl GroupAndSchedule
  else if negb (bool_decide (rq_Group request = "")) && negb (bool_decide (rq_ConcurrencyKey request = ""))
  then inl GroupAndConcurrencyKey
  else if rq_MaxRetry request <? 0 then inl NegativeMaxRetry
  else if (rq_Priority request <? 0) || (maxPriority <? rq_Priority request) then inl PriorityOutOfRange
  else if maxDependencies <? Z.of_nat (length (rq_DependsOn request)) then inl TooManyDependencies
  else if existsb (λ d, bool_decide (dep_TaskId d = "")) (rq_DependsOn request) then inl UnnamedDependency
  else
    let maxRetry := if rq_MaxRetry request =? 0 then defaultMaxRetry else rq_MaxRetry request in
    let priority := if rq_Priority request =? 0 then defaultPriority else rq_Priority request in
    let processAt := resolveTime (rd_processIn rd) (rq_ProcessAt request) (rq_ProcessIn request) in
    let expiresAt := resolveTime (rd_expiresIn rd) (rq_ExpiresAt request) (rq_ExpiresIn request) in
    inr (mkTaskEnvelope (rq_TaskId request) queue (rq_Type request) (rq_Payload request)
           (rq_ContentType request) (rq_Metadata request)
           (Some (mkTaskOptions maxRetry (rq_Timeout request) (rq_Deadline request) processAt
              (rq_UniqueKey request) (rq_UniqueTtl request) (rq_Retention request) priority
              (rq_Group request) expiresAt (rq_DependsOn request) (rq_ConcurrencyKey request)
              (rq_RetryPolicy request)))
           0 "" (Some (rd_enqueued rd)) None None 0 "").

Definition initialState (now : Time) (envelope : TaskEnvelope) : TaskState :=
  let options := GetOptions envelope in
  if decide (opt_DependsOn options ≠ []) then TASK_STATE_BLOCKED
  else if decide (opt_Group options ≠ "") then TASK_STATE_AGGREGATING
  else
    match opt_ProcessAt options with
    | Some processAt => if After processAt now then TASK_STATE_SCHEDULED else TASK_STATE_PENDING
    | None => TASK_STATE_PENDING
    end.

(** [errors.Is(err, broker.ErrDuplicateTask)] sees through a batch error. *)
Definition enqueueError (err : callError) : Code :=
  match err with
  | EBroker ErrDuplicateTask => CodeAlreadyExists
  | EBatch err => if decide (Unwrap err = ErrDuplicateTask) then CodeAlreadyExists else CodeInternal
  | _ => CodeInternal
  end.

Section Service.
Context {MR : MapRange} {B : Type} (taskLog : broker B) (newID : nat → string)
  (defaultMaxRetry : Z) (inject : gmap string string → gmap string string).

Definition injectTaskTrace (envelope : TaskEnvelope) : TaskEnvelope :=
  envelope <| env_Metadata := inject (env_Metadata envelope) |>.

Definition tasks_Enqueue (request : EnqueueRequest) (rd : readings) (now : Time) (e : Engine B)
    : Engine B * (Code + TaskInfo) :=
  match envelopeFromRequest defaultMaxRetry rd request with
  | inl _ => (e, inl CodeInvalidArgument)
  | inr envelope =>
      match engine_Enqueue taskLog newID (injectTaskTrace envelope) now e with
      | (_, e, Some err) => (e, inl (enqueueError err))
      | (envelope, e, None) => (e, inr (taskInfo envelope (initialState (rd_reply rd) envelope)))
      end
  end.

(** The loop of [EnqueueBatch]: items fail independently, [None] being an
    item's error. Each comes with the readings of its turn of the loop, the
    broker's last. *)
Fixpoint enqueueEach (items : list (EnqueueRequest * readings * Time)) (e : Engine B)
    : Engine B * list (option TaskInfo) :=
  match items with
  | [] => (e, [])
  | (item, rd, now) :: items =>
      let '(e, result) :=
        match envelopeFromRequest defaultMaxRetry rd item with
        | inl _ => (e, None)
        | inr envelope =>
            match engine_Enqueue taskLog newID envelope now e with
            | (_, e, Some _) => (e, None)
            | (envelope, e, None) => (e, Some (taskInfo envelope (initialState (rd_reply rd) envelope)))
            end
        end in
      let '(e, results) := enqueueEach items e in (e, result :: results)
  end.

Definition tasks_EnqueueBatch (items : list (EnqueueRequest * readings * Time)) (e : Engine B)
    : Engine B * (Code + list (option TaskInfo)) :=
  if decide (length items = 0%nat) then (e, inl CodeInvalidArgument)
  else if maxBatchTasks <? Z.of_nat (length items) then (e, inl CodeInvalidArgument)
  else let '(e, results) := enqueueEach items e in (e, inr results).

(** The loop of [EnqueueTx]; [None] is a refused item. *)
Fixpoint envelopesFromRequests (items : list (EnqueueRequest * readings)) : option (list TaskEnvelope) :=
  match items with
  | [] => Some []
  | (item, rd) :: items =>
      match envelopeFromRequest defaultMaxRetry rd item with
      | inl _ => None
      | inr envelope =>
          match envelopesFromRequests items with
          | Some envelopes => Some (injectTaskTrace envelope :: envelopes)
          | None => None
          end
      end
  end.

Definition tasks_EnqueueTx (items : list (EnqueueRequest * readings)) (now : Time) (e : Engine B)
    : Engine B * (Code + list TaskInfo) :=
  if decide (length items = 0%nat) then (e, inl CodeInvalidArgument)
  else if maxBatchTasks <? Z.of_nat (length items) then (e, inl CodeInvalidArgument)
  else
    match envelopesFromRequests items with
    | None => (e, inl CodeInvalidArgument)
    | Some envelopes =>
        match engine_EnqueueBatch taskLog newID envelopes now e with
        | (_, e, Some err) => (e, inl (enqueueError err))
        | (envelopes, e, None) =>
            (e, inr (zip_with (λ item envelope, taskInfo envelope (initialState (rd_reply item.2) envelope))
                       items envelopes))
        end
    end.

Definition tasks_GetTask (id : string) (now : Time) (e : Engine B) : Engine B * (Code + TaskInfo) :=
  if decide (id = "") then (e, inl CodeInvalidArgument)
  else
    let '(b, r) := taskLog now (RGetTask id) (en_store e) in
    (e <| en_store := b |>,
     match r with
     | Task envelope state => inr (taskInfo envelope state)
     | Failed (EBroker ErrTaskNotFound) => inl CodeNotFound
     | _ => inl CodeInternal
     end).
End Service.
