(* ===== verification/TasksApiProps.v ===== *)
(** * The task service: validation, and what an enqueue reports *)

From S2P Require Import Prelude Proto Events BrokerApi Memory MemoryFacts MemoryInv MemoryDeps MemoryLease MemoryEnqueue MemorySteps MemoryProps Encryption BrokerCalls Messages EventBus Engine Backoff TaskLog Gateway WebhookGuard Api Session AdminApi TasksApi.
From Stdlib Require Import Strings.Byte.

#[local] Open Scope Z_scope.

(** ** Validation *)

Definition queueOf (request : EnqueueRequest) : string :=
  if decide (rq_Queue request = "") then defaultQueueName else rq_Queue request.

(** What the service documents of a request. *)
Record valid_request (request : EnqueueRequest) : Prop := {
  vr_type : rq_Type request ≠ "";
  vr_queue : queueNamePattern (queueOf request) = true;
  vr_payload : Z.of_nat (length (rq_Payload request)) <= 2 ^ 20;
  vr_process : rq_ProcessAt request = None ∨ rq_ProcessIn request = None;
  vr_expires : rq_ExpiresAt request = None ∨ rq_ExpiresIn request = None;
  vr_group : rq_Group request ≠ "" →
    rq_ProcessAt request = None ∧ rq_ProcessIn request = None ∧ rq_ConcurrencyKey request = "";
  vr_retry : 0 <= rq_MaxRetry request;
  vr_priority : 0 <= rq_Priority request <= 9;
  vr_dependencies : Z.of_nat (length (rq_DependsOn request)) <= 1000;
  vr_named : Forall (λ d, dep_TaskId d ≠ "") (rq_DependsOn request) }.

(** The envelopes the service lets through to the engine. *)
Record valid_envelope (envelope : TaskEnvelope) : Prop := {
  ve_type : env_Type envelope ≠ "";
  ve_queue : queueNamePattern (env_Queue envelope) = true;
  ve_payload : Z.of_nat (length (env_Payload envelope)) <= 2 ^ 20;
  ve_retry : 0 <= opt_MaxRetry (GetOptions envelope);
  ve_priority : 1 <= opt_Priority (GetOptions envelope) <= 9;
  ve_group : opt_Group (GetOptions envelope) ≠ "" →
    opt_ProcessAt (GetOptions envelope) = None ∧ opt_ConcurrencyKey (GetOptions envelope) = "";
  ve_dependencies : Z.of_nat (length (opt_DependsOn (GetOptions envelope))) <= 1000;
  ve_named : Forall (λ d, dep_TaskId d ≠ "") (opt_DependsOn (GetOptions envelope));
  ve_fresh : env_Retried envelope = 0 ∧ env_LastError envelope = "" ∧ env_StartedAt envelope = None ∧
    env_CompletedAt envelope = None ∧ env_Progress envelope = 0 ∧ env_ProgressMessage envelope = "" }.

Lemma not_is_Some_bool {A} (x : option A) : bool_decide (is_Some x) = false → x = None.
Proof. rewrite bool_decide_eq_false. apply eq_None_not_Some. Qed.

Lemma unnamed_false ds :
  existsb (λ d, bool_decide (dep_TaskId d = "")) ds = false ↔ Forall (λ d, dep_TaskId d ≠ "") ds.
Proof.
  induction ds as [|d ds IH]; [done|]. cbn.
  rewrite orb_false_iff, bool_decide_eq_false, Forall_cons, IH. done.
Qed.

(** A guard of the translation: refused, or the claim its condition denies. *)
Ltac passed H :=
  match type of H with
  | (if decide ?P then inl _ else _) = inr _ => destruct (decide P); [discriminate H|]
  | (if ?c then inl _ else _) = inr _ => destruct c eqn:?; [discriminate H|]
  end.

Lemma accepted_valid dmr rd request envelope :
  envelopeFromRequest dmr rd request = inr envelope → valid_request request.
Proof.
  unfold envelopeFromRequest. fold (queueOf request). cbv zeta. intros H. repeat passed H.
  rewrite ?negb_false_iff, ?Z.ltb_ge, ?andb_false_iff, ?orb_false_iff, ?negb_false_iff, ?bool_decide_eq_true,
    ?bool_decide_eq_false, ?Z.ltb_ge, ?unnamed_false in *.
  split; try done; try (unfold maxPayloadBytes, maxDependencies, maxPriority in *; lia).
  all: rewrite ?eq_None_not_Some in *; naive_solver.
Qed.

Lemma valid_accepted dmr rd request :
  valid_request request → ∃ envelope, envelopeFromRequest dmr rd request = inr envelope.
Proof.
  intros []. unfold envelopeFromRequest. fold (queueOf request). cbv zeta.
  rewrite decide_False by done. rewrite vr_queue0. cbn [negb].
  rewrite (proj2 (Z.ltb_ge _ _)) by (unfold maxPayloadBytes; lia).
  assert (∀ A C (x : option A) (y : option C), x = None ∨ y = None →
    bool_decide (is_Some x) && bool_decide (is_Some y) = false) as Hboth.
  { intros A C x y [-> | ->]; [done|]. by rewrite andb_false_r. }
  rewrite !Hboth by done.
  assert (negb (bool_decide (rq_Group request = "")) &&
    (bool_decide (is_Some (rq_ProcessAt request)) || bool_decide (is_Some (rq_ProcessIn request))) = false ∧
    negb (bool_decide (rq_Group request = "")) && negb (bool_decide (rq_ConcurrencyKey request = "")) = false)
    as [-> ->].
  { destruct (decide (rq_Group request = "")) as [E|E].
    - by rewrite (bool_decide_eq_true_2 _ E).
    - destruct (vr_group0 E) as (-> & -> & ->). by rewrite !andb_false_r. }
  rewrite !(proj2 (Z.ltb_ge _ _)) by (unfold maxDependencies, maxPriority; lia). cbn [orb].
  rewrite (proj2 (unnamed_false _)) by done. eauto.
Qed.

Lemma accepted_envelope dmr rd request envelope :
  0 <= dmr → envelopeFromRequest dmr rd request = inr envelope → valid_envelope envelope.
Proof.
  intros Hd H. pose proof (accepted_valid _ _ _ _ H) as [].
  unfold envelopeFromRequest in H. fold (queueOf request) in H. cbv zeta in H. repeat passed H.
  injection H as <-. split; cbn; try done.
  - destruct (Z.eqb_spec (rq_MaxRetry request) 0); lia.
  - unfold defaultPriority. destruct (Z.eqb_spec (rq_Priority request) 0); lia.
  - intros Hg. destruct (vr_group0 Hg) as (-> & -> & ->). done.
Qed.

(** ** What reaches the broker *)

(** A valid envelope is never a scheduled member of a group, so the broker
    refuses it only as a duplicate. *)
Lemma valid_stage {MR : MapRange} envelope now ids keys b err :
  valid_envelope envelope → stageEnqueue envelope now ids keys b = StageError err →
  err = ErrDuplicateTask.
Proof.
  intros Hv. unfold stageEnqueue. case_decide; [done|]. case_decide; [done|].
  destruct (negb (bool_decide (opt_UniqueKey _ = "")) && _); [by intros [= <-]|].
  destruct (negb (bool_decide (opt_Group _ = "")) && _) eqn:Hg.
  - apply andb_true_iff in Hg as [Hg Hat]. rewrite negb_true_iff, bool_decide_eq_false in Hg.
    destruct (ve_group _ Hv Hg) as [E _]. rewrite E in Hat. cbn in Hat.
    unfold After in Hat. rewrite Z.ltb_lt in Hat. lia.
  - by destruct (resolveInitialDeps _ _ _).
Qed.

(** C29: the task service accepts exactly the valid requests, and what it accepts
    is well typed for everything behind it: a named queue, a priority between 1
    and 9, so that the stored row compares by priority without overflow, a
    non-negative retry budget, bounded payload and dependencies, a group only
    without schedule and concurrency key; the broker can refuse such a task only
    as a duplicate, never as a scheduled group member. *)
Theorem request_validated {MR : MapRange} dmr rd request :
  0 <= dmr →
  ((∃ envelope, envelopeFromRequest dmr rd request = inr envelope) ↔ valid_request request) ∧
  ∀ envelope, envelopeFromRequest dmr rd request = inr envelope →
    valid_envelope envelope ∧
    (∀ now state at_ deps, priority_ok (stage_row envelope now state at_ deps)) ∧
    ∀ now b b' err, Enqueue envelope now b = (b', Some err) → err = ErrDuplicateTask ∧ b' = b.
Proof.
  intros Hd. split.
  - split; [intros [envelope H]; by eapply accepted_valid|apply valid_accepted].
  - intros envelope H. pose proof (accepted_envelope _ _ _ _ Hd H) as Hv. split; [done|]. split.
    + intros. unfold priority_ok. cbn. pose proof (ve_priority _ Hv). lia.
    + intros now b b' err. unfold Enqueue. destruct (stageEnqueue _ _ _ _ _) eqn:E; try done.
      intros [= <- <-]. split; [by eapply valid_stage|done].
Qed.

Definition empty_request : EnqueueRequest :=
  mkEnqueueRequest "" "" "" [] "" ∅ 0 None None None None "" None 0 None "" None None [] "" None.

Lemma request_validated_witness :
  let rd := mkReadings 5 5 5 5 in
  let request := empty_request <| rq_Type := "send" |> <| rq_Priority := 9 |> in
  valid_request request ∧ ¬ valid_request (request <| rq_Priority := 10 |>) ∧
  ¬ valid_request (request <| rq_Group := "g" |> <| rq_ProcessIn := Some 1 |>).
Proof.
  intros rd request. split_and!.
  - apply (request_validated (MR := elements_range) 25 rd); [lia|]. eexists. vm_compute. reflexivity.
  - intros H. apply (request_validated (MR := elements_range) 25 rd) in H as [envelope H]; [|lia].
    vm_compute in H. discriminate H.
  - intros H. apply (request_validated (MR := elements_range) 25 rd) in H as [envelope H]; [|lia].
    vm_compute in H. discriminate H.
Defined.

(** ** Enqueue, then get *)

#[global] Instance TaskInfo_eta : Eta TaskInfo := λ i,
  mkTaskInfo (ti_Id i) (ti_Queue i) (ti_Type i) (ti_State i) (ti_Priority i) (ti_Retried i)
    (ti_MaxRetry i) (ti_LastError i) (ti_EnqueuedAt i) (ti_ProcessAt i) (ti_StartedAt i)
    (ti_CompletedAt i) (ti_Payload i) (ti_ContentType i) (ti_Progress i) (ti_ProgressMessage i).

(** The envelope as the broker receives it. *)
Definition submitted (inject : gmap string string → gmap string string) (newID : nat → string)
    (envelope : TaskEnvelope) (drawn : nat) : TaskEnvelope :=
  let envelope := envelope <| env_Metadata := inject (env_Metadata envelope) |> in
  if decide (env_Id envelope = "") then envelope <| env_Id := newID drawn |> else envelope.

Lemma submitted_valid inject newID envelope drawn :
  valid_envelope envelope → valid_envelope (submitted inject newID envelope drawn).
Proof. intros []. unfold submitted. case_decide; by split. Qed.

Lemma submitted_options inject newID envelope drawn :
  GetOptions (submitted inject newID envelope drawn) = GetOptions envelope.
Proof. unfold submitted. cbv zeta. by destruct (decide _). Qed.

Lemma accepted_dependencies dmr rd request envelope :
  envelopeFromRequest dmr rd request = inr envelope →
  opt_DependsOn (GetOptions envelope) = rq_DependsOn request.
Proof. unfold envelopeFromRequest. cbv zeta. intros H. repeat passed H. by injection H as <-. Qed.

(** The info of a stored new task is the info of its envelope, its due time
    filled in. *)
Lemma stored_info envelope now state deps :
  valid_envelope envelope → state ≠ TASK_STATE_CANCELED →
  let row := stage_row envelope now state (default now (opt_ProcessAt (GetOptions envelope))) deps in
  taskInfo (overlay row) (row_state row) =
    (taskInfo envelope state) <| ti_ProcessAt := Some (default now (opt_ProcessAt (GetOptions envelope))) |>.
Proof.
  intros Hv Hs. destruct (ve_fresh _ Hv) as (H1 & H2 & H3 & H4 & H5 & H6).
  unfold overlay, stage_row. cbn. rewrite decide_False by done. unfold taskInfo. cbn.
  unfold GetOptions. cbn. by rewrite H1, H2, H3, H4, H5, H6.
Qed.

(** A new task without dependencies is stored in the state the service
    computes, read at the broker's clock. *)
Lemma Enqueue_new {MR : MapRange} envelope now b b' :
  valid_envelope envelope → Enqueue envelope now b = (b', None) →
  br_tasks b !! env_Id envelope = None → opt_DependsOn (GetOptions envelope) = [] →
  initialState now envelope ≠ TASK_STATE_CANCELED ∧
  br_tasks b' !! env_Id envelope = Some (stage_row envelope now (initialState now envelope)
    (default now (opt_ProcessAt (GetOptions envelope))) ∅).
Proof.
  intros Hv H Hnew Hdeps. unfold Enqueue, stageEnqueue in H. rewrite Hnew in H.
  rewrite decide_False in H by (intros [? ?]; done).
  rewrite decide_False in H by set_solver. cbv zeta in H.
  destruct (negb (bool_decide (opt_UniqueKey _ = "")) && _); [done|].
  destruct (negb (bool_decide (opt_Group _ = "")) && _) eqn:Hg; [done|].
  rewrite Hdeps in H. cbn [resolveInitialDeps resolveInitialDeps_loop] in H.
  unfold resolveInitialDeps, resolveInitialDeps_loop in H. rewrite decide_True in H by done.
  injection H as <-. rewrite applyStaged_tasks. cbn [st_id st_row]. rewrite lookup_insert_eq.
  assert ((if negb (bool_decide (opt_Group (GetOptions envelope) = "")) then TASK_STATE_AGGREGATING
           else if After (default now (opt_ProcessAt (GetOptions envelope))) now
                then TASK_STATE_SCHEDULED else TASK_STATE_PENDING) = initialState now envelope) as <-.
  { unfold initialState. rewrite Hdeps. rewrite decide_False by (intros E; by apply E).
    destruct (decide (opt_Group (GetOptions envelope) = "")) as [E|E].
    - rewrite bool_decide_eq_true_2 by done. rewrite decide_False by (intros E'; by apply E').
      destruct (opt_ProcessAt _); [done|]. cbn. unfold After. by rewrite Z.ltb_irrefl.
    - by rewrite bool_decide_eq_false_2, decide_True. }
  split; [|done]. repeat case_match; done.
Qed.

(** The service's enqueue, from what the broker answered. *)
Lemma tasks_Enqueue_memory {MR : MapRange} newID dmr inject request rd now e e' r :
  tasks_Enqueue memory newID dmr inject request rd now e = (e', r) →
  match envelopeFromRequest dmr rd request with
  | inl _ => e' = e ∧ r = inl CodeInvalidArgument
  | inr envelope =>
      let envelope := submitted inject newID envelope (en_drawn e) in
      match Enqueue envelope now (en_store e) with
      | (b, Some err) => en_store e' = b ∧ en_wakes e' = en_wakes e ∧ en_enqueued e' = en_enqueued e ∧
                         r = inl (enqueueError (EBroker err))
      | (b, None) => en_store e' = b ∧ en_wakes e' = en_wakes e ++ [env_Queue envelope] ∧
                     en_enqueued e' = en_enqueued e + 1 ∧
                     r = inr (taskInfo envelope (initialState (rd_reply rd) envelope))
      end
  end.
Proof.
  unfold tasks_Enqueue. destruct (envelopeFromRequest dmr rd request) as [err|envelope]; [by intros [= <- <-]|].
  unfold engine_Enqueue, assignID, submitted, injectTaskTrace. cbn [env_Id].
  case_decide; cbn [memory errorOnly en_store];
    destruct (Enqueue _ _ _) as [b [err|]]; intros [= <- <-]; done.
Qed.

(** Whether the clock passes the due time between the broker's reading and the
    service's. *)
Definition clock_agrees (info : TaskInfo) (now reply : Time) : Prop :=
  ∀ at_, ti_ProcessAt info = Some at_ → After at_ now = After at_ reply.

Lemma initialState_clock envelope now reply state :
  clock_agrees (taskInfo envelope state) now reply →
  initialState now envelope = initialState reply envelope.
Proof.
  unfold clock_agrees, initialState. cbn. intros H. repeat case_decide; try done.
  destruct (opt_ProcessAt (GetOptions envelope)); [|done]. by rewrite (H _ eq_refl).
Qed.

(** C30: what [Enqueue] answers is what happened. An error leaves the store, the
    wake-ups and the counter as they were: it is an invalid argument for a request
    that is not valid, and otherwise says that the unique key is taken. A success
    counts the task and wakes its queue; a task whose id is stored already leaves
    the store unchanged; a new task without dependencies is read back by [GetTask],
    now or later, as the very info that was returned, its due time filled in. *)
Theorem enqueue_then_get {MR : MapRange} newID dmr inject request rd now e e' r :
  0 <= dmr → tasks_Enqueue memory newID dmr inject request rd now e = (e', r) →
  match r with
  | inl code =>
      en_store e' = en_store e ∧ en_wakes e' = en_wakes e ∧ en_enqueued e' = en_enqueued e ∧
      (code = CodeInvalidArgument ∨ code = CodeAlreadyExists) ∧
      (code = CodeInvalidArgument ↔ ¬ valid_request request)
  | inr info =>
      valid_request request ∧
      en_wakes e' = en_wakes e ++ [ti_Queue info] ∧ en_enqueued e' = en_enqueued e + 1 ∧
      (is_Some (br_tasks (en_store e) !! ti_Id info) → en_store e' = en_store e) ∧
      (br_tasks (en_store e) !! ti_Id info = None → ti_Id info ≠ "" → rq_DependsOn request = [] →
       clock_agrees info now (rd_reply rd) → ∀ later,
         (tasks_GetTask memory (ti_Id info) later e').2 =
           inr (info <| ti_ProcessAt := Some (default now (ti_ProcessAt info)) |>))
  end.
Proof.
  intros Hd H%tasks_Enqueue_memory.
  destruct (envelopeFromRequest dmr rd request) as [err|envelope] eqn:Hreq.
  { destruct H as [-> ->]. do 3 (split; [done|]). split; [by left|]. split; [|done]. intros _ Hv.
    apply (valid_accepted dmr rd) in Hv as [? Hv]. congruence. }
  pose proof (accepted_valid _ _ _ _ Hreq) as Hvr.
  pose proof (accepted_envelope _ _ _ _ Hd Hreq) as Hve.
  pose proof (submitted_valid inject newID _ (en_drawn e) Hve) as Hvs.
  assert (Hdeps : opt_DependsOn (GetOptions (submitted inject newID envelope (en_drawn e))) =
    rq_DependsOn request).
  { rewrite submitted_options. by eapply accepted_dependencies. }
  cbv zeta in H. set (task := submitted inject newID envelope (en_drawn e)) in *.
  destruct (Enqueue task now (en_store e)) as [b [err|]] eqn:Henq.
  - destruct H as (Hb & Hw & Hn & ->). revert Henq. unfold Enqueue.
    destruct (stageEnqueue _ _ _ _ _) eqn:Hs; try done. intros [= <- <-].
    apply valid_stage in Hs as ->; [|done]. do 3 (split; [done|]). split; [by right|]. by split; intros Hc; [|destruct Hc].
  - destruct H as (<- & Hw & Hn & ->). split_and!; try done.
    + cbn. intros Hold. revert Henq. unfold Enqueue, stageEnqueue. rewrite decide_True by done. by intros [=].
    + cbn [ti_Id taskInfo]. intros Hnew Hid Hnone Hclock later. unfold tasks_GetTask.
      rewrite decide_False by done. cbn [memory]. unfold GetTask.
      destruct (Enqueue_new task now _ _ Hvs Henq Hnew) as [Hc ->]; [congruence|]. cbn [snd].
      rewrite <- (initialState_clock _ _ _ _ Hclock). f_equal. by apply stored_info.
Qed.

(** A scheduled task: stored and read back, with its queue woken. *)
Definition later_request : EnqueueRequest :=
  empty_request <| rq_Type := "send" |> <| rq_ProcessIn := Some 100 |> <| rq_Payload := [x01] |>.

Lemma enqueue_then_get_witness :
  let run := tasks_Enqueue (memory (MR := elements_range)) (λ _, "t1") 25 id later_request
    (mkReadings 5 5 5 6) 6 (mkEngine New 0 [] 0) in
  ∃ info, run.2 = inr info ∧ ti_State info = TASK_STATE_SCHEDULED ∧ en_wakes run.1 = ["default"] ∧
    (tasks_GetTask (memory (MR := elements_range)) "t1" 50 run.1).2 = inr info.
Proof.
  intros run. destruct run as [e' r] eqn:E. pose proof E as E'. vm_compute in E'.
  pose proof (enqueue_then_get (MR := elements_range) (λ _, "t1") 25 id later_request
    (mkReadings 5 5 5 6) 6 (mkEngine New 0 [] 0) e' r ltac:(lia) E) as H.
  injection E' as He <-. destruct H as (_ & Hw & _ & _ & Hget). eexists. split; [reflexivity|].
  split; [reflexivity|]. split; [exact Hw|].
  specialize (Hget ltac:(reflexivity) ltac:(discriminate) ltac:(reflexivity)).
  etrans; [apply (Hget ltac:(intros at_ [= <-]; reflexivity) 50)|]. reflexivity.
Defined.

(** With dependencies the answer can differ: a task that depends on a completed
    one is stored pending and reported blocked. *)
Lemma reported_blocked_stored_pending :
  let done := [(1%Z, CEnqueue (sample_task "a" sample_options)); (2%Z, CLease "mail" 1 100 "L");
               (3%Z, CAck "a" "L" [])] in
  let b := run_all (MR := elements_range) done New in
  let request := empty_request <| rq_TaskId := "t" |> <| rq_Type := "send" |>
    <| rq_DependsOn := [mkTaskDependency "a" DEPENDENCY_FAILURE_POLICY_CASCADE_CANCEL] |> in
  let run := tasks_Enqueue (memory (MR := elements_range)) (λ _, "id") 25 id request
    (mkReadings 5 5 5 5) 5 (mkEngine b 0 [] 0) in
  (match run.2 with inr info => Some (ti_State info) | inl _ => None end) = Some TASK_STATE_BLOCKED ∧
  row_state <$> br_tasks (en_store run.1) !! "t" = Some TASK_STATE_PENDING.
Proof. split; vm_compute; reflexivity. Qed.
