(* ===== verification/WebhookApi.v ===== *)
(** * The webhook callback service (server/api/webhook_service.go)

    The callbacks of asynchronously completing deliveries, authenticated by
    lease tokens against the registration's secrets. [route] is whether the
    actor system finds the registration's gateway. *)

From S2P Require Import Prelude Proto Events BrokerApi Memory Backoff Messages TaskLog Gateway Encoding Webhook WebhookGateway WebhookManager Encryption BrokerCalls Api.
From Stdlib Require Import Strings.Byte.

Section Callbacks.
Context {B : Type} (taskLog : broker B) (now : Time) (route : string → bool).

(** The claims of a token that verifies. *)
Definition verify (token : string) (b : B) : B * (Code + LeaseClaims) :=
  match ParseLeaseToken token with
  | None => (b, inl CodeUnauthenticated)
  | Some claims =>
      let '(b, r) := taskLog now (RGetWebhookWorker (cl_Registration claims)) b in
      (b, match r with
          | Worker worker =>
              if VerifyLeaseToken token claims (wh_Secrets worker) then inr claims
              else inl CodeUnauthenticated
          | Failed (EBroker ErrTaskNotFound) => inl CodeUnauthenticated
          | _ => inl CodeInternal
          end)
  end.

(** [TellWebhookGateway]: the actor the message reaches. *)
Definition tellWebhookGateway {M} (registration : string) (message : M) : option (string * M) :=
  let name := webhookGatewayPrefix +:+ registration in
  if route name then Some (name, message) else None.

(** A procedure's effect: the store, the message that reached a gateway and the
    outcome. *)
Definition callback (claims : Code + LeaseClaims) (message : LeaseClaims → webhookMessage)
    : option (string * webhookMessage) * (Code + unit) :=
  match claims with
  | inl code => (None, inl code)
  | inr claims =>
      match tellWebhookGateway (cl_Registration claims) (message claims) with
      | None => (None, inl CodeNotFound)
      | Some told => (Some told, inr ())
      end
  end.

Definition webhook_Heartbeat (token : string) (b : B)
    : B * (option (string * webhookMessage) * (Code + unit)) :=
  let '(b, claims) := verify token b in
  (b, callback claims (λ claims, WLeaseHeartbeat (cl_TaskID claims) (cl_LeaseID claims))).

Definition webhook_ReportResult (token : string) (outcome : TaskOutcome) (errorMsg : string)
    (result : list byte) (b : B) : B * (option (string * webhookMessage) * (Code + unit)) :=
  match outcome with
  | TASK_OUTCOME_SUCCESS | TASK_OUTCOME_RETRY | TASK_OUTCOME_SKIP_RETRY =>
      let '(b, claims) := verify token b in
      (b, callback claims (λ claims, WLeaseResult
            (mkWebhookLeaseResult (cl_TaskID claims) (cl_LeaseID claims) outcome errorMsg result)))
  | _ => (b, (None, inl CodeInvalidArgument))
  end.
End Callbacks.

(** ** The webhook callback service: who may settle a delivery *)

(** The two procedures. *)
Inductive callbackCall :=
  | CHeartbeat
  | CReport (outcome : TaskOutcome) (errorMsg : string) (result : list byte).

Definition runCallback {B} (taskLog : broker B) (now : Time) (route : string → bool) (c : callbackCall)
    (token : string) (b : B) : B * (option (string * webhookMessage) * (Code + unit)) :=
  match c with
  | CHeartbeat => webhook_Heartbeat taskLog now route token b
  | CReport outcome errorMsg result => webhook_ReportResult taskLog now route token outcome errorMsg result b
  end.

(** The outcomes a callback may report. *)
Definition reportable (c : callbackCall) : bool :=
  match c with
  | CHeartbeat => true
  | CReport outcome _ _ =>
      bool_decide (outcome ∈ [TASK_OUTCOME_SUCCESS; TASK_OUTCOME_RETRY; TASK_OUTCOME_SKIP_RETRY])
  end.

(** What a callback with these claims says to the gateway. *)
Definition saying (c : callbackCall) (claims : LeaseClaims) : webhookMessage :=
  match c with
  | CHeartbeat => WLeaseHeartbeat (cl_TaskID claims) (cl_LeaseID claims)
  | CReport outcome errorMsg result =>
      WLeaseResult (mkWebhookLeaseResult (cl_TaskID claims) (cl_LeaseID claims) outcome errorMsg result)
  end.

(** A token authorises its claims in a store: it verifies under a secret of the
    registration it names. *)
Definition authorises (token : string) (claims : LeaseClaims) (b : Broker) : Prop :=
  ParseLeaseToken token = Some claims ∧
  ∃ worker, br_webhookWorkers b !! cl_Registration claims = Some worker ∧
    VerifyLeaseToken token claims (wh_Secrets worker) = true.

Section Memory.
Context {MR : MapRange} (now : Time).

Lemma verify_memory token b :
  (∃ claims, authorises token claims b ∧ verify memory now token b = (b, inr claims)) ∨
  ((∀ claims, ¬ authorises token claims b) ∧ verify memory now token b = (b, inl CodeUnauthenticated)).
Proof.
  unfold verify, authorises. destruct (ParseLeaseToken token) as [claims|]; [|right; naive_solver].
  cbn [memory]. unfold GetWebhookWorker.
  destruct (br_webhookWorkers b !! cl_Registration claims) as [worker|] eqn:Hw.
  - destruct (VerifyLeaseToken token claims (wh_Secrets worker)) eqn:Hv; [left; naive_solver|].
    right. split; [|done]. intros c ([= <-] & w' & Hw' & Hv'). congruence.
  - right. split; [|done]. intros c ([= <-] & w' & Hw' & Hv'). congruence.
Qed.

(** Every call is the verification of its token and one message, or refused for
    its outcome. *)
Lemma runCallback_verify route c token b :
  runCallback memory now route c token b =
    if reportable c then
      let '(b, claims) := verify memory now token b in (b, callback route claims (saying c))
    else (b, (None, inl CodeInvalidArgument)).
Proof. destruct c as [|[] errorMsg result]; reflexivity. Qed.
End Memory.

(** C31: only the holder of a delivery's token can settle it. A callback never
    touches the store. It reaches a gateway only when the token verifies under a
    current secret of the registration it names, and then that registration's
    gateway receives exactly the task and lease of the token; a failed callback
    has told nobody. Conversely a token minted with any current secret is
    accepted, for every reportable outcome, when the gateway can be reached. *)
Theorem callback_authorised {MR : MapRange} now route c token b b' told r :
  runCallback memory now route c token b = (b', (told, r)) →
  b' = b ∧ (told = None ↔ r ≠ inr ()) ∧
  (∀ name m, told = Some (name, m) →
     ∃ claims, authorises token claims b ∧ reportable c = true ∧
       name = webhookGatewayPrefix +:+ cl_Registration claims ∧ m = saying c claims) ∧
  (∀ secret registration taskID leaseID worker,
     token = MintLeaseToken secret registration taskID leaseID →
     br_webhookWorkers b !! registration = Some worker → secret ∈ wh_Secrets worker →
     reportable c = true → route (webhookGatewayPrefix +:+ registration) = true →
     told = Some (webhookGatewayPrefix +:+ registration,
                  saying c (mkLeaseClaims registration taskID leaseID))).
Proof.
  rewrite runCallback_verify. destruct (reportable c) eqn:Hc; [|intros [= <- <- <-]; naive_solver].
  destruct (verify_memory now token b) as [(claims & Ha & Hv)|[Hn Hv]]; rewrite Hv.
  - cbn [callback]. unfold tellWebhookGateway.
    destruct (route (webhookGatewayPrefix +:+ cl_Registration claims)) eqn:Hr; intros [= <- <- <-].
    + split; [done|]. split; [naive_solver|]. split; [naive_solver|].
      intros secret registration taskID leaseID worker -> _ _ _ _. destruct Ha as [Hp _].
      rewrite Parse_MintLeaseToken in Hp. by injection Hp as <-.
    + split; [done|]. split; [naive_solver|]. split; [naive_solver|].
      intros secret registration taskID leaseID worker -> _ _ _ Hr'. destruct Ha as [Hp _].
      rewrite Parse_MintLeaseToken in Hp. injection Hp as <-. cbn in Hr. congruence.
  - intros [= <- <- <-]. split; [done|]. split; [naive_solver|]. split; [naive_solver|].
    intros secret registration taskID leaseID worker -> Hw Hin _ _.
    destruct (Hn (mkLeaseClaims registration taskID leaseID)). split; [apply Parse_MintLeaseToken|].
    exists worker. split; [done|]. apply Verify_MintLeaseToken. by exists secret.
Qed.

(** ** An instance *)

Definition hooked_store : Broker :=
  UpsertWebhookWorker (mkWebhookWorker "hook" "https://example" ∅ 1 ["new"; "old"] [] 0 false) New.

Definition hook_token (secret : string) : string := MintLeaseToken secret "hook" "task-1" "lease-1".

(** The retired secret still works, a foreign one does not. *)
Lemma callback_authorised_witness :
  (runCallback (memory (MR := elements_range)) 1 (λ _, true) CHeartbeat (hook_token "old") hooked_store).2.1 =
    Some ("webhook-hook", WLeaseHeartbeat "task-1" "lease-1") ∧
  runCallback (memory (MR := elements_range)) 1 (λ _, true) CHeartbeat (hook_token "stolen") hooked_store =
    (hooked_store, (None, inl CodeUnauthenticated)).
Proof.
  split; [|vm_compute; reflexivity].
  destruct (runCallback (memory (MR := elements_range)) 1 (λ _, true) CHeartbeat (hook_token "old")
    hooked_store) as [b' [told r]] eqn:E.
  destruct (callback_authorised (MR := elements_range) 1 (λ _, true) CHeartbeat (hook_token "old")
    hooked_store b' told r E) as (_ & _ & _ & H).
  eapply (H "old" "hook" "task-1" "lease-1"); [reflexivity|vm_compute; reflexivity| |reflexivity|reflexivity].
  right. left.
Defined.
