(* ===== verification/Conformance.v ===== *)
(** * The conformance suite: tests as scripts (internal/broker/brokertest)

    A conformance test is a client program over the broker interface: it asks,
    advances the fake clock, and fails at the first observation that is not the
    expected one. A script sees replies only, so it runs against any broker. *)

From S2P Require Import Prelude Proto Events BrokerApi Encryption BrokerCalls Cron.
From Stdlib Require Import Strings.Byte Floats.SpecFloat.

#[local] Open Scope Z_scope.

(** ** Scripts *)

Inductive script :=
  | Pass
  | Fatal
  | Ask (now : Time) (r : request) (k : reply → script).

(** A run against a broker whose decorations draw their randomness from [rnd],
    per call. *)
Fixpoint runScript {B} (brk : (nat → list byte) → broker B) (rnd : nat → nat → list byte)
    (s : script) (b : B) : bool :=
  match s with
  | Pass => true
  | Fatal => false
  | Ask now r k =>
      let '(b, rep) := brk (rnd 0%nat) now r b in runScript brk (λ i, rnd (S i)) (k rep) b
  end.

(** A step of a test under the fake clock. *)
Definition test (X : Type) : Type := Time → (X → Time → script) → script.

Definition done {X} (x : X) : test X := λ now k, k x now.
Definition andThen {X Y} (m : test X) (f : X → test Y) : test Y := λ now k,
  m now (λ x now, f x now k).
Definition call (r : request) : test reply := λ now k, Ask now r (λ rep, k rep now).
Definition Advance (d : Duration) : test unit := λ now k, k tt (time_Add now d).

(** [t.Fatal] unless the condition holds. *)
Definition require (ok : bool) : test unit := λ now k, if ok then k tt now else Fatal.

Declare Scope test_scope.
Delimit Scope test_scope with test.
Notation "x <- m ;; k" := (andThen m (λ x, k))
  (at level 100, m at next level, right associativity) : test_scope.
Notation "m ;;; k" := (andThen m (λ _, k)) (at level 100, right associativity) : test_scope.
#[local] Open Scope test_scope.

(** ** Expected replies *)

(** What a reply has to carry for the test to go on. *)
Definition expecting {X} (r : request) (f : reply → option X) : test X := λ now k,
  Ask now r (λ rep, match f rep with Some x => k x now | None => Fatal end).

Definition mustOk (r : request) : test unit :=
  expecting r (λ rep, match rep with Failed _ => None | _ => Some tt end).

(** [errors.Is]: a batch error unwraps to its cause. *)
Definition errorIs (err : BrokerError) (rep : reply) : bool :=
  match rep with
  | Failed (EBroker err') => bool_decide (err' = err)
  | Failed (EBatch err') => bool_decide (Unwrap err' = err)
  | _ => false
  end.

Definition mustFail (err : BrokerError) (r : request) : test unit :=
  rep <- call r ;; require (errorIs err rep).

Definition mustTasks (r : request) : test (list TaskEnvelope) :=
  expecting r (λ rep, match rep with Tasks tasks => Some tasks | _ => None end).
Definition mustNames (r : request) : test (list string) :=
  expecting r (λ rep, match rep with Names names => Some names | _ => None end).
Definition mustNumber (r : request) : test Z :=
  expecting r (λ rep, match rep with Number n => Some n | _ => None end).
Definition mustRecords (query : TaskQuery) : test (list TaskRecord) :=
  expecting (RListTasks query) (λ rep, match rep with Records records => Some records | _ => None end).
Definition mustGet (id : string) : test (TaskEnvelope * TaskState) :=
  expecting (RGetTask id) (λ rep, match rep with Task task state => Some (task, state) | _ => None end).
Definition mustWorker (name : string) : test WebhookWorker :=
  expecting (RGetWebhookWorker name) (λ rep, match rep with Worker worker => Some worker | _ => None end).
Definition mustWorkers : test (list WebhookWorker) :=
  expecting RListWebhookWorkers (λ rep, match rep with Workers workers => Some workers | _ => None end).
Definition mustCron (r : request) : test (list CronEntry) :=
  expecting r (λ rep, match rep with CronEntries entries => Some entries | _ => None end).
Definition mustRateLimit (queue : string) : test (option RateLimit) :=
  expecting (RQueueRateLimit queue) (λ rep, match rep with RateLimitFound limit => Some limit | _ => None end).
Definition mustRateLimits : test (list RateLimit) :=
  expecting RQueueRateLimits (λ rep, match rep with RateLimitList limits => Some limits | _ => None end).
Definition mustConcurrencyLimit (queue : string) : test (option ConcurrencyLimit) :=
  expecting (RQueueConcurrencyLimit queue)
    (λ rep, match rep with ConcurrencyLimitFound limit => Some limit | _ => None end).
Definition mustConcurrencyLimits : test (list ConcurrencyLimit) :=
  expecting RQueueConcurrencyLimits
    (λ rep, match rep with ConcurrencyLimitList limits => Some limits | _ => None end).
Definition mustGroupConfigs : test (list GroupConfig) :=
  expecting RGroupConfigs (λ rep, match rep with GroupConfigList configs => Some configs | _ => None end).
Definition mustFlag (r : request) : test bool :=
  expecting r (λ rep, match rep with Flag flag => Some flag | _ => None end).
Definition mustInfo : test Info :=
  expecting RInfo (λ rep, match rep with BrokerInformation info => Some info | _ => None end).

(** ** The suite's constants and helpers *)

(** 2026-01-01T00:00:00Z. *)
Definition start : Time := unixEpoch + 1767225600 * Second.
Definition Hour : Duration := 60 * Minute.
Definition leaseTTL : Duration := Minute.
Definition batchLimit : Z := 100.
Definition queueName : string := "default".

Definition taskOption : Type := TaskEnvelope → TaskEnvelope.

Definition onOptions (f : TaskOptions → TaskOptions) : taskOption := λ task,
  task <| env_Options := Some (f (GetOptions task)) |>.

Definition withPriority (priority : Z) : taskOption := onOptions (λ o, o <| opt_Priority := priority |>).
Definition withProcessAt (at_ : Time) : taskOption := onOptions (λ o, o <| opt_ProcessAt := Some at_ |>).
Definition withExpiresAt (at_ : Time) : taskOption := onOptions (λ o, o <| opt_ExpiresAt := Some at_ |>).
Definition withUnique (key : string) (ttl : Duration) : taskOption := onOptions (λ o,
  let o := o <| opt_UniqueKey := key |> in
  if 0 <? ttl then o <| opt_UniqueTtl := Some ttl |> else o).
Definition withRetention (retention : Duration) : taskOption :=
  onOptions (λ o, o <| opt_Retention := Some retention |>).
Definition withMaxRetry (maxRetry : Z) : taskOption := onOptions (λ o, o <| opt_MaxRetry := maxRetry |>).
Definition withQueue (queue : string) : taskOption := λ task, task <| env_Queue := queue |>.
Definition withGroup (group : string) : taskOption := onOptions (λ o, o <| opt_Group := group |>).
Definition withEnqueuedAt (at_ : Time) : taskOption := λ task, task <| env_EnqueuedAt := Some at_ |>.
Definition withDependsOn (deps : list TaskDependency) : taskOption :=
  onOptions (λ o, o <| opt_DependsOn := deps |>).

Definition dependsOn (taskID : string) : TaskDependency :=
  mkTaskDependency taskID DEPENDENCY_FAILURE_POLICY_UNSPECIFIED.
Definition dependsOnFailing (taskID : string) (policy : DependencyFailurePolicy) : TaskDependency :=
  mkTaskDependency taskID policy.

(** The bytes of [{"n":1}]. *)
Definition samplePayload : list byte := [x7b; x22; x6e; x22; x3a; x31; x7d].

Definition newTask (id : string) (options : list taskOption) : TaskEnvelope :=
  foldl (λ task option, option task)
    (mkTaskEnvelope id queueName "test:task" samplePayload "application/json"
       {["origin" := "brokertest"]} (Some (emptyTaskOptions <| opt_MaxRetry := 25 |>))
       0 "" (Some start) None None 0 "") options.

Definition mustEnqueue (task : TaskEnvelope) : test unit := mustOk (REnqueue task).
Definition mustLease (queue : string) (limit : Z) (leaseID : string) : test (list TaskEnvelope) :=
  mustTasks (RLease queue limit leaseTTL leaseID).
Definition leasedIDs (tasks : list TaskEnvelope) : list string := env_Id <$> tasks.
Definition recordIDs (records : list TaskRecord) : list string := (λ r, env_Id (rec_Envelope r)) <$> records.

Definition mustState (id : string) (want : TaskState) : test unit :=
  p <- mustGet id ;; require (bool_decide (p.2 = want)).

(** The due time an envelope reports; a nil timestamp is the Unix epoch. *)
Definition processAtOf (task : TaskEnvelope) : Time := default unixEpoch (opt_ProcessAt (GetOptions task)).

Definition mustProcessAt (id : string) (want : Time) : test unit :=
  p <- mustGet id ;;
  require (Equal (processAtOf p.1) want) ;;;
  records <- mustRecords (mkTaskQuery "" TASK_STATE_UNSPECIFIED 0 "") ;;
  require (match list_find (λ r, env_Id (rec_Envelope r) = id) records with
           | Some (_, record) => Equal (processAtOf (rec_Envelope record)) want
           | None => false
           end).

Definition mustAbsent (id : string) : test unit := mustFail ErrTaskNotFound (RGetTask id).

Definition mustAck (id leaseID : string) : test unit := mustOk (RAck id leaseID []).
Definition mustResolve (id : string) : test (list string) := mustNames (RResolveDependents id).

Definition completeOnly (id : string) : test (list string) :=
  let leaseID := "lease-" +:+ id in
  leased <- mustLease queueName batchLimit leaseID ;;
  require (bool_decide (leasedIDs leased = [id])) ;;;
  mustAck id leaseID ;;;
  mustResolve id.

(** The first of a slice; an index out of range is a panic, which fails the
    test. *)
Definition firstOf {X} (l : list X) : test X := λ now k,
  match l with x :: _ => k x now | [] => Fatal end.

(** A loop of the test over a slice. *)
Fixpoint forEach {X} (l : list X) (f : X → test unit) : test unit :=
  match l with [] => done tt | x :: l => f x ;;; forEach l f end.

(** Running a test on a fresh broker. *)
Definition scriptOf (t : test unit) : script := t start (λ _ _, Pass).
