(* ===== verification/ConformanceTests.v ===== *)
(** * The conformance suite: the tests (internal/broker/brokertest/brokertest.go)

    One definition per test, in the order of [Run]. *)

From S2P Require Import Prelude Proto Events BrokerApi Encryption BrokerCalls Conformance.
From Stdlib Require Import Strings.Byte Floats.SpecFloat.

#[local] Open Scope Z_scope.
#[local] Open Scope test_scope.

#[global] Instance QueueStat_eq_dec : EqDecision QueueStat.
Proof. solve_decision. Defined.

Definition noQuery : TaskQuery := mkTaskQuery "" TASK_STATE_UNSPECIFIED 0 "".

(** A string of a slice; out of range is a panic. *)
Definition at_ {X} (l : list X) (i : nat) : test X := λ now k,
  match l !! i with Some x => k x now | None => Fatal end.

Definition contains (s : string) (l : list string) : bool := bool_decide (s ∈ l).
Definition lengthIs {X} (l : list X) (n : nat) : bool := bool_decide (length l = n).

(** ** Enqueueing *)

Definition testEnqueueAndGetTask : test unit :=
  let original := newTask "task-001" [] in
  mustEnqueue original ;;;
  p <- mustGet "task-001" ;;
  let stored := p.1 in
  require (bool_decide (p.2 = TASK_STATE_PENDING)) ;;;
  require (bool_decide (env_Type stored = env_Type original) &&
           bool_decide (env_Queue stored = env_Queue original)) ;;;
  require (bool_decide (env_Payload stored = env_Payload original)) ;;;
  require (bool_decide (env_ContentType stored = env_ContentType original)) ;;;
  require (bool_decide (env_Metadata stored !! "origin" = Some "brokertest")).

Definition testEnqueueScheduledWhenFuture : test unit :=
  mustEnqueue (newTask "task-001" [withProcessAt (time_Add start Hour)]) ;;;
  mustState "task-001" TASK_STATE_SCHEDULED ;;;
  leased <- mustLease queueName batchLimit "lease-1" ;;
  require (lengthIs leased 0) ;;;
  Advance Hour ;;;
  queues <- mustNames (RPromoteScheduled batchLimit) ;;
  require (contains queueName queues) ;;;
  mustState "task-001" TASK_STATE_PENDING.

Definition testEnqueueIdempotentOnID : test unit :=
  mustEnqueue (newTask "task-001" []) ;;;
  mustEnqueue (newTask "task-001" []) ;;;
  tasks <- mustRecords noQuery ;;
  require (lengthIs tasks 1).

Definition testEnqueueBatchCommitsAll : test unit :=
  let tasks :=
    [newTask "batch-001" []; newTask "batch-002" [withQueue "other"];
     newTask "batch-003" [withProcessAt (time_Add start Hour)]; newTask "batch-004" [withGroup "digest"]] in
  mustOk (REnqueueBatch tasks) ;;;
  mustState "batch-001" TASK_STATE_PENDING ;;;
  mustState "batch-002" TASK_STATE_PENDING ;;;
  mustState "batch-003" TASK_STATE_SCHEDULED ;;;
  mustState "batch-004" TASK_STATE_AGGREGATING.

Definition testEnqueueBatchAtomicOnFailure : test unit :=
  mustEnqueue (newTask "holder" [withUnique "claimed" 0]) ;;;
  let tasks :=
    [newTask "batch-001" []; newTask "batch-002" [withUnique "claimed" 0]; newTask "batch-003" []] in
  rep <- call (REnqueueBatch tasks) ;;
  require (errorIs ErrDuplicateTask rep) ;;;
  require (match rep with
           | Failed (EBatch err) => bool_decide (be_Index err = 1%nat) && bool_decide (be_TaskID err = "batch-002")
           | _ => false
           end) ;;;
  mustAbsent "batch-001" ;;;
  mustAbsent "batch-003".

Definition testEnqueueBatchIntraBatchUniqueCollision : test unit :=
  mustFail ErrDuplicateTask (REnqueueBatch
    [newTask "batch-001" [withUnique "same" 0]; newTask "batch-002" [withUnique "same" 0]]) ;;;
  mustAbsent "batch-001" ;;;
  mustAbsent "batch-002".

Definition testEnqueueBatchIdempotentID : test unit :=
  mustEnqueue (newTask "batch-001" []) ;;;
  mustOk (REnqueueBatch [newTask "batch-001" []; newTask "batch-002" []]) ;;;
  mustState "batch-001" TASK_STATE_PENDING ;;;
  mustState "batch-002" TASK_STATE_PENDING.

Definition testEnqueueBatchDuplicateIDInBatch : test unit :=
  mustOk (REnqueueBatch [newTask "batch-001" []; newTask "batch-001" [withQueue "other"]]) ;;;
  all <- mustRecords noQuery ;;
  require (lengthIs all 1).

Definition testEnqueueBatchEmpty : test unit := mustOk (REnqueueBatch []).

Definition testGetTaskNotFound : test unit := mustFail ErrTaskNotFound (RGetTask "absent").

(** ** Leasing *)

Definition testLeaseOrdersByPriorityThenFIFO : test unit :=
  mustEnqueue (newTask "task-001" [withPriority 4]) ;;;
  mustEnqueue (newTask "task-002" [withPriority 7]) ;;;
  mustEnqueue (newTask "task-003" [withPriority 4]) ;;;
  leased <- mustLease queueName batchLimit "lease-1" ;;
  require (bool_decide (leasedIDs leased = ["task-002"; "task-001"; "task-003"])).

Definition testLeaseHonorsLimitAndClaims : test unit :=
  mustEnqueue (newTask "task-001" []) ;;;
  mustEnqueue (newTask "task-002" []) ;;;
  first <- mustLease queueName 1 "lease-1" ;;
  second <- mustLease queueName 1 "lease-2" ;;
  require (lengthIs first 1 && lengthIs second 1) ;;;
  require (negb (bool_decide (leasedIDs first = leasedIDs second))) ;;;
  third <- mustLease queueName 1 "lease-3" ;;
  require (lengthIs third 0).

Definition testLeaseScopesToQueueAndDueTime : test unit :=
  mustEnqueue (newTask "task-001" [withQueue "other"]) ;;;
  mustEnqueue (newTask "task-002" [withProcessAt (time_Add start Minute)]) ;;;
  leased <- mustLease queueName batchLimit "lease-1" ;;
  require (lengthIs leased 0) ;;;
  leased <- mustLease "other" batchLimit "lease-2" ;;
  require (lengthIs leased 1).

(** ** Settlement *)

(** The bytes of [done]. *)
Definition doneBytes : list byte := [x64; x6f; x6e; x65].

Definition testAckCompletesTask : test unit :=
  mustEnqueue (newTask "task-001" [withRetention Hour]) ;;;
  mustLease queueName 1 "lease-1" ;;;
  mustFail ErrLeaseLost (RAck "task-001" "wrong-lease" []) ;;;
  mustOk (RAck "task-001" "lease-1" doneBytes) ;;;
  mustState "task-001" TASK_STATE_COMPLETED ;;;
  mustFail ErrLeaseLost (RAck "task-001" "lease-1" []).

Definition testExecutionTimestamps : test unit :=
  mustEnqueue (newTask "task-001" [withRetention Hour]) ;;;
  enqueued <- mustGet "task-001" ;;
  require (bool_decide (env_StartedAt enqueued.1 = None) && bool_decide (env_CompletedAt enqueued.1 = None)) ;;;
  mustLease queueName 1 "lease-1" ;;;
  leased <- mustGet "task-001" ;;
  require (bool_decide (env_StartedAt leased.1 = Some start)) ;;;
  require (bool_decide (env_CompletedAt leased.1 = None)) ;;;
  Advance (3 * Second) ;;;
  let finishedAt := time_Add start (3 * Second) in
  mustOk (RAck "task-001" "lease-1" doneBytes) ;;;
  completed <- mustGet "task-001" ;;
  require (bool_decide (env_StartedAt completed.1 = Some start)) ;;;
  require (bool_decide (env_CompletedAt completed.1 = Some finishedAt)).

Definition testFailSchedulesRetry : test unit :=
  mustEnqueue (newTask "task-001" []) ;;;
  mustLease queueName 1 "lease-1" ;;;
  let retryAt := time_Add start (5 * Minute) in
  mustOk (RFail "task-001" "lease-1" "boom" retryAt) ;;;
  mustState "task-001" TASK_STATE_RETRY ;;;
  leased <- mustLease queueName batchLimit "lease-2" ;;
  require (lengthIs leased 0) ;;;
  Advance (5 * Minute) ;;;
  leased <- mustLease queueName batchLimit "lease-3" ;;
  require (lengthIs leased 1) ;;;
  task <- firstOf leased ;;
  require ((env_Retried task =? 1) && bool_decide (env_LastError task = "boom")).

Definition testReleaseReturnsToPendingWithoutPenalty : test unit :=
  mustEnqueue (newTask "task-001" []) ;;;
  mustLease queueName 1 "lease-1" ;;;
  mustOk (RRelease "task-001" "lease-1") ;;;
  mustState "task-001" TASK_STATE_PENDING ;;;
  leased <- mustLease queueName 1 "lease-2" ;;
  require (lengthIs leased 1) ;;;
  task <- firstOf leased ;;
  require (env_Retried task =? 0).

Definition testArchiveDeadLetters : test unit :=
  mustEnqueue (newTask "task-001" []) ;;;
  mustLease queueName 1 "lease-1" ;;;
  mustFail ErrLeaseLost (RArchive "task-001" "wrong-lease" "dead") ;;;
  mustOk (RArchive "task-001" "lease-1" "dead") ;;;
  mustState "task-001" TASK_STATE_ARCHIVED ;;;
  mustEnqueue (newTask "task-002" []) ;;;
  mustOk (RArchive "task-002" "" "admin") ;;;
  mustState "task-002" TASK_STATE_ARCHIVED ;;;
  mustEnqueue (newTask "task-003" [withRetention Hour]) ;;;
  mustLease queueName 1 "lease-2" ;;;
  mustOk (RAck "task-003" "lease-2" []) ;;;
  mustFail ErrInvalidState (RArchive "task-003" "" "late").

Definition testSetProgress : test unit :=
  mustEnqueue (newTask "task-001" []) ;;;
  mustLease queueName 1 "lease-1" ;;;
  mustOk (RSetProgress "task-001" "lease-1" 40 "warming up") ;;;
  p <- mustGet "task-001" ;;
  require ((env_Progress p.1 =? 40) && bool_decide (env_ProgressMessage p.1 = "warming up")) ;;;
  mustOk (RSetProgress "task-001" "lease-1" 150 "done") ;;;
  p <- mustGet "task-001" ;;
  require (env_Progress p.1 =? 100) ;;;
  mustFail ErrLeaseLost (RSetProgress "task-001" "wrong-lease" 5 "reset") ;;;
  mustOk (RFail "task-001" "lease-1" "boom" start) ;;;
  leased <- mustLease queueName 1 "lease-2" ;;
  require (lengthIs leased 1) ;;;
  p <- mustGet "task-001" ;;
  require ((env_Progress p.1 =? 0) && bool_decide (env_ProgressMessage p.1 = "")).

Definition testExtendLeaseDefersReaping : test unit :=
  mustEnqueue (newTask "task-001" []) ;;;
  mustLease queueName 1 "lease-1" ;;;
  mustFail ErrLeaseLost (RExtendLease "task-001" "wrong-lease" leaseTTL) ;;;
  Advance (40 * Second) ;;;
  mustOk (RExtendLease "task-001" "lease-1" leaseTTL) ;;;
  Advance (40 * Second) ;;;
  queues <- mustNames (RReapExpiredLeases batchLimit) ;;
  require (lengthIs queues 0) ;;;
  mustState "task-001" TASK_STATE_ACTIVE.

(** ** Sweeps *)

Definition testReapExpiredLeases : test unit :=
  mustEnqueue (newTask "task-001" []) ;;;
  mustLease queueName 1 "lease-1" ;;;
  Advance (leaseTTL + Second) ;;;
  queues <- mustNames (RReapExpiredLeases batchLimit) ;;
  require (contains queueName queues) ;;;
  mustState "task-001" TASK_STATE_RETRY ;;;
  leased <- mustLease queueName 1 "lease-2" ;;
  require (lengthIs leased 1) ;;;
  task <- firstOf leased ;;
  require (env_Retried task =? 1) ;;;
  mustFail ErrLeaseLost (RAck "task-001" "lease-1" []).

Definition testReapArchivesExhaustedRetries : test unit :=
  mustEnqueue (newTask "task-001" [withMaxRetry 1]) ;;;
  mustLease queueName 1 "lease-1" ;;;
  mustOk (RFail "task-001" "lease-1" "boom" start) ;;;
  mustLease queueName 1 "lease-2" ;;;
  Advance (leaseTTL + Second) ;;;
  mustNames (RReapExpiredLeases batchLimit) ;;;
  mustState "task-001" TASK_STATE_ARCHIVED.

Definition testPromoteScheduled : test unit :=
  mustEnqueue (newTask "task-001" [withProcessAt (time_Add start Minute)]) ;;;
  mustEnqueue (newTask "task-002" [withProcessAt (time_Add start Hour)]) ;;;
  Advance Minute ;;;
  mustNames (RPromoteScheduled batchLimit) ;;;
  mustState "task-001" TASK_STATE_PENDING ;;;
  mustState "task-002" TASK_STATE_SCHEDULED.

Definition testPurgeCompletedHonorsRetention : test unit :=
  mustEnqueue (newTask "task-001" []) ;;;
  mustEnqueue (newTask "task-002" [withRetention Hour]) ;;;
  forEach ["task-001"; "task-002"] (λ id,
    leased <- mustLease queueName 1 ("lease-" +:+ id) ;;
    task <- firstOf leased ;;
    mustOk (RAck (env_Id task) ("lease-" +:+ id) [])) ;;;
  purged <- mustNumber (RPurgeTerminal 0 batchLimit) ;;
  require (purged =? 1) ;;;
  mustState "task-002" TASK_STATE_COMPLETED ;;;
  Advance Hour ;;;
  purged <- mustNumber (RPurgeTerminal 0 batchLimit) ;;
  require (purged =? 1) ;;;
  mustAbsent "task-002".

Definition testAckBatchCompletesMembersAndSkipsLostLeases : test unit :=
  mustEnqueue (newTask "task-001" []) ;;;
  mustEnqueue (newTask "task-002" []) ;;;
  mustEnqueue (newTask "task-003" []) ;;;
  mustLease queueName 3 "lease-1" ;;;
  acked <- mustNames (RAckBatch
    [mkAckItem "task-001" "lease-1" [x6f; x6e; x65]; mkAckItem "task-003" "lease-1" [];
     mkAckItem "task-002" "wrong-lease" []; mkAckItem "absent" "lease-1" []]) ;;
  require (bool_decide (SortFunc strings_Compare acked = ["task-001"; "task-003"])) ;;;
  mustState "task-001" TASK_STATE_COMPLETED ;;;
  mustState "task-003" TASK_STATE_COMPLETED ;;;
  mustState "task-002" TASK_STATE_ACTIVE ;;;
  acked <- mustNames (RAckBatch []) ;;
  require (lengthIs acked 0).

Definition testPurgeArchivedHonorsArchiveRetention : test unit :=
  mustEnqueue (newTask "task-001" []) ;;;
  mustEnqueue (newTask "task-002" [withProcessAt (time_Add start Hour)]) ;;;
  mustLease queueName 1 "lease-1" ;;;
  mustOk (RArchive "task-001" "lease-1" "boom") ;;;
  mustOk (RCancelTask "task-002") ;;;
  purged <- mustNumber (RPurgeTerminal 0 batchLimit) ;;
  require (purged =? 0) ;;;
  Advance (30 * Minute) ;;;
  purged <- mustNumber (RPurgeTerminal Hour batchLimit) ;;
  require (purged =? 0) ;;;
  mustState "task-001" TASK_STATE_ARCHIVED ;;;
  mustState "task-002" TASK_STATE_CANCELED ;;;
  Advance (30 * Minute) ;;;
  purged <- mustNumber (RPurgeTerminal Hour batchLimit) ;;
  require (purged =? 2) ;;;
  mustAbsent "task-001" ;;;
  mustAbsent "task-002".

Definition testPurgeDropsStaleEdgesOfTerminalDependents : test unit :=
  mustEnqueue (newTask "task-001" []) ;;;
  mustEnqueue (newTask "task-002"
    [withDependsOn [dependsOn "task-001"]; withExpiresAt (time_Add start Hour)]) ;;;
  mustState "task-002" TASK_STATE_BLOCKED ;;;
  Advance Hour ;;;
  mustNumber (RArchiveExpired batchLimit) ;;;
  mustState "task-002" TASK_STATE_ARCHIVED ;;;
  leased <- mustLease queueName 1 "lease-1" ;;
  task <- firstOf leased ;;
  mustOk (RAck (env_Id task) "lease-1" []) ;;;
  purged <- mustNumber (RPurgeTerminal 0 batchLimit) ;;
  require (purged =? 1) ;;;
  mustAbsent "task-001".

Definition testExpiredTaskNotLeasedAndArchived : test unit :=
  mustEnqueue (newTask "task-001" [withExpiresAt (time_Add start Hour)]) ;;;
  leased <- mustLease queueName batchLimit "lease-early" ;;
  require (bool_decide (leasedIDs leased = ["task-001"])) ;;;
  mustOk (RRelease "task-001" "lease-early") ;;;
  Advance (2 * Hour) ;;;
  leased <- mustLease queueName batchLimit "lease-late" ;;
  require (lengthIs leased 0) ;;;
  archived <- mustNumber (RArchiveExpired batchLimit) ;;
  require (archived =? 1) ;;;
  mustState "task-001" TASK_STATE_ARCHIVED ;;;
  stored <- mustGet "task-001" ;;
  require (bool_decide (env_LastError stored.1 = TaskExpiredMessage)).

Definition testPendingCount : test unit :=
  mustEnqueue (newTask "task-001" []) ;;;
  mustEnqueue (newTask "task-002" []) ;;;
  mustEnqueue (newTask "task-003" [withQueue "other"]) ;;;
  mustEnqueue (newTask "task-004" [withProcessAt (time_Add start Hour)]) ;;;
  mustLease "other" 1 "lease-1" ;;;
  counts <- expecting RPendingCount (λ rep, match rep with Numbers counts => Some counts | _ => None end) ;;
  require ((default 0 (counts !! queueName) =? 2) && (default 0 (counts !! "other") =? 0)).
