(* ===== verification/ConformanceAdmin.v ===== *)
(** * The conformance suite: uniqueness, administration, configuration, groups
    and dependencies (internal/broker/brokertest/brokertest.go) *)

From S2P Require Import Prelude Proto Events BrokerApi Encryption BrokerCalls Conformance ConformanceTests.
From Stdlib Require Import Strings.Byte Floats.SpecFloat.

#[local] Open Scope Z_scope.
#[local] Open Scope test_scope.

(** ** Uniqueness *)

Definition testUniqueTasks : test unit :=
  mustEnqueue (newTask "task-001" [withUnique "user:42" 0]) ;;;
  mustFail ErrDuplicateTask (REnqueue (newTask "task-002" [withUnique "user:42" 0])) ;;;
  mustEnqueue (newTask "task-003" [withUnique "user:43" 0]) ;;;
  mustLease queueName 1 "lease-1" ;;;
  mustOk (RAck "task-001" "lease-1" []) ;;;
  mustEnqueue (newTask "task-004" [withUnique "user:42" 0]).

Definition testUniqueKeyTTLLapses : test unit :=
  mustEnqueue (newTask "task-001"
    [withUnique "report:daily" Hour; withProcessAt (time_Add start (24 * Hour))]) ;;;
  mustFail ErrDuplicateTask (REnqueue (newTask "task-002" [withUnique "report:daily" Hour])) ;;;
  Advance (2 * Hour) ;;;
  mustEnqueue (newTask "task-002" [withUnique "report:daily" Hour]).

(** ** Administration *)

Definition testCancelTask : test unit :=
  mustEnqueue (newTask "task-001" []) ;;;
  mustOk (RCancelTask "task-001") ;;;
  mustState "task-001" TASK_STATE_CANCELED ;;;
  leased <- mustLease queueName batchLimit "lease-1" ;;
  require (lengthIs leased 0) ;;;
  mustEnqueue (newTask "task-002" []) ;;;
  mustLease queueName 1 "lease-2" ;;;
  mustFail ErrInvalidState (RCancelTask "task-002") ;;;
  mustFail ErrTaskNotFound (RCancelTask "absent").

Definition testDeleteTask : test unit :=
  mustEnqueue (newTask "task-001" []) ;;;
  mustEnqueue (newTask "task-002" []) ;;;
  mustLease queueName 1 "lease-1" ;;;
  mustFail ErrInvalidState (RDeleteTask "task-001") ;;;
  mustOk (RDeleteTask "task-002") ;;;
  mustAbsent "task-002".

Definition testDeleteIgnoresTerminalDependents : test unit :=
  mustEnqueue (newTask "task-001" []) ;;;
  mustEnqueue (newTask "task-002" [withDependsOn [dependsOn "task-001"]]) ;;;
  mustState "task-002" TASK_STATE_BLOCKED ;;;
  mustOk (RCancelTask "task-002") ;;;
  mustState "task-002" TASK_STATE_CANCELED ;;;
  mustOk (RDeleteTask "task-001") ;;;
  mustEnqueue (newTask "task-003" [withDependsOn [dependsOn "task-ghost"]]) ;;;
  mustState "task-003" TASK_STATE_BLOCKED ;;;
  mustFail ErrTaskNotFound (RDeleteTask "task-ghost").

Definition testDeleteDependencyRefused : test unit :=
  mustEnqueue (newTask "task-001" []) ;;;
  mustEnqueue (newTask "task-002" [withDependsOn [dependsOn "task-001"]]) ;;;
  mustState "task-002" TASK_STATE_BLOCKED ;;;
  mustFail ErrTaskHasDependents (RDeleteTask "task-001") ;;;
  mustGet "task-001" ;;;
  mustState "task-002" TASK_STATE_BLOCKED ;;;
  completeOnly "task-001" ;;;
  mustState "task-002" TASK_STATE_PENDING ;;;
  mustOk (RDeleteTask "task-001").

Definition testRunTaskNow : test unit :=
  mustEnqueue (newTask "task-001" [withProcessAt (time_Add start Hour)]) ;;;
  mustOk (RRunTaskNow "task-001") ;;;
  leased <- mustLease queueName 1 "lease-1" ;;
  require (lengthIs leased 1) ;;;
  mustFail ErrInvalidState (RRunTaskNow "task-001").

Definition testRescheduleTask : test unit :=
  mustEnqueue (newTask "task-001" [withProcessAt (time_Add start Hour)]) ;;;
  mustOk (RRescheduleTask "task-001" (time_Add start (- Minute))) ;;;
  mustState "task-001" TASK_STATE_PENDING ;;;
  leased <- mustLease queueName 1 "lease-1" ;;
  require (lengthIs leased 1) ;;;
  mustFail ErrInvalidState (RRescheduleTask "task-001" (time_Add start Hour)) ;;;
  mustEnqueue (newTask "task-002" []) ;;;
  mustOk (RRescheduleTask "task-002" (time_Add start Hour)) ;;;
  mustState "task-002" TASK_STATE_SCHEDULED ;;;
  mustProcessAt "task-002" (time_Add start Hour) ;;;
  leased <- mustLease queueName 1 "lease-2" ;;
  require (lengthIs leased 0) ;;;
  mustFail ErrTaskNotFound (RRescheduleTask "absent" start).

Definition testArchiveTask : test unit :=
  mustEnqueue (newTask "task-001" []) ;;;
  mustOk (RArchiveTask "task-001") ;;;
  mustState "task-001" TASK_STATE_ARCHIVED ;;;
  mustFail ErrInvalidState (RArchiveTask "task-001") ;;;
  mustFail ErrTaskNotFound (RArchiveTask "absent") ;;;
  mustOk (RRunTaskNow "task-001") ;;;
  mustState "task-001" TASK_STATE_PENDING ;;;
  leased <- mustLease queueName 1 "lease-1" ;;
  require (lengthIs leased 1).

(** ** Configuration *)

Definition testQueuePauseFlag : test unit :=
  paused <- mustFlag (RQueuePaused queueName) ;;
  require (negb paused) ;;;
  mustOk (RSetQueuePaused queueName true) ;;;
  paused <- mustFlag (RQueuePaused queueName) ;;
  require paused ;;;
  mustOk (RSetQueuePaused queueName false) ;;;
  paused <- mustFlag (RQueuePaused queueName) ;;
  require (negb paused).

(** A whole number as a [float64]. *)
Definition float64 (n : Z) : spec_float := binary_normalize 53 1024 n 0 false.

Definition rateIs (limit : option RateLimit) (rate burst : Z) : bool :=
  match limit with
  | Some limit => SFeqb (rl_RatePerSec limit) (float64 rate) && (rl_Burst limit =? burst)
  | None => false
  end.

Definition testQueueRateLimit : test unit :=
  limit <- mustRateLimit queueName ;;
  require (bool_decide (¬ is_Some limit)) ;;;
  mustOk (RSetQueueRateLimit queueName (float64 50) 10) ;;;
  limit <- mustRateLimit queueName ;;
  require (rateIs limit 50 10 && bool_decide (rl_Queue <$> limit = Some queueName)) ;;;
  mustOk (RSetQueueRateLimit queueName (float64 100) 20) ;;;
  limit <- mustRateLimit queueName ;;
  require (rateIs limit 100 20) ;;;
  mustOk (RSetQueueRateLimit "alpha" (float64 5) 1) ;;;
  all <- mustRateLimits ;;
  require (bool_decide (rl_Queue <$> all = ["alpha"; queueName])) ;;;
  mustOk (RDeleteQueueRateLimit queueName) ;;;
  limit <- mustRateLimit queueName ;;
  require (bool_decide (¬ is_Some limit)) ;;;
  mustOk (RDeleteQueueRateLimit "nonexistent").

Definition testQueueStats : test unit :=
  mustEnqueue (newTask "task-001" []) ;;;
  mustLease queueName 1 "lease-1" ;;;
  mustOk (RAck "task-001" "lease-1" []) ;;;
  mustEnqueue (newTask "task-002" []) ;;;
  mustLease queueName 1 "lease-2" ;;;
  mustOk (RFail "task-002" "lease-2" "boom" (time_Add start Hour)) ;;;
  mustEnqueue (newTask "task-003" []) ;;;
  mustLease queueName 1 "lease-3" ;;;
  mustOk (RArchive "task-003" "lease-3" "dead") ;;;
  mustEnqueue (newTask "task-004" []) ;;;
  mustLease queueName 1 "lease-4" ;;;
  mustEnqueue (newTask "task-005" []) ;;;
  mustEnqueue (newTask "task-006" [withProcessAt (time_Add start Hour)]) ;;;
  mustEnqueue (newTask "task-007" [withQueue "other"]) ;;;
  mustOk (RSetQueuePaused "idle" true) ;;;
  mustOk (RSetQueuePaused "other" true) ;;;
  stats <- expecting RQueueStats (λ rep, match rep with QueueStatList stats => Some stats | _ => None end) ;;
  require (bool_decide (stats =
    [mkQueueStat queueName false 1 1 1 1 1 1 0 0; mkQueueStat "idle" true 0 0 0 0 0 0 0 0;
     mkQueueStat "other" true 0 1 0 0 0 0 0 0])).

Definition cursorIs (entry : CronEntry) (want : Time) : bool := Equal (cron_NextRunAt entry) want.

(** 2026-06-14T12:00:00Z. *)
Definition nextRun : Time := 1781438400 * Second.

Definition cronB : CronEntry :=
  mkCronEntry "cron-b" "0 * * * * *" "report:hourly" queueName [x7b; x7d] "application/json"
    (Some (emptyTaskOptions <| opt_MaxRetry := 3 |> <| opt_Priority := 7 |>)) false zeroTime.

Definition testCronEntries : test unit :=
  mustOk (RUpsertCronEntry cronB) ;;;
  mustOk (RUpsertCronEntry (mkCronEntry "cron-a" "0 0 * * * *" "report:daily" queueName [] "" None false zeroTime)) ;;;
  entries <- mustCron RListCronEntries ;;
  require (bool_decide (cron_ID <$> entries = ["cron-a"; "cron-b"])) ;;;
  e <- at_ entries 1 ;;
  require (opt_Priority (default emptyTaskOptions (cron_Options e)) =? 7) ;;;
  mustOk (RSetCronPaused "cron-b" true) ;;;
  entries <- mustCron RListCronEntries ;;
  e <- at_ entries 1 ;;
  require (cron_Paused e) ;;;
  mustFail ErrTaskNotFound (RSetCronPaused "absent" true) ;;;
  mustOk (RUpdateCronNextRun "cron-b" zeroTime nextRun) ;;;
  entries <- mustCron RListCronEntries ;;
  e <- at_ entries 1 ;;
  require (cursorIs e nextRun) ;;;
  mustOk (RUpdateCronNextRun "cron-b" zeroTime (time_Add nextRun (- Hour))) ;;;
  entries <- mustCron RListCronEntries ;;
  e <- at_ entries 1 ;;
  require (cursorIs e nextRun) ;;;
  let later := time_Add nextRun Minute in
  mustOk (RUpdateCronNextRun "cron-b" nextRun later) ;;;
  entries <- mustCron RListCronEntries ;;
  e <- at_ entries 1 ;;
  require (cursorIs e later) ;;;
  mustOk (RUpsertCronEntry cronB) ;;;
  entries <- mustCron RListCronEntries ;;
  e <- at_ entries 1 ;;
  require (IsZero (cron_NextRunAt e)) ;;;
  let now := time_Add nextRun Hour in
  due <- mustCron (RListDueCronEntries now) ;;
  require (lengthIs due 2) ;;;
  mustOk (RSetCronPaused "cron-a" true) ;;;
  mustOk (RUpdateCronNextRun "cron-b" zeroTime (time_Add now Hour)) ;;;
  due <- mustCron (RListDueCronEntries now) ;;
  require (lengthIs due 0) ;;;
  mustOk (RDeleteCronEntry "cron-a") ;;;
  entries <- mustCron RListCronEntries ;;
  require (bool_decide (cron_ID <$> entries = ["cron-b"])).

Definition hooksB : WebhookWorker :=
  mkWebhookWorker "hooks-b" "https://example.com/tasks" {[queueName := 3; "other" := 1]} 8
    ["secret-new"; "secret-old"] ["report:batch"] (30 * Second) false.

(** The test's mutation of a returned registration acts on the caller's copy,
    which a value is. *)
Definition testWebhookWorkers : test unit :=
  mustOk (RUpsertWebhookWorker hooksB) ;;;
  mustOk (RUpsertWebhookWorker
    (mkWebhookWorker "hooks-a" "https://example.com/a" {[queueName := 1]} 1 ["s"] [] 0 false)) ;;;
  workers <- mustWorkers ;;
  require (bool_decide (wh_Name <$> workers = ["hooks-a"; "hooks-b"])) ;;;
  got <- mustWorker "hooks-b" ;;
  require (bool_decide (wh_URL got = wh_URL hooksB) && (wh_Concurrency got =? 8) &&
           (wh_RequestTimeout got =? 30 * Second)) ;;;
  require (bool_decide (size (wh_Queues got) = 2%nat) && bool_decide (wh_Queues got !! queueName = Some 3) &&
           bool_decide (wh_Queues got !! "other" = Some 1)) ;;;
  require (bool_decide (wh_Secrets got = ["secret-new"; "secret-old"])) ;;;
  require (bool_decide (wh_BatchTypes got = ["report:batch"])) ;;;
  mustFail ErrTaskNotFound (RGetWebhookWorker "absent") ;;;
  reread <- mustWorker "hooks-b" ;;
  require (bool_decide (wh_Queues reread !! queueName = Some 3) &&
           bool_decide (head (wh_Secrets reread) = Some "secret-new")).

Definition hooks : WebhookWorker :=
  mkWebhookWorker "hooks" "https://example.com/tasks" {[queueName := 1]} 4 ["secret-new"; "secret-old"] [] 0 false.

Definition testWebhookWorkerLifecycle : test unit :=
  mustOk (RUpsertWebhookWorker hooks) ;;;
  mustOk (RSetWebhookWorkerPaused "hooks" true) ;;;
  got <- mustWorker "hooks" ;;
  require (wh_Paused got) ;;;
  mustFail ErrTaskNotFound (RSetWebhookWorkerPaused "absent" true) ;;;
  mustOk (RUpsertWebhookWorker
    (hooks <| wh_URL := "https://example.com/v2" |> <| wh_Secrets := ["secret-new"] |>)) ;;;
  got <- mustWorker "hooks" ;;
  require (bool_decide (wh_URL got = "https://example.com/v2") && negb (wh_Paused got) &&
           lengthIs (wh_Secrets got) 1) ;;;
  mustOk (RDeleteWebhookWorker "hooks") ;;;
  mustOk (RDeleteWebhookWorker "hooks") ;;;
  workers <- mustWorkers ;;
  require (lengthIs workers 0).

Definition testListTasks : test unit :=
  forEach ["task-001"; "task-002"; "task-003"; "task-004"; "task-005"] (λ id, mustEnqueue (newTask id [])) ;;;
  mustEnqueue (newTask "task-006" [withQueue "other"]) ;;;
  mustLease queueName 1 "lease-1" ;;;
  records <- mustRecords (mkTaskQuery queueName TASK_STATE_UNSPECIFIED 0 "") ;;
  require (lengthIs records 5 && bool_decide (head (recordIDs records) = Some "task-005")) ;;;
  newest <- at_ records 0 ;;
  oldest <- at_ records 4 ;;
  require (bool_decide (rec_State oldest = TASK_STATE_ACTIVE) && bool_decide (rec_State newest = TASK_STATE_PENDING)) ;;;
  records <- mustRecords (mkTaskQuery "" TASK_STATE_ACTIVE 0 "") ;;
  require (bool_decide (recordIDs records = ["task-001"])) ;;;
  records <- mustRecords (mkTaskQuery queueName TASK_STATE_UNSPECIFIED 2 "") ;;
  second <- at_ records 1 ;;
  records <- mustRecords (mkTaskQuery queueName TASK_STATE_UNSPECIFIED 2 (env_Id (rec_Envelope second))) ;;
  require (lengthIs records 2 && bool_decide (head (recordIDs records) = Some "task-003")).

(** [strconv.Atoi] accepts it as a number that is not negative. *)
Definition isNumeral (s : string) : bool :=
  negb (bool_decide (s = "")) &&
  forallb (λ c, (48 <=? Ascii.nat_of_ascii c)%nat && (Ascii.nat_of_ascii c <=? 57)%nat)
    (String.list_ascii_of_string s).

Definition testInfo : test unit :=
  info <- mustInfo ;;
  require (negb (bool_decide (info_Driver info = ""))) ;;;
  require (bool_decide (is_Some (info_Metrics info !! "tasks"))) ;;;
  mustEnqueue (newTask "task-001" []) ;;;
  info <- mustInfo ;;
  require (isNumeral (default "" (info_Metrics info !! "tasks"))).
