(* ===== verification/ConformanceGraph.v ===== *)
(** * The conformance suite: groups, dependencies, concurrency, and the list of
    tests (internal/broker/brokertest/brokertest.go)

    The goroutines of a concurrent test take turns as a schedule says: a turn is
    one call to the broker, the unit the interface makes atomic. *)

From S2P Require Import Prelude Proto Events BrokerApi Encryption BrokerCalls Conformance ConformanceTests ConformanceAdmin.
From stdpp Require Import pretty.
From Stdlib Require Import Strings.Byte.

#[local] Open Scope Z_scope.
#[local] Open Scope test_scope.

(** ** Groups *)

Definition testGroupedEnqueueAggregates : test unit :=
  mustEnqueue (newTask "task-001" [withGroup "digest"]) ;;;
  mustEnqueue (newTask "task-002" []) ;;;
  mustState "task-001" TASK_STATE_AGGREGATING ;;;
  mustState "task-002" TASK_STATE_PENDING ;;;
  leased <- mustLease queueName 10 "lease-1" ;;
  require (bool_decide (leasedIDs leased = ["task-002"])).

Definition testGroupedScheduleRejected : test unit :=
  mustFail ErrGroupedSchedule
    (REnqueue (newTask "task-001" [withGroup "digest"; withProcessAt (time_Add start Hour)])).

Definition testGroupStatsReportsMembers : test unit :=
  let late := time_Add start (2 * Second) in
  let mid := time_Add start Second in
  mustEnqueue (newTask "task-001" [withGroup "a"; withEnqueuedAt start]) ;;;
  mustEnqueue (newTask "task-002" [withGroup "a"; withEnqueuedAt late]) ;;;
  mustEnqueue (newTask "task-003" [withGroup "a"; withEnqueuedAt mid]) ;;;
  mustEnqueue (newTask "task-004" [withGroup "b"]) ;;;
  mustEnqueue (newTask "task-005" []) ;;;
  stats <- expecting RGroupStats (λ rep, match rep with GroupStatList stats => Some stats | _ => None end) ;;
  require (lengthIs stats 2) ;;;
  groupA <- at_ stats 0 ;;
  require (bool_decide (gs_Group groupA = "a") && (gs_Count groupA =? 3)) ;;;
  require (Equal (gs_Oldest groupA) start && Equal (gs_Newest groupA) late).

Definition testLeaseGroupClaimsBatch : test unit :=
  forEach ["task-001"; "task-002"; "task-003"]
    (λ id, mustEnqueue (newTask id [withGroup "a"; withEnqueuedAt start])) ;;;
  mustEnqueue (newTask "task-004" [withGroup "b"]) ;;;
  leased <- mustTasks (RLeaseGroup queueName "a" 2 leaseTTL "batch-1") ;;
  require (bool_decide (leasedIDs leased = ["task-001"; "task-002"])) ;;;
  mustState "task-001" TASK_STATE_ACTIVE ;;;
  mustState "task-002" TASK_STATE_ACTIVE ;;;
  mustState "task-003" TASK_STATE_AGGREGATING ;;;
  mustState "task-004" TASK_STATE_AGGREGATING ;;;
  mustOk (RAck "task-001" "batch-1" []).

(** ** Dependencies *)

Definition testDependencyBlocksUntilResolved : test unit :=
  mustEnqueue (newTask "task-001" []) ;;;
  mustEnqueue (newTask "task-002" [withDependsOn [dependsOn "task-001"]]) ;;;
  mustState "task-002" TASK_STATE_BLOCKED ;;;
  queues <- completeOnly "task-001" ;;
  require (contains queueName queues) ;;;
  mustState "task-002" TASK_STATE_PENDING ;;;
  leased <- mustLease queueName batchLimit "lease-final" ;;
  require (bool_decide (leasedIDs leased = ["task-002"])).

Definition testDependencyAlreadyCompletedAtEnqueue : test unit :=
  mustEnqueue (newTask "task-001" []) ;;;
  completeOnly "task-001" ;;;
  mustEnqueue (newTask "task-002" [withDependsOn [dependsOn "task-001"]]) ;;;
  mustState "task-002" TASK_STATE_PENDING.

Definition testFanInWaitsForAllDependencies : test unit :=
  mustEnqueue (newTask "task-001" []) ;;;
  mustEnqueue (newTask "task-002" []) ;;;
  mustEnqueue (newTask "task-003" []) ;;;
  mustEnqueue (newTask "task-004"
    [withDependsOn [dependsOn "task-001"; dependsOn "task-002"; dependsOn "task-003"]]) ;;;
  mustState "task-004" TASK_STATE_BLOCKED ;;;
  leased <- mustLease queueName batchLimit "lease-1" ;;
  require (bool_decide (leasedIDs leased = ["task-001"; "task-002"; "task-003"])) ;;;
  mustAck "task-001" "lease-1" ;;; mustResolve "task-001" ;;;
  mustState "task-004" TASK_STATE_BLOCKED ;;;
  mustAck "task-002" "lease-1" ;;; mustResolve "task-002" ;;;
  mustState "task-004" TASK_STATE_BLOCKED ;;;
  mustAck "task-003" "lease-1" ;;; mustResolve "task-003" ;;;
  mustState "task-004" TASK_STATE_PENDING.

Definition testDependencyFailurePolicyBlock : test unit :=
  mustEnqueue (newTask "task-001" []) ;;;
  mustEnqueue (newTask "task-002" [withDependsOn [dependsOn "task-001"]]) ;;;
  mustLease queueName batchLimit "lease-1" ;;;
  mustOk (RArchive "task-001" "lease-1" "boom") ;;;
  mustResolve "task-001" ;;;
  mustState "task-002" TASK_STATE_BLOCKED.

Definition testDependencyFailurePolicyContinue : test unit :=
  mustEnqueue (newTask "task-001" []) ;;;
  mustEnqueue (newTask "task-002"
    [withDependsOn [dependsOnFailing "task-001" DEPENDENCY_FAILURE_POLICY_CONTINUE]]) ;;;
  mustLease queueName batchLimit "lease-1" ;;;
  mustOk (RArchive "task-001" "lease-1" "boom") ;;;
  mustResolve "task-001" ;;;
  mustState "task-002" TASK_STATE_PENDING.

Definition testDependencyFailureCascadeCancels : test unit :=
  let cascade := DEPENDENCY_FAILURE_POLICY_CASCADE_CANCEL in
  mustEnqueue (newTask "task-001" []) ;;;
  mustEnqueue (newTask "task-002" [withDependsOn [dependsOnFailing "task-001" cascade]]) ;;;
  mustEnqueue (newTask "task-003" [withDependsOn [dependsOnFailing "task-002" cascade]]) ;;;
  mustLease queueName batchLimit "lease-1" ;;;
  mustOk (RArchive "task-001" "lease-1" "boom") ;;;
  mustResolve "task-001" ;;;
  mustState "task-002" TASK_STATE_CANCELED ;;;
  mustState "task-003" TASK_STATE_CANCELED.

Definition testPromoteReadyDependentsSafetyNet : test unit :=
  mustEnqueue (newTask "task-001" []) ;;;
  mustEnqueue (newTask "task-002" [withDependsOn [dependsOn "task-001"]]) ;;;
  mustLease queueName batchLimit "lease-1" ;;;
  mustAck "task-001" "lease-1" ;;;
  mustState "task-002" TASK_STATE_BLOCKED ;;;
  queues <- mustNames (RPromoteReadyDependents batchLimit) ;;
  require (contains queueName queues) ;;;
  mustState "task-002" TASK_STATE_PENDING.

Definition testDependencyCycleStaysBlocked : test unit :=
  mustEnqueue (newTask "task-001" [withDependsOn [dependsOn "task-002"]]) ;;;
  mustEnqueue (newTask "task-002" [withDependsOn [dependsOn "task-001"]]) ;;;
  mustState "task-001" TASK_STATE_BLOCKED ;;;
  mustState "task-002" TASK_STATE_BLOCKED ;;;
  mustResolve "task-001" ;;;
  mustNames (RPromoteReadyDependents batchLimit) ;;;
  mustState "task-001" TASK_STATE_BLOCKED ;;;
  mustState "task-002" TASK_STATE_BLOCKED.

(** ** Limits *)

Definition testQueueConcurrencyLimit : test unit :=
  limit <- mustConcurrencyLimit queueName ;;
  require (bool_decide (¬ is_Some limit)) ;;;
  mustOk (RSetQueueConcurrencyLimit queueName 5) ;;;
  limit <- mustConcurrencyLimit queueName ;;
  require (bool_decide (cl_MaxActive <$> limit = Some 5) && bool_decide (cl_Queue <$> limit = Some queueName)) ;;;
  mustOk (RSetQueueConcurrencyLimit queueName 10) ;;;
  limit <- mustConcurrencyLimit queueName ;;
  require (bool_decide (cl_MaxActive <$> limit = Some 10)) ;;;
  mustOk (RSetQueueConcurrencyLimit "alpha" 1) ;;;
  all <- mustConcurrencyLimits ;;
  require (bool_decide (cl_Queue <$> all = ["alpha"; queueName])) ;;;
  mustOk (RDeleteQueueConcurrencyLimit queueName) ;;;
  limit <- mustConcurrencyLimit queueName ;;
  require (bool_decide (¬ is_Some limit)).

Definition configKey (c : GroupConfig) : string * string := (gc_Queue c, gc_Group c).

Definition testGroupConfig : test unit :=
  all <- mustGroupConfigs ;;
  require (lengthIs all 0) ;;;
  mustOk (RSetGroupConfig queueName "emails" 20 (2 * Minute) (5 * Second)) ;;;
  all <- mustGroupConfigs ;;
  require (lengthIs all 1) ;;;
  config <- at_ all 0 ;;
  require (bool_decide (configKey config = (queueName, "emails")) && (gc_MaxSize config =? 20) &&
           (gc_MaxDelay config =? 2 * Minute) && (gc_GracePeriod config =? 5 * Second)) ;;;
  mustOk (RSetGroupConfig queueName "emails" 50 Minute (10 * Second)) ;;;
  all <- mustGroupConfigs ;;
  require (lengthIs all 1) ;;;
  config <- at_ all 0 ;;
  require ((gc_MaxSize config =? 50) && (gc_MaxDelay config =? Minute)) ;;;
  mustOk (RSetGroupConfig queueName "" 100 Minute Second) ;;;
  mustOk (RSetGroupConfig "alpha" "reports" 5 Minute Second) ;;;
  all <- mustGroupConfigs ;;
  require (bool_decide (configKey <$> all = [("alpha", "reports"); (queueName, ""); (queueName, "emails")])) ;;;
  mustOk (RDeleteGroupConfig queueName "emails") ;;;
  all <- mustGroupConfigs ;;
  require (lengthIs all 2) ;;;
  mustOk (RDeleteGroupConfig queueName "nonexistent").

(** ** Concurrency *)

(** [%0<width>d]. *)
Definition padded (width n : nat) : string :=
  let digits := pretty n in
  foldr (λ _ s, "0" +:+ s) digits (seq 0 (width - String.length digits)).

(** The goroutines of [testConcurrentLeaseNoDoubleDelivery]: the worker the
    schedule names leases once, the tasks seen so far being [seen], unless it has
    found nothing before or has used up its rounds. *)
Fixpoint leaseTurns (schedule : list nat) (rounds : gmap nat nat) (stopped : gset nat)
    (seen : gset string) (finish : gset string → test unit) : test unit :=
  match schedule with
  | [] => finish seen
  | worker :: schedule =>
      let round := default 0%nat (rounds !! worker) in
      if bool_decide (worker ∈ stopped) || (200 <=? round)%nat
      then leaseTurns schedule rounds stopped seen finish
      else
        leased <- mustLease queueName 10
          ("concurrent-lease-" +:+ pretty worker +:+ "-" +:+ pretty round) ;;
        if bool_decide (length leased = 0%nat)
        then leaseTurns schedule rounds ({[worker]} ∪ stopped) seen finish
        else
          require (bool_decide (NoDup (leasedIDs leased)) && bool_decide (list_to_set (leasedIDs leased) ## seen)) ;;;
          leaseTurns schedule (<[worker := S round]> rounds) stopped
            (list_to_set (leasedIDs leased) ∪ seen) finish
  end.

Definition testConcurrentLeaseNoDoubleDelivery (schedule : list nat) : test unit :=
  forEach (seq 0 200) (λ sequence, mustEnqueue (newTask ("task-" +:+ padded 5 sequence) [])) ;;;
  leaseTurns schedule ∅ ∅ ∅ (λ seen, require (bool_decide (size seen = 200%nat))).

(** The goroutines of [testConcurrentFanInResolves]: the sibling the schedule
    names first acknowledges its task, then resolves its dependents. *)
Fixpoint fanInTurns (schedule : list nat) (acked resolved : gset nat) : test unit :=
  match schedule with
  | [] => done tt
  | i :: schedule =>
      let id := "task-" +:+ padded 3 (S i) in
      if bool_decide (i ∈ resolved) then fanInTurns schedule acked resolved
      else if bool_decide (i ∈ acked)
      then mustResolve id ;;; fanInTurns schedule acked ({[i]} ∪ resolved)
      else mustAck id "lease-1" ;;; fanInTurns schedule ({[i]} ∪ acked) resolved
  end.

Definition siblings : nat := 8.

Definition testConcurrentFanInResolves (schedule : list nat) : test unit :=
  let ids := (λ i, "task-" +:+ padded 3 (S i)) <$> seq 0 siblings in
  forEach ids (λ id, mustEnqueue (newTask id [])) ;;;
  mustEnqueue (newTask "task-099" [withDependsOn (dependsOn <$> ids)]) ;;;
  mustState "task-099" TASK_STATE_BLOCKED ;;;
  leased <- mustLease queueName batchLimit "lease-1" ;;
  require (lengthIs leased siblings) ;;;
  fanInTurns schedule ∅ ∅ ;;;
  mustState "task-099" TASK_STATE_PENDING.

(** Schedules that let every goroutine finish: in turns, and one after the
    other. *)
Definition inTurns (workers rounds : nat) : list nat := concat (replicate rounds (seq 0 workers)).
Definition oneByOne (workers rounds : nat) : list nat := seq 0 workers ≫= replicate rounds.

(** ** The suite *)

Definition suite : list (string * test unit) :=
  [("EnqueueAndGetTask", testEnqueueAndGetTask);
   ("EnqueueScheduledWhenFuture", testEnqueueScheduledWhenFuture);
   ("EnqueueIdempotentOnID", testEnqueueIdempotentOnID);
   ("EnqueueBatchCommitsAll", testEnqueueBatchCommitsAll);
   ("EnqueueBatchAtomicOnFailure", testEnqueueBatchAtomicOnFailure);
   ("EnqueueBatchIntraBatchUniqueCollision", testEnqueueBatchIntraBatchUniqueCollision);
   ("EnqueueBatchIdempotentID", testEnqueueBatchIdempotentID);
   ("EnqueueBatchDuplicateIDInBatch", testEnqueueBatchDuplicateIDInBatch);
   ("EnqueueBatchEmpty", testEnqueueBatchEmpty);
   ("GetTaskNotFound", testGetTaskNotFound);
   ("LeaseOrdersByPriorityThenFIFO", testLeaseOrdersByPriorityThenFIFO);
   ("LeaseHonorsLimitAndClaims", testLeaseHonorsLimitAndClaims);
   ("LeaseScopesToQueueAndDueTime", testLeaseScopesToQueueAndDueTime);
   ("AckCompletesTask", testAckCompletesTask);
   ("ExecutionTimestamps", testExecutionTimestamps);
   ("FailSchedulesRetry", testFailSchedulesRetry);
   ("ReleaseReturnsToPendingWithoutPenalty", testReleaseReturnsToPendingWithoutPenalty);
   ("ArchiveDeadLetters", testArchiveDeadLetters);
   ("ExtendLeaseDefersReaping", testExtendLeaseDefersReaping);
   ("SetProgress", testSetProgress);
   ("ReapExpiredLeases", testReapExpiredLeases);
   ("ReapArchivesExhaustedRetries", testReapArchivesExhaustedRetries);
   ("PromoteScheduled", testPromoteScheduled);
   ("PurgeCompletedHonorsRetention", testPurgeCompletedHonorsRetention);
   ("AckBatchCompletesMembersAndSkipsLostLeases", testAckBatchCompletesMembersAndSkipsLostLeases);
   ("PurgeArchivedHonorsArchiveRetention", testPurgeArchivedHonorsArchiveRetention);
   ("PurgeDropsStaleEdgesOfTerminalDependents", testPurgeDropsStaleEdgesOfTerminalDependents);
   ("ExpiredTaskNotLeasedAndArchived", testExpiredTaskNotLeasedAndArchived);
   ("PendingCount", testPendingCount);
   ("UniqueTasks", testUniqueTasks);
   ("UniqueKeyTTLLapses", testUniqueKeyTTLLapses);
   ("CancelTask", testCancelTask);
   ("DeleteTask", testDeleteTask);
   ("RunTaskNow", testRunTaskNow);
   ("RescheduleTask", testRescheduleTask);
   ("ArchiveTask", testArchiveTask);
   ("QueuePauseFlag", testQueuePauseFlag);
   ("QueueRateLimit", testQueueRateLimit);
   ("QueueConcurrencyLimit", testQueueConcurrencyLimit);
   ("GroupConfig", testGroupConfig);
   ("QueueStats", testQueueStats);
   ("CronEntries", testCronEntries);
   ("WebhookWorkers", testWebhookWorkers);
   ("WebhookWorkerLifecycle", testWebhookWorkerLifecycle);
   ("ListTasks", testListTasks);
   ("Info", testInfo);
   ("ConcurrentLeaseNoDoubleDelivery", testConcurrentLeaseNoDoubleDelivery (inTurns 8 4));
   ("GroupedEnqueueAggregates", testGroupedEnqueueAggregates);
   ("GroupedScheduleRejected", testGroupedScheduleRejected);
   ("GroupStatsReportsMembers", testGroupStatsReportsMembers);
   ("LeaseGroupClaimsBatch", testLeaseGroupClaimsBatch);
   ("DependencyBlocksUntilResolved", testDependencyBlocksUntilResolved);
   ("DependencyAlreadyCompletedAtEnqueue", testDependencyAlreadyCompletedAtEnqueue);
   ("FanInWaitsForAllDependencies", testFanInWaitsForAllDependencies);
   ("DependencyFailurePolicyBlock", testDependencyFailurePolicyBlock);
   ("DependencyFailurePolicyContinue", testDependencyFailurePolicyContinue);
   ("DependencyFailureCascadeCancels", testDependencyFailureCascadeCancels);
   ("DeleteDependencyRefused", testDeleteDependencyRefused);
   ("DeleteIgnoresTerminalDependents", testDeleteIgnoresTerminalDependents);
   ("PromoteReadyDependentsSafetyNet", testPromoteReadyDependentsSafetyNet);
   ("ConcurrentFanInResolves", testConcurrentFanInResolves (inTurns siblings 2));
   ("ConcurrentFanInResolves", testConcurrentFanInResolves (oneByOne siblings 2));
   ("DependencyCycleStaysBlocked", testDependencyCycleStaysBlocked)].

(** [Run]: the tests that do not pass. *)
Definition failures {B} (brk : (nat → list byte) → broker B) (rnd : nat → nat → list byte) (fresh : B)
    : list string :=
  fst <$> filter (λ entry, runScript brk rnd (scriptOf entry.2) fresh = false) suite.
