(* ===== verification/ConformanceProps.v ===== *)
(** * The brokers conform

    The in-memory broker passes the suite, by evaluation under two map iteration
    orders; the encrypting broker passes it because a script cannot tell the two
    apart. *)

From S2P Require Import Prelude Proto Events BrokerApi Memory Encryption BrokerCalls Encrypted MemoryBlind EncryptedProps Conformance ConformanceTests ConformanceAdmin ConformanceGraph.
From Stdlib Require Import Strings.Byte.

(** ** Sealing that cannot fail *)

Section Sealing.
Context {E : Type} `{Encryptor E} (a : E).

(** The encryptor seals whatever it is given with this randomness. *)
Definition seals (rnd : nat → list byte) : Prop :=
  ∀ n data, ∃ sealed, Encrypt a (rnd n) data = inr sealed.

Lemma seals_bytes rnd n data : seals rnd → ∃ sealed, sealBytes a (rnd n) data = inr sealed.
Proof.
  intros Hs. unfold sealBytes. case_decide; [eauto|]. destruct (Hs n data) as [s ->]. eauto.
Qed.

Lemma seals_each {A C} (f : nat → A → callError + C) i l :
  (∀ n x, ∃ y, f n x = inr y) → ∃ ys, tryEach f i l = inr ys.
Proof.
  intros Hf. revert i. induction l as [|x l IH]; intros i; [by eexists|]. cbn.
  destruct (Hf i x) as [y ->]. destruct (IH (S i)) as [ys ->]. eauto.
Qed.

Lemma seals_request rnd r : seals rnd → ∃ r', sealRequest a rnd r = inr r'.
Proof.
  intros Hs.
  assert (Henv : ∀ n task, ∃ t, sealEnvelope a (rnd n) task = inr t).
  { intros n task. unfold sealEnvelope. destruct (seals_bytes rnd n (env_Payload task) Hs) as [s ->]. eauto. }
  assert (Hitem : ∀ n item, ∃ i, sealItem a (rnd n) item = inr i).
  { intros n item. unfold sealItem. destruct (seals_bytes rnd n (ack_Result item) Hs) as [s ->]. eauto. }
  destruct r; cbn [sealRequest]; eauto.
  - destruct (Henv 0 task) as [t ->]. eauto.
  - destruct (seals_each (λ i, sealEnvelope a (rnd i)) 0 tasks Henv) as [ts ->]. eauto.
  - destruct (seals_bytes rnd 0 result Hs) as [s ->]. eauto.
  - destruct (seals_each (λ i, sealItem a (rnd i)) 0 items Hitem) as [ts ->]. eauto.
  - destruct (seals_bytes rnd 0 (cron_Payload entry) Hs) as [s ->]. eauto.
Qed.
End Sealing.

(** ** Scripts *)

(** A broker that draws nothing answers alike under any randomness. *)
Lemma runScript_plain {B} (brk : broker B) rnd rnd' s b :
  runScript (λ _, brk) rnd s b = runScript (λ _, brk) rnd' s b.
Proof.
  revert rnd rnd' b. induction s as [| |now r k IH]; intros rnd rnd' b; [done..|]. cbn.
  destruct (brk now r b) as [b' rep]. apply IH.
Qed.

(** A script cannot tell the encrypting broker from the plain one. *)
Lemma runScript_transparent {MR : MapRange} {E} `{Encryptor E} (a : E) rnd s b eb :
  LawfulEncryptor a → (∀ i, seals a (rnd i)) → conceals a b eb →
  runScript (encrypted a memory) rnd s eb = runScript (λ _, memory) rnd s b.
Proof.
  intros L. revert rnd b eb. induction s as [| |now r k IH]; intros rnd b eb Hs Hc; [done..|].
  cbn [runScript]. destruct (seals_request a (rnd 0) r (Hs 0)) as [r' Hr'].
  pose proof (conceals_step a (rnd 0) now r r' b eb Hc Hr') as Hstep.
  destruct (encrypted a memory (rnd 0) now r eb) as [eb' rep]. destruct Hstep as [-> Hc'].
  by apply IH.
Qed.

Lemma empty_conceals {MR : MapRange} {E} `{Encryptor E} (a : E) : conceals a New New.
Proof. split; [|reflexivity]. split; intros id row Hl; cbn in Hl; by rewrite lookup_empty in Hl. Qed.

Lemma failures_same {B B'} (brk : _ → broker B) (brk' : _ → broker B') rnd rnd' fresh fresh' :
  (∀ s, runScript brk rnd s fresh = runScript brk' rnd' s fresh') →
  failures brk rnd fresh = failures brk' rnd' fresh'.
Proof. intros H. unfold failures. f_equal. apply list_filter_iff. intros p. by rewrite H. Qed.

(** A map iteration order the evaluation covers. *)
Definition evaluated (MR : MapRange) : Prop := MR = elements_range ∨ MR = reverse_range.

Lemma memory_passes MR : evaluated MR → failures (λ _, memory) (λ _ _, []) New = [].
Proof. intros [-> | ->]; vm_compute; reflexivity. Qed.

(** C32: the brokers pass the conformance suite. Every one of its tests, from
    enqueueing and leasing to sweeps, uniqueness, administration, groups and the
    dependency graph, succeeds on a fresh in-memory broker; and it succeeds on the
    encrypting broker over it, for every lawful encryptor with randomness it can
    seal with, since no script can tell the two apart. *)
Theorem brokers_conform (MR : MapRange) rnd :
  evaluated MR →
  failures (λ _, memory) rnd New = [] ∧
  ∀ {E} `{Encryptor E} (a : E), LawfulEncryptor a → (∀ i, seals a (rnd i)) →
    (∀ s, runScript (encrypted a memory) rnd s New = runScript (λ _, memory) rnd s New) ∧
    failures (encrypted a memory) rnd New = [].
Proof.
  intros Hev.
  assert (Hm : failures (λ _, memory) rnd New = []).
  { rewrite <- (memory_passes MR Hev). apply failures_same. intros s. apply runScript_plain. }
  split; [done|]. intros E HE a L Hs.
  assert (Hsame : ∀ s, runScript (encrypted a memory) rnd s New = runScript (λ _, memory) rnd s New).
  { intros s. apply runScript_transparent; [done|done|apply empty_conceals]. }
  split; [done|]. rewrite <- Hm. by apply failures_same.
Qed.

(** Under AES-GCM nonces of the right length are all the randomness it takes. *)
Lemma brokers_conform_witness :
  let AE := AESGCM_Encryptor (G := toyGCM) in
  failures (encrypted toyRing (memory (MR := reverse_range))) (λ _, toyNonce) New = [].
Proof.
  intros AE. apply (brokers_conform reverse_range (λ _, toyNonce)); [by right|apply toyRing_lawful|].
  intros i n data. eexists. unfold Encrypt. cbn. unfold gcm_Encrypt.
  rewrite decide_False by (intros Hn; by apply Hn). reflexivity.
Defined.
