(* ===== verification/PostgresConformance.v ===== *)
(** * The PostgreSQL broker conforms

    The conformance suite run against the model of the PostgreSQL broker, as a test
    run would against a database, and two scripts outside the suite that tell it
    from the in-memory broker. *)

From S2P Require Import Prelude Proto Events BrokerApi Memory Encryption BrokerCalls Conformance ConformanceTests ConformanceAdmin ConformanceGraph ConformanceProps Postgres PostgresBroker.
From Stdlib Require Import Strings.Byte.

#[local] Existing Instances plainWire microDriver.

Lemma postgres_passes MR :
  evaluated MR → failures (λ _, postgres) (λ _ _, []) (NewWithPool someServer) = [].
Proof. intros [-> | ->]; vm_compute; reflexivity. Qed.

(** No failure means every test of the suite succeeded. *)
Lemma failures_none {B} (brk : _ → broker B) rnd fresh :
  failures brk rnd fresh = [] →
  ∀ name t, (name, t) ∈ suite → runScript brk rnd (scriptOf t) fresh = true.
Proof.
  unfold failures. intros Hf name t Hin. apply not_false_iff_true. intros E.
  assert (Hn : (name, t) ∈ filter (λ entry, runScript brk rnd (scriptOf entry.2) fresh = false) suite)
    by (by apply list_elem_of_filter).
  apply fmap_nil_inv in Hf. rewrite Hf in Hn. by apply not_elem_of_nil in Hn.
Qed.

(** The PostgreSQL broker passes the conformance suite. Every one of its
    tests, from enqueueing and leasing to sweeps, uniqueness, administration, groups
    and the dependency graph, succeeds on freshly migrated tables: the in-memory and
    the durable broker cannot be told apart by the suite. *)
Theorem postgres_conforms (MR : MapRange) rnd :
  evaluated MR →
  failures (λ _, postgres) rnd (NewWithPool someServer) = [] ∧
  ∀ name t, (name, t) ∈ suite →
    runScript (λ _, postgres) rnd (scriptOf t) (NewWithPool someServer) =
    runScript (λ _, memory) rnd (scriptOf t) New.
Proof.
  intros Hev.
  assert (Hp : failures (λ _, postgres) rnd (NewWithPool someServer) = []).
  { rewrite <- (postgres_passes MR Hev). apply failures_same. intros s. apply runScript_plain. }
  assert (Hm : failures (λ _, memory) rnd New = []).
  { rewrite <- (memory_passes MR Hev). apply failures_same. intros s. apply runScript_plain. }
  split; [done|]. intros name t Hin.
  rewrite (failures_none _ _ _ Hp name t Hin). symmetry. by apply (failures_none _ _ _ Hm name).
Qed.

(** A witness under the second iteration order. *)
Lemma postgres_conforms_witness :
  failures (λ _, postgres (MR := reverse_range)) (λ _ _, []) (NewWithPool someServer) = [].
Proof. apply (postgres_conforms reverse_range (λ _ _, [])). by right. Defined.

(** ** Beyond the suite *)

#[local] Open Scope test_scope.

Definition driverFailed (rep : reply) : bool :=
  match rep with Failed (EDriver _ _) => true | _ => false end.

(** conveyor_tasks_unique_idx covers the states 1 to 4 and not AGGREGATING (8) or
    BLOCKED (9), which are incomplete states too. Two tasks of a group can so hold
    the same key, and then the statement that leases the group violates the index,
    each time it is tried: the group is never dispatched. *)
Definition twoHoldersInGroup : test unit :=
  mustEnqueue (newTask "first" [withGroup "g"; withUnique "key" 0]) ;;;
  mustEnqueue (newTask "second" [withGroup "g"; withUnique "key" 0]) ;;;
  rep <- call (RLeaseGroup queueName "g" batchLimit leaseTTL "lease-1") ;;
  require (driverFailed rep) ;;;
  mustState "first" TASK_STATE_AGGREGATING ;;;
  mustState "second" TASK_STATE_AGGREGATING.

(** The in-memory broker refuses the second task, as the contract says. *)
Definition oneHolderInGroup : test unit :=
  mustEnqueue (newTask "first" [withGroup "g"; withUnique "key" 0]) ;;;
  mustFail ErrDuplicateTask (REnqueue (newTask "second" [withGroup "g"; withUnique "key" 0])).

Lemma group_key_unguarded :
  runScript (λ _, postgres (MR := elements_range)) (λ _ _, []) (scriptOf twoHoldersInGroup) (NewWithPool someServer) = true ∧
  runScript (λ _, memory (MR := elements_range)) (λ _ _, []) (scriptOf oneHolderInGroup) New = true.
Proof. split; vm_compute; reflexivity. Qed.

(** A blocked task whose key another task holds cannot be promoted, and since a
    sweep is one transaction it promotes nothing else either: "ready" stays blocked
    on a completed dependency while "stuck" waits for its key. *)
Definition blockedKeyStopsSweep : test unit :=
  mustEnqueue (newTask "dep" []) ;;;
  mustEnqueue (newTask "other" []) ;;;
  mustEnqueue (newTask "stuck" [withDependsOn [dependsOn "dep"]; withUnique "key" 0]) ;;;
  mustEnqueue (newTask "ready" [withDependsOn [dependsOn "other"]]) ;;;
  mustEnqueue (newTask "holder" [withUnique "key" 0; withProcessAt (start + Hour)%Z]) ;;;
  leased <- mustLease queueName batchLimit "lease-1" ;;
  require (bool_decide (leasedIDs leased = ["dep"; "other"])) ;;;
  mustAck "dep" "lease-1" ;;;
  mustAck "other" "lease-1" ;;;
  rep <- call (RPromoteReadyDependents batchLimit) ;;
  require (driverFailed rep) ;;;
  mustState "ready" TASK_STATE_BLOCKED.

Lemma blocked_key_stops_sweep :
  runScript (λ _, postgres (MR := elements_range)) (λ _ _, []) (scriptOf blockedKeyStopsSweep) (NewWithPool someServer) = true.
Proof. vm_compute. reflexivity. Qed.
