(* ===== verification/SdkWorker.v ===== *)
(** * The Go SDK's worker (sdks/go: worker.go, group.go, mux.go, progress.go,
    errors.go, encryption.go)

    Construction and Hello of a worker, its handler mux, the reconnect loop, and
    a live session as a state machine: the receive loop, the executions (a
    goroutine each), the heartbeat and the progress reporters take turns.
    Handlers are the application's: what one returns is an argument of the turn
    in which it returns. Frames are recorded in the order they are sent; once a
    send fails the stream is gone and the server sees no more of them. *)

From S2P Require Import Prelude Proto BrokerApi Encoding Encryption Messages Backoff TaskLog Gateway Api Session.
From Stdlib Require Import Strings.Byte Strings.Ascii.

#[local] Open Scope Z_scope.

(** ** The mux *)

Record Mux (H BH : Type) := mkMux {
  mux_handlers : gmap string H;
  mux_batchHandlers : gmap string BH;
  mux_middleware : list (H → H);
  mux_batchMiddleware : list (BH → BH) }.
Arguments mkMux {_ _} _ _ _ _.
Arguments mux_handlers {_ _} _.
Arguments mux_batchHandlers {_ _} _.
Arguments mux_middleware {_ _} _.
Arguments mux_batchMiddleware {_ _} _.

#[global] Instance Mux_eta {H BH} : Eta (Mux H BH) := λ m,
  mkMux (mux_handlers m) (mux_batchHandlers m) (mux_middleware m) (mux_batchMiddleware m).

Section Mux.
Context {MR : MapRange} {H BH : Type} (singleton : BH → H).
Implicit Types (m : Mux H BH).

Definition NewMux : Mux H BH := mkMux ∅ ∅ [] [].

(** Whether the registration of the type does not panic. *)
Definition requireUnregistered (taskType : string) m : bool :=
  negb (bool_decide (is_Some (mux_handlers m !! taskType))) &&
  negb (bool_decide (is_Some (mux_batchHandlers m !! taskType))).

(** [None] is a panic. *)
Definition HandleFunc (taskType : string) (handler : H) m : option (Mux H BH) :=
  if decide (taskType = "") then None
  else if negb (requireUnregistered taskType m) then None
  else Some (m <| mux_handlers := <[taskType := handler]> (mux_handlers m) |>).

Definition HandleBatch (taskType : string) (handler : BH) m : option (Mux H BH) :=
  if decide (taskType = "") then None
  else if negb (requireUnregistered taskType m) then None
  else Some (m <| mux_batchHandlers := <[taskType := handler]> (mux_batchHandlers m) |>).

Definition Use (middleware : list (H → H)) m : Mux H BH :=
  m <| mux_middleware := mux_middleware m ++ middleware |>.
Definition UseBatch (middleware : list (BH → BH)) m : Mux H BH :=
  m <| mux_batchMiddleware := mux_batchMiddleware m ++ middleware |>.

(** The loop from the last middleware to the first. *)
Definition wrapped {X} (middleware : list (X → X)) (handler : X) : X :=
  foldr (λ wrap handler, wrap handler) handler middleware.

(** A batch handler runs a single task through its adapter. *)
Definition mux_handler (taskType : string) m : option H :=
  match mux_handlers m !! taskType with
  | Some handler => Some (wrapped (mux_middleware m) handler)
  | None =>
      match mux_batchHandlers m !! taskType with
      | Some batch => Some (wrapped (mux_middleware m) (singleton batch))
      | None => None
      end
  end.

Definition mux_batchHandler (taskType : string) m : option BH :=
  wrapped (mux_batchMiddleware m) <$> mux_batchHandlers m !! taskType.

Definition batchTypes m : list string := range_keys (dom (mux_batchHandlers m)).
End Mux.

(** ** The worker *)

(** [Worker], as [NewWorker] builds it; [int] fields are 64-bit. *)
Record Worker := mkWorker {
  wr_queues : gmap string Z;
  wr_concurrency : Z;
  wr_minServerVersion : string }.

Inductive workerError :=
  | errBaseURL
  | errQueueRequired
  | errEmptyQueueName
  | errWeight (queue : string)
  | errWorkerConcurrency.

Section Worker.
Context {MR : MapRange}.

Fixpoint checkQueues (queues : list (string * Z)) : option workerError :=
  match queues with
  | [] => None
  | (name, weight) :: queues =>
      if decide (name = "") then Some errEmptyQueueName
      else if weight <=? 0 then Some (errWeight name)
      else checkQueues queues
  end.

Definition NewWorker (baseURL : string) (queues : gmap string Z) (concurrency : Z)
    (minServerVersion : string) : workerError + Worker :=
  if decide (baseURL = "") then inl errBaseURL
  else if decide (size queues = 0%nat) then inl errQueueRequired
  else
    match checkQueues (range_map queues) with
    | Some err => inl err
    | None =>
        if concurrency <=? 0 then inl errWorkerConcurrency
        else inr (mkWorker queues concurrency minServerVersion)
    end.

(** The Hello of [runSession]: weights and concurrency convert to [int32]. *)
Definition helloOf (sdkVersion : string) (types : list string) (w : Worker) : Hello :=
  mkHello (wrap32 <$> wr_queues w) (wrap32 (wr_concurrency w)) sdkVersion (wr_minServerVersion w) types.
End Worker.

(** ** Reconnecting *)

Inductive runDecision := ReturnNil | ReturnError | Reconnect (failures delay : Z).

(** The turn of [Run] after a session ended: [code] is its error's, [wire]
    whether the server sent it. The delay is for the attempt before the next. *)
Definition afterSession (delay : Z → Duration) (ctxDone : bool) (code : option Code) (wire established : bool)
    (failures : Z) : runDecision :=
  if ctxDone then ReturnNil
  else
    let permanent :=
      match code with
      | Some CodeUnauthenticated | Some CodePermissionDenied => true
      | Some CodeInvalidArgument => wire
      | _ => false
      end in
    if permanent then ReturnError
    else
      let failures := wrap32 (failures + 1) in
      let failures := if established then 0 else failures in
      Reconnect failures (delay (wrap32 (failures - 1))).

(** ** Results *)

(** A handler's error: its text, whether it wraps [skipRetry], and the members'
    errors when it is a [*BatchError]; a nil member error is [None]. *)
Record goError := mkGoError { ge_msg : string; ge_skip : bool }.
Record handlerError := mkHandlerError {
  hr_err : goError;
  hr_members : option (gmap string (option goError)) }.

Definition plainError (msg : string) : handlerError := mkHandlerError (mkGoError msg false) None.

(** Why an execution's context is done; the first cause stays. *)
Inductive cancelCause := errDraining | errServerCanceled | DeadlineExceeded.

#[global] Instance cancelCause_eq_dec : EqDecision cancelCause.
Proof. solve_decision. Defined.

(** [ctx.Err().Error()]. *)
Definition ctxError (cause : cancelCause) : handlerError :=
  plainError match cause with DeadlineExceeded => "context deadline exceeded" | _ => "context canceled" end.

Definition outcomeFor (cause : option cancelCause) (err : option handlerError) : TaskOutcome :=
  match err with
  | None => TASK_OUTCOME_SUCCESS
  | Some err =>
      if ge_skip (hr_err err) then TASK_OUTCOME_SKIP_RETRY
      else if decide (cause = Some errDraining) then TASK_OUTCOME_RELEASED
      else TASK_OUTCOME_RETRY
  end.

Definition errorOutcome (err : option goError) : TaskOutcome * string :=
  match err with
  | None => (TASK_OUTCOME_RETRY, "")
  | Some err => (if ge_skip err then TASK_OUTCOME_SKIP_RETRY else TASK_OUTCOME_RETRY, ge_msg err)
  end.

Definition batchMemberResult (cause : option cancelCause) (taskID : string) (err : option handlerError)
    : TaskOutcome * string :=
  match err with
  | None => (TASK_OUTCOME_SUCCESS, "")
  | Some err =>
      if decide (cause = Some errDraining) then (TASK_OUTCOME_RELEASED, "")
      else
        match hr_members err with
        | Some errs =>
            match errs !! taskID with
            | None => (TASK_OUTCOME_SUCCESS, "")
            | Some memberErr => errorOutcome memberErr
            end
        | None => errorOutcome (Some (hr_err err))
        end
  end.

(** ** Opening payloads *)

Definition encryptionMarkerKey : string := "conveyor.encryption".
Definition encryptionMarkerValue : string := "1".

Definition withEncryptionMarker (metadata : gmap string string) : gmap string string :=
  <[encryptionMarkerKey := encryptionMarkerValue]> metadata.

(** One byte in the text of the verb %q: quotes and backslashes are escaped,
    control bytes get their Go escape. Bytes beyond ASCII are taken to be those of
    printable characters, which are kept. *)
Definition quotedByte (c : ascii) : list ascii :=
  let n := Z.of_N (N_of_ascii c) in
  let escape e := [ascii_of_N 92; ascii_of_N e] in
  if (n =? 34) || (n =? 92) then escape (N_of_ascii c)
  else if n =? 7 then escape 97%N
  else if n =? 8 then escape 98%N
  else if n =? 9 then escape 116%N
  else if n =? 10 then escape 110%N
  else if n =? 11 then escape 118%N
  else if n =? 12 then escape 102%N
  else if n =? 13 then escape 114%N
  else if (n <? 32) || (n =? 127) then escape 120%N ++ [hexDigit (n / 16); hexDigit (n mod 16)]
  else [c].

(** A string as %q prints it, between double quotes. *)
Definition quoted (text : string) : string :=
  String.string_of_list_ascii
    (ascii_of_N 34 :: (c ← String.list_ascii_of_string text; quotedByte c) ++ [ascii_of_N 34]).

(** The messages; the decryption error the last one wraps is the encryptor's. *)
Definition noEncryptorMessage (id : string) : string :=
  "conveyor: task " +:+ quoted id +:+ " is encrypted but the worker has no Encryptor (WithEncryption)".
Definition decryptMessage (id : string) : string := "conveyor: decrypting task " +:+ quoted id +:+ " payload".

(** The envelope with its payload opened, or why it cannot be. *)
Definition sdk_openEnvelope {E} `{Encryptor E} (encryptor : option E) (envelope : TaskEnvelope)
    : handlerError + TaskEnvelope :=
  let metadata := env_Metadata envelope in
  if decide (default "" (metadata !! encryptionMarkerKey) = "") then inr envelope
  else
    match encryptor with
    | None => inl (plainError (noEncryptorMessage (env_Id envelope)))
    | Some encryptor =>
        match Decrypt encryptor (env_Payload envelope) with
        | inl _ => inl (plainError (decryptMessage (env_Id envelope)))
        | inr plaintext =>
            inr (envelope <| env_Payload := plaintext |>
                          <| env_Metadata := delete encryptionMarkerKey metadata |>)
        end
    end.

(** ** A live session *)

(** One execution: its tasks, whether they came as a batch, whether it holds a
    slot, why its context is done, and the last progress it reported. *)
Record execution := mkExecution {
  ex_batch : bool;
  ex_tasks : list TaskEnvelope;
  ex_running : bool;
  ex_cause : option cancelCause;
  ex_progress : option (Z * string) }.

#[global] Instance execution_eta : Eta execution := λ e,
  mkExecution (ex_batch e) (ex_tasks e) (ex_running e) (ex_cause e) (ex_progress e).

(** [workerSession]: the executions by goroutine, the cancel functions by task
    id, each cancelling one execution, and the frames sent. *)
Record workerSession := mkWorkerSession {
  sn_executions : gmap nat execution;
  sn_next : nat;
  sn_cancels : gmap string nat;
  sn_sent : list WorkerMessage }.

#[global] Instance workerSession_eta : Eta workerSession := λ s,
  mkWorkerSession (sn_executions s) (sn_next s) (sn_cancels s) (sn_sent s).

Definition newSession : workerSession := mkWorkerSession ∅ 0 ∅ [].

Definition sdk_send (frame : WorkerMessage) (s : workerSession) : workerSession :=
  s <| sn_sent := sn_sent s ++ [frame] |>.

(** Tracks the tasks under a new execution, which waits for a slot. *)
Definition spawn (batch : bool) (tasks : list TaskEnvelope) (s : workerSession) : workerSession :=
  s <| sn_cancels := foldl (λ cancels task, <[env_Id task := sn_next s]> cancels) (sn_cancels s) tasks |>
    <| sn_executions := <[sn_next s := mkExecution batch tasks false None None]> (sn_executions s) |>
    <| sn_next := S (sn_next s) |>.

Definition sdk_dispatch (task : TaskEnvelope) (s : workerSession) : workerSession := spawn false [task] s.

Definition sdk_dispatchBatch (tasks : list TaskEnvelope) (s : workerSession) : workerSession :=
  if decide (length tasks = 0%nat) then s else spawn true tasks s.

(** A cancel of an execution's context. *)
Definition interrupt (cause : cancelCause) (e : execution) : execution :=
  match ex_cause e with Some _ => e | None => e <| ex_cause := Some cause |> end.

Definition sdk_cancel (taskID : string) (s : workerSession) : workerSession :=
  match sn_cancels s !! taskID with
  | Some i => s <| sn_executions := alter (interrupt errServerCanceled) i (sn_executions s) |>
  | None => s
  end.

(** Every cancel function of the map is called. *)
Definition cancelAll (s : workerSession) : workerSession :=
  s <| sn_executions := map_imap (λ i e,
    Some (if decide (map_Exists (λ _ j, j = i) (sn_cancels s)) then interrupt errDraining e else e))
    (sn_executions s) |>.

Definition activeTaskIDs {MR : MapRange} (s : workerSession) : list string := range_keys (dom (sn_cancels s)).

(** The end of an execution: its tasks are forgotten and its result is sent. *)
Definition finishBatch (cause : option cancelCause) (tasks : list TaskEnvelope) (err : option handlerError)
    (s : workerSession) : workerSession :=
  let results := (λ task,
    let '(outcome, errMsg) := batchMemberResult cause (env_Id task) err in
    mkResult (env_Id task) outcome errMsg []) <$> tasks in
  sdk_send (FrameBatchResult results)
    (s <| sn_cancels := foldl (λ cancels task, delete (env_Id task) cancels) (sn_cancels s) tasks |>).

Definition finish (cause : option cancelCause) (taskID : string) (err : option handlerError)
    (s : workerSession) : workerSession :=
  sdk_send (FrameResult (mkResult taskID (outcomeFor cause err)
      match err with Some err => ge_msg (hr_err err) | None => "" end []))
    (s <| sn_cancels := delete taskID (sn_cancels s) |>).

Definition finishExecution (i : nat) (e : execution) (err : option handlerError) (s : workerSession)
    : workerSession :=
  let s := s <| sn_executions := delete i (sn_executions s) |> in
  if ex_batch e then finishBatch (ex_cause e) (ex_tasks e) err s
  else
    match ex_tasks e with
    | task :: _ => finish (ex_cause e) (env_Id task) err s
    | [] => s
    end.

(** ** Turns *)

Inductive sdkEvent :=
  | EvFrame (message : ServerMessage)
  | EvDeadline (i : nat)
  | EvAbandon (i : nat)
  | EvStart (i : nat)
  | EvReturn (i : nat) (err : option handlerError)
  | EvProgress (i : nat) (percent : Z) (message : string)
  | EvHeartbeat
  | EvStreamEnded.

Definition maxProgressPercent : Z := 100.

Section Turns.
Context {MR : MapRange} {E : Type} `{Encryptor E} {HF BH : Type} (singleton : BH → HF).
Context (mux : Mux HF BH) (encryptor : option E) (concurrency : Z).

Definition slotsInUse (s : workerSession) : Z :=
  Z.of_nat (size (filter (λ p, ex_running p.2 = true) (sn_executions s))).

(** The envelopes of a batch, opened in order. *)
Fixpoint openEach (tasks : list TaskEnvelope) : handlerError + list TaskEnvelope :=
  match tasks with
  | [] => inr []
  | task :: tasks =>
      match sdk_openEnvelope encryptor task with
      | inl err => inl err
      | inr task =>
          match openEach tasks with inl err => inl err | inr tasks => inr (task :: tasks) end
      end
  end.

Definition noHandlerMessage (kind taskType : string) : string :=
  "no " +:+ kind +:+ " registered for task type " +:+ quoted taskType.

(** Up to the call of the handler: what [execute] and [executeBatch] do once
    they hold a slot. *)
Definition prepare (e : execution) : handlerError + list TaskEnvelope :=
  let taskType := match ex_tasks e with task :: _ => env_Type task | [] => "" end in
  if ex_batch e then
    match mux_batchHandler taskType mux with
    | None => inl (plainError (noHandlerMessage "batch handler" taskType))
    | Some _ => openEach (ex_tasks e)
    end
  else
    match openEach (ex_tasks e) with
    | inl err => inl err
    | inr tasks =>
        match mux_handler singleton taskType mux with
        | None => inl (plainError (noHandlerMessage "handler" taskType))
        | Some _ => inr tasks
        end
    end.

Definition receiveFrame (message : ServerMessage) (s : workerSession) : workerSession :=
  match message with
  | FDispatch task _ => sdk_dispatch task s
  | FBatchDispatch tasks _ _ => sdk_dispatchBatch tasks s
  | FCancel taskID => sdk_cancel taskID s
  end.

(** [report]: clamped, and sent only when it differs from the last one. *)
Definition report (i : nat) (percent : Z) (message : string) (e : execution) (s : workerSession)
    : workerSession :=
  let percent := if maxProgressPercent <? percent then maxProgressPercent else percent in
  if decide (ex_progress e = Some (percent, message)) then s
  else
    let s := s <| sn_executions := <[i := e <| ex_progress := Some (percent, message) |>]> (sn_executions s) |> in
    match ex_tasks e with
    | task :: _ => sdk_send (FrameProgress (env_Id task) percent message) s
    | [] => s
    end.

(** A turn; [None] when the session cannot take it. *)
Definition sdk_turn (event : sdkEvent) (s : workerSession) : option workerSession :=
  match event with
  | EvFrame message => Some (receiveFrame message s)
  | EvHeartbeat => Some (sdk_send (FrameHeartbeat (activeTaskIDs s)) s)
  | EvStreamEnded => Some (cancelAll s)
  | EvDeadline i =>
      e ← sn_executions s !! i;
      Some (s <| sn_executions := <[i := interrupt DeadlineExceeded e]> (sn_executions s) |>)
  | EvAbandon i =>
      e ← sn_executions s !! i;
      match ex_cause e with
      | Some cause => if ex_running e then None else Some (finishExecution i e (Some (ctxError cause)) s)
      | None => None
      end
  | EvStart i =>
      e ← sn_executions s !! i;
      if ex_running e || (concurrency <=? slotsInUse s) then None
      else
        match prepare e with
        | inl err => Some (finishExecution i e (Some err) s)
        | inr tasks =>
            Some (s <| sn_executions :=
              <[i := e <| ex_running := true |> <| ex_tasks := tasks |>]> (sn_executions s) |>)
        end
  | EvReturn i err =>
      e ← sn_executions s !! i;
      if ex_running e then Some (finishExecution i e err s) else None
  | EvProgress i percent message =>
      e ← sn_executions s !! i;
      if ex_running e && negb (ex_batch e) then Some (report i percent message e s) else None
  end.

(** A run of the session; turns it cannot take are skipped. *)
Definition sdk_run (events : list sdkEvent) (s : workerSession) : workerSession :=
  foldl (λ s event, default s (sdk_turn event s)) s events.
End Turns.
