(* ===== verification/SdkWorkerProps.v ===== *)
(** * The Go SDK's worker: it speaks the server's protocol and settles what it is
    given *)

From S2P Require Import Prelude Proto BrokerApi Encryption Messages Backoff TaskLog Gateway Api Session SessionProps SdkWorker.
From Stdlib Require Import Strings.Byte.

#[local] Open Scope Z_scope.

Section Worker.
Context {MR : MapRange} {E : Type} `{Encryptor E} {HF BH : Type} (singleton : BH → HF).
Context (mux : Mux HF BH) (encryptor : option E) (concurrency : Z).
Implicit Types (m : gmap nat execution) (s : workerSession).

Abbreviation run := (sdk_run singleton mux encryptor concurrency).
Abbreviation turn := (sdk_turn singleton mux encryptor concurrency).

(** ** Deliveries *)

Definition taskIDs (e : execution) : list string := env_Id <$> ex_tasks e.

(** The task ids of the live executions. *)
Definition live (m : gmap nat execution) : list string := concat (map_to_list (taskIDs <$> m)).*2.

(** The task ids a frame reports a result for. *)
Definition answers (frame : WorkerMessage) : list string :=
  match frame with
  | FrameResult result => [res_TaskId result]
  | FrameBatchResult results => res_TaskId <$> results
  | _ => []
  end.

Definition answered (s : workerSession) : list string := concat (answers <$> sn_sent s).

(** The task ids an event delivers. *)
Definition delivers (event : sdkEvent) : list string :=
  match event with
  | EvFrame (FDispatch task _) => [env_Id task]
  | EvFrame (FBatchDispatch tasks _ _) => env_Id <$> tasks
  | _ => []
  end.

(** What the state keeps of its executions: fresh goroutine numbers, one task
    for a single delivery, and no execution without a task. *)
Record session_ok (s : workerSession) : Prop := {
  so_fresh : ∀ i, (sn_next s <= i)%nat → sn_executions s !! i = None;
  so_single : ∀ i e, sn_executions s !! i = Some e → ex_batch e = false → length (ex_tasks e) = 1%nat;
  so_some : ∀ i e, sn_executions s !! i = Some e → taskIDs e ≠ [] }.

Lemma live_same m m' : taskIDs <$> m = taskIDs <$> m' → live m = live m'.
Proof. unfold live. by intros ->. Qed.

Lemma live_insert m i e : m !! i = None → live (<[i := e]> m) ≡ₚ taskIDs e ++ live m.
Proof.
  intros Hi. unfold live. rewrite fmap_insert, map_to_list_insert by (by rewrite lookup_fmap, Hi). done.
Qed.

Lemma live_delete m i e : m !! i = Some e → live m ≡ₚ taskIDs e ++ live (delete i m).
Proof.
  intros Hi. rewrite <- (insert_delete_id m i e Hi) at 1. apply live_insert, lookup_delete_eq.
Qed.

Lemma live_update m i e e' : m !! i = Some e → taskIDs e' = taskIDs e → live (<[i := e']> m) = live m.
Proof.
  intros Hi He. apply live_same. rewrite fmap_insert, He. apply insert_id. by rewrite lookup_fmap, Hi.
Qed.

Lemma interrupt_ids cause e : taskIDs (interrupt cause e) = taskIDs e.
Proof. unfold interrupt. by destruct (ex_cause e). Qed.

Lemma open_id task task' : sdk_openEnvelope encryptor task = inr task' → env_Id task' = env_Id task.
Proof. unfold sdk_openEnvelope. repeat case_match; try done; by intros [= <-]. Qed.

Lemma openEach_ids tasks tasks' : openEach encryptor tasks = inr tasks' → env_Id <$> tasks' = env_Id <$> tasks.
Proof.
  revert tasks'. induction tasks as [|task tasks IH]; cbn; intros tasks'; [by intros [= <-]|].
  destruct (sdk_openEnvelope encryptor task) as [|t] eqn:Ho; [done|].
  destruct (openEach encryptor tasks) as [|ts]; [done|]. intros [= <-]. cbn.
  by rewrite (open_id _ _ Ho), (IH ts).
Qed.

Lemma prepare_ids e tasks : prepare singleton mux encryptor e = inr tasks → env_Id <$> tasks = taskIDs e.
Proof.
  unfold prepare. destruct (ex_batch e).
  - case_match; [|done]. apply openEach_ids.
  - destruct (openEach encryptor (ex_tasks e)) as [|ts] eqn:Ho; [done|]. case_match; [|done].
    intros [= <-]. by apply openEach_ids.
Qed.

Lemma answered_send frame s : answered (sdk_send frame s) = answered s ++ answers frame.
Proof. unfold answered, sdk_send. cbn. rewrite fmap_app, concat_app. cbn. by rewrite app_nil_r. Qed.

(** The end of an execution answers exactly its tasks. *)
Lemma finishExecution_answers i e err s :
  session_ok s → sn_executions s !! i = Some e →
  answered (finishExecution i e err s) = answered s ++ taskIDs e ∧
  sn_executions (finishExecution i e err s) = delete i (sn_executions s) ∧
  sn_next (finishExecution i e err s) = sn_next s.
Proof.
  intros Hok He. unfold finishExecution. destruct (ex_batch e) eqn:Hb.
  - unfold finishBatch. rewrite answered_send. split; [|done]. unfold answered. cbn. f_equal.
    unfold taskIDs. rewrite <- list_fmap_compose. apply list_fmap_ext. intros k task _. cbn.
    by destruct (batchMemberResult _ _ _).
  - pose proof (so_single _ Hok _ _ He Hb) as Hlen. unfold taskIDs.
    destruct (ex_tasks e) as [|task [|? ?]]; [done| |done]. unfold finish. rewrite answered_send. done.
Qed.

(** ** What an interruption leaves alone *)

Definition shape (e : execution) : bool * list string * bool := (ex_batch e, taskIDs e, ex_running e).

Lemma interrupt_shape cause e : shape (interrupt cause e) = shape e.
Proof. unfold interrupt. by destruct (ex_cause e). Qed.

Lemma shape_live m m' : shape <$> m = shape <$> m' → live m = live m'.
Proof.
  intros Hs. apply live_same.
  assert (∀ k : gmap nat execution, taskIDs <$> k = (λ p : bool * list string * bool, p.1.2) <$> (shape <$> k)) as Hk.
  { intros k. by rewrite <- map_fmap_compose. }
  by rewrite !Hk, Hs.
Qed.

Lemma shape_slots m m' :
  shape <$> m = shape <$> m' →
  size (filter (λ p : nat * execution, ex_running p.2 = true) m) =
  size (filter (λ p : nat * execution, ex_running p.2 = true) m').
Proof.
  intros Hs.
  assert (∀ k : gmap nat execution, size (filter (λ p : nat * execution, ex_running p.2 = true) k) =
    size (filter (λ p : nat * (bool * list string * bool), p.2.2 = true) (shape <$> k))) as Hk.
  { intros k. by rewrite map_filter_fmap, map_size_fmap. }
  by rewrite !Hk, Hs.
Qed.

Lemma shape_lookup m m' i e :
  shape <$> m = shape <$> m' → m !! i = Some e → ∃ e', m' !! i = Some e' ∧ shape e' = shape e.
Proof.
  intros Hs He. assert ((shape <$> m') !! i = Some (shape e)) as Hl by (by rewrite <- Hs, lookup_fmap, He).
  rewrite lookup_fmap in Hl. destruct (m' !! i) as [e'|]; [|done]. exists e'. exact (conj eq_refl (inj Some _ _ Hl)).
Qed.

Lemma alter_shape cause i m : shape <$> alter (interrupt cause) i m = shape <$> m.
Proof.
  apply map_eq. intros k. rewrite !lookup_fmap. destruct (decide (i = k)) as [->|Hk].
  - rewrite lookup_alter_eq. destruct (m !! k); [|done]. cbn. by rewrite interrupt_shape.
  - by rewrite lookup_alter_ne.
Qed.

Lemma insert_shape m i e e' : m !! i = Some e → shape e' = shape e → shape <$> <[i := e']> m = shape <$> m.
Proof. intros Hi He. rewrite fmap_insert, He. apply insert_id. by rewrite lookup_fmap, Hi. Qed.

Lemma cancelAll_shape s : shape <$> sn_executions (cancelAll s) = shape <$> sn_executions s.
Proof.
  apply map_eq. intros k. unfold cancelAll. cbn. rewrite !lookup_fmap, map_lookup_imap.
  destruct (sn_executions s !! k) as [e|]; [|done]. cbn. case_decide; [|done]. by rewrite interrupt_shape.
Qed.

(** ** One turn *)

(** Where the executions and the answers stand after a turn: interrupted or
    reported on only, joined by one, or short of one that was answered. *)
Inductive moved (ids : list string) (s s' : workerSession) : Prop :=
  | MovedNone : ids = [] → sn_next s' = sn_next s → answered s' = answered s → sn_cancels s' = sn_cancels s →
      shape <$> sn_executions s' = shape <$> sn_executions s → moved ids s s'
  | MovedStart i e e' : ids = [] → sn_next s' = sn_next s → answered s' = answered s →
      sn_cancels s' = sn_cancels s → sn_executions s !! i = Some e → ex_batch e' = ex_batch e →
      taskIDs e' = taskIDs e → slotsInUse s < concurrency →
      sn_executions s' = <[i := e']> (sn_executions s) → moved ids s s'
  | MovedSpawn e : ids = taskIDs e → sn_next s' = S (sn_next s) → answered s' = answered s →
      (ex_batch e = false → length (ex_tasks e) = 1%nat) → taskIDs e ≠ [] → ex_running e = false →
      sn_cancels s' = foldl (λ cancels id, <[id := sn_next s]> cancels) (sn_cancels s) (taskIDs e) →
      sn_executions s' = <[sn_next s := e]> (sn_executions s) → moved ids s s'
  | MovedFinish i e : ids = [] → sn_next s' = sn_next s → sn_executions s !! i = Some e →
      answered s' = answered s ++ taskIDs e →
      sn_cancels s' = foldl (λ cancels id, delete id cancels) (sn_cancels s) (taskIDs e) →
      sn_executions s' = delete i (sn_executions s) → moved ids s s'.

Lemma foldl_fmap {A B C} (f : C → B → C) (g : A → B) (l : list A) c :
  foldl f c (g <$> l) = foldl (λ c x, f c (g x)) c l.
Proof. revert c. induction l as [|x l IH]; intros c; [done|]. apply IH. Qed.

Lemma spawn_moved batch tasks s :
  (batch = false → length tasks = 1%nat) → tasks ≠ [] → moved (env_Id <$> tasks) s (spawn batch tasks s).
Proof.
  intros Hl Hne. apply MovedSpawn with (mkExecution batch tasks false None None); try done.
  - by destruct tasks.
  - unfold taskIDs. by rewrite foldl_fmap.
Qed.

Lemma finishExecution_moved i e err s :
  session_ok s → sn_executions s !! i = Some e → moved [] s (finishExecution i e err s).
Proof.
  intros Hok He. destruct (finishExecution_answers i e err s Hok He) as (Ha & Hx & Hn).
  apply MovedFinish with i e; try done. unfold finishExecution, taskIDs. rewrite foldl_fmap.
  destruct (ex_batch e) eqn:Hb; [done|]. pose proof (so_single _ Hok _ _ He Hb) as Hlen.
  by destruct (ex_tasks e) as [|task [|? ?]].
Qed.

Lemma report_moved i percent message e s :
  sn_executions s !! i = Some e → moved [] s (report i percent message e s).
Proof.
  intros He. unfold report. case_decide; [by apply MovedNone|].
  destruct (ex_tasks e) as [|task tasks]; apply MovedNone; try done; try by apply insert_shape with e.
  rewrite answered_send. apply app_nil_r.
Qed.

Lemma turn_moved event s s' : session_ok s → turn event s = Some s' → moved (delivers event) s s'.
Proof.
  intros Hok. destruct event as [message|i|i|i|i err|i percent message| |]; cbn.
  - intros [= <-]. destruct message as [task d|tasks d max|id]; cbn.
    + by apply (spawn_moved false [task]).
    + unfold sdk_dispatchBatch. case_decide as Hl.
      * destruct tasks; [|done]. by apply MovedNone.
      * apply spawn_moved; [done|]. by intros ->.
    + unfold sdk_cancel. case_match; apply MovedNone; try done. apply alter_shape.
  - destruct (sn_executions s !! i) as [e|] eqn:He; [|done]. intros [= <-].
    apply MovedNone; try done. cbn. apply insert_shape with e; [done|]. apply interrupt_shape.
  - destruct (sn_executions s !! i) as [e|] eqn:He; [|done]. cbn. destruct (ex_cause e); [|done].
    destruct (ex_running e); [done|]. intros [= <-]. by apply finishExecution_moved.
  - destruct (sn_executions s !! i) as [e|] eqn:He; [|done]. cbn.
    destruct (ex_running e) eqn:Hr; [done|]. destruct (Z.leb_spec concurrency (slotsInUse s)); [done|].
    destruct (prepare singleton mux encryptor e) as [err|tasks] eqn:Hp; intros [= <-].
    + by apply finishExecution_moved.
    + apply MovedStart with i e (e <| ex_running := true |> <| ex_tasks := tasks |>); try done.
      exact (prepare_ids e tasks Hp).
  - destruct (sn_executions s !! i) as [e|] eqn:He; [|done]. cbn. destruct (ex_running e); [|done].
    intros [= <-]. by apply finishExecution_moved.
  - destruct (sn_executions s !! i) as [e|] eqn:He; [|done]. cbn. destruct (_ && _); [|done].
    intros [= <-]. by apply report_moved.
  - intros [= <-]. apply MovedNone; try done. rewrite answered_send. apply app_nil_r.
  - intros [= <-]. apply MovedNone; try done. apply cancelAll_shape.
Qed.

(** ** What every run keeps *)

Lemma moved_ok ids s s' : session_ok s → moved ids s s' → session_ok s'.
Proof.
  intros [Hfresh Hsingle Hsome] Hm.
  assert (∀ e, length (taskIDs e) = length (ex_tasks e)) as Hlen by (intros e; apply length_fmap).
  destruct Hm as [-> Hn _ _ Hs|i e e' -> Hn _ _ He Hb Ht _ Hx|e -> Hn _ Hb Hne _ _ Hx|i e -> Hn He _ _ Hx].
  - split; intros i.
    + rewrite Hn. intros Hi%Hfresh. apply (f_equal (lookup i)) in Hs.
      rewrite !lookup_fmap, Hi in Hs. by destruct (sn_executions s' !! i).
    + intros e He Hb. destruct (shape_lookup _ _ i e Hs He) as (e0 & He0 & [= Hb0 Ht _]).
      rewrite <- Hlen, <- Ht, Hlen. apply (Hsingle i); [done|congruence].
    + intros e He. destruct (shape_lookup _ _ i e Hs He) as (e0 & He0 & [= _ Ht _]).
      rewrite <- Ht. by apply (Hsome i).
  - split; intros k; rewrite ?Hx, ?Hn.
    + intros Hk%Hfresh. rewrite lookup_insert_ne by congruence. done.
    + intros e0. destruct (decide (i = k)) as [->|Hik]; [rewrite lookup_insert_eq|rewrite lookup_insert_ne by done].
      * intros [= <-] Hb'. rewrite <- Hlen, Ht, Hlen. apply (Hsingle k); [done|congruence].
      * apply Hsingle.
    + intros e0 [[<- <-]|[_ He0]]%lookup_insert_Some; [rewrite Ht; by apply (Hsome i)|by apply (Hsome k)].
  - split; intros k; rewrite ?Hx, ?Hn.
    + intros Hk. rewrite lookup_insert_ne by lia. apply Hfresh. lia.
    + intros e0. destruct (decide (sn_next s = k)) as [<-|Hik]; [rewrite lookup_insert_eq|rewrite lookup_insert_ne by done].
      * by intros [= <-].
      * apply Hsingle.
    + intros e0 [[<- <-]|[_ He0]]%lookup_insert_Some; [done|by apply (Hsome k)].
  - split; intros k; rewrite ?Hx, ?Hn.
    + intros Hk%Hfresh. by rewrite lookup_delete_None; right.
    + intros e0 [_ He0]%lookup_delete_Some. by apply (Hsingle k).
    + intros e0 [_ He0]%lookup_delete_Some. by apply (Hsome k).
Qed.

Lemma moved_deliveries ids s s' :
  session_ok s → moved ids s s' →
  answered s' ++ live (sn_executions s') ≡ₚ answered s ++ live (sn_executions s) ++ ids.
Proof.
  intros [Hfresh _ _] [-> _ -> _ Hs|i e e' -> _ -> _ He _ Ht _ ->|e -> _ -> _ _ _ _ ->|i e -> _ He -> _ ->];
    rewrite ?app_nil_r.
  - by rewrite (shape_live _ _ Hs).
  - by rewrite (live_update _ _ e).
  - rewrite live_insert by (apply Hfresh; lia). by rewrite (Permutation_app_comm (live _)).
  - rewrite <- app_assoc, <- live_delete; done.
Qed.

Lemma slots_insert m i e : (size (filter (λ p : nat * execution, ex_running p.2 = true) (<[i := e]> m)) <=
  size (filter (λ p : nat * execution, ex_running p.2 = true) m) + if ex_running e then 1 else 0)%nat.
Proof.
  rewrite map_filter_insert. cbn. destruct (ex_running e).
  - rewrite decide_True by done. rewrite map_size_insert. case_match; unfold id; lia.
  - rewrite decide_False by done. rewrite Nat.add_0_r. apply map_subseteq_size.
    apply map_filter_strong_subseteq_ext. intros k x [? [_ ?]%lookup_delete_Some]. done.
Qed.

Lemma moved_slots ids s s' : moved ids s s' → slotsInUse s <= concurrency → slotsInUse s' <= concurrency.
Proof.
  unfold slotsInUse.
  intros [-> _ _ _ Hs|i e e' -> _ _ _ _ _ _ Hc ->|e -> _ _ _ _ Hr _ ->|i e -> _ _ _ _ ->] Hle.
  - by rewrite (shape_slots _ _ Hs).
  - pose proof (slots_insert (sn_executions s) i e'). unfold slotsInUse in Hc. destruct (ex_running e'); lia.
  - pose proof (slots_insert (sn_executions s) (sn_next s) e) as Hi. rewrite Hr in Hi. lia.
  - etrans; [|exact Hle]. apply inj_le, map_subseteq_size.
    apply map_filter_strong_subseteq_ext. intros k x [? [_ ?]%lookup_delete_Some]. done.
Qed.

(** Every live task is tracked under the execution that holds it. *)
Definition tracked (s : workerSession) : Prop :=
  ∀ i e id, sn_executions s !! i = Some e → id ∈ taskIDs e → sn_cancels s !! id = Some i.

Lemma elem_of_live m id : id ∈ live m ↔ ∃ i e, m !! i = Some e ∧ id ∈ taskIDs e.
Proof.
  unfold live. rewrite list_elem_of_In, in_concat. split.
  - intros (l & Hl & Hid). apply list_elem_of_In, list_elem_of_fmap in Hl as ([i l'] & -> & Hl).
    apply elem_of_map_to_list in Hl. rewrite lookup_fmap in Hl. destruct (m !! i) as [e|] eqn:He; [|done].
    injection Hl as <-. exists i, e. by rewrite list_elem_of_In.
  - intros (i & e & He & Hid). exists (taskIDs e). rewrite <- !list_elem_of_In. split; [|done].
    apply list_elem_of_fmap. exists (i, taskIDs e). split; [done|]. apply elem_of_map_to_list.
    by rewrite lookup_fmap, He.
Qed.

Lemma lookup_foldl_insert (n : nat) ids (c : gmap string nat) id :
  foldl (λ cancels id, <[id := n]> cancels) c ids !! id = if decide (id ∈ ids) then Some n else c !! id.
Proof.
  revert c. induction ids as [|x ids IH]; intros c; cbn; [by rewrite decide_False by set_solver|].
  rewrite IH. destruct (decide (id = x)) as [->|Hx].
  - rewrite lookup_insert_eq, (decide_True (P:=x ∈ x :: ids)) by set_solver. by case_decide.
  - rewrite lookup_insert_ne by done. apply decide_ext. set_solver.
Qed.

Lemma lookup_foldl_delete ids (c : gmap string nat) id :
  foldl (λ cancels id, delete id cancels) c ids !! id = if decide (id ∈ ids) then None else c !! id.
Proof.
  revert c. induction ids as [|x ids IH]; intros c; cbn; [by rewrite decide_False by set_solver|].
  rewrite IH. destruct (decide (id = x)) as [->|Hx].
  - rewrite lookup_delete_eq, (decide_True (P:=x ∈ x :: ids)) by set_solver. by case_decide.
  - rewrite lookup_delete_ne by done. apply decide_ext. set_solver.
Qed.

Lemma moved_tracked ids s s' :
  session_ok s → moved ids s s' → (∀ id, id ∈ ids → id ∉ live (sn_executions s)) → tracked s → tracked s'.
Proof.
  intros [Hfresh _ _] Hm Hnew Ht i0 e0 id He0 Hid.
  destruct Hm as [-> _ _ Hc Hs|i e e' -> _ _ Hc He _ Hti _ Hx|e -> _ _ _ _ _ Hc Hx|i e -> _ He _ Hc Hx];
    rewrite Hc; rewrite ?Hx in He0.
  - destruct (shape_lookup _ _ _ _ Hs He0) as (e1 & He1 & [= _ Hs1 _]). apply (Ht _ _ _ He1). by rewrite Hs1.
  - destruct (decide (i = i0)) as [->|Hi].
    + rewrite lookup_insert_eq in He0. injection He0 as <-. apply (Ht _ _ _ He). by rewrite <- Hti.
    + rewrite lookup_insert_ne in He0 by done. by apply (Ht _ _ _ He0).
  - rewrite lookup_foldl_insert. destruct (decide (sn_next s = i0)) as [<-|Hi].
    + rewrite lookup_insert_eq in He0. injection He0 as <-. by rewrite decide_True.
    + rewrite lookup_insert_ne in He0 by done. rewrite decide_False; [by apply (Ht _ _ _ He0)|].
      intros Hin. apply (Hnew _ Hin), elem_of_live. by exists i0, e0.
  - apply lookup_delete_Some in He0 as [Hi He0]. pose proof (Ht _ _ _ He0 Hid) as Hl.
    rewrite lookup_foldl_delete, decide_False; [done|].
    intros Hin. pose proof (Ht _ _ _ He Hin). congruence.
Qed.

(** ** Runs *)

Definition delivered (events : list sdkEvent) : list string := concat (delivers <$> events).

Lemma run_snoc events event s : run (events ++ [event]) s = default (run events s) (turn event (run events s)).
Proof. unfold sdk_run. by rewrite foldl_app. Qed.

Lemma delivered_snoc events event : delivered (events ++ [event]) = delivered events ++ delivers event.
Proof. unfold delivered. rewrite fmap_app, concat_app. cbn. by rewrite app_nil_r. Qed.

(** A turn that is skipped delivers nothing. *)
Lemma run_moved events event s :
  session_ok (run events s) → moved (delivers event) (run events s) (run (events ++ [event]) s).
Proof.
  intros Hok. rewrite run_snoc. destruct (turn event (run events s)) as [s'|] eqn:Ht; cbn.
  - by apply turn_moved.
  - destruct event; by apply MovedNone.
Qed.

Lemma run_invariant events :
  0 <= concurrency →
  let s := run events newSession in
  session_ok s ∧ answered s ++ live (sn_executions s) ≡ₚ delivered events ∧
  slotsInUse s <= concurrency ∧ (NoDup (delivered events) → tracked s).
Proof.
  intros Hc. induction events as [|event events (Hok & Hp & Hs & Ht)] using rev_ind; cbn zeta.
  - by repeat split.
  - pose proof (run_moved events event newSession Hok) as Hm. rewrite delivered_snoc. split_and!.
    + by eapply moved_ok.
    + rewrite (moved_deliveries _ _ _ Hok Hm). by rewrite app_assoc, Hp.
    + by eapply moved_slots.
    + intros (Hd & Hnew & _)%NoDup_app. apply (moved_tracked _ _ _ Hok Hm); [|by apply Ht].
      intros id Hid Hl. apply (Hnew id); [|done]. rewrite <- Hp. apply elem_of_app. by right.
Qed.

(** ** Draining *)

(** The turns in which the executions of a drained session end: one that waits
    gives up, a handler that runs returns. *)
Definition ending (returns : nat → option handlerError) (p : nat * execution) : sdkEvent :=
  if ex_running p.2 then EvReturn p.1 (returns p.1) else EvAbandon p.1.

Lemma cancelAll_interrupts s i e :
  session_ok s → tracked s → sn_executions (cancelAll s) !! i = Some e → is_Some (ex_cause e).
Proof.
  intros Hok Ht. unfold cancelAll. cbn. rewrite map_lookup_imap.
  destruct (sn_executions s !! i) as [e0|] eqn:He; [|done]. cbn. pose proof (so_some _ Hok _ _ He) as Hne.
  destruct (taskIDs e0) as [|id ids] eqn:Hids; [done|].
  rewrite decide_True; [|exists id, i; split; [|done]; apply (Ht _ _ _ He); rewrite Hids; by left].
  intros [= <-]. unfold interrupt. destruct (ex_cause e0) eqn:Hcs; [by rewrite Hcs|done].
Qed.

Lemma ending_turn returns i e s :
  sn_executions s !! i = Some e → is_Some (ex_cause e) →
  ∃ err, turn (ending returns (i, e)) s = Some (finishExecution i e err s).
Proof.
  intros He [cause Hcs]. unfold ending. cbn. destruct (ex_running e) eqn:Hr; cbn; rewrite He; cbn; rewrite Hr.
  - by eexists.
  - rewrite Hcs. by eexists.
Qed.

Lemma endings_settle returns l s :
  session_ok s → NoDup l.*1 → sn_executions s = list_to_map l →
  (∀ i e, sn_executions s !! i = Some e → is_Some (ex_cause e)) →
  sn_executions (run (ending returns <$> l) s) = ∅ ∧
  answered (run (ending returns <$> l) s) ≡ₚ answered s ++ live (sn_executions s).
Proof.
  revert s. induction l as [|[i e] l IH]; intros s Hok Hnd Hx Hcs; cbn in Hx.
  - unfold live. rewrite Hx, fmap_empty, map_to_list_empty. cbn. by rewrite app_nil_r.
  - apply NoDup_cons in Hnd as [Hi Hnd]. cbn in Hi.
    assert (sn_executions s !! i = Some e) as He by (by rewrite Hx, lookup_insert_eq).
    destruct (ending_turn returns i e s He (Hcs _ _ He)) as [err Ht].
    pose proof (finishExecution_moved i e err s Hok He) as Hm.
    destruct (finishExecution_answers i e err s Hok He) as (Ha & Hx' & _).
    change (run (ending returns <$> (i, e) :: l) s)
      with (run (ending returns <$> l) (default s (turn (ending returns (i, e)) s))).
    rewrite Ht. cbn [default]. destruct (IH (finishExecution i e err s)) as [Hend Hans].
    + by eapply moved_ok.
    + done.
    + rewrite Hx', Hx, delete_insert_id; [done|]. by apply not_elem_of_list_to_map_1.
    + rewrite Hx'. intros k e0 [_ Hk]%lookup_delete_Some. by apply (Hcs k).
    + split; [done|]. rewrite Hans, Ha, Hx', <- app_assoc, <- live_delete; done.
Qed.

(** ** The frames a run sends *)

Lemma outcomeFor_defined cause err : outcomeFor cause err ≠ TASK_OUTCOME_UNSPECIFIED.
Proof. unfold outcomeFor. repeat case_match; done. Qed.

Lemma batchMemberResult_defined cause id err : (batchMemberResult cause id err).1 ≠ TASK_OUTCOME_UNSPECIFIED.
Proof. unfold batchMemberResult, errorOutcome. repeat case_match; done. Qed.

Lemma result_ok_intro id outcome text data :
  id ≠ "" → outcome ≠ TASK_OUTCOME_UNSPECIFIED → result_ok (mkResult id outcome text data) = true.
Proof. intros Hid Ho. unfold result_ok. cbn. by rewrite !bool_decide_false. Qed.

(** Frames added to the stream, each of the protocol. *)
Definition sends (c : Z) (s s' : workerSession) : Prop :=
  ∃ frames, sn_sent s' = sn_sent s ++ frames ∧ forallb (frame_ok c) frames = true.

Lemma sends_none c s s' : sn_sent s' = sn_sent s → sends c s s'.
Proof. intros Hs. exists []. by rewrite app_nil_r. Qed.

Lemma sends_one c frame s s' : sn_sent s' = sn_sent s ++ [frame] → frame_ok c frame = true → sends c s s'.
Proof. intros Hs Hf. exists [frame]. cbn. by rewrite Hf. Qed.

Lemma finishExecution_sends c i e err s :
  (∀ id, id ∈ taskIDs e → id ≠ "") → sends c s (finishExecution i e err s).
Proof.
  intros Hids. unfold finishExecution. destruct (ex_batch e).
  - eapply sends_one; [done|]. cbn. apply forallb_forall. intros r (task & <- & Ht)%in_map_iff.
    destruct (batchMemberResult _ _ _) as [outcome text] eqn:Hb. apply result_ok_intro.
    + apply Hids. unfold taskIDs. apply list_elem_of_fmap. exists task. by rewrite list_elem_of_In.
    + pose proof (batchMemberResult_defined (ex_cause e) (env_Id task) err) as Hd. by rewrite Hb in Hd.
  - destruct (ex_tasks e) as [|task tasks] eqn:Ht; [by apply sends_none|].
    eapply sends_one; [done|]. cbn. apply result_ok_intro; [|apply outcomeFor_defined].
    apply Hids. unfold taskIDs. rewrite Ht. by left.
Qed.

Lemma report_sends c i percent message e s :
  (∀ id, id ∈ taskIDs e → id ≠ "") → sends c s (report i percent message e s).
Proof.
  intros Hids. unfold report. case_decide; [by apply sends_none|].
  destruct (ex_tasks e) as [|task tasks] eqn:Ht; [by apply sends_none|].
  eapply sends_one; [done|]. cbn. rewrite bool_decide_false; [done|].
  apply Hids. unfold taskIDs. rewrite Ht. by left.
Qed.

Lemma turn_sends c event s s' :
  (∀ id, id ∈ live (sn_executions s) → id ≠ "") → turn event s = Some s' → sends c s s'.
Proof.
  intros Hlive.
  assert (∀ i e, sn_executions s !! i = Some e → ∀ id, id ∈ taskIDs e → id ≠ "") as Hids.
  { intros i e He id Hid. apply Hlive, elem_of_live. by exists i, e. }
  destruct event as [message|i|i|i|i err|i percent message| |]; cbn.
  - intros [= <-]. apply sends_none. destruct message; cbn; [done| |].
    + unfold sdk_dispatchBatch. by case_decide.
    + unfold sdk_cancel. by case_match.
  - destruct (sn_executions s !! i) as [e|] eqn:He; [|done]. intros [= <-]. by apply sends_none.
  - destruct (sn_executions s !! i) as [e|] eqn:He; [|done]. cbn. destruct (ex_cause e); [|done].
    destruct (ex_running e); [done|]. intros [= <-]. by apply finishExecution_sends, (Hids i).
  - destruct (sn_executions s !! i) as [e|] eqn:He; [|done]. cbn. destruct (_ || _); [done|].
    destruct (prepare singleton mux encryptor e) as [err|tasks]; intros [= <-]; [|by apply sends_none].
    by apply finishExecution_sends, (Hids i).
  - destruct (sn_executions s !! i) as [e|] eqn:He; [|done]. cbn. destruct (ex_running e); [|done].
    intros [= <-]. by apply finishExecution_sends, (Hids i).
  - destruct (sn_executions s !! i) as [e|] eqn:He; [|done]. cbn. destruct (_ && _); [|done].
    intros [= <-]. by apply report_sends, (Hids i).
  - intros [= <-]. by eapply sends_one.
  - intros [= <-]. by apply sends_none.
Qed.

Lemma run_frames_ok c events :
  0 <= concurrency → (∀ id, id ∈ delivered events → id ≠ "") →
  forallb (frame_ok c) (sn_sent (run events newSession)) = true.
Proof.
  intros Hc. induction events as [|event events IH] using rev_ind; [done|].
  rewrite delivered_snoc, run_snoc. intros Hids.
  assert (∀ id, id ∈ delivered events → id ≠ "") as Hold by (intros id Hid; apply Hids; set_solver).
  destruct (run_invariant events Hc) as (_ & Hp & _ & _).
  destruct (turn event (run events newSession)) as [s'|] eqn:Ht; cbn; [|by apply IH].
  destruct (turn_sends c event (run events newSession) s') as (frames & -> & Hf); [|done|].
  - intros id Hid. apply Hold. rewrite <- Hp. apply elem_of_app. by right.
  - rewrite forallb_app, Hf, IH by done. done.
Qed.

(** C34: the worker settles what it is given. At any point of a session the
    tasks it reported a result for and the tasks of its live executions are
    together exactly the tasks the server delivered, and no more handlers run
    than its concurrency. When no task is delivered twice, the next heartbeat
    names every unfinished task, and once the stream ended the session drains:
    when the executions that wait for a slot give up and the handlers that run
    return, whatever they return, nothing is left and every delivery has been
    answered exactly once. *)
Theorem sdk_settles_deliveries (events : list sdkEvent) (returns : nat → option handlerError) :
  0 <= concurrency →
  let s := run events newSession in
  let drained := cancelAll s in
  let settled := run (ending returns <$> map_to_list (sn_executions drained)) drained in
  answered s ++ live (sn_executions s) ≡ₚ delivered events ∧
  slotsInUse s <= concurrency ∧
  (NoDup (delivered events) →
   (∀ id, id ∈ live (sn_executions s) → id ∈ activeTaskIDs s) ∧
   sn_executions settled = ∅ ∧ answered settled ≡ₚ delivered events).
Proof.
  intros Hc s drained settled. destruct (run_invariant events Hc) as (Hok & Hp & Hs & Ht).
  split_and!; [done..|]. intros Hnd. specialize (Ht Hnd). split.
  - intros id (i & e & He & Hid)%elem_of_live. unfold activeTaskIDs. apply elem_of_range_keys, elem_of_dom.
    exists i. by apply (Ht _ e).
  - assert (moved [] s drained) as Hm by (apply MovedNone; try done; apply cancelAll_shape).
    destruct (endings_settle returns (map_to_list (sn_executions drained)) drained) as [Hend Hans].
    + by eapply moved_ok.
    + apply NoDup_fst_map_to_list.
    + by rewrite list_to_map_to_list.
    + intros i e. by apply cancelAll_interrupts.
    + split; [done|]. etrans; [exact Hans|]. rewrite (moved_deliveries _ _ _ Hok Hm), app_nil_r. exact Hp.
Qed.
End Worker.

(** ** The opening *)

Section Opening.
Context {MR : MapRange}.

Lemma checkQueues_ok l : checkQueues l = None → Forall (λ p, p.1 ≠ "" ∧ 0 < p.2) l.
Proof.
  induction l as [|[name weight] l IH]; [done|]. cbn. case_decide; [done|].
  destruct (Z.leb_spec weight 0); [done|]. intros Hl. constructor; [done|by apply IH].
Qed.

Lemma NewWorker_ok baseURL queues concurrency minServerVersion w :
  NewWorker baseURL queues concurrency minServerVersion = inr w →
  w = mkWorker queues concurrency minServerVersion ∧ queues ≠ ∅ ∧ 0 < concurrency ∧
  ∀ q weight, queues !! q = Some weight → 0 < weight.
Proof.
  unfold NewWorker. case_decide; [done|]. case_decide as Hs; [done|].
  destruct (checkQueues (range_map queues)) eqn:Hq; [done|].
  destruct (Z.leb_spec concurrency 0); [done|]. intros [= <-]. split_and!; [done| |done|].
  - intros ->. by apply Hs.
  - intros q weight Hl. apply checkQueues_ok in Hq. rewrite Forall_forall in Hq.
    by apply (Hq (q, weight)), elem_of_range_map.
Qed.

(** The server supports the worker's version and the worker the server's. *)
Definition compatible {SV : Semver} (sdkVersion required : string) : Prop :=
  (semver_IsValid sdkVersion = true → 0 <= semver_Compare sdkVersion minSDKVersion) ∧
  (semver_IsValid required = true → semver_IsValid serverVersion = true →
   0 <= semver_Compare serverVersion required).

Lemma validateQueues_intro l :
  Forall (λ p, queueNamePattern p.1 = true ∧ 0 < p.2) l → validateQueues l = None.
Proof. apply validateQueues_ok. Qed.

Lemma helloOf_valid {SV : Semver} sdkVersion types w :
  compatible sdkVersion (wr_minServerVersion w) →
  0 < wr_concurrency w < 2 ^ 31 → wr_queues w ≠ ∅ →
  (∀ q weight, wr_queues w !! q = Some weight → queueNamePattern q = true ∧ 0 < weight < 2 ^ 31) →
  validateHello (helloOf sdkVersion types w) = None ∧
  he_Concurrency (helloOf sdkVersion types w) = wr_concurrency w.
Proof.
  intros [Hv Hr] Hc Hne Hq.
  assert (he_Concurrency (helloOf sdkVersion types w) = wr_concurrency w) as Hcc.
  { apply wrap32_id. unfold int32_range. lia. }
  split; [|done]. unfold validateHello. rewrite Hcc. cbn [he_SdkVersion he_MinServerVersion he_Queues helloOf].
  destruct (semver_IsValid sdkVersion); cbn [andb];
    [rewrite (proj2 (Z.ltb_ge _ 0)) by (by apply Hv)|].
  all: destruct (semver_IsValid (wr_minServerVersion w)), (semver_IsValid serverVersion); cbn [andb];
    try rewrite (proj2 (Z.ltb_ge _ 0)) by (by apply Hr).
  all: rewrite (proj2 (Z.leb_gt _ 0)) by lia; rewrite map_size_fmap;
    (rewrite decide_False; [|by intros Hs%map_size_empty_inv]); apply validateQueues_intro, Forall_forall.
  all: intros [q weight] Hl; apply elem_of_range_map in Hl; rewrite lookup_fmap in Hl;
    destruct (wr_queues w !! q) as [weight0|] eqn:Hw; [|done]; injection Hl as <-;
    destruct (Hq _ _ Hw); rewrite wrap32_id by (unfold int32_range; lia); cbn; split; [done|lia].
Qed.
End Opening.

Lemma admitted_all c frames : forallb (frame_ok c) frames = true → admitted c frames = frames.
Proof.
  induction frames as [|m frames IH]; [done|]. cbn. intros [-> Hf]%andb_true_iff. by rewrite IH.
Qed.

Lemma forward_all c frames :
  forallb (frame_ok c) frames = true → length (omap forward frames) = length frames.
Proof.
  induction frames as [|m frames IH]; [done|]. cbn. intros [Hm Hf]%andb_true_iff.
  destruct m; try done; cbn; by rewrite IH.
Qed.

(** C33: the Go worker and the server agree on the protocol. Take a worker that
    [NewWorker] accepts, whose queues have names of the server's grammar, whose
    weights and concurrency fit the wire's 32 bits, and whose version and the
    server's suit each other. Then the server accepts its Hello, starts a gateway
    with the worker's own concurrency, and hands that gateway every frame the
    worker sends in the session, in order, whatever the server delivers, the
    handlers return and however their goroutines interleave, provided delivered
    tasks have ids; the session ends as an ordinary one. *)
Theorem sdk_speaks_protocol {MR : MapRange} {SV : Semver} {E : Type} `{Encryptor E} {HF BH : Type}
    (singleton : BH → HF) (mux : Mux HF BH) (encryptor : option E) baseURL queues concurrency minServerVersion
    sdkVersion w events world :
  NewWorker baseURL queues concurrency minServerVersion = inr w →
  (∀ q weight, queues !! q = Some weight → queueNamePattern q = true ∧ weight < 2 ^ 31) →
  concurrency < 2 ^ 31 →
  compatible sdkVersion minServerVersion →
  (∀ id, id ∈ delivered events → id ≠ "") →
  sw_draining world = false → sw_welcomeSent world = true → sw_spawned world = true →
  let hello := helloOf sdkVersion (batchTypes mux) w in
  let sent := sn_sent (sdk_run singleton mux encryptor concurrency events newSession) in
  Session world (FrameHello hello) (deliveredThenClosed sent) =
    ([Registered (helloSnapshot world hello); SentWelcome (welcome world);
      SpawnedGateway (helloSession world hello)] ++
     (Forwarded <$> omap forward sent) ++ [StoppedGateway; ClosedSender; Unregistered (sw_id world)],
     Some EndedNil) ∧
  ses_Concurrency (helloSession world hello) = concurrency ∧
  length (omap forward sent) = length sent.
Proof.
  intros Hw Hq Hc Hv Hids Hd Hws Hsp hello sent.
  destruct (NewWorker_ok _ _ _ _ _ Hw) as (-> & Hne & Hpos & Hweights).
  destruct (helloOf_valid sdkVersion (batchTypes mux) (mkWorker queues concurrency minServerVersion))
    as [Hval Hcon]; [done|done|done| |].
  { intros q weight Hl. destruct (Hq q weight Hl). specialize (Hweights q weight Hl). split; [done|lia]. }
  fold hello in Hval, Hcon.
  assert (forallb (frame_ok (he_Concurrency hello)) sent = true) as Hf by (apply run_frames_ok; [lia|done]).
  split_and!; [|exact Hcon|by eapply forward_all].
  unfold Session. cbn [check ss_helloSeen newSessionState]. rewrite Hval, Hd, Hws, Hsp. cbn [negb].
  rewrite sessionLoop_frames, Hf, (admitted_all _ _ Hf). done.
Qed.

(** ** An instance *)

(** A worker with one handler, without payload encryption. *)
Definition no_Encryptor : Encryptor unit := {| Encrypt := λ _ _ payload, inr payload; Decrypt := λ _, inr |}.

Definition sample_mux : Mux unit unit := mkMux {["mail" := ()]} {["bulk" := ()]} [] [].

Definition sample_task (id taskType : string) : TaskEnvelope :=
  mkTaskEnvelope id "default" taskType [] "" ∅ None 0 "" None None None 0 "".

(** Two tasks and a batch of two on one slot: the first is answered, the second
    has no handler, the batch still waits. *)
Definition sample_events : list sdkEvent :=
  [EvFrame (FDispatch (sample_task "a" "mail") 9); EvFrame (FDispatch (sample_task "b" "fax") 9);
   EvFrame (FBatchDispatch [sample_task "c" "bulk"; sample_task "d" "bulk"] 9 ""); EvStart 0; EvStart 1; EvHeartbeat;
   EvProgress 0 250 "half"; EvReturn 0 None; EvStart 1; EvHeartbeat].

Lemma sdk_settles_deliveries_witness :
  let s := sdk_run (MR := elements_range) (H := no_Encryptor) (λ _, ()) sample_mux None 1 sample_events newSession in
  answered s = ["a"; "b"] ∧ live (sn_executions s) = ["c"; "d"] ∧
  answered s ++ live (sn_executions s) ≡ₚ delivered sample_events ∧ slotsInUse s <= 1 ∧
  "c" ∈ activeTaskIDs (MR := elements_range) s.
Proof.
  intros s. split; [vm_compute; reflexivity|]. split; [vm_compute; reflexivity|].
  destruct (sdk_settles_deliveries (MR := elements_range) (H := no_Encryptor) (λ _, ()) sample_mux None 1
    sample_events (λ _, None) ltac:(lia)) as (Hp & Hs & Hr).
  split; [exact Hp|]. split; [exact Hs|]. destruct Hr as [Hh _]; [by apply (bool_decide_unpack _); vm_compute|].
  apply Hh. apply (bool_decide_unpack _). vm_compute. reflexivity.
Defined.

Lemma sdk_speaks_protocol_witness :
  let queues : gmap string Z := {["default" := 3]} in
  let w := mkWorker queues 1 "" in
  let sent := sn_sent (sdk_run (MR := elements_range) (H := no_Encryptor) (λ _, ()) sample_mux None 1
                         sample_events newSession) in
  length sent = 5%nat ∧
  (Session (MR := elements_range) (SV := devSemver) sample_world
     (FrameHello (helloOf "v1.0.0" (batchTypes (MR := elements_range) sample_mux) w)) (deliveredThenClosed sent)).2 = Some EndedNil.
Proof.
  intros queues w sent. split; [vm_compute; reflexivity|].
  destruct (sdk_speaks_protocol (MR := elements_range) (SV := devSemver) (H := no_Encryptor) (λ _, ()) sample_mux
    None "http://localhost:8080" queues 1 "" "v1.0.0" w sample_events sample_world) as [Hrun _].
  - vm_compute. reflexivity.
  - intros q weight [<- <-]%lookup_singleton_Some. split; [vm_compute; reflexivity|lia].
  - lia.
  - split; discriminate.
  - intros id Hid ->. revert Hid. apply (bool_decide_unpack _). vm_compute. reflexivity.
  - reflexivity.
  - reflexivity.
  - reflexivity.
  - fold sent in Hrun. rewrite Hrun. reflexivity.
Defined.

(** ** A redelivered task *)

(** A task delivered again while its first execution still runs, as after a
    lost lease, is forgotten when the first execution ends: the second one goes
    on, but no heartbeat names it, no cancel reaches it, and the end of the
    session does not interrupt it. *)
Lemma redelivery_loses_heartbeat :
  let s := sdk_run (MR := elements_range) (H := no_Encryptor) (λ _, ()) sample_mux None 2
    [EvFrame (FDispatch (sample_task "a" "mail") 9); EvStart 0;
     EvFrame (FDispatch (sample_task "a" "mail") 9); EvStart 1; EvReturn 0 None] newSession in
  live (sn_executions s) = ["a"] ∧ activeTaskIDs (MR := elements_range) s = [] ∧
  sdk_cancel "a" s = s ∧ sn_executions (cancelAll s) = sn_executions s.
Proof. vm_compute. done. Qed.
