(* ===== verification/SdkClient.v ===== *)
(** * The Go SDK's client (sdks/go: client.go, options.go, task.go, codec.go,
    dependencies.go, enqueuetx.go, group.go, internal/transport)

    The options of an enqueue, the wire request they make, and the client's
    calls. The server behind the transport is a record of its three procedures
    over a state of its own; the randomness of a sealing is an argument. *)

From S2P Require Import Prelude Proto BrokerApi Encoding Encryption Messages Backoff TaskLog Gateway Api Session AdminApi TasksApi SdkWorker.
From Stdlib Require Import Strings.Byte.

#[local] Open Scope Z_scope.

(** ** Tasks and payloads *)

Definition ContentTypeJSON : string := "application/json".
Definition ContentTypeBytes : string := "application/octet-stream".
Definition ContentTypeProto : string := "application/x-protobuf".

(** [Payload]; an encoding failure travels inside. *)
Record sdkPayload := mkSdkPayload { pl_data : list byte; pl_contentType : string; pl_err : option string }.

(** [JSON] and [Proto], from what the encoder made of the value. *)
Definition JSON (marshal : string + list byte) : sdkPayload :=
  match marshal with
  | inl err => mkSdkPayload [] "" (Some ("conveyor: encoding JSON payload: " +:+ err))
  | inr data => mkSdkPayload data ContentTypeJSON None
  end.

Definition Bytes (b : list byte) : sdkPayload := mkSdkPayload b ContentTypeBytes None.

Definition Proto (marshal : string + list byte) : sdkPayload :=
  match marshal with
  | inl err => mkSdkPayload [] "" (Some ("conveyor: encoding protobuf payload: " +:+ err))
  | inr data => mkSdkPayload data ContentTypeProto None
  end.

(** [Task]. *)
Record sdkTask := mkSdkTask {
  tk_id : string;
  tk_queue : string;
  tk_taskType : string;
  tk_payload : list byte;
  tk_contentType : string;
  tk_metadata : gmap string string;
  tk_retried : Z;
  tk_maxRetry : Z;
  tk_payloadErr : option string }.

Definition NewTask (taskType : string) (payload : sdkPayload) : sdkTask :=
  mkSdkTask "" "" taskType (pl_data payload) (pl_contentType payload) ∅ 0 0 (pl_err payload).

Definition newTaskFromEnvelope (envelope : TaskEnvelope) : sdkTask :=
  mkSdkTask (env_Id envelope) (env_Queue envelope) (env_Type envelope) (env_Payload envelope)
    (env_ContentType envelope) (env_Metadata envelope) (env_Retried envelope)
    (opt_MaxRetry (GetOptions envelope)) None.

(** ** Options *)

Inductive sdkRetryStrategy := RetryDefault | RetryExponential | RetryLinear | RetryFixed.
Inductive sdkFailurePolicy := BlockOnFailure | CascadeCancelOnFailure | ContinueOnFailure.

#[global] Instance sdkRetryStrategy_eq_dec : EqDecision sdkRetryStrategy.
Proof. solve_decision. Defined.

Record Dependency := mkDependency { dy_TaskID : string; dy_OnFailure : sdkFailurePolicy }.

(** [int] fields are 64-bit; an instant that is not set is the zero one. *)
Record enqueueOptions := mkEnqueueOptions {
  eo_taskID : string;
  eo_queue : string;
  eo_maxRetry : Z;
  eo_priority : Z;
  eo_timeout : Duration;
  eo_deadline : Time;
  eo_processAt : Time;
  eo_processIn : Duration;
  eo_expiresAt : Time;
  eo_expiresIn : Duration;
  eo_retention : Duration;
  eo_uniqueKey : string;
  eo_uniqueTTL : Duration;
  eo_group : string;
  eo_dependsOn : list Dependency;
  eo_concurrencyKey : string;
  eo_retryStrategy : sdkRetryStrategy;
  eo_retryBase : Duration;
  eo_retryMax : Duration }.

#[global] Instance enqueueOptions_eta : Eta enqueueOptions := λ o,
  mkEnqueueOptions (eo_taskID o) (eo_queue o) (eo_maxRetry o) (eo_priority o) (eo_timeout o)
    (eo_deadline o) (eo_processAt o) (eo_processIn o) (eo_expiresAt o) (eo_expiresIn o)
    (eo_retention o) (eo_uniqueKey o) (eo_uniqueTTL o) (eo_group o) (eo_dependsOn o)
    (eo_concurrencyKey o) (eo_retryStrategy o) (eo_retryBase o) (eo_retryMax o).

Definition noEnqueueOptions : enqueueOptions :=
  mkEnqueueOptions "" "" 0 0 0 zeroTime zeroTime 0 zeroTime 0 0 "" 0 "" [] "" RetryDefault 0 0.

Definition EnqueueOption : Type := enqueueOptions → enqueueOptions.

Definition TaskID (id : string) : EnqueueOption := λ o, o <| eo_taskID := id |>.
Definition Queue (name : string) : EnqueueOption := λ o, o <| eo_queue := name |>.
Definition MaxRetry (n : Z) : EnqueueOption := λ o, o <| eo_maxRetry := n |>.
Definition Priority (p : Z) : EnqueueOption := λ o, o <| eo_priority := p |>.
Definition Timeout (d : Duration) : EnqueueOption := λ o, o <| eo_timeout := d |>.
Definition Deadline (t : Time) : EnqueueOption := λ o, o <| eo_deadline := t |>.
Definition ProcessAt (t : Time) : EnqueueOption := λ o, o <| eo_processAt := t |>.
Definition ProcessIn (d : Duration) : EnqueueOption := λ o, o <| eo_processIn := d |>.
Definition ExpiresAt (t : Time) : EnqueueOption := λ o, o <| eo_expiresAt := t |>.
Definition ExpiresIn (d : Duration) : EnqueueOption := λ o, o <| eo_expiresIn := d |>.
Definition Retention (d : Duration) : EnqueueOption := λ o, o <| eo_retention := d |>.
Definition Unique (ttl : Duration) : EnqueueOption := λ o, o <| eo_uniqueTTL := ttl |>.
Definition sdk_UniqueKey (key : string) : EnqueueOption := λ o, o <| eo_uniqueKey := key |>.
Definition ConcurrencyKey (key : string) : EnqueueOption := λ o, o <| eo_concurrencyKey := key |>.
Definition Group (name : string) : EnqueueOption := λ o, o <| eo_group := name |>.
Definition sdk_RetryPolicy (strategy : sdkRetryStrategy) (base maxDelay : Duration) : EnqueueOption := λ o,
  o <| eo_retryStrategy := strategy |> <| eo_retryBase := base |> <| eo_retryMax := maxDelay |>.
Definition DependsOn (taskIDs : list string) : EnqueueOption := λ o,
  foldl (λ o id, o <| eo_dependsOn := eo_dependsOn o ++ [mkDependency id BlockOnFailure] |>) o taskIDs.
Definition DependsOnTasks (deps : list Dependency) : EnqueueOption := λ o,
  o <| eo_dependsOn := eo_dependsOn o ++ deps |>.

(** ** Errors *)

Inductive clientError :=
  | errClientBaseURL
  | errTaskRequired
  | errPayload (err : string)
  | errTypeRequired
  | errProcessAtAndIn
  | errExpiresAtAndIn
  | errEncrypting (err : EncryptionError)
  | errTaskIDRequired
  | errNoTasks
  | sdkErrDuplicateTask
  | sdkErrTaskNotFound
  | errWire (code : Code).

Definition wireError (code : Code) : clientError :=
  match code with
  | CodeAlreadyExists => sdkErrDuplicateTask
  | CodeNotFound => sdkErrTaskNotFound
  | _ => errWire code
  end.

(** ** The wire forms *)

(** [timestamppb.New], as the receiver sees it: an instant after the year 9999
    makes a timestamp that is not valid. *)
Definition maxTimestamp : Time := 315537897600 * Second - 1.
Definition timestamppb_New (t : Time) : option Time :=
  if (0 <=? t) && (t <=? maxTimestamp) then Some t else None.

Definition toProto (p : sdkFailurePolicy) : DependencyFailurePolicy :=
  match p with
  | CascadeCancelOnFailure => DEPENDENCY_FAILURE_POLICY_CASCADE_CANCEL
  | ContinueOnFailure => DEPENDENCY_FAILURE_POLICY_CONTINUE
  | _ => DEPENDENCY_FAILURE_POLICY_BLOCK
  end.

Definition dependenciesToProto (deps : list Dependency) : list TaskDependency :=
  (λ dependency, mkTaskDependency (dy_TaskID dependency) (toProto (dy_OnFailure dependency))) <$> deps.

Definition retryStrategyToProto (strategy : sdkRetryStrategy) : RetryStrategy :=
  match strategy with
  | RetryExponential => RETRY_STRATEGY_EXPONENTIAL
  | RetryLinear => RETRY_STRATEGY_LINEAR
  | RetryFixed => RETRY_STRATEGY_FIXED
  | RetryDefault => RETRY_STRATEGY_UNSPECIFIED
  end.

(** A positive duration is sent, any other is left out. *)
Definition positive (d : Duration) : option Duration := if 0 <? d then Some d else None.

(** An instant that is not zero is sent. *)
Definition instant (t : Time) : option Time := if IsZero t then None else timestamppb_New t.

Definition retryPolicyToProto (strategy : sdkRetryStrategy) (base maxDelay : Duration) : option RetryPolicy :=
  if bool_decide (strategy = RetryDefault) && (base <=? 0) && (maxDelay <=? 0) then None
  else Some (mkRetryPolicy (retryStrategyToProto strategy) (positive base) (positive maxDelay)).

(** [hex.EncodeToString] of the digest over the type, a zero byte and the
    payload. *)
Definition derivedUniqueKey (taskType : string) (payload : list byte) : string :=
  hex_EncodeToString (Sha256.Sum256 (bytesOf taskType ++ [x00] ++ payload)).

(** The settings and the effective unique key. *)
Definition resolveEnqueueOptions (task : option sdkTask) (opts : list EnqueueOption)
    : clientError + (enqueueOptions * string) :=
  match task with
  | None => inl errTaskRequired
  | Some task =>
      match tk_payloadErr task with
      | Some err => inl (errPayload err)
      | None =>
          if decide (tk_taskType task = "") then inl errTypeRequired
          else
            let settings := foldl (λ settings opt, opt settings) noEnqueueOptions opts in
            if negb (IsZero (eo_processAt settings)) && (0 <? eo_processIn settings) then inl errProcessAtAndIn
            else if negb (IsZero (eo_expiresAt settings)) && (0 <? eo_expiresIn settings) then inl errExpiresAtAndIn
            else
              let uniqueKey := eo_uniqueKey settings in
              let uniqueKey :=
                if bool_decide (uniqueKey = "") && (0 <? eo_uniqueTTL settings)
                then derivedUniqueKey (tk_taskType task) (tk_payload task) else uniqueKey in
              inr (settings, uniqueKey)
      end
  end.

(** ** The client *)

Section Client.
Context {E : Type} `{Encryptor E} (encryptor : option E).

(** The payload and the metadata as they are sent. *)
Definition sealTask (entropy : list byte) (task : sdkTask) : clientError + (list byte * gmap string string) :=
  match encryptor with
  | Some encryptor =>
      if decide (tk_payload task = []) then inr (tk_payload task, tk_metadata task)
      else
        match Encrypt encryptor entropy (tk_payload task) with
        | inl err => inl (errEncrypting err)
        | inr sealed => inr (sealed, withEncryptionMarker (tk_metadata task))
        end
  | None => inr (tk_payload task, tk_metadata task)
  end.

Definition buildEnqueueRequest (entropy : list byte) (task : sdkTask) (settings : enqueueOptions)
    (uniqueKey : string) : clientError + EnqueueRequest :=
  match sealTask entropy task with
  | inl err => inl err
  | inr (payload, metadata) =>
      inr (mkEnqueueRequest (eo_taskID settings) (eo_queue settings) (tk_taskType task) payload
             (tk_contentType task) metadata (wrap32 (eo_maxRetry settings)) (positive (eo_timeout settings))
             (instant (eo_deadline settings)) (instant (eo_processAt settings)) (positive (eo_processIn settings))
             uniqueKey (positive (eo_uniqueTTL settings)) (wrap32 (eo_priority settings))
             (positive (eo_retention settings)) (eo_group settings) (positive (eo_expiresIn settings))
             (instant (eo_expiresAt settings)) (dependenciesToProto (eo_dependsOn settings))
             (eo_concurrencyKey settings)
             (retryPolicyToProto (eo_retryStrategy settings) (eo_retryBase settings) (eo_retryMax settings)))
  end.
End Client.

(** ** Replies *)

Inductive sdkTaskState :=
  | TaskStateScheduled
  | TaskStatePending
  | TaskStateActive
  | TaskStateRetry
  | TaskStateCompleted
  | TaskStateArchived
  | TaskStateCanceled
  | TaskStateAggregating
  | TaskStateUnknown.

Definition taskStateFromProto (state : TaskState) : sdkTaskState :=
  match state with
  | TASK_STATE_SCHEDULED => TaskStateScheduled
  | TASK_STATE_PENDING => TaskStatePending
  | TASK_STATE_ACTIVE => TaskStateActive
  | TASK_STATE_RETRY => TaskStateRetry
  | TASK_STATE_COMPLETED => TaskStateCompleted
  | TASK_STATE_ARCHIVED => TaskStateArchived
  | TASK_STATE_CANCELED => TaskStateCanceled
  | TASK_STATE_AGGREGATING => TaskStateAggregating
  | _ => TaskStateUnknown
  end.

(** [TaskInfo] of the SDK. *)
Record sdkTaskInfo := mkSdkTaskInfo {
  si_ID : string;
  si_Queue : string;
  si_Type : string;
  si_State : sdkTaskState;
  si_Priority : Z;
  si_Retried : Z;
  si_MaxRetry : Z;
  si_LastError : string;
  si_EnqueuedAt : Time;
  si_ProcessAt : Time;
  si_Progress : Z;
  si_ProgressMessage : string }.

Definition taskInfoFromProto (info : TaskInfo) : sdkTaskInfo :=
  mkSdkTaskInfo (ti_Id info) (ti_Queue info) (ti_Type info) (taskStateFromProto (ti_State info))
    (ti_Priority info) (ti_Retried info) (ti_MaxRetry info) (ti_LastError info)
    (default zeroTime (ti_EnqueuedAt info)) (default zeroTime (ti_ProcessAt info))
    (ti_Progress info) (ti_ProgressMessage info).

(** ** The calls *)

(** The server behind the transport. *)
Record wireClient (S : Type) := mkWireClient {
  wire_Enqueue : EnqueueRequest → S → S * (Code + TaskInfo);
  wire_EnqueueTx : list EnqueueRequest → S → S * (Code + list TaskInfo);
  wire_GetTask : string → S → S * (Code + TaskInfo) }.
Arguments mkWireClient {_} _ _ _.
Arguments wire_Enqueue {_} _ _ _.
Arguments wire_EnqueueTx {_} _ _ _.
Arguments wire_GetTask {_} _ _ _.

Definition EnqueueFunc (S : Type) : Type := sdkTask → S → S * (clientError + sdkTaskInfo).

Definition TxTask : Type := option sdkTask * list EnqueueOption.
Definition Tx (task : option sdkTask) (opts : list EnqueueOption) : TxTask := (task, opts).

Section Calls.
Context {E : Type} `{Encryptor E} {S : Type} (wire : wireClient S) (encryptor : option E).
Context (enqueueMiddleware : list (EnqueueFunc S → EnqueueFunc S)).

(** The core of [Enqueue], which the middleware decorates. *)
Definition enqueueCore (entropy : list byte) (settings : enqueueOptions) (uniqueKey : string) : EnqueueFunc S :=
  λ task server,
    match buildEnqueueRequest encryptor entropy task settings uniqueKey with
    | inl err => (server, inl err)
    | inr request =>
        match wire_Enqueue wire request server with
        | (server, inl code) => (server, inl (wireError code))
        | (server, inr info) => (server, inr (taskInfoFromProto info))
        end
    end.

Definition client_Enqueue (entropy : list byte) (task : option sdkTask) (opts : list EnqueueOption) (server : S)
    : S * (clientError + sdkTaskInfo) :=
  match resolveEnqueueOptions task opts, task with
  | inr (settings, uniqueKey), Some task =>
      wrapped enqueueMiddleware (enqueueCore entropy settings uniqueKey) task server
  | inl err, _ => (server, inl err)
  | inr _, None => (server, inl errTaskRequired)
  end.

(** The requests of [EnqueueTx], up to the first task that makes none. *)
Fixpoint buildEach (entropies : nat → list byte) (i : nat) (tasks : list TxTask)
    : clientError + list EnqueueRequest :=
  match tasks with
  | [] => inr []
  | (task, opts) :: tasks =>
      match resolveEnqueueOptions task opts, task with
      | inr (settings, uniqueKey), Some task =>
          match buildEnqueueRequest encryptor (entropies i) task settings uniqueKey with
          | inl err => inl err
          | inr request =>
              match buildEach entropies (Datatypes.S i) tasks with
              | inl err => inl err
              | inr requests => inr (request :: requests)
              end
          end
      | inl err, _ => inl err
      | inr _, None => inl errTaskRequired
      end
  end.

Definition client_EnqueueTx (entropies : nat → list byte) (tasks : list TxTask) (server : S)
    : S * (clientError + list sdkTaskInfo) :=
  if decide (length tasks = 0%nat) then (server, inl errNoTasks)
  else
    match buildEach entropies 0 tasks with
    | inl err => (server, inl err)
    | inr requests =>
        match wire_EnqueueTx wire requests server with
        | (server, inl code) => (server, inl (wireError code))
        | (server, inr infos) => (server, inr (taskInfoFromProto <$> infos))
        end
    end.

Definition client_GetTask (id : string) (server : S) : S * (clientError + sdkTaskInfo) :=
  if decide (id = "") then (server, inl errTaskIDRequired)
  else
    match wire_GetTask wire id server with
    | (server, inl code) => (server, inl (wireError code))
    | (server, inr info) => (server, inr (taskInfoFromProto info))
    end.
End Calls.
