(* ===== verification/SdkClientProps.v ===== *)
(** * The Go SDK's client: what a handler receives is what was enqueued *)

From S2P Require Import Prelude Proto Events BrokerApi Memory MemoryFacts MemoryInv MemoryLease MemorySteps Encoding Encryption BrokerCalls Encrypted EncryptedProps Messages EventBus Engine Backoff TaskLog Gateway Api Session AdminApi TasksApi TasksApiProps SdkWorker SdkClient.
From Stdlib Require Import Strings.Byte.

#[local] Open Scope Z_scope.

(** ** The server behind the transport *)

(** The task service over the in-memory broker, the trace headers of a request
    joining its metadata. *)
Definition serverOf {MR : MapRange} (newID : nat → string) (defaultMaxRetry : Z) (trace : gmap string string)
    (rd : readings) (now : Time) : wireClient (Engine Broker) :=
  mkWireClient
    (λ request, tasks_Enqueue memory newID defaultMaxRetry (union trace) request rd now)
    (λ requests, tasks_EnqueueTx memory newID defaultMaxRetry (union trace) ((λ r, (r, rd)) <$> requests) now)
    (λ id, tasks_GetTask memory id now).

(** ** From the request to the delivery *)

(** What of an envelope the service, the store and a lease leave alone. *)
Definition content (e : TaskEnvelope) : string * list byte * string * gmap string string :=
  (env_Type e, env_Payload e, env_ContentType e, env_Metadata e).

Lemma accepted_content dmr rd request envelope :
  envelopeFromRequest dmr rd request = inr envelope →
  content envelope = (rq_Type request, rq_Payload request, rq_ContentType request, rq_Metadata request) ∧
  env_Retried envelope = 0.
Proof. unfold envelopeFromRequest. cbv zeta. intros H. repeat passed H. by injection H as <-. Qed.

Lemma submitted_content trace newID envelope drawn :
  content (submitted (union trace) newID envelope drawn) =
    (env_Type envelope, env_Payload envelope, env_ContentType envelope, trace ∪ env_Metadata envelope) ∧
  env_Retried (submitted (union trace) newID envelope drawn) = env_Retried envelope.
Proof. unfold submitted. cbv zeta. by destruct (decide _). Qed.

Lemma overlay_content row : content (overlay row) = content (row_envelope row).
Proof. unfold overlay. cbv zeta. by repeat case_match. Qed.

Lemma overlay_identity row :
  env_Id (overlay row) = env_Id (row_envelope row) ∧ env_Queue (overlay row) = env_Queue (row_envelope row) ∧
  env_Retried (overlay row) = row_retried row ∧
  opt_MaxRetry (GetOptions (overlay row)) = opt_MaxRetry (GetOptions (row_envelope row)).
Proof. unfold overlay. cbv zeta. by repeat case_match. Qed.

(** A new task is stored as it was submitted. *)
Lemma Enqueue_stores {MR : MapRange} envelope now b b' :
  Enqueue envelope now b = (b', None) → br_tasks b !! env_Id envelope = None →
  ∃ row, br_tasks b' !! env_Id envelope = Some row ∧ row_envelope row = envelope ∧
    row_retried row = env_Retried envelope.
Proof.
  unfold Enqueue, stageEnqueue. intros H Hnew. rewrite Hnew in H.
  rewrite decide_False in H by (intros [? ?]; done). rewrite decide_False in H by set_solver. cbv zeta in H.
  destruct (negb (bool_decide (opt_UniqueKey _ = "")) && _); [done|].
  destruct (negb (bool_decide (opt_Group _ = "")) && _); [done|]. destruct (resolveInitialDeps _ _ _) as [deps c]. injection H as <-.
  rewrite applyStaged_tasks. cbn [st_id st_row]. rewrite lookup_insert_eq. by eexists.
Qed.

Lemma Enqueue_refuses {MR : MapRange} envelope now b b' err : Enqueue envelope now b = (b', Some err) → b' = b.
Proof. unfold Enqueue. destruct (stageEnqueue _ _ _ _ _); by intros [=]. Qed.

(** What one call of the store hands to a worker: a lease of a queue, or of a
    group of one, at some time, the maps iterated in some order. *)
Inductive handedOut (b : Broker) (envelope : TaskEnvelope) : Prop :=
  | by_lease (MR : MapRange) queue limit ttl lid now :
      envelope ∈ (Lease queue limit ttl lid now b).2 → handedOut b envelope
  | by_group (MR : MapRange) queue group limit ttl lid now :
      envelope ∈ (LeaseGroup queue group limit ttl lid now b).2 → handedOut b envelope.

Lemma claimed_stored now ttl lid due b envelope :
  wf b → selection b due → envelope ∈ (claim now ttl lid due b).2 →
  ∃ row, br_tasks b !! env_Id envelope = Some row ∧ content envelope = content (row_envelope row) ∧
    env_Queue envelope = env_Queue (row_envelope row) ∧ env_Retried envelope = row_retried row ∧
    opt_MaxRetry (GetOptions envelope) = opt_MaxRetry (GetOptions (row_envelope row)).
Proof.
  intros Hwf Hsel. destruct (claim_effect now ttl lid _ b Hsel) as (_ & -> & _).
  intros ([id row] & -> & Hin)%list_elem_of_fmap. destruct Hsel as [_ Hrows]. pose proof (Hrows _ _ Hin) as Hrow.
  destruct (overlay_identity (claim_row now ttl lid row)) as (Hid & Hq & Hr & Hm).
  exists row. cbn [snd]. rewrite Hid, Hq, Hr, Hm, overlay_content. cbn.
  by rewrite (ok_id _ _ (wf_rows _ Hwf _ _ Hrow)).
Qed.

(** A leased task is a stored one, its content untouched. *)
Lemma leased_stored b envelope :
  wf b → handedOut b envelope →
  ∃ row, br_tasks b !! env_Id envelope = Some row ∧ content envelope = content (row_envelope row) ∧
    env_Queue envelope = env_Queue (row_envelope row) ∧ env_Retried envelope = row_retried row ∧
    opt_MaxRetry (GetOptions envelope) = opt_MaxRetry (GetOptions (row_envelope row)).
Proof.
  intros Hwf [MR queue limit ttl lid now Hin|MR queue group limit ttl lid now Hin]; revert Hin;
    [unfold Lease|unfold LeaseGroup]; (case_match; [by intros ?%not_elem_of_nil|]); intros Hin;
    (eapply claimed_stored; [done| |exact Hin]);
    [apply dueTasks_selection|apply groupMembers_selection].
Qed.

(** ** The life of a stored task *)

(** A step of the store, by any caller, after which the task is still there. *)
Definition lives (id : string) (b b' : Broker) : Prop := step b b' ∧ is_Some (br_tasks b' !! id).

(** As long as it is stored, a task keeps its envelope. *)
Lemma lives_keeps id b b' :
  rtc (lives id) b b' → ∀ row, wf b → br_tasks b !! id = Some row →
  wf b' ∧ ∃ row', br_tasks b' !! id = Some row' ∧ row_envelope row' = row_envelope row.
Proof.
  induction 1 as [b|b1 b2 b3 [Hstep [row2 Hrow2]] _ IH]; intros row Hwf Hrow; [by split; [|exists row]|].
  pose proof (wf_step _ _ Hstep Hwf) as Hwf2. destruct Hstep as [MR c now _ Hnow].
  destruct (run_moves c now b1 Hnow Hwf id row Hrow) as [(r & Hr & _ & He)|[Hn _]]; [|congruence].
  rewrite Hrow2 in Hr. injection Hr as <-.
  destruct (IH row2 Hwf2 Hrow2) as (Hwf3 & row3 & Hrow3 & He3). split; [done|]. exists row3.
  by rewrite He3.
Qed.

(** The timed commands of a concrete run that keep the task. *)
Fixpoint keepsTask {MR : MapRange} (id : string) (cs : list (Time * command)) (b : Broker) : bool :=
  match cs with
  | [] => true
  | (now, c) :: cs => bool_decide (is_Some (br_tasks (run c now b) !! id)) && keepsTask id cs (run c now b)
  end.

Lemma run_all_lives {MR : MapRange} id cs b :
  Forall (λ p, allowed p.2 ∧ 0 < p.1) cs → keepsTask id cs b = true → rtc (lives id) b (run_all cs b).
Proof.
  intros Hok. revert b. induction Hok as [|[now c] cs [Hc Hnow] _ IH]; intros b Hk; [apply rtc_refl|].
  cbn [keepsTask] in Hk. apply andb_true_iff in Hk as [Hs%bool_decide_eq_true Hk].
  eapply rtc_l; [split; [by apply (step_run b MR c now)|done]|by apply IH].
Qed.

(** ** Sealing and opening *)

Section Sealing.
Context {E : Type} `{Encryptor E} (encryptor : option E).
Hypothesis lawful : ∀ a, encryptor = Some a → LawfulEncryptor a.

Implicit Types (task : sdkTask) (envelope : TaskEnvelope).

(** A delivery with the sealed payload and the marked metadata opens to the
    payload and the metadata the client had, the server's headers added. *)
Lemma sealed_task_opens entropy task payload metadata trace envelope :
  sealTask encryptor entropy task = inr (payload, metadata) →
  tk_metadata task !! encryptionMarkerKey = None → trace !! encryptionMarkerKey = None →
  env_Payload envelope = payload → env_Metadata envelope = trace ∪ metadata →
  sdk_openEnvelope encryptor envelope =
    inr (envelope <| env_Payload := tk_payload task |> <| env_Metadata := trace ∪ tk_metadata task |>).
Proof.
  intros Hs Hm Ht <- Hmd. unfold sdk_openEnvelope. rewrite Hmd.
  assert (∀ m : gmap string string, (trace ∪ m) !! encryptionMarkerKey = m !! encryptionMarkerKey) as Hl.
  { intros m. by rewrite lookup_union_r. }
  rewrite Hl. unfold sealTask in Hs.
  assert (tk_payload task = env_Payload envelope → tk_metadata task = metadata →
    envelope = envelope <| env_Payload := tk_payload task |> <| env_Metadata := trace ∪ tk_metadata task |>) as Hplain.
  { intros -> ->. rewrite <- Hmd. by destruct envelope. }
  destruct encryptor as [a|] eqn:Ha; [|injection Hs as ? <-; rewrite Hm, decide_True by done; f_equal; auto].
  case_decide as Hp; [injection Hs as ? <-; rewrite Hm, decide_True by done; f_equal; auto|].
  destruct (Encrypt a entropy (tk_payload task)) as [|c] eqn:He; [done|]. injection Hs as <- <-.
  unfold withEncryptionMarker. rewrite lookup_insert_eq. cbn [default]. rewrite decide_False by done.
  destruct (lawful a eq_refl _ _ _ He) as [_ ->]. do 2 f_equal.
  rewrite delete_union, delete_insert_id, (delete_id trace) by done. done.
Qed.

(** Sealed content reaches no handler of a worker without the key. *)
Lemma sealed_task_refused a entropy task payload metadata trace envelope :
  encryptor = Some a → sealTask encryptor entropy task = inr (payload, metadata) → tk_payload task ≠ [] →
  trace !! encryptionMarkerKey = None → env_Metadata envelope = trace ∪ metadata →
  Encrypt a entropy (tk_payload task) = inr payload ∧
  ∃ err, sdk_openEnvelope (E := E) None envelope = inl err.
Proof.
  intros -> Hs Hp Ht Hmd. unfold sealTask in Hs. rewrite decide_False in Hs by done.
  destruct (Encrypt a entropy (tk_payload task)) as [|c]; [done|]. injection Hs as <- <-. split; [done|].
  unfold sdk_openEnvelope. rewrite Hmd, lookup_union_r by done. unfold withEncryptionMarker.
  rewrite lookup_insert_eq. cbn [default]. rewrite decide_False by done. by eexists.
Qed.
End Sealing.

(** ** End to end *)

Lemma build_request {E} `{Encryptor E} (encryptor : option E) entropy task settings key request :
  buildEnqueueRequest encryptor entropy task settings key = inr request →
  sealTask encryptor entropy task = inr (rq_Payload request, rq_Metadata request) ∧
  rq_Type request = tk_taskType task ∧ rq_ContentType request = tk_contentType task.
Proof.
  unfold buildEnqueueRequest. destruct (sealTask encryptor entropy task) as [|[payload metadata]]; [done|].
  by intros [= <-].
Qed.

(** What the client's call without middleware did. *)
Lemma client_Enqueue_inv {E S} `{Encryptor E} (wire : wireClient S) (encryptor : option E) entropy task opts s s' r :
  client_Enqueue wire encryptor [] entropy (Some task) opts s = (s', r) →
  (s' = s ∧ ∃ err, r = inl err) ∨
  ∃ settings key request reply, buildEnqueueRequest encryptor entropy task settings key = inr request ∧
    wire_Enqueue wire request s = (s', reply) ∧
    r = match reply with inl code => inl (wireError code) | inr info => inr (taskInfoFromProto info) end.
Proof.
  unfold client_Enqueue. destruct (resolveEnqueueOptions (Some task) opts) as [err|[settings key]].
  { intros [= <- <-]. left. split; [done|]. by exists err. }
  unfold wrapped, foldr, enqueueCore.
  destruct (buildEnqueueRequest encryptor entropy task settings key) as [err|request] eqn:Hb.
  { intros [= <- <-]. left. split; [done|]. by exists err. }
  destruct (wire_Enqueue wire request s) as [s1 [code|info]] eqn:Hw; intros [= <- <-]; right;
    by eexists settings, key, request, _.
Qed.

(** C35: what a handler receives is what the client enqueued. When the client's
    [Enqueue], without middleware, fails, the store is as it was. When it succeeds
    with a task that is new, the task is stored with no retries counted, and
    whatever the store's callers do afterwards (leases, failures, releases, reaped
    leases, promotions, cancellations, reschedules), as long as the task is stored
    every lease of it, of its queue or of its group, delivers an envelope that a
    worker with the same key opens to the client's type, payload and content type,
    and to the client's metadata with the server's trace headers, under the id, the
    queue and the retry budget the client was told and with the retries the store
    has counted. With a key and a payload, what the server stores and delivers is
    the sealed payload, and a worker without the key hands it to no handler. Neither
    the client's metadata nor the trace headers use the key of the encryption
    marker. *)
Theorem client_task_reaches_handler {MR : MapRange} {E} `{Encryptor E} (encryptor : option E) newID dmr trace rd now
    entropy task opts e e' r :
  (∀ a, encryptor = Some a → LawfulEncryptor a) →
  trace !! encryptionMarkerKey = None → tk_metadata task !! encryptionMarkerKey = None →
  0 < now → wf (en_store e) →
  client_Enqueue (serverOf newID dmr trace rd now) encryptor [] entropy (Some task) opts e = (e', r) →
  match r with
  | inl _ => en_store e' = en_store e
  | inr info =>
      br_tasks (en_store e) !! si_ID info = None →
      row_retried <$> br_tasks (en_store e') !! si_ID info = Some 0 ∧
      ∀ b envelope, rtc (lives (si_ID info)) (en_store e') b →
        handedOut b envelope → env_Id envelope = si_ID info →
        (∃ opened row, br_tasks b !! si_ID info = Some row ∧
           sdk_openEnvelope encryptor envelope = inr opened ∧
           newTaskFromEnvelope opened =
             mkSdkTask (si_ID info) (si_Queue info) (tk_taskType task) (tk_payload task) (tk_contentType task)
               (trace ∪ tk_metadata task) (row_retried row) (si_MaxRetry info) None) ∧
        ∀ a, encryptor = Some a → tk_payload task ≠ [] →
          Encrypt a entropy (tk_payload task) = inr (env_Payload envelope) ∧
          ∃ err, sdk_openEnvelope (E := E) None envelope = inl err
  end.
Proof.
  intros Hlaw Ht Hm Hnow Hwf Hc.
  destruct (client_Enqueue_inv _ _ _ _ _ _ _ _ Hc) as [[-> [err ->]]|(settings & key & request & reply & Hb & Hw & ->)]; [done|].
  destruct (build_request _ _ _ _ _ _ Hb) as (Hseal & Htype & Hctype).
  cbn [wire_Enqueue serverOf] in Hw. apply tasks_Enqueue_memory in Hw.
  destruct (envelopeFromRequest dmr rd request) as [err|env0] eqn:Hreq; [by destruct Hw as [-> ->]|].
  destruct (accepted_content _ _ _ _ Hreq) as [Hcont Hret].
  cbv zeta in Hw. destruct (submitted_content trace newID env0 (en_drawn e)) as [Hsub Hsret].
  set (sent := submitted (union trace) newID env0 (en_drawn e)) in *.
  destruct (Enqueue sent now (en_store e)) as [b [err|]] eqn:Henq; destruct Hw as (Hst & _ & _ & ->).
  { rewrite Hst. by eapply Enqueue_refuses. }
  cbn [taskInfoFromProto taskInfo si_ID si_Queue si_MaxRetry ti_Id ti_Queue ti_MaxRetry]. intros Hnew.
  destruct (Enqueue_stores _ _ _ _ Henq Hnew) as (row & Hrow & Henv & Hrr). rewrite Hst.
  split; [rewrite Hrow; cbn [fmap option_fmap option_map]; by rewrite Hrr, Hsret, Hret|].
  intros b2 envelope Hpath Hin Hid.
  assert (wf b) as Hwf' by (pose proof (wf_Enqueue sent now (en_store e) Hnow Hwf) as Hw; by rewrite Henq in Hw).
  destruct (lives_keeps _ _ _ Hpath row Hwf' Hrow) as (Hwf2 & row2 & Hrow2 & Henv2).
  destruct (leased_stored _ _ Hwf2 Hin) as (row' & Hrow' & Hc' & Hq & Hr' & Hmr).
  rewrite Hid, Hrow2 in Hrow'. injection Hrow' as <-. rewrite Henv2, Henv in Hc', Hq, Hmr. rewrite Hsub in Hc'.
  injection Hcont as H1 H2 H3 H4. injection Hc' as G1 G2 G3 G4. rewrite H1 in G1. rewrite H2 in G2.
  rewrite H3 in G3. rewrite H4 in G4. split.
  - rewrite (sealed_task_opens encryptor Hlaw entropy task _ _ trace envelope Hseal Hm Ht G2 G4).
    eexists _, row2. split; [done|]. split; [done|]. unfold newTaskFromEnvelope, GetOptions. cbn.
    fold (GetOptions envelope). by rewrite Hid, Hq, Hr', Hmr, G1, G3, Htype, Hctype.
  - intros a Ha Hp. rewrite G2.
    exact (sealed_task_refused encryptor Hlaw a entropy task _ _ trace envelope Ha Hseal Hp Ht G4).
Qed.

(** ** An instance *)

Definition greeting : sdkTask := NewTask "mail" (Bytes [x68; x69]).

(** A first delivery fails and is retried; the lease of the second expires. *)
Definition mishaps : list (Time * command) :=
  [(6, CLease "emails" 1 30 "L1"); (7, CFail "t1" "L1" "boom" 0); (8, CPromoteScheduled 10);
   (9, CLease "emails" 1 30 "L2"); (50, CReapExpiredLeases 10)].

(** The third delivery of that task still opens to what the client enqueued. *)
Lemma client_task_reaches_handler_witness :
  let AE := AESGCM_Encryptor (G := toyGCM) in
  let run := client_Enqueue (serverOf (MR := elements_range) (λ _, "t1") 25 {["traceparent" := "00"]}
               (mkReadings 5 5 5 5) 5) (Some toyRing) [] (replicate 12 x07) (Some greeting)
               [Queue "emails"; MaxRetry 3] (mkEngine New 0 [] 0) in
  let later := run_all (MR := elements_range) mishaps (en_store run.1) in
  let leased := (Lease (MR := elements_range) "emails" 1 30 "L3" 60 later).2 in
  ∃ envelope opened, leased = [envelope] ∧ env_Payload envelope ≠ [x68; x69] ∧
    sdk_openEnvelope (Some toyRing) envelope = inr opened ∧ tk_payload (newTaskFromEnvelope opened) = [x68; x69] ∧
    tk_maxRetry (newTaskFromEnvelope opened) = 3.
Proof.
  intros AE run later leased.
  assert (Hinfo : match run.2 with inr info => (si_ID info, si_MaxRetry info) = ("t1", 3) | inl _ => False end)
    by (vm_compute; reflexivity).
  assert (Hl : env_Id <$> leased = ["t1"]) by (vm_compute; reflexivity).
  assert (Hp : env_Payload <$> leased ≠ [[x68; x69]]) by (vm_compute; discriminate).
  assert (Hpath : rtc (lives "t1") (en_store run.1) later).
  { apply run_all_lives; [repeat constructor|]. vm_compute. reflexivity. }
  pose proof (client_task_reaches_handler (MR := elements_range) (H := AE) (Some toyRing) (λ _, "t1") 25
    {["traceparent" := "00"]} (mkReadings 5 5 5 5) 5 (replicate 12 x07) greeting [Queue "emails"; MaxRetry 3]
    (mkEngine New 0 [] 0) run.1 run.2 ltac:(intros a [= <-]; exact toyRing_lawful)
    ltac:(vm_compute; reflexivity) ltac:(vm_compute; reflexivity) ltac:(lia) ltac:(exact wf_New)
    (surjective_pairing run)) as Hmain.
  destruct run.2 as [|info]; [destruct Hinfo|]. injection Hinfo as Hi Hmr. rewrite Hi in Hmain.
  destruct Hmain as [_ Hmain]; [vm_compute; reflexivity|].
  destruct leased as [|envelope [|]] eqn:Hle; [discriminate| |discriminate]. injection Hl as Hid.
  destruct (Hmain later envelope Hpath) as [(opened & row & _ & Ho & Hk) _].
  - apply (by_lease _ _ elements_range "emails" 1 30 "L3" 60). fold leased. rewrite Hle. left.
  - exact Hid.
  - exists envelope, opened. split; [reflexivity|]. split; [intros Hc; apply Hp; cbn; by rewrite Hc|].
    split; [exact Ho|]. rewrite Hk, Hmr. by split.
Defined.

(** ** A blocked task has no state of its own in the SDK *)

(** [DependsOn] makes a task the server reports blocked; the client reads its
    state as unknown. *)
Lemma blocked_reads_unknown :
  let run := client_Enqueue (H := AESGCM_Encryptor (G := toyGCM)) (serverOf (MR := elements_range) (λ _, "t2") 25 ∅
    (mkReadings 5 5 5 5) 5) None [] [] (Some greeting) [DependsOn ["t1"]] (mkEngine New 0 [] 0) in
  (match run.2 with inr info => Some (si_State info) | inl _ => None end) = Some TaskStateUnknown.
Proof. vm_compute. reflexivity. Qed.

(** An [int] beyond 32 bits wraps on the wire: the priority the server stores is
    another, valid one. *)
Lemma priority_wraps :
  let run := client_Enqueue (H := AESGCM_Encryptor (G := toyGCM)) (serverOf (MR := elements_range) (λ _, "t2") 25 ∅
    (mkReadings 5 5 5 5) 5) None [] [] (Some greeting) [Priority (2 ^ 32 + 9)] (mkEngine New 0 [] 0) in
  (match run.2 with inr info => Some (si_Priority info) | inl _ => None end) = Some 9.
Proof. vm_compute. reflexivity. Qed.
