(* ===== verification/Config.v ===== *)
(** * Server configuration (server/config.go, server/discovery.go)

    The configuration with its defaults, its validation and the mapping of
    environment names to keys, and the registry of discovery providers. A
    validation error is the key it names. Loading a file and decoding it is the
    work of libraries and is left out. *)

From S2P Require Import Prelude Proto Events BrokerApi Encryption BrokerCalls Messages Backoff TaskLog Gateway QueueGrain WebhookGuard Api Session AdminApi Access.
From Stdlib Require Import Floats.SpecFloat Strings.Ascii.
From stdpp Require Import pretty.

#[local] Open Scope Z_scope.

(** ** The blocks *)

Record WebhookConfig := mkWebhookConfig {
  wc_URL : string;
  wc_Timeout : Duration;
  wc_MaxRetries : Z;
  wc_Secret : string;
  wc_Queues : list string;
  wc_EventTypes : list string }.

Record EventsConfig := mkEventsConfig {
  ec_Enabled : bool;
  ec_BufferSize : Z;
  ec_Webhook : WebhookConfig }.

Record WebhookWorkerConfig := mkWebhookWorkerConfig {
  ww_Name : string;
  ww_URL : string;
  ww_Queues : gmap string Z;
  ww_Concurrency : Z;
  ww_Secrets : list string;
  ww_BatchTypes : list string;
  ww_RequestTimeout : Duration;
  ww_Paused : bool }.

Record PoolConfig := mkPoolConfig {
  pc_MaxConns : Z;
  pc_MinConns : Z;
  pc_ConnectTimeout : Duration;
  pc_StatementTimeout : Duration }.

Record BrokerConfig := mkBrokerConfig { bc_Driver : string; bc_DSN : string; bc_Pool : PoolConfig }.

Record TLSConfig := mkTLSConfig { tls_CertFile : string; tls_KeyFile : string; tls_CAFile : string }.

Record ScopedTokenConfig := mkScopedTokenConfig { sc_Token : string; sc_Scopes : list string }.

(** [APIConfig]. *)
Record APIBlock := mkAPIBlock {
  ab_Listen : string;
  ab_TLS : TLSConfig;
  ab_AuthTokens : list string;
  ab_ScopedTokens : list ScopedTokenConfig;
  ab_AllowUnauthenticated : bool;
  ab_Dashboard : bool;
  ab_CORSOrigins : list string;
  ab_GrafanaURL : string;
  ab_ReadOnly : bool }.

Record KubernetesConfig := mkKubernetesConfig {
  kc_Namespace : string;
  kc_PodLabels : gmap string string;
  kc_DiscoveryPortName : string;
  kc_RemotingPortName : string;
  kc_PeersPortName : string }.

Record ClusterConfig := mkClusterConfig {
  cc_Discovery : string;
  cc_BindAddr : string;
  cc_StaticPeers : list string;
  cc_RemotingPort : Z;
  cc_DiscoveryPort : Z;
  cc_PeersPort : Z;
  cc_TLS : TLSConfig;
  cc_Kubernetes : KubernetesConfig;
  cc_Options : gmap string string }.

Record EngineConfig := mkEngineConfig {
  en_LeaseTTL : Duration;
  en_LeaseBatchMax : Z;
  en_ResolverPoolSize : Z;
  en_ReapInterval : Duration;
  en_PromoteInterval : Duration;
  en_PassivateAfter : Duration;
  en_DefaultMaxRetry : Z;
  en_RetryBackoffStrategy : string;
  en_RetryBackoffBase : Duration;
  en_RetryBackoffCap : Duration;
  en_ShutdownTimeout : Duration;
  en_GroupMaxSize : Z;
  en_GroupMaxDelay : Duration;
  en_GroupGracePeriod : Duration;
  en_GroupSweepInterval : Duration;
  en_RateLimitEnabled : bool;
  en_RateLimitRatePerSec : spec_float;
  en_RateLimitBurst : Z;
  en_ArchiveRetention : Duration }.

Record LogConfig := mkLogConfig { lg_Level : string; lg_Format : string }.
Record OtelConfig := mkOtelConfig { ot_Endpoint : string; ot_ServiceName : string }.

Record Config := mkConfig {
  cf_Mode : string;
  cf_Broker : BrokerConfig;
  cf_API : APIBlock;
  cf_Cluster : ClusterConfig;
  cf_Engine : EngineConfig;
  cf_Log : LogConfig;
  cf_Otel : OtelConfig;
  cf_MetricsListen : string;
  cf_Events : EventsConfig;
  cf_WebhookWorkers : list WebhookWorkerConfig;
  cf_AllowPrivateTargets : bool }.

#[global] Instance APIBlock_eta : Eta APIBlock := λ a,
  mkAPIBlock (ab_Listen a) (ab_TLS a) (ab_AuthTokens a) (ab_ScopedTokens a) (ab_AllowUnauthenticated a)
    (ab_Dashboard a) (ab_CORSOrigins a) (ab_GrafanaURL a) (ab_ReadOnly a).
#[global] Instance EventsConfig_eta : Eta EventsConfig := λ e,
  mkEventsConfig (ec_Enabled e) (ec_BufferSize e) (ec_Webhook e).
#[global] Instance EngineConfig_eta : Eta EngineConfig := λ e,
  mkEngineConfig (en_LeaseTTL e) (en_LeaseBatchMax e) (en_ResolverPoolSize e) (en_ReapInterval e)
    (en_PromoteInterval e) (en_PassivateAfter e) (en_DefaultMaxRetry e) (en_RetryBackoffStrategy e)
    (en_RetryBackoffBase e) (en_RetryBackoffCap e) (en_ShutdownTimeout e) (en_GroupMaxSize e)
    (en_GroupMaxDelay e) (en_GroupGracePeriod e) (en_GroupSweepInterval e) (en_RateLimitEnabled e)
    (en_RateLimitRatePerSec e) (en_RateLimitBurst e) (en_ArchiveRetention e).
#[global] Instance Config_eta : Eta Config := λ c,
  mkConfig (cf_Mode c) (cf_Broker c) (cf_API c) (cf_Cluster c) (cf_Engine c) (cf_Log c) (cf_Otel c)
    (cf_MetricsListen c) (cf_Events c) (cf_WebhookWorkers c) (cf_AllowPrivateTargets c).

(** ** Names and defaults *)

Definition ModeStandalone : string := "standalone".
Definition ModeCluster : string := "cluster".
Definition ModeKubernetes : string := "kubernetes".
Definition BrokerPostgres : string := "postgres".
Definition BrokerMemory : string := "memory".
Definition DiscoveryStatic : string := "static".
Definition DiscoveryKubernetes : string := "kubernetes".
Definition LogLevelDebug : string := "debug".
Definition LogLevelInfo : string := "info".
Definition LogLevelWarn : string := "warn".
Definition LogLevelError : string := "error".
Definition LogFormatJSON : string := "json".
Definition LogFormatText : string := "text".
Definition maxPortNumber : Z := 65535.
Definition Millisecond : Duration := 1000000.

Definition noTLS : TLSConfig := mkTLSConfig "" "" "".
Definition noPool : PoolConfig := mkPoolConfig 0 0 0 0.

Definition DefaultConfig : Config :=
  mkConfig ModeStandalone (mkBrokerConfig BrokerPostgres "" noPool)
    (mkAPIBlock ":8080" noTLS [] [] false true [] "" false)
    (mkClusterConfig DiscoveryStatic "127.0.0.1" [] 9000 9001 9002 noTLS
       (mkKubernetesConfig "" ∅ "gossip" "" "") ∅)
    (mkEngineConfig (60 * Second) 100 8 (15 * Second) Second (5 * Minute) 25 "exponential"
       Backoff.DefaultBase Backoff.DefaultCap (30 * Second) 100 Minute (10 * Second) Second true
       (S754_zero false) 0 (7 * 24 * 60 * Minute))
    (mkLogConfig LogLevelInfo LogFormatJSON) (mkOtelConfig "" "conveyord") ":9464"
    (mkEventsConfig false 0 (mkWebhookConfig "" 0 0 "" [] [])) [] false.

Definition DevConfig : Config :=
  let config := DefaultConfig in
  let config := config <| cf_Broker := mkBrokerConfig BrokerMemory "" noPool |> in
  let config := config <| cf_Log := mkLogConfig LogLevelDebug LogFormatText |> in
  let config := config <| cf_MetricsListen := "127.0.0.1:0" |> in
  let config := config <| cf_API := (cf_API config) <| ab_AllowUnauthenticated := true |> |> in
  let config := config <| cf_Events := (cf_Events config) <| ec_Enabled := true |> |> in
  config <| cf_AllowPrivateTargets := true |>.

(** ** Environment names *)

Definition envPrefix : string := "CONVEYOR_".

Definition TrimPrefix (s prefix : string) : string := default s (CutPrefix s prefix).

Definition lower (c : ascii) : ascii :=
  if Api.between "A" "Z" c then Ascii.ascii_of_nat (Ascii.nat_of_ascii c + 32) else c.

(** [strings.ToLower] on ASCII. *)
Fixpoint ToLower (s : string) : string :=
  match s with EmptyString => EmptyString | String c s => String (lower c) (ToLower s) end.

(** [strings.ReplaceAll] of [envLevelDelim] by [configKeyDelim], left to right. *)
Fixpoint replaceLevels (s : string) : string :=
  match s with
  | String c1 ((String c2 rest) as tail) =>
      if Ascii.eqb c1 "_" && Ascii.eqb c2 "_" then String "." (replaceLevels rest)
      else String c1 (replaceLevels tail)
  | _ => s
  end.

Definition envKeyToConfigKey (envKey : string) : string :=
  replaceLevels (ToLower (TrimPrefix envKey envPrefix)).

(** ** Discovery providers *)

(** [discoveryRegistry], the factories by name. *)
Section Discovery.
Context {F : Type}.

Definition isBuiltinDiscovery (name : string) : bool :=
  bool_decide (name = DiscoveryStatic) || bool_decide (name = DiscoveryKubernetes).

(** [None] is a panic. *)
Definition RegisterDiscovery (name : string) (factory : option F) (registry : gmap string F)
    : option (gmap string F) :=
  if decide (name = "") then None
  else
    match factory with
    | None => None
    | Some factory =>
        if isBuiltinDiscovery name then None
        else
          match registry !! name with
          | Some _ => None
          | None => Some (<[name := factory]> registry)
          end
    end.

Definition lookupDiscovery (name : string) (registry : gmap string F) : option F := registry !! name.
End Discovery.

(** ** Validation *)

(** The first check that fails decides. *)
Fixpoint firstError (checks : list (option string)) : option string :=
  match checks with
  | [] => None
  | Some key :: _ => Some key
  | None :: checks => firstError checks
  end.

(** An error for a key when the condition holds. *)
Definition refuse (condition : bool) (key : string) : option string := if condition then Some key else None.

Definition indexed (key : string) (index : nat) : string := key +:+ "[" +:+ pretty index +:+ "]".

Definition pool_validate (p : PoolConfig) : option string :=
  firstError [
    refuse (pc_MaxConns p <? 0) "broker.pool.max_conns";
    refuse (pc_MinConns p <? 0) "broker.pool.min_conns";
    refuse ((0 <? pc_MaxConns p) && (pc_MaxConns p <? pc_MinConns p)) "broker.pool.min_conns";
    refuse (pc_ConnectTimeout p <? 0) "broker.pool.connect_timeout";
    refuse (pc_StatementTimeout p <? 0) "broker.pool.statement_timeout";
    refuse ((0 <? pc_StatementTimeout p) && (pc_StatementTimeout p <? Millisecond))
      "broker.pool.statement_timeout"].

Definition broker_validate (b : BrokerConfig) : option string :=
  firstError [
    refuse (negb (bool_decide (bc_Driver b ∈ [BrokerPostgres; BrokerMemory]))) "broker.driver";
    refuse (bool_decide (bc_Driver b = BrokerPostgres) && bool_decide (bc_DSN b = "")) "broker.dsn";
    pool_validate (bc_Pool b)].

Definition tls_validate (t : TLSConfig) (key : string) : option string :=
  refuse (negb (Bool.eqb (bool_decide (tls_CertFile t = "")) (bool_decide (tls_KeyFile t = "")))) key.

Definition validateRateLimitDefault (engine : EngineConfig) : option string :=
  let rate := en_RateLimitRatePerSec engine in
  firstError [
    refuse (SFltb rate (S754_zero false) || negb (is_finite rate)) "engine.rate_limit_rate_per_sec";
    refuse (SFltb (S754_zero false) rate && (en_RateLimitBurst engine <? 1)) "engine.rate_limit_burst"].

Definition validateRetryBackoff (engine : EngineConfig) : option string :=
  firstError [
    refuse (negb (bool_decide (is_Some (Backoff.ParseKind (en_RetryBackoffStrategy engine)))))
      "engine.retry_backoff_strategy";
    refuse (en_RetryBackoffBase engine <=? 0) "engine.retry_backoff_base";
    refuse (en_RetryBackoffCap engine <? en_RetryBackoffBase engine) "engine.retry_backoff_cap"].

Definition AuthDisabled (c : Config) : bool :=
  (length (ab_AuthTokens (cf_API c)) =? 0)%nat && (length (ab_ScopedTokens (cf_API c)) =? 0)%nat.

(** The loop over the full-access tokens. *)
Definition validateAuthTokens (tokens : list string) : option string :=
  firstError (imap (λ index token, refuse (bool_decide (token = "")) (indexed "api.auth_tokens" index)) tokens).

Definition validateScopedToken (index : nat) (entry : ScopedTokenConfig) : option string :=
  let key := indexed "api.scoped_tokens" index in
  firstError [
    refuse (bool_decide (sc_Token entry = "")) (key +:+ ".token");
    refuse (length (sc_Scopes entry) =? 0)%nat (key +:+ ".scopes");
    firstError ((λ scope, refuse (negb (bool_decide (is_Some (ParseScope scope)))) (key +:+ ".scopes"))
                  <$> sc_Scopes entry)].

Definition validateScopedTokens (tokens : list ScopedTokenConfig) : option string :=
  firstError (imap validateScopedToken tokens).

(** The loop over the scoped tokens, with the tokens seen so far. *)
Fixpoint scopedTokensDistinct (index : nat) (seen : gset string) (tokens : list ScopedTokenConfig)
    : option string :=
  match tokens with
  | [] => None
  | entry :: tokens =>
      if decide (sc_Token entry ∈ seen) then Some (indexed "api.scoped_tokens" index +:+ ".token")
      else scopedTokensDistinct (S index) ({[sc_Token entry]} ∪ seen) tokens
  end.

Definition validateTokensAreDistinct (config : APIBlock) : option string :=
  scopedTokensDistinct 0 (list_to_set (ab_AuthTokens config)) (ab_ScopedTokens config).

Definition validateAuth (c : Config) : option string :=
  firstError [
    refuse (AuthDisabled c && negb (ab_AllowUnauthenticated (cf_API c))) "api.auth_tokens";
    validateAuthTokens (ab_AuthTokens (cf_API c));
    validateScopedTokens (ab_ScopedTokens (cf_API c));
    validateTokensAreDistinct (cf_API c)].

Section Webhooks.
Context {MR : MapRange} {NP : NetParsers} {UP : UrlParser}.

(** Whether the URL is an absolute http(s) one, and its scheme. *)
Definition httpScheme (raw : string) : option string :=
  match url_Parse raw with
  | Some (scheme, host) =>
      if negb (bool_decide (host = "")) && (bool_decide (scheme = "http") || bool_decide (scheme = "https"))
      then Some scheme else None
  | None => None
  end.

(** The loop over the served queues. *)
Fixpoint validateWebhookQueues (key : string) (queues : list (string * Z)) : option string :=
  match queues with
  | [] => None
  | (queue, weight) :: queues =>
      if negb (queueNamePattern queue) then Some (key +:+ ".queues")
      else if weight <=? 0 then Some (key +:+ ".queues[" +:+ queue +:+ "]")
      else validateWebhookQueues key queues
  end.

(** The body of the loop after the name: [webhookWorkerNamePattern] is the
    grammar of queue names. *)
Definition validateWebhookWorker (key : string) (allowInsecure allowPrivate : bool) (worker : WebhookWorkerConfig)
    : option string :=
  let count := Z.of_nat (length (ww_Secrets worker)) in
  firstError [
    refuse (negb (bool_decide (is_Some (httpScheme (ww_URL worker))))) (key +:+ ".url");
    refuse (bool_decide (httpScheme (ww_URL worker) = Some "http") && negb allowInsecure) (key +:+ ".url");
    refuse (negb (CheckURLTarget (ww_URL worker) allowPrivate)) (key +:+ ".url");
    refuse (size (ww_Queues worker) =? 0)%nat (key +:+ ".queues");
    validateWebhookQueues key (range_map (ww_Queues worker));
    refuse (ww_Concurrency worker <? 1) (key +:+ ".concurrency");
    refuse ((count <? 1) || (2 <? count)) (key +:+ ".secrets");
    refuse (bool_decide ("" ∈ ww_Secrets worker)) (key +:+ ".secrets");
    refuse (ww_RequestTimeout worker <? 0) (key +:+ ".request_timeout")].

Fixpoint validateWebhookWorkers (index : nat) (names : gset string) (allowInsecure allowPrivate : bool)
    (workers : list WebhookWorkerConfig) : option string :=
  match workers with
  | [] => None
  | worker :: workers =>
      let key := indexed "webhook_workers" index in
      if negb (queueNamePattern (ww_Name worker)) then Some (key +:+ ".name")
      else if decide (ww_Name worker ∈ names) then Some (key +:+ ".name")
      else
        match validateWebhookWorker key allowInsecure allowPrivate worker with
        | Some err => Some err
        | None =>
            validateWebhookWorkers (S index) ({[ww_Name worker]} ∪ names) allowInsecure allowPrivate workers
        end
  end.

Definition validateEvents (events : EventsConfig) : option string :=
  let hook := ec_Webhook events in
  firstError [
    refuse (wc_MaxRetries hook <? 0) "events.webhook.max_retries";
    refuse (negb (bool_decide (wc_URL hook = "")) && negb (bool_decide (is_Some (httpScheme (wc_URL hook)))))
      "events.webhook.url"].

Definition validateCluster {F} (registry : gmap string F) (c : ClusterConfig) : option string :=
  let ports : gmap string Z := list_to_map
    [("cluster.remoting_port", cc_RemotingPort c); ("cluster.discovery_port", cc_DiscoveryPort c);
     ("cluster.peers_port", cc_PeersPort c)] in
  let kubernetes := bool_decide (cc_Discovery c = DiscoveryKubernetes) in
  firstError [
    refuse (negb (bool_decide (cc_Discovery c ∈ [DiscoveryStatic; DiscoveryKubernetes])) &&
            negb (bool_decide (is_Some (lookupDiscovery (cc_Discovery c) registry)))) "cluster.discovery";
    refuse (bool_decide (cc_BindAddr c = "")) "cluster.bind_addr";
    refuse (kubernetes && bool_decide (kc_Namespace (cc_Kubernetes c) = "")) "cluster.kubernetes.namespace";
    refuse (kubernetes && (size (kc_PodLabels (cc_Kubernetes c)) =? 0)%nat) "cluster.kubernetes.pod_labels";
    firstError ((λ '(key, port), refuse ((port <=? 0) || (maxPortNumber <? port)) key) <$> range_map ports);
    tls_validate (cc_TLS c) "cluster.tls"].

Definition validateEngine (e : EngineConfig) : option string :=
  let durations : gmap string Duration := list_to_map
    [("engine.lease_ttl", en_LeaseTTL e); ("engine.reap_interval", en_ReapInterval e);
     ("engine.promote_interval", en_PromoteInterval e); ("engine.passivate_after", en_PassivateAfter e);
     ("engine.shutdown_timeout", en_ShutdownTimeout e); ("engine.group_max_delay", en_GroupMaxDelay e);
     ("engine.group_grace_period", en_GroupGracePeriod e);
     ("engine.group_sweep_interval", en_GroupSweepInterval e)] in
  firstError [
    firstError ((λ '(key, d), refuse (d <=? 0) key) <$> range_map durations);
    refuse (en_LeaseBatchMax e <=? 0) "engine.lease_batch_max";
    refuse (en_GroupMaxSize e <=? 0) "engine.group_max_size";
    refuse (en_DefaultMaxRetry e <? 0) "engine.default_max_retry";
    refuse (en_ArchiveRetention e <? 0) "engine.archive_retention";
    validateRateLimitDefault e;
    validateRetryBackoff e].

Definition Validate {F} (registry : gmap string F) (c : Config) : option string :=
  firstError [
    refuse (negb (bool_decide (cf_Mode c ∈ [ModeStandalone; ModeCluster; ModeKubernetes]))) "mode";
    broker_validate (cf_Broker c);
    refuse (bool_decide (ab_Listen (cf_API c) = "")) "api.listen";
    tls_validate (ab_TLS (cf_API c)) "api.tls";
    validateAuth c;
    validateCluster registry (cf_Cluster c);
    validateEngine (cf_Engine c);
    validateEvents (cf_Events c);
    validateWebhookWorkers 0 ∅ (AuthDisabled c) (cf_AllowPrivateTargets c) (cf_WebhookWorkers c);
    refuse (negb (bool_decide (lg_Level (cf_Log c) ∈ [LogLevelDebug; LogLevelInfo; LogLevelWarn; LogLevelError])))
      "log.level";
    refuse (negb (bool_decide (lg_Format (cf_Log c) ∈ [LogFormatJSON; LogFormatText]))) "log.format"].
End Webhooks.
