(* ===== verification/Server.v ===== *)
(** * The server node (server/server.go, server/cors.go, server/dashboard.go,
    server/discovery.go, Start of internal/actors/engine.go, embedded/embedded.go)

    What the node makes of a validated configuration: the engine's settings, the
    seeded registrations, the discovery source, the mounted services, the
    cross-origin and dashboard headers, readiness, the calls of a boot and the order of a shutdown.
    The listeners, the actor system and the telemetry pipeline themselves are
    left out: whether a call to one fails is an argument. *)

From S2P Require Import Prelude Proto Events BrokerApi Memory Encryption BrokerCalls Messages EventBus Backoff TaskLog Gateway QueueGrain WebhookGuard Api Session AdminApi Access Engine TasksApi Config.
From stdpp Require Import pretty.
From Stdlib Require Import Strings.Ascii.

#[local] Open Scope Z_scope.

(** ** Boot *)

(** The settings [Start] hands to the engine; the breaker's timeout keeps its
    zero value. *)
Definition settingsOf (c : Config) : Settings :=
  let e := cf_Engine c in
  let retryKind := default Backoff.Exponential (Backoff.ParseKind (en_RetryBackoffStrategy e)) in
  let retryBackoff := Backoff.NewWithKind retryKind (en_RetryBackoffBase e) (en_RetryBackoffCap e) in
  mkSettings (en_LeaseTTL e) (en_LeaseBatchMax e) (en_ResolverPoolSize e) (en_ReapInterval e)
    (en_PromoteInterval e) (en_PassivateAfter e) (en_GroupMaxSize e) (en_GroupMaxDelay e)
    (en_GroupGracePeriod e) (en_GroupSweepInterval e) (en_RateLimitEnabled e)
    (en_RateLimitRatePerSec e) (en_RateLimitBurst e) (ec_Enabled (cf_Events c))
    (ec_BufferSize (cf_Events c)) retryBackoff 0 (cf_AllowPrivateTargets c) (en_ArchiveRetention e).

(** The retry budget [buildMux] gives the task service. *)
Definition taskServiceMaxRetry (c : Config) : Z := wrap32 (en_DefaultMaxRetry (cf_Engine c)).

(** The tokens and modes [buildMux] gives the interceptors. *)
Definition accessOf (c : Config) : APIConfig :=
  mkAPIConfig (ab_AuthTokens (cf_API c))
    ((λ entry, (sc_Token entry, sc_Scopes entry)) <$> ab_ScopedTokens (cf_API c))
    (AuthDisabled c) (ab_ReadOnly (cf_API c)).

Definition declaredWorker (declared : WebhookWorkerConfig) : WebhookWorker :=
  mkWebhookWorker (ww_Name declared) (ww_URL declared) (ww_Queues declared) (ww_Concurrency declared)
    (ww_Secrets declared) (ww_BatchTypes declared) (ww_RequestTimeout declared) (ww_Paused declared).

(** The registrations are upserted in order, up to the first that fails. *)
Fixpoint seedWebhookWorkers {B} (taskLog : broker B) (now : Time) (workers : list WebhookWorkerConfig) (b : B)
    : B * option string :=
  match workers with
  | [] => (b, None)
  | declared :: workers =>
      match taskLog now (RUpsertWebhookWorker (declaredWorker declared)) b with
      | (b, Failed _) => (b, Some (ww_Name declared))
      | (b, _) => seedWebhookWorkers taskLog now workers b
      end
  end.

(** [TaskEventType_value]. *)
Definition TaskEventType_value : list (string * TaskEventType) :=
  [("TASK_EVENT_TYPE_UNSPECIFIED", TASK_EVENT_TYPE_UNSPECIFIED);
   ("TASK_EVENT_TYPE_ENQUEUED", TASK_EVENT_TYPE_ENQUEUED);
   ("TASK_EVENT_TYPE_SCHEDULED", TASK_EVENT_TYPE_SCHEDULED);
   ("TASK_EVENT_TYPE_LEASED", TASK_EVENT_TYPE_LEASED);
   ("TASK_EVENT_TYPE_COMPLETED", TASK_EVENT_TYPE_COMPLETED);
   ("TASK_EVENT_TYPE_RETRIED", TASK_EVENT_TYPE_RETRIED);
   ("TASK_EVENT_TYPE_ARCHIVED", TASK_EVENT_TYPE_ARCHIVED);
   ("TASK_EVENT_TYPE_CANCELED", TASK_EVENT_TYPE_CANCELED);
   ("TASK_EVENT_TYPE_RELEASED", TASK_EVENT_TYPE_RELEASED)].

(** [None] names an unknown event type. *)
Fixpoint parseEventTypes (names : list string) : option (list TaskEventType) :=
  match names with
  | [] => Some []
  | name :: names =>
      match (list_to_map TaskEventType_value : gmap string TaskEventType) !! name with
      | None => None
      | Some value => (λ values, value :: values) <$> parseEventTypes names
      end
  end.

(** The filter of the event webhook: [Some None] when none is configured,
    [None] an error. *)
Definition startWebhook (c : Config) : option (option EventBus.Filter) :=
  let hook := ec_Webhook (cf_Events c) in
  if decide (wc_URL hook = "") then Some None
  else (λ eventTypes, Some (NewFilter (wc_Queues hook) eventTypes)) <$> parseEventTypes (wc_EventTypes hook).

(** The discovery source; a custom factory may fail. *)
Inductive discoverySource (P : Type) :=
  | StaticHosts (hosts : list string)
  | KubernetesPods (namespace : string) (labels : gmap string string) (portName : string)
  | CustomProvider (provider : P).
Arguments StaticHosts {_} _.
Arguments KubernetesPods {_} _ _ _.
Arguments CustomProvider {_} _.

Definition buildCustomDiscovery {P} (registry : gmap string (gmap string string → option P)) (c : Config)
    (name : string) : option (discoverySource P) :=
  match lookupDiscovery name registry with
  | None => None
  | Some factory => CustomProvider <$> factory (cc_Options (cf_Cluster c))
  end.

Definition buildDiscovery {P} (registry : gmap string (gmap string string → option P)) (c : Config)
    : option (discoverySource P) :=
  let cluster := cf_Cluster c in
  if decide (cc_Discovery cluster = DiscoveryStatic) then
    let hosts := cc_StaticPeers cluster in
    Some (StaticHosts
      (if (length hosts =? 0)%nat
       then [cc_BindAddr cluster +:+ ":" +:+ pretty (cc_DiscoveryPort cluster)] else hosts))
  else if decide (cc_Discovery cluster = DiscoveryKubernetes) then
    let k8s := cc_Kubernetes cluster in
    Some (KubernetesPods (kc_Namespace k8s) (kc_PodLabels k8s) (kc_DiscoveryPortName k8s))
  else buildCustomDiscovery registry c (cc_Discovery cluster).

(** ** The mux *)

(** A mounted handler: the bound on a message and the interceptors before it. *)
Record mount := mkMount {
  mt_path : string;
  mt_maxBytes : option Z;
  mt_auth : bool;
  mt_readOnly : bool }.

Definition webhookServicePrefix : string := "/conveyor.v1.WebhookService/".

Definition buildMux (dashboardBuilt : bool) (c : Config) : list mount :=
  let auth := negb (AuthDisabled c) in
  [mkMount "/healthz" None false false; mkMount "/readyz" None false false;
   mkMount taskServicePrefix (Some MaxRequestBytes) auth false;
   mkMount workerServicePrefix (Some MaxRequestBytes) auth false;
   mkMount adminServicePrefix (Some MaxRequestBytes) auth (ab_ReadOnly (cf_API c));
   mkMount webhookServicePrefix (Some MaxMessageBytes) false false] ++
  (if ab_Dashboard (cf_API c) && dashboardBuilt
   then [mkMount "/dashboard-config.json" None false false; mkMount "/" None false false] else []).

(** ** Cross-origin requests *)

Definition corsWildcard : string := "*".
Definition corsAllowHeaders : string :=
  "Authorization, Content-Type, Connect-Protocol-Version, Connect-Timeout-Ms".
Definition corsAllowMethods : string := "GET, POST, OPTIONS".
Definition corsMaxAge : string := "86400".

(** [strings.EqualFold] on ASCII. *)
Definition EqualFold (s t : string) : bool := bool_decide (ToLower s = ToLower t).

(** The headers the wrapper adds, and whether it answers itself with 204 instead
    of passing the request on. *)
Definition withCORS (origins : list string) (method origin : string) : list (string * string) * bool :=
  if (length origins =? 0)%nat then ([], false)
  else
    let allowAny := bool_decide (corsWildcard ∈ origins) in
    let headers :=
      if negb (bool_decide (origin = "")) && (allowAny || bool_decide (origin ∈ origins)) then
        [("Access-Control-Allow-Origin", origin); ("Vary", "Origin");
         ("Access-Control-Allow-Methods", corsAllowMethods);
         ("Access-Control-Allow-Headers", corsAllowHeaders); ("Access-Control-Max-Age", corsMaxAge)]
      else [] in
    (headers, EqualFold method "OPTIONS").

(** ** The dashboard *)

Definition dashboardAssetsPrefix : string := "/assets/".
Definition assetCacheControl : string := "public, max-age=31536000, immutable".
Definition htmlCacheControl : string := "no-cache".

Definition withDashboardHeaders (path : string) : list (string * string) :=
  [("X-Content-Type-Options", "nosniff"); ("X-Frame-Options", "DENY"); ("Referrer-Policy", "no-referrer");
   ("Cache-Control", if HasPrefix path dashboardAssetsPrefix then assetCacheControl else htmlCacheControl)].

Record dashboardConfig := mkDashboardConfig { dc_GrafanaURL : string; dc_ReadOnly : bool }.

Definition serveDashboardConfig (c : Config) : list (string * string) * dashboardConfig :=
  ([("Content-Type", "application/json"); ("Cache-Control", htmlCacheControl);
    ("X-Content-Type-Options", "nosniff")],
   mkDashboardConfig (ab_GrafanaURL (cf_API c)) (ab_ReadOnly (cf_API c))).

(** ** Readiness *)

(** The status: [probe] is the broker's reply to the count of pending tasks. *)
Definition readyz (engineUp brokerUp : bool) (probe : bool) : Z :=
  if negb engineUp || negb brokerUp then 503
  else if negb probe then 503
  else 200.

(** ** Shutdown *)

(** What of the node is running. *)
Record node := mkNode {
  nd_webhook : bool;
  nd_workerService : bool;
  nd_engine : bool;
  nd_taskLog : bool;
  nd_metricsServer : bool;
  nd_telemetry : bool }.

(** The calls of a shutdown. The HTTP server's runs beside the engine's; it is
    listed where it starts and has ended before the broker's. *)
Inductive stopCall :=
  | StopEventWebhook
  | DrainWorkerSessions
  | ShutdownHTTP
  | StopEngine
  | CloseBroker
  | ShutdownMetrics
  | ShutdownTelemetry.

#[global] Instance stopCall_eq_dec : EqDecision stopCall.
Proof. solve_decision. Defined.

(** The node after the calls, the calls made, and those that failed. A part
    whose call failed stays for the next attempt. *)
Definition Stop (fails : stopCall → bool) (n : node) : node * list stopCall * list stopCall :=
  let when (b : bool) (call : stopCall) : list stopCall := if b then [call] else [] in
  let calls :=
    when (nd_webhook n) StopEventWebhook ++ when (nd_workerService n) DrainWorkerSessions ++ [ShutdownHTTP] ++
    when (nd_engine n) StopEngine ++ when (nd_taskLog n) CloseBroker ++
    when (nd_metricsServer n) ShutdownMetrics ++ when (nd_telemetry n) ShutdownTelemetry in
  (mkNode false (nd_workerService n) (nd_engine n && fails StopEngine) (nd_taskLog n && fails CloseBroker)
     (nd_metricsServer n && fails ShutdownMetrics) (nd_telemetry n && fails ShutdownTelemetry),
   calls, filter (λ call, fails call = true ∧ call ≠ StopEventWebhook) calls).

(** ** Logging *)

Inductive slogLevel := LevelDebug | LevelInfo | LevelWarn | LevelError.

(** The level, and whether the handler writes text. *)
Definition NewLogger (config : LogConfig) : slogLevel * bool :=
  (if decide (lg_Level config = LogLevelDebug) then LevelDebug
   else if decide (lg_Level config = LogLevelWarn) then LevelWarn
   else if decide (lg_Level config = LogLevelError) then LevelError
   else LevelInfo, bool_decide (lg_Format config = LogFormatText)).

(** ** Boot *)

(** The calls of [Server.Start] and, within it, of the engine's [Start]. *)
Inductive bootCall :=
  | BuildBroker
  | SeedWebhookWorkers
  | BuildDiscovery
  | BuildClusterTLS
  | NewTelemetry
  | CheckProvider
  | NewActorSystem
  | StartActorSystem
  | SpawnSingleton (name : string)
  | SpawnRouter (name : string) (poolSize : Z)
  | SetSink
  | SpawnRelay (name : string)
  | EngineStarted
  | SetEventSink
  | StartWebhook
  | RegisterEngineMetrics
  | BindMetrics
  | BindAPI
  | ServeAPI.

(** Those that cannot fail. *)
Definition infallible (call : bootCall) : bool :=
  match call with SetSink | EngineStarted | SetEventSink | ServeAPI => true | _ => false end.

(** What runs: the parts [Stop] knows of, the actor system with the resolver and the
    sink its engine holds, and the API listener. *)
Record machine := mkMachine {
  mc_node : node;
  mc_system : bool;
  mc_resolver : bool;
  mc_sink : bool;
  mc_listener : bool }.

#[global] Instance node_eta : Eta node := λ n,
  mkNode (nd_webhook n) (nd_workerService n) (nd_engine n) (nd_taskLog n) (nd_metricsServer n) (nd_telemetry n).
#[global] Instance machine_eta : Eta machine := λ m,
  mkMachine (mc_node m) (mc_system m) (mc_resolver m) (mc_sink m) (mc_listener m).

Definition halted : machine := mkMachine (mkNode false false false false false false) false false false false.

(** What a call that succeeds leaves running. *)
Definition booted (call : bootCall) (m : machine) : machine :=
  let part (f : node → node) := m <| mc_node := f (mc_node m) |> in
  match call with
  | BuildBroker => part (λ n, n <| nd_taskLog := true |>)
  | NewTelemetry => part (λ n, n <| nd_telemetry := true |>)
  | StartActorSystem => m <| mc_system := true |>
  | SpawnRouter _ _ => m <| mc_resolver := true |>
  | SetSink => m <| mc_sink := true |>
  | EngineStarted => part (λ n, n <| nd_engine := true |>)
  | StartWebhook => part (λ n, n <| nd_webhook := true |>)
  | BindMetrics => part (λ n, n <| nd_metricsServer := true |>)
  | BindAPI => m <| mc_listener := true |>
  | ServeAPI => part (λ n, n <| nd_workerService := true |>)
  | _ => m
  end.

Definition nodeLocalName (prefix : string) (c : Config) : string :=
  prefix +:+ "-" +:+ cc_BindAddr (cf_Cluster c) +:+ "-" +:+ pretty (cc_RemotingPort (cf_Cluster c)).

(** [Engine.Start]. *)
Definition engineCalls (c : Config) : list bootCall :=
  [CheckProvider; NewActorSystem; StartActorSystem;
   SpawnSingleton "conveyor-scheduler"; SpawnSingleton "conveyor-reaper";
   SpawnSingleton "conveyor-group-sweeper"; SpawnSingleton "conveyor-webhook-manager"] ++
  (let poolSize := en_ResolverPoolSize (cf_Engine c) in
   if 0 <? poolSize then [SpawnRouter (nodeLocalName "conveyor-resolver" c) poolSize] else []) ++
  (if ec_Enabled (cf_Events c) then [SetSink; SpawnRelay (nodeLocalName "conveyor-event-relay" c)] else []).

Definition telemetryOn (c : Config) : bool := negb (bool_decide (cf_MetricsListen c = "")).

Definition webhookOn (c : Config) : bool := negb (bool_decide (wc_URL (ec_Webhook (cf_Events c)) = "")).

(** [Server.Start]; the engine is kept only once its own Start returned nil. *)
Definition bootCalls (c : Config) : list bootCall :=
  [BuildBroker; SeedWebhookWorkers; BuildDiscovery; BuildClusterTLS] ++
  (if telemetryOn c then [NewTelemetry] else []) ++
  engineCalls c ++ [EngineStarted] ++
  (if ec_Enabled (cf_Events c) then [SetEventSink] ++ (if webhookOn c then [StartWebhook] else []) else []) ++
  (if telemetryOn c then [RegisterEngineMetrics; BindMetrics] else []) ++
  [BindAPI; ServeAPI].

(** The calls are made in order up to the first that fails, which is returned. *)
Fixpoint makeCalls (fails : bootCall → bool) (calls : list bootCall) (m : machine) : machine * option bootCall :=
  match calls with
  | [] => (m, None)
  | call :: calls =>
      if fails call && negb (infallible call) then (m, Some call)
      else makeCalls fails calls (booted call m)
  end.

Definition Start (fails : bootCall → bool) (c : Config) : machine * option bootCall :=
  makeCalls fails (bootCalls c) halted.

(** A shutdown of what runs: the engine's Stop stops the actor system, the HTTP
    server's closes the listener. *)
Definition stopMachine (fails : stopCall → bool) (m : machine) : machine :=
  let '(n, calls, _) := Stop fails (mc_node m) in
  let stops := bool_decide (StopEngine ∈ calls) && negb (fails StopEngine) in
  mkMachine n (mc_system m && negb stops) (mc_resolver m && negb stops) (mc_sink m && negb stops)
    false.

(** ** Embedding (embedded/embedded.go) *)

Record embeddedBroker := mkEmbeddedBroker { eb_driver : string; eb_dsn : string }.

Definition embedded_Memory : embeddedBroker := mkEmbeddedBroker BrokerMemory "".
Definition embedded_Postgres (dsn : string) : embeddedBroker := mkEmbeddedBroker BrokerPostgres dsn.

Definition loopbackAnyPort : string := "127.0.0.1:0".

#[global] Instance ClusterConfig_eta : Eta ClusterConfig := λ c,
  mkClusterConfig (cc_Discovery c) (cc_BindAddr c) (cc_StaticPeers c) (cc_RemotingPort c) (cc_DiscoveryPort c)
    (cc_PeersPort c) (cc_TLS c) (cc_Kubernetes c) (cc_Options c).

(** [dynaport.Get] reserves the three ports. *)
Definition buildServerConfig (ports : Z * Z * Z) (b : embeddedBroker) : Config :=
  let '(remoting, discovery, peers) := ports in
  let driver := if decide (eb_driver b = "") then BrokerMemory else eb_driver b in
  let c := DefaultConfig in
  let c := c <| cf_Broker := mkBrokerConfig driver (eb_dsn b) noPool |> in
  let c := c <| cf_API := (cf_API c) <| ab_Listen := loopbackAnyPort |> <| ab_AllowUnauthenticated := true |> |> in
  let c := c <| cf_Cluster := (cf_Cluster c) <| cc_RemotingPort := remoting |> <| cc_DiscoveryPort := discovery |>
                                             <| cc_PeersPort := peers |> |> in
  let c := c <| cf_Log := mkLogConfig LogLevelWarn LogFormatText |> in
  c <| cf_MetricsListen := "" |>.

(** [embedded.Start] after its configuration was built and validated: the machine it
    leaves, and whether it returns a system to stop it with. [clientOk] is
    whether the SDK accepts the address of the listener. *)
Definition embedded_Start (fails : bootCall → bool) (stopFails : stopCall → bool) (clientOk : bool) (c : Config)
    : machine * bool :=
  match Start fails c with
  | (m, Some _) => (m, false)
  | (m, None) => if clientOk then (m, true) else (stopMachine stopFails m, false)
  end.
