(* ===== verification/ConfigProps.v ===== *)
(** * What a validated configuration promises the rest of the server *)

From S2P Require Import Prelude Proto Events BrokerApi Memory Encryption BrokerCalls Messages EventBus Backoff TaskLog Gateway QueueGrain WebhookGuard Api Session SessionProps AdminApi Access Engine TasksApi Config Server.
From Stdlib Require Import Floats.SpecFloat Strings.Ascii.

#[local] Open Scope Z_scope.

(** ** Checks *)

Lemma firstError_none checks : firstError checks = None ↔ Forall (λ e, e = None) checks.
Proof.
  induction checks as [|[key|] checks IH]; cbn; [by split| |].
  - split; [done|]. by intros [? _]%Forall_cons.
  - rewrite IH, Forall_cons. naive_solver.
Qed.

Lemma refuse_none condition key : refuse condition key = None ↔ condition = false.
Proof. by destruct condition. Qed.

Lemma firstError_fmap {A} (f : A → option string) l : firstError (f <$> l) = None ↔ ∀ x, x ∈ l → f x = None.
Proof. rewrite firstError_none, Forall_fmap, Forall_forall. done. Qed.

Lemma firstError_imap {A} (f : nat → A → option string) l :
  firstError (imap f l) = None ↔ ∀ i x, l !! i = Some x → f i x = None.
Proof.
  rewrite firstError_none, Forall_lookup. split.
  - intros Hf i x Hi. apply (Hf i). by rewrite list_lookup_imap, Hi.
  - intros Hf i y. rewrite list_lookup_imap. destruct (l !! i) as [x|] eqn:Hi; [|done]. intros [= <-]. by apply Hf.
Qed.

(** Splits what a list of checks that pass says. *)
Ltac passes H :=
  rewrite firstError_none in H;
  repeat match type of H with
  | Forall _ (_ :: _) =>
      let H1 := fresh "Hpass" in apply Forall_cons in H as [H1 H]; rewrite ?refuse_none in H1
  end.

(** ** Tokens *)

Lemma CutPrefix_prefixed prefix s : CutPrefix (prefix +:+ s) prefix = Some s.
Proof.
  induction prefix as [|c prefix IH]; [by destruct s|].
  change (String c prefix +:+ s) with (String c (prefix +:+ s)). cbn [CutPrefix]. by rewrite Ascii.eqb_refl.
Qed.

Lemma scopedTokensDistinct_none index seen tokens :
  scopedTokensDistinct index seen tokens = None →
  NoDup (sc_Token <$> tokens) ∧ ∀ entry, entry ∈ tokens → sc_Token entry ∉ seen.
Proof.
  revert index seen. induction tokens as [|entry tokens IH]; intros index seen; cbn.
  { intros _. split; [constructor|]. by intros e ?%not_elem_of_nil. }
  case_decide as Hin; [done|]. intros [Hnd Hseen]%IH. split.
  - apply NoDup_cons. split; [|done]. intros (e & Ht & He)%list_elem_of_fmap.
    apply (Hseen e He). rewrite <- Ht. set_solver.
  - intros e [->|He]%elem_of_cons; [done|]. intros Hc. apply (Hseen e He). set_solver.
Qed.

(** The first entry of a token decides. *)
Lemma findToken_first before entry after candidate procedure :
  tok_Token entry = candidate → (∀ e, e ∈ before → tok_Token e ≠ candidate) →
  findToken (before ++ entry :: after) candidate procedure = authorizeScope (tok_Scopes entry) procedure.
Proof.
  intros He Hb. induction before as [|e before IH]; cbn [app findToken].
  - by rewrite decide_True.
  - rewrite decide_False; [|intros Hc; by apply (Hb e ltac:(left))]. apply IH. intros e' Hin. apply Hb. by right.
Qed.

Lemma authorize_bearer tokens token procedure :
  token ≠ "" → authorize tokens (bearerPrefix +:+ token) procedure = findToken tokens token procedure.
Proof. intros Ht. unfold authorize. rewrite CutPrefix_prefixed. by rewrite decide_False. Qed.

(** A scoped token is judged by its own declaration. *)
Lemma scoped_token_scopes full scoped entry procedure :
  entry ∈ scoped → NoDup (sc_Token <$> scoped) → sc_Token entry ∉ full →
  findToken (((λ token, mkScopedToken token AllScopes) <$> full) ++
    ((λ '(token, names), mkScopedToken token (omap ParseScope names)) <$>
       ((λ entry, (sc_Token entry, sc_Scopes entry)) <$> scoped))) (sc_Token entry) procedure =
  authorizeScope (omap ParseScope (sc_Scopes entry)) procedure.
Proof.
  intros (l1 & l2 & ->)%list_elem_of_split Hnd Hfull. rewrite !fmap_app, app_assoc. cbn.
  rewrite fmap_app in Hnd. apply NoDup_app in Hnd as (_ & Hdis & _).
  apply findToken_first; [done|]. intros e [(t & -> & Ht)%list_elem_of_fmap|He]%elem_of_app; cbn.
  - by intros ->.
  - apply list_elem_of_fmap in He as (p & -> & Hp). apply list_elem_of_fmap in Hp as (e0 & -> & He0). cbn. intros Heq.
    apply (Hdis (sc_Token e0)); [apply list_elem_of_fmap; by exists e0|]. rewrite Heq. left.
Qed.

(** A full-access token is judged as one, whatever follows. *)
Lemma full_token_scopes full rest token procedure :
  token ∈ full →
  findToken (((λ token, mkScopedToken token AllScopes) <$> full) ++ rest) token procedure =
  authorizeScope AllScopes procedure.
Proof.
  induction full as [|t full IH]; [by intros ?%not_elem_of_nil|]. cbn.
  case_decide as Ht; [done|]. intros [->|Hin]%elem_of_cons; [done|]. by apply IH.
Qed.

Lemma known_scopes names :
  (∀ name, name ∈ names → is_Some (ParseScope name)) → length (omap ParseScope names) = length names.
Proof.
  induction names as [|name names IH]; [done|]. intros Hk. cbn.
  destruct (Hk name ltac:(left)) as [scope ->]. cbn. f_equal. apply IH. intros n Hn. apply Hk. by right.
Qed.

(** ** Retry delays and rates *)

Lemma ceiling_positive s retried :
  0 < Backoff.base s → Backoff.base s <= Backoff.maxDelay s → int64_range (Backoff.maxDelay s) → 0 <= retried →
  0 < Backoff.ceiling s retried <= Backoff.maxDelay s.
Proof.
  intros Hb Hm Hr Hn. split.
  - unfold Backoff.ceiling. destruct (Backoff.kind s).
    + destruct (retried <? 62); [|lia]. cbv zeta.
      destruct (Z.ltb_spec 0 (wrap64 (Z.shiftl (Backoff.base s) retried))); cbn [andb]; [|lia].
      destruct (_ <? Backoff.maxDelay s); lia.
    + rewrite Backoff.scaled_exact by (done || lia). apply Z.min_glb_lt; [|lia].
      apply Z.mul_pos_pos; lia.
    + lia.
  - pose proof (Backoff.ceiling_le s retried Hr). lia.
Qed.

(** The default rate is either zero, which leaves queues unlimited, or makes a
    limiter. *)
Lemma default_rate_ok {RL : RateLimiter} e :
  validateRateLimitDefault e = None →
  if SFltb (S754_zero false) (en_RateLimitRatePerSec e)
  then buildLimiter (en_RateLimitRatePerSec e) (en_RateLimitBurst e) =
         Some (NewLimiter (en_RateLimitRatePerSec e) (en_RateLimitBurst e))
  else buildLimiter (en_RateLimitRatePerSec e) (en_RateLimitBurst e) = None.
Proof.
  unfold validateRateLimitDefault. cbv zeta. intros H. passes H. unfold buildLimiter.
  destruct (en_RateLimitRatePerSec e) as [s|s| |s m ex]; cbn in *; try done; try by destruct s.
  destruct s; cbn in *; [done|]. by rewrite Hpass0.
Qed.

(** ** The engine *)

(** What the engine's components rely on. *)
Record engine_ok {RL : RateLimiter} (s : Settings) : Prop := {
  eo_lease : 0 < set_LeaseTTL s;
  eo_batch : 0 < set_LeaseBatchMax s;
  eo_reap : 0 < set_ReapInterval s;
  eo_promote : 0 < set_PromoteInterval s;
  eo_passivate : 0 < set_PassivateAfter s;
  eo_size : 0 < set_GroupMaxSize s;
  eo_delay : 0 < set_GroupMaxDelay s;
  eo_grace : 0 < set_GroupGracePeriod s;
  eo_sweep : 0 < set_GroupSweepInterval s;
  eo_archive : 0 <= set_ArchiveRetention s;
  eo_retry : ∀ retried, int64_range (Backoff.maxDelay (set_RetryBackoff s)) → 0 <= retried →
    0 < Backoff.ceiling (set_RetryBackoff s) retried <= Backoff.maxDelay (set_RetryBackoff s);
  eo_rate : is_Some (buildLimiter (set_RateLimitRatePerSec s) (set_RateLimitBurst s)) ↔
    SFltb (S754_zero false) (set_RateLimitRatePerSec s) = true }.

Lemma duration_positive {MR : MapRange} (durations : gmap string Duration) key d :
  firstError ((λ '(key, d), refuse (d <=? 0) key) <$> range_map durations) = None →
  durations !! key = Some d → 0 < d.
Proof.
  rewrite firstError_fmap. intros Hall Hk. specialize (Hall (key, d) ltac:(by apply elem_of_range_map)).
  cbn in Hall. rewrite refuse_none in Hall. apply Z.leb_gt in Hall. done.
Qed.

Lemma validated_engine {MR : MapRange} {RL : RateLimiter} c : validateEngine (cf_Engine c) = None → engine_ok (settingsOf c).
Proof.
  unfold validateEngine. cbv zeta. intros H. passes H.
  pose proof (default_rate_ok _ Hpass4) as Hrate. unfold validateRetryBackoff in Hpass5. passes Hpass5.
  split; cbn; try lia.
  1: eapply (duration_positive _ "engine.lease_ttl"); [exact Hpass|vm_compute; reflexivity].
  1: eapply (duration_positive _ "engine.reap_interval"); [exact Hpass|vm_compute; reflexivity].
  1: eapply (duration_positive _ "engine.promote_interval"); [exact Hpass|vm_compute; reflexivity].
  1: eapply (duration_positive _ "engine.passivate_after"); [exact Hpass|vm_compute; reflexivity].
  1: eapply (duration_positive _ "engine.group_max_delay"); [exact Hpass|vm_compute; reflexivity].
  1: eapply (duration_positive _ "engine.group_grace_period"); [exact Hpass|vm_compute; reflexivity].
  1: eapply (duration_positive _ "engine.group_sweep_interval"); [exact Hpass|vm_compute; reflexivity].
  - intros retried Hr Hn. apply ceiling_positive; cbn in *; [lia|lia|done|done].
  - destruct (SFltb _ _); rewrite Hrate; split; try done; by intros [? ?].
Qed.

(** ** Declared webhook workers *)

Section Webhooks.
Context {MR : MapRange} {NP : NetParsers} {UP : UrlParser}.

(** The registration as the admin API would receive it. *)
Definition wireWorker (w : WebhookWorkerConfig) : WebhookWorkerInfo :=
  mkWebhookWorkerInfo (ww_Name w) (ww_URL w) (ww_Queues w) (ww_Concurrency w) (ww_Secrets w)
    (ww_BatchTypes w) (Some (ww_RequestTimeout w)) (ww_Paused w).

Lemma validateWebhookQueues_none key queues :
  validateWebhookQueues key queues = None ↔ validateQueues queues = None.
Proof.
  induction queues as [|[queue weight] queues IH]; [done|]. cbn.
  destruct (queueNamePattern queue); [|done]. destruct (weight <=? 0); [done|]. apply IH.
Qed.

Lemma declared_url aw raw :
  validateWebhookURL aw raw =
  bool_decide (is_Some (httpScheme raw)) && negb (bool_decide (httpScheme raw = Some "http") && negb (aw_allowInsecure aw)) &&
  CheckURLTarget raw (aw_allowPrivate aw).
Proof.
  unfold validateWebhookURL, httpScheme. destruct (url_Parse raw) as [[scheme host]|]; [|done].
  destruct (bool_decide (host = "")); [done|]. cbn [negb andb].
  destruct (bool_decide (scheme = "http")) eqn:H1; cbn [orb].
  - apply bool_decide_eq_true in H1 as ->. rewrite !(bool_decide_true (is_Some _)), bool_decide_true by done. done.
  - apply bool_decide_eq_false in H1. destruct (bool_decide (scheme = "https")); [|done].
    rewrite bool_decide_true by done. rewrite bool_decide_false by congruence. done.
Qed.

(** A check that fails, against a refusal. *)
Ltac refused := split; [intros H; exfalso; decompose [and] H; discriminate|discriminate].

(** One declaration passes exactly when the admin API accepts it. *)
Lemma declared_as_admin key aw w :
  queueNamePattern (ww_Name w) = true →
  validateWebhookWorker key (aw_allowInsecure aw) (aw_allowPrivate aw) w = None ↔
  webhookWorkerFromRequest aw (Some (wireWorker w)) = inr (declaredWorker w).
Proof.
  intros Hn. unfold validateWebhookWorker, webhookWorkerFromRequest. cbv zeta.
  cbn [wireWorker whi_Name whi_Url whi_Queues whi_Concurrency whi_Secrets whi_BatchTypes whi_RequestTimeout whi_Paused].
  change (AsDuration (Some (ww_RequestTimeout w))) with (ww_RequestTimeout w).
  rewrite Hn, declared_url. cbn [negb]. rewrite firstError_none, !Forall_cons, !refuse_none, validateWebhookQueues_none.
  destruct (bool_decide (is_Some (httpScheme (ww_URL w)))); cbn [negb andb]; [|refused].
  destruct (bool_decide (httpScheme (ww_URL w) = Some "http") && negb (aw_allowInsecure aw)); cbn [negb andb]; [refused|].
  destruct (CheckURLTarget (ww_URL w) (aw_allowPrivate aw)); cbn [negb]; [|refused].
  destruct (decide (size (ww_Queues w) = 0%nat)) as [Hs|Hs];
    [rewrite (proj2 (Nat.eqb_eq _ _) Hs); refused|rewrite (proj2 (Nat.eqb_neq _ _) Hs)].
  destruct (validateQueues (range_map (ww_Queues w))); [refused|].
  destruct (ww_Concurrency w <? 1); [refused|]. unfold webhookSecretLimit.
  destruct (_ || (2 <? _)); [refused|].
  destruct (decide ("" ∈ ww_Secrets w)) as [He|He]; [rewrite bool_decide_true by done; refused|].
  rewrite bool_decide_false by done. destruct (ww_RequestTimeout w <? 0); [refused|].
  split; [done|]. repeat split; try done.
Qed.

Lemma validateWebhookWorkers_none index names aw workers :
  validateWebhookWorkers index names (aw_allowInsecure aw) (aw_allowPrivate aw) workers = None ↔
  NoDup (ww_Name <$> workers) ∧ (∀ w, w ∈ workers → ww_Name w ∉ names) ∧
  ∀ w, w ∈ workers → webhookWorkerFromRequest aw (Some (wireWorker w)) = inr (declaredWorker w).
Proof.
  revert index names. induction workers as [|w workers IH]; intros index names; cbn [validateWebhookWorkers].
  { split; [|done]. intros _. split; [constructor|]. split; intros w ?%not_elem_of_nil; done. }
  assert (Hname : webhookWorkerFromRequest aw (Some (wireWorker w)) = inr (declaredWorker w) →
    queueNamePattern (ww_Name w) = true).
  { unfold webhookWorkerFromRequest. cbn. by destruct (queueNamePattern (ww_Name w)). }
  destruct (queueNamePattern (ww_Name w)) eqn:Hn; cbn [negb].
  2: { split; [done|]. intros (_ & _ & Ha). specialize (Hname (Ha w ltac:(left))). done. }
  case_decide as Hin; [split; [done|]; intros (_ & Hs & _); by destruct (Hs w ltac:(left))|].
  destruct (validateWebhookWorker _ _ _ w) eqn:Hv.
  { split; [done|]. intros (_ & _ & Ha). 
    specialize (Ha w ltac:(left)). apply (declared_as_admin (indexed "webhook_workers" index)) in Ha; [congruence|done]. }
  apply declared_as_admin in Hv; [|done]. rewrite IH. cbn. rewrite NoDup_cons. split.
  - intros (Hnd & Hs & Ha). split_and!; [|done| |].
    + intros (w' & Hw & Hin')%list_elem_of_fmap. apply (Hs w' Hin'). rewrite <- Hw. set_solver.
    + intros w' [->|Hw]%elem_of_cons; [done|]. specialize (Hs w' Hw). set_solver.
    + intros w' [->|Hw]%elem_of_cons; [done|by apply Ha].
  - intros ((Hni & Hnd) & Hs & Ha). split_and!; [done| |].
    + intros w' Hw. apply not_elem_of_union. split; [|apply Hs; by right].
      intros Heq%elem_of_singleton. apply Hni, list_elem_of_fmap. by exists w'.
    + intros w' Hw. apply Ha. by right.
Qed.

(** Seeding stores the declared registrations and leaves the others. *)
Lemma seed_memory now workers b :
  NoDup (ww_Name <$> workers) →
  let r := seedWebhookWorkers memory now workers b in
  r.2 = None ∧ br_tasks r.1 = br_tasks b ∧
  (∀ w, w ∈ workers → br_webhookWorkers r.1 !! ww_Name w = Some (declaredWorker w)) ∧
  (∀ name, name ∉ ww_Name <$> workers → br_webhookWorkers r.1 !! name = br_webhookWorkers b !! name).
Proof.
  revert b. induction workers as [|w workers IH]; intros b Hnd; cbn.
  { split_and!; [done|done| |done]. by intros w ?%not_elem_of_nil. }
  apply NoDup_cons in Hnd as [Hni Hnd].
  destruct (IH (Memory.UpsertWebhookWorker (declaredWorker w) b) Hnd) as (H1 & H2 & H3 & H4). split_and!; [done|done| |].
  - intros w' [->|Hw]%elem_of_cons; [|by apply H3]. rewrite H4 by done. cbn. by rewrite lookup_insert_eq.
  - intros name Hname. apply not_elem_of_cons in Hname as [Hne Hname]. rewrite H4 by done. cbn.
    by rewrite lookup_insert_ne.
Qed.
End Webhooks.

Lemma validated_auth c :
  validateAuth c = None →
  (AuthDisabled c = true → ab_AllowUnauthenticated (cf_API c) = true) ∧
  (∀ token procedure, token ∈ ab_AuthTokens (cf_API c) →
     authorize (scopedTokens (accessOf c)) (bearerPrefix +:+ token) procedure = authorizeScope AllScopes procedure) ∧
  (∀ entry procedure, entry ∈ ab_ScopedTokens (cf_API c) →
     length (omap ParseScope (sc_Scopes entry)) = length (sc_Scopes entry) ∧ sc_Scopes entry ≠ [] ∧
     authorize (scopedTokens (accessOf c)) (bearerPrefix +:+ sc_Token entry) procedure =
       authorizeScope (omap ParseScope (sc_Scopes entry)) procedure).
Proof.
  unfold validateAuth. intros H. passes H.
  unfold validateAuthTokens in Hpass0. unfold validateScopedTokens in Hpass1. rewrite firstError_imap in Hpass0. rewrite firstError_imap in Hpass1.
  apply scopedTokensDistinct_none in Hpass2 as [Hnd Hseen]. split_and!.
  - intros Hd. rewrite Hd in Hpass. by destruct (ab_AllowUnauthenticated (cf_API c)).
  - intros token procedure Hin. rewrite authorize_bearer; [by apply full_token_scopes|].
    apply list_elem_of_lookup in Hin as [i Hi]. apply Hpass0 in Hi. rewrite refuse_none in Hi.
    by apply bool_decide_eq_false in Hi.
  - intros entry procedure Hin. pose proof Hin as [i Hi]%list_elem_of_lookup. apply Hpass1 in Hi.
    unfold validateScopedToken in Hi. cbv zeta in Hi. passes Hi. rewrite firstError_fmap in Hpass4. split_and!.
    + apply known_scopes. intros name Hn. apply Hpass4 in Hn. rewrite refuse_none in Hn.
      by apply negb_false_iff, bool_decide_eq_true in Hn.
    + intros Hs. by rewrite Hs in Hpass3.
    + rewrite authorize_bearer by (by apply bool_decide_eq_false in Hpass2).
      apply scoped_token_scopes; [done|done|]. intros Hc. apply (Hseen entry Hin). set_solver.
Qed.

Lemma validated_discovery {MR : MapRange} {P} (registry : gmap string (gmap string string → option P)) c :
  validateCluster registry (cf_Cluster c) = None →
  is_Some (buildDiscovery registry c) ∨
  ∃ factory, registry !! cc_Discovery (cf_Cluster c) = Some factory ∧ factory (cc_Options (cf_Cluster c)) = None.
Proof.
  unfold validateCluster. cbv zeta. intros H. passes H. unfold buildDiscovery. cbv zeta.
  destruct (decide (cc_Discovery (cf_Cluster c) = DiscoveryStatic)); [left; by eexists|].
  destruct (decide (cc_Discovery (cf_Cluster c) = DiscoveryKubernetes)); [left; by eexists|].
  unfold buildCustomDiscovery.
  rewrite bool_decide_false in Hpass by set_solver. cbn in Hpass.
  apply negb_false_iff, bool_decide_eq_true in Hpass as [factory Hf]. rewrite Hf.
  destruct (factory (cc_Options (cf_Cluster c))) as [p|] eqn:Hp; [left; by eexists|].
  right. by exists factory.
Qed.

(** C36: A configuration that validates is one the server can run. The API is
    open only when that is asked for; a bearer token of [auth_tokens] has every
    scope, and a scoped token exactly the scopes declared with it, at least one,
    never those of another entry. The settings of the engine are those its actors
    rely on: positive lease, intervals, batch and group sizes, a retry delay whose
    ceiling is positive and at most the cap for every attempt, and a default rate
    that is off or makes a limiter. The retry budget of tasks that set none is not
    negative as far as it fits 32 bits. Discovery has a provider, unless a custom
    factory itself fails. *)
Theorem validated_config_runs {MR : MapRange} {NP : NetParsers} {UP : UrlParser} {RL : RateLimiter} {P}
    (registry : gmap string (gmap string string → option P)) c :
  Validate registry c = None →
  (AuthDisabled c = true → ab_AllowUnauthenticated (cf_API c) = true) ∧
  (∀ token procedure, token ∈ ab_AuthTokens (cf_API c) →
     authorize (scopedTokens (accessOf c)) (bearerPrefix +:+ token) procedure = authorizeScope AllScopes procedure) ∧
  (∀ entry procedure, entry ∈ ab_ScopedTokens (cf_API c) →
     length (omap ParseScope (sc_Scopes entry)) = length (sc_Scopes entry) ∧ sc_Scopes entry ≠ [] ∧
     authorize (scopedTokens (accessOf c)) (bearerPrefix +:+ sc_Token entry) procedure =
       authorizeScope (omap ParseScope (sc_Scopes entry)) procedure) ∧
  engine_ok (settingsOf c) ∧
  (en_DefaultMaxRetry (cf_Engine c) < 2 ^ 31 → 0 <= taskServiceMaxRetry c) ∧
  (is_Some (buildDiscovery registry c) ∨
   ∃ factory, registry !! cc_Discovery (cf_Cluster c) = Some factory ∧ factory (cc_Options (cf_Cluster c)) = None).
Proof.
  unfold Validate. intros H. passes H. destruct (validated_auth _ Hpass3) as (H1 & H2 & H3).
  split_and!; [done|done|done|by apply validated_engine| |by apply validated_discovery].
  intros Hlt. unfold validateEngine in Hpass5. cbv zeta in Hpass5. passes Hpass5.
  unfold taskServiceMaxRetry. rewrite wrap32_id; [lia|]. unfold int32_range. lia.
Qed.

(** Declared and dynamic webhook workers obey the same rules. A list of
    declarations validates exactly when their names are distinct and the admin API
    of the same server would accept each of them and store the very registration
    that seeding stores; seeding a validated list succeeds, stores every declared
    registration over one of the same name, and leaves the other registrations and
    the tasks alone. *)
Theorem declared_webhooks_as_admin {MR : MapRange} {NP : NetParsers} {UP : UrlParser} aw workers now b :
  (validateWebhookWorkers 0 ∅ (aw_allowInsecure aw) (aw_allowPrivate aw) workers = None ↔
   NoDup (ww_Name <$> workers) ∧
   ∀ w, w ∈ workers → webhookWorkerFromRequest aw (Some (wireWorker w)) = inr (declaredWorker w)) ∧
  (validateWebhookWorkers 0 ∅ (aw_allowInsecure aw) (aw_allowPrivate aw) workers = None →
   let r := seedWebhookWorkers memory now workers b in
   r.2 = None ∧ br_tasks r.1 = br_tasks b ∧
   (∀ w, w ∈ workers → br_webhookWorkers r.1 !! ww_Name w = Some (declaredWorker w)) ∧
   (∀ name, name ∉ ww_Name <$> workers → br_webhookWorkers r.1 !! name = br_webhookWorkers b !! name)).
Proof.
  rewrite validateWebhookWorkers_none. split; [|by intros (Hnd & _); apply seed_memory].
  split; [by intros (H1 & _ & H3)|]. intros [H1 H3]. split_and!; [done| |done]. intros w _. apply not_elem_of_empty.
Qed.

(** ** Instances *)

(** URLs by their scheme, with the rest as the host. *)
Definition simple_urls : UrlParser := λ raw,
  match CutPrefix raw "https://" with
  | Some host => Some ("https", host)
  | None => match CutPrefix raw "http://" with Some host => Some ("http", host) | None => None end
  end.

Definition public_hosts : NetParsers := {|
  URLHostname := λ _, None; SplitHostPort := λ _, None; ParseIP := λ _, None |}.

Definition no_limits : RateLimiter := {|
  Limiter := unit; NewLimiter := λ _ _, (); TokensAt := λ _ _, 0; ReserveN := λ l _ _, l; Burst := λ _, 1 |}.

(** A node with one token of each sort. *)
Definition sample_config : Config :=
  DefaultConfig <| cf_Broker := mkBrokerConfig BrokerMemory "" noPool |>
    <| cf_API := (cf_API DefaultConfig) <| ab_AuthTokens := ["root"] |>
                   <| ab_ScopedTokens := [mkScopedTokenConfig "app" ["produce"]] |> |>.

Lemma validated_config_runs_witness :
  Validate (MR := elements_range) (NP := public_hosts) (UP := simple_urls) (F := gmap string string → option unit)
    ∅ sample_config = None ∧
  authorize (scopedTokens (accessOf sample_config)) "Bearer app" (taskServicePrefix +:+ "Enqueue") = None ∧
  authorize (scopedTokens (accessOf sample_config)) "Bearer app" (adminServicePrefix +:+ "ListQueues") =
    Some CodePermissionDenied ∧
  set_LeaseTTL (settingsOf sample_config) > 0.
Proof.
  assert (Hv : Validate (MR := elements_range) (NP := public_hosts) (UP := simple_urls)
    (F := gmap string string → option unit) ∅ sample_config = None) by (vm_compute; reflexivity).
  split; [exact Hv|].
  destruct (validated_config_runs (MR := elements_range) (NP := public_hosts) (UP := simple_urls) (RL := no_limits)
    (P := unit) ∅ sample_config Hv) as (_ & _ & Hs & He & _).
  specialize (λ procedure, Hs (mkScopedTokenConfig "app" ["produce"]) procedure ltac:(left)).
  split; [etrans; [apply Hs|vm_compute; reflexivity]|]. split; [etrans; [apply Hs|vm_compute; reflexivity]|].
  pose proof (eo_lease _ He). lia.
Defined.

(** A declared registration. *)
Definition sample_worker : WebhookWorkerConfig :=
  mkWebhookWorkerConfig "mailer" "https://hooks.example" {["mail" := 2]} 4 ["s3cret"] [] 0 false.

Lemma declared_webhooks_as_admin_witness :
  let aw := mkAdminWorld 1 (λ _, true) (λ _, true) [] false false in
  validateWebhookWorkers (MR := elements_range) (NP := public_hosts) (UP := simple_urls) 0 ∅ false false
    [sample_worker] = None ∧
  br_webhookWorkers (seedWebhookWorkers (memory (MR := elements_range)) 1 [sample_worker] New).1 !! "mailer" =
    Some (declaredWorker sample_worker).
Proof.
  intros aw.
  assert (Hv : validateWebhookWorkers (MR := elements_range) (NP := public_hosts) (UP := simple_urls) 0 ∅ false false
    [sample_worker] = None) by (vm_compute; reflexivity).
  split; [exact Hv|].
  destruct (proj2 (declared_webhooks_as_admin (MR := elements_range) (NP := public_hosts) (UP := simple_urls) aw
    [sample_worker] 1 New) Hv) as (_ & _ & Hs & _).
  exact (Hs sample_worker ltac:(left)).
Defined.

(** ** What validation lets through *)

(** A token may be listed twice among the full-access ones. *)
Lemma repeated_full_token_validates :
  validateAuth (sample_config <| cf_API := (cf_API sample_config) <| ab_AuthTokens := ["root"; "root"] |> |>) = None.
Proof. vm_compute. reflexivity. Qed.

(** A default retry budget beyond 32 bits validates and reaches the task service
    as another number, here a negative one. *)
Lemma default_max_retry_wraps :
  let c := sample_config <| cf_Engine := (cf_Engine sample_config) <| en_DefaultMaxRetry := 2 ^ 31 |> |> in
  validateEngine (MR := elements_range) (cf_Engine c) = None ∧ taskServiceMaxRetry c = - 2 ^ 31.
Proof. split; vm_compute; reflexivity. Qed.

(** The keys of the environment: levels are split at a double underscore, names
    keep their single ones. *)
Lemma env_keys :
  envKeyToConfigKey "CONVEYOR_API__AUTH_TOKENS" = "api.auth_tokens" ∧
  envKeyToConfigKey "CONVEYOR_BROKER__POOL__MAX_CONNS" = "broker.pool.max_conns".
Proof. split; vm_compute; reflexivity. Qed.

(** ** Shutdown *)

(** A shutdown makes its calls in one order, so that sessions drain before the
    engine stops and the engine stops before the broker closes; repeated after a
    success it makes only the calls that are always made. *)
Lemma Stop_order fails n :
  (Stop fails n).1.2 `sublist_of`
    [StopEventWebhook; DrainWorkerSessions; ShutdownHTTP; StopEngine; CloseBroker; ShutdownMetrics; ShutdownTelemetry] ∧
  ((Stop fails n).2 = [] →
   (Stop fails (Stop fails n).1.1).1.2 = (if nd_workerService n then [DrainWorkerSessions] else []) ++ [ShutdownHTTP]).
Proof.
  assert (Hs : ∀ call, call ≠ StopEventWebhook → call ∈ (Stop fails n).1.2 → (Stop fails n).2 = [] → fails call = false).
  { intros call Hne Hin He. destruct (fails call) eqn:Hf; [|done].
    assert (call ∈ (Stop fails n).2) as Hc by (by apply list_elem_of_filter). rewrite He in Hc. by apply not_elem_of_nil in Hc. }
  split; [destruct n as [[] [] [] [] [] []]; cbn; repeat constructor|]. intros He.
  pose proof (λ call Hne Hin, Hs call Hne Hin He) as Hf. clear Hs He. revert Hf.
  destruct n as [w [] e b m t]. all: unfold Stop; cbn; intros Hf.
  all: assert (∀ (x : bool) call, call ≠ StopEventWebhook → (x = true → fails call = false) → x && fails call = false) as Hx
    by (intros [] call Hne Hx; [by rewrite Hx|done]).
  all: rewrite (Hx e StopEngine), (Hx b CloseBroker), (Hx m ShutdownMetrics), (Hx t ShutdownTelemetry); try done.
  all: intros ->; apply Hf; [done|]; set_solver.
Qed.

(** ** Boot *)

(** The calls that fail after the actor system started and before its engine is
    kept. *)
Definition spawning (call : bootCall) : bool :=
  match call with SpawnSingleton _ | SpawnRouter _ _ | SpawnRelay _ => true | _ => false end.

(** Whatever call of a boot fails, a shutdown that meets no error of its own leaves
    nothing running, except that the actor system survives when an engine actor did
    not spawn. A boot that succeeds runs every part the configuration asks for. *)
Lemma boot_then_stop fails c :
  let (m, failed) := Start fails c in
  let m' := stopMachine (λ _, false) m in
  (failed = None →
     m = mkMachine (mkNode (ec_Enabled (cf_Events c) && webhookOn c) true true true (telemetryOn c) (telemetryOn c))
           true (0 <? en_ResolverPoolSize (cf_Engine c)) (ec_Enabled (cf_Events c)) true) ∧
  mc_system m' = match failed with Some call => spawning call | None => false end ∧
  mc_listener m' = false ∧
  mc_node m' = mkNode false (nd_workerService (mc_node m)) false false false false.
Proof.
  destruct (Start fails c) as [m failed] eqn:HS. cbv zeta. revert HS.
  unfold Start, bootCalls, engineCalls.
  destruct (telemetryOn c), (ec_Enabled (cf_Events c)), (webhookOn c), (0 <? en_ResolverPoolSize (cf_Engine c));
    cbn [app makeCalls infallible negb andb];
    repeat (rewrite ?andb_false_r, ?andb_true_r;
      match goal with |- context [fails ?call] => destruct (fails call);
        [cbn [andb negb]; intros [= <- <-]; by vm_compute|] end; cbn [andb negb]);
    rewrite ?andb_false_r; intros [= <- <-]; by vm_compute.
Qed.

(** A node whose boot failed is dropped by [embedded.Start] without a shutdown: the
    caller gets no handle, and what had started keeps running in its process. *)
Lemma embedded_start_leaks :
  let c := buildServerConfig (9000, 9001, 9002) embedded_Memory in
  let fails call := match call with StartActorSystem => true | _ => false end in
  let fails' call := match call with SpawnSingleton _ => true | _ => false end in
  (embedded_Start fails (λ _, false) true c).2 = false ∧
  nd_taskLog (mc_node (embedded_Start fails (λ _, false) true c).1) = true ∧
  mc_system (embedded_Start fails' (λ _, false) true c).1 = true ∧
  mc_system (stopMachine (λ _, false) (embedded_Start fails' (λ _, false) true c).1) = true.
Proof. repeat split; vm_compute; reflexivity. Qed.

(** The embedded configuration is one the server accepts, with either broker. *)
Lemma embedded_config_valid :
  let valid b := Validate (MR := elements_range) (NP := public_hosts) (UP := simple_urls) (F := unit) ∅
                   (buildServerConfig (9000, 9001, 9002) b) in
  valid embedded_Memory = None ∧ valid (embedded_Postgres "postgres://db") = None ∧
  is_Some (valid (embedded_Postgres "")).
Proof. split_and!; [vm_compute; reflexivity..|]. eexists. vm_compute. reflexivity. Qed.
