(* ===== verification/EventWebhook.v ===== *)
(** * The event webhook (internal/events/webhook.go)

    The sink that posts lifecycle events to an HTTP endpoint: its subscription to
    the event bus, one goroutine that takes events off it and delivers each with
    retries, and a Stop that runs beside it. The goroutine and Stop are turns that
    interleave with each other and with everything else done to the bus. The theorems
    account for every event taken, and show that Stop returns. *)

From S2P Require Import Prelude Proto EventBus Backoff.
From Stdlib Require Import Strings.Byte.

#[local] Open Scope Z_scope.

Definition DefaultWebhookTimeout : Duration := 10 * Second.
Definition DefaultWebhookMaxRetries : Z := 3.
Definition webhookBackoffBase : Duration := Second / 2.
Definition webhookBackoffCap : Duration := 30 * Second.
Definition retryableStatus : Z := 500.
Definition tooManyRequests : Z := 429.

Record WebhookConfig := mkWebhookConfig {
  hc_URL : string;
  hc_Timeout : Duration;
  hc_MaxRetries : Z;
  hc_Secret : string;
  hc_Filter : Filter }.

#[global] Instance WebhookConfig_eta : Eta WebhookConfig := λ c,
  mkWebhookConfig (hc_URL c) (hc_Timeout c) (hc_MaxRetries c) (hc_Secret c) (hc_Filter c).

(** The sink as it is built; its channels are part of the running state below. *)
Record Webhook := mkWebhook { hk_config : WebhookConfig; hk_strategy : Backoff.Strategy }.

Definition NewWebhook (config : WebhookConfig) : Webhook :=
  let config := if hc_Timeout config <=? 0 then config <| hc_Timeout := DefaultWebhookTimeout |> else config in
  let config := if hc_MaxRetries config <? 0 then config <| hc_MaxRetries := DefaultWebhookMaxRetries |> else config in
  mkWebhook config (Backoff.New webhookBackoffBase webhookBackoffCap).

Lemma NewWebhook_retries config : 0 <= hc_MaxRetries (hk_config (NewWebhook config)).
Proof.
  unfold NewWebhook. destruct (hc_Timeout config <=? 0); cbn;
    destruct (Z.ltb_spec (hc_MaxRetries config) 0); cbn; unfold DefaultWebhookMaxRetries; lia.
Qed.

(** ** One attempt *)

(** A request, and what the HTTP client makes of it: no response within the
    timeout, or one with a status. *)
Record request := mkRequest {
  rq_URL : string; rq_ContentType : string; rq_Authorization : option string; rq_body : list byte }.

Inductive answer := NoResponse | Response (status : Z).

(** The two results of [post]: success, a failure worth retrying, another one. *)
Inductive outcome := Succeeded | Retryable | Permanent.

#[global] Instance outcome_eq_dec : EqDecision outcome.
Proof. solve_decision. Defined.

Section Webhook.
(** [protojson.Marshal] of an event, and whether a URL makes a request. *)
Context (marshal : TaskEvent → option (list byte)) (requestable : string → bool).
Context {MR : MapRange}.

Definition requestFor (config : WebhookConfig) (body : list byte) : request :=
  mkRequest (hc_URL config) "application/json"
    (if decide (hc_Secret config ≠ "") then Some ("Bearer " +:+ hc_Secret config) else None) body.

Definition statusOutcome (status : Z) : outcome :=
  if status <? 300 then Succeeded
  else if (retryableStatus <=? status) || (status =? tooManyRequests) then Retryable
  else Permanent.

Definition post (w : Webhook) (body : list byte) (a : answer) : list request * outcome :=
  let config := hk_config w in
  if negb (requestable (hc_URL config)) then ([], Permanent)
  else
    ([requestFor config body],
     match a with NoResponse => Retryable | Response status => statusOutcome status end).

(** ** The goroutine and Stop *)

(** An attempt at a delivery: no request could be made, or one was sent and the
    endpoint answered it, or not. *)
Inductive attempt := NotSent | Sent (a : answer).

Definition attempted (sent : list request) (a : answer) : attempt :=
  match sent with [] => NotSent | _ => Sent a end.

(** What became of an event taken off the channel, with its attempts. *)
Inductive verdict := Unmarshalled | Delivered | Dropped | Interrupted.

Record settlement := mkSettlement { sm_event : TaskEvent; sm_attempts : list attempt; sm_verdict : verdict }.

(** Where the goroutine is: at the head of the range loop, before attempt number
    [length attempts] of an event, in the [select] after it failed, or gone. *)
Inductive phase :=
  | Ranging
  | Posting (event : TaskEvent) (body : list byte) (attempts : list attempt)
  | Backing (event : TaskEvent) (body : list byte) (attempts : list attempt)
  | Exited.

(** Where Stop is: not called, past the cancel, past closing [stop], returned. *)
Inductive stopping := Running | Cancelled | Closed | Returned.

(** The bus with its history, the subscription, the two goroutines, and what was
    settled, sent and waited for so far. *)
Record sink := mkSink {
  sk_bus : watched;
  sk_sub : Z;
  sk_phase : phase;
  sk_stop : stopping;
  sk_settled : list settlement;
  sk_sent : list request;
  sk_delays : list Duration }.

#[global] Instance sink_eta : Eta sink := λ s,
  mkSink (sk_bus s) (sk_sub s) (sk_phase s) (sk_stop s) (sk_settled s) (sk_sent s) (sk_delays s).

Definition Start (w : Webhook) (bus : watched) : sink :=
  mkSink (bus_step bus (OSubscribe (hc_Filter (hk_config w)))) (bus_nextID (wt_bus bus)) Ranging Running [] [] [].

(** The end of [deliver]: back to the range loop. *)
Definition settle (event : TaskEvent) (attempts : list attempt) (v : verdict) (s : sink) : sink :=
  s <| sk_phase := Ranging |> <| sk_settled := sk_settled s ++ [mkSettlement event attempts v] |>.

(** A receive by the range loop, and the marshalling that opens [deliver]. *)
Definition run_receive (s : sink) : sink :=
  let r := (recv (sk_sub s) (wt_bus (sk_bus s))).2 in
  let s := s <| sk_bus := bus_step (sk_bus s) (ORecv (sk_sub s)) |> in
  match r with
  | RecvBlocked => s
  | RecvClosed => s <| sk_phase := Exited |>
  | RecvEvent event =>
      match marshal event with
      | None => settle event [] Unmarshalled s
      | Some body => s <| sk_phase := Posting event body [] |>
      end
  end.

(** One turn of the loop of [deliver], up to the timer it arms. *)
Definition deliver_attempt (w : Webhook) (event : TaskEvent) (body : list byte) (attempts : list attempt)
    (a : answer) (draw : Duration → Duration) (s : sink) : sink :=
  let attempt := Z.of_nat (length attempts) in
  let '(sent, result) := post w body a in
  let s := s <| sk_sent := sk_sent s ++ sent |> in
  let attempts := attempts ++ [attempted sent a] in
  match result with
  | Succeeded => settle event attempts Delivered s
  | Permanent => settle event attempts Dropped s
  | Retryable =>
      if hc_MaxRetries (hk_config w) <=? attempt then settle event attempts Dropped s
      else
        s <| sk_phase := Backing event body attempts |>
          <| sk_delays := sk_delays s ++ [Backoff.Delay draw (hk_strategy w) (wrap32 attempt)] |>
  end.

(** A step of Stop. *)
Definition Stop_step (s : sink) : sink :=
  match sk_stop s with
  | Running => s <| sk_bus := bus_step (sk_bus s) (OCancel (sk_sub s)) |> <| sk_stop := Cancelled |>
  | Cancelled => s <| sk_stop := Closed |>
  | Closed => match sk_phase s with Exited => s <| sk_stop := Returned |> | _ => s end
  | Returned => s
  end.

(** What else happens to the bus: it does not touch the sink's subscription. *)
Definition foreign (sub : Z) (op : busOp) : bool :=
  match op with
  | OSubscribe _ | OEmit _ => true
  | OCancel id | ORecv id => negb (id =? sub)
  end.

Inductive turn :=
  | TBus (op : busOp)
  | TReceive
  | TPost (a : answer) (draw : Duration → Duration)
  | TTimer
  | TStopSeen
  | TStop.

(** A turn that is not enabled changes nothing. *)
Definition step (w : Webhook) (s : sink) (t : turn) : sink :=
  match t, sk_phase s with
  | TBus op, _ => if foreign (sk_sub s) op then s <| sk_bus := bus_step (sk_bus s) op |> else s
  | TReceive, Ranging => run_receive s
  | TPost a draw, Posting event body attempts => deliver_attempt w event body attempts a draw s
  | TTimer, Backing event body attempts => s <| sk_phase := Posting event body attempts |>
  | TStopSeen, Backing event body attempts =>
      match sk_stop s with
      | Closed | Returned => settle event attempts Interrupted s
      | _ => s
      end
  | TStop, _ => Stop_step s
  | _, _ => s
  end.

Definition run (w : Webhook) (s : sink) (turns : list turn) : sink := foldl (step w) s turns.

(** ** What a settlement may be *)

(** The event in hand, and the attempts made for it. *)
Definition inHand (p : phase) : list (TaskEvent * list attempt) :=
  match p with
  | Posting event _ attempts | Backing event _ attempts => [(event, attempts)]
  | Ranging | Exited => []
  end.

(** The attempts that may go better later: no response, a failure of the server,
    or too many requests; those the endpoint took; and those nothing can be made
    of. *)
Definition transient (x : attempt) : Prop :=
  match x with
  | NotSent => False
  | Sent NoResponse => True
  | Sent (Response status) => 500 <= status ∨ status = 429
  end.

Definition taken (x : attempt) : Prop :=
  match x with Sent (Response status) => status < 300 | _ => False end.

Definition refused (x : attempt) : Prop :=
  match x with
  | NotSent => True
  | Sent NoResponse => False
  | Sent (Response status) => 300 <= status < 500 ∧ status ≠ 429
  end.

(** At most [MaxRetries] transient failures, then the end: an attempt the endpoint
    took, one that was refused or was the last of the budget, or Stop. *)
Definition lawful (w : Webhook) (stopped : bool) (st : settlement) : Prop :=
  let budget := hc_MaxRetries (hk_config w) in
  match sm_verdict st with
  | Unmarshalled => marshal (sm_event st) = None ∧ sm_attempts st = []
  | Delivered => ∃ failed last, sm_attempts st = failed ++ [last] ∧ Forall transient failed ∧
      Z.of_nat (length failed) <= budget ∧ taken last
  | Dropped => ∃ failed last, sm_attempts st = failed ++ [last] ∧ Forall transient failed ∧
      Z.of_nat (length failed) <= budget ∧
      (refused last ∨ transient last ∧ Z.of_nat (length failed) = budget)
  | Interrupted => stopped = true ∧ Forall transient (sm_attempts st) ∧
      1 <= Z.of_nat (length (sm_attempts st)) <= budget
  end.

Definition stopped (s : sink) : bool := match sk_stop s with Closed | Returned => true | _ => false end.

(** The requests of the attempts for an event: one each, if the URL makes one. *)
Definition requestsFor (w : Webhook) (p : TaskEvent * list attempt) : list request :=
  match marshal p.1 with
  | Some body => if requestable (hc_URL (hk_config w))
                 then replicate (length p.2) (requestFor (hk_config w) body) else []
  | None => []
  end.

(** Every event taken so far, settled or in hand, with its attempts. *)
Definition handled (settled : list settlement) (p : phase) : list (TaskEvent * list attempt) :=
  ((λ st, (sm_event st, sm_attempts st)) <$> settled) ++ inHand p.

(** ** The bus under the sink *)

(** What a foreign operation leaves alone: what the sink received, and, once its
    subscription is cancelled, its channel. *)
Lemma foreign_received sub bus op :
  bus_ok bus → (∃ c, bus_channels (wt_bus bus) !! sub = Some c) → foreign sub op = true →
  wt_received (bus_step bus op) !! sub = wt_received bus !! sub.
Proof.
  intros Hok [c Hc] Hf. pose proof (bok_fresh _ Hok _ _ Hc) as Hfresh.
  destruct op as [f|id|[event|]|id]; cbn in Hf |- *; [|done..|].
  - rewrite lookup_insert_ne by lia. done.
  - destruct (recv id (wt_bus bus)) as [b [event| |]]; cbn; [|done..].
    rewrite lookup_alter_ne by (intros ->; lia). done.
Qed.

Lemma foreign_subscriber sub bus op :
  bus_ok bus → (∃ c, bus_channels (wt_bus bus) !! sub = Some c) → foreign sub op = true →
  bus_subscribers (wt_bus (bus_step bus op)) !! sub = bus_subscribers (wt_bus bus) !! sub.
Proof.
  intros Hok [c Hc] Hf. pose proof (bok_fresh _ Hok _ _ Hc) as Hfresh.
  destruct op as [f|id|[event|]|id]; cbn in Hf |- *; [..|done|].
  - by rewrite lookup_insert_ne by lia.
  - unfold cancel. destruct (bus_subscribers (wt_bus bus) !! id); [|done]. cbn.
    rewrite lookup_delete_ne by (intros ->; lia). done.
  - unfold Emit.
    destruct (offers_spec event (range_map (bus_subscribers (wt_bus bus))) (wt_bus bus) (NoDup_fst_range_map _))
      as (A1 & _). by rewrite A1.
  - unfold recv. destruct (bus_channels (wt_bus bus) !! id) as [c'|]; [|done]. by destruct (ch_buffer c').
Qed.

Lemma foreign_channel sub bus op :
  bus_ok bus → (∃ c, bus_channels (wt_bus bus) !! sub = Some c) → foreign sub op = true →
  bus_subscribers (wt_bus bus) !! sub = None →
  bus_channels (wt_bus (bus_step bus op)) !! sub = bus_channels (wt_bus bus) !! sub.
Proof.
  intros Hok [c Hc] Hf Hsub. pose proof (bok_fresh _ Hok _ _ Hc) as Hfresh.
  destruct op as [f|id|[event|]|id]; cbn in Hf |- *; [..|done|].
  - by rewrite lookup_insert_ne by lia.
  - unfold cancel. destruct (bus_subscribers (wt_bus bus) !! id); [|done]. cbn.
    rewrite lookup_alter_ne by (intros ->; lia). done.
  - unfold Emit.
    destruct (offers_spec event (range_map (bus_subscribers (wt_bus bus))) (wt_bus bus) (NoDup_fst_range_map _))
      as (_ & _ & _ & _ & A5 & _).
    apply A5. intros ([x f] & -> & Hin)%list_elem_of_fmap.
    apply elem_of_range_map in Hin. cbn in Hsub. congruence.
  - unfold recv. destruct (bus_channels (wt_bus bus) !! id) as [c'|]; [|done].
    destruct (ch_buffer c'); cbn; [done|]. rewrite lookup_insert_ne by (intros ->; lia). done.
Qed.

Lemma bus_ok_step bus op : bus_ok bus → bus_ok (bus_step bus op).
Proof. destruct op; auto using bus_ok_subscribe, bus_ok_cancel, bus_ok_emit, bus_ok_recv. Qed.

(** No operation removes a channel. *)
Lemma channel_kept sub bus op :
  bus_ok bus → (∃ c, bus_channels (wt_bus bus) !! sub = Some c) →
  ∃ c, bus_channels (wt_bus (bus_step bus op)) !! sub = Some c.
Proof.
  intros Hok [c Hc]. destruct op as [f|id|[event|]|id]; cbn; [..|eauto|].
  - destruct (decide (bus_nextID (wt_bus bus) = sub)) as [<-|]; [rewrite lookup_insert_eq; eauto|].
    rewrite lookup_insert_ne by done. eauto.
  - unfold cancel. destruct (bus_subscribers (wt_bus bus) !! id); cbn; [|eauto].
    destruct (decide (id = sub)) as [->|]; [rewrite lookup_alter_eq, Hc; eauto|].
    rewrite lookup_alter_ne by done. eauto.
  - unfold Emit. generalize (range_map (bus_subscribers (wt_bus bus))). intros l. clear Hok.
    revert Hc. generalize (wt_bus bus). intros b Hc.
    revert b c Hc. induction l as [|[x f] l IH]; intros b c Hc; cbn [foldl]; [eauto|].
    assert (∃ c', bus_channels (offer event b (x, f)) !! sub = Some c') as [c' Hc']; [|by eapply IH].
    unfold offer. destruct (negb (matches f event)); [eauto|].
    destruct (bus_channels b !! x) as [cx|]; [|eauto].
    destruct (_ <? _); cbn; [|eauto].
    destruct (decide (x = sub)) as [->|]; [rewrite lookup_insert_eq; eauto|].
    rewrite lookup_insert_ne by done. eauto.
  - unfold recv. destruct (bus_channels (wt_bus bus) !! id) as [c'|] eqn:Hid; cbn; [|eauto].
    destruct (ch_buffer c'); cbn; [eauto|].
    destruct (decide (id = sub)) as [->|]; [rewrite lookup_insert_eq; eauto|].
    rewrite lookup_insert_ne by done. eauto.
Qed.

(** ** The invariant *)

Definition budget (w : Webhook) : Z := hc_MaxRetries (hk_config w).

Definition phase_ok (w : Webhook) (p : phase) : Prop :=
  match p with
  | Ranging | Exited => True
  | Posting event body attempts =>
      marshal event = Some body ∧ Forall transient attempts ∧
      Z.of_nat (length attempts) <= budget w
  | Backing event body attempts =>
      marshal event = Some body ∧ Forall transient attempts ∧
      1 <= Z.of_nat (length attempts) <= budget w
  end.

(** The accounts, given the events received. *)
Record accounted (w : Webhook) (got : list TaskEvent) (closed : bool) (p : phase) (settled : list settlement)
    (sent : list request) (delays : list Duration) : Prop := {
  ac_taken : got = (handled settled p).*1;
  ac_settled : Forall (lawful w closed) settled;
  ac_phase : phase_ok w p;
  ac_sent : sent = concat (requestsFor w <$> handled settled p);
  ac_delays : Forall (λ d, 0 <= d <= webhookBackoffCap) delays }.

Lemma handled_settle settled event attempts v :
  handled (settled ++ [mkSettlement event attempts v]) Ranging =
  ((λ st, (sm_event st, sm_attempts st)) <$> settled) ++ [(event, attempts)].
Proof. unfold handled. cbn. by rewrite app_nil_r, fmap_app. Qed.

Lemma accounted_closed w got closed p settled sent delays :
  accounted w got closed p settled sent delays → accounted w got true p settled sent delays.
Proof.
  intros [? Hs ? ? ?]. split; try done. eapply Forall_impl; [exact Hs|].
  intros st. unfold lawful. destruct (sm_verdict st); naive_solver.
Qed.

Lemma requestsFor_none w event : requestsFor w (event, []) = [].
Proof. unfold requestsFor. cbn. destruct (marshal event); [|done]. by destruct (requestable (hc_URL (hk_config w))). Qed.

Lemma requestsFor_post w event body attempts a :
  marshal event = Some body →
  requestsFor w (event, attempts ++ [attempted (post w body a).1 a]) =
    requestsFor w (event, attempts) ++ (post w body a).1.
Proof.
  intros Hm. unfold requestsFor, post. cbn [fst snd]. rewrite Hm.
  destruct (requestable (hc_URL (hk_config w))); cbn [negb fst snd]; [|done].
  by rewrite length_app, replicate_add.
Qed.

Lemma concat_handled w settled p :
  concat (requestsFor w <$> handled settled p) =
  concat ((λ st, requestsFor w (sm_event st, sm_attempts st)) <$> settled) ++ concat (requestsFor w <$> inHand p).
Proof. unfold handled. by rewrite fmap_app, concat_app, <- list_fmap_compose. Qed.

(** An event is taken off the channel. *)
Lemma accounted_take w got closed settled sent delays event :
  0 <= budget w → accounted w got closed Ranging settled sent delays →
  match marshal event with
  | Some body => accounted w (got ++ [event]) closed (Posting event body []) settled sent delays
  | None => accounted w (got ++ [event]) closed Ranging (settled ++ [mkSettlement event [] Unmarshalled]) sent delays
  end.
Proof.
  intros Hbud [-> Hs _ -> Hd]. destruct (marshal event) as [body|] eqn:Hm; split; try done.
  - unfold handled. by rewrite !app_nil_r, fmap_app.
  - rewrite !concat_handled. cbn. by rewrite requestsFor_none.
  - rewrite handled_settle. unfold handled. by rewrite app_nil_r, fmap_app.
  - apply Forall_app. split; [done|]. by apply Forall_singleton.
  - rewrite !concat_handled, fmap_app, concat_app. cbn. by rewrite requestsFor_none, !app_nil_r.
Qed.

(** The attempts of the event in hand change to [attempts'], and [sent'] with them:
    it is settled, or stays in hand. *)
Lemma accounted_settle w got closed p settled sent sent' delays event attempts attempts' v :
  accounted w got closed p settled sent delays → inHand p = [(event, attempts)] →
  requestsFor w (event, attempts') = requestsFor w (event, attempts) ++ sent' →
  lawful w closed (mkSettlement event attempts' v) →
  accounted w got closed Ranging (settled ++ [mkSettlement event attempts' v]) (sent ++ sent') delays.
Proof.
  intros [-> Hs Hp -> Hd] Hin Hreq Hl. split; try done.
  - rewrite handled_settle. unfold handled. by rewrite Hin, !fmap_app.
  - apply Forall_app. split; [done|]. by apply Forall_singleton.
  - rewrite !concat_handled, fmap_app, concat_app, Hin. cbn. by rewrite !app_nil_r, Hreq, app_assoc.
Qed.

Lemma accounted_keep w got closed p p' settled sent sent' delays delays' event attempts attempts' :
  accounted w got closed p settled sent delays → inHand p = [(event, attempts)] →
  inHand p' = [(event, attempts')] →
  requestsFor w (event, attempts') = requestsFor w (event, attempts) ++ sent' → phase_ok w p' →
  Forall (λ d, 0 <= d <= webhookBackoffCap) delays' →
  accounted w got closed p' settled (sent ++ sent') (delays ++ delays').
Proof.
  intros [-> Hs Hp -> Hd] Hin Hin' Hreq Hp' Hd'. split; try done.
  - unfold handled. by rewrite Hin, Hin', !fmap_app.
  - rewrite !concat_handled, Hin, Hin'. cbn. by rewrite !app_nil_r, Hreq, app_assoc.
  - by apply Forall_app.
Qed.

Record sink_ok (w : Webhook) (s : sink) : Prop := {
  so_bus : bus_ok (sk_bus s);
  so_channel : ∃ c, bus_channels (wt_bus (sk_bus s)) !! sk_sub s = Some c;
  so_running : sk_stop s = Running → ∃ f, bus_subscribers (wt_bus (sk_bus s)) !! sk_sub s = Some f;
  so_cancelled : sk_stop s ≠ Running → bus_subscribers (wt_bus (sk_bus s)) !! sk_sub s = None ∧
    ∃ buffer, bus_channels (wt_bus (sk_bus s)) !! sk_sub s = Some (mkChannel buffer true);
  so_exited : sk_phase s = Exited →
    sk_stop s ≠ Running ∧ bus_channels (wt_bus (sk_bus s)) !! sk_sub s = Some (mkChannel [] true);
  so_accounts : ∃ got, wt_received (sk_bus s) !! sk_sub s = Some got ∧
    accounted w got (stopped s) (sk_phase s) (sk_settled s) (sk_sent s) (sk_delays s) }.

Definition turn_ok (t : turn) : Prop := match t with TPost _ draw => Backoff.jitter_ok draw | _ => True end.

Lemma sink_ok_start w bus : bus_ok bus → sink_ok w (Start w bus).
Proof.
  intros Hok. pose proof (bus_ok_step bus (OSubscribe (hc_Filter (hk_config w))) Hok) as Hok'.
  unfold Start. split; cbn -[bus_step]; try done; cbn; rewrite ?lookup_insert_eq; eauto.
  exists []. split; [done|]. by split.
Qed.

(** A change that keeps the bus and Stop, and does not end the goroutine. *)
Lemma sink_ok_phase w s p settled sent delays :
  sink_ok w s → p ≠ Exited →
  (∀ got, accounted w got (stopped s) (sk_phase s) (sk_settled s) (sk_sent s) (sk_delays s) →
     accounted w got (stopped s) p settled sent delays) →
  sink_ok w (mkSink (sk_bus s) (sk_sub s) p (sk_stop s) settled sent delays).
Proof.
  intros [Hb Hc Hr Hcc He (got & Hg & Ha)] Hp Hacc. split; cbn; try done.
  exists got. split; [done|]. by apply Hacc.
Qed.

Lemma sink_ok_bus w s op : foreign (sk_sub s) op = true → sink_ok w s → sink_ok w (s <| sk_bus := bus_step (sk_bus s) op |>).
Proof.
  intros Hf [Hb Hc Hr Hcc He Ha].
  pose proof (foreign_subscriber _ _ _ Hb Hc Hf) as Hsub. pose proof (foreign_received _ _ _ Hb Hc Hf) as Hrec.
  split; cbn -[bus_step].
  - by apply bus_ok_step.
  - by apply channel_kept.
  - rewrite Hsub. done.
  - intros Hs. destruct (Hcc Hs) as [Hn Hch]. by rewrite Hsub, (foreign_channel _ _ _ Hb Hc Hf Hn).
  - intros Hx. destruct (He Hx) as [Hs Hch]. destruct (Hcc Hs) as [Hn _].
    by rewrite (foreign_channel _ _ _ Hb Hc Hf Hn).
  - rewrite Hrec. done.
Qed.

Lemma sink_ok_stop w s : sink_ok w s → sink_ok w (Stop_step s).
Proof.
  intros Hok. pose proof Hok as [Hb Hc Hr Hcc He (got & Hg & Ha)]. unfold Stop_step.
  destruct (sk_stop s) eqn:Hs; [| |destruct (sk_phase s) eqn:Hp; try done|done].
  - destruct (Hr eq_refl) as [f Hf]. destruct (bok_open _ Hb _ _ Hf) as (c & Hch & Hcl).
    split; cbn -[bus_step]; try done.
    + by apply bus_ok_step.
    + by apply channel_kept.
    + intros _. cbn. unfold cancel. rewrite Hf. cbn. rewrite lookup_delete_eq, lookup_alter_eq, Hch. cbn. eauto.
    + intros Hx. destruct (He Hx) as [Hne _]. done.
    + exists got. split; [done|]. unfold stopped in *. by rewrite Hs in Ha.
  - split; cbn; try done; [intros _; by apply Hcc|..].
    + intros Hx. split; [done|]. by apply He.
    + exists got. split; [done|]. by eapply accounted_closed.
  - split; cbn; try done; [intros _; by apply Hcc|..].
    + intros _. split; [done|]. by apply He.
    + exists got. split; [done|]. rewrite Hp. by eapply accounted_closed.
Qed.

Lemma sink_ok_receive w s : 0 <= budget w → sk_phase s = Ranging → sink_ok w s → sink_ok w (run_receive s).
Proof.
  intros Hbud Hp [Hb Hc Hr Hcc He (got & Hg & Ha)]. rewrite Hp in Ha. destruct Hc as [c Hc].
  pose proof (bus_ok_step (sk_bus s) (ORecv (sk_sub s)) Hb) as Hb'.
  pose proof (channel_kept (sk_sub s) (sk_bus s) (ORecv (sk_sub s)) Hb (ex_intro _ _ Hc)) as Hc'.
  unfold run_receive. unfold recv. rewrite Hc.
  destruct (ch_buffer c) as [|event rest] eqn:Hbuf.
  - assert (Hsame : bus_step (sk_bus s) (ORecv (sk_sub s)) = sk_bus s).
    { cbn. unfold recv. rewrite Hc, Hbuf. destruct (sk_bus s), (ch_closed c); done. }
    rewrite Hsame. destruct (ch_closed c) eqn:Hcl; cbn [snd].
    + assert (Hrun : sk_stop s ≠ Running).
      { intros Hs. destruct (Hr Hs) as [f Hf]. destruct (bok_open _ Hb _ _ Hf) as (c' & Hch & Hcl'). congruence. }
      split; cbn; try done; [eauto| |exists got; split; [done|]].
      * intros _. split; [done|]. rewrite Hc. destruct c; cbn in *; congruence.
      * destruct Ha. split; done.
    + split; cbn; try done; [eauto|]. exists got. rewrite Hp. done.
  - cbn [snd].
    assert (Hcan : sk_stop s ≠ Running → bus_subscribers (wt_bus (bus_step (sk_bus s) (ORecv (sk_sub s)))) !! sk_sub s = None ∧
      ∃ buffer, bus_channels (wt_bus (bus_step (sk_bus s) (ORecv (sk_sub s)))) !! sk_sub s = Some (mkChannel buffer true)).
    { intros Hs. destruct (Hcc Hs) as (Hn & buffer & Hch). cbn. unfold recv. rewrite Hc, Hbuf. cbn.
      split; [done|]. rewrite lookup_insert_eq. rewrite Hc in Hch. injection Hch as ->. cbn. eauto. }
    assert (Hrun : sk_stop s = Running → ∃ f, bus_subscribers (wt_bus (bus_step (sk_bus s) (ORecv (sk_sub s)))) !! sk_sub s = Some f).
    { cbn. unfold recv. rewrite Hc, Hbuf. done. }
    assert (Hgot : wt_received (bus_step (sk_bus s) (ORecv (sk_sub s))) !! sk_sub s = Some (got ++ [event])).
    { cbn. unfold recv. rewrite Hc, Hbuf. cbn. by rewrite lookup_alter_eq, Hg. }
    pose proof (accounted_take w got _ _ _ _ event Hbud Ha) as Hacc.
    destruct (marshal event) as [body|]; unfold settle; split; cbn -[bus_step]; try done; eauto.
Qed.

(** The result of [post] is read off the attempt. *)
Lemma post_outcome w body a :
  match (post w body a).2 with
  | Succeeded => taken (attempted (post w body a).1 a)
  | Retryable => transient (attempted (post w body a).1 a)
  | Permanent => refused (attempted (post w body a).1 a)
  end.
Proof.
  unfold post. destruct (requestable (hc_URL (hk_config w))); cbn [negb fst snd attempted]; [|done].
  destruct a as [|status]; [done|]. unfold statusOutcome, retryableStatus, tooManyRequests.
  destruct (Z.ltb_spec status 300); [done|].
  destruct (Z.leb_spec 500 status); cbn [orb]; [by left|].
  destruct (Z.eqb_spec status 429); [by right|]. cbn. lia.
Qed.

Lemma sink_ok_attempt w s event body attempts a draw :
  hk_strategy w = Backoff.New webhookBackoffBase webhookBackoffCap → Backoff.jitter_ok draw →
  sk_phase s = Posting event body attempts → sink_ok w s → sink_ok w (deliver_attempt w event body attempts a draw s).
Proof.
  intros Hst Hj Hp Hok. pose proof (so_accounts _ _ Hok) as (got0 & _ & [_ _ Hph _ _]).
  rewrite Hp in Hph. destruct Hph as (Hm & Hat & Hle).
  unfold deliver_attempt. pose proof (requestsFor_post w event body attempts a Hm) as Hreq.
  pose proof (post_outcome w body a) as Hres.
  destruct (post w body a) as [sent result]. cbn [fst snd] in Hreq, Hres.
  set (x := attempted sent a) in *.
  assert (Hend : ∀ v, lawful w (stopped s) (mkSettlement event (attempts ++ [x]) v) →
    sink_ok w (settle event (attempts ++ [x]) v (s <| sk_sent := sk_sent s ++ sent |>))).
  { intros v Hl. unfold settle. apply (sink_ok_phase w s); [done..|]. intros got Ha.
    eapply accounted_settle; [exact Ha| |exact Hreq|exact Hl]. by rewrite Hp. }
  destruct result.
  - apply Hend. by exists attempts, x.
  - destruct (Z.leb_spec (hc_MaxRetries (hk_config w)) (Z.of_nat (length attempts))) as [Hlast|Hlast].
    + apply Hend. exists attempts, x. unfold budget in Hle.
      split_and!; [done..|right; split; [done|lia]].
    + apply (sink_ok_phase w s); [done..|]. intros got Ha.
      eapply accounted_keep; [exact Ha|by rewrite Hp|done|exact Hreq| |].
      * split_and!; [done|by apply Forall_app_2, Forall_singleton|rewrite length_app; cbn; lia|].
        rewrite length_app; cbn. unfold budget. lia.
      * apply Forall_singleton. rewrite Hst. pose proof (Backoff.Delay_bounded draw
          (Backoff.New webhookBackoffBase webhookBackoffCap) (wrap32 (Z.of_nat (length attempts))) Hj) as Hd.
        assert (Hr : int64_range webhookBackoffCap) by (unfold int64_range, webhookBackoffCap, Second; lia).
        specialize (Hd Hr). change (Backoff.maxDelay _) with webhookBackoffCap in Hd.
        change (Z.max 0 webhookBackoffCap) with webhookBackoffCap in Hd. exact Hd.
  - apply Hend. exists attempts, x. split_and!; [done..|by left].
Qed.

Lemma sink_ok_step w s t :
  0 <= budget w → hk_strategy w = Backoff.New webhookBackoffBase webhookBackoffCap → turn_ok t →
  sink_ok w s → sink_ok w (step w s t).
Proof.
  intros Hbud Hst Ht Hok. pose proof (so_accounts _ _ Hok) as (got0 & _ & [_ _ Hph _ _]).
  destruct t as [op| |a draw| | |]; cbn [step].
  - destruct (foreign (sk_sub s) op) eqn:Hf; [by apply sink_ok_bus|done].
  - destruct (sk_phase s) eqn:Hp; try done. by apply sink_ok_receive.
  - destruct (sk_phase s) eqn:Hp; try done. by apply sink_ok_attempt.
  - destruct (sk_phase s) as [| |event body attempts|] eqn:Hp; try done. apply (sink_ok_phase w s); [done..|].
    intros got Ha. rewrite Hp in Ha. destruct Ha as [-> ? ? -> ?]. cbn in Hph.
    split; try done. cbn. naive_solver lia.
  - destruct (sk_phase s) as [| |event body attempts|] eqn:Hp; try done. destruct Hph as (Hm & Hat & Hle).
    assert (stopped s = true → sink_ok w (settle event attempts Interrupted s)) as Hint; [|].
    { intros Hclosed. apply (sink_ok_phase w s); [done..|]. intros got Ha.
      assert (Hl : lawful w (stopped s) (mkSettlement event attempts Interrupted)).
      { by split. }
      pose proof (accounted_settle w got _ _ _ _ [] _ event attempts attempts Interrupted Ha) as Hacc.
      rewrite !app_nil_r, Hp in Hacc. by apply Hacc. }
    unfold stopped in Hint. destruct (sk_stop s); auto.
  - by apply sink_ok_stop.
Qed.

Lemma sink_ok_run w s turns :
  0 <= budget w → hk_strategy w = Backoff.New webhookBackoffBase webhookBackoffCap → Forall turn_ok turns →
  sink_ok w s → sink_ok w (run w s turns).
Proof.
  intros Hbud Hst Ht. revert s. induction Ht as [|t turns Ht _ IH]; intros s Hs; [done|].
  apply IH. by apply sink_ok_step.
Qed.

(** ** Stopping *)

Definition backlog (s : sink) : Z :=
  match bus_channels (wt_bus (sk_bus s)) !! sk_sub s with Some c => Z.of_nat (length (ch_buffer c)) | None => 0 end.

(** The turns left to the goroutine in its phase, and to Stop. *)
Definition phaseWork (w : Webhook) (p : phase) : Z :=
  match p with
  | Exited => 0
  | Ranging => 1
  | Posting _ _ attempts => 2 * (budget w - Z.of_nat (length attempts)) + 3
  | Backing _ _ attempts => 2 * (budget w - Z.of_nat (length attempts)) + 4
  end.

Definition stopWork (st : stopping) : Z :=
  match st with Running => 3 | Cancelled => 2 | Closed => 1 | Returned => 0 end.

Definition work (w : Webhook) (s : sink) : Z :=
  (2 * budget w + 3) * backlog s + phaseWork w (sk_phase s) + stopWork (sk_stop s).

(** The turn that moves the goroutine on, or Stop once it has gone. *)
Definition drives (p : phase) (t : turn) : bool :=
  match p, t with
  | Ranging, TReceive | Posting _ _ _, TPost _ _ | Backing _ _ _, TTimer | Exited, TStop => true
  | _, _ => false
  end.

Definition fair (round : list turn) : Prop := ∀ p, ∃ t, t ∈ round ∧ drives p t = true.

(** A turn that changes the phase alone changes the work by the phase's share. *)
Lemma work_phase w s s' :
  sk_bus s' = sk_bus s → sk_sub s' = sk_sub s → sk_stop s' = sk_stop s →
  work w s' + phaseWork w (sk_phase s) = work w s + phaseWork w (sk_phase s').
Proof. intros Hb Hu Hs. unfold work, backlog. rewrite Hb, Hu, Hs. lia. Qed.

Lemma deliver_work w s event body attempts a draw :
  phase_ok w (Posting event body attempts) → sk_phase s = Posting event body attempts →
  work w (deliver_attempt w event body attempts a draw s) < work w s.
Proof.
  intros (_ & _ & Hle) Hp. set (s' := deliver_attempt w event body attempts a draw s).
  assert (work w s' + phaseWork w (sk_phase s) = work w s + phaseWork w (sk_phase s')) as Hw.
  { apply work_phase; subst s'; unfold deliver_attempt; destruct (post w body a) as [sent []];
      try destruct (_ <=? _); done. }
  assert (phaseWork w (sk_phase s') < phaseWork w (sk_phase s)); [|lia]. rewrite Hp. subst s'. clear Hw.
  unfold deliver_attempt. destruct (post w body a) as [sent []]; [cbn; lia| |cbn; lia].
  destruct (_ <=? _); cbn [phaseWork sk_phase settle set]; cbn [phaseWork]; [lia|].
  rewrite length_app. cbn. lia.
Qed.

Lemma receive_backlog s event rest closed :
  bus_channels (wt_bus (sk_bus s)) !! sk_sub s = Some (mkChannel (event :: rest) closed) →
  bus_channels (wt_bus (bus_step (sk_bus s) (ORecv (sk_sub s)))) !! sk_sub s = Some (mkChannel rest closed).
Proof. intros Hc. cbn. unfold recv. rewrite Hc. cbn. by rewrite lookup_insert_eq. Qed.

Lemma receive_work w s :
  0 <= budget w → sink_ok w s → sk_stop s ≠ Running → sk_phase s = Ranging → work w (run_receive s) < work w s.
Proof.
  intros Hbud Hok Hs Hp. destruct (so_cancelled _ _ Hok Hs) as (_ & buffer & Hc).
  unfold run_receive, recv. rewrite Hc. cbn [ch_buffer ch_closed].
  destruct buffer as [|event rest]; cbn [snd].
  - unfold work, backlog. rewrite Hp. cbn -[Z.mul]. unfold recv. rewrite Hc. cbn -[Z.mul]. rewrite Hc. cbn -[Z.mul]. lia.
  - pose proof (receive_backlog _ _ _ _ Hc) as Hc'.
    assert (Hw : work w s = (2 * budget w + 3) * Z.of_nat (length rest) + (2 * budget w + 4) + stopWork (sk_stop s)).
    { unfold work, backlog. rewrite Hp, Hc. cbn [ch_buffer length phaseWork]. rewrite Nat2Z.inj_succ. lia. }
    rewrite Hw. destruct (marshal event); unfold work, backlog, settle;
      cbn -[Z.mul bus_step]; rewrite Hc'; cbn -[Z.mul]; lia.
Qed.

(** Once Stop cancelled the subscription, a turn either brings the end nearer or
    leaves the goroutine, Stop and the backlog as they were; the turn that drives
    the goroutine does the former. *)
Lemma step_work w s t :
  0 <= budget w → sink_ok w s → sk_stop s ≠ Running →
  work w (step w s t) < work w s ∨
  (drives (sk_phase s) t = true → sk_stop s = Returned) ∧
  sk_phase (step w s t) = sk_phase s ∧ sk_stop (step w s t) = sk_stop s ∧ backlog (step w s t) = backlog s.
Proof.
  intros Hbud Hok Hs. pose proof (so_accounts _ _ Hok) as (got0 & _ & [_ _ Hph _ _]).
  destruct t as [op| |a draw| | |]; cbn [step].
  - right. destruct (foreign (sk_sub s) op) eqn:Hf; [|by destruct (sk_phase s)].
    split_and!; [by destruct (sk_phase s)|done..|]. unfold backlog. cbn -[bus_step].
    destruct (so_cancelled _ _ Hok Hs) as [Hn _].
    by rewrite (foreign_channel _ _ _ (so_bus _ _ Hok) (so_channel _ _ Hok) Hf Hn).
  - destruct (sk_phase s) eqn:Hp; try by (right; rewrite Hp). left. by apply receive_work.
  - destruct (sk_phase s) eqn:Hp; try by (right; rewrite Hp). left. by apply deliver_work.
  - destruct (sk_phase s) as [| |event body attempts|] eqn:Hp; try by (right; rewrite Hp). left.
    set (s' := s <| sk_phase := _ |>).
    pose proof (work_phase w s s' eq_refl eq_refl eq_refl) as Hw.
    rewrite Hp in Hw. subst s'. cbn -[work budget Z.mul] in Hw |- *. lia.
  - destruct (sk_phase s) as [| |event body attempts|] eqn:Hp; try by (right; rewrite Hp).
    assert (work w (settle event attempts Interrupted s) < work w s).
    { pose proof (work_phase w s (settle event attempts Interrupted s) eq_refl eq_refl eq_refl) as Hw.
      rewrite Hp in Hw. cbn -[work budget Z.mul] in Hw. cbn in Hph. lia. }
    destruct (sk_stop s) eqn:Hst; [done| |by left..]. right. by rewrite Hp, Hst.
  - unfold Stop_step. destruct (sk_stop s) eqn:Hst; [done| | |].
    + left. unfold work, backlog. rewrite Hst. cbn -[Z.mul]. lia.
    + destruct (sk_phase s) eqn:Hp; [by right; rewrite Hp, Hst..|]. left.
      unfold work, backlog. rewrite Hst. cbn -[Z.mul]. lia.
    + right. by rewrite Hst.
Qed.

(** The goroutine is gone for good, and Stop returns only then. *)
Lemma step_returned w s t :
  (sk_stop s = Returned → sk_phase s = Exited) →
  (sk_stop s = Returned → sk_stop (step w s t) = Returned) ∧
  (sk_stop (step w s t) = Returned → sk_phase (step w s t) = Exited).
Proof.
  intros Hr. destruct t as [op| |a draw| | |]; cbn [step];
    [destruct (foreign (sk_sub s) op); by split|..];
    destruct (sk_phase s) as [|event body attempts|event body attempts|] eqn:Hp;
    try (split; [done|]; rewrite ?Hp; done).
  - split; [intros H; by specialize (Hr H)|]. unfold run_receive.
    destruct (recv _ _).2; [destruct (marshal event)|..]; cbn; intros H; by specialize (Hr H).
  - split; [intros H; by specialize (Hr H)|]. unfold deliver_attempt.
    destruct (post w body a) as [sent []]; [| destruct (_ <=? _)|]; cbn; intros H; by specialize (Hr H).
  - split; [done|]. cbn. intros H. by specialize (Hr H).
  - destruct (sk_stop s) eqn:Hs; cbn; rewrite ?Hs; try done; naive_solver.
  - unfold Stop_step. rewrite Hp. destruct (sk_stop s) eqn:Hs; cbn; rewrite ?Hs; naive_solver.
  - unfold Stop_step. rewrite Hp. destruct (sk_stop s) eqn:Hs; cbn; rewrite ?Hs; naive_solver.
  - unfold Stop_step. rewrite Hp. destruct (sk_stop s) eqn:Hs; cbn; rewrite ?Hs; naive_solver.
  - unfold Stop_step. rewrite Hp. destruct (sk_stop s) eqn:Hs; cbn; rewrite ?Hs; naive_solver.
Qed.

Lemma run_returned w s turns :
  (sk_stop s = Returned → sk_phase s = Exited) →
  (sk_stop s = Returned → sk_stop (run w s turns) = Returned) ∧
  (sk_stop (run w s turns) = Returned → sk_phase (run w s turns) = Exited).
Proof.
  revert s. induction turns as [|t turns IH]; intros s Hr; [by split|].
  destruct (step_returned w s t Hr) as [H1 H2]. destruct (IH _ H2) as [H3 H4]. cbn. split; auto.
Qed.

Lemma work_nonneg w s : 0 <= budget w → sink_ok w s → 0 <= work w s - stopWork (sk_stop s).
Proof.
  intros Hbud Hok. pose proof (so_accounts _ _ Hok) as (got0 & _ & [_ _ Hph _ _]).
  unfold work. assert (0 <= (2 * budget w + 3) * backlog s).
  { apply Z.mul_nonneg_nonneg; [lia|]. unfold backlog. destruct (_ !! _); lia. }
  assert (0 <= phaseWork w (sk_phase s)); [|lia]. destruct (sk_phase s); cbn in *; lia.
Qed.

Lemma work_bound w s :
  0 <= budget w → sink_ok w s →
  work w s <= (2 * budget w + 3) * (bus_bufferSize (wt_bus (sk_bus s)) + 1) + 3.
Proof.
  intros Hbud Hok. pose proof (so_accounts _ _ Hok) as (got0 & _ & [_ _ Hph _ _]).
  destruct (so_channel _ _ Hok) as [c Hc].
  destruct (bok_delivers _ (so_bus _ _ Hok) _ _ Hc) as (acc & got' & _ & _ & [_ D2 _]).
  unfold work, backlog. rewrite Hc.
  assert ((2 * budget w + 3) * Z.of_nat (length (ch_buffer c)) <= (2 * budget w + 3) * bus_bufferSize (wt_bus (sk_bus s)))
    by (apply Z.mul_le_mono_nonneg_l; lia).
  assert (phaseWork w (sk_phase s) <= 2 * budget w + 3) by (destruct (sk_phase s); cbn in *; lia).
  assert (stopWork (sk_stop s) <= 3) by (by destruct (sk_stop s)). lia.
Qed.

Section Stopping.
Context (w : Webhook) (Hbud : 0 <= budget w)
  (Hst : hk_strategy w = Backoff.New webhookBackoffBase webhookBackoffCap).

Lemma step_running s t : sk_stop s ≠ Running → sk_stop (step w s t) ≠ Running.
Proof.
  intros Hs. destruct t as [op| |a draw| | |]; cbn [step].
  - by destruct (foreign _ _).
  - destruct (sk_phase s); try done. unfold run_receive.
    destruct (recv _ _).2; [destruct (marshal event)|..]; done.
  - destruct (sk_phase s); try done. unfold deliver_attempt.
    destruct (post w body a) as [sent []]; [| destruct (_ <=? _)|]; done.
  - by destruct (sk_phase s).
  - destruct (sk_phase s); try done. by destruct (sk_stop s) eqn:E; cbn; rewrite ?E.
  - unfold Stop_step. by destruct (sk_stop s) eqn:E, (sk_phase s); cbn; rewrite ?E.
Qed.

Lemma run_running s turns : sk_stop s ≠ Running → sk_stop (run w s turns) ≠ Running.
Proof. revert s. induction turns as [|t turns IH]; intros s Hs; [done|]. cbn. by apply IH, step_running. Qed.

Lemma run_work s turns :
  sink_ok w s → sk_stop s ≠ Running → Forall turn_ok turns →
  work w (run w s turns) <= work w s ∧
  ((∃ t, t ∈ turns ∧ drives (sk_phase s) t = true) → work w (run w s turns) < work w s ∨ sk_stop s = Returned).
Proof.
  intros Hok Hs Ht. revert s Hok Hs. induction Ht as [|t turns Ht Hts IH]; intros s Hok Hs.
  { split; [cbn; lia|]. intros (t & Hin & _). by apply elem_of_nil in Hin. }
  destruct (IH (step w s t)) as [Hle Hdr]; [by apply sink_ok_step|by apply step_running|].
  cbn [run foldl]. fold (run w (step w s t) turns).
  destruct (step_work w s t Hbud Hok Hs) as [Hlt|(Hno & Hp & Hst' & Hbl)].
  { split; [lia|]. left. lia. }
  assert (Hw : work w (step w s t) = work w s) by (unfold work; by rewrite Hp, Hst', Hbl).
  split; [lia|]. intros (t' & [->|Hin]%elem_of_cons & Hd'); [right; auto|].
  rewrite Hp, Hst', Hw in Hdr. apply Hdr. eauto.
Qed.

Lemma rounds_work s rounds :
  sink_ok w s → sk_stop s ≠ Running → (sk_stop s = Returned → sk_phase s = Exited) →
  Forall (λ r, fair r ∧ Forall turn_ok r) rounds →
  let s' := run w s (concat rounds) in
  sk_stop s' = Returned ∨ work w s' + Z.of_nat (length rounds) <= work w s.
Proof.
  cbv zeta. intros Hok Hs Hr Hall. revert s Hok Hs Hr.
  induction Hall as [|r rounds [Hf Hts] Hall IH]; intros s Hok Hs Hr; [right; cbn; lia|].
  cbn [concat]. unfold run. rewrite foldl_app. fold (run w s r).
  destruct (run_work s r Hok Hs Hts) as [_ Hdr].
  destruct (run_returned w s r Hr) as [Hret Hex].
  fold (run w (run w s r) (concat rounds)).
  destruct (Hdr (Hf (sk_phase s))) as [Hlt|Hret'].
  - destruct (IH (run w s r)) as [|Hle]; [by apply sink_ok_run|by apply run_running|done|by left|].
    right. cbn [length]. lia.
  - left. by apply run_returned; auto.
Qed.
(** What the sink received, and what is still buffered for it. *)
Definition promised (s : sink) : list TaskEvent :=
  default [] (wt_received (sk_bus s) !! sk_sub s) ++
  match bus_channels (wt_bus (sk_bus s)) !! sk_sub s with Some c => ch_buffer c | None => [] end.

(** Once the subscription is cancelled, a turn neither adds to it nor loses of it. *)
Lemma step_promised s t : sink_ok w s → sk_stop s ≠ Running → promised (step w s t) = promised s.
Proof.
  intros Hok Hs. destruct (so_cancelled _ _ Hok Hs) as (Hn & buffer & Hc).
  destruct (so_accounts _ _ Hok) as (got & Hg & _). unfold promised.
  destruct t as [op| |a draw| | |]; cbn [step].
  - destruct (foreign (sk_sub s) op) eqn:Hf; [|done]. cbn -[bus_step].
    pose proof (so_bus _ _ Hok) as Hb. pose proof (so_channel _ _ Hok) as Hch.
    by rewrite (foreign_received _ _ _ Hb Hch Hf), (foreign_channel _ _ _ Hb Hch Hf Hn).
  - destruct (sk_phase s); try done. unfold run_receive, recv. rewrite Hc. cbn [ch_buffer ch_closed].
    rewrite Hg. destruct buffer as [|event rest]; cbn [snd ch_buffer].
    + cbn. unfold recv. rewrite Hc. cbn. by rewrite Hg, Hc.
    + pose proof (receive_backlog _ _ _ _ Hc) as Hc'.
      assert (Hg' : wt_received (bus_step (sk_bus s) (ORecv (sk_sub s))) !! sk_sub s = Some (got ++ [event])).
      { cbn. unfold recv. rewrite Hc. cbn. by rewrite lookup_alter_eq, Hg. }
      destruct (marshal event); unfold settle; cbn -[bus_step]; rewrite Hc', Hg'; cbn; by rewrite <- app_assoc.
  - destruct (sk_phase s); try done. unfold deliver_attempt.
    destruct (post w body a) as [sent []]; [| destruct (_ <=? _)|]; done.
  - by destruct (sk_phase s).
  - destruct (sk_phase s); try done. by destruct (sk_stop s).
  - unfold Stop_step. destruct (sk_stop s); [done..| |done]. by destruct (sk_phase s).
Qed.

Lemma run_promised s turns :
  sink_ok w s → sk_stop s ≠ Running → Forall turn_ok turns → promised (run w s turns) = promised s.
Proof.
  intros Hok Hs Ht. revert s Hok Hs. induction Ht as [|t turns Ht _ IH]; intros s Hok Hs; [done|].
  cbn. rewrite <- (step_promised s t Hok Hs).
  apply IH; [by apply sink_ok_step|by apply step_running].
Qed.
End Stopping.
End Webhook.

(** ** The sink as a whole *)

(** The built sink, started on a bus with a history. *)
Definition started {MR : MapRange} (config : WebhookConfig) (bufferSize : Z) (ops : list busOp) : sink :=
  Start (NewWebhook config) (bus_run bufferSize ops).

Lemma started_ok {MR : MapRange} marshal requestable config bufferSize ops turns :
  Forall turn_ok turns →
  sink_ok marshal requestable (NewWebhook config)
    (run marshal requestable (NewWebhook config) (started config bufferSize ops) turns).
Proof.
  intros Ht. apply sink_ok_run; [apply NewWebhook_retries|done|done|]. apply sink_ok_start, bus_ok_run.
Qed.

(** C38: however the event webhook's goroutine, Stop and the users of the bus
    interleave, the events it has settled, has in hand or has buffered are, in order,
    some of the events its filter accepted, and all of them if the bus dropped none.
    An event that has no JSON form is settled without an attempt. Any other was
    attempted at most [MaxRetries] + 1 times: attempts that got no response, a
    status of 500 or more or 429, and then one the endpoint answered with a status
    below 300 (delivered), one it answered with any other status or for which the
    URL makes no request (dropped at once), the last transient failure of the
    budget (dropped), or an interruption, which only Stop causes. What was sent is
    exactly one request per attempt, to the configured URL with the event's JSON and
    the secret as a bearer token; every delay lies between 0 and the cap. *)
Theorem event_webhook_accounts {MR : MapRange} marshal requestable config bufferSize ops turns :
  Forall turn_ok turns →
  let w := NewWebhook config in
  let s := run marshal requestable w (started config bufferSize ops) turns in
  let events := handled (sk_settled s) (sk_phase s) in
  (∃ accepted c, wt_accepted (sk_bus s) !! sk_sub s = Some accepted ∧
     bus_channels (wt_bus (sk_bus s)) !! sk_sub s = Some c ∧
     events.*1 ++ ch_buffer c `sublist_of` accepted ∧
     (bus_drops (wt_bus (sk_bus s)) = 0 → events.*1 ++ ch_buffer c = accepted)) ∧
  Forall (lawful marshal w (stopped s)) (sk_settled s) ∧
  sk_sent s = concat (requestsFor marshal requestable w <$> events) ∧
  Forall (λ d, 0 <= d <= webhookBackoffCap) (sk_delays s).
Proof.
  intros Ht. cbv zeta. pose proof (started_ok marshal requestable config bufferSize ops turns Ht) as Hok.
  set (s := run _ _ _ _ _) in *. destruct (so_accounts _ _ _ _ Hok) as (got & Hg & [-> Hl _ Hsent Hd]).
  destruct (so_channel _ _ _ _ Hok) as [c Hc].
  destruct (bok_delivers _ (so_bus _ _ _ _ Hok) _ _ Hc) as (acc & got' & Ha & Hg' & [D1 _ D3]).
  rewrite Hg in Hg'. injection Hg' as <-. split; [|done]. exists acc, c. done.
Qed.

(** C39: stop returns. Once it has cancelled the subscription, every schedule that
    keeps giving the goroutine, its timer and Stop their turns brings it to an end
    within (2 * MaxRetries + 3) * (buffer size + 1) + 3 rounds, whatever the endpoint
    answers and whatever else happens on the bus; the goroutine has exited, and every
    event that was buffered has been settled, in order. *)
Theorem event_webhook_stops {MR : MapRange} marshal requestable config bufferSize ops turns rounds :
  let w := NewWebhook config in
  let s := run marshal requestable w (started config bufferSize ops) turns in
  let s' := run marshal requestable w s (concat rounds) in
  Forall turn_ok turns → sk_stop s ≠ Running → Forall (λ r, fair r ∧ Forall turn_ok r) rounds →
  (2 * hc_MaxRetries (hk_config w) + 3) * (bus_bufferSize (wt_bus (sk_bus s)) + 1) + 3 <= Z.of_nat (length rounds) →
  sk_stop s' = Returned ∧ sk_phase s' = Exited ∧ sm_event <$> sk_settled s' = promised s.
Proof.
  cbv zeta. intros Ht Hs Hr Hlen. set (w := NewWebhook config) in *.
  pose proof (started_ok marshal requestable config bufferSize ops turns Ht) as Hok. fold w in Hok.
  pose proof (NewWebhook_retries config : 0 <= budget w) as Hbud.
  set (s := run marshal requestable w (started config bufferSize ops) turns) in *.
  assert (Hrt : sk_stop s = Returned → sk_phase s = Exited) by (by apply run_returned).
  assert (Hrs : Forall turn_ok (concat rounds)).
  { apply Forall_concat. eapply Forall_impl; [exact Hr|]. by intros r [_ ?]. }
  pose proof (rounds_work marshal requestable w Hbud eq_refl s rounds Hok Hs Hrt Hr) as Hw.
  pose proof (run_promised marshal requestable w Hbud eq_refl s (concat rounds) Hok Hs Hrs) as Hpr.
  pose proof (sink_ok_run marshal requestable w s (concat rounds) Hbud eq_refl Hrs Hok) as Hok'.
  destruct (run_returned marshal requestable w s (concat rounds) Hrt) as [_ Hex].
  set (s' := run marshal requestable w s (concat rounds)) in *.
  assert (Hret : sk_stop s' = Returned).
  { destruct Hw as [|Hw]; [done|]. pose proof (work_nonneg _ _ w s' Hbud Hok') as Hn.
    pose proof (work_bound _ _ w s Hbud Hok). unfold budget in *. destruct (sk_stop s'); cbn in Hn; try done; lia. }
  split; [done|]. specialize (Hex Hret). split; [done|]. rewrite <- Hpr. unfold promised.
  destruct (so_exited _ _ _ _ Hok' Hex) as [_ Hc]. destruct (so_accounts _ _ _ _ Hok') as (got & Hg & [-> _ _ _ _]).
  rewrite Hc, Hg, Hex. unfold handled. cbn. by rewrite !app_nil_r, <- list_fmap_compose.
Qed.

(** ** Samples *)

Definition hookEvent (id : string) : TaskEvent :=
  mkTaskEvent id "mail" "send" TASK_STATE_PENDING TASK_EVENT_TYPE_ENQUEUED 1 0 "".
Definition hookConfig (retries : Z) : WebhookConfig := mkWebhookConfig "http://hook" 0 retries "s" (NewFilter [] []).
Definition plainMarshal (event : TaskEvent) : option (list byte) := Some (String.list_byte_of_string (ev_Id event)).
Definition runHook (retries bufferSize : Z) (turns : list turn) : sink :=
  run (MR := elements_range) plainMarshal (λ _, true) (NewWebhook (hookConfig retries))
    (started (MR := elements_range) (hookConfig retries) bufferSize []) turns.

Definition noJitter (_ : Duration) : Duration := 0.

Lemma noJitter_ok : Backoff.jitter_ok noJitter.
Proof. intros c Hc. unfold noJitter. lia. Qed.

(** One event, delivered by the second attempt. *)
Lemma event_webhook_accounts_witness :
  let turns := [TBus (OEmit (Some (hookEvent "a"))); TReceive; TPost NoResponse noJitter; TTimer;
                TPost (Response 200) noJitter] in
  let s := runHook 1 8 turns in
  sk_settled s = [mkSettlement (hookEvent "a") [Sent NoResponse; Sent (Response 200)] Delivered] ∧
  Forall (lawful plainMarshal (NewWebhook (hookConfig 1)) (stopped s)) (sk_settled s) ∧
  Forall (λ d, 0 <= d <= webhookBackoffCap) (sk_delays s).
Proof.
  cbv zeta. set (turns := [_; _; _; _; _]). split; [vm_compute; reflexivity|].
  assert (Ht : Forall turn_ok turns) by (repeat (apply Forall_cons; split; [first [done|apply noJitter_ok]|]); done).
  pose proof (event_webhook_accounts (MR := elements_range) plainMarshal (λ _, true) (hookConfig 1) 8 [] turns Ht) as H.
  cbv zeta in H. destruct H as (_ & Hl & _ & Hd). split; [exact Hl|exact Hd].
Defined.

(** Stop, with one event in hand and one buffered. *)
Lemma event_webhook_stops_witness :
  let turns := [TBus (OEmit (Some (hookEvent "a"))); TReceive; TBus (OEmit (Some (hookEvent "b"))); TStop] in
  let rounds := replicate 13 [TReceive; TPost (Response 503) noJitter; TTimer; TStop] in
  let s' := run (MR := elements_range) plainMarshal (λ _, true) (NewWebhook (hookConfig 1)) (runHook 1 1 turns) (concat rounds) in
  promised (runHook 1 1 turns) = [hookEvent "a"; hookEvent "b"] ∧
  sk_stop s' = Returned ∧ sk_phase s' = Exited ∧ sm_event <$> sk_settled s' = promised (runHook 1 1 turns).
Proof.
  cbv zeta. split; [vm_compute; reflexivity|].
  apply (event_webhook_stops (MR := elements_range) plainMarshal (λ _, true) (hookConfig 1) 1 []).
  - repeat constructor.
  - vm_compute. discriminate.
  - apply Forall_replicate. split; [|repeat (apply Forall_cons; split; [first [done|apply noJitter_ok]|]); done].
    intros [| | |]; [exists TReceive|exists (TPost (Response 503) noJitter)|exists TTimer|exists TStop]; (split; [set_solver|done]).
  - vm_compute. discriminate.
Defined.

(** Stop interrupts the wait of the event in hand, but every event that is still
    buffered is posted first, each for as long as the timeout allows: with an
    endpoint that stalls, Stop is not prompt. *)
Example stop_posts_backlog :
  let before := runHook 3 8 [TBus (OEmit (Some (hookEvent "a"))); TBus (OEmit (Some (hookEvent "b")));
    TBus (OEmit (Some (hookEvent "c"))); TReceive; TPost NoResponse noJitter; TStop; TStop] in
  let after := runHook 3 8 [TBus (OEmit (Some (hookEvent "a"))); TBus (OEmit (Some (hookEvent "b")));
    TBus (OEmit (Some (hookEvent "c"))); TReceive; TPost NoResponse noJitter; TStop; TStop;
    TStopSeen; TReceive; TPost NoResponse noJitter; TStopSeen; TReceive; TPost NoResponse noJitter; TStopSeen;
    TReceive; TStop] in
  sk_stop before = Closed ∧ length (sk_sent before) = 1%nat ∧
  sk_stop after = Returned ∧ rq_body <$> sk_sent after = String.list_byte_of_string <$> ["a"; "b"; "c"].
Proof. repeat split; vm_compute; reflexivity. Qed.

(** Zero retries are kept, not replaced by the default. *)
Example zero_retries_kept :
  hc_MaxRetries (hk_config (NewWebhook (hookConfig 0))) = 0 ∧
  sm_verdict <$> sk_settled (runHook 0 8 [TBus (OEmit (Some (hookEvent "a"))); TReceive; TPost NoResponse noJitter])
  = [Dropped].
Proof. split; vm_compute; reflexivity. Qed.
