(* ===== verification/Cli.v ===== *)
(** * The command line client (cmd/conveyor: main.go, admin.go, webhooks.go)

    Each command as what it does with its parsed flags and arguments: it checks
    them, sends a request, and prints. Parsing the command line is the library's; a
    flag that was required and not given is [None]. The server is what answers the
    requests, under the Authorization header the connection makes. A table is its
    rows of cells, laid out by [text/tabwriter]; writing to the terminal succeeds.
    The number, time and JSON formats of the standard library are a class. The text of
    an error is its fixed part: the value a message quotes, the hint it ends with and
    the library's error it wraps are left out. *)

From S2P Require Import Prelude Proto BrokerApi Encoding Encryption BrokerCalls Messages Engine Backoff TaskLog Gateway WebhookGuard Api Session AdminApi Access TasksApi SdkWorker SdkClient.
From stdpp Require Import pretty.
From Stdlib Require Import Floats.SpecFloat Strings.Byte Strings.Ascii.

#[local] Open Scope Z_scope.

(** ** Names *)

Definition defaultAddr : string := "http://localhost:8080".
Definition outputTable : string := "table".
Definition outputJSON : string := "json".
Definition envAddr : string := "CONVEYOR_ADDR".
Definition envToken : string := "CONVEYOR_TOKEN".
Definition envEncryptionKey : string := "CONVEYOR_ENCRYPTION_KEY".
Definition taskStatePrefix : string := "TASK_STATE_".
Definition taskEventTypePrefix : string := "TASK_EVENT_TYPE_".
Definition jsonContentType : string := "application/json".

(** ** Formats *)

(** [time.Parse] and [Format] with RFC3339, the latter in the local zone and in UTC,
    [time.ParseDuration], [Duration.String], the verbs %g and %q, [json.Valid],
    [json.Marshal] of a raw message, and what [json.Unmarshal] makes of a file. *)
Record txTaskSpec := mkTxTaskSpec {
  tx_Type : string;
  tx_Queue : string;
  tx_JSON : string;
  tx_ID : string;
  tx_In : string;
  tx_At : string;
  tx_ExpiresIn : string;
  tx_ExpiresAt : string;
  tx_MaxRetry : Z;
  tx_Priority : Z;
  tx_Retention : string;
  tx_Unique : string;
  tx_UniqueKey : string }.

Class Formats := {
  ParseRFC3339 : string → option Time;
  FormatLocal : Time → string;
  FormatUTC : Time → string;
  ParseDuration : string → option Duration;
  FormatDuration : Duration → string;
  FormatFloat : spec_float → string;
  QuoteString : string → string;
  json_Valid : string → bool;
  json_MarshalRaw : string → string + list byte;
  json_UnmarshalSpecs : list byte → option (list txTaskSpec) }.

Definition FormatBool (b : bool) : string := if b then "true" else "false".

(** [strings.Cut] at a one-byte separator. *)
Fixpoint strings_Cut (s : string) (sep : ascii) : string * string * bool :=
  match s with
  | EmptyString => ("", "", false)
  | String c s =>
      if Ascii.eqb c sep then ("", s, true)
      else let '(before, after, found) := strings_Cut s sep in (String c before, after, found)
  end.

Definition shifted (lo hi c : ascii) (by_ : N → N) : ascii :=
  if Api.between lo hi c then ascii_of_N (by_ (N_of_ascii c)) else c.

(** [strings.ToUpper], up to letters outside ASCII whose upper case is outside ASCII
    too: of the others, the long s and the dotless i have an ASCII upper case. *)
Fixpoint strings_ToUpper (s : string) : string :=
  match s with
  | EmptyString => ""
  | String c rest =>
      match rest with
      | String c' rest' =>
          if Ascii.eqb c "197" && Ascii.eqb c' "191" then String "S" (strings_ToUpper rest')
          else if Ascii.eqb c "196" && Ascii.eqb c' "177" then String "I" (strings_ToUpper rest')
          else String (shifted "a" "z" c (λ n, n - 32)%N) (strings_ToUpper rest)
      | EmptyString => String (shifted "a" "z" c (λ n, n - 32)%N) ""
      end
  end.

(** [strings.ToLower] of an ASCII string. *)
Fixpoint strings_ToLower (s : string) : string :=
  match s with
  | EmptyString => ""
  | String c s => String (shifted "A" "Z" c (λ n, n + 32)%N) (strings_ToLower s)
  end.

(** [fmt.Sscanf] with the one verb %d: blanks are skipped, a sign is taken, then the
    longest run of digits and underscores, which [strconv.ParseInt] refuses unless
    it is a number of 64 bits; what follows is left unread. *)
Definition blank (c : ascii) : bool :=
  existsb (Ascii.eqb c) [" "%char; "009"%char; "011"%char; "012"%char; "013"%char].

Fixpoint skipBlanks (l : list ascii) : list ascii :=
  match l with c :: rest => if blank c then skipBlanks rest else l | [] => [] end.

Fixpoint spanNumber (l : list ascii) : list ascii :=
  match l with
  | c :: rest => if Api.between "0" "9" c || Ascii.eqb c "_" then c :: spanNumber rest else []
  | [] => []
  end.

Definition ParseDecimal (negative : bool) (digits : list ascii) : option Z :=
  if bool_decide (digits = []) || existsb (λ c, Ascii.eqb c "_") digits then None
  else
    let n := foldl (λ n c, n * 10 + (Z.of_N (N_of_ascii c) - 48)) 0 digits in
    let n := if negative then - n else n in
    if (- 2 ^ 63 <=? n) && (n <? 2 ^ 63) then Some n else None.

Definition Sscanf_d (s : string) : option Z :=
  match skipBlanks (String.list_ascii_of_string s) with
  | [] => None
  | c :: rest =>
      if Ascii.eqb c "-" then ParseDecimal true (spanNumber rest)
      else if Ascii.eqb c "+" then ParseDecimal false (spanNumber rest)
      else ParseDecimal false (spanNumber (c :: rest))
  end.

(** [base64.StdEncoding]: four characters a group, the last one padded; carriage
    returns and line feeds are skipped, left-over bits ignored. *)
Definition stdSextet (c : ascii) : option Z :=
  if Ascii.eqb c "+" then Some 62
  else if Ascii.eqb c "/" then Some 63
  else if Ascii.eqb c "-" || Ascii.eqb c "_" then None
  else decodeSextet c.

Definition dropPadding (l : list ascii) : list ascii :=
  match reverse l with
  | a :: b :: rest =>
      if Ascii.eqb a "=" then if Ascii.eqb b "=" then reverse rest else reverse (b :: rest) else l
  | _ => l
  end.

Definition StdDecodeString (s : string) : option (list byte) :=
  let chars := filter (λ c, skipped c = false) (String.list_ascii_of_string s) in
  if decide ((length chars mod 4 = 0)%nat) then
    vs ← mapM stdSextet (dropPadding chars); unsextets vs
  else None.

(** ** Names of states and events *)

Definition TaskState_String (state : TaskState) : string :=
  match state with
  | TASK_STATE_UNSPECIFIED => "TASK_STATE_UNSPECIFIED"
  | TASK_STATE_SCHEDULED => "TASK_STATE_SCHEDULED"
  | TASK_STATE_PENDING => "TASK_STATE_PENDING"
  | TASK_STATE_ACTIVE => "TASK_STATE_ACTIVE"
  | TASK_STATE_RETRY => "TASK_STATE_RETRY"
  | TASK_STATE_COMPLETED => "TASK_STATE_COMPLETED"
  | TASK_STATE_ARCHIVED => "TASK_STATE_ARCHIVED"
  | TASK_STATE_CANCELED => "TASK_STATE_CANCELED"
  | TASK_STATE_AGGREGATING => "TASK_STATE_AGGREGATING"
  | TASK_STATE_BLOCKED => "TASK_STATE_BLOCKED"
  end.

(** [TaskState_value]: the states by name. *)
Definition TaskState_value (name : string) : option TaskState :=
  list_find (λ state, TaskState_String state = name)
    [TASK_STATE_UNSPECIFIED; TASK_STATE_SCHEDULED; TASK_STATE_PENDING; TASK_STATE_ACTIVE;
     TASK_STATE_RETRY; TASK_STATE_COMPLETED; TASK_STATE_ARCHIVED; TASK_STATE_CANCELED;
     TASK_STATE_AGGREGATING; TASK_STATE_BLOCKED] ≫= λ p, Some p.2.

Definition TaskEventType_String (t : TaskEventType) : string :=
  match t with
  | TASK_EVENT_TYPE_UNSPECIFIED => "TASK_EVENT_TYPE_UNSPECIFIED"
  | TASK_EVENT_TYPE_ENQUEUED => "TASK_EVENT_TYPE_ENQUEUED"
  | TASK_EVENT_TYPE_SCHEDULED => "TASK_EVENT_TYPE_SCHEDULED"
  | TASK_EVENT_TYPE_LEASED => "TASK_EVENT_TYPE_LEASED"
  | TASK_EVENT_TYPE_COMPLETED => "TASK_EVENT_TYPE_COMPLETED"
  | TASK_EVENT_TYPE_RETRIED => "TASK_EVENT_TYPE_RETRIED"
  | TASK_EVENT_TYPE_ARCHIVED => "TASK_EVENT_TYPE_ARCHIVED"
  | TASK_EVENT_TYPE_CANCELED => "TASK_EVENT_TYPE_CANCELED"
  | TASK_EVENT_TYPE_RELEASED => "TASK_EVENT_TYPE_RELEASED"
  end.

Definition TaskEventType_value (name : string) : option TaskEventType :=
  list_find (λ t, TaskEventType_String t = name)
    [TASK_EVENT_TYPE_UNSPECIFIED; TASK_EVENT_TYPE_ENQUEUED; TASK_EVENT_TYPE_SCHEDULED;
     TASK_EVENT_TYPE_LEASED; TASK_EVENT_TYPE_COMPLETED; TASK_EVENT_TYPE_RETRIED;
     TASK_EVENT_TYPE_ARCHIVED; TASK_EVENT_TYPE_CANCELED; TASK_EVENT_TYPE_RELEASED]
  ≫= λ p, Some p.2.

Definition trimPrefix (s prefix : string) : string := default s (CutPrefix s prefix).

Definition stateName (state : TaskState) : string :=
  strings_ToLower (trimPrefix (TaskState_String state) taskStatePrefix).
Definition eventTypeName (t : TaskEventType) : string :=
  strings_ToLower (trimPrefix (TaskEventType_String t) taskEventTypePrefix).

(** ** Errors and output *)

(** The error of a command: its own message, the SDK's, the server's code, or one of
    a task of a file. *)
Inductive cliError :=
  | EText (message : string)
  | ERequired (flag : string)
  | EKey (err : EncryptionError)
  | EClient (err : clientError)
  | ECall (code : Code)
  | ETask (index : nat) (err : cliError).

(** A cell is a text, or the text of an error the server gave for an id. *)
Inductive cell := Txt (text : string) | ErrorOutcome.

Record NodeInfo := mkNodeInfo { ni_Address : string; ni_StartedAt : option Time }.

(** The responses of the admin service. *)
Inductive adminReply :=
  | Done
  | Queues (stats : list QueueStat)
  | RateLimits (limits : list RateLimitInfo)
  | ConcurrencyLimits (limits : list ConcurrencyLimitInfo)
  | GroupConfigList_ (configs : list GroupConfigInfo)
  | TaskPage (page : ListTasksResponse)
  | BatchResults (results : list TaskActionResult)
  | CronList (entries : list CronInfo)
  | WebhookList (workers : list WebhookWorkerInfo)
  | SessionList (sessions : list SessionSnapshot)
  | BrokerStatus (info : option Info).

Inductive output :=
  | Line (text : string)
  | Table (rows : list (list cell))
  | JSONReply (reply : adminReply)
  | JSONTask (task : TaskInfo)
  | JSONNodes (nodes : list NodeInfo)
  | Usage.

Definition row (cells : list string) : list cell := Txt <$> cells.

Definition parseTaskState (state : string) : cliError + TaskState :=
  if decide (state = "") then inr TASK_STATE_UNSPECIFIED
  else
    match TaskState_value (taskStatePrefix +:+ strings_ToUpper state) with
    | Some value =>
        if decide (value = TASK_STATE_UNSPECIFIED) then inl (EText "unknown state") else inr value
    | None => inl (EText "unknown state")
    end.

Fixpoint parseEventTypes (names : list string) : cliError + list TaskEventType :=
  match names with
  | [] => inr []
  | name :: names =>
      match TaskEventType_value (taskEventTypePrefix +:+ strings_ToUpper name) with
      | Some value =>
          if decide (value = TASK_EVENT_TYPE_UNSPECIFIED) then inl (EText "unknown event type")
          else
            match parseEventTypes names with
            | inl err => inl err
            | inr types => inr (value :: types)
            end
      | None => inl (EText "unknown event type")
      end
  end.

(** ** Connection *)

Record connection := mkConnection { cn_addr : string; cn_token : string; cn_output : string }.

Fixpoint firstNonEmpty (values : list string) : string :=
  match values with
  | [] => ""
  | value :: values => if decide (value ≠ "") then value else firstNonEmpty values
  end.

Definition jsonOutput (c : connection) : bool := bool_decide (cn_output c = outputJSON).

Section Connection.
(** [os.Getenv]. *)
Context (getenv : string → string) (c : connection).

Definition baseURL : string := firstNonEmpty [cn_addr c; getenv envAddr; defaultAddr].
Definition bearerToken : string := firstNonEmpty [cn_token c; getenv envToken].

(** The Authorization header of [admin], [tasks] and [client]; none without a token. *)
Definition authorization : string :=
  if decide (bearerToken ≠ "") then bearerPrefix +:+ bearerToken else "".
End Connection.

Definition orDash (value : string) : string := if decide (value = "") then "-" else value.

(** ** Building tasks *)

Section Building.
Context {FM : Formats} (getenv : string → string).

Definition formatTime (t : Time) : string := if IsZero t then "-" else FormatLocal t.

Definition buildTask (taskType payload : string) : cliError + sdkTask :=
  if decide (payload = "") then inr (NewTask taskType (Bytes []))
  else if negb (json_Valid payload) then inl (EText "enqueue: --json payload is not valid JSON")
  else inr (NewTask taskType (JSON (json_MarshalRaw payload))).

(** An option that is added when its flag is set, [add] of what it parses to. *)
Definition whenSet {A} (set : bool) (value : cliError + A) (add : A → EnqueueOption)
    (options : cliError + list EnqueueOption) : cliError + list EnqueueOption :=
  match options with
  | inl err => inl err
  | inr options =>
      if set then
        match value with inl err => inl err | inr x => inr (options ++ [add x]) end
      else inr options
  end.

Definition parsedTime (message value : string) : cliError + Time :=
  match ParseRFC3339 value with Some t => inr t | None => inl (EText message) end.

Definition buildEnqueueOptions (queue taskID processAt expiresAt uniqueKey : string)
    (processIn expiresIn retention unique : Duration) (maxRetry priority : Z)
    : cliError + list EnqueueOption :=
  let options := inr [] in
  let options := whenSet (negb (bool_decide (queue = ""))) (inr queue) Queue options in
  let options := whenSet (negb (bool_decide (taskID = ""))) (inr taskID) TaskID options in
  let options := whenSet (0 <? processIn) (inr processIn) ProcessIn options in
  let options := whenSet (negb (bool_decide (processAt = "")))
                   (parsedTime "enqueue: parsing --at" processAt) ProcessAt options in
  let options := whenSet (0 <? expiresIn) (inr expiresIn) ExpiresIn options in
  let options := whenSet (negb (bool_decide (expiresAt = "")))
                   (parsedTime "enqueue: parsing --expires-at" expiresAt) ExpiresAt options in
  let options := whenSet (0 <? maxRetry) (inr maxRetry) MaxRetry options in
  let options := whenSet (0 <? priority) (inr priority) Priority options in
  let options := whenSet (0 <? retention) (inr retention) Retention options in
  let options := whenSet (0 <? unique) (inr unique) Unique options in
  whenSet (negb (bool_decide (uniqueKey = ""))) (inr uniqueKey) sdk_UniqueKey options.

(** [None] when no override was asked for. *)
Definition buildRetryPolicy (strategy : string) (base maxDelay : Duration)
    : cliError + option EnqueueOption :=
  if bool_decide (strategy = "") && (base =? 0) && (maxDelay =? 0) then inr None
  else
    let policy parsed := inr (Some (sdk_RetryPolicy parsed base maxDelay)) in
    if decide (strategy = "" ∨ strategy = "default") then policy RetryDefault
    else if decide (strategy = "exponential") then policy RetryExponential
    else if decide (strategy = "linear") then policy RetryLinear
    else if decide (strategy = "fixed") then policy RetryFixed
    else inl (EText "enqueue: --retry-strategy is not one of exponential, linear, fixed").

Definition buildEncryptor (key : string) : cliError + option AESGCM :=
  let key := firstNonEmpty [key; getenv envEncryptionKey] in
  if decide (key = "") then inr None
  else
    let '(id, encodedSecret, found) := strings_Cut key ":" in
    if negb found || bool_decide (id = "") || bool_decide (encodedSecret = "") then
      inl (EText "enqueue: --encryption-key must be <id>:<base64-secret>")
    else
      match StdDecodeString encodedSecret with
      | None => inl (EText "enqueue: decoding --encryption-key secret")
      | Some secret =>
          match NewAESGCM id [mkKey id secret] with
          | inl err => inl (EKey err)
          | inr encryptor => inr (Some encryptor)
          end
      end.

Definition parseSpecDuration (index : nat) (field value : string) : cliError + Duration :=
  if decide (value = "") then inr 0
  else
    match ParseDuration value with
    | Some parsed => inr parsed
    | None => inl (ETask index (EText ("parsing " +:+ field)))
    end.

(** The turn of the loop of [readTxTasks] for one task. *)
Definition readTxTask (index : nat) (spec : txTaskSpec) : cliError + TxTask :=
  if decide (tx_Type spec = "") then inl (ETask index (EText "a type is required"))
  else
    match buildTask (tx_Type spec) (tx_JSON spec) with
    | inl err => inl (ETask index err)
    | inr task =>
        match parseSpecDuration index "in" (tx_In spec) with
        | inl err => inl err
        | inr processIn =>
            match parseSpecDuration index "expires_in" (tx_ExpiresIn spec) with
            | inl err => inl err
            | inr expiresIn =>
                match parseSpecDuration index "retention" (tx_Retention spec) with
                | inl err => inl err
                | inr retention =>
                    match parseSpecDuration index "unique" (tx_Unique spec) with
                    | inl err => inl err
                    | inr unique =>
                        match buildEnqueueOptions (tx_Queue spec) (tx_ID spec) (tx_At spec)
                                (tx_ExpiresAt spec) (tx_UniqueKey spec) processIn expiresIn retention
                                unique (tx_MaxRetry spec) (tx_Priority spec) with
                        | inl err => inl (ETask index err)
                        | inr options => inr (Tx (Some task) options)
                        end
                    end
                end
            end
        end
    end.

Fixpoint readEach (index : nat) (specs : list txTaskSpec) : cliError + list TxTask :=
  match specs with
  | [] => inr []
  | spec :: specs =>
      match readTxTask index spec with
      | inl err => inl err
      | inr task =>
          match readEach (S index) specs with inl err => inl err | inr tasks => inr (task :: tasks) end
      end
  end.

(** [readFile] is [os.ReadFile]. *)
Definition readTxTasks (readFile : string → option (list byte)) (file : string) : cliError + list TxTask :=
  if decide (file = "") then inl (EText "enqueue-tx: --file is required")
  else
    match readFile file with
    | None => inl (EText "enqueue-tx: reading the file")
    | Some raw =>
        match json_UnmarshalSpecs raw with
        | None => inl (EText "enqueue-tx: not a JSON array of task specs")
        | Some [] => inl (EText "enqueue-tx: the task list is empty")
        | Some specs => readEach 0 specs
        end
    end.

(** Exactly one of the two forms. A delay is resolved by the server's clock. *)
Definition rescheduleRequest (id : string) (in_ : Duration) (at_ : string)
    : cliError + (string * option Time * option Duration) :=
  if (0 <? in_) && negb (bool_decide (at_ = "")) then
    inl (EText "tasks reschedule: set only one of --in or --at")
  else if 0 <? in_ then inr (id, None, Some in_)
  else if decide (at_ ≠ "") then
    match ParseRFC3339 at_ with
    | None => inl (EText "tasks reschedule: parsing --at")
    | Some parsed => inr (id, timestamppb_New parsed, None)
    end
  else inl (EText "tasks reschedule: set one of --in or --at").

(** "name" or "name=weight"; a repeated name keeps its last weight. *)
Fixpoint parseWeights (values : list string) (queues : gmap string Z) : cliError + gmap string Z :=
  match values with
  | [] => inr queues
  | value :: values =>
      let '(name, weightText, weighted) := strings_Cut value "=" in
      if weighted then
        match Sscanf_d weightText with
        | Some parsed =>
            if parsed <? 1 then inl (EText "webhooks add: invalid queue weight")
            else parseWeights values (<[name := wrap32 parsed]> queues)
        | None => inl (EText "webhooks add: invalid queue weight")
        end
      else parseWeights values (<[name := 1]> queues)
  end.

Definition parseQueueWeights (values : list string) : cliError + gmap string Z :=
  if decide (length values = 0%nat) then inl (EText "webhooks add: at least one --queue is required")
  else parseWeights values ∅.
End Building.

(** ** Commands *)

(** The server: its admin service, the two procedures of it that are not calls on
    the broker, and its task service, each under an Authorization header. What a
    watch delivers is the events and how the stream ended. *)
Record remote (S : Type) := mkRemote {
  rm_admin : string → adminCall → S → S * (Code + adminReply);
  rm_ClusterInfo : string → S → S * (Code + list NodeInfo);
  rm_WatchEvents : string → list string → list TaskEventType → S →
    S * (Code + (list TaskEvent * option Code));
  rm_tasks : string → wireClient S }.
Arguments mkRemote {_} _ _ _ _.
Arguments rm_admin {_} _ _ _ _.
Arguments rm_ClusterInfo {_} _ _ _.
Arguments rm_WatchEvents {_} _ _ _ _ _.
Arguments rm_tasks {_} _ _.

(** What is printed, and the error the process exits with. *)
Definition result : Type := list output * option cliError.
Definition action (S : Type) : Type := S → S * result.

(** A command: the check of its positional arguments, and what it does with them. *)
Record command (S : Type) := mkCommand {
  cmd_Args : list string → option cliError;
  cmd_RunE : list string → action S }.
Arguments mkCommand {_} _ _.
Arguments cmd_Args {_} _ _.
Arguments cmd_RunE {_} _ _ _.

Definition exactly (n : nat) (message : string) (args : list string) : option cliError :=
  if decide (length args = n) then None else Some (EText message).

Definition NoArgs (args : list string) : option cliError :=
  if decide (length args = 0%nat) then None else Some (EText "unknown command").
Definition exactQueueName (name : string) : list string → option cliError :=
  exactly 1 (name +:+ ": exactly one queue name is required").
Definition exactTaskID (name : string) : list string → option cliError :=
  exactly 1 (name +:+ ": exactly one task id is required").
Definition exactCronID (name : string) : list string → option cliError :=
  exactly 1 (name +:+ ": exactly one entry id is required").
Definition exactWebhookName (name : string) : list string → option cliError :=
  exactly 1 (name +:+ ": usage: conveyor " +:+ name +:+ " <name>").

Definition arg (args : list string) (i : nat) : string := nth i args "".

(** The groups of commands. *)
Inductive commandGroup :=
  | GTasks | GQueues | GRateLimit | GConcurrency | GGroup | GCron | GWebhooks | GCluster | GBroker.

(** The rows of the tables. *)
Section Rendering.
Context {FM : Formats} {MR : MapRange}.

Definition queueRow (q : QueueStat) : list cell :=
  row [qs_Queue q; FormatBool (qs_Paused q); pretty (qs_Scheduled q); pretty (qs_Pending q);
       pretty (qs_Active q); pretty (qs_Retry q); pretty (qs_Completed q); pretty (qs_Archived q)].

Definition taskRow (t : TaskInfo) : list cell :=
  row [ti_Id t; ti_Type t; ti_Queue t; stateName (ti_State t);
       pretty (ti_Retried t) +:+ "/" +:+ pretty (ti_MaxRetry t); orDash (ti_LastError t)].

Definition eventRow (e : TaskEvent) : list cell :=
  row [FormatUTC (ev_OccurredAt e); eventTypeName (ev_EventType e); ev_Queue e; ev_Type e; ev_Id e;
       stateName (ev_State e); pretty (ev_Attempt e); orDash (ev_LastError e)].

Definition stamp (t : option Time) : string := match t with Some t => formatTime t | None => "-" end.

Definition sessionRow (s : SessionSnapshot) : list cell :=
  row [sn_ID s; strings_Join (sn_Queues s) ","; pretty (sn_Concurrency s); orDash (sn_SDKVersion s);
       stamp (timestamppb_New (sn_ConnectedAt s))].

Definition webhookRow (worker : WebhookWorkerInfo) : list cell :=
  row [whi_Name worker; whi_Url worker;
       strings_Join ((λ p, p.1 +:+ "=" +:+ pretty p.2) <$> range_map (whi_Queues worker)) ",";
       pretty (whi_Concurrency worker); FormatBool (whi_Paused worker)].

(** How a listing prints as a table; the other replies print nothing. *)
Definition listing (reply : adminReply) : list output :=
  match reply with
  | Queues stats =>
      [Table (row ["QUEUE"; "PAUSED"; "SCHEDULED"; "PENDING"; "ACTIVE"; "RETRY"; "COMPLETED"; "ARCHIVED"]
              :: (queueRow <$> stats))]
  | RateLimits limits =>
      [Table (row ["QUEUE"; "RATE/S"; "BURST"] ::
        ((λ l, row [ri_Queue l; FormatFloat (ri_RatePerSec l); pretty (ri_Burst l)]) <$> limits))]
  | ConcurrencyLimits limits =>
      [Table (row ["QUEUE"; "MAX/KEY"] :: ((λ l, row [ci_Queue l; pretty (ci_MaxActive l)]) <$> limits))]
  | GroupConfigList_ configs =>
      [Table (row ["QUEUE"; "GROUP"; "MAX-SIZE"; "MAX-DELAY"; "GRACE"] ::
        ((λ c, row [gi_Queue c; gi_Group c; pretty (gi_MaxSize c); FormatDuration (gi_MaxDelay c);
                    FormatDuration (gi_GracePeriod c)]) <$> configs))]
  | TaskPage page =>
      Table (row ["ID"; "TYPE"; "QUEUE"; "STATE"; "RETRIED"; "LAST_ERROR"] :: (taskRow <$> lt_Tasks page))
      :: (if decide (lt_NextPageToken page = "") then []
          else [Line ""; Line ("next page: conveyor tasks list --page " +:+ lt_NextPageToken page)])
  | CronList entries =>
      [Table (row ["ID"; "SPEC"; "TYPE"; "QUEUE"; "PAUSED"] ::
        ((λ e, row [cri_Id e; cri_Spec e; cri_TaskType e; cri_Queue e; FormatBool (cri_Paused e)]) <$> entries))]
  | WebhookList workers =>
      [Table (row ["NAME"; "URL"; "QUEUES"; "CONCURRENCY"; "PAUSED"] :: (webhookRow <$> workers))]
  | SessionList sessions =>
      [Table (row ["ID"; "QUEUES"; "CONCURRENCY"; "SDK"; "CONNECTED_AT"] :: (sessionRow <$> sessions))]
  | BrokerStatus (Some info) =>
      [Table (row ["driver"; info_Driver info] :: ((λ p, row [p.1; p.2]) <$> range_map (info_Metrics info)))]
  | _ => []
  end.

(** [writeBatchResults]. *)
Definition writeBatchResults (json : bool) (name : string) (results : list TaskActionResult) : list output :=
  if json then [JSONReply (BatchResults results)]
  else
    [Table (row ["ID"; "RESULT"] ::
      ((λ r, [Txt (tar_Id r); if tar_Failed r then ErrorOutcome else Txt (name +:+ " requested")]) <$> results))].

Definition renderBatchResults (json : bool) (name : string) (ids : list string)
    (results : list TaskActionResult) : result :=
  let printed := writeBatchResults json name results in
  let failed := filter (λ r, tar_Failed r = true) results in
  (printed,
   if decide (length results ≠ length ids) then
     Some (EText ("tasks " +:+ name +:+ ": server answered for " +:+ pretty (length results) +:+ " of " +:+
                  pretty (length ids) +:+ " ids"))
   else if decide (failed = []) then None
   else Some (EText ("tasks " +:+ name +:+ ": " +:+ pretty (length failed) +:+ " of " +:+
                     pretty (length results) +:+ " ids failed"))).
End Rendering.

Section Commands.
Context {FM : Formats} {MR : MapRange} {G : Encryptor AESGCM} {S : Type}.
Context (rm : remote S) (getenv : string → string) (readFile : string → option (list byte)) (conn : connection).

Definition exit (err : cliError) : action S := λ s, (s, ([], Some err)).
Definition print (text : string) : result := ([Line text], None).

(** A request to the admin service, its response printed by [k]. *)
Definition admin (c : adminCall) (k : adminReply → result) : action S := λ s,
  match rm_admin rm (authorization getenv conn) c s with
  | (s, inl code) => (s, ([], Some (ECall code)))
  | (s, inr reply) => (s, k reply)
  end.

(** A change, acknowledged by one line. *)
Definition change (c : adminCall) (text : string) : action S := admin c (λ _, print text).

(** A listing, as a table or as the response. *)
Definition inspect (c : adminCall) : action S :=
  admin c (λ reply, (if jsonOutput conn then [JSONReply reply] else listing reply, None)).

(** A flag marked required; of several that are missing the first is named. *)
Definition requiring {A} (flag : string) (value : option A) (k : A → action S) : action S :=
  match value with None => exit (ERequired flag) | Some x => k x end.

(** The command of a group, run without a subcommand of it. *)
Definition groupCommand (name usage : string) : command S :=
  mkCommand (λ _, None) (λ args s,
    (s, ([Usage], Some (EText (match args with
                              | [] => name +:+ ": " +:+ usage
                              | a :: _ => name +:+ ": unknown subcommand " +:+ QuoteString a
                              end))))).

Definition newTasksCommand : command S :=
  groupCommand "tasks" "a subcommand is required, e.g. conveyor tasks get <id>".
Definition newQueuesCommand : command S := groupCommand "queues" "usage: conveyor queues pause|resume <queue>".
Definition newRateLimitCommand : command S := groupCommand "ratelimit" "usage: conveyor ratelimit set|rm|ls".
Definition newConcurrencyLimitCommand : command S :=
  groupCommand "concurrency" "usage: conveyor concurrency set|rm|ls".
Definition newGroupConfigCommand : command S := groupCommand "group" "usage: conveyor group set|rm|ls".
Definition newCronCommand : command S :=
  groupCommand "cron"
    "usage: conveyor cron add <id> <spec> <type> | list | pause <id> | resume <id> | delete <id>".
Definition newWebhooksCommand : command S :=
  groupCommand "webhooks"
    "usage: conveyor webhooks add <name> <url> | list | pause <name> | resume <name> | delete <name>".
Definition newClusterCommand : command S := groupCommand "cluster" "usage: conveyor cluster info|sessions".
Definition newBrokerCommand : command S := groupCommand "broker" "usage: conveyor broker info".

(** *** Enqueueing *)

Record enqueueFlags := mkEnqueueFlags {
  ef_queue : string; ef_json : string; ef_id : string;
  ef_in : Duration; ef_at : string; ef_expiresIn : Duration; ef_expiresAt : string;
  ef_maxRetry : Z; ef_priority : Z; ef_retention : Duration;
  ef_unique : Duration; ef_uniqueKey : string; ef_encryptionKey : string;
  ef_retryStrategy : string; ef_retryBase : Duration; ef_retryMax : Duration }.

(** [baseURL] is never empty, so [NewClient] succeeds. *)
Definition client : wireClient S := rm_tasks rm (authorization getenv conn).

(** [State] of the SDK prints as its name. *)
Definition sdkStateName (state : sdkTaskState) : string :=
  match state with
  | TaskStateScheduled => "scheduled"
  | TaskStatePending => "pending"
  | TaskStateActive => "active"
  | TaskStateRetry => "retry"
  | TaskStateCompleted => "completed"
  | TaskStateArchived => "archived"
  | TaskStateCanceled => "canceled"
  | TaskStateAggregating => "aggregating"
  | TaskStateUnknown => "unknown"
  end.

Definition enqueuedLine (info : sdkTaskInfo) : output :=
  Line ("enqueued " +:+ si_ID info +:+ " (queue=" +:+ si_Queue info +:+ ", state=" +:+
        sdkStateName (si_State info) +:+ ")").

(** What the flags make: the task, its options and the encryptor. *)
Definition enqueueArguments (taskType : string) (f : enqueueFlags)
    : cliError + (sdkTask * list EnqueueOption * option AESGCM) :=
  match buildTask taskType (ef_json f) with
  | inl err => inl err
  | inr task =>
      match buildEnqueueOptions (ef_queue f) (ef_id f) (ef_at f) (ef_expiresAt f) (ef_uniqueKey f)
              (ef_in f) (ef_expiresIn f) (ef_retention f) (ef_unique f) (ef_maxRetry f) (ef_priority f) with
      | inl err => inl err
      | inr options =>
          match buildRetryPolicy (ef_retryStrategy f) (ef_retryBase f) (ef_retryMax f) with
          | inl err => inl err
          | inr retryOption =>
              match buildEncryptor getenv (ef_encryptionKey f) with
              | inl err => inl err
              | inr encryptor =>
                  inr (task, options ++ match retryOption with Some o => [o] | None => [] end, encryptor)
              end
          end
      end
  end.

(** [entropy] is what sealing the payload draws. *)
Definition newEnqueueCommand (entropy : list byte) (f : enqueueFlags) : command S :=
  mkCommand
    (λ args, if decide (length args ≠ 1%nat ∨ arg args 0 = "")
             then Some (EText "enqueue: a task type is required") else None)
    (λ args s,
       match enqueueArguments (arg args 0) f with
       | inl err => exit err s
       | inr (task, options, encryptor) =>
           match client_Enqueue client encryptor [] entropy (Some task) options s with
           | (s, inl err) => (s, ([], Some (EClient err)))
           | (s, inr info) => (s, ([enqueuedLine info], None))
           end
       end).

Definition newEnqueueTxCommand (entropies : nat → list byte) (file : option string) (encryptionKey : string)
    : command S :=
  mkCommand (λ _, None) (λ _, requiring "file" file (λ file s,
    match readTxTasks readFile file with
    | inl err => exit err s
    | inr tasks =>
        match buildEncryptor getenv encryptionKey with
        | inl err => exit err s
        | inr encryptor =>
            match client_EnqueueTx client encryptor entropies tasks s with
            | (s, inl err) => (s, ([], Some (EClient err)))
            | (s, inr infos) => (s, (enqueuedLine <$> infos, None))
            end
        end
    end)).

(** *** Tasks *)

Definition taskLines (info : sdkTaskInfo) : list output :=
  Line <$> ["id:          " +:+ si_ID info; "queue:       " +:+ si_Queue info;
            "type:        " +:+ si_Type info; "state:       " +:+ sdkStateName (si_State info);
            "priority:    " +:+ pretty (si_Priority info);
            "retried:     " +:+ pretty (si_Retried info) +:+ "/" +:+ pretty (si_MaxRetry info);
            "last_error:  " +:+ orDash (si_LastError info);
            "enqueued_at: " +:+ formatTime (si_EnqueuedAt info);
            "process_at:  " +:+ formatTime (si_ProcessAt info)].

Definition newTasksGetCommand : command S :=
  mkCommand (exactTaskID "tasks get") (λ args s,
    if jsonOutput conn then
      match wire_GetTask client (arg args 0) s with
      | (s, inl code) => (s, ([], Some (ECall code)))
      | (s, inr task) => (s, ([JSONTask task], None))
      end
    else
      match client_GetTask client (arg args 0) s with
      | (s, inl err) => (s, ([], Some (EClient err)))
      | (s, inr info) => (s, (taskLines info, None))
      end).

(** --limit is an int32 flag. *)
Definition newTasksListCommand (queue state : string) (limit : Z) (pageToken : string) : command S :=
  mkCommand NoArgs (λ _ s,
    match parseTaskState state with
    | inl err => exit err s
    | inr taskState => inspect (AListTasks (mkTaskQuery queue taskState limit pageToken)) s
    end).

(** One id takes the unary call unless the output is JSON. *)
Definition newTaskOperationCommand (name : string) (single : string → adminCall)
    (batch : list string → adminCall) : command S :=
  mkCommand
    (λ args, if decide (length args < 1)%nat
             then Some (EText ("tasks " +:+ name +:+ ": at least one task id is required")) else None)
    (λ args,
       if bool_decide (length args = 1%nat) && negb (jsonOutput conn) then
         change (single (arg args 0)) ("task " +:+ arg args 0 +:+ ": " +:+ name +:+ " requested")
       else
         admin (batch args) (λ reply,
           renderBatchResults (jsonOutput conn) name args
             match reply with BatchResults results => results | _ => [] end)).

Definition newTasksRunCommand : command S := newTaskOperationCommand "run" ARunTask ABatchRunTasks.
Definition newTasksCancelCommand : command S := newTaskOperationCommand "cancel" ACancelTask ABatchCancelTasks.
Definition newTasksDeleteCommand : command S := newTaskOperationCommand "delete" ADeleteTask ABatchDeleteTasks.
Definition newTasksArchiveCommand : command S :=
  newTaskOperationCommand "archive" AArchiveTask ABatchArchiveTasks.

Definition newTasksRescheduleCommand (in_ : Duration) (at_ : string) : command S :=
  mkCommand (exactTaskID "tasks reschedule") (λ args s,
    match rescheduleRequest (arg args 0) in_ at_ with
    | inl err => exit err s
    | inr (id, processAt, processIn) =>
        change (ARescheduleTask id processAt processIn) ("task " +:+ id +:+ ": reschedule requested") s
    end).

(** *** Queues and their settings *)

Definition newStatsCommand : command S := mkCommand NoArgs (λ _, inspect AListQueues).

Definition queuesPauseCommand : command S :=
  mkCommand (exactQueueName "queues pause") (λ args,
    change (APauseQueue (arg args 0)) ("queue " +:+ arg args 0 +:+ " paused")).
Definition queuesResumeCommand : command S :=
  mkCommand (exactQueueName "queues resume") (λ args,
    change (AResumeQueue (arg args 0)) ("queue " +:+ arg args 0 +:+ " resumed")).

(** The int flags are of 64 bits, the fields they are sent in of 32. *)
Definition newRateLimitSetCommand (rate : option spec_float) (burst : Z) : command S :=
  mkCommand (exactQueueName "ratelimit set") (λ args, requiring "rate" rate (λ rate,
    change (ASetQueueRateLimit (arg args 0) rate (wrap32 burst))
      ("queue " +:+ arg args 0 +:+ " limited to " +:+ FormatFloat rate +:+ "/s (burst " +:+ pretty burst +:+ ")"))).
Definition newRateLimitRemoveCommand : command S :=
  mkCommand (exactQueueName "ratelimit rm") (λ args,
    change (ADeleteQueueRateLimit (arg args 0)) ("queue " +:+ arg args 0 +:+ " rate limit cleared")).
Definition newRateLimitListCommand : command S := mkCommand NoArgs (λ _, inspect AListRateLimits).

Definition newConcurrencyLimitSetCommand (maxActive : option Z) : command S :=
  mkCommand (exactQueueName "concurrency set") (λ args, requiring "max" maxActive (λ maxActive,
    change (ASetQueueConcurrencyLimit (arg args 0) (wrap32 maxActive))
      ("queue " +:+ arg args 0 +:+ " limited to " +:+ pretty maxActive +:+ " active per concurrency key"))).
Definition newConcurrencyLimitRemoveCommand : command S :=
  mkCommand (exactQueueName "concurrency rm") (λ args,
    change (ADeleteQueueConcurrencyLimit (arg args 0)) ("queue " +:+ arg args 0 +:+ " concurrency limit cleared")).
Definition newConcurrencyLimitListCommand : command S := mkCommand NoArgs (λ _, inspect AListConcurrencyLimits).

Definition newGroupConfigSetCommand (group : string) (maxSize : option Z) (maxDelay gracePeriod : option Duration)
    : command S :=
  mkCommand (exactQueueName "group set") (λ args,
    requiring "max-size" maxSize (λ maxSize,
    requiring "max-delay" maxDelay (λ maxDelay,
    requiring "grace" gracePeriod (λ gracePeriod,
    change (ASetGroupConfig (arg args 0) group (wrap32 maxSize) (Some maxDelay) (Some gracePeriod))
      ("queue " +:+ arg args 0 +:+ " group " +:+ QuoteString group +:+ " set to max-size " +:+ pretty maxSize +:+
       ", max-delay " +:+ FormatDuration maxDelay +:+ ", grace " +:+ FormatDuration gracePeriod))))).
Definition newGroupConfigRemoveCommand (group : string) : command S :=
  mkCommand (exactQueueName "group rm") (λ args,
    change (ADeleteGroupConfig (arg args 0) group)
      ("queue " +:+ arg args 0 +:+ " group " +:+ QuoteString group +:+ " override cleared")).
Definition newGroupConfigListCommand : command S := mkCommand NoArgs (λ _, inspect AListGroupConfigs).

(** *** Cron entries *)

Definition newCronAddCommand (queue payload : string) (priority maxRetry : Z) : command S :=
  mkCommand (exactly 3 "cron add: usage: conveyor cron add <id> <spec> <type>") (λ args,
    let options := emptyTaskOptions <| opt_MaxRetry := wrap32 maxRetry |> <| opt_Priority := wrap32 priority |> in
    let entry :=
      if decide (payload ≠ "") then
        mkCronInfo (arg args 0) (arg args 1) (arg args 2) queue (bytesOf payload) jsonContentType (Some options)
          false None
      else mkCronInfo (arg args 0) (arg args 1) (arg args 2) queue [] "" (Some options) false None in
    change (AUpsertCron entry) ("cron entry " +:+ arg args 0 +:+ " saved")).

Definition runCronList : action S := inspect AListCron.

Definition cronListCommand : command S := mkCommand NoArgs (λ _, runCronList).
Definition cronPauseCommand : command S :=
  mkCommand (exactCronID "cron pause") (λ args,
    change (APauseCron (arg args 0)) ("cron entry " +:+ arg args 0 +:+ " paused")).
Definition cronResumeCommand : command S :=
  mkCommand (exactCronID "cron resume") (λ args,
    change (AResumeCron (arg args 0)) ("cron entry " +:+ arg args 0 +:+ " resumed")).
Definition cronDeleteCommand : command S :=
  mkCommand (exactCronID "cron delete") (λ args,
    change (ADeleteCron (arg args 0)) ("cron entry " +:+ arg args 0 +:+ " deleted")).

(** *** Webhook registrations *)

Definition newWebhooksAddCommand (queues secrets batchTypes : list string) (concurrency : Z)
    (requestTimeout : Duration) (paused : bool) : command S :=
  mkCommand (exactly 2 "webhooks add: usage: conveyor webhooks add <name> <url>") (λ args s,
    match parseQueueWeights queues with
    | inl err => exit err s
    | inr parsedQueues =>
        change (AUpsertWebhookWorker (Some (mkWebhookWorkerInfo (arg args 0) (arg args 1) parsedQueues
                  (wrap32 concurrency) secrets batchTypes (SdkClient.positive requestTimeout) paused)))
          ("webhook worker " +:+ arg args 0 +:+ " saved") s
    end).

Definition runWebhooksList : action S := inspect AListWebhookWorkers.

Definition webhooksListCommand : command S := mkCommand NoArgs (λ _, runWebhooksList).
Definition webhooksPauseCommand : command S :=
  mkCommand (exactWebhookName "webhooks pause") (λ args,
    change (APauseWebhookWorker (arg args 0)) ("webhook worker " +:+ arg args 0 +:+ " paused")).
Definition webhooksResumeCommand : command S :=
  mkCommand (exactWebhookName "webhooks resume") (λ args,
    change (AResumeWebhookWorker (arg args 0)) ("webhook worker " +:+ arg args 0 +:+ " resumed")).
Definition webhooksDeleteCommand : command S :=
  mkCommand (exactWebhookName "webhooks delete") (λ args,
    change (ADeleteWebhookWorker (arg args 0)) ("webhook worker " +:+ arg args 0 +:+ " deleted")).

(** *** Cluster, broker and events *)

Definition clusterInfoCommand : command S :=
  mkCommand NoArgs (λ _ s,
    match rm_ClusterInfo rm (authorization getenv conn) s with
    | (s, inl code) => (s, ([], Some (ECall code)))
    | (s, inr nodes) =>
        (s, (if jsonOutput conn then [JSONNodes nodes]
             else [Table (row ["ADDRESS"; "STARTED_AT"] ::
                          ((λ n, row [ni_Address n; stamp (ni_StartedAt n)]) <$> nodes))], None))
    end).
Definition clusterSessionsCommand : command S := mkCommand NoArgs (λ _, inspect AListWorkerSessions).
Definition brokerInfoCommand : command S := mkCommand NoArgs (λ _, inspect ABrokerInfo).

(** Every event is flushed as it arrives. *)
Definition newEventsCommand (queues typeNames : list string) : command S :=
  mkCommand NoArgs (λ _ s,
    match parseEventTypes typeNames with
    | inl err => exit err s
    | inr eventTypes =>
        match rm_WatchEvents rm (authorization getenv conn) queues eventTypes s with
        | (s, inl code) => (s, ([], Some (ECall code)))
        | (s, inr (events, ended)) =>
            (s, (Table [row ["TIME"; "EVENT"; "QUEUE"; "TYPE"; "ID"; "STATE"; "ATTEMPT"; "LAST_ERROR"]]
                 :: ((λ event, Table [eventRow event]) <$> events), ECall <$> ended))
        end
    end).

(** *** The command tree *)

(** An invocation as the library parses it: the command with its flags. *)
Inductive invocation :=
  | IRoot
  | IGroup (group : commandGroup)
  | IEnqueue (entropy : list byte) (flags : enqueueFlags)
  | IEnqueueTx (entropies : nat → list byte) (file : option string) (encryptionKey : string)
  | ITasksGet
  | ITasksList (queue state : string) (limit : Z) (pageToken : string)
  | ITasksRun | ITasksCancel | ITasksDelete | ITasksArchive
  | ITasksReschedule (in_ : Duration) (at_ : string)
  | IStats
  | IQueuesPause | IQueuesResume
  | IRateLimitSet (rate : option spec_float) (burst : Z) | IRateLimitRemove | IRateLimitList
  | IConcurrencySet (maxActive : option Z) | IConcurrencyRemove | IConcurrencyList
  | IGroupSet (group : string) (maxSize : option Z) (maxDelay gracePeriod : option Duration)
  | IGroupRemove (group : string) | IGroupList
  | ICronAdd (queue payload : string) (priority maxRetry : Z)
  | ICronList | ICronPause | ICronResume | ICronDelete
  | IWebhooksAdd (queues secrets batchTypes : list string) (concurrency : Z) (requestTimeout : Duration) (paused : bool)
  | IWebhooksList | IWebhooksPause | IWebhooksResume | IWebhooksDelete
  | IClusterInfo | IClusterSessions | IBrokerInfo
  | IEvents (queues typeNames : list string).

Definition commandOf (inv : invocation) : command S :=
  match inv with
  | IRoot => mkCommand NoArgs (λ _ s, (s, ([Usage], Some (EText "a command is required"))))
  | IGroup GTasks => newTasksCommand
  | IGroup GQueues => newQueuesCommand
  | IGroup GRateLimit => newRateLimitCommand
  | IGroup GConcurrency => newConcurrencyLimitCommand
  | IGroup GGroup => newGroupConfigCommand
  | IGroup GCron => newCronCommand
  | IGroup GWebhooks => newWebhooksCommand
  | IGroup GCluster => newClusterCommand
  | IGroup GBroker => newBrokerCommand
  | IEnqueue entropy flags => newEnqueueCommand entropy flags
  | IEnqueueTx entropies file key => newEnqueueTxCommand entropies file key
  | ITasksGet => newTasksGetCommand
  | ITasksList queue state limit page => newTasksListCommand queue state limit page
  | ITasksRun => newTasksRunCommand
  | ITasksCancel => newTasksCancelCommand
  | ITasksDelete => newTasksDeleteCommand
  | ITasksArchive => newTasksArchiveCommand
  | ITasksReschedule in_ at_ => newTasksRescheduleCommand in_ at_
  | IStats => newStatsCommand
  | IQueuesPause => queuesPauseCommand
  | IQueuesResume => queuesResumeCommand
  | IRateLimitSet rate burst => newRateLimitSetCommand rate burst
  | IRateLimitRemove => newRateLimitRemoveCommand
  | IRateLimitList => newRateLimitListCommand
  | IConcurrencySet max => newConcurrencyLimitSetCommand max
  | IConcurrencyRemove => newConcurrencyLimitRemoveCommand
  | IConcurrencyList => newConcurrencyLimitListCommand
  | IGroupSet group size delay grace => newGroupConfigSetCommand group size delay grace
  | IGroupRemove group => newGroupConfigRemoveCommand group
  | IGroupList => newGroupConfigListCommand
  | ICronAdd queue payload priority maxRetry => newCronAddCommand queue payload priority maxRetry
  | ICronList => cronListCommand
  | ICronPause => cronPauseCommand
  | ICronResume => cronResumeCommand
  | ICronDelete => cronDeleteCommand
  | IWebhooksAdd queues secrets types concurrency timeout paused =>
      newWebhooksAddCommand queues secrets types concurrency timeout paused
  | IWebhooksList => webhooksListCommand
  | IWebhooksPause => webhooksPauseCommand
  | IWebhooksResume => webhooksResumeCommand
  | IWebhooksDelete => webhooksDeleteCommand
  | IClusterInfo => clusterInfoCommand
  | IClusterSessions => clusterSessionsCommand
  | IBrokerInfo => brokerInfoCommand
  | IEvents queues types => newEventsCommand queues types
  end.

(** [newRootCommand] executed: the arguments are checked, then the output format,
    then the command runs. *)
Definition execute (inv : invocation) (args : list string) : action S := λ s,
  match cmd_Args (commandOf inv) args with
  | Some err => exit err s
  | None =>
      if decide (cn_output conn = outputTable ∨ cn_output conn = outputJSON)
      then cmd_RunE (commandOf inv) args s
      else exit (EText "invalid --output") s
  end.
End Commands.
