(* ===== verification/CliProps.v ===== *)
(** * What the command line client promises

    Over the API server of the other files: a command sends the one call its name,
    flags and arguments stand for, exits without error exactly when the server
    accepted it, every id of a batch included, and without the admin scope changes
    nothing. What a set command prints is
    what the next listing shows. The names the client prints parse back. *)

From S2P Require Import Prelude Proto Events BrokerApi Memory Encoding Encryption BrokerCalls Messages Engine Backoff TaskLog Gateway WebhookGuard Api Session AdminApi Access AccessProps TasksApi SdkWorker SdkClient SdkClientProps Cli.
From stdpp Require Import pretty.
From Stdlib Require Import Floats.SpecFloat Strings.Byte.

#[local] Open Scope Z_scope.
#[local] Open Scope eff_scope.

(** ** The server *)

Section Server.
Context {MR : MapRange} {NP : NetParsers} {UP : UrlParser} {B : Type} (taskLog : broker B) (w : adminWorld).

(** The handler with its response. *)
Definition adminReplying (c : adminCall) : eff B Code adminReply :=
  match c with
  | AListQueues => x <- ListQueues taskLog w ;; returns (Queues x)
  | AListRateLimits => x <- ListRateLimits taskLog w ;; returns (RateLimits x)
  | AListConcurrencyLimits => x <- ListConcurrencyLimits taskLog w ;; returns (ConcurrencyLimits x)
  | AListGroupConfigs => x <- ListGroupConfigs taskLog w ;; returns (GroupConfigList_ x)
  | AListTasks query => x <- ListTasks taskLog w query ;; returns (TaskPage x)
  | ABatchDeleteTasks ids => x <- BatchDeleteTasks taskLog w ids ;; returns (BatchResults x)
  | ABatchRunTasks ids => x <- BatchRunTasks taskLog w ids ;; returns (BatchResults x)
  | ABatchCancelTasks ids => x <- BatchCancelTasks taskLog w ids ;; returns (BatchResults x)
  | ABatchArchiveTasks ids => x <- BatchArchiveTasks taskLog w ids ;; returns (BatchResults x)
  | AListCron => x <- ListCron taskLog w ;; returns (CronList x)
  | AListWebhookWorkers => x <- ListWebhookWorkers taskLog w ;; returns (WebhookList x)
  | AListWorkerSessions => x <- ListWorkerSessions w ;; returns (SessionList x)
  | ABrokerInfo => x <- admin_BrokerInfo taskLog w ;; returns (BrokerStatus x)
  | c => adminHandler taskLog w c ;;; returns Done
  end.

(** The code with which the interceptors refuse a call, if they do. *)
Definition refusal (config : APIConfig) (header procedure : string) : option Code :=
  match (if api_AuthDisabled config then None else authorize (scopedTokens config) header procedure) with
  | Some code => Some code
  | None =>
      if api_ReadOnly config && bool_decide (procedure ∈ mutatingProcedures) then Some CodePermissionDenied
      else None
  end.

Definition serveReplying (config : APIConfig) (header : string) (c : adminCall) : eff B Code adminReply :=
  match refusal config header (adminProcedure c) with
  | Some code => fails code
  | None => adminReplying c
  end.

(** A computation without its value. *)
Definition forget {E X} (m : eff B E X) : eff B E unit := λ b,
  let '(b, out, r) := m b in (b, out, match r with inl err => inl err | inr _ => inr () end).

Lemma forget_then {E X Y} (m : eff B E X) (f : X → Y) b :
  forget (x <- m ;; returns (f x)) b = (m ;;; returns ()) b.
Proof. unfold forget, andThen, returns. by destruct (m b) as [[? ?] [?|?]]. Qed.

Lemma forget_done {E X} (m : eff B E unit) (x : X) b : forget (m ;;; returns x) b = m b.
Proof.
  unfold forget, andThen, returns. destruct (m b) as [[? ?] [?|[]]]; [done|]. by rewrite app_nil_r.
Qed.

Lemma adminReplying_handler c b : forget (adminReplying c) b = adminHandler taskLog w c b.
Proof. destruct c; cbn [adminReplying adminHandler]; first [apply forget_then|apply forget_done]. Qed.

(** The mounted service is the one whose access [AccessProps] is about. *)
Lemma serveReplying_mounted config header c b :
  forget (serveReplying config header c) b = serveAdmin taskLog w config header c b.
Proof.
  unfold serveReplying, serveAdmin, refusal, authUnary, readOnlyUnary.
  destruct (api_AuthDisabled config), (authorize (scopedTokens config) header (adminProcedure c)); try done;
    (destruct (api_ReadOnly config); cbn [andb]; [|apply adminReplying_handler]);
    (case_bool_decide; [rewrite decide_True by done|rewrite decide_False by done]); try done;
    apply adminReplying_handler.
Qed.
End Server.

(** ** Exit codes *)

(** The invocations that are one call to the admin service. *)
Definition adminInvocation (inv : invocation) : bool :=
  match inv with
  | IRoot | IGroup _ | IEnqueue _ _ | IEnqueueTx _ _ _ | ITasksGet | IClusterInfo | IEvents _ _ => false
  | _ => true
  end.

(** What the commands stand for, as a table: the call an operator asks for by a
    command, its flags and its arguments, if they ask for one. *)
Section Asked.
Context {FM : Formats}.

Definition noArgument (args : list string) (c : adminCall) : option adminCall :=
  match args with [] => Some c | _ => None end.
Definition oneArgument (args : list string) (c : string → option adminCall) : option adminCall :=
  match args with [x] => c x | _ => None end.

(** One id is a call of its own when the output is a table, a batch of one when it
    is JSON; more are a batch. *)
Definition forTasks (json : bool) (args : list string) (single : string → adminCall)
    (batch : list string → adminCall) : option adminCall :=
  match args with
  | [] => None
  | [id] => Some (if json then batch [id] else single id)
  | ids => Some (batch ids)
  end.

Definition asked (json : bool) (inv : invocation) (args : list string) : option adminCall :=
  match inv with
  | ITasksList queue state limit page =>
      match parseTaskState state with
      | inr state => noArgument args (AListTasks (mkTaskQuery queue state limit page))
      | inl _ => None
      end
  | ITasksRun => forTasks json args ARunTask ABatchRunTasks
  | ITasksCancel => forTasks json args ACancelTask ABatchCancelTasks
  | ITasksDelete => forTasks json args ADeleteTask ABatchDeleteTasks
  | ITasksArchive => forTasks json args AArchiveTask ABatchArchiveTasks
  | ITasksReschedule in_ at_ => oneArgument args (λ id,
      if 0 <? in_ then if decide (at_ = "") then Some (ARescheduleTask id None (Some in_)) else None
      else if decide (at_ = "") then None
      else (λ t, ARescheduleTask id (timestamppb_New t) None) <$> ParseRFC3339 at_)
  | IStats => noArgument args AListQueues
  | IQueuesPause => oneArgument args (λ queue, Some (APauseQueue queue))
  | IQueuesResume => oneArgument args (λ queue, Some (AResumeQueue queue))
  | IRateLimitSet rate burst => oneArgument args (λ queue,
      (λ rate, ASetQueueRateLimit queue rate (wrap32 burst)) <$> rate)
  | IRateLimitRemove => oneArgument args (λ queue, Some (ADeleteQueueRateLimit queue))
  | IRateLimitList => noArgument args AListRateLimits
  | IConcurrencySet limit => oneArgument args (λ queue,
      (λ limit, ASetQueueConcurrencyLimit queue (wrap32 limit)) <$> limit)
  | IConcurrencyRemove => oneArgument args (λ queue, Some (ADeleteQueueConcurrencyLimit queue))
  | IConcurrencyList => noArgument args AListConcurrencyLimits
  | IGroupSet group maxSize maxDelay grace => oneArgument args (λ queue,
      maxSize ← maxSize; maxDelay ← maxDelay; grace ← grace;
      Some (ASetGroupConfig queue group (wrap32 maxSize) (Some maxDelay) (Some grace)))
  | IGroupRemove group => oneArgument args (λ queue, Some (ADeleteGroupConfig queue group))
  | IGroupList => noArgument args AListGroupConfigs
  | ICronAdd queue payload priority maxRetry =>
      match args with
      | [id; spec; taskType] =>
          Some (AUpsertCron (mkCronInfo id spec taskType queue
            (if decide (payload = "") then [] else bytesOf payload)
            (if decide (payload = "") then "" else jsonContentType)
            (Some (emptyTaskOptions <| opt_MaxRetry := wrap32 maxRetry |> <| opt_Priority := wrap32 priority |>))
            false None))
      | _ => None
      end
  | ICronList => noArgument args AListCron
  | ICronPause => oneArgument args (λ id, Some (APauseCron id))
  | ICronResume => oneArgument args (λ id, Some (AResumeCron id))
  | ICronDelete => oneArgument args (λ id, Some (ADeleteCron id))
  | IWebhooksAdd queues secrets types concurrency timeout paused =>
      match args, parseQueueWeights queues with
      | [name; url], inr weights =>
          Some (AUpsertWebhookWorker (Some (mkWebhookWorkerInfo name url weights (wrap32 concurrency)
            secrets types (SdkClient.positive timeout) paused)))
      | _, _ => None
      end
  | IWebhooksList => noArgument args AListWebhookWorkers
  | IWebhooksPause => oneArgument args (λ name, Some (APauseWebhookWorker name))
  | IWebhooksResume => oneArgument args (λ name, Some (AResumeWebhookWorker name))
  | IWebhooksDelete => oneArgument args (λ name, Some (ADeleteWebhookWorker name))
  | IClusterSessions => noArgument args AListWorkerSessions
  | IBrokerInfo => noArgument args ABrokerInfo
  | _ => None
  end.
End Asked.

(** An output format the client has. *)
Definition knownOutput (conn : connection) : Prop :=
  cn_output conn = outputTable ∨ cn_output conn = outputJSON.

(** The ids of a batch call. *)
Definition batchIDs (c : adminCall) : option (list string) :=
  match c with
  | ABatchDeleteTasks ids | ABatchRunTasks ids | ABatchCancelTasks ids | ABatchArchiveTasks ids => Some ids
  | _ => None
  end.

Definition resultsOf (reply : adminReply) : list TaskActionResult :=
  match reply with BatchResults results => results | _ => [] end.

(** A reply that says the call was done: for a batch, an answer per id and none
    failed. *)
Definition performed (c : adminCall) (reply : adminReply) : Prop :=
  match batchIDs c with
  | Some ids => length (resultsOf reply) = length ids ∧ Forall (λ r, tar_Failed r = false) (resultsOf reply)
  | None => True
  end.

Section Exit.
Context {FM : Formats} {MR : MapRange} {G : Encryptor AESGCM} {S : Type}.
Context (rm : remote S) (getenv : string → string) (readFile : string → option (list byte)) (conn : connection).

Lemma renderBatchResults_exit json name ids results :
  (renderBatchResults json name ids results).2 = None ↔
  length results = length ids ∧ Forall (λ r, tar_Failed r = false) results.
Proof.
  unfold renderBatchResults. cbn [snd]. rewrite Forall_forall.
  case_decide as Hlen; [naive_solver|].
  case_decide as Hf.
  - split; [|done]. intros _. split; [lia|]. intros r Hr.
    destruct (tar_Failed r) eqn:Hfr; [|done]. exfalso.
    assert (Hin : r ∈ filter (λ r, tar_Failed r = true) results) by (by apply list_elem_of_filter).
    rewrite Hf in Hin. by apply elem_of_nil in Hin.
  - split; [done|]. intros [_ Hok]. exfalso. apply Hf. apply elem_of_nil_inv.
    intros r [Hfr Hr]%list_elem_of_filter. rewrite (Hok r Hr) in Hfr. done.
Qed.

(** What a command does, in general: asked for nothing it exits before sending
    anything; asked for a call it sends that one and exits without error exactly
    when it was performed. *)
Definition asksFor (ask : option adminCall) (m : action S) (s : S) : Prop :=
  match ask with
  | None => ∃ out err, m s = (s, (out, Some err))
  | Some c => ∃ k, m s = admin rm getenv conn c k s ∧ ∀ reply, (k reply).2 = None ↔ performed c reply
  end.

Lemma asks_exit err s : asksFor None (exit err) s.
Proof. by eexists _, _. Qed.

Lemma asks_change c text s : batchIDs c = None → asksFor (Some c) (change rm getenv conn c text) s.
Proof. intros Hc. exists (λ _, print text). unfold performed. by rewrite Hc. Qed.

Lemma asks_inspect c s : batchIDs c = None → asksFor (Some c) (inspect rm getenv conn c) s.
Proof. intros Hc. eexists _. split; [done|]. unfold performed. by rewrite Hc. Qed.

(** The check of the arguments before the command. *)
Definition guarded (check : list string → option cliError) (run : list string → action S)
    (args : list string) : action S :=
  λ s, match check args with Some err => exit err s | None => run args s end.

Lemma asks_none run c args s :
  asksFor (Some c) (run []) s → asksFor (noArgument args c) (guarded NoArgs run args) s.
Proof. intros H. destruct args as [|x args]; [exact H|]. apply asks_exit. Qed.

Lemma asks_one message run f args s :
  (∀ x, asksFor (f x) (run [x]) s) → asksFor (oneArgument args f) (guarded (exactly 1 message) run args) s.
Proof. intros H. destruct args as [|x [|y args]]; [apply asks_exit|apply H|apply asks_exit]. Qed.

Lemma asks_operation name single batch args s :
  (∀ id, batchIDs (single id) = None) → (∀ ids, batchIDs (batch ids) = Some ids) →
  let cmd := newTaskOperationCommand rm getenv conn name single batch in
  asksFor (forTasks (jsonOutput conn) args single batch) (guarded (cmd_Args cmd) (cmd_RunE cmd) args) s.
Proof.
  intros Hs Hb. cbv zeta. unfold guarded. cbn [newTaskOperationCommand cmd_Args cmd_RunE].
  assert (Hbatch : ∀ ids, asksFor (Some (batch ids)) (admin rm getenv conn (batch ids) (λ reply,
    renderBatchResults (jsonOutput conn) name ids
      match reply with BatchResults results => results | _ => [] end)) s).
  { intros ids. eexists. split; [done|]. intros reply. rewrite renderBatchResults_exit.
    unfold performed, resultsOf. by rewrite Hb. }
  destruct args as [|x [|y args]]; [apply asks_exit| |].
  - rewrite decide_False by (cbn; lia). cbn [forTasks length]. rewrite bool_decide_true by done.
    destruct (jsonOutput conn); [apply Hbatch|by apply asks_change].
  - rewrite decide_False by (cbn; lia). cbn [forTasks]. rewrite bool_decide_false by done. apply Hbatch.
Qed.

Lemma asks_requiring {A} flag (value : option A) (f : A → option adminCall) k s :
  (∀ x, asksFor (f x) (k x) s) → asksFor (value ≫= f) (requiring flag value k) s.
Proof. intros Hk. destruct value; [apply Hk|apply asks_exit]. Qed.

Lemma guarded_asks inv args s :
  adminInvocation inv = true →
  let cmd := commandOf rm getenv readFile conn inv in
  asksFor (asked (jsonOutput conn) inv args) (guarded (cmd_Args cmd) (cmd_RunE cmd) args) s.
Proof.
  destruct inv; intros Hinv; try discriminate Hinv; clear Hinv; cbv zeta; cbn [commandOf asked];
    try (by apply asks_operation);
    try (apply asks_none; by apply asks_inspect);
    try (apply asks_one; intros x; by apply asks_change).
  - unfold newTasksListCommand. cbn [cmd_Args cmd_RunE].
    destruct (parseTaskState state) as [err|taskState] eqn:Hp.
    + unfold guarded. destruct (NoArgs args); apply asks_exit.
    + apply asks_none. by apply asks_inspect.
  - apply asks_one. intros id. cbn [newTasksRescheduleCommand cmd_RunE arg nth].
    unfold rescheduleRequest.
    destruct (0 <? in_); cbn [andb].
    + case_decide; [rewrite bool_decide_true by done|rewrite bool_decide_false by done];
        [by apply asks_change|apply asks_exit].
    + case_decide as Ha; [rewrite decide_False by auto; apply asks_exit|].
      rewrite decide_True by done. destruct (ParseRFC3339 at_); [by apply asks_change|apply asks_exit].
  - apply asks_one. intros x. apply (asks_requiring "rate" rate (λ r, Some _)). intros r. by apply asks_change.
  - apply asks_one. intros x. apply (asks_requiring "max" maxActive (λ r, Some _)). intros r. by apply asks_change.
  - apply asks_one. intros x. do 3 (apply asks_requiring; intros). by apply asks_change.
  - unfold guarded. destruct args as [|id [|spec [|ty [|y args]]]]; try apply asks_exit.
    cbn -[asksFor change]. case_decide as H1; case_decide as H2; try done; by apply asks_change.
  - unfold guarded. destruct args as [|name [|url [|y args]]]; try apply asks_exit.
    cbn -[asksFor change parseQueueWeights]. destruct (parseQueueWeights queues); [apply asks_exit|by apply asks_change].
Qed.

Lemma execute_asks inv args s :
  adminInvocation inv = true →
  (knownOutput conn ∧ asksFor (asked (jsonOutput conn) inv args) (execute rm getenv readFile conn inv args) s) ∨
  (¬ knownOutput conn ∧ asksFor None (execute rm getenv readFile conn inv args) s).
Proof.
  intros Hinv. pose proof (guarded_asks inv args s Hinv) as H. unfold guarded in H. cbv zeta in H.
  unfold execute, knownOutput.
  destruct (decide (cn_output conn = outputTable ∨ cn_output conn = outputJSON)) as [Ho|Ho]; [by left|].
  right. split; [done|]. unfold asksFor. destruct (cmd_Args _ args); apply asks_exit.
Qed.
End Exit.

(** ** Against the API server *)

Section Api.
Context {FM : Formats} {MR : MapRange} {NP : NetParsers} {UP : UrlParser} {G : Encryptor AESGCM}.
Context (w : adminWorld) (config : APIConfig) (getenv : string → string) (readFile : string → option (list byte)).

(** The server as a client sees it: the store, and what was handed to the actor
    system so far. *)
Notation served := (Broker * list apiEffect)%type.

Definition apiServer (cluster : string → served → served * (Code + list NodeInfo))
    (watch : string → list string → list TaskEventType → served → served * (Code + (list TaskEvent * option Code)))
    (tasks : string → wireClient served) : remote served :=
  mkRemote (λ header c '(b, sent),
    let '(b, out, r) := serveReplying memory w config header c b in ((b, sent ++ out), r))
    cluster watch tasks.

Lemma serve_untouched header c b b' out r :
  serveReplying memory w config header c b = (b', out, r) →
  (b', out) ≠ (b, []) →
  api_ReadOnly config = false ∧ (api_AuthDisabled config = true ∨ admin_header config header) ∧
  adminHandler memory w c b = (b', out, match r with inl err => inl err | inr _ => inr () end).
Proof.
  unfold serveReplying, refusal. intros H Hne.
  destruct (api_AuthDisabled config) eqn:Ha;
    [|destruct (authorize (scopedTokens config) header (adminProcedure c)) as [code|] eqn:Hz;
      [injection H as <- <- <-; done|apply authorize_admin in Hz]].
  all: destruct (api_ReadOnly config); cbn [andb] in H; [case_bool_decide as Hm; [injection H as <- <- <-; done|]|].
  all: pose proof (adminReplying_handler memory w c b) as Hh; unfold forget in Hh; rewrite H in Hh.
  all: try (destruct (unlisted_reads w c Hm b) as [r' Hr]; rewrite Hr in Hh; injection Hh as -> -> _; done).
  all: split_and!; [done|by auto|by rewrite <- Hh].
Qed.

(** A batch answers for its ids in their order. *)
Lemma batchLoop_ids (perform : string → eff Broker callError unit) ids b b' out rs :
  batchLoop perform ids b = (b', out, inr rs) → tar_Id <$> rs = ids.
Proof.
  revert b b' out rs. induction ids as [|id ids IH]; intros b b' out rs; cbn [batchLoop]; [by intros [= <- <- <-]|].
  destruct (decide (id = "")); [|destruct (perform id b) as [[b1 out1] r1]];
    (destruct (batchLoop perform ids _) as [[b2 out2] [err|rs']] eqn:Hl; [done|]);
    intros [= <- <- <-]; cbn; f_equal; by eapply IH.
Qed.

Lemma batchTasks_ids ids (perform : string → eff Broker callError unit) b b' out rs :
  batchTasks ids perform b = (b', out, inr rs) → tar_Id <$> rs = ids.
Proof. unfold batchTasks. repeat (case_match; [done|]). apply batchLoop_ids. Qed.

Lemma reply_ids c ids b b' out reply :
  batchIDs c = Some ids → adminReplying memory w c b = (b', out, inr reply) →
  tar_Id <$> resultsOf reply = ids.
Proof.
  intros Hc. destruct c; try discriminate Hc; injection Hc as ->; cbn [adminReplying]; unfold andThen, returns.
  all: unfold BatchDeleteTasks, BatchRunTasks, BatchCancelTasks, BatchArchiveTasks.
  all: destruct (batchTasks _ _ b) as [[b1 out1] [err|rs]] eqn:Hb; [done|]; intros [= <- <- <-]; cbn.
  all: by eapply batchTasks_ids.
Qed.

Context (cluster : string → served → served * (Code + list NodeInfo)).
Context (watch : string → list string → list TaskEventType → served → served * (Code + (list TaskEvent * option Code))).
Context (tasks : string → wireClient served).

(** C37: the exit code of an admin command is honest, and the command is held to the
    scope of its token. A command whose flags, arguments and output format ask for a
    call sends exactly that call, whose effect is all it changes: it exits with the
    server's code when the call is refused, and otherwise exits without error exactly
    when the call was done, for a batch when every id was answered and none failed.
    A command that asks for no call exits with an error and sends nothing. A command
    that changed the store or reached the actor system did so on a writable server
    and, with authentication on, under a token with the admin scope, from the flag or
    else from the environment. *)
Theorem cli_exit_honest conn inv args b sent b' sent' out err :
  adminInvocation inv = true →
  execute (apiServer cluster watch tasks) getenv readFile conn inv args (b, sent) = ((b', sent'), (out, err)) →
  ((∃ c effs r,
      knownOutput conn ∧ asked (jsonOutput conn) inv args = Some c ∧
      serveReplying memory w config (authorization getenv conn) c b = (b', effs, r) ∧ sent' = sent ++ effs ∧
      match r with
      | inl code => err = Some (ECall code)
      | inr reply => err = None ↔ ∀ ids, batchIDs c = Some ids →
          tar_Id <$> resultsOf reply = ids ∧ Forall (λ r, tar_Failed r = false) (resultsOf reply)
      end) ∨
   (¬ knownOutput conn ∨ asked (jsonOutput conn) inv args = None) ∧
   b' = b ∧ sent' = sent ∧ err ≠ None) ∧
  ((b', sent') ≠ (b, sent) →
     api_ReadOnly config = false ∧
     (api_AuthDisabled config = true ∨ admin_header config (authorization getenv conn))).
Proof.
  intros Hinv Hex.
  assert (Hnone : asksFor (apiServer cluster watch tasks) getenv conn None
      (execute (apiServer cluster watch tasks) getenv readFile conn inv args) (b, sent) →
    b' = b ∧ sent' = sent ∧ err ≠ None).
  { intros (out' & err' & Hx). rewrite Hx in Hex. by simplify_eq. }
  destruct (execute_asks (apiServer cluster watch tasks) getenv readFile conn inv args (b, sent) Hinv)
    as [[Ho Hask]|[Ho Hask]].
  2:{ destruct (Hnone Hask) as (-> & -> & Herr). split; [right; auto|done]. }
  destruct (asked (jsonOutput conn) inv args) as [c|].
  2:{ destruct (Hnone Hask) as (-> & -> & Herr). split; [right; auto|done]. }
  destruct Hask as (k & Hx & Hk). rewrite Hx in Hex.
  unfold admin in Hex. cbn [rm_admin apiServer] in Hex.
  destruct (serveReplying memory w config (authorization getenv conn) c b) as [[b1 effs] r] eqn:Hserve.
  pose proof (serve_untouched _ _ _ _ _ _ Hserve) as Hacc.
  assert (Hb : b' = b1 ∧ sent' = sent ++ effs) by (by destruct r; simplify_eq). destruct Hb as [-> ->]. split.
  - left. exists c, effs, r. split_and!; [done..|]. destruct r as [code|reply]; [by simplify_eq|].
    injection Hex as Hk'. assert (err = (k reply).2) as -> by (by rewrite Hk').
    rewrite Hk. unfold performed. destruct (batchIDs c) as [ids|] eqn:Hids; [|by split].
    assert (Hr : tar_Id <$> resultsOf reply = ids).
    { unfold serveReplying in Hserve. destruct (refusal _ _ _); [done|]. by eapply reply_ids. }
    split; [intros [_ Hf] ids' [= <-]; by split|]. intros Hall. destruct (Hall ids eq_refl) as [_ Hf].
    split; [|done]. by rewrite <- Hr, length_fmap.
  - intros Hne. destruct Hacc as (Hro & Hauth & Hh); [|done].
    intros [= -> ->]. apply Hne. by rewrite app_nil_r.
Qed.
End Api.

(** ** Names *)

(** Every state and every event the client prints is one its flags accept, in any
    case of the letters; the unspecified ones are not. *)
Lemma stateName_parses state :
  state ≠ TASK_STATE_UNSPECIFIED → parseTaskState (stateName state) = inr state.
Proof. by destruct state. Qed.

Lemma eventTypeName_parses t :
  t ≠ TASK_EVENT_TYPE_UNSPECIFIED → parseEventTypes [eventTypeName t] = inr [t].
Proof. by destruct t. Qed.

(** ** The flags of an enqueue *)

Section Flags.
Context {FM : Formats}.

(** What an optional flag does to the settings. *)
Definition chosen {A} (set : bool) (value : cliError + A) (add : A → EnqueueOption) : EnqueueOption := λ o,
  if set then match value with inr x => add x o | inl _ => o end else o.

Lemma whenSet_settings {A} set (value : cliError + A) add options opts o :
  whenSet set value add options = inr opts →
  ∃ before, options = inr before ∧ (set = true → ∃ x, value = inr x) ∧
    foldl (λ settings opt, opt settings) o opts =
      chosen set value add (foldl (λ settings opt, opt settings) o before).
Proof.
  unfold whenSet, chosen. destruct options as [|before]; [done|]. intros H. exists before. split; [done|].
  destruct set; [|by simplify_eq]. destruct value as [|x]; [done|]. simplify_eq.
  split; [eauto|]. by rewrite foldl_app.
Qed.

Lemma chosen_other {A T} (proj : enqueueOptions → T) set (value : cliError + A) add o :
  (∀ x o, proj (add x o) = proj o) → proj (chosen set value add o) = proj o.
Proof. intros H. unfold chosen. destruct set, value; [done|apply H|done..]. Qed.

Lemma chosen_positive (proj : enqueueOptions → Z) d add o :
  (∀ x o, proj (add x o) = x) → proj o = 0 → proj (chosen (0 <? d) (inr d) add o) = Z.max 0 d.
Proof. intros H Ho. unfold chosen. destruct (Z.ltb_spec 0 d); [rewrite H|rewrite Ho]; lia. Qed.

Lemma chosen_text (proj : enqueueOptions → string) t add o :
  (∀ x o, proj (add x o) = x) → proj o = "" →
  proj (chosen (negb (bool_decide (t = ""))) (inr t) add o) = t.
Proof. intros H Ho. unfold chosen. case_bool_decide; cbn; [by rewrite Ho|apply H]. Qed.

Lemma chosen_time (proj : enqueueOptions → Time) message t add o :
  (∀ x o, proj (add x o) = x) → proj o = zeroTime →
  (negb (bool_decide (t = "")) = true → ∃ x, parsedTime message t = inr x) →
  t = "" ∧ proj (chosen (negb (bool_decide (t = ""))) (parsedTime message t) add o) = zeroTime ∨
  t ≠ "" ∧ ParseRFC3339 t = Some (proj (chosen (negb (bool_decide (t = ""))) (parsedTime message t) add o)).
Proof.
  intros H Ho Hset. unfold chosen. case_bool_decide; cbn in *; [by left|]. right. split; [done|].
  destruct (Hset eq_refl) as [x Hx]. rewrite Hx, H. unfold parsedTime in Hx.
  destruct (ParseRFC3339 t); by simplify_eq.
Qed.

(** The flags that leave a field of the settings alone. *)
Ltac skip_flags :=
  repeat match goal with
  | |- context [?proj (chosen ?set ?value ?add ?o)] => rewrite (chosen_other proj set value add o) by done
  end.

(** The settings the SDK reads from the options are the flags that were set. *)
Lemma enqueue_settings queue taskID processAt expiresAt uniqueKey processIn expiresIn retention unique maxRetry
    priority options :
  buildEnqueueOptions queue taskID processAt expiresAt uniqueKey processIn expiresIn retention unique maxRetry
    priority = inr options →
  let settings := foldl (λ settings opt, opt settings) noEnqueueOptions options in
  eo_queue settings = queue ∧ eo_taskID settings = taskID ∧ eo_uniqueKey settings = uniqueKey ∧
  eo_processIn settings = Z.max 0 processIn ∧ eo_expiresIn settings = Z.max 0 expiresIn ∧
  eo_retention settings = Z.max 0 retention ∧ eo_uniqueTTL settings = Z.max 0 unique ∧
  eo_maxRetry settings = Z.max 0 maxRetry ∧ eo_priority settings = Z.max 0 priority ∧
  (processAt = "" ∧ eo_processAt settings = zeroTime ∨
   processAt ≠ "" ∧ ParseRFC3339 processAt = Some (eo_processAt settings)) ∧
  (expiresAt = "" ∧ eo_expiresAt settings = zeroTime ∨
   expiresAt ≠ "" ∧ ParseRFC3339 expiresAt = Some (eo_expiresAt settings)).
Proof.
  unfold buildEnqueueOptions. intros H.
  repeat (apply (whenSet_settings _ _ _ _ _ noEnqueueOptions) in H as (? & H & ? & ->)).
  injection H as <-. cbn [foldl]. cbv zeta. split_and!.
  all: skip_flags.
  all: first [apply chosen_text|apply chosen_positive|apply chosen_time]; try done; by skip_flags.
Qed.
End Flags.

(** ** What is set is what is listed *)

Section SetThenList.
Context {FM : Formats} {MR : MapRange} {NP : NetParsers} {UP : UrlParser} {G : Encryptor AESGCM}.
Context (w : adminWorld) (config : APIConfig) (getenv : string → string) (readFile : string → option (list byte)).
Context (conn : connection) (Hconn : cn_output conn = outputTable).
Context (Hserved : ∀ c, refusal config (authorization getenv conn) (adminProcedure c) = None).
Context (queue : string) (Hqueue : queueNamePattern queue = true) (Htell : aw_tellOk w queue = true).

Lemma valid_name : validQueueName queue = inr queue.
Proof. unfold validQueueName. rewrite Hqueue. case_decide as H; [by rewrite H in Hqueue|done]. Qed.

Lemma set_served n b :
  1 <= n < 2 ^ 31 →
  serveReplying memory w config (authorization getenv conn) (ASetQueueConcurrencyLimit queue (wrap32 n)) b =
  (Memory.SetQueueConcurrencyLimit queue n (aw_now w) b, [TellQueue queue (MConcurrencyLimitChanged n)], inr Done).
Proof.
  intros Hn. unfold serveReplying. rewrite Hserved. cbn [adminReplying adminHandler].
  unfold AdminApi.SetQueueConcurrencyLimit. rewrite valid_name. rewrite wrap32_id by (unfold int32_range; lia).
  unfold andThen, lift, returns. cbn [app]. rewrite (proj2 (Z.ltb_ge n 1)) by lia.
  unfold persist, tellQueue, asking, andThen, coded, calling, returns. cbn. by rewrite Htell.
Qed.

Definition limitInfo (l : ConcurrencyLimit) : ConcurrencyLimitInfo :=
  mkConcurrencyLimitInfo (cl_Queue l) (wrap32 (cl_MaxActive l)).

Lemma list_served b :
  serveReplying memory w config (authorization getenv conn) AListConcurrencyLimits b =
  (b, [], inr (ConcurrencyLimits (limitInfo <$> QueueConcurrencyLimits b))).
Proof. unfold serveReplying. by rewrite Hserved. Qed.

Lemma limit_listed n b :
  1 <= n < 2 ^ 31 →
  mkConcurrencyLimitInfo queue n ∈
    limitInfo <$> QueueConcurrencyLimits (Memory.SetQueueConcurrencyLimit queue n (aw_now w) b).
Proof.
  intros Hn. apply list_elem_of_fmap. exists (mkConcurrencyLimit queue n (aw_now w)). split.
  { unfold limitInfo. cbn. by rewrite wrap32_id by (unfold int32_range; lia). }
  unfold QueueConcurrencyLimits. rewrite SortFunc_perm. apply list_elem_of_fmap.
  exists (queue, mkConcurrencyLimit queue n (aw_now w)). split; [done|].
  apply elem_of_range_map. cbn. apply lookup_insert_eq.
Qed.

(** A limit within 32 bits is stored as typed and listed as printed. *)
Lemma concurrency_set_then_ls n b sent cluster watch tasks :
  1 <= n < 2 ^ 31 →
  let run := execute (apiServer w config cluster watch tasks) getenv readFile conn in
  let '(s, (out, err)) := run (IConcurrencySet (Some n)) [queue] (b, sent) in
  err = None ∧
  out = [Line ("queue " +:+ queue +:+ " limited to " +:+ pretty n +:+ " active per concurrency key")] ∧
  ∃ header rows, run IConcurrencyList [] s = (s, ([Table (header :: rows)], None)) ∧
    row [queue; pretty n] ∈ rows.
Proof.
  intros Hn. cbv zeta. unfold execute. rewrite decide_True by auto. cbn [commandOf cmd_Args cmd_RunE
    newConcurrencyLimitSetCommand newConcurrencyLimitListCommand].
  change (exactQueueName "concurrency set" [queue]) with (@None cliError). change (NoArgs []) with (@None cliError).
  unfold requiring, Cli.change, inspect, admin. cbn [rm_admin apiServer arg nth].
  rewrite set_served by done. cbn [print]. split_and!; [done..|].
  rewrite list_served. unfold jsonOutput. rewrite Hconn, bool_decide_false by done. cbn [listing].
  eexists _, _. split; [by rewrite app_nil_r|].
  apply list_elem_of_fmap. exists (mkConcurrencyLimitInfo queue n). split; [done|by apply limit_listed].
Qed.
End SetThenList.

(** ** Runs *)

Definition plainFormats : Formats := {|
  ParseRFC3339 := λ _, None; FormatLocal := pretty; FormatUTC := pretty; ParseDuration := λ _, None;
  FormatDuration := pretty; FormatFloat := λ _, "1"; QuoteString := id; json_Valid := λ _, true;
  json_MarshalRaw := λ s, inr (bytesOf s); json_UnmarshalSpecs := λ _, None |}.

(** A run against a server whose only admin token is "s", with that token in the
    environment. *)
Definition runCli (output : string) (inv : invocation) (args : list string) (s : Broker * list apiEffect) :=
  execute (FM := plainFormats) (MR := elements_range) (G := AESGCM_Encryptor (G := toyGCM))
    (apiServer (MR := elements_range) (NP := noParsers) (UP := λ _, None) sample_admin (two_tokens false)
       (λ _ s, (s, inl CodeUnavailable)) (λ _ _ _ s, (s, inl CodeUnavailable))
       (λ _, mkWireClient (λ _ s, (s, inl CodeUnavailable)) (λ _ s, (s, inl CodeUnavailable))
               (λ _ s, (s, inl CodeUnavailable))))
    (λ name, if decide (name = envToken) then "s" else "") (λ _, None)
    (mkConnection "" "" output) inv args s.

Definition cliTask (id : string) : TaskEnvelope :=
  mkTaskEnvelope id "mail" "send" [] "" ∅ None 0 "" None None None 0 "".

Definition twoStored : Broker :=
  (Memory.Enqueue (MR := elements_range) (cliTask "b") 1
    (Memory.Enqueue (MR := elements_range) (cliTask "a") 1 New).1).1.

(** A batch with an id that does not exist exits with an error although the other
    task was archived; without it the exit is clean. *)
Lemma cli_exit_honest_witness :
  let s := (twoStored, []) in
  (runCli outputTable ITasksArchive ["a"; "c"] s).2.2 = Some (EText "tasks archive: 1 of 2 ids failed") ∧
  ∃ effs reply,
    let c := ABatchArchiveTasks ["a"; "b"] in
    serveReplying (MR := elements_range) (NP := noParsers) (UP := λ _, None) (memory (MR := elements_range)) sample_admin (two_tokens false)
      "Bearer s" c twoStored = ((runCli outputTable ITasksArchive ["a"; "b"] s).1.1, effs, inr reply) ∧
    ∀ ids, batchIDs c = Some ids →
      tar_Id <$> resultsOf reply = ids ∧ Forall (λ r, tar_Failed r = false) (resultsOf reply).
Proof.
  cbv zeta. split; [vm_compute; reflexivity|].
  assert (Herr : (runCli outputTable ITasksArchive ["a"; "b"] (twoStored, [])).2.2 = None) by (vm_compute; reflexivity).
  pose proof (cli_exit_honest (FM := plainFormats) (MR := elements_range) (NP := noParsers) (UP := λ _, None)
    (G := AESGCM_Encryptor (G := toyGCM)) sample_admin (two_tokens false)
    (λ name, if decide (name = envToken) then "s" else "") (λ _, None)
    (λ _ s, (s, inl CodeUnavailable)) (λ _ _ _ s, (s, inl CodeUnavailable))
    (λ _, mkWireClient (λ _ s, (s, inl CodeUnavailable)) (λ _ s, (s, inl CodeUnavailable))
            (λ _ s, (s, inl CodeUnavailable)))
    (mkConnection "" "" outputTable) ITasksArchive ["a"; "b"] twoStored []
    (runCli outputTable ITasksArchive ["a"; "b"] (twoStored, [])).1.1
    (runCli outputTable ITasksArchive ["a"; "b"] (twoStored, [])).1.2
    (runCli outputTable ITasksArchive ["a"; "b"] (twoStored, [])).2.1
    (runCli outputTable ITasksArchive ["a"; "b"] (twoStored, [])).2.2 eq_refl) as H.
  destruct H as [H _].
  { unfold runCli. by rewrite <- !surjective_pairing. }
  destruct H as [(c & effs & r & _ & Hc & Hserve & _ & Hr)|(_ & _ & _ & Hne)]; [|by rewrite Herr in Hne].
  injection Hc as <-. destruct r as [code|reply]; [by rewrite Herr in Hr|].
  exists effs, reply. split; [exact Hserve|]. by apply Hr.
Defined.

(** ** Behaviours the documentation does not promise *)

(** A running task is cancelled through its grain by a single id, but the batch call
    refuses it, and with it the same command under --output json: nothing reaches
    the actor system. docs/cli.md promises best effort for an executing task. *)
Definition oneActive : Broker :=
  (Memory.Lease (MR := elements_range) "mail" 10 60 "L" 2
    (Memory.Enqueue (MR := elements_range) (cliTask "a") 1 New).1).1.

Lemma json_cancel_refuses_running :
  (runCli outputTable ITasksCancel ["a"] (oneActive, [])).2.2 = None ∧
  (runCli outputTable ITasksCancel ["a"] (oneActive, [])).1.2 = [TellQueue "mail" (MCancelActive "a")] ∧
  (runCli outputJSON ITasksCancel ["a"] (oneActive, [])).2.2 = Some (EText "tasks cancel: 1 of 1 ids failed") ∧
  (runCli outputJSON ITasksCancel ["a"] (oneActive, [])).1.2 = [].
Proof. split_and!; vm_compute; reflexivity. Qed.

(** A limit of more than 32 bits is sent modulo 2^32 and printed in full. *)
Lemma concurrency_set_wraps :
  let '(s, (out, err)) := runCli outputTable (IConcurrencySet (Some 4294967301)) ["mail"] (New, []) in
  err = None ∧ out = [Line "queue mail limited to 4294967301 active per concurrency key"] ∧
  (runCli outputTable IConcurrencyList [] s).2.1 = [Table [row ["QUEUE"; "MAX/KEY"]; row ["mail"; "5"]]].
Proof. vm_compute. done. Qed.

(** A weight may be followed by anything, and is cut to 32 bits. *)
Lemma weight_suffix_ignored :
  parseQueueWeights ["billing=3x"; "mail=4294967297"] = inr {["billing" := 3; "mail" := 1]}.
Proof. vm_compute. reflexivity. Qed.
