(* ===== verification/Operations.v ===== *)
(** * Operating a node (server/api/worker_service.go, server/telemetry.go,
    server/api/admin_service.go, cmd/conveyord)

    What runs beside the engine: the drain of the worker sessions at shutdown, the
    event stream of a watcher, the metrics a scrape reads, the view of the cluster,
    and the server command with its health probe. The main theorem is what
    a drain that reports success leaves behind: nothing but the gateways whose
    stop failed. *)

From S2P Require Import Prelude Proto BrokerApi EventBus EventWebhook Memory BrokerCalls Messages Cron Api Session SessionProps Config SdkClient Cli.
From stdpp Require Import pretty.
From Stdlib Require Import Strings.Ascii.

#[local] Open Scope Z_scope.

(** ** Draining the worker sessions *)

(** The gateway of a session: not spawned; running; shut down; or still there
    after a stop that failed. [drained] is whether it answered the drain request,
    that is, whether its turn that releases every task in flight has run. *)
Inductive gatewayLife :=
  | GatewayNone
  | GatewayRunning
  | GatewayStopped (drained : bool)
  | GatewayStuck (drained : bool).

#[global] Instance gatewayLife_eq_dec : EqDecision gatewayLife.
Proof. solve_decision. Defined.

(** What [GatewayHandle.Stop] meets: whether the drain request is answered in
    time, and whether the shutdown succeeds. *)
Record stopAnswers := mkStopAnswers { sa_drained : bool; sa_shutdown : bool }.

(** [GatewayHandle.Stop]: the gateway after it, and whether it returns nil. A
    failed drain is logged and the shutdown proceeds. *)
Definition GatewayHandle_Stop (a : stopAnswers) : gatewayLife * bool :=
  if sa_shutdown a then (GatewayStopped (sa_drained a), true)
  else (GatewayStuck (sa_drained a), false).

(** A session handler between two of its effects: what it has yet to do, whether
    its loop has ended, and its gateway. *)
Record handler := mkHandler {
  hn_rest : list sessionEffect;
  hn_ended : bool;
  hn_gateway : gatewayLife }.

(** Where [DrainSessions] is: not called, before a look at the registry, in the
    [select] after it, or returned, with nil or the context's error. *)
Inductive drainPhase := DrainIdle | DrainLooking | DrainWaiting | DrainReturned (ok : bool).

#[global] Instance drainPhase_eq_dec : EqDecision drainPhase.
Proof. solve_decision. Defined.

Record node := mkNode {
  no_service : WorkerService;
  no_handlers : gmap string handler;
  no_drain : drainPhase;
  no_cancelled : list string }.

#[global] Instance node_eta : Eta node := λ n,
  mkNode (no_service n) (no_handlers n) (no_drain n) (no_cancelled n).

Definition newNode : node := mkNode NewWorkerService ∅ DrainIdle [].

(** [DrainSessions] up to its loop: the sessions it found are cancelled. *)
Definition DrainSessions_begin {MR : MapRange} (n : node) : node :=
  let '(service, cancels) := beginDrain (no_service n) in
  let n := n <| no_service := service |> <| no_cancelled := cancels |> in
  match cancels with
  | [] => n <| no_drain := DrainReturned true |>
  | _ => n <| no_drain := DrainLooking |>
  end.

(** The look at the registry that opens a turn of the loop. *)
Definition DrainSessions_look (n : node) : node :=
  if ActiveSessions (no_service n) =? 0 then n <| no_drain := DrainReturned true |>
  else n <| no_drain := DrainWaiting |>.

(** The deferred stop only logs an error of [Stop]. *)
Definition gatewayAfter (a : stopAnswers) (gateway : gatewayLife) (e : sessionEffect) : gatewayLife :=
  match e with
  | SpawnedGateway _ => GatewayRunning
  | StoppedGateway => (GatewayHandle_Stop a).1
  | _ => gateway
  end.

(** A handler does the next thing it has to do; the deferred calls after a failed
    stop run all the same. *)
Definition handlerStep (id : string) (a : stopAnswers) (n : node) : node :=
  match no_handlers n !! id with
  | Some (mkHandler (e :: rest) ended gateway) =>
      let n := n <| no_handlers := <[id := mkHandler rest ended (gatewayAfter a gateway e)]> (no_handlers n) |> in
      match e with
      | Unregistered session => n <| no_service := unregisterSession session (no_service n) |>
      | _ => n
      end
  | _ => n
  end.

Section Drain.
Context {MR : MapRange} {SV : Semver}.

(** A worker connects: the handler runs up to its registration, under the id
    [NewID] draws for it; what it meets afterwards is the turn's. *)
Definition connect (w : sessionWorld) (first : WorkerMessage) (events : list sessionEvent) (n : node) : node :=
  match no_handlers n !! sw_id w with
  | Some _ => n
  | None =>
      let w := mkSessionWorld (sw_id w) (sw_now w) (sw_leaseTTL w) (wo_draining (no_service n))
                 (sw_welcomeSent w) (sw_spawned w) in
      match Session w first events with
      | (Registered snapshot :: rest, ended) =>
          match registerSession snapshot (no_service n) with
          | Some service =>
              n <| no_service := service |>
                <| no_handlers :=
                     <[sw_id w := mkHandler rest (bool_decide (is_Some ended)) GatewayNone]> (no_handlers n) |>
          | None => n
          end
      | _ => n
      end
  end.

Inductive nodeTurn :=
  | NConnect (w : sessionWorld) (first : WorkerMessage) (events : list sessionEvent)
  | NHandler (id : string) (answers : stopAnswers)
  | NDrain
  | NLook
  | NTick
  | NLapse.

Definition nodeStep (n : node) (t : nodeTurn) : node :=
  match t, no_drain n with
  | NConnect w first events, _ => connect w first events n
  | NHandler id a, _ => handlerStep id a n
  | NDrain, DrainIdle => DrainSessions_begin n
  | NLook, DrainLooking => DrainSessions_look n
  | NTick, DrainWaiting => n <| no_drain := DrainLooking |>
  | NLapse, DrainWaiting => n <| no_drain := DrainReturned false |>
  | _, _ => n
  end.

Definition nodeRun (n : node) (turns : list nodeTurn) : node := foldl nodeStep n turns.




(** ** What a drain leaves behind *)

Definition sessionsOf (n : node) : gmap string SessionSnapshot := wo_sessions (no_service n).




















End Drain.


(** One session that drains: it connects, is cancelled, runs the stop of its
    gateway, which meets the given answers, and returns; a worker that connects
    afterwards is refused. *)
Definition drain_turns (a : stopAnswers) : list nodeTurn :=
  let step := NHandler "S1" (mkStopAnswers true true) in
  [NConnect sample_world (FrameHello sample_hello) [SessionDone []]; step; step;
   NDrain; NLook; NHandler "S1" a; NTick; step; step; NLook].

Definition late_worker : list nodeTurn :=
  [NConnect (mkSessionWorld "S2" 1 30 false true true) (FrameHello sample_hello) []].

Definition drained_node (a : stopAnswers) : node :=
  nodeRun (MR := elements_range) (SV := devSemver)
    (nodeRun (MR := elements_range) (SV := devSemver) newNode (drain_turns a)) late_worker.


(** A stop that fails is only logged: the session leaves the registry, the drain
    reports success, and the gateway is still there with its tasks in flight. *)
Lemma failed_stop_outlives_drain :
  let n := drained_node (mkStopAnswers false false) in
  no_drain n = DrainReturned true ∧ sessionsOf n = ∅ ∧
  hn_gateway <$> no_handlers n !! "S1" = Some (GatewayStuck false).
Proof. vm_compute. done. Qed.

(** ** Watching events *)

(** [WatchEvents] of one watcher: its subscription, what it sent, and whether and
    how it ended; [true] is nil. *)
Record watch := mkWatch {
  wa_bus : watched;
  wa_sub : Z;
  wa_sent : list TaskEvent;
  wa_ended : option bool }.

#[global] Instance watch_eta : Eta watch := λ a, mkWatch (wa_bus a) (wa_sub a) (wa_sent a) (wa_ended a).

Section Watch.
Context {MR : MapRange}.

(** [None] when the server has its event stream disabled. *)
Definition WatchEvents_start (enabled : bool) (queues : list string) (eventTypes : list TaskEventType)
    (bus : watched) : Code + watch :=
  if negb enabled then inl CodeUnavailable
  else
    inr (mkWatch (bus_step bus (OSubscribe (NewFilter queues eventTypes))) (bus_nextID (wt_bus bus)) [] None).

(** The return runs the deferred cancel. *)
Definition watchReturn (ok : bool) (a : watch) : watch :=
  a <| wa_bus := bus_step (wa_bus a) (OCancel (wa_sub a)) |> <| wa_ended := Some ok |>.

(** What the select meets, and what happens on the bus meanwhile; [sent] is whether
    the stream takes the event. *)
Inductive watchTurn := WBus (op : busOp) | WDone | WReceive (sent : bool).

Definition watchStep (a : watch) (t : watchTurn) : watch :=
  match t, wa_ended a with
  | WBus op, _ => if foreign (wa_sub a) op then a <| wa_bus := bus_step (wa_bus a) op |> else a
  | WDone, None => watchReturn true a
  | WReceive sent, None =>
      let r := (recv (wa_sub a) (wt_bus (wa_bus a))).2 in
      let a := a <| wa_bus := bus_step (wa_bus a) (ORecv (wa_sub a)) |> in
      match r with
      | RecvBlocked => a
      | RecvClosed => watchReturn true a
      | RecvEvent event =>
          if sent then a <| wa_sent := wa_sent a ++ [event] |> else watchReturn false a
      end
  | _, Some _ => a
  end.

(** While it runs the watcher is subscribed and has sent what it received; ended, it
    has left the bus, having lost at most the event its stream refused. *)
Record watch_ok (a : watch) : Prop := {
  wk_bus : bus_ok (wa_bus a);
  wk_channel : ∃ c, bus_channels (wt_bus (wa_bus a)) !! wa_sub a = Some c;
  wk_open : wa_ended a = None → ∃ f, bus_subscribers (wt_bus (wa_bus a)) !! wa_sub a = Some f;
  wk_left : wa_ended a ≠ None → bus_subscribers (wt_bus (wa_bus a)) !! wa_sub a = None;
  wk_received : ∃ refused, wt_received (wa_bus a) !! wa_sub a = Some (wa_sent a ++ refused) ∧
    (wa_ended a ≠ Some false → refused = []) ∧ (length refused <= 1)%nat }.

Lemma watch_ok_start queues types bus a :
  bus_ok bus → WatchEvents_start true queues types bus = inr a → watch_ok a.
Proof.
  intros Hok [= <-]. pose proof (bus_ok_step bus (OSubscribe (NewFilter queues types)) Hok) as Hok'.
  split; cbn -[bus_step]; [done|..]; cbn; rewrite ?lookup_insert_eq; eauto; try done; by exists [].
Qed.

Lemma cancel_leaves id b : bus_subscribers (EventBus.cancel id b) !! id = None.
Proof.
  unfold EventBus.cancel. destruct (bus_subscribers b !! id) eqn:E; [|done]. cbn. apply lookup_delete_eq.
Qed.

Lemma watch_ok_return ok a got :
  bus_ok (wa_bus a) → (∃ c, bus_channels (wt_bus (wa_bus a)) !! wa_sub a = Some c) →
  wt_received (wa_bus a) !! wa_sub a = Some (wa_sent a ++ got) → (ok = true → got = []) → (length got <= 1)%nat →
  watch_ok (watchReturn ok a).
Proof.
  intros Hb Hc Hg Hok Hl. unfold watchReturn. split; cbn -[bus_step]; try done.
  - by apply bus_ok_step.
  - by apply channel_kept.
  - intros _. apply cancel_leaves.
  - exists got. split; [exact Hg|]. split; [|done]. intros H. apply Hok. by destruct ok.
Qed.

Lemma watch_ok_receive sent a : wa_ended a = None → watch_ok a → watch_ok (watchStep a (WReceive sent)).
Proof.
  intros He [Hb Hc Ho _ (refused & Hg & Hr & _)].
  rewrite He in Hr. rewrite (Hr ltac:(done)), app_nil_r in Hg. clear Hr refused.
  pose proof (bus_ok_step (wa_bus a) (ORecv (wa_sub a)) Hb) as Hb'.
  pose proof (channel_kept (wa_sub a) (wa_bus a) (ORecv (wa_sub a)) Hb Hc) as Hc'.
  destruct Hc as [c Hc].
  assert (Hs' : bus_subscribers (wt_bus (bus_step (wa_bus a) (ORecv (wa_sub a)))) = bus_subscribers (wt_bus (wa_bus a))).
  { cbn. unfold recv. rewrite Hc. by destruct (ch_buffer c). }
  assert (Hg' : wt_received (bus_step (wa_bus a) (ORecv (wa_sub a))) !! wa_sub a =
    Some (wa_sent a ++ match (recv (wa_sub a) (wt_bus (wa_bus a))).2 with RecvEvent e => [e] | _ => [] end)).
  { cbn. unfold recv. rewrite Hc. destruct (ch_buffer c) as [|e rest]; cbn.
    - destruct (ch_closed c); by rewrite app_nil_r.
    - by rewrite lookup_alter_eq, Hg. }
  cbn [watchStep]. rewrite He.
  destruct (recv (wa_sub a) (wt_bus (wa_bus a))).2 as [event| |]; [destruct sent| |].
  - split; cbn -[bus_step]; try done; [by rewrite Hs'|]. exists [].
    rewrite app_nil_r. split; [exact Hg'|]. split; [done|cbn; lia].
  - eapply watch_ok_return; cbn -[bus_step]; [done..|exact Hg'|done|done].
  - eapply watch_ok_return; cbn -[bus_step]; [done..|exact Hg'|done|cbn; lia].
  - split; cbn -[bus_step]; try done; [by rewrite Hs'|]. exists [].
    split; [exact Hg'|]. split; [done|cbn; lia].
Qed.

Lemma watch_ok_step a t : watch_ok a → watch_ok (watchStep a t).
Proof.
  intros Hok. destruct t as [op| |sent].
  - cbn. destruct (foreign (wa_sub a) op) eqn:Hf; [|done]. destruct Hok as [Hb Hc Ho Hl (refused & Hg & Hr)].
    pose proof (foreign_subscriber _ _ _ Hb Hc Hf) as Hsub.
    split; cbn -[bus_step]; rewrite ?Hsub; try done.
    + by apply bus_ok_step.
    + by apply channel_kept.
    + exists refused. by rewrite (foreign_received _ _ _ Hb Hc Hf).
  - cbn. destruct (wa_ended a) eqn:He; [done|]. destruct Hok as [Hb Hc Ho Hl (refused & Hg & Hr & Hlen)].
    rewrite He in Hr. apply (watch_ok_return true a refused); try done. intros _. by apply Hr.
  - destruct (wa_ended a) eqn:He; [cbn; by rewrite He|by apply watch_ok_receive].
Qed.

(** A watcher is sent, in order, events its filter accepted while it watched; none
    is missing but what its full buffer dropped, what is still buffered, or the one
    its stream refused; and whatever ends it, it leaves the bus. *)
Lemma watch_sends_accepted queues types bufferSize ops turns a :
  WatchEvents_start true queues types (bus_run bufferSize ops) = inr a →
  let a' := foldl watchStep a turns in
  ∃ accepted refused c, wt_accepted (wa_bus a') !! wa_sub a' = Some accepted ∧
    bus_channels (wt_bus (wa_bus a')) !! wa_sub a' = Some c ∧
    wa_sent a' ++ refused ++ ch_buffer c `sublist_of` accepted ∧ (length refused <= 1)%nat ∧
    (wa_ended a' ≠ Some false → refused = []) ∧
    (bus_drops (wt_bus (wa_bus a')) = 0 → wa_sent a' ++ refused ++ ch_buffer c = accepted) ∧
    (wa_ended a' ≠ None ↔ bus_subscribers (wt_bus (wa_bus a')) !! wa_sub a' = None).
Proof.
  intros Hstart. assert (Hok : watch_ok (foldl watchStep a turns)).
  { pose proof (watch_ok_start _ _ _ _ (bus_ok_run bufferSize ops) Hstart) as Ha. clear Hstart. revert a Ha.
    induction turns as [|t turns IH]; intros a Ha; [done|]. cbn. by apply IH, watch_ok_step. }
  cbv zeta. set (a' := foldl watchStep a turns) in *. destruct Hok as [Hb [c Hc] Ho Hl (refused & Hg & Hr & Hlen)].
  destruct (bok_delivers _ Hb _ _ Hc) as (acc & got & Ha & Hg' & [D1 _ D3]).
  rewrite Hg in Hg'. injection Hg' as <-. rewrite <- app_assoc in D1, D3.
  exists acc, refused, c. split_and!; try done. split; [done|].
  intros Hn He. destruct (Ho He) as [f Hf]. congruence.
Qed.
End Watch.

(** ** Metrics *)

(** The gauge of pending tasks is read through a cache, so that scrapes share one
    query; [None] is the nil map. *)
Definition pendingCacheTTL : Duration := 5 * Second.

Record pendingCache := mkPendingCache { pc_fetchedAt : Time; pc_counts : option (gmap string Z) }.

Definition newPendingCache : pendingCache := mkPendingCache 0 None.

Inductive observation :=
  | ObservedInt64 (instrument : string) (value : Z)
  | ObservedQueue (instrument queue : string) (value : Z).

Section Metrics.
Context {MR : MapRange} {B : Type} (taskLog : broker B).

Definition pendingCache_get (now : Time) (c : pendingCache) (b : B) : pendingCache * (option callError + gmap string Z) :=
  let refresh :=
    match (taskLog now RPendingCount b).2 with
    | Numbers counts => (mkPendingCache now (Some counts), inr counts)
    | Failed err => (c, inl (Some err))
    | _ => (c, inl None)
    end in
  match pc_counts c with
  | Some counts => if time_Sub now (pc_fetchedAt c) <? pendingCacheTTL then (c, inr counts) else refresh
  | None => refresh
  end.

(** The callback [registerEngineMetrics] registers, run by every collection; the
    counts it prints are ranged over as a map. *)
Definition collectMetrics (counters : Counters) (sessions : Z) (now : Time) (c : pendingCache) (b : B)
    : pendingCache * list observation * option (option callError) :=
  let observed :=
    [ObservedInt64 "conveyor.enqueued" (ct_Enqueued counters);
     ObservedInt64 "conveyor.dispatched" (ct_Dispatched counters);
     ObservedInt64 "conveyor.completed" (ct_Completed counters);
     ObservedInt64 "conveyor.failed" (ct_Failed counters);
     ObservedInt64 "conveyor.retried" (ct_Retried counters);
     ObservedInt64 "conveyor.archived" (ct_Archived counters);
     ObservedInt64 "conveyor.released" (ct_Released counters);
     ObservedInt64 "conveyor.active" (ct_Active counters);
     ObservedInt64 "conveyor.sessions.active" sessions] in
  match pendingCache_get now c b with
  | (c, inl err) => (c, observed, Some err)
  | (c, inr counts) =>
      (c, observed ++ ((λ p, ObservedQueue "conveyor.pending" p.1 p.2) <$> range_map counts), None)
  end.

(** Scrapes at instants, each with the store it finds: the cache after them. *)
Definition scraped (scrapes : list (Time * B)) : pendingCache :=
  foldl (λ c p, (pendingCache_get p.1 c p.2).1) newPendingCache scrapes.

(** What is cached was counted at one of the scrapes. *)
Lemma scraped_counted scrapes counts :
  pc_counts (scraped scrapes) = Some counts →
  ∃ b, (pc_fetchedAt (scraped scrapes), b) ∈ scrapes ∧
    (taskLog (pc_fetchedAt (scraped scrapes)) RPendingCount b).2 = Numbers counts.
Proof.
  revert counts. induction scrapes as [|[now b] scrapes IH] using rev_ind; intros counts; [done|].
  unfold scraped. rewrite foldl_app. cbn [foldl fst snd]. fold (scraped scrapes).
  assert (Hkeep : pc_counts (scraped scrapes) = Some counts →
    ∃ b', (pc_fetchedAt (scraped scrapes), b') ∈ scrapes ++ [(now, b)] ∧
      (taskLog (pc_fetchedAt (scraped scrapes)) RPendingCount b').2 = Numbers counts).
  { intros H. destruct (IH _ H) as (b' & Hin & Hr). exists b'. split; [|done]. apply elem_of_app. by left. }
  unfold pendingCache_get.
  set (refresh := match (taskLog now RPendingCount b).2 with Numbers _ => _ | Failed _ => _ | _ => _ end).
  assert (Href : pc_counts refresh.1 = Some counts →
    ∃ b', (pc_fetchedAt refresh.1, b') ∈ scrapes ++ [(now, b)] ∧
      (taskLog (pc_fetchedAt refresh.1) RPendingCount b').2 = Numbers counts).
  { subst refresh. destruct (taskLog now RPendingCount b).2 eqn:Hr; cbn; try exact Hkeep.
    intros [= ->]. exists b. split; [|done]. apply elem_of_app. right. by apply list_elem_of_singleton. }
  destruct (pc_counts (scraped scrapes)) eqn:Hc; [|exact Href].
  destruct (_ <? _); cbn; [|exact Href]. rewrite Hc. exact Hkeep.
Qed.

(** The depths a scrape reports are those of one of the scrapes so far, at most
    [pendingCacheTTL] before it. *)
Lemma pending_depth_fresh scrapes now b counts :
  Forall (λ p, p.1 <= now) scrapes →
  (pendingCache_get now (scraped scrapes) b).2 = inr counts →
  ∃ at_ b', (at_, b') ∈ scrapes ++ [(now, b)] ∧ (taskLog at_ RPendingCount b').2 = Numbers counts ∧
    now - pendingCacheTTL < at_ <= now.
Proof.
  intros Hle. unfold pendingCache_get.
  set (refresh := match (taskLog now RPendingCount b).2 with Numbers _ => _ | Failed _ => _ | _ => _ end).
  assert (Href : refresh.2 = inr counts → ∃ at_ b', (at_, b') ∈ scrapes ++ [(now, b)] ∧
    (taskLog at_ RPendingCount b').2 = Numbers counts ∧ now - pendingCacheTTL < at_ <= now).
  { subst refresh. destruct (taskLog now RPendingCount b).2 eqn:Hr; cbn; try done. intros [= ->].
    exists now, b. split_and!; [|done|unfold pendingCacheTTL, Second; lia..].
    apply elem_of_app. right. by apply list_elem_of_singleton. }
  destruct (pc_counts (scraped scrapes)) as [cached|] eqn:Hc; [|exact Href].
  destruct (Z.ltb_spec (time_Sub now (pc_fetchedAt (scraped scrapes))) pendingCacheTTL) as [Hlt|]; [|exact Href].
  cbn. intros [= ->]. destruct (scraped_counted _ _ Hc) as (b' & Hin & Hr).
  exists (pc_fetchedAt (scraped scrapes)), b'. split_and!; [apply elem_of_app; by left|done|..].
  - unfold time_Sub, clamp64, pendingCacheTTL, Second in *. lia.
  - rewrite Forall_forall in Hle. apply (Hle _ Hin).
Qed.
End Metrics.

(** ** The cluster, as one node sees it *)

Record Peer := mkPeer { pe_Host : string; pe_PeersPort : Z; pe_CreatedAt : Z }.

(** What the actor system says of itself: its address, its uptime in seconds, and
    its peers, unless their lookup fails. *)
Definition ClusterInfo (address : string) (uptime : Z) (peers : option (list Peer)) (now : Time) : list NodeInfo :=
  mkNodeInfo address (timestamppb_New (time_Add now (wrap64 (- uptime * Second)))) ::
  match peers with
  | None => []
  | Some peers =>
      (λ peer, mkNodeInfo (pe_Host peer +:+ ":" +:+ pretty (pe_PeersPort peer))
                 (if 0 <? pe_CreatedAt peer then timestamppb_New (time_Unix (pe_CreatedAt peer)) else None)) <$> peers
  end.

(** ** The server command (cmd/conveyord) *)

Section Load.
Context {MR : MapRange} {NP : WebhookGuard.NetParsers} {UP : AdminApi.UrlParser} {F : Type}.
(** The registered discovery providers, and the base with the file and the
    environment over it, which libraries read and decode. *)
Context (registry : gmap string F) (layered : Config → string → string + Config).

(** [loadConfig] of the server: the layers, then validated. *)
Definition server_loadConfig (base : Config) (path : string) : string + Config :=
  match layered base path with
  | inl err => inl err
  | inr config => match Validate registry config with Some err => inl err | None => inr config end
  end.

Definition LoadConfig (path : string) : string + Config := server_loadConfig DefaultConfig path.
Definition LoadDevConfig : string + Config := server_loadConfig DevConfig "".

Definition conveyord_loadConfig (path mode : string) (dev : bool) : string + Config :=
  if dev then
    if decide (path ≠ "" ∨ mode ≠ "") then inl "--dev cannot be combined with --config or --mode"
    else LoadDevConfig
  else
    match LoadConfig path with
    | inl err => inl err
    | inr config =>
        if decide (mode ≠ "") then
          let config := config <| cf_Mode := mode |> in
          match Validate registry config with Some err => inl err | None => inr config end
        else inr config
    end.

(** A node starts only with a configuration that validates, in the mode asked for. *)
Lemma conveyord_runs_validated path mode dev config :
  conveyord_loadConfig path mode dev = inr config →
  Validate registry config = None ∧ (mode ≠ "" → cf_Mode config = mode).
Proof.
  assert (Hload : ∀ base path config, server_loadConfig base path = inr config →
    Validate registry config = None).
  { intros base path' c. unfold server_loadConfig. destruct (layered base path') as [|c']; [done|].
    destruct (Validate registry c') eqn:E; [done|]. by intros [= ->]. }
  unfold conveyord_loadConfig, LoadConfig, LoadDevConfig. destruct dev.
  - case_decide as Hx; [done|]. intros H. split; [by eapply Hload|]. intros Hm. exfalso. apply Hx. by right.
  - destruct (server_loadConfig DefaultConfig path) as [|c] eqn:Hl; [done|].
    case_decide as Hm.
    + destruct (Validate registry _) eqn:E; [done|]. by intros [= <-].
    + intros [= ->]. split; [by eapply Hload|done].
Qed.
End Load.

(** *** The health probe *)

Definition healthAddrEnv : string := "CONVEYOR_API__LISTEN".
Definition defaultHealthAddr : string := ":8080".
Definition healthzPath : string := "/healthz".

(** A list cut at the first, or at the last, occurrence of a byte. *)
Fixpoint cutFirst (sep : ascii) (l : list ascii) : option (list ascii * list ascii) :=
  match l with
  | [] => None
  | c :: l =>
      if Ascii.eqb c sep then Some ([], l)
      else (λ p, (c :: p.1, p.2)) <$> cutFirst sep l
  end.

Fixpoint cutLast (sep : ascii) (l : list ascii) : option (list ascii * list ascii) :=
  match l with
  | [] => None
  | c :: l =>
      match cutLast sep l with
      | Some p => Some (c :: p.1, p.2)
      | None => if Ascii.eqb c sep then Some ([], l) else None
      end
  end.

Definition holds (c : ascii) (l : list ascii) : bool := existsb (Ascii.eqb c) l.

(** [net.SplitHostPort] and [net.JoinHostPort]. *)
Definition SplitHostPort (hostport : string) : option (string * string) :=
  let l := String.list_ascii_of_string hostport in
  let text := String.string_of_list_ascii in
  match cutLast ":" l with
  | None => None
  | Some (before, port) =>
      match l with
      | "["%char :: rest =>
          match cutFirst "]" rest with
          | None => None
          | Some (host, after) =>
              if bool_decide (after = ":"%char :: port) && negb (holds "[" rest) && negb (holds "]" after)
              then Some (text host, text port) else None
          end
      | _ =>
          if holds ":" before || holds "[" l || holds "]" l then None else Some (text before, text port)
      end
  end.

Definition JoinHostPort (host port : string) : string :=
  if holds ":" (String.list_ascii_of_string host) then "[" +:+ host +:+ "]:" +:+ port else host +:+ ":" +:+ port.

Definition resolveHealthAddr (flagAddr envAddr : string) : string :=
  let addr := if decide (flagAddr = "") then envAddr else flagAddr in
  let addr := if decide (addr = "") then defaultHealthAddr else addr in
  match SplitHostPort addr with
  | None => addr
  | Some (host, port) =>
      JoinHostPort (if decide (host = "" ∨ host = "0.0.0.0" ∨ host = "::") then "127.0.0.1" else host) port
  end.

(** Whether the probe finds the node healthy; [http] answers a GET with a status, or
    not at all. *)
Definition runHealthcheck (http : string → option Z) (addr : string) : bool :=
  match http ("http://" +:+ addr +:+ healthzPath) with Some status => status =? 200 | None => false end.

Definition healthcheckCommand (http : string → option Z) (flagAddr : string) (getenv : string → string) : bool :=
  runHealthcheck http (resolveHealthAddr flagAddr (getenv healthAddrEnv)).

Lemma ascii_of_app s t :
  String.list_ascii_of_string (s +:+ t) = String.list_ascii_of_string s ++ String.list_ascii_of_string t.
Proof.
  induction s as [|c s IH]; [done|].
  change (String c s +:+ t) with (String c (s +:+ t)). cbn [String.list_ascii_of_string app]. by rewrite IH.
Qed.

Lemma holds_app c l r : holds c (l ++ r) = holds c l || holds c r.
Proof. apply existsb_app. Qed.

Lemma holds_cons c d l : holds c (d :: l) = Ascii.eqb c d || holds c l.
Proof. done. Qed.

Lemma cutLast_none sep l : holds sep l = false → cutLast sep l = None.
Proof.
  induction l as [|c l IH]; [done|]. cbn. rewrite Ascii.eqb_sym.
  intros [Hc Hl]%orb_false_iff. by rewrite (IH Hl), Hc.
Qed.

Lemma cutLast_app sep l r : holds sep r = false → cutLast sep (l ++ sep :: r) = Some (l, r).
Proof.
  intros Hr. induction l as [|c l IH]; cbn; [by rewrite cutLast_none, Ascii.eqb_refl|]. by rewrite IH.
Qed.

Lemma cutFirst_app sep l r : holds sep l = false → cutFirst sep (l ++ sep :: r) = Some (l, r).
Proof.
  induction l as [|c l IH]; cbn; [by rewrite Ascii.eqb_refl|]. rewrite Ascii.eqb_sym.
  intros [Hc Hl]%orb_false_iff. by rewrite Hc, (IH Hl).
Qed.

Definition plain (s : string) : Prop :=
  holds "[" (String.list_ascii_of_string s) = false ∧ holds "]" (String.list_ascii_of_string s) = false.

(** An address joined of a host, with colons or without, and a port splits into
    them again. *)
Lemma split_join host port :
  plain host → plain port → holds ":" (String.list_ascii_of_string port) = false →
  SplitHostPort (JoinHostPort host port) = Some (host, port).
Proof.
  intros [Ho Hc] [Po Pc] Pcolon. unfold SplitHostPort, JoinHostPort.
  rewrite <- (String.string_of_list_ascii_of_string host) at 4.
  rewrite <- (String.string_of_list_ascii_of_string port) at 3.
  destruct (holds ":" (String.list_ascii_of_string host)) eqn:Hcolon; cbv beta iota zeta; rewrite !ascii_of_app;
    set (h := String.list_ascii_of_string host) in *; set (p := String.list_ascii_of_string port) in *.
  - change (cutLast ":" _) with (cutLast ":" ("["%char :: h ++ "]"%char :: ":"%char :: p)).
    change (String.list_ascii_of_string "[" ++ _) with ("["%char :: h ++ "]"%char :: ":"%char :: p).
    pose proof (cutLast_app ":" ("["%char :: h ++ ["]"%char]) p Pcolon) as Hcut.
    cbn [app] in Hcut. rewrite <- app_assoc in Hcut. cbn [app] in Hcut. rewrite Hcut. cbv iota.
    rewrite cutFirst_app by done. rewrite bool_decide_true, holds_app, !holds_cons, Ho, Po, Pc by done. done.
  - change (String.list_ascii_of_string ":" ++ p) with (":"%char :: p). rewrite cutLast_app by done.
    rewrite !holds_app, !holds_cons, Hcolon, Ho, Hc, Po, Pc. cbn [orb Ascii.eqb Bool.eqb].
    destruct h as [|c l]; [done|]. rewrite holds_cons in Ho. apply orb_false_iff in Ho as [Hb _].
    by destruct c as [[] [] [] [] [] [] [] []].
Qed.

(** A server bound to every interface is probed over loopback, on its port; one
    bound to an address is probed there. *)
Lemma probe_reaches_listener host port http :
  plain host → plain port → holds ":" (String.list_ascii_of_string port) = false →
  healthcheckCommand http "" (λ _, JoinHostPort host port) =
  runHealthcheck http
    (JoinHostPort (if decide (host = "" ∨ host = "0.0.0.0" ∨ host = "::") then "127.0.0.1" else host) port).
Proof.
  intros Hh Hp Hc. unfold healthcheckCommand, resolveHealthAddr.
  rewrite (decide_True (P := "" = "")) by done.
  assert (JoinHostPort host port ≠ "") as Hne.
  { intros E. pose proof (split_join host port Hh Hp Hc) as Hs. by rewrite E in Hs. }
  rewrite (decide_False (P := JoinHostPort host port = "")) by done. by rewrite split_join.
Qed.

(** The addresses the probe's own test lists. *)
Example resolveHealthAddr_test :
  resolveHealthAddr "127.0.0.1:9000" "0.0.0.0:8080" = "127.0.0.1:9000" ∧
  resolveHealthAddr "" "127.0.0.1:9090" = "127.0.0.1:9090" ∧
  resolveHealthAddr "" "" = "127.0.0.1:8080" ∧
  resolveHealthAddr ":8080" "" = "127.0.0.1:8080" ∧
  resolveHealthAddr "0.0.0.0:7000" "" = "127.0.0.1:7000" ∧
  resolveHealthAddr "[::]:6000" "" = "127.0.0.1:6000".
Proof. repeat split; vm_compute; reflexivity. Qed.
